(* ===== verification/_CoqProject ===== *)
-Q . S2P
Prelude.v
Md5.v
Digest.v
Pearson.v
Sys.v
Mutex.v
LockSpec.v
MutexWin.v
ThreadWin.v
WsaErrno.v
Worker.v
Conn.v
ConnWin.v
Conf.v
ProxyConn.v
Auth.v
Pool.v
Registration.v
Log.v
StateErr.v
Proxyd.v
Service.v
Proxy.v
ProxyRun.v
ProxySystem.v
ProxyLife.v
ProxyClose.v
ProxyProps.v
Daemon.v
