(* ===== verification/Prelude.v ===== *)
(** * OpenELP: a verification library

    OpenELP (src/) is an EchoLink proxy in C: a library ([proxy.c] and the
    files it is built on), a daemon ([proxyd.c]) and a Windows service
    ([service.c]).  A proxy listens for
    clients, lets in those that know its password and whose callsign the
    configuration admits, gives each a slot (one external address with two UDP
    ports and a TCP connection), relays the client's messages to the EchoLink
    network and back until the client leaves, and tells a registrar how many
    slots are in use.  This library models the POSIX build, and the files and
    branches that replace others on Windows, translated function by function, and
    proves what makes them correct.

    ** How the code is modelled

    Pure code is a Gallina function on [Z], [list Z] (bytes) and records.
    Machine integers are [Z] with the wrap-around written out ([u8], [u16],
    [u32], [u64]).  Code that calls the system, the allocator or a lock is a
    value of [IO A] (Sys.v): from the history of calls to a result and the calls
    it adds.  The result [None] is undefined behaviour (a NULL or dangling
    pointer, a write outside a buffer) or a loop that does not end.  The answers
    of the system are a parameter [OS], so a theorem about every [OS] is about
    every environment; what POSIX documents is the class [OSLaws], and
    [AllocOK], [WholeSends] and [PthreadOK] say that memory, sending and the
    threads library do not fail, for the theorems that need it.  PCRE2 is the
    parameter [Pcre]; the slim locks of Windows are [SrwApi], with [SrwLaws] for
    what is documented of them, and [WinLaws] is about the handles of its threads.  Operating systems that satisfy the classes ([Scripted],
    [Peer], [Online], [Server] and others) run the code on examples.  Operations
    that mutate a structure take it and return it; where two parts of the code
    share an object by pointer the pointer is kept: the heap of connections that
    a worker and a slot share ([heap], [ph_conns]), and the intrusive lists of
    the pool with their pointers to pointers (Pool.v).

    Loops that are not structural have fuel, and running out of it is [None] or
    a result of its own.  Reading and sending have one unit per byte that is
    left, since a call that makes progress transfers one; parsing a stream has
    one per byte and one for the end; MD5 has one per block; the payload of a
    message one per piece of 4096 bytes; walking the idle workers or a bucket of
    slots one per element of the array.  In each case a theorem or lemma shows
    that this is enough.  The loops of the daemon and of the service stop with [MRunning]
    and [SRunning] when their fuel ends; [service_stops] shows that the service's
    does not need more than some number of rounds.  A session and the forwarders run as long as the client
    wishes: they take a number [n] of rounds, the theorems hold for every [n],
    and the result says whether the session goes on.

    ** The files

    - Prelude.v (this file): machine integers, C strings and buffers, decimal
      text, list lemmas.
    - Md5.v ([md5.c]): [MD5_Init], [MD5_Update], [MD5_Final] and the unrolled
      [body], against a table-driven RFC 1321.
    - Digest.v ([digest.c]), Pearson.v ([pearson.c]): hexadecimal text and
      digests; the hash of callsigns.
    - Sys.v: the environment, and the judgements [wp] (what a program returns and
      calls), [events], [gives] and [locks] (lock order) with their tactics.
    - Mutex.v ([mutex_posix.c]), Worker.v ([worker.c], [thread_posix.c]): the
      operations, and step relations [mstep] and [wstep] for any number of threads
      using a lock, and for a worker thread with its clients.
    - LockSpec.v ([mutex.h]): what a lock promises, as a transition system and as
      the classes [RWLock] and [RWLockOK], with the POSIX lock as an instance.
    - MutexWin.v ([mutex_win.c]), ThreadWin.v ([thread_win.c]), WsaErrno.v
      ([conn_wsa_errno.c]), ConnWin.v (the Windows branches of [conn.c]): the Windows
      versions; the lock is the second instance.
    - Conn.v ([conn.c]): sockets.  Conf.v ([conf.c]): the configuration file.
    - ProxyConn.v ([proxy_conn.c], [proxy_msg.h]): a slot, its messages and its
      forwarders.
    - Auth.v ([regex.c], [rand.c], [proxy_client.c], and [proxy_worker_authorize],
      [proxy_authorize_callsign], [get_nonce], [get_password_response] of
      [proxy.c]): both sides of the authorisation.
    - Pool.v (the lists of slots in [proxy.c]): the pointer operations, the
      critical sections that use them, and [pstep], any number of workers
      interleaving these.
    - Registration.v ([registration.c]), Log.v ([log.c] and the logging functions
      of [proxy.c]), Proxyd.v ([proxyd.c]), Service.v ([service.c]), the last two
      in the monad of StateErr.v.  The handler of the service's controls is a
      thread of its own, which a schedule interleaves with the service.
    - Proxy.v ([proxy.c]): a whole proxy, composed of all of the above.  The
      record [proxy_priv] is the C structure; [proxy_handle] has it together with
      the heap of the clients' connections.
    - ProxyRun.v: when a proxy is in order ([proxy_ok]), and that the operations
      keep it so.
    - ProxySystem.v: the threads.  [worker_step] cuts [proxy_worker_func] where
      another thread may come in between; [run] performs any sequence of such
      steps, of rounds of the forwarders, of [proxy_process], [proxy_drop] and
      [proxy_shutdown].
    - ProxyLife.v: initialising, opening, starting, closing, freeing.
    - ProxyClose.v: closing a proxy that is at work, with the steps of the other
      threads in between.
    - ProxyProps.v: the properties of the proxy that these lead to.
    - Daemon.v: the main program of Proxyd.v on the proxy of Proxy.v, from the
      command line and the configuration file to its end, with the threads of
      ProxySystem.v at work meanwhile.

    ** What is shown

    - Data.  Hashing in any number of pieces is RFC 1321's MD5; the text of a
      nonce decodes to the nonce; a printed configuration parses back; a command
      line written for options parses into them; a report to the registrar is
      what the protocol says, byte by byte, in buffers that are large enough up to
      a length of the name that is given exactly.
    - Protocol.  A client is let in exactly if its answer is right and its
      callsign is admitted, errors refuse, and the library's own client is let in.
      A session takes from the client exactly the messages it announces, whatever
      the client sends; UDP payloads and forwarded data go out in order and
      complete.
    - Resources.  Descriptors are accounted for, and on Windows the uses of Winsock; locks are taken in one order and
      released on every path; switching logs keeps the current one's resource;
      the daemon and the service free the proxy once, on every path; the handles of
      Windows threads are closed.
    - Threads.  The locks of both systems keep the contract of [mutex.h], which is
      enough to guard data; the reader count is exact; wakeups of locks and workers
      are not lost; work that was accepted is performed.
    - The service.  Its states are reported in order, whenever it is told to stop;
      when told to it stops; its configuration's path fits its buffer up to a
      length that is given exactly.
    - The pool.  The pointer operations refine lists; no interleaving of the
      critical sections loses or doubles a slot, unless a slot is claimed in the
      window between the end of its session and its return, in which case a
      theorem exhibits the loss.
    - The proxy.  In every interleaving of connections, workers and forwarders no
      bad pointer is followed, and slots, connections and workers stay matched; a connection
      goes to one worker or is freed; a worker returns all it took; the critical
      section of [proxy.c] refines the pool's step; the registrar gets the right
      numbers; a proxy comes up with all its slots or with an error; it goes down
      leaving nothing, also when clients are being served: each worker is at most
      six of its own steps away from its end then.
    - The daemon.  Whatever its arguments, its configuration file (as long as this has a
      password and a name that fits, or is refused), its clients and the interleaving of its
      threads, it follows no bad pointer and has freed everything when it returns;
      it is a run of the main program of Proxyd.v, whose results of the library
      are arbitrary.
    - Failures.  Theorems that end in [_crashes], [_dangles], [_leaks],
      [_loses_slot], [_stuck], [_ignored], [_wraps] and the like show what the code does where it does not
      do what it means to.

    ** Not modelled

    - A whole proxy on Windows: Proxy.v and what follows it use the POSIX connections
      and threads.  The event log of [log.c] is modelled, with its calls as actions.
    - The seed of the generator of nonces; what it draws is the system's answer.
    - What the operations of [conf.c], [proxy_conn.c], [registration.c] and
      [proxy.c] write to the log.  Log.v says what a message does.
    - Interference inside a step of ProxySystem.v: a step is performed as a whole.
      Pool.v goes below that where it matters, in the window named above, and
      Mutex.v, LockSpec.v and Worker.v for the locks and the threads the steps
      rely on.
    - Real time: time-outs are answers of the system. *)

From stdpp Require Export prelude list gmap strings numbers relations.
From Stdlib Require Export ZArith Lia.

#[export] Set Default Goal Selector "!".
#[export] Set Warnings "-clear-no-such-hyp".
#[global] Open Scope Z_scope.

(** ** Machine integers

    A [w]-bit unsigned C integer is a [Z] in [0, 2^w); every arithmetic
    result is wrapped explicitly where the C code wraps it. *)

Definition u8 (z : Z) : Z := z mod 2 ^ 8.
Definition u16 (z : Z) : Z := z mod 2 ^ 16.
Definition u32 (z : Z) : Z := z mod 2 ^ 32.
Definition u64 (z : Z) : Z := z mod 2 ^ 64.

(** The value of a [char] holding the byte [b] on the supported targets,
    where plain [char] is signed. *)
Definition schar (b : Z) : Z := if b <? 128 then b else b - 256.

Definition is_u8 (z : Z) : Prop := 0 <= z < 2 ^ 8.
Definition is_u16 (z : Z) : Prop := 0 <= z < 2 ^ 16.
Definition is_u32 (z : Z) : Prop := 0 <= z < 2 ^ 32.
Definition bytes_ok (l : list Z) : Prop := Forall is_u8 l.

#[export] Instance is_u8_dec z : Decision (is_u8 z).
Proof. unfold is_u8. apply _. Defined.
#[export] Instance is_u16_dec z : Decision (is_u16 z).
Proof. unfold is_u16. apply _. Defined.
#[export] Instance is_u32_dec z : Decision (is_u32 z).
Proof. unfold is_u32. apply _. Defined.
#[export] Instance bytes_ok_dec l : Decision (bytes_ok l).
Proof. unfold bytes_ok. apply _. Defined.

Lemma u8_range z : is_u8 (u8 z).
Proof. apply Z.mod_pos_bound. lia. Qed.

Lemma u16_range z : is_u16 (u16 z).
Proof. apply Z.mod_pos_bound. lia. Qed.

Lemma u32_range z : is_u32 (u32 z).
Proof. apply Z.mod_pos_bound. lia. Qed.

Lemma u8_id z : is_u8 z -> u8 z = z.
Proof. apply Z.mod_small. Qed.

Lemma u16_id z : is_u16 z -> u16 z = z.
Proof. apply Z.mod_small. Qed.

Lemma u32_id z : is_u32 z -> u32 z = z.
Proof. apply Z.mod_small. Qed.

Lemma u32_add_l a b : u32 (u32 a + b) = u32 (a + b).
Proof. apply Zplus_mod_idemp_l. Qed.

Lemma u32_add_r a b : u32 (a + u32 b) = u32 (a + b).
Proof. apply Zplus_mod_idemp_r. Qed.

(** ** Bit patterns *)

(** Decide an equation of bit [i] of bitwise combinations. *)
Ltac bits_decide :=
  repeat (rewrite Z.lxor_spec || rewrite Z.land_spec || rewrite Z.lor_spec);
  repeat match goal with
    | |- context [Z.testbit ?a ?i] => destruct (Z.testbit a i)
    end; reflexivity.

Lemma land_ones_mod z n : 0 <= n -> Z.land z (Z.ones n) = z mod 2 ^ n.
Proof. intros. by apply Z.land_ones. Qed.

Lemma u32_land z : u32 z = Z.land z (Z.ones 32).
Proof. unfold u32. by rewrite Z.land_ones. Qed.

(** Bits of a [w]-bit value vanish from position [w] on. *)
Lemma testbit_small z w i : 0 <= z < 2 ^ w -> 0 <= w -> w <= i -> Z.testbit z i = false.
Proof.
  intros Hz Hw Hi. rewrite <- (Z.mod_small z (2 ^ w)) by done.
  by apply Z.mod_pow2_bits_high.
Qed.

(** Joining a low part with a shifted high part: [lor] is addition. *)
Lemma lor_shiftl_add x y n :
  0 <= n -> 0 <= x < 2 ^ n -> Z.lor x (Z.shiftl y n) = x + y * 2 ^ n.
Proof.
  intros Hn Hx. rewrite <- Z.shiftl_mul_pow2 by done.
  rewrite Z.add_nocarry_lxor, Z.lxor_lor; try done;
    apply Z.bits_inj'; intros i Hi; rewrite Z.land_spec, Z.bits_0, Z.shiftl_spec by done;
    (destruct (decide (i < n)); [rewrite (Z.testbit_neg_r y) by lia; apply andb_false_r|]);
    by rewrite (testbit_small x n) by lia.
Qed.

(** ** Assignments

    [let! x := e in k] is [let x := e in k] kept as an application, so that a
    long run of assignments can be stepped through one at a time without
    duplicating [e]. *)

Declare Scope elp_scope.
Delimit Scope elp_scope with elp.
#[global] Open Scope elp_scope.

Definition assign {A B : Type} (e : A) (k : A -> B) : B := k e.

Notation "'let!' x ':=' e 'in' k" := (assign e (fun x => k))
  (at level 10, x name, e at level 200, k at level 200) : elp_scope.

Lemma assign_eq {A B : Type} (e : A) (k : A -> B) (r : B) :
  (forall x, x = e -> k x = r) -> assign e k = r.
Proof. intros H. by apply H. Qed.

(** ** C memory blocks

    A block is the list of its bytes.  [memcpy dst off src] overwrites
    [dst] from [off] with all of [src]; [memset dst off v n] writes [n]
    copies of [v]. *)

Definition memcpy (dst : list Z) (off : nat) (src : list Z) : list Z :=
  take off dst ++ src ++ drop (off + length src) dst.

Definition memset (dst : list Z) (off : nat) (v : Z) (n : nat) : list Z :=
  memcpy dst off (replicate n v).

Lemma length_memcpy dst off src :
  (off + length src <= length dst)%nat -> length (memcpy dst off src) = length dst.
Proof. intros H. unfold memcpy. rewrite !length_app, length_take, length_drop. lia. Qed.

Lemma length_memset dst off v n :
  (off + n <= length dst)%nat -> length (memset dst off v n) = length dst.
Proof. intros H. unfold memset. rewrite length_memcpy; [done|]. by rewrite length_replicate. Qed.

Lemma take_memcpy dst off src k :
  (off <= length dst)%nat -> k = (off + length src)%nat ->
  take k (memcpy dst off src) = take off dst ++ src.
Proof.
  intros H ->. unfold memcpy. rewrite app_assoc, take_app_length'; [done|].
  rewrite length_app, length_take. lia.
Qed.

Lemma memcpy_full dst src :
  length src = length dst -> memcpy dst 0 src = src.
Proof.
  intros H. unfold memcpy. simpl. rewrite H, drop_all, app_nil_r. done.
Qed.

(** ** C strings *)

(** The bytes of a string literal, without its terminator. *)
Definition str (s : string) : list Z :=
  (fun c => Z.of_nat (Ascii.nat_of_ascii c)) <$> String.list_ascii_of_string s.

(** The string stored at the start of a block: everything before the first
    NUL. *)
Fixpoint cstr (l : list Z) : list Z :=
  match l with
  | [] => []
  | c :: l => if c =? 0 then [] else c :: cstr l
  end.

Definition no_nul (l : list Z) : Prop := Forall (fun c => c <> 0) l.

#[export] Instance no_nul_dec l : Decision (no_nul l).
Proof. unfold no_nul. apply _. Defined.

Lemma cstr_no_nul l : no_nul (cstr l).
Proof.
  induction l as [|c l IH]; simpl; [constructor|].
  destruct (Z.eqb_spec c 0); constructor; auto.
Qed.

Lemma cstr_id l : no_nul l -> cstr l = l.
Proof.
  induction 1 as [|c l Hc _ IH]; simpl; [done|].
  rewrite (proj2 (Z.eqb_neq c 0)) by done. by rewrite IH.
Qed.

Lemma cstr_app_nul l r : no_nul l -> cstr (l ++ 0 :: r) = l.
Proof.
  induction 1 as [|c l Hc _ IH]; simpl; [done|].
  rewrite (proj2 (Z.eqb_neq c 0)) by done. by rewrite IH.
Qed.

Lemma cstr_length l : (length (cstr l) <= length l)%nat.
Proof. induction l as [|c l IH]; simpl; [lia|]. case_match; simpl; lia. Qed.

Lemma cstr_take l : cstr l = take (length (cstr l)) l.
Proof. induction l as [|c l IH]; simpl; [done|]. case_match; simpl; [done|]. by f_equal. Qed.

(** ** Decimal text

    The digits [printf] gives for a number below [10 ^ 20], most significant
    first, and the number a digit string denotes. *)

Fixpoint dec_go (fuel : nat) (z : Z) (acc : list Z) : list Z :=
  match fuel with
  | O => acc
  | S fuel =>
      let acc := 48 + z mod 10 :: acc in
      if z <? 10 then acc else dec_go fuel (z / 10) acc
  end.
Definition dec (z : Z) : list Z := dec_go 20 z [].
Definition dec_value (l : list Z) : Z := fold_left (fun v d => 10 * v + (d - 48)) l 0.

Lemma dec_go_value fuel z acc :
  0 <= z < 10 ^ Z.of_nat fuel ->
  fold_left (fun v d => 10 * v + (d - 48)) (dec_go fuel z acc) 0 =
  fold_left (fun v d => 10 * v + (d - 48)) acc z.
Proof.
  revert z acc. induction fuel as [|fuel IH]; intros z acc Hz.
  { simpl in *. by replace z with 0 by lia. }
  rewrite Nat2Z.inj_succ, Z.pow_succ_r in Hz by lia. cbn [dec_go].
  destruct (Z.ltb_spec z 10).
  - cbn [fold_left]. f_equal. rewrite Z.mod_small; lia.
  - rewrite IH.
    + cbn [fold_left]. f_equal. pose proof (Z.div_mod z 10). lia.
    + split; [apply Z.div_pos; lia|apply Z.div_lt_upper_bound; lia].
Qed.

Lemma dec_value_dec z : 0 <= z < 10 ^ 20 -> dec_value (dec z) = z.
Proof. intros Hz. by apply (dec_go_value 20 z []). Qed.

Lemma dec_go_digits fuel z acc :
  Forall (fun d => 48 <= d <= 57) acc -> Forall (fun d => 48 <= d <= 57) (dec_go fuel z acc).
Proof.
  revert z acc. induction fuel as [|fuel IH]; intros z acc Ha; [done|]. cbn [dec_go].
  pose proof (Z.mod_pos_bound z 10).
  assert (Forall (fun d => 48 <= d <= 57) (48 + z mod 10 :: acc)) by (constructor; [lia|done]).
  destruct (z <? 10); auto.
Qed.

Lemma dec_go_nonempty fuel z acc : acc <> [] -> dec_go fuel z acc <> [].
Proof.
  revert z acc. induction fuel as [|fuel IH]; intros z acc Ha; [done|]. cbn [dec_go].
  destruct (z <? 10); [done|]. by apply IH.
Qed.

Lemma dec_nonempty z : dec z <> [].
Proof. unfold dec. cbn [dec_go]. destruct (z <? 10); [done|]. by apply (dec_go_nonempty 19). Qed.

Lemma dec_go_length fuel z acc (k : nat) :
  0 <= z < 10 ^ Z.of_nat k -> (1 <= k)%nat -> (length (dec_go fuel z acc) <= k + length acc)%nat.
Proof.
  revert z acc k. induction fuel as [|fuel IH]; intros z acc k Hz Hk; cbn [dec_go]; [lia|].
  destruct (Z.ltb_spec z 10); [simpl; lia|]. destruct k as [|[|k]]; [lia|simpl in Hz; lia|].
  specialize (IH (z / 10) (48 + z mod 10 :: acc) (S k)). cbn [length] in IH.
  rewrite (Nat2Z.inj_succ (S k)), Z.pow_succ_r in Hz by lia.
  assert (0 <= z / 10 < 10 ^ Z.of_nat (S k)) by (split; [apply Z.div_pos; lia|apply Z.div_lt_upper_bound; lia]).
  lia.
Qed.

Lemma dec_length z (k : nat) :
  0 <= z < 10 ^ Z.of_nat k -> (1 <= k)%nat -> (length (dec z) <= k)%nat.
Proof. intros Hz Hk. pose proof (dec_go_length 20 z [] k Hz Hk) as Hl. cbn [length] in Hl. unfold dec. lia. Qed.

Lemma dec_digits z : Forall (fun d => 48 <= d <= 57) (dec z).
Proof. by apply dec_go_digits. Qed.

Lemma bytes_ok_app l1 l2 : bytes_ok (l1 ++ l2) <-> bytes_ok l1 /\ bytes_ok l2.
Proof. apply Forall_app. Qed.

Lemma bytes_ok_take n l : bytes_ok l -> bytes_ok (take n l).
Proof. apply Forall_take. Qed.

Lemma bytes_ok_drop n l : bytes_ok l -> bytes_ok (drop n l).
Proof. apply Forall_drop. Qed.

(** ** Rewriting and resolution databases *)

Create HintDb elp.
Create Rewrite HintDb len.
#[export] Hint Resolve u8_range u16_range u32_range cstr_no_nul bytes_ok_take
  bytes_ok_drop : elp.

#[export] Hint Rewrite @length_app @length_take @length_drop @length_replicate
  @length_fmap @length_insert @length_reverse : len.

(** Solve length goals: normalise with the [len] database, then [lia]. *)
Ltac len := autorewrite with len; cbn [length] in *; try lia.

(** Linear arithmetic with division and remainder by constants. *)
Ltac div_lia := Z.div_mod_to_equations; lia.

(** Destruct the boolean comparisons on [Z] and [nat] in the goal into their
    propositions. *)
Ltac cmp_split :=
  repeat match goal with
    | |- context [?a =? ?b] => destruct (Z.eqb_spec a b)
    | |- context [?a <? ?b] => destruct (Z.ltb_spec a b)
    | |- context [?a <=? ?b] => destruct (Z.leb_spec a b)
    end.
