(* ===== verification/Md5.v ===== *)
(** * MD5 (src/src/md5.c)

    The streaming MD5 of [md5.c]: the round functions and the 64 unrolled
    steps of [body], and [MD5_Init], [MD5_Update], [MD5_Final] over the
    [MD5_CTX] record.  [Spec] is the algorithm of RFC 1321, section 3: pad
    the message, then fold a table-driven compression function over its
    64-byte blocks.  The main theorem is a refinement: any sequence of
    [MD5_Update] calls followed by [MD5_Final] computes the specification's
    digest of the concatenated input, for inputs of every length. *)

From S2P Require Import Prelude.

(** ** The RFC 1321 algorithm *)

Module Spec.

Definition rotl32 (x s : Z) : Z :=
  u32 (Z.lor (Z.shiftl x s) (Z.shiftr x (32 - s))).

Definition F (x y z : Z) : Z := Z.lor (Z.land x y) (Z.land (Z.lnot x) z).
Definition G (x y z : Z) : Z := Z.lor (Z.land x z) (Z.land y (Z.lnot z)).
Definition H (x y z : Z) : Z := Z.lxor (Z.lxor x y) z.
Definition I (x y z : Z) : Z := Z.lxor y (Z.lor x (u32 (Z.lnot z))).

(** The table [T] of section 3.4: [T[i]] is the integer part of
    [2^32 * |sin (i + 1)|]. *)
Definition T : list Z :=
  [0xd76aa478; 0xe8c7b756; 0x242070db; 0xc1bdceee;
   0xf57c0faf; 0x4787c62a; 0xa8304613; 0xfd469501;
   0x698098d8; 0x8b44f7af; 0xffff5bb1; 0x895cd7be;
   0x6b901122; 0xfd987193; 0xa679438e; 0x49b40821;
   0xf61e2562; 0xc040b340; 0x265e5a51; 0xe9b6c7aa;
   0xd62f105d; 0x02441453; 0xd8a1e681; 0xe7d3fbc8;
   0x21e1cde6; 0xc33707d6; 0xf4d50d87; 0x455a14ed;
   0xa9e3e905; 0xfcefa3f8; 0x676f02d9; 0x8d2a4c8a;
   0xfffa3942; 0x8771f681; 0x6d9d6122; 0xfde5380c;
   0xa4beea44; 0x4bdecfa9; 0xf6bb4b60; 0xbebfbc70;
   0x289b7ec6; 0xeaa127fa; 0xd4ef3085; 0x04881d05;
   0xd9d4d039; 0xe6db99e5; 0x1fa27cf8; 0xc4ac5665;
   0xf4292244; 0x432aff97; 0xab9423a7; 0xfc93a039;
   0x655b59c3; 0x8f0ccc92; 0xffeff47d; 0x85845dd1;
   0x6fa87e4f; 0xfe2ce6e0; 0xa3014314; 0x4e0811a1;
   0xf7537e82; 0xbd3af235; 0x2ad7d2bb; 0xeb86d391].

(** Shift amounts, round functions and message indices of step [i]. *)
Definition shift (i : nat) : Z :=
  let r := (i / 16)%nat in let k := (i mod 4)%nat in
  nth k (nth r [[7; 12; 17; 22]; [5; 9; 14; 20]; [4; 11; 16; 23]; [6; 10; 15; 21]] []) 0.

Definition fn (i : nat) : Z -> Z -> Z -> Z :=
  match (i / 16)%nat with 0%nat => F | 1%nat => G | 2%nat => H | _ => I end.

Definition idx (i : nat) : nat :=
  match (i / 16)%nat with
  | 0%nat => i mod 16
  | 1%nat => (5 * i + 1) mod 16
  | 2%nat => (3 * i + 5) mod 16
  | _ => (7 * i) mod 16
  end%nat.

Definition state : Type := Z * Z * Z * Z.

(** One operation [a = b + ((a + f(b,c,d) + X[k] + T[i]) <<< s)], after which
    the four words rotate. *)
Definition step (X : list Z) (st : state) (i : nat) : state :=
  let '(a, b, c, d) := st in
  let a' := u32 (b + rotl32 (u32 (a + fn i b c d + nth (idx i) X 0 + nth i T 0)) (shift i)) in
  (d, a', b, c).

Definition word (b : list Z) : Z :=
  nth 0 b 0 + 2 ^ 8 * nth 1 b 0 + 2 ^ 16 * nth 2 b 0 + 2 ^ 24 * nth 3 b 0.

Definition words (blk : list Z) : list Z :=
  (fun i => word (drop (4 * i) blk)) <$> seq 0 16.

Definition compress (st : state) (blk : list Z) : state :=
  let '(a, b, c, d) := fold_left (step (words blk)) (seq 0 64) st in
  let '(a0, b0, c0, d0) := st in
  (u32 (a0 + a), u32 (b0 + b), u32 (c0 + c), u32 (d0 + d)).

Fixpoint blocks (n : nat) (l : list Z) : list (list Z) :=
  match n with
  | O => []
  | S n => take 64 l :: blocks n (drop 64 l)
  end.

Definition init : state := (0x67452301, 0xefcdab89, 0x98badcfe, 0x10325476).

Definition le32 (w : Z) : list Z :=
  [u8 w; u8 (Z.shiftr w 8); u8 (Z.shiftr w 16); u8 (Z.shiftr w 24)].

(** Number of zero bytes between the [0x80] marker and the length field. *)
Definition zeros (len : nat) : nat :=
  let r := (len mod 64)%nat in
  if (r <? 56)%nat then 55 - r else 119 - r.

(** Length of the message in bits, the low-order 64 bits of it. *)
Definition bitlen (len : nat) : Z := (8 * Z.of_nat len) mod 2 ^ 64.

Definition pad (m : list Z) : list Z :=
  m ++ [0x80] ++ replicate (zeros (length m)) 0
    ++ le32 (u32 (bitlen (length m))) ++ le32 (bitlen (length m) / 2 ^ 32).

Definition absorb (st : state) (l : list Z) : state :=
  fold_left compress (blocks (length l / 64) l) st.

Definition output (st : state) : list Z :=
  let '(a, b, c, d) := st in le32 a ++ le32 b ++ le32 c ++ le32 d.

Definition md5 (m : list Z) : list Z := output (absorb init (pad m)).

End Spec.

(** ** The code *)

Definition not32 (z : Z) : Z := u32 (Z.lnot z).

Definition F (x y z : Z) : Z := Z.lxor z (Z.land x (Z.lxor y z)).
Definition G (x y z : Z) : Z := Z.lxor y (Z.land z (Z.lxor x y)).
Definition H (x y z : Z) : Z := Z.lxor (Z.lxor x y) z.
Definition H2 (x y z : Z) : Z := Z.lxor x (Z.lxor y z).
Definition I (x y z : Z) : Z := Z.lxor y (Z.lor x (not32 z)).

(** [STEP(f, a, b, c, d, x, t, s)]: the new value of [a]. *)
Definition STEP (f : Z -> Z -> Z -> Z) (a b c d x t s : Z) : Z :=
  let a := u32 (a + u32 (f b c d + x + t)) in
  let a := Z.lor (u32 (Z.shiftl a s)) (Z.shiftr (Z.land a 0xffffffff) (32 - s)) in
  u32 (a + b).

(** [SET(n)]: the portable variant, which assembles four bytes in
    little-endian order.  [GET(n)] reads back the word that [SET(n)] cached in
    [ctx->block] in the same iteration, or loads it again on x86: it is this
    same function of [ptr], and the cache itself is not kept. *)
Definition SET (ptr : list Z) (n : nat) : Z :=
  Z.lor (Z.lor (Z.lor (nth (n * 4) ptr 0)
                      (u32 (Z.shiftl (nth (n * 4 + 1) ptr 0) 8)))
               (u32 (Z.shiftl (nth (n * 4 + 2) ptr 0) 16)))
        (u32 (Z.shiftl (nth (n * 4 + 3) ptr 0) 24)).

Record MD5_CTX : Type := mkCtx {
  lo : Z; hi : Z;
  a : Z; b : Z; c : Z; d : Z;
  buffer : list Z;
}.

Definition set_abcd (ctx : MD5_CTX) (st : Spec.state) : MD5_CTX :=
  let '(a, b, c, d) := st in mkCtx (lo ctx) (hi ctx) a b c d (buffer ctx).
Definition get_abcd (ctx : MD5_CTX) : Spec.state := (a ctx, b ctx, c ctx, d ctx).
Definition set_buffer (ctx : MD5_CTX) (buf : list Z) : MD5_CTX :=
  mkCtx (lo ctx) (hi ctx) (a ctx) (b ctx) (c ctx) (d ctx) buf.

(** The body of the [do] loop of [body]; [X n] is the word that [SET(n)] and
    [GET(n)] denote in the current block. *)
Definition body_rounds (X : nat -> Z) (st : Spec.state) : Spec.state :=
  let '(a, b, c, d) := st in
  let saved_a := a in let saved_b := b in
  let saved_c := c in let saved_d := d in
  (* Round 1 *)
  let! a := STEP F a b c d (X 0%nat) 0xd76aa478 7 in
  let! d := STEP F d a b c (X 1%nat) 0xe8c7b756 12 in
  let! c := STEP F c d a b (X 2%nat) 0x242070db 17 in
  let! b := STEP F b c d a (X 3%nat) 0xc1bdceee 22 in
  let! a := STEP F a b c d (X 4%nat) 0xf57c0faf 7 in
  let! d := STEP F d a b c (X 5%nat) 0x4787c62a 12 in
  let! c := STEP F c d a b (X 6%nat) 0xa8304613 17 in
  let! b := STEP F b c d a (X 7%nat) 0xfd469501 22 in
  let! a := STEP F a b c d (X 8%nat) 0x698098d8 7 in
  let! d := STEP F d a b c (X 9%nat) 0x8b44f7af 12 in
  let! c := STEP F c d a b (X 10%nat) 0xffff5bb1 17 in
  let! b := STEP F b c d a (X 11%nat) 0x895cd7be 22 in
  let! a := STEP F a b c d (X 12%nat) 0x6b901122 7 in
  let! d := STEP F d a b c (X 13%nat) 0xfd987193 12 in
  let! c := STEP F c d a b (X 14%nat) 0xa679438e 17 in
  let! b := STEP F b c d a (X 15%nat) 0x49b40821 22 in
  (* Round 2 *)
  let! a := STEP G a b c d (X 1%nat) 0xf61e2562 5 in
  let! d := STEP G d a b c (X 6%nat) 0xc040b340 9 in
  let! c := STEP G c d a b (X 11%nat) 0x265e5a51 14 in
  let! b := STEP G b c d a (X 0%nat) 0xe9b6c7aa 20 in
  let! a := STEP G a b c d (X 5%nat) 0xd62f105d 5 in
  let! d := STEP G d a b c (X 10%nat) 0x02441453 9 in
  let! c := STEP G c d a b (X 15%nat) 0xd8a1e681 14 in
  let! b := STEP G b c d a (X 4%nat) 0xe7d3fbc8 20 in
  let! a := STEP G a b c d (X 9%nat) 0x21e1cde6 5 in
  let! d := STEP G d a b c (X 14%nat) 0xc33707d6 9 in
  let! c := STEP G c d a b (X 3%nat) 0xf4d50d87 14 in
  let! b := STEP G b c d a (X 8%nat) 0x455a14ed 20 in
  let! a := STEP G a b c d (X 13%nat) 0xa9e3e905 5 in
  let! d := STEP G d a b c (X 2%nat) 0xfcefa3f8 9 in
  let! c := STEP G c d a b (X 7%nat) 0x676f02d9 14 in
  let! b := STEP G b c d a (X 12%nat) 0x8d2a4c8a 20 in
  (* Round 3 *)
  let! a := STEP H a b c d (X 5%nat) 0xfffa3942 4 in
  let! d := STEP H2 d a b c (X 8%nat) 0x8771f681 11 in
  let! c := STEP H c d a b (X 11%nat) 0x6d9d6122 16 in
  let! b := STEP H2 b c d a (X 14%nat) 0xfde5380c 23 in
  let! a := STEP H a b c d (X 1%nat) 0xa4beea44 4 in
  let! d := STEP H2 d a b c (X 4%nat) 0x4bdecfa9 11 in
  let! c := STEP H c d a b (X 7%nat) 0xf6bb4b60 16 in
  let! b := STEP H2 b c d a (X 10%nat) 0xbebfbc70 23 in
  let! a := STEP H a b c d (X 13%nat) 0x289b7ec6 4 in
  let! d := STEP H2 d a b c (X 0%nat) 0xeaa127fa 11 in
  let! c := STEP H c d a b (X 3%nat) 0xd4ef3085 16 in
  let! b := STEP H2 b c d a (X 6%nat) 0x04881d05 23 in
  let! a := STEP H a b c d (X 9%nat) 0xd9d4d039 4 in
  let! d := STEP H2 d a b c (X 12%nat) 0xe6db99e5 11 in
  let! c := STEP H c d a b (X 15%nat) 0x1fa27cf8 16 in
  let! b := STEP H2 b c d a (X 2%nat) 0xc4ac5665 23 in
  (* Round 4 *)
  let! a := STEP I a b c d (X 0%nat) 0xf4292244 6 in
  let! d := STEP I d a b c (X 7%nat) 0x432aff97 10 in
  let! c := STEP I c d a b (X 14%nat) 0xab9423a7 15 in
  let! b := STEP I b c d a (X 5%nat) 0xfc93a039 21 in
  let! a := STEP I a b c d (X 12%nat) 0x655b59c3 6 in
  let! d := STEP I d a b c (X 3%nat) 0x8f0ccc92 10 in
  let! c := STEP I c d a b (X 10%nat) 0xffeff47d 15 in
  let! b := STEP I b c d a (X 1%nat) 0x85845dd1 21 in
  let! a := STEP I a b c d (X 8%nat) 0x6fa87e4f 6 in
  let! d := STEP I d a b c (X 15%nat) 0xfe2ce6e0 10 in
  let! c := STEP I c d a b (X 6%nat) 0xa3014314 15 in
  let! b := STEP I b c d a (X 13%nat) 0x4e0811a1 21 in
  let! a := STEP I a b c d (X 4%nat) 0xf7537e82 6 in
  let! d := STEP I d a b c (X 11%nat) 0xbd3af235 10 in
  let! c := STEP I c d a b (X 2%nat) 0x2ad7d2bb 15 in
  let! b := STEP I b c d a (X 9%nat) 0xeb86d391 21 in
  (u32 (a + saved_a), u32 (b + saved_b), u32 (c + saved_c), u32 (d + saved_d)).

Definition body_block (st : Spec.state) (ptr : list Z) : Spec.state :=
  body_rounds (SET ptr) st.

(** [do { ... ptr += 64; } while (size -= 64);] with one unit of fuel per
    iteration; [body] supplies [size / 64]. *)
Fixpoint body_loop (fuel : nat) (st : Spec.state) (ptr : list Z) (size : Z)
  : Spec.state * list Z :=
  match fuel with
  | O => (st, ptr)
  | S fuel =>
      let st := body_block st ptr in
      let ptr := drop 64 ptr in
      let size := u64 (size - 64) in
      if size =? 0 then (st, ptr) else body_loop fuel st ptr size
  end.

(** Returns the context with the chaining words updated, and the pointer past
    the consumed data. *)
Definition body (ctx : MD5_CTX) (data : list Z) (size : Z) : MD5_CTX * list Z :=
  let '(st, ptr) := body_loop (Z.to_nat (size / 64)) (get_abcd ctx) data size in
  (set_abcd ctx st, ptr).

(** [MD5_Init] leaves the buffer as it was. *)
Definition MD5_Init (ctx : MD5_CTX) : MD5_CTX :=
  mkCtx 0 0 0x67452301 0xefcdab89 0x98badcfe 0x10325476 (buffer ctx).

(** The counter update at the head of [MD5_Update]. *)
Definition count (ctx : MD5_CTX) (size : Z) : MD5_CTX :=
  let saved_lo := lo ctx in
  let lo' := Z.land (u64 (saved_lo + size)) 0x1fffffff in
  let hi' := if lo' <? saved_lo then u32 (hi ctx + 1) else hi ctx in
  let hi'' := u32 (hi' + Z.shiftr size 29) in
  mkCtx lo' hi'' (a ctx) (b ctx) (c ctx) (d ctx) (buffer ctx).

(** The tail shared by the two paths of [MD5_Update]: whole blocks straight
    from [data], the remainder into the buffer. *)
Definition update_tail (ctx : MD5_CTX) (data : list Z) (size : Z) : MD5_CTX :=
  let '(ctx, data, size) :=
    if 64 <=? size then
      let '(ctx, data) := body ctx data (Z.ldiff size 0x3f) in
      (ctx, data, Z.land size 0x3f)
    else (ctx, data, size) in
  set_buffer ctx (memcpy (buffer ctx) 0 (take (Z.to_nat size) data)).

Definition MD5_Update (ctx0 : MD5_CTX) (data : list Z) (size : Z) : MD5_CTX :=
  let saved_lo := lo ctx0 in
  let ctx := count ctx0 size in
  let used := Z.land saved_lo 0x3f in
  if negb (used =? 0) then
    let available := 64 - used in
    if size <? available then
      set_buffer ctx (memcpy (buffer ctx) (Z.to_nat used) (take (Z.to_nat size) data))
    else
      let ctx := set_buffer ctx
        (memcpy (buffer ctx) (Z.to_nat used) (take (Z.to_nat available) data)) in
      let data := drop (Z.to_nat available) data in
      let size := size - available in
      let '(ctx, _) := body ctx (buffer ctx) 64 in
      update_tail ctx data size
  else update_tail ctx data size.

(** [w] stored as four bytes, each truncated to [unsigned char]. *)
Definition store32 (w : Z) : list Z :=
  [u8 w; u8 (Z.shiftr w 8); u8 (Z.shiftr w 16); u8 (Z.shiftr w 24)].

(** [MD5_Final] up to its second [memset]: the [0x80] marker, and the zeros in
    front of the length field, with an extra block when they do not fit. *)
Definition final_pad (ctx : MD5_CTX) : MD5_CTX :=
  let used := Z.land (lo ctx) 0x3f in
  let ctx := set_buffer ctx (<[Z.to_nat used := 0x80]> (buffer ctx)) in
  let used := used + 1 in
  let available := 64 - used in
  let '(ctx, used, available) :=
    if available <? 8 then
      let ctx := set_buffer ctx
        (memset (buffer ctx) (Z.to_nat used) 0 (Z.to_nat available)) in
      let '(ctx, _) := body ctx (buffer ctx) 64 in
      (ctx, 0, 64)
    else (ctx, used, available) in
  set_buffer ctx (memset (buffer ctx) (Z.to_nat used) 0 (Z.to_nat (available - 8))).

(** The length field and the last call of [body]. *)
Definition final_length (ctx : MD5_CTX) : MD5_CTX :=
  let lo' := u32 (Z.shiftl (lo ctx) 3) in
  let buf := memcpy (memcpy (buffer ctx) 56 (store32 lo')) 60 (store32 (hi ctx)) in
  let ctx := mkCtx lo' (hi ctx) (a ctx) (b ctx) (c ctx) (d ctx) buf in
  fst (body ctx (buffer ctx) 64).

(** Returns the 16 bytes of [result] and the cleared context. *)
Definition MD5_Final (ctx : MD5_CTX) : list Z * MD5_CTX :=
  let ctx := final_length (final_pad ctx) in
  (store32 (a ctx) ++ store32 (b ctx) ++ store32 (c ctx) ++ store32 (d ctx),
   mkCtx 0 0 0 0 0 0 (replicate 64 0)).

(** A digest computed over a sequence of [MD5_Update] calls, one per chunk. *)
Definition md5_stream (ctx : MD5_CTX) (chunks : list (list Z)) : list Z :=
  fst (MD5_Final (fold_left (fun c m => MD5_Update c m (Z.of_nat (length m)))
                            chunks (MD5_Init ctx))).

(** ** The round functions *)

Lemma F_rfc x y z : F x y z = Spec.F x y z.
Proof.
  apply Z.bits_inj'. intros i Hi. unfold F, Spec.F.
  rewrite Z.lor_spec, !Z.land_spec, Z.lnot_spec, Z.lxor_spec, Z.land_spec, Z.lxor_spec by done.
  by destruct (Z.testbit x i), (Z.testbit y i), (Z.testbit z i).
Qed.

Lemma G_rfc x y z : G x y z = Spec.G x y z.
Proof.
  apply Z.bits_inj'. intros i Hi. unfold G, Spec.G.
  rewrite Z.lor_spec, !Z.land_spec, Z.lnot_spec, Z.lxor_spec, Z.land_spec, Z.lxor_spec by done.
  by destruct (Z.testbit x i), (Z.testbit y i), (Z.testbit z i).
Qed.

Lemma H2_rfc x y z : H2 x y z = Spec.H x y z.
Proof. unfold H2, Spec.H. by rewrite Z.lxor_assoc. Qed.

Lemma u32_lor p q : u32 (Z.lor p q) = Z.lor (u32 p) (u32 q).
Proof. rewrite !u32_land. apply Z.land_lor_distr_l. Qed.

Lemma shiftr_u32 x s : is_u32 x -> 0 <= s -> is_u32 (Z.shiftr x s).
Proof.
  intros [Hx Hx'] Hs. rewrite Z.shiftr_div_pow2 by done.
  assert (0 < 2 ^ s) by lia. split; [apply Z.div_pos; lia|].
  apply Z.le_lt_trans with x; [|done]. apply Z.div_le_upper_bound; nia.
Qed.

Lemma rotl_code x s : is_u32 x -> 0 <= s <= 32 ->
  Z.lor (u32 (Z.shiftl x s)) (Z.shiftr (Z.land x 0xffffffff) (32 - s)) = Spec.rotl32 x s.
Proof.
  intros Hx Hs. unfold Spec.rotl32. rewrite u32_lor.
  change 0xffffffff with (Z.ones 32). rewrite <- u32_land, (u32_id x) by done.
  by rewrite (u32_id (Z.shiftr x _)) by (apply shiftr_u32; [done|lia]).
Qed.

Lemma STEP_rfc f g a b c d x t s :
  (forall x y z, f x y z = g x y z) -> 0 <= s <= 32 ->
  STEP f a b c d x t s = u32 (b + Spec.rotl32 (u32 (a + g b c d + x + t)) s).
Proof.
  intros Hfg Hs. unfold STEP. cbv zeta. rewrite rotl_code by (done || apply u32_range).
  rewrite Hfg, u32_add_r, Z.add_comm. do 4 f_equal. lia.
Qed.

(** ** One block *)

Lemma nth_byte_ok l n : bytes_ok l -> is_u8 (nth n l 0).
Proof.
  intros Hl. destruct (decide (n < length l)%nat).
  - apply Forall_lookup_1 with (i := n) (l := l); [done|].
    rewrite nth_lookup. by destruct (lookup_lt_is_Some_2 l n) as [x ->].
  - rewrite nth_overflow by lia. done.
Qed.

Lemma nth_drop_byte l j k : nth k (drop j l) 0 = nth (j + k) l 0.
Proof. by rewrite !nth_lookup, lookup_drop. Qed.

Lemma SET_word ptr n : bytes_ok ptr -> SET ptr n = Spec.word (drop (4 * n) ptr).
Proof.
  intros Hp. unfold SET, Spec.word. rewrite !nth_drop_byte.
  replace (n * 4)%nat with (4 * n)%nat by lia. rewrite (Nat.add_0_r (4 * n)).
  pose proof (nth_byte_ok ptr (4 * n) Hp). pose proof (nth_byte_ok ptr (4 * n + 1) Hp).
  pose proof (nth_byte_ok ptr (4 * n + 2) Hp). pose proof (nth_byte_ok ptr (4 * n + 3) Hp).
  unfold is_u8 in *. rewrite !u32_id by (unfold is_u32; rewrite Z.shiftl_mul_pow2; lia).
  rewrite (lor_shiftl_add _ _ 8), (lor_shiftl_add _ _ 16), (lor_shiftl_add _ _ 24) by lia. lia.
Qed.

Lemma SET_words ptr n : bytes_ok ptr -> (n < 16)%nat -> SET ptr n = nth n (Spec.words ptr) 0.
Proof.
  intros Hp Hn. rewrite SET_word by done. unfold Spec.words.
  rewrite nth_lookup, list_lookup_fmap, lookup_seq_lt by done. done.
Qed.

Lemma shift_range i : 0 <= Spec.shift i <= 32.
Proof.
  unfold Spec.shift. cbv zeta.
  destruct (i / 16)%nat as [|[|[|[|n]]]], (i mod 4)%nat as [|[|[|[|k]]]]; simpl; try lia;
    try destruct n; try destruct k; simpl; lia.
Qed.

(** One step of the specification, in the vocabulary of the code. *)
Lemma step_STEP X f a b c d i :
  (forall x y z, f x y z = Spec.fn i x y z) ->
  Spec.step X (a, b, c, d) i =
  (d, STEP f a b c d (nth (Spec.idx i) X 0) (nth i Spec.T 0) (Spec.shift i), b, c).
Proof.
  intros Hf. unfold Spec.step. by rewrite (STEP_rfc f (Spec.fn i)) by (done || apply shift_range).
Qed.

Lemma idx_lt i : (Spec.idx i < 16)%nat.
Proof.
  unfold Spec.idx. destruct (i / 16)%nat as [|[|[|n]]]; apply Nat.mod_upper_bound; lia.
Qed.

(** Relate the next four code steps to the next four specification steps. *)
Lemma four_steps X get f1 f2 i a b c d a' b' c' d' l :
  (forall x y z, f1 x y z = Spec.fn i x y z) ->
  (forall x y z, f2 x y z = Spec.fn (S i) x y z) ->
  Spec.fn (2 + i) = Spec.fn i -> Spec.fn (3 + i) = Spec.fn (S i) ->
  (forall n, (n < 16)%nat -> get n = nth n X 0) ->
  let arg j := get (Spec.idx j) in
  a' = STEP f1 a b c d (arg i) (nth i Spec.T 0) (Spec.shift i) ->
  d' = STEP f2 d a' b c (arg (1 + i)%nat) (nth (1 + i) Spec.T 0) (Spec.shift (1 + i)) ->
  c' = STEP f1 c d' a' b (arg (2 + i)%nat) (nth (2 + i) Spec.T 0) (Spec.shift (2 + i)) ->
  b' = STEP f2 b c' d' a' (arg (3 + i)%nat) (nth (3 + i) Spec.T 0) (Spec.shift (3 + i)) ->
  fold_left (Spec.step X) (seq i 4 ++ l) (a, b, c, d) =
  fold_left (Spec.step X) l (a', b', c', d').
Proof.
  intros H1 H2 H3 H4 HX arg -> -> -> ->. unfold arg. rewrite !HX by apply idx_lt. cbn [seq app fold_left].
  rewrite (step_STEP _ f1), (step_STEP _ f2) by done.
  rewrite (step_STEP _ f1) by (intros; rewrite H1; by rewrite <- H3).
  rewrite (step_STEP _ f2) by (intros; rewrite H2; by rewrite <- H4). done.
Qed.

(** Advance code and specification by four steps, from step [i]. *)
Ltac four HX f1 f2 i :=
  let a' := fresh "a" in let b' := fresh "b" in
  let c' := fresh "c" in let d' := fresh "d" in
  let Ha := fresh in let Hb := fresh in let Hc := fresh in let Hd := fresh in
  apply assign_eq; intros a' Ha; apply assign_eq; intros d' Hd;
  apply assign_eq; intros c' Hc; apply assign_eq; intros b' Hb;
  let n := eval cbv in (64 - i)%nat in let m := eval cbv in (60 - i)%nat in
  let j := eval cbv in (i + 4)%nat in
  change (seq i n) with (seq i 4 ++ seq j m);
  erewrite (four_steps _ _ f1 f2 i _ _ _ _ a' b' c' d');
    [ | first [apply F_rfc | apply G_rfc | reflexivity]
      | first [apply F_rfc | apply G_rfc | apply H2_rfc | reflexivity]
      | reflexivity | reflexivity | exact HX | exact Ha | exact Hd | exact Hc | exact Hb];
  clear Ha Hb Hc Hd.

Lemma body_rounds_rfc X get a b c d :
  (forall n, (n < 16)%nat -> get n = nth n X 0) ->
  body_rounds get (a, b, c, d) =
  let '(a', b', c', d') := fold_left (Spec.step X) (seq 0 64) (a, b, c, d) in
  (u32 (a + a'), u32 (b + b'), u32 (c + c'), u32 (d + d')).
Proof.
  intros HX. cbv beta iota zeta delta [body_rounds].
  four HX F F 0%nat. four HX F F 4%nat. four HX F F 8%nat. four HX F F 12%nat.
  four HX G G 16%nat. four HX G G 20%nat. four HX G G 24%nat. four HX G G 28%nat.
  four HX H H2 32%nat. four HX H H2 36%nat. four HX H H2 40%nat. four HX H H2 44%nat.
  four HX I I 48%nat. four HX I I 52%nat. four HX I I 56%nat. four HX I I 60%nat.
  cbn [seq fold_left]. f_equal; [f_equal; [f_equal|]|]; f_equal; lia.
Qed.

Lemma body_block_compress st ptr : bytes_ok ptr -> body_block st ptr = Spec.compress st ptr.
Proof.
  intros Hp. destruct st as [[[a b] c] d]. unfold body_block.
  rewrite (body_rounds_rfc (Spec.words ptr)) by (intros; by apply SET_words).
  unfold Spec.compress. by destruct (fold_left _ _ _) as [[[a' b'] c'] d'].
Qed.

(** ** Folding over blocks *)

Lemma absorb_short st l : (length l < 64)%nat -> Spec.absorb st l = st.
Proof. intros Hl. unfold Spec.absorb. by rewrite Nat.div_small. Qed.

Lemma absorb_block st l : (64 <= length l)%nat ->
  Spec.absorb st l = Spec.absorb (Spec.compress st (take 64 l)) (drop 64 l).
Proof.
  intros Hl. unfold Spec.absorb. rewrite length_drop.
  replace (length l / 64)%nat with (S ((length l - 64) / 64)); [done|].
  replace (length l) with (length l - 64 + 1 * 64)%nat at 2 by lia.
  rewrite Nat.div_add; lia.
Qed.

Lemma absorb_app n : forall st l1 l2, length l1 = (64 * n)%nat ->
  Spec.absorb st (l1 ++ l2) = Spec.absorb (Spec.absorb st l1) l2.
Proof.
  induction n as [|n IH]; intros st l1 l2 Hl.
  - destruct l1; [|simpl in Hl; lia]. by rewrite (absorb_short st []) by (simpl; lia).
  - rewrite (absorb_block st (l1 ++ l2)), (absorb_block st l1) by len.
    rewrite take_app_le, drop_app_le by lia. apply IH. len.
Qed.

(** Only the whole blocks of a message are absorbed. *)
Lemma absorb_whole st l q : (q = length l / 64)%nat ->
  Spec.absorb st (take (64 * q) l) = Spec.absorb st l.
Proof.
  intros ->. pose proof (Nat.div_mod_eq (length l) 64).
  pose proof (Nat.mod_upper_bound (length l) 64).
  pose proof (absorb_app (length l / 64) st (take (64 * (length l / 64)) l)
    (drop (64 * (length l / 64)) l)) as Happ.
  rewrite take_drop in Happ. rewrite Happ by len.
  by rewrite (absorb_short _ (drop _ _)) by len.
Qed.

Lemma absorb_one st l : length l = 64%nat -> Spec.absorb st l = Spec.compress st l.
Proof.
  intros Hl. rewrite absorb_block by lia. rewrite take_ge by lia.
  by rewrite absorb_short by len.
Qed.

(** A block is determined by its first 64 bytes. *)
Lemma compress_take st l : Spec.compress st (take 64 l) = Spec.compress st l.
Proof.
  unfold Spec.compress. replace (Spec.words (take 64 l)) with (Spec.words l); [done|].
  unfold Spec.words. apply list_fmap_ext. intros i k Hk.
  apply lookup_seq in Hk as [-> Hi]. unfold Spec.word. rewrite !nth_drop_byte, !nth_lookup.
  by rewrite !lookup_take_lt by lia.
Qed.

Lemma body_loop_S fuel st ptr size :
  body_loop (S fuel) st ptr size =
  if u64 (size - 64) =? 0 then (body_block st ptr, drop 64 ptr)
  else body_loop fuel (body_block st ptr) (drop 64 ptr) (u64 (size - 64)).
Proof. done. Qed.

Lemma body_loop_absorb n : forall st ptr,
  bytes_ok ptr -> (64 * S n <= length ptr)%nat -> 64 * Z.of_nat (S n) < 2 ^ 64 ->
  body_loop (S n) st ptr (64 * Z.of_nat (S n)) =
  (Spec.absorb st (take (64 * S n) ptr), drop (64 * S n) ptr).
Proof.
  induction n as [|n IH]; intros st ptr Hok Hlen Hsz; rewrite body_loop_S;
    rewrite body_block_compress by done; unfold u64; rewrite Z.mod_small by lia.
  - change (64 * 1)%nat with 64%nat. rewrite absorb_one by len. by rewrite compress_take.
  - destruct (Z.eqb_spec (64 * Z.of_nat (S (S n)) - 64) 0); [lia|].
    replace (64 * Z.of_nat (S (S n)) - 64) with (64 * Z.of_nat (S n)) by lia.
    rewrite IH by (auto with elp; len).
    rewrite (absorb_block st (take _ _)) by len.
    rewrite take_take, Nat.min_l, compress_take, drop_drop by lia.
    rewrite take_drop_commute. repeat (lia || f_equal).
Qed.

Lemma body_absorb ctx data n :
  bytes_ok data -> (0 < n)%nat -> (64 * n <= length data)%nat -> 64 * Z.of_nat n < 2 ^ 64 ->
  body ctx data (64 * Z.of_nat n) =
  (set_abcd ctx (Spec.absorb (get_abcd ctx) (take (64 * n) data)), drop (64 * n) data).
Proof.
  intros Hok Hn Hlen Hsz. destruct n as [|n]; [lia|]. unfold body.
  replace (Z.to_nat (64 * Z.of_nat (S n) / 64)) with (S n).
  - by rewrite body_loop_absorb.
  - rewrite Z.mul_comm, Z.div_mul by lia. lia.
Qed.

Lemma body_one ctx data :
  bytes_ok data -> length data = 64%nat ->
  body ctx data 64 = (set_abcd ctx (Spec.absorb (get_abcd ctx) data), []).
Proof.
  intros Hok Hlen. change 64 with (64 * Z.of_nat 1). rewrite body_absorb by (done || lia).
  by rewrite take_ge, drop_ge by lia.
Qed.

Lemma set_abcd_fields ctx st :
  get_abcd (set_abcd ctx st) = st /\ lo (set_abcd ctx st) = lo ctx /\
  hi (set_abcd ctx st) = hi ctx /\ buffer (set_abcd ctx st) = buffer ctx.
Proof. by destruct st as [[[a' b'] c'] d']. Qed.

(** ** The streaming invariant

    [absorbed m ctx]: the context describes the message [m] seen so far: its
    length in the two counters (29 and 32 bits of it), its whole blocks in the
    chaining words, the remainder at the start of the buffer. *)
Record absorbed (m : list Z) (ctx : MD5_CTX) : Prop := {
  abs_lo : lo ctx = Z.of_nat (length m) mod 2 ^ 29;
  abs_hi : hi ctx = (Z.of_nat (length m) / 2 ^ 29) mod 2 ^ 32;
  abs_len : length (buffer ctx) = 64%nat;
  abs_st : get_abcd ctx = Spec.absorb Spec.init m;
  abs_buf : take (length m mod 64) (buffer ctx) = drop (64 * (length m / 64)) m;
}.

Lemma land_low z n : 0 <= n -> Z.land z (2 ^ n - 1) = z mod 2 ^ n.
Proof. intros Hn. rewrite <- Z.land_ones by done. by rewrite Z.ones_equiv, Z.sub_1_r. Qed.

Lemma used_mod m ctx : absorbed m ctx ->
  Z.land (lo ctx) 0x3f = Z.of_nat (length m mod 64).
Proof.
  intros Ha. rewrite (abs_lo _ _ Ha). change 0x3f with (2 ^ 6 - 1).
  rewrite land_low by lia. rewrite Nat2Z.inj_mod.
  change (Z.of_nat 64) with (2 ^ 6). rewrite Z.mod_mod_divide; [done|].
  exists (2 ^ 23). lia.
Qed.

(** The counters after an update count the longer message. *)
Lemma count_absorbed m ctx n :
  lo ctx = Z.of_nat m mod 2 ^ 29 -> hi ctx = (Z.of_nat m / 2 ^ 29) mod 2 ^ 32 ->
  lo (count ctx (Z.of_nat n)) = Z.of_nat (m + n) mod 2 ^ 29 /\
  hi (count ctx (Z.of_nat n)) = (Z.of_nat (m + n) / 2 ^ 29) mod 2 ^ 32.
Proof.
  intros Hlo Hhi. unfold count. cbn [lo hi].
  assert (Z.land (u64 (lo ctx + Z.of_nat n)) 0x1fffffff = Z.of_nat (m + n) mod 2 ^ 29) as ->.
  { change 0x1fffffff with (2 ^ 29 - 1). rewrite land_low by lia. unfold u64.
    rewrite Z.mod_mod_divide by (by exists (2 ^ 35)).
    rewrite Hlo, Zplus_mod_idemp_l. f_equal. lia. }
  split; [done|]. rewrite Z.shiftr_div_pow2 by lia. rewrite Hlo, Hhi.
  rewrite Nat2Z.inj_add. generalize (Z.of_nat m), (Z.of_nat n). intros p q.
  unfold u32. assert (forall x y : Z, (x mod 2 ^ 32 + y) mod 2 ^ 32 = (x + y) mod 2 ^ 32) as Hi
    by (intros; apply Zplus_mod_idemp_l).
  destruct (Z.ltb_spec ((p + q) mod 2 ^ 29) (p mod 2 ^ 29));
    rewrite ?Hi, <- ?Z.add_assoc, ?Hi; f_equal;
    change (2 ^ 29) with 536870912 in *; Z.div_mod_to_equations; lia.
Qed.

Lemma ldiff_low (n : nat) : Z.ldiff (Z.of_nat n) 0x3f = 64 * Z.of_nat (n / 64).
Proof.
  change 0x3f with (Z.ones 6). rewrite Z.ldiff_ones_r by lia.
  rewrite Z.shiftl_mul_pow2, Z.shiftr_div_pow2 by lia.
  rewrite Nat2Z.inj_div. change (Z.of_nat 64) with (2 ^ 6). lia.
Qed.

Lemma land_low_nat (n : nat) : Z.land (Z.of_nat n) 0x3f = Z.of_nat (n mod 64).
Proof.
  change 0x3f with (2 ^ 6 - 1). rewrite land_low by lia. by rewrite Nat2Z.inj_mod.
Qed.

(** [update_tail] on a block boundary absorbs the whole blocks of [data] and
    keeps the rest at the start of the buffer. *)
Lemma update_tail_absorbed m ctx data k :
  get_abcd ctx = Spec.absorb Spec.init m -> length m = (64 * k)%nat ->
  length (buffer ctx) = 64%nat -> bytes_ok data -> Z.of_nat (length data) < 2 ^ 64 ->
  let ctx' := update_tail ctx data (Z.of_nat (length data)) in
  lo ctx' = lo ctx /\ hi ctx' = hi ctx /\ length (buffer ctx') = 64%nat /\
  get_abcd ctx' = Spec.absorb Spec.init (m ++ data) /\
  take (length data mod 64) (buffer ctx') = drop (64 * (length data / 64)) data.
Proof.
  intros Hst Hm Hbuf Hok Hsz ctx'. unfold ctx', update_tail. clear ctx'.
  pose proof (Nat.div_mod_eq (length data) 64) as Hdiv.
  pose proof (Nat.mod_upper_bound (length data) 64) as Hmod.
  rewrite (absorb_app k) by done. rewrite <- Hst.
  destruct (Z.leb_spec 64 (Z.of_nat (length data))).
  - rewrite ldiff_low, land_low_nat.
    rewrite body_absorb by (done || lia). rewrite Nat2Z.id, (absorb_whole _ data) by done.
    destruct (set_abcd_fields ctx (Spec.absorb (get_abcd ctx) data)) as (Hf1 & Hf2 & Hf3 & Hf4).
    cbn [lo hi buffer set_buffer]. rewrite Hf2, Hf3, Hf4.
    rewrite (take_ge (drop _ data)) by len. rewrite length_memcpy by len.
    rewrite take_memcpy by len. done.
  - cbn [lo hi buffer set_buffer]. rewrite Nat2Z.id, (take_ge data) by lia.
    rewrite Nat.div_small, Nat.mod_small, absorb_short by lia.
    rewrite length_memcpy by len. rewrite take_memcpy by len. done.
Qed.

Lemma absorbed_tail m ctx data k n :
  get_abcd ctx = Spec.absorb Spec.init m -> length m = (64 * k)%nat ->
  length (buffer ctx) = 64%nat -> bytes_ok data -> Z.of_nat (length data) < 2 ^ 64 ->
  n = (length m + length data)%nat -> lo ctx = Z.of_nat n mod 2 ^ 29 ->
  hi ctx = (Z.of_nat n / 2 ^ 29) mod 2 ^ 32 ->
  absorbed (m ++ data) (update_tail ctx data (Z.of_nat (length data))).
Proof.
  intros Hst Hm Hbuf Hok Hsz -> Hlo Hhi.
  destruct (update_tail_absorbed m ctx data k) as (E1 & E2 & Hl & Hs & Hb); try done.
  split; rewrite ?length_app; try congruence.
  rewrite Hm, Nat.add_comm, (Nat.mul_comm 64 k), Nat.Div0.mod_add, Nat.div_add by lia.
  rewrite Hb, drop_app, Hm. rewrite (drop_ge m) by lia. simpl. f_equal. lia.
Qed.

Lemma block_div (m : list Z) :
  length m = (64 * (length m / 64) + length m mod 64)%nat /\ (length m mod 64 < 64)%nat.
Proof. split; [apply Nat.div_mod_eq|apply Nat.mod_upper_bound; lia]. Qed.

(** The two ways [MD5_Update] continues when the buffer holds a remainder.
    [ctx] is the context after the counter update, [buf] its buffer. *)
Section Remainder.
Context (m data : list Z) (ctx : MD5_CTX).
Let q := (length m / 64)%nat.
Let r := (length m mod 64)%nat.
Hypothesis Hm : bytes_ok m.
Hypothesis Hdata : bytes_ok data.
Hypothesis Hsz : Z.of_nat (length data) < 2 ^ 64.
Hypothesis Hlo : lo ctx = Z.of_nat (length m + length data) mod 2 ^ 29.
Hypothesis Hhi : hi ctx = (Z.of_nat (length m + length data) / 2 ^ 29) mod 2 ^ 32.
Hypothesis Hlen : length (buffer ctx) = 64%nat.
Hypothesis Hst : get_abcd ctx = Spec.absorb Spec.init m.
Hypothesis Hbuf : take r (buffer ctx) = drop (64 * q) m.

Lemma remainder_kept : (length data < 64 - r)%nat ->
  absorbed (m ++ data) (set_buffer ctx (memcpy (buffer ctx) r data)).
Proof.
  intros Hs. destruct (block_div m) as [Hdiv Hmod]. fold q r in Hdiv, Hmod.
  assert (length (m ++ data) / 64 = q)%nat as Hq.
  { rewrite length_app. symmetry. apply Nat.div_unique with (r + length data)%nat; lia. }
  assert (length (m ++ data) mod 64 = r + length data)%nat as Hr.
  { rewrite length_app. symmetry. apply Nat.mod_unique with q; lia. }
  split; cbn [lo hi buffer set_buffer get_abcd]; rewrite ?Hq, ?Hr.
  - by rewrite length_app.
  - by rewrite length_app.
  - by rewrite length_memcpy by lia.
  - rewrite <- (absorb_whole _ (m ++ data) q), take_app_le by (done || lia).
    by rewrite absorb_whole.
  - rewrite take_memcpy by lia. rewrite Hbuf, drop_app_le by lia. done.
Qed.

Lemma remainder_filled : (64 - r <= length data)%nat ->
  let ctx1 := set_buffer ctx (memcpy (buffer ctx) r (take (64 - r) data)) in
  let rest := drop (64 - r) data in
  absorbed (m ++ data)
    (update_tail (fst (body ctx1 (buffer ctx1) 64)) rest (Z.of_nat (length rest))).
Proof.
  intros Hs ctx1 rest. destruct (block_div m) as [Hdiv Hmod]. fold q r in Hdiv, Hmod.
  set (l := take (64 - r) data) in *. assert (length l = 64 - r)%nat by (unfold l; len).
  assert (buffer ctx1 = drop (64 * q) m ++ l) as Hblk.
  { unfold ctx1, memcpy. cbn [buffer set_buffer].
    rewrite Hbuf, (drop_ge (buffer ctx)) by lia. by rewrite app_nil_r. }
  assert (length (buffer ctx1) = 64%nat) by (rewrite Hblk; len).
  rewrite body_one.
  2: { rewrite Hblk. unfold l. apply bytes_ok_app. auto with elp. }
  2: done.
  cbn [fst]. destruct (set_abcd_fields ctx1 (Spec.absorb (get_abcd ctx1) (buffer ctx1)))
    as (F1 & F2 & F3 & F4).
  rewrite <- (take_drop (64 - r) data). fold l rest. rewrite app_assoc.
  apply (absorbed_tail (m ++ l) _ _ (S q) (length m + length data)); try done.
  - rewrite F1, Hblk. change (get_abcd ctx1) with (get_abcd ctx).
    rewrite Hst, <- (absorb_whole _ m q), <- (absorb_app q) by (done || len).
    by rewrite app_assoc, take_drop.
  - len.
  - congruence.
  - unfold rest. auto with elp.
  - unfold rest. len.
  - unfold rest. len.
  - by rewrite F2.
  - by rewrite F3.
Qed.
End Remainder.

Lemma MD5_Update_absorbed m ctx data :
  absorbed m ctx -> bytes_ok m -> bytes_ok data -> Z.of_nat (length data) < 2 ^ 64 ->
  absorbed (m ++ data) (MD5_Update ctx data (Z.of_nat (length data))).
Proof.
  intros Ha Hm Hok Hsz. unfold MD5_Update. rewrite (used_mod m) by done.
  destruct (block_div m) as [Hdiv Hmod].
  destruct Ha as [Hlo Hhi Hlen Hst Hbuf].
  destruct (count_absorbed (length m) ctx (length data) Hlo Hhi) as [Hlo' Hhi'].
  set (r := (length m mod 64)%nat) in *.
  destruct (Z.eqb_spec (Z.of_nat r) 0); cbn [negb].
  - apply (absorbed_tail m _ data (length m / 64) (length m + length data)); done || lia.
  - change (Z.to_nat (64 - Z.of_nat r)) with (Z.to_nat (Z.of_nat 64 - Z.of_nat r)).
    rewrite <- Nat2Z.inj_sub, !Nat2Z.id by lia.
    destruct (Z.ltb_spec (Z.of_nat (length data)) (64 - Z.of_nat r)).
    + rewrite (take_ge data) by lia. apply remainder_kept; done || lia.
    + pose proof (remainder_filled m data (count ctx (Z.of_nat (length data)))) as Hf.
      replace (Z.of_nat (length data) - (64 - Z.of_nat r))
        with (Z.of_nat (length (drop (64 - r) data))) by len.
      destruct (body _ _ 64) as [ctx1 p] eqn:E. cbv zeta in Hf. fold r in Hf.
      rewrite E in Hf. cbn [fst] in Hf. apply Hf; assumption || lia.
Qed.

(** ** Finalisation *)

Lemma length_store32 w : length (store32 w) = 4%nat.
Proof. done. Qed.
#[local] Hint Rewrite length_store32 : len.

Lemma store32_ok w : bytes_ok (store32 w).
Proof. unfold store32. repeat constructor; apply u8_range. Qed.

(** The last two writes put the length field behind the first 56 bytes. *)
Lemma length_field buf x y : length buf = 64%nat ->
  memcpy (memcpy buf 56 (store32 x)) 60 (store32 y) = take 56 buf ++ store32 x ++ store32 y.
Proof.
  intros Hb. assert (length (memcpy buf 56 (store32 x)) = 64%nat) by (rewrite length_memcpy; len).
  unfold memcpy at 1. rewrite (drop_ge (memcpy _ _ _)) by len.
  rewrite take_memcpy by len. by rewrite app_nil_r, <- app_assoc.
Qed.

(** The two counters hold the 64-bit length in bits. *)
Lemma bitlen_counters n :
  u32 (Z.shiftl (Z.of_nat n mod 2 ^ 29) 3) = u32 (Spec.bitlen n) /\
  (Z.of_nat n / 2 ^ 29) mod 2 ^ 32 = Spec.bitlen n / 2 ^ 32.
Proof.
  unfold Spec.bitlen, u32. rewrite Z.shiftl_mul_pow2 by lia.
  change (2 ^ 29) with 536870912. change (2 ^ 3) with 8.
  change (2 ^ 64) with 18446744073709551616. change (2 ^ 32) with 4294967296.
  generalize (Z.of_nat n). intros z. split; Z.div_mod_to_equations; lia.
Qed.

(** Writing the [0x80] marker and [k] zeros behind the remainder. *)
Lemma marker_block buf t k r :
  length buf = 64%nat -> (r < 64)%nat -> take r buf = t -> (r + 1 + k <= 64)%nat ->
  take (r + 1 + k) (memset (<[r:=0x80]> buf) (r + 1) 0 k) = t ++ [0x80] ++ replicate k 0.
Proof.
  intros Hb Hr <- Hk. unfold memset. rewrite take_memcpy by len.
  rewrite insert_take_drop by lia. rewrite take_app, take_take, length_take.
  rewrite !Nat.min_r, Nat.min_l by lia. replace (r + 1 - r)%nat with 1%nat by lia.
  simpl. by rewrite <- app_assoc.
Qed.

Lemma bytes_ok_replicate n v : is_u8 v -> bytes_ok (replicate n v).
Proof. apply Forall_replicate. Qed.

(** The last block: [p] is what precedes the length field. *)
Definition last_block (p : list Z) (n : nat) : list Z :=
  p ++ store32 (u32 (Spec.bitlen n)) ++ store32 (Spec.bitlen n / 2 ^ 32).

Lemma final_length_absorb ctx n :
  length (buffer ctx) = 64%nat -> bytes_ok (take 56 (buffer ctx)) ->
  lo ctx = Z.of_nat n mod 2 ^ 29 -> hi ctx = (Z.of_nat n / 2 ^ 29) mod 2 ^ 32 ->
  get_abcd (final_length ctx) =
  Spec.absorb (get_abcd ctx) (last_block (take 56 (buffer ctx)) n).
Proof.
  intros Hlen Hok Hlo Hhi. unfold final_length. cbn [buffer].
  destruct (bitlen_counters n) as [E1 E2].
  rewrite length_field, Hlo, Hhi, E1, E2 by done.
  fold (last_block (take 56 (buffer ctx)) n).
  rewrite body_one; [apply set_abcd_fields| |].
  - repeat (apply bytes_ok_app; split); auto using store32_ok.
  - unfold last_block. len.
Qed.

Lemma bytes_ok_marker t k : bytes_ok t -> bytes_ok (t ++ [0x80] ++ replicate k 0).
Proof.
  intros Ht. repeat (apply bytes_ok_app; split); auto.
  - by repeat constructor.
  - by apply bytes_ok_replicate.
Qed.

(** [final_pad] brings the context to the last block of the padded message. *)
Lemma final_pad_absorb m ctx : absorbed m ctx -> bytes_ok m ->
  let ctx' := final_pad ctx in
  lo ctx' = lo ctx /\ hi ctx' = hi ctx /\ length (buffer ctx') = 64%nat /\
  bytes_ok (take 56 (buffer ctx')) /\
  Spec.absorb (get_abcd ctx') (last_block (take 56 (buffer ctx')) (length m)) =
  Spec.absorb (get_abcd ctx) (last_block (drop (64 * (length m / 64)) m ++ [0x80] ++
    replicate (Spec.zeros (length m)) 0) (length m)).
Proof.
  intros Ha Hm ctx'. unfold ctx', final_pad. clear ctx'.
  rewrite (used_mod m) by done. rewrite !Nat2Z.id.
  destruct (block_div m) as [Hdiv Hmod]. destruct Ha as [_ _ Hbuf _ Htl]. unfold Spec.zeros.
  set (r := (length m mod 64)%nat) in *. set (t := drop (64 * (length m / 64)) m) in *.
  assert (length t = r) by (unfold t; len). assert (bytes_ok t) by (unfold t; auto with elp).
  replace (Z.to_nat (Z.of_nat r + 1)) with (r + 1)%nat by lia. cbn [buffer set_buffer].
  destruct (Z.ltb_spec (64 - (Z.of_nat r + 1)) 8), (Nat.ltb_spec r 56); try lia.
  - replace (Z.to_nat (64 - (Z.of_nat r + 1))) with (63 - r)%nat by lia.
    set (blk := memset _ (r + 1) 0 (63 - r)).
    assert (Hblk : blk = t ++ [0x80] ++ replicate (63 - r) 0).
    { rewrite <- (marker_block (buffer ctx) t (63 - r) r) by (done || lia).
      rewrite take_ge; [done|]. rewrite length_memset; len. }
    rewrite body_one by (rewrite Hblk; (by apply bytes_ok_marker) || len).
    destruct (set_abcd_fields (set_buffer (set_buffer ctx (<[r:=0x80]> (buffer ctx))) blk)
      (Spec.absorb (get_abcd ctx) blk)) as (F1 & F2 & F3 & F4).
    set (ctx1 := set_abcd _ _) in *. cbn [lo hi buffer set_buffer] in *. rewrite F4.
    assert (length blk = 64%nat) by (rewrite Hblk; len).
    change (Z.to_nat 0) with 0%nat. change (Z.to_nat (64 - 8)) with 56%nat.
    rewrite length_memset by lia. unfold memset. rewrite take_memcpy by len. rewrite take_0.
    do 4 (split; [done || (by apply bytes_ok_replicate)|]).
    change (get_abcd (set_buffer ctx1 _)) with (get_abcd ctx1). etrans; [by rewrite F1|].
    rewrite <- (absorb_app 1) by lia. f_equal. unfold last_block. rewrite Hblk.
    replace (119 - r)%nat with (63 - r + 56)%nat by lia. rewrite replicate_add.
    repeat (rewrite <- app_assoc || cbn [app]). done.
  - replace (Z.to_nat (64 - (Z.of_nat r + 1) - 8)) with (55 - r)%nat by lia.
    replace (Z.to_nat (Z.of_nat r + 1)) with (r + 1)%nat by lia.
    cbn [lo hi buffer set_buffer]. rewrite length_memset by len.
    pose proof (marker_block (buffer ctx) t (55 - r) r) as Hmk.
    replace (r + 1 + (55 - r))%nat with 56%nat in Hmk by lia. rewrite Hmk by (done || lia).
    rewrite length_insert. do 4 (split; [done || by apply bytes_ok_marker|]). done.
Qed.

Lemma pad_blocks m : Spec.absorb Spec.init (Spec.pad m) =
  Spec.absorb (Spec.absorb Spec.init m) (last_block (drop (64 * (length m / 64)) m ++ [0x80] ++
    replicate (Spec.zeros (length m)) 0) (length m)).
Proof.
  destruct (block_div m) as [Hdiv Hmod].
  rewrite <- (absorb_whole _ m (length m / 64)), <- (absorb_app (length m / 64)) by (done || len).
  f_equal. unfold Spec.pad, last_block. rewrite <- (take_drop (64 * (length m / 64)) m) at 1.
  by rewrite <- !app_assoc.
Qed.

Lemma MD5_Final_absorbed m ctx :
  absorbed m ctx -> bytes_ok m -> fst (MD5_Final ctx) = Spec.md5 m.
Proof.
  intros Ha Hm. destruct (final_pad_absorb m ctx Ha Hm) as (E1 & E2 & E3 & E4 & E5).
  destruct Ha as [Hlo Hhi _ Hst _]. unfold Spec.md5.
  rewrite pad_blocks, <- Hst, <- E5, <- final_length_absorb; congruence || done.
Qed.

Lemma MD5_Init_absorbed ctx : length (buffer ctx) = 64%nat -> absorbed [] (MD5_Init ctx).
Proof. intros Hb. by split. Qed.

Lemma updates_absorbed chunks : forall m ctx,
  absorbed m ctx -> bytes_ok m -> Forall bytes_ok chunks ->
  Forall (fun l => Z.of_nat (length l) < 2 ^ 64) chunks ->
  absorbed (m ++ concat chunks)
    (fold_left (fun c l => MD5_Update c l (Z.of_nat (length l))) chunks ctx).
Proof.
  induction chunks as [|l chunks IH]; intros m ctx Ha Hm Hok Hsz; cbn [concat fold_left].
  - by rewrite app_nil_r.
  - inversion_clear Hok. inversion_clear Hsz. rewrite app_assoc.
    apply IH; try done; [by apply MD5_Update_absorbed|by apply bytes_ok_app].
Qed.

(** C1. The streaming digest of [md5.c] refines RFC 1321: initialising a
    context, feeding it any sequence of chunks with [MD5_Update] and closing it
    with [MD5_Final] yields the RFC's MD5 of the concatenated chunks, whatever
    the chunk boundaries, and whatever the buffer held before. *)
Theorem md5_stream_rfc1321 (ctx : MD5_CTX) (chunks : list (list Z)) :
  length (buffer ctx) = 64%nat -> Forall bytes_ok chunks ->
  Forall (fun l => Z.of_nat (length l) < 2 ^ 64) chunks ->
  md5_stream ctx chunks = Spec.md5 (concat chunks).
Proof.
  intros Hb Hok Hsz. unfold md5_stream.
  apply (MD5_Final_absorbed ([] ++ concat chunks)).
  - apply updates_absorbed; [by apply MD5_Init_absorbed|constructor|done|done].
  - simpl. clear Hsz. induction Hok; simpl; [constructor|]. by apply bytes_ok_app.
Qed.

Lemma md5_stream_rfc1321_witness :
  md5_stream (mkCtx 0 0 0 0 0 0 (replicate 64 0xff)) [str "message "; str "digest"] =
    Spec.md5 (concat [str "message "; str "digest"]) /\
  Spec.md5 (str "message digest") =
    [0xf9; 0x6b; 0x69; 0x7d; 0x7c; 0xb7; 0x93; 0x8d;
     0x52; 0x5a; 0x2f; 0x31; 0xaa; 0xf1; 0x61; 0xd0].
Proof.
  split; [|vm_compute; reflexivity].
  apply md5_stream_rfc1321; [reflexivity|repeat constructor; lia|repeat constructor].
Defined.
