(* ===== verification/Digest.v ===== *)
(** * Digests and their text forms (src/src/digest.c)

    [digest_get] on top of [Md5], and the conversions between binary values
    and hexadecimal text that the authentication exchange and the registration
    request use.  A [char\[n\]] output parameter is the list of the bytes
    written; [digest_to_str], which writes into a larger buffer, takes the
    buffer and returns it updated. *)

From S2P Require Import Prelude Md5.

Definition DIGEST_LEN : nat := 16.

(** [ctx] is the uninitialised [MD5_CTX] on the stack. *)
Definition digest_get (ctx : MD5_CTX) (data : list Z) (len : nat) : list Z :=
  let ctx := MD5_Init ctx in
  let ctx := MD5_Update ctx (take len data) (Z.of_nat len) in
  fst (MD5_Final ctx).

Definition lookup_lower : list Z := str "0123456789abcdef".
Definition lookup_upper : list Z := str "0123456789ABCDEF".

Definition digest_to_hex8 (data : Z) : list Z :=
  [nth (Z.to_nat (data / 16)) lookup_lower 0; nth (Z.to_nat (data mod 16)) lookup_lower 0].

Definition digest_to_hex8_u (data : Z) : list Z :=
  [nth (Z.to_nat (data / 16)) lookup_upper 0; nth (Z.to_nat (data mod 16)) lookup_upper 0].

Definition digest_to_hex32 (data : Z) : list Z :=
  digest_to_hex8 (Z.land (Z.shiftr data 0x18) 0xff) ++
  digest_to_hex8 (Z.land (Z.shiftr data 0x10) 0xff) ++
  digest_to_hex8 (Z.land (Z.shiftr data 0x8) 0xff) ++
  digest_to_hex8 (Z.land data 0xff).

(** [for (i = 0; i < DIGEST_LEN; i++, result += 2)]; [off] is how far [result]
    has moved, [n] the iterations left. *)
Fixpoint digest_to_str_loop (n i off : nat) (md5 result : list Z) : list Z :=
  match n with
  | O => result
  | S n => digest_to_str_loop n (S i) (off + 2) md5
             (memcpy result off (digest_to_hex8_u (nth i md5 0)))
  end.

Definition digest_to_str (md5 result : list Z) : list Z :=
  digest_to_str_loop DIGEST_LEN 0 0 md5 result.

(** [data] is the byte of the character; comparisons are on [char]. *)
Definition hex4_to_digest (data : Z) : Z :=
  let data := schar data in
  let sub base := if data <? base then 0 else u8 (data - base) in
  if 57 <? data then                (* '9' *)
    if 70 <? data then              (* 'F' *)
      if 102 <? data then 0         (* 'f' *)
      else sub (97 - 10)            (* 'a' - 10 *)
    else sub (65 - 10)              (* 'A' - 10 *)
  else sub 48.                      (* '0' *)

Definition hex8_to_digest (data : list Z) : Z :=
  u8 (hex4_to_digest (nth 0 data 0) * 16 + hex4_to_digest (nth 1 data 0)).

(** The host is little-endian: a 32-bit object reads its first byte as the
    least significant one, and [ntohl] reverses the bytes. *)
Definition host32 (parts : list Z) : Z :=
  nth 0 parts 0 + 2 ^ 8 * nth 1 parts 0 + 2 ^ 16 * nth 2 parts 0 + 2 ^ 24 * nth 3 parts 0.

Definition ntohl (v : Z) : Z :=
  host32 [u8 (Z.shiftr v 24); u8 (Z.shiftr v 16); u8 (Z.shiftr v 8); u8 v].

Definition hex32_to_digest (data : list Z) : Z :=
  let parts := [hex8_to_digest data; hex8_to_digest (drop 2 data);
                hex8_to_digest (drop 4 data); hex8_to_digest (drop 6 data)] in
  ntohl (host32 parts).

(** ** The digest *)

Lemma digest_get_md5 ctx data len :
  length (buffer ctx) = 64%nat -> bytes_ok data -> (len <= length data)%nat ->
  Z.of_nat len < 2 ^ 32 -> digest_get ctx data len = Spec.md5 (take len data).
Proof.
  intros Hb Hok Hlen Hsz. unfold digest_get.
  apply (MD5_Final_absorbed ([] ++ take len data)); [|by apply bytes_ok_take].
  replace len with (length (take len data)) at 3 by len.
  apply MD5_Update_absorbed; [by apply MD5_Init_absorbed|constructor|auto with elp|len].
Qed.

Lemma md5_output_ok st : length (Spec.output st) = 16%nat /\ bytes_ok (Spec.output st).
Proof.
  destruct st as [[[a b] c] d]. split; [done|]. unfold Spec.output.
  repeat (apply bytes_ok_app; split); apply (store32_ok).
Qed.

Lemma length_md5 m : length (Spec.md5 m) = 16%nat.
Proof. apply md5_output_ok. Qed.

Lemma md5_bytes_ok m : bytes_ok (Spec.md5 m).
Proof. apply md5_output_ok. Qed.

(** ** Hexadecimal digits *)

(** Exhaustive check of a byte predicate. *)
Lemma byte_cases (P : Z -> bool) :
  forallb P (seqZ 0 256) = true -> forall b, is_u8 b -> P b = true.
Proof.
  intros HP b Hb. rewrite forallb_forall in HP. apply HP.
  apply list_elem_of_In, elem_of_seqZ. unfold is_u8 in Hb. lia.
Qed.

Lemma hex8_roundtrip b : is_u8 b ->
  hex8_to_digest (digest_to_hex8 b) = b /\ hex8_to_digest (digest_to_hex8_u b) = b.
Proof.
  intros Hb. split; apply Z.eqb_eq; revert b Hb; apply byte_cases; vm_compute; reflexivity.
Qed.

Lemma hex8_to_digest_app b r : hex8_to_digest (digest_to_hex8 b ++ r) = hex8_to_digest (digest_to_hex8 b).
Proof. done. Qed.

Lemma hex8_u8 data : is_u8 (hex8_to_digest data).
Proof. apply u8_range. Qed.

Lemma ntohl_host32 b0 b1 b2 b3 :
  is_u8 b0 -> is_u8 b1 -> is_u8 b2 -> is_u8 b3 ->
  ntohl (host32 [b0; b1; b2; b3]) = b0 * 2 ^ 24 + b1 * 2 ^ 16 + b2 * 2 ^ 8 + b3.
Proof.
  unfold is_u8, ntohl, host32, u8. cbn [nth]. intros H0 H1 H2 H3.
  rewrite !Z.shiftr_div_pow2 by lia.
  change (2 ^ 8) with 256 in *. change (2 ^ 16) with 65536 in *. change (2 ^ 24) with 16777216 in *.
  Z.div_mod_to_equations. lia.
Qed.

Lemma land_ff z : Z.land z 0xff = u8 z.
Proof. change 0xff with (Z.ones 8). by rewrite Z.land_ones. Qed.

Lemma hex32_inverse (n : Z) : is_u32 n ->
  hex32_to_digest (digest_to_hex32 n) = n /\ length (digest_to_hex32 n) = 8%nat.
Proof.
  intros Hn. split; [|done]. unfold hex32_to_digest, digest_to_hex32. rewrite !land_ff.
  change (drop 2 _) with (digest_to_hex8 (u8 (Z.shiftr n 16)) ++
    digest_to_hex8 (u8 (Z.shiftr n 8)) ++ digest_to_hex8 (u8 n)).
  change (drop 4 _) with (digest_to_hex8 (u8 (Z.shiftr n 8)) ++ digest_to_hex8 (u8 n)).
  change (drop 6 _) with (digest_to_hex8 (u8 n)).
  rewrite !hex8_to_digest_app.
  rewrite !(proj1 (hex8_roundtrip _ (u8_range _))), ntohl_host32 by apply u8_range.
  unfold u8, is_u32 in *. rewrite !Z.shiftr_div_pow2 by lia.
  change (2 ^ 8) with 256 in *. change (2 ^ 16) with 65536 in *.
  change (2 ^ 24) with 16777216 in *. change (2 ^ 32) with 4294967296 in *.
  Z.div_mod_to_equations. lia.
Qed.

(** Hexadecimal text of a nonce decodes to the nonce: the client's
    [hex32_to_digest] inverts the proxy's [digest_to_hex32] on every 32-bit
    value, and the text is 8 characters long. *)
Theorem hex32_roundtrip (n : Z) : is_u32 n ->
  hex32_to_digest (digest_to_hex32 n) = n /\ length (digest_to_hex32 n) = 8%nat.
Proof. apply hex32_inverse. Qed.

Lemma hex32_roundtrip_witness :
  hex32_to_digest (digest_to_hex32 0x4d3b6d47) = 0x4d3b6d47 /\
  digest_to_hex32 0x4d3b6d47 = str "4d3b6d47".
Proof. split; [apply hex32_roundtrip; unfold is_u32; lia|vm_compute; reflexivity]. Defined.

(** Every character decodes to a 4-bit value, so [hex8_to_digest] never
    loses bits to the truncation of its sum. *)
Theorem hex4_to_digest_range (ch : Z) : is_u8 ch ->
  0 <= hex4_to_digest ch < 16 /\
  (forall ch', is_u8 ch' ->
    hex8_to_digest [ch; ch'] = hex4_to_digest ch * 16 + hex4_to_digest ch').
Proof.
  assert (forall b, is_u8 b -> 0 <= hex4_to_digest b < 16) as Hr.
  { intros b Hb. enough ((0 <=? hex4_to_digest b) && (hex4_to_digest b <? 16) = true) by lia.
    revert b Hb. apply byte_cases. vm_compute. reflexivity. }
  intros Hc. split; [by apply Hr|]. intros ch' Hc'. unfold hex8_to_digest. cbn [nth].
  pose proof (Hr ch Hc). pose proof (Hr ch' Hc'). apply u8_id. unfold is_u8. lia.
Qed.

Lemma hex4_to_digest_range_witness :
  0 <= hex4_to_digest 0x46 < 16 /\ hex8_to_digest [0x46; 0x61] = 0xfa.
Proof.
  split; [apply (hex4_to_digest_range 0x46); unfold is_u8; lia|].
  rewrite (proj2 (hex4_to_digest_range 0x46 ltac:(unfold is_u8; lia)) 0x61
             ltac:(unfold is_u8; lia)). reflexivity.
Defined.

(** ** The digest as text *)

Lemma digest_to_str_loop_spec md5 : forall n i off result,
  (i + n <= length md5)%nat -> (off + 2 * n <= length result)%nat ->
  digest_to_str_loop n i off md5 result =
  take off result ++ concat (digest_to_hex8_u <$> take n (drop i md5)) ++
    drop (off + 2 * n) result.
Proof.
  induction n as [|n IH]; intros i off result Hi Hoff; cbn [digest_to_str_loop].
  - rewrite take_0. simpl. by rewrite Nat.add_0_r, take_drop.
  - destruct (lookup_lt_is_Some_2 md5 i) as [x Hx]; [lia|].
    rewrite IH; [|lia|rewrite length_memcpy; simpl; lia].
    rewrite (nth_lookup_Some _ _ _ _ Hx).
    rewrite (take_memcpy _ off) by (simpl; lia).
    rewrite (drop_S md5 x i Hx). cbn [take]. rewrite fmap_cons. cbn [concat].
    rewrite <- !app_assoc. do 3 f_equal. unfold memcpy.
    rewrite app_assoc, drop_app_ge by (len; simpl; lia).
    rewrite drop_drop. f_equal. rewrite length_app, length_take. simpl. lia.
Qed.

Lemma length_hex_text l : length (concat (digest_to_hex8_u <$> l)) = (2 * length l)%nat.
Proof.
  induction l as [|x l IH]; [done|]. rewrite fmap_cons. cbn [concat].
  rewrite length_app, IH. simpl. lia.
Qed.

(** [digest_to_str] writes the 32 upper-case hexadecimal digits of the
    digest and leaves the rest of the buffer untouched: byte 32, the place of
    a terminator, keeps whatever it held before the call. *)
Theorem digest_to_str_spec (md5 result : list Z) :
  length md5 = DIGEST_LEN -> length result = (2 * DIGEST_LEN + 1)%nat ->
  digest_to_str md5 result = concat (digest_to_hex8_u <$> md5) ++ drop 32 result /\
  nth 32 (digest_to_str md5 result) 0 = nth 32 result 0.
Proof.
  unfold DIGEST_LEN. intros Hm Hr.
  assert (digest_to_str md5 result = concat (digest_to_hex8_u <$> md5) ++ drop 32 result) as E.
  { unfold digest_to_str, DIGEST_LEN. rewrite digest_to_str_loop_spec by lia.
    by rewrite take_0, drop_0, take_ge by lia. }
  split; [done|]. rewrite E, app_nth2; rewrite length_hex_text, Hm; [|lia].
  by rewrite nth_drop_byte.
Qed.

Lemma digest_to_str_spec_witness :
  nth 32 (digest_to_str (Spec.md5 (str "abc")) (replicate 33 0x2a)) 0 = 0x2a /\
  take 32 (digest_to_str (Spec.md5 (str "abc")) (replicate 33 0x2a)) =
    str "900150983CD24FB0D6963F7D28E17F72".
Proof.
  split; [|vm_compute; reflexivity].
  apply (digest_to_str_spec (Spec.md5 (str "abc")) (replicate 33 0x2a)); reflexivity.
Defined.
