(* ===== verification/Pearson.v ===== *)
(** * Pearson hashing (src/src/pearson.c)

    The 8-bit hash of a callsign that selects the bucket of
    [proxy_priv.clients_by_call].  The table is checked to be a permutation of
    the 256 byte values, and the theorems give what the hash map relies on: the
    hash is a byte, so it indexes the 256 buckets, and a change of one byte of
    the input always changes the hash. *)

From S2P Require Import Prelude.

Definition permutation_table : list Z :=
  [5; 42; 6; 37; 103; 84; 75; 83;
   219; 54; 116; 223; 192; 239; 163; 154;
   114; 189; 206; 105; 92; 76; 162; 225;
   158; 125; 74; 234; 160; 29; 153; 198;
   132; 34; 93; 86; 161; 159; 181; 66;
   197; 82; 204; 59; 237; 134; 36; 57;
   95; 39; 90; 32; 150; 217; 30; 202;
   174; 89; 38; 216; 117; 52; 169; 232;
   43; 254; 126; 222; 170; 129; 49; 207;
   73; 138; 120; 25; 27; 190; 100; 229;
   172; 67; 199; 210; 214; 218; 62; 18;
   97; 63; 101; 7; 20; 187; 131; 179;
   188; 247; 135; 68; 195; 71; 85; 144;
   107; 241; 182; 231; 98; 60; 245; 91;
   119; 87; 12; 51; 146; 96; 47; 45;
   22; 40; 1; 205; 88; 215; 141; 108;
   139; 23; 133; 78; 61; 21; 72; 226;
   183; 53; 106; 173; 224; 31; 44; 80;
   104; 167; 145; 81; 46; 10; 244; 193;
   246; 55; 112; 19; 58; 176; 221; 255;
   209; 196; 147; 14; 127; 79; 111; 157;
   249; 26; 177; 168; 212; 69; 13; 115;
   238; 227; 180; 33; 230; 109; 228; 121;
   142; 156; 28; 64; 110; 118; 165; 184;
   3; 149; 128; 203; 220; 186; 50; 213;
   171; 201; 164; 242; 191; 11; 152; 178;
   252; 194; 123; 48; 2; 130; 24; 124;
   113; 248; 251; 137; 253; 208; 99; 136;
   166; 0; 65; 4; 185; 15; 250; 235;
   16; 9; 200; 211; 35; 175; 70; 155;
   243; 240; 143; 122; 236; 233; 8; 148;
   102; 56; 77; 41; 94; 140; 17; 151].

(** [do { ret = permutation_table[ret ^ *data++]; } while (--data_len > 0)];
    [data_len] is at least one on entry. *)
Fixpoint pearson_loop (data : list Z) (data_len : nat) (ret : Z) : Z :=
  match data_len, data with
  | S data_len, x :: data =>
      let ret := nth (Z.to_nat (Z.lxor ret x)) permutation_table 0 in
      pearson_loop data data_len ret
  | _, _ => ret
  end.

Definition pearson_get (data : list Z) (data_len : nat) : Z :=
  let ret := u8 (Z.of_nat data_len) in
  if (data_len =? 0)%nat then 0 else pearson_loop data data_len ret.

(** ** The table *)

Lemma table_length : length permutation_table = 256%nat.
Proof. reflexivity. Qed.

Lemma table_nodup : NoDup permutation_table.
Proof. apply (bool_decide_unpack _). vm_compute. exact I. Qed.

Lemma table_bytes : bytes_ok permutation_table.
Proof. apply (bool_decide_unpack _). vm_compute. exact I. Qed.

Lemma lxor_u8 x y : is_u8 x -> is_u8 y -> is_u8 (Z.lxor x y).
Proof.
  intros Hx Hy. rewrite <- (u8_id x), <- (u8_id y) by done. unfold u8.
  rewrite <- !Z.land_ones by lia. replace (Z.lxor _ _) with (Z.land (Z.lxor x y) (Z.ones 8)).
  - rewrite Z.land_ones by lia. apply u8_range.
  - apply Z.bits_inj'. intros i Hi. bits_decide.
Qed.

Definition table (i : Z) : Z := nth (Z.to_nat i) permutation_table 0.

Lemma table_lookup i : is_u8 i -> permutation_table !! Z.to_nat i = Some (table i).
Proof.
  intros Hi. unfold table. rewrite nth_lookup.
  destruct (lookup_lt_is_Some_2 permutation_table (Z.to_nat i)) as [x ->]; [|done].
  rewrite table_length. unfold is_u8 in Hi. lia.
Qed.

Lemma table_u8 i : is_u8 i -> is_u8 (table i).
Proof. intros Hi. eapply Forall_lookup_1; [apply table_bytes|by apply table_lookup]. Qed.

Lemma table_inj i j : is_u8 i -> is_u8 j -> table i = table j -> i = j.
Proof.
  intros Hi Hj E. pose proof (table_lookup i Hi) as Li. pose proof (table_lookup j Hj) as Lj.
  rewrite E in Li. assert (Z.to_nat i = Z.to_nat j) by (eapply NoDup_lookup; eauto using table_nodup).
  unfold is_u8 in *. lia.
Qed.

(** ** The hash *)

Lemma pearson_loop_u8 data : forall n ret,
  bytes_ok data -> is_u8 ret -> is_u8 (pearson_loop data n ret).
Proof.
  induction data as [|x data IH]; intros [|n] ret Hd Hr; simpl; try done.
  inversion_clear Hd. apply IH; [done|]. apply table_u8. by apply lxor_u8.
Qed.

Lemma lxor_inj_l a b x : Z.lxor a x = Z.lxor b x -> a = b.
Proof.
  intros E. apply (f_equal (fun z => Z.lxor z x)) in E.
  by rewrite !Z.lxor_assoc, Z.lxor_nilpotent, !Z.lxor_0_r in E.
Qed.

Lemma lxor_inj_r a x y : Z.lxor a x = Z.lxor a y -> x = y.
Proof. rewrite !(Z.lxor_comm a). apply lxor_inj_l. Qed.

(** Two different intermediate values never merge. *)
Lemma pearson_loop_inj data : forall n r1 r2,
  bytes_ok data -> is_u8 r1 -> is_u8 r2 ->
  pearson_loop data n r1 = pearson_loop data n r2 -> r1 = r2.
Proof.
  induction data as [|x data IH]; intros [|n] r1 r2 Hd H1 H2 E; simpl in E; try done.
  inversion_clear Hd as [|? ? Hx Hd'].
  apply IH in E; try (apply table_u8; by apply lxor_u8); [|done].
  apply table_inj in E; try by apply lxor_u8. by apply lxor_inj_l in E.
Qed.

Lemma pearson_loop_app pre : forall n post ret,
  pearson_loop (pre ++ post) (length pre + n) ret =
  pearson_loop post n (pearson_loop pre (length pre) ret).
Proof. induction pre as [|x pre IH]; intros n post ret; simpl; [done|]. apply IH. Qed.

(** The hash of a byte string is one of the 256 bucket indices, and a
    string in which exactly one byte differs hashes to another bucket, wherever
    the byte is. *)
Theorem pearson_get_one_byte (pre post : list Z) (x y : Z) :
  bytes_ok pre -> bytes_ok post -> is_u8 x -> is_u8 y -> x <> y ->
  let n := (length pre + S (length post))%nat in
  is_u8 (pearson_get (pre ++ x :: post) n) /\
  pearson_get (pre ++ x :: post) n <> pearson_get (pre ++ y :: post) n.
Proof.
  intros Hpre Hpost Hx Hy Hne n. unfold pearson_get.
  destruct (Nat.eqb_spec n 0); [lia|]. unfold n. split.
  - apply pearson_loop_u8; [|apply u8_range]. apply bytes_ok_app. split; [done|by constructor].
  - rewrite !pearson_loop_app. set (r := pearson_loop pre _ _).
    assert (is_u8 r) by (apply pearson_loop_u8; [done|apply u8_range]).
    intros E. simpl in E. apply pearson_loop_inj in E; try (apply table_u8; by apply lxor_u8); [|done].
    apply table_inj in E; try by apply lxor_u8. by apply lxor_inj_r in E.
Qed.

Lemma pearson_get_one_byte_witness :
  pearson_get (str "K1RFD") 5 <> pearson_get (str "K2RFD") 5.
Proof.
  apply (pearson_get_one_byte (str "K") (str "RFD") 49 50);
    unfold is_u8; try (repeat constructor; lia); lia.
Defined.
