(* ===== verification/Sys.v ===== *)
(** * The environment: system calls, locks and undefined behaviour

    The code under src/ talks to the operating system, to the C allocator and
    to the locks of [mutex_posix.c].  A piece of C code is modelled as a value
    of [IO A]: a function from the history of calls made so far to the result
    and the list of the calls it makes itself.  The answers come from an
    operating system [OS], a parameter: a function from the history and the
    call to an answer.  Every behaviour of the environment, whatever its own
    state or nondeterminism, is such a function, so a theorem for all [OS] holds
    for every environment.  [OSLaws] names the documented POSIX behaviour the
    theorems use, and [Scripted] is an operating system that plays a script and
    satisfies the laws.

    A result [None] is undefined behaviour or an endless loop (a NULL
    dereference, a loop that runs out of its fuel); theorems state where it
    cannot happen.

    [wp] is the weakest-precondition form in which the components state what an
    operation returns and which calls it makes; [locks] is the judgement that an
    operation takes and releases locks in stack order, takes them only in the
    order of [rank], and leaves on every path with the locks it entered with. *)

From S2P Require Import Prelude.

(** ** errno values (Linux) *)

Definition EINTR : Z := 4.
Definition ENOMEM : Z := 12.
Definition EACCES : Z := 13.
Definition EBUSY : Z := 16.
Definition EINVAL : Z := 22.
Definition ENOSPC : Z := 28.
Definition EPIPE : Z := 32.
Definition EPROTOTYPE : Z := 91.
Definition ENOTSUP : Z := 95.
Definition EADDRNOTAVAIL : Z := 99.
Definition ECONNRESET : Z := 104.
Definition ENOTCONN : Z := 107.

(** ** Calls and answers *)

Inductive sockopt : Type :=
| SO_REUSEADDR | SO_KEEPALIVE (yes : Z) | TCP_KEEPIDLE (sec : Z)
| TCP_KEEPINTVL (sec : Z) | TCP_KEEPCNT (n : Z) | SO_RCVTIMEO (sec usec : Z)
| SO_RCVTIMEO_win (msec : Z).

Inductive call : Type :=
| CAlloc                                        (* malloc / calloc *)
| CPthread (destroy : bool)                     (* pthread_*_init, pthread_*_destroy *)
| CGetaddrinfo (node : option (list Z)) (service : list Z) (stream passive : bool)
| CSocket (stream : bool)
| CSetsockopt (fd : Z) (opt : sockopt)
| CBind (fd : Z)
| CListen (fd : Z)
| CAccept (fd : Z)
| CConnect (fd : Z)
| CRecv (fd : Z) (n : nat)                      (* recvfrom without an address *)
| CRecvfrom (fd : Z) (n : nat)                  (* recvfrom with one *)
| CSend (fd : Z) (buf : list Z)
| CSendto (fd : Z) (buf : list Z) (addr port : Z)
| CShutdown (fd : Z)
| CClose (fd : Z)
| CRand
| CThreadStart                                  (* pthread_create *)
| CThreadJoin                                   (* pthread_join *)
| CCreateThread                                 (* the calls of thread_win.c *)
| CWaitForSingleObject (handle : Z)
| CCloseHandle (handle : Z)
| CGetLastError
| CWSAStartup                                   (* the calls of conn.c on Windows *)
| CWSACleanup
| CWSAIoctl (fd : Z) (keepalivetime keepaliveinterval : Z).

#[export] Instance sockopt_eq_dec : EqDecision sockopt.
Proof. solve_decision. Defined.
#[export] Instance call_eq_dec : EqDecision call.
Proof. solve_decision. Defined.

(** What a call returns: its value ([-1] and [errno] on failure for the socket
    calls), the bytes it delivers, and the peer's address. *)
Record ans : Type := mkAns {
  a_ret : Z; a_errno : Z; a_data : list Z; a_family : Z; a_addr : Z; a_port : Z;
}.

(** The locks of the program, named by the object they belong to. *)
Inductive mutex_id : Type :=
| MConn (conn : nat)               (* conn_priv.mutex *)
| MClient (pc : nat)               (* proxy_conn_priv.mutex_client *)
| MClientSend (pc : nat)           (* proxy_conn_priv.mutex_client_send *)
| MPw (pw : nat)                   (* proxy_worker.mutex *)
| MWorker (w : nat)                (* worker_priv.mutex *)
| MThread (w : nat)                (* thread_priv.mutex of a worker's thread *)
| MReg                             (* registration_service_priv.mutex *)
| MUsable | MIdleClients | MIdleWorkers.  (* proxy_priv *)

#[export] Instance mutex_id_eq_dec : EqDecision mutex_id.
Proof. solve_decision. Defined.

Inductive event : Type :=
| ESys (c : call) (a : ans)
| ELock (shared : bool) (m : mutex_id)
| EUnlock (shared : bool) (m : mutex_id).

Abbreviation trace := (list event).

Class OS : Type := os_answer : trace -> call -> ans.

(** ** Programs *)

Definition IO (A : Type) : Type := trace -> option A * trace.

Definition ret {A} (a : A) : IO A := fun _ => (Some a, []).

(** Undefined behaviour. *)
Definition crash {A} : IO A := fun _ => (None, []).

Definition bind {A B} (m : IO A) (f : A -> IO B) : IO B := fun h =>
  let '(r, e) := m h in
  match r with
  | None => (None, e)
  | Some a => let '(r', e') := f a (h ++ e) in (r', e ++ e')
  end.

Notation "'let*' x ':=' m 'in' k" := (bind m (fun x => k))
  (at level 10, x pattern, m at level 200, k at level 200) : elp_scope.
Notation "'do*' m 'in' k" := (bind m (fun _ => k))
  (at level 10, m at level 200, k at level 200) : elp_scope.

Definition sys `{OS} (c : call) : IO ans := fun h =>
  let a := os_answer h c in (Some a, [ESys c a]).

Definition emit (ev : event) : IO unit := fun _ => (Some tt, [ev]).

Definition mutex_lock (m : mutex_id) : IO unit := emit (ELock false m).
Definition mutex_lock_shared (m : mutex_id) : IO unit := emit (ELock true m).
Definition mutex_unlock (m : mutex_id) : IO unit := emit (EUnlock false m).
Definition mutex_unlock_shared (m : mutex_id) : IO unit := emit (EUnlock true m).

(** [SOCK_ERRNO] after a failed call. *)
Definition SOCK_ERRNO (a : ans) : Z := - a_errno a.
Definition INVALID_SOCKET : Z := -1.
Definition SOCKET_ERROR : Z := -1.

(** ** Weakest preconditions *)

Definition wp {A} (m : IO A) (h : trace) (Q : A -> trace -> Prop) : Prop :=
  exists a e, m h = (Some a, e) /\ Q a e.

Lemma wp_ret {A} (a : A) h Q : Q a [] -> wp (ret a) h Q.
Proof. intros HQ. by exists a, []. Qed.

Lemma wp_bind {A B} (m : IO A) (f : A -> IO B) h Q :
  wp m h (fun a e => wp (f a) (h ++ e) (fun b e' => Q b (e ++ e'))) -> wp (bind m f) h Q.
Proof.
  intros (a & e & Hm & b & e' & Hf & HQ). exists b, (e ++ e').
  unfold bind. by rewrite Hm, Hf.
Qed.

Lemma wp_sys `{OS} c h Q :
  Q (os_answer h c) [ESys c (os_answer h c)] -> wp (sys c) h Q.
Proof. intros HQ. by exists (os_answer h c), [ESys c (os_answer h c)]. Qed.

Lemma wp_emit ev h Q : Q tt [ev] -> wp (emit ev) h Q.
Proof. intros HQ. by exists tt, [ev]. Qed.

Lemma wp_mono {A} (m : IO A) h (Q Q' : A -> trace -> Prop) :
  wp m h Q -> (forall a e, Q a e -> Q' a e) -> wp m h Q'.
Proof. intros (a & e & Hm & HQ) Himp. exists a, e. auto. Qed.

Lemma wp_run {A} (m : IO A) h a e : m h = (Some a, e) -> wp m h (fun a' e' => a' = a /\ e' = e).
Proof. intros Hm. by exists a, e. Qed.

(** Every result of the program satisfies [P]. *)
Definition gives {A} (m : IO A) (P : A -> Prop) : Prop :=
  forall h a e, m h = (Some a, e) -> P a.

Lemma gives_ret {A} (a : A) (P : A -> Prop) : P a -> gives (ret a) P.
Proof. by intros HP h a' e [= <- _]. Qed.

Lemma gives_crash {A} (P : A -> Prop) : gives crash P.
Proof. by intros h a e [=]. Qed.

Lemma gives_any {A} (m : IO A) : gives m (fun _ => True).
Proof. done. Qed.

Lemma gives_bind {A B} (m : IO A) (f : A -> IO B) (P : A -> Prop) (Q : B -> Prop) :
  gives m P -> (forall a, P a -> gives (f a) Q) -> gives (bind m f) Q.
Proof.
  intros Hm Hf h b e. unfold bind. specialize (Hm h). destruct (m h) as [[a|] e1]; [|done].
  specialize (Hf a (Hm a e1 eq_refl) (h ++ e1)). destruct (f a (h ++ e1)) as [r e2].
  intros [= -> _]. by eapply Hf.
Qed.

(** A program whose result does not depend on the history. *)
Definition yields {A} (m : IO A) (a : A) : Prop := forall h, fst (m h) = Some a.

Lemma yields_ret {A} (a : A) : yields (ret a) a.
Proof. done. Qed.

Lemma yields_bind {A B} (m : IO A) (f : A -> IO B) a b :
  yields m a -> yields (f a) b -> yields (bind m f) b.
Proof.
  intros Hm Hf h. unfold bind. specialize (Hm h). destruct (m h) as [r e]. simpl in Hm. subst r.
  specialize (Hf (h ++ e)). by destruct (f a (h ++ e)).
Qed.

(** Step through the head of a program. *)
Ltac wp_step :=
  match goal with
  | |- wp (bind _ _) _ _ => apply wp_bind
  | |- wp (ret _) _ _ => apply wp_ret
  | |- wp (sys _) _ _ => apply wp_sys
  | |- wp (emit _) _ _ => apply wp_emit
  | |- wp (mutex_lock _) _ _ => apply wp_emit
  | |- wp (mutex_lock_shared _) _ _ => apply wp_emit
  | |- wp (mutex_unlock _) _ _ => apply wp_emit
  | |- wp (mutex_unlock_shared _) _ _ => apply wp_emit
  end; cbv beta.
Ltac wp_steps := repeat wp_step.

(** ** What a trace says *)

(** The descriptors open after a trace, from [S] before it. *)
Definition fd_step (S : gset Z) (ev : event) : gset Z :=
  match ev with
  | ESys (CSocket _) a | ESys (CAccept _) a =>
      if decide (a_ret a = -1) then S else {[a_ret a]} ∪ S
  | ESys (CClose x) _ => S ∖ {[x]}
  | _ => S
  end.
Definition fds_run (S : gset Z) (e : trace) : gset Z := fold_left fd_step e S.
Definition open_fds (h : trace) : gset Z := fds_run ∅ h.

(** The bytes the kernel delivered from, and accepted for, descriptor [x]. *)
Definition recv_step (x : Z) (ev : event) : list Z :=
  match ev with
  | ESys (CRecv y _) a | ESys (CRecvfrom y _) a =>
      if decide (x = y /\ 0 < a_ret a) then a_data a else []
  | _ => []
  end.
Definition received (x : Z) (e : trace) : list Z := concat (map (recv_step x) e).

Definition send_step (x : Z) (ev : event) : list Z :=
  match ev with
  | ESys (CSend y b) a => if decide (x = y) then take (Z.to_nat (a_ret a)) b else []
  | _ => []
  end.
Definition sent (x : Z) (e : trace) : list Z := concat (map (send_step x) e).

(** The datagrams the kernel took: descriptor, bytes, address and port. *)
Definition datagram_step (ev : event) : list (Z * list Z * Z * Z) :=
  match ev with
  | ESys (CSendto x b addr port) a =>
      if decide (a_ret a = -1) then [] else [(x, b, addr, port)]
  | _ => []
  end.
Definition datagrams (e : trace) : list (Z * list Z * Z * Z) := concat (map datagram_step e).

Lemma fds_run_app S e1 e2 : fds_run S (e1 ++ e2) = fds_run (fds_run S e1) e2.
Proof. apply fold_left_app. Qed.
Lemma open_fds_app h e : open_fds (h ++ e) = fds_run (open_fds h) e.
Proof. apply fds_run_app. Qed.
Lemma received_app x e1 e2 : received x (e1 ++ e2) = received x e1 ++ received x e2.
Proof. unfold received. by rewrite map_app, concat_app. Qed.
Lemma sent_app x e1 e2 : sent x (e1 ++ e2) = sent x e1 ++ sent x e2.
Proof. unfold sent. by rewrite map_app, concat_app. Qed.
Lemma datagrams_app e1 e2 : datagrams (e1 ++ e2) = datagrams e1 ++ datagrams e2.
Proof. unfold datagrams. by rewrite map_app, concat_app. Qed.

Lemma fds_run_cons S ev e : fds_run S (ev :: e) = fds_run (fd_step S ev) e.
Proof. done. Qed.
Lemma received_cons x ev e : received x (ev :: e) = recv_step x ev ++ received x e.
Proof. done. Qed.
Lemma sent_cons x ev e : sent x (ev :: e) = send_step x ev ++ sent x e.
Proof. done. Qed.
Lemma datagrams_cons ev e : datagrams (ev :: e) = datagram_step ev ++ datagrams e.
Proof. done. Qed.
Lemma fds_run_nil S : fds_run S [] = S.
Proof. done. Qed.
Lemma received_nil x : received x [] = [].
Proof. done. Qed.
Lemma sent_nil x : sent x [] = [].
Proof. done. Qed.
Lemma datagrams_nil : datagrams [] = [].
Proof. done. Qed.

Create Rewrite HintDb trace.
#[export] Hint Rewrite open_fds_app fds_run_app received_app sent_app datagrams_app
  fds_run_cons received_cons sent_cons datagrams_cons
  fds_run_nil received_nil sent_nil datagrams_nil @app_nil_r : trace.

(** Evaluate the views of a trace on its known parts. *)
Ltac trace_simpl :=
  repeat (progress (cbn [app fd_step recv_step send_step datagram_step]; autorewrite with trace)).

(** ** The documented behaviour of the calls *)

Definition failed (a : ans) : Prop := a_ret a = -1 /\ 0 < a_errno a.

Definition legal (h : trace) (c : call) (a : ans) : Prop :=
  match c with
  | CRecv _ n | CRecvfrom _ n =>
      failed a \/ 0 <= a_ret a <= Z.of_nat n /\ length (a_data a) = Z.to_nat (a_ret a)
                  /\ bytes_ok (a_data a)
  | CSend _ b => failed a \/ 0 <= a_ret a <= Z.of_nat (length b)
  | CSendto _ b _ _ => failed a \/ a_ret a = Z.of_nat (length b)   (* a datagram is atomic *)
  | CSocket _ | CAccept _ => failed a \/ 0 <= a_ret a /\ a_ret a ∉ open_fds h
  | CSetsockopt _ _ | CWSAIoctl _ _ _ | CBind _ | CListen _ | CConnect _ | CShutdown _ | CClose _ =>
      failed a \/ a_ret a = 0
  | CPthread _ | CThreadStart | CThreadJoin | CWSAStartup => 0 <= a_ret a
  | CRand => 0 <= a_ret a < 2 ^ 31
  | CAlloc | CGetaddrinfo _ _ _ _ => True
  | CCreateThread | CWaitForSingleObject _ | CCloseHandle _ | CGetLastError | CWSACleanup => True
  end.

#[export] Instance legal_dec h c a : Decision (legal h c a).
Proof. unfold legal, failed. destruct c; apply _. Defined.

Class OSLaws (O : OS) : Prop := os_legal : forall h c, legal h c (os_answer h c).

(** Memory does not run out. *)
Class AllocOK (O : OS) : Prop := alloc_ok : forall h, a_ret (os_answer h CAlloc) <> 0.

(** An operating system that gives the answers of a list, one per call, and
    falls back to a failure where the next answer would not be legal. *)
Definition default_ans (c : call) : ans :=
  match c with
  | CRand | CPthread _ | CThreadStart | CThreadJoin | CWSAStartup => mkAns 0 0 [] 0 0 0
  | _ => mkAns (-1) EPIPE [] 0 0 0
  end.

Definition is_sys (ev : event) : bool := match ev with ESys _ _ => true | _ => false end.

Definition Scripted (script : list ans) : OS := fun h c =>
  let a := nth (length (List.filter is_sys h)) script (default_ans c) in
  if decide (legal h c a) then a else default_ans c.

#[export] Instance Scripted_laws script : OSLaws (Scripted script).
Proof.
  intros h c. unfold os_answer, Scripted. case_decide; [done|].
  destruct c; simpl; unfold failed; simpl; try (left; split; unfold EPIPE; lia); try lia; done.
Qed.

(** Answers for scripts. *)
Definition returns (r : Z) : ans := mkAns r 0 [] 0 0 0.
Definition fails (e : Z) : ans := mkAns (-1) e [] 0 0 0.
Definition delivers (d : list Z) : ans := mkAns (Z.of_nat (length d)) 0 d 0 0 0.
Definition delivers_from (d : list Z) (addr port : Z) : ans :=
  mkAns (Z.of_nat (length d)) 0 d 2 addr port.

(** ** Which calls a program makes *)

(** Every event of the program satisfies [P]. *)
Definition events {A} (P : event -> Prop) (m : IO A) : Prop := forall h, Forall P (snd (m h)).

Lemma events_ret {A} P (a : A) : events P (ret a).
Proof. intros h. apply Forall_nil_2. Qed.
Lemma events_crash {A} P : events P (@crash A).
Proof. intros h. apply Forall_nil_2. Qed.
Lemma events_sys `{OS} (P : event -> Prop) c : (forall a, P (ESys c a)) -> events P (sys c).
Proof. intros HP h. by repeat constructor. Qed.
Lemma events_emit (P : event -> Prop) ev : P ev -> events P (emit ev).
Proof. intros HP h. by repeat constructor. Qed.
Lemma events_bind {A B} P (m : IO A) (f : A -> IO B) :
  events P m -> (forall a, events P (f a)) -> events P (bind m f).
Proof.
  intros Hm Hf h. unfold bind. specialize (Hm h). destruct (m h) as [[a|] e]; [|done].
  specialize (Hf a (h ++ e)). destruct (f a (h ++ e)). simpl in *. by apply Forall_app.
Qed.
Lemma events_bind_res {A B} P (m : IO A) (f : A -> IO B) (R : A -> Prop) :
  gives m R -> events P m -> (forall a, R a -> events P (f a)) -> events P (bind m f).
Proof.
  intros Hg Hm Hf h. unfold bind. specialize (Hm h). specialize (Hg h).
  destruct (m h) as [[a|] e]; [|done].
  specialize (Hf a (Hg a e eq_refl) (h ++ e)). destruct (f a (h ++ e)). simpl in *. by apply Forall_app.
Qed.
Lemma events_impl {A} (P Q : event -> Prop) (m : IO A) :
  events P m -> (forall ev, P ev -> Q ev) -> events Q m.
Proof. intros Hm HPQ h. eapply Forall_impl; [apply Hm|auto]. Qed.

Lemma wp_events {A} P (m : IO A) h Q :
  events P m -> wp m h Q -> wp m h (fun a e => Forall P e /\ Q a e).
Proof.
  intros He (a & e & Hm & HQ). exists a, e. split; [done|]. split; [|done].
  specialize (He h). by rewrite Hm in He.
Qed.

Create HintDb events.
#[export] Hint Resolve events_ret events_crash : events.

(** Walk a program; calls are checked by [simpl]. *)
Ltac events_step :=
  match goal with
  | |- events _ (bind _ _) => apply events_bind; [|intros ?]
  | |- events _ (ret _) => apply events_ret
  | |- events _ crash => apply events_crash
  | |- events _ (sys _) => apply events_sys; intros ?; simpl; auto with events; fail
  | |- events _ (mutex_lock _) => apply events_emit; simpl; auto with events; fail
  | |- events _ (mutex_lock_shared _) => apply events_emit; simpl; auto with events; fail
  | |- events _ (mutex_unlock _) => apply events_emit; simpl; auto with events; fail
  | |- events _ (mutex_unlock_shared _) => apply events_emit; simpl; auto with events; fail
  | |- events _ (match ?x with _ => _ end) => destruct x
  | |- events _ _ => solve [eauto with events]
  end.
Ltac solve_events := repeat events_step.

(** The descriptors a program may receive from, send to, and send datagrams
    from. *)
Record effect : Type := mkEff { eff_recv : Z -> bool; eff_send : Z -> bool; eff_dgram : Z -> bool }.

Definition within (f : effect) (ev : event) : Prop :=
  match ev with
  | ESys (CRecv x _) _ | ESys (CRecvfrom x _) _ => eff_recv f x = true
  | ESys (CSend x _) _ => eff_send f x = true
  | ESys (CSendto x _ _ _) _ => eff_dgram f x = true
  | _ => True
  end.

Definition eff_none : effect := mkEff (fun _ => false) (fun _ => false) (fun _ => false).

Lemma within_received f e x :
  Forall (within f) e -> eff_recv f x = false -> received x e = [].
Proof.
  intros He Hx. induction He as [|ev e Hev _ IH]; [done|]. rewrite received_cons, IH, app_nil_r.
  destruct ev as [[] a| |]; simpl; try done; case_decide as Hd; try done;
    destruct Hd as [<- _]; simpl in Hev; congruence.
Qed.

Lemma within_sent f e x : Forall (within f) e -> eff_send f x = false -> sent x e = [].
Proof.
  intros He Hx. induction He as [|ev e Hev _ IH]; [done|]. rewrite sent_cons, IH, app_nil_r.
  destruct ev as [[] a| |]; simpl; try done; case_decide; try done; subst; simpl in Hev; congruence.
Qed.

Lemma within_datagrams f e :
  Forall (within f) e -> (forall x, eff_dgram f x = false) -> datagrams e = [].
Proof.
  intros He Hx. induction He as [|ev e Hev _ IH]; [done|]. rewrite datagrams_cons, IH, app_nil_r.
  destruct ev as [[] a| |]; simpl; try done. simpl in Hev. congruence.
Qed.

(** Nothing is opened or closed. *)
Definition nofd (ev : event) : Prop :=
  match ev with ESys (CSocket _ | CAccept _ | CClose _) _ => False | _ => True end.

Lemma nofd_run e (S : gset Z) : Forall nofd e -> fds_run S e = S.
Proof.
  induction 1 as [|ev e Hev _ IH]; [done|]. rewrite fds_run_cons.
  by destruct ev as [[] a| |]; simpl in *.
Qed.

(** ** Lock discipline *)

Abbreviation lockset := (list (bool * mutex_id)).

(** The order in which locks are nested.  If every thread takes locks in
    increasing rank only, no cycle of threads waiting for each other's locks can
    arise. *)
Definition rank (m : mutex_id) : Z :=
  match m with
  | MUsable => 0 | MIdleWorkers => 1 | MIdleClients => 2 | MPw _ => 3 | MReg => 4
  | MClient _ => 5 | MClientSend _ => 6 | MWorker _ => 7 | MThread _ => 8 | MConn _ => 9
  end.

(** All locks of [s] rank below [m]. *)
Definition below (m : mutex_id) (s : lockset) : Prop := Forall (fun p => rank p.2 < rank m) s.

#[export] Instance below_dec m s : Decision (below m s).
Proof. unfold below. apply _. Defined.

(** Replay a trace against the stack of locks held by the thread: a lock is
    taken only above the rank of all held ones (in particular never twice), and
    released in the mode it was taken, the latest first. *)
Definition lock_step (s : lockset) (ev : event) : option lockset :=
  match ev with
  | ESys _ _ => Some s
  | ELock sh m => if decide (below m s) then Some ((sh, m) :: s) else None
  | EUnlock sh m =>
      match s with
      | p :: s => if decide (p = (sh, m)) then Some s else None
      | [] => None
      end
  end.

Fixpoint lock_run (s : lockset) (e : trace) : option lockset :=
  match e with
  | [] => Some s
  | ev :: e => match lock_step s ev with Some s => lock_run s e | None => None end
  end.

(** Holding [s], the program [m] respects the discipline on every path and ends
    holding [s']. *)
Definition locks {A} (s : lockset) (m : IO A) (s' : lockset) : Prop :=
  forall h, exists s1, lock_run s (snd (m h)) = Some s1 /\ (fst (m h) = None \/ s1 = s').

Lemma lock_run_app e1 e2 s :
  lock_run s (e1 ++ e2) =
  match lock_run s e1 with Some s1 => lock_run s1 e2 | None => None end.
Proof.
  revert s. induction e1 as [|ev e1 IH]; intros s; simpl; [done|].
  destruct (lock_step s ev); auto.
Qed.

Lemma locks_ret {A} (a : A) s : locks s (ret a) s.
Proof. intros h. exists s. auto. Qed.

Lemma locks_crash {A} s s' : locks s (@crash A) s'.
Proof. intros h. exists s. auto. Qed.

Lemma locks_bind {A B} (m : IO A) (f : A -> IO B) s1 s2 s3 :
  locks s1 m s2 -> (forall a, locks s2 (f a) s3) -> locks s1 (bind m f) s3.
Proof.
  intros Hm Hf h. unfold bind. destruct (Hm h) as (s & Hr & Hs).
  destruct (m h) as [[a|] e]; simpl in *; [|eauto].
  destruct (Hf a (h ++ e)) as (s' & Hr' & Hs').
  destruct (f a (h ++ e)) as [r e']; simpl in *. exists s'.
  destruct Hs as [Hs|Hs]; [done|]. subst s. by rewrite lock_run_app, Hr.
Qed.

(** The same, with what is known of the result. *)
Lemma locks_bind_res {A B} (m : IO A) (f : A -> IO B) (P : A -> Prop) s1 s2 s3 :
  gives m P ->
  locks s1 m s2 -> (forall a, P a -> locks s2 (f a) s3) -> locks s1 (bind m f) s3.
Proof.
  intros HP Hm Hf h. unfold bind. destruct (Hm h) as (s & Hr & Hs).
  specialize (HP h). destruct (m h) as [[a|] e]; simpl in *; [|eauto].
  destruct (Hf a (HP a e eq_refl) (h ++ e)) as (s' & Hr' & Hs').
  destruct (f a (h ++ e)) as [r e']; simpl in *. exists s'.
  destruct Hs as [Hs|Hs]; [done|]. subst s. by rewrite lock_run_app, Hr.
Qed.

Lemma locks_sys `{OS} c s : locks s (sys c) s.
Proof. intros h. exists s. auto. Qed.

Lemma locks_lock sh m s : below m s -> locks s (emit (ELock sh m)) ((sh, m) :: s).
Proof. intros Hm h. exists ((sh, m) :: s). simpl. by rewrite decide_True; auto. Qed.

Lemma below_nil m : below m [].
Proof. apply Forall_nil_2. Qed.

Lemma below_cons m p s : rank p.2 < rank m -> below m s -> below m (p :: s).
Proof. intros. by constructor. Qed.

Lemma below_weaken m m' s : rank m <= rank m' -> below m s -> below m' s.
Proof. intros Hle Hb. eapply Forall_impl; [exact Hb|]. simpl. lia. Qed.

Lemma locks_unlock sh m s : locks ((sh, m) :: s) (emit (EUnlock sh m)) s.
Proof. intros h. exists s. simpl. by rewrite decide_True; auto. Qed.

Lemma locks_if {A} (b : bool) (m1 m2 : IO A) s s' :
  locks s m1 s' -> locks s m2 s' -> locks s (if b then m1 else m2) s'.
Proof. by destruct b. Qed.

Create HintDb locks.
#[export] Hint Resolve locks_ret locks_crash locks_sys locks_if : locks.
#[export] Hint Extern 1 (locks _ (mutex_lock _) _) => apply locks_lock : locks.
#[export] Hint Extern 1 (locks _ (mutex_lock_shared _) _) => apply locks_lock : locks.
#[export] Hint Extern 1 (locks _ (mutex_unlock _) _) => apply locks_unlock : locks.
#[export] Hint Extern 1 (locks _ (mutex_unlock_shared _) _) => apply locks_unlock : locks.

(** Solve [below m s]. *)
Ltac below :=
  repeat (apply below_cons; [simpl; lia|]);
  first [match goal with |- below _ [] => apply below_nil end
        |assumption
        |match goal with H : below ?m ?s |- below ?m' ?s =>
           apply (below_weaken m m' s); [simpl; lia|exact H] end].
#[export] Hint Extern 1 (below _ _) => below : locks.

(** Discharge a [locks] goal by walking the program. *)
Ltac locks_step :=
  match goal with
  | |- locks _ (bind _ _) _ => eapply locks_bind; [|intros ?]
  | |- locks _ (ret _) _ => apply locks_ret
  | |- locks _ crash _ => apply locks_crash
  | |- locks _ (sys _) _ => apply locks_sys
  | |- locks _ (mutex_lock _) _ => apply locks_lock
  | |- locks _ (mutex_lock_shared _) _ => apply locks_lock
  | |- locks _ (mutex_unlock _) _ => apply locks_unlock
  | |- locks _ (mutex_unlock_shared _) _ => apply locks_unlock
  | |- locks _ (match ?x with _ => _ end) _ => destruct x
  | |- locks _ _ _ => solve [eauto with locks]
  | |- below _ _ => below
  end.
Ltac solve_locks := repeat locks_step.
