(* ===== verification/Mutex.v ===== *)
(** * Locks (src/src/mutex_posix.c)

    [mutex_init], [mutex_free] and the condition variable's are operations of
    [IO].  The lock itself is modelled at the granularity of the pthread calls:
    a state holds the owner of the pthread mutex, the [readers] counter and one
    program point per thread, and [mstep] is the step relation of any number of
    threads calling [mutex_lock], [mutex_lock_shared], [mutex_unlock],
    [mutex_unlock_shared] and, when [cv] is set, [condvar_wait].  The pthread
    mutex and condition variable behave as POSIX documents for a default mutex:
    locking succeeds when no one owns it, waiting releases it and takes it back
    before returning, spurious wakeups happen.

    The theorems show that the counter is the number of shared holders, that an
    exclusive holder is alone as long as [condvar_wait] is not used, that two
    exclusive holders never coexist, and that after [condvar_wait] an exclusive
    holder can coexist with shared ones. *)

From S2P Require Import Prelude Sys.

(** ** Initialisation *)

Section Init.
Context `{OS}.

(** [has_priv] says whether [mutex->priv] is not NULL, before and after. *)
Definition mutex_init (has_priv : bool) : IO (Z * bool) :=
  let* ok := (if has_priv then ret true
              else let* a := sys CAlloc in ret (negb (a_ret a =? 0))) in
  if negb ok then ret (- ENOMEM, false) else
  let* a := sys (CPthread false) in
  if negb (a_ret a =? 0) then ret (- a_ret a, false) else
  let* b := sys (CPthread false) in
  if negb (a_ret b =? 0) then do* sys (CPthread true) in ret (- a_ret b, false)
  else ret (0, true).

Definition mutex_free (has_priv : bool) : IO bool :=
  if has_priv then do* sys (CPthread true) in do* sys (CPthread true) in ret false
  else ret false.

Definition condvar_init (has_priv : bool) : IO (Z * bool) :=
  let* ok := (if has_priv then ret true
              else let* a := sys CAlloc in ret (negb (a_ret a =? 0))) in
  if negb ok then ret (- ENOMEM, false) else
  let* a := sys (CPthread false) in
  if negb (a_ret a =? 0) then ret (- a_ret a, false) else ret (0, true).

Definition condvar_free (has_priv : bool) : IO bool :=
  if has_priv then do* sys (CPthread true) in ret false else ret false.

Lemma mutex_init_wp {Hos : OSLaws _} b h Q :
  (forall r e, (r = 0 \/ r < 0) -> (forall S, fds_run S e = S) -> Q (r, r =? 0) e) ->
  wp (mutex_init b) h Q.
Proof using.
  intros HQ. unfold mutex_init. wp_steps.
  eapply (wp_mono _ _ (fun _ e => forall S, fds_run S e = S)).
  { destruct b; wp_steps; done. }
  intros ok e He. destruct ok; simpl; wp_steps.
  - set (h1 := h ++ e). pose proof (Hos h1 (CPthread false)) as H1. simpl in H1.
    destruct (Z.eqb_spec (a_ret (os_answer h1 (CPthread false))) 0) as [E1|E1]; simpl; wp_steps.
    + set (h2 := h1 ++ _). pose proof (Hos h2 (CPthread false)) as H2. simpl in H2.
      destruct (Z.eqb_spec (a_ret (os_answer h2 (CPthread false))) 0) as [E2|E2]; simpl; wp_steps.
      * apply (HQ 0); [by left|]. intros S. trace_simpl. apply He.
      * set (r := - _). replace false with (r =? 0) by (unfold r; lia).
        apply HQ; [right; unfold r; lia|]. intros S. trace_simpl. apply He.
    + set (r := - _). replace false with (r =? 0) by (unfold r; lia).
      apply HQ; [right; unfold r; lia|]. intros S. trace_simpl. apply He.
  - apply (HQ (- ENOMEM)); [right; unfold ENOMEM; lia|]. intros S. trace_simpl. apply He.
Qed.

Lemma locks_mutex_init b s : locks s (mutex_init b) s.
Proof using. unfold mutex_init. solve_locks. Qed.

End Init.

#[export] Hint Resolve locks_mutex_init : locks.

(** The deadline of [condvar_wait_time]: seconds and nanoseconds from now. *)
Definition deadline (sec nsec msec : Z) : Z * Z :=
  let nsec := nsec + u32 ((msec mod 1000) * 1000000) in
  (sec + (msec / 1000 + nsec / 1000000000), nsec mod 1000000000).

(** What waiting and waking return; [wait], [timedwait] and [signal] are the values of
    [pthread_cond_wait], of [pthread_cond_timedwait] until the deadline, and of
    [pthread_cond_signal] or [pthread_cond_broadcast]. *)
Definition ETIMEDOUT : Z := 110.

Definition condvar_wait (wait : Z) : Z := - wait.

Definition condvar_wait_time (sec nsec msec : Z) (timedwait : Z * Z -> Z) : Z :=
  let ret := timedwait (deadline sec nsec msec) in if ret =? ETIMEDOUT then 1 else - ret.

Definition condvar_wake_one (signal : Z) : Z := - signal.
Definition condvar_wake_all (signal : Z) : Z := - signal.

(** ** The lock as a transition system *)

(** Where a thread is. *)
Inductive mpc : Type :=
| Out                      (* holds nothing *)
| Ex                       (* mutex_lock has returned *)
| Sh                       (* mutex_lock_shared has returned *)
| LEnter                   (* mutex_lock: pthread_mutex_lock *)
| LTest                    (* mutex_lock: test of readers, mutex held *)
| LWait                    (* mutex_lock: in pthread_cond_wait *)
| LWoken                   (* mutex_lock: woken, taking the mutex back *)
| SEnter                   (* mutex_lock_shared: pthread_mutex_lock *)
| SInc                     (* mutex_lock_shared: readers++, mutex held *)
| SDone                    (* mutex_lock_shared: pthread_mutex_unlock *)
| UEnter                   (* mutex_unlock_shared: pthread_mutex_lock *)
| UDec                     (* mutex_unlock_shared: --readers, mutex held *)
| UBcast                   (* mutex_unlock_shared: pthread_cond_broadcast *)
| UDone                    (* mutex_unlock_shared: pthread_mutex_unlock *)
| CWait                    (* condvar_wait: in pthread_cond_wait *)
| CWoken.                  (* condvar_wait: woken, taking the mutex back *)

#[export] Instance mpc_eq_dec : EqDecision mpc.
Proof. solve_decision. Defined.

(** Does the thread own the pthread mutex?  Is it counted in [readers]? *)
Definition owns (p : mpc) : bool :=
  match p with Ex | LTest | SInc | SDone | UDec | UBcast | UDone => true | _ => false end.
Definition counted (p : mpc) : bool :=
  match p with SDone | Sh | UEnter | UDec => true | _ => false end.

Record mstate : Type := mkM { owner : option nat; readers : Z; pcs : list mpc }.

Definition wake (p : mpc) : mpc := match p with LWait => LWoken | p => p end.

(** A step of thread [i]. *)
Inductive mstep (cv : bool) (i : nat) : mstate -> mstate -> Prop :=
| M_lock_call o r ps :
    ps !! i = Some Out -> mstep cv i (mkM o r ps) (mkM o r (<[i := LEnter]> ps))
| M_lock_enter r ps :
    ps !! i = Some LEnter -> mstep cv i (mkM None r ps) (mkM (Some i) r (<[i := LTest]> ps))
| M_lock_wait o r ps :
    ps !! i = Some LTest -> 0 < r -> mstep cv i (mkM o r ps) (mkM None r (<[i := LWait]> ps))
| M_lock_done o r ps :
    ps !! i = Some LTest -> ~ 0 < r -> mstep cv i (mkM o r ps) (mkM o r (<[i := Ex]> ps))
| M_lock_spurious o r ps :
    ps !! i = Some LWait -> mstep cv i (mkM o r ps) (mkM o r (<[i := LWoken]> ps))
| M_lock_again r ps :
    ps !! i = Some LWoken -> mstep cv i (mkM None r ps) (mkM (Some i) r (<[i := LTest]> ps))
| M_unlock o r ps :
    ps !! i = Some Ex -> mstep cv i (mkM o r ps) (mkM None r (<[i := Out]> ps))
| M_shared_call o r ps :
    ps !! i = Some Out -> mstep cv i (mkM o r ps) (mkM o r (<[i := SEnter]> ps))
| M_shared_enter r ps :
    ps !! i = Some SEnter -> mstep cv i (mkM None r ps) (mkM (Some i) r (<[i := SInc]> ps))
| M_shared_inc o r ps :
    ps !! i = Some SInc -> mstep cv i (mkM o r ps) (mkM o (u32 (r + 1)) (<[i := SDone]> ps))
| M_shared_done o r ps :
    ps !! i = Some SDone -> mstep cv i (mkM o r ps) (mkM None r (<[i := Sh]> ps))
| M_ushared_call o r ps :
    ps !! i = Some Sh -> mstep cv i (mkM o r ps) (mkM o r (<[i := UEnter]> ps))
| M_ushared_enter r ps :
    ps !! i = Some UEnter -> mstep cv i (mkM None r ps) (mkM (Some i) r (<[i := UDec]> ps))
| M_ushared_last o r ps :
    ps !! i = Some UDec -> u32 (r - 1) <= 0 ->
    mstep cv i (mkM o r ps) (mkM o (u32 (r - 1)) (<[i := UBcast]> ps))
| M_ushared_more o r ps :
    ps !! i = Some UDec -> ~ u32 (r - 1) <= 0 ->
    mstep cv i (mkM o r ps) (mkM o (u32 (r - 1)) (<[i := UDone]> ps))
| M_ushared_bcast o r ps :
    ps !! i = Some UBcast -> mstep cv i (mkM o r ps) (mkM o r (<[i := UDone]> (wake <$> ps)))
| M_ushared_done o r ps :
    ps !! i = Some UDone -> mstep cv i (mkM o r ps) (mkM None r (<[i := Out]> ps))
| M_cv_wait o r ps :
    cv = true -> ps !! i = Some Ex -> mstep cv i (mkM o r ps) (mkM None r (<[i := CWait]> ps))
| M_cv_wake o r ps :
    cv = true -> ps !! i = Some CWait -> mstep cv i (mkM o r ps) (mkM o r (<[i := CWoken]> ps))
| M_cv_again r ps :
    cv = true -> ps !! i = Some CWoken -> mstep cv i (mkM None r ps) (mkM (Some i) r (<[i := Ex]> ps)).

Definition msteps (cv : bool) : mstate -> mstate -> Prop :=
  rtc (fun a b => exists i, mstep cv i a b).

Definition minit (n : nat) : mstate := mkM None 0 (replicate n Out).

(** ** Invariants *)

Definition b2z (b : bool) : Z := if b then 1 else 0.
Definition count (ps : list mpc) : Z := foldr (fun p n => b2z (counted p) + n) 0 ps.

Lemma count_bounds ps : 0 <= count ps <= Z.of_nat (length ps).
Proof. induction ps as [|p ps IH]; simpl; [lia|]. destruct (counted p); simpl; lia. Qed.

Lemma count_insert ps i p q :
  ps !! i = Some p -> count (<[i := q]> ps) = count ps - b2z (counted p) + b2z (counted q).
Proof.
  revert i. induction ps as [|p' ps IH]; intros [|i] Hi; simpl in *; try done.
  - injection Hi as ->. lia.
  - rewrite (IH i Hi). lia.
Qed.

Lemma count_pos ps i p : ps !! i = Some p -> counted p = true -> 0 < count ps.
Proof.
  revert i. induction ps as [|p' ps IH]; intros [|i] Hi Hc; simpl in *; try done.
  - injection Hi as ->. rewrite Hc. pose proof (count_bounds ps). simpl. lia.
  - specialize (IH i Hi Hc). destruct (counted p'); simpl; lia.
Qed.

Lemma count_wake ps : count (wake <$> ps) = count ps.
Proof.
  induction ps as [|p ps IH]; [done|]. rewrite fmap_cons. unfold count in *. simpl.
  rewrite IH. by destruct p.
Qed.

(** The owner is the one thread at a point that owns the mutex; the counter is
    exact. *)
Record minv (ms : mstate) : Prop := {
  minv_small : Z.of_nat (length (pcs ms)) < 2 ^ 32;
  minv_owner : forall i p, pcs ms !! i = Some p -> owns p = true -> owner ms = Some i;
  minv_owned : forall i, owner ms = Some i -> exists p, pcs ms !! i = Some p /\ owns p = true;
  minv_readers : readers ms = count (pcs ms);
}.

Lemma minv_local o o' r r' ps i p q :
  minv (mkM o r ps) -> ps !! i = Some p ->
  r' = r - b2z (counted p) + b2z (counted q) ->
  (o' = o /\ owns p = owns q \/ o = None /\ o' = Some i /\ owns q = true \/
   owns p = true /\ o' = None /\ owns q = false) ->
  minv (mkM o' r' (<[i := q]> ps)).
Proof.
  intros [Hs Ho Hoo Hr] Hi Hr' Hcase. simpl in *. pose proof (Ho i p Hi) as Hp. split; simpl.
  - by rewrite length_insert.
  - intros j pj Hj Hown. apply list_lookup_insert_Some in Hj as [(<- & -> & _)|[Hne Hj]].
    + destruct Hcase as [[-> Heq]|[(_ & -> & _)|(_ & _ & ?)]]; [|done|congruence].
      apply Hp. congruence.
    + pose proof (Ho j pj Hj Hown) as Hoj.
      destruct Hcase as [[-> _]|[(-> & _)|(Hown' & _)]]; [done|done|].
      specialize (Hp Hown'). congruence.
  - intros j Hj. destruct (decide (i = j)) as [<-|Hne].
    + exists q. rewrite list_lookup_insert_eq by (by eapply lookup_lt_Some). split; [done|].
      destruct Hcase as [[-> Heq]|[(_ & _ & ?)|(_ & -> & _)]]; [|done|done].
      destruct (Hoo i Hj) as (p' & Hp' & ?). congruence.
    + rewrite list_lookup_insert_ne by done.
      destruct Hcase as [[-> _]|[(_ & -> & _)|(_ & -> & _)]]; [auto|congruence|done].
  - rewrite (count_insert _ _ p) by done. lia.
Qed.

Lemma minv_wake o r ps : minv (mkM o r ps) -> minv (mkM o r (wake <$> ps)).
Proof.
  intros [Hs Ho Hoo Hr]. simpl in *. split; simpl.
  - by rewrite length_fmap.
  - intros i p Hi Hp. rewrite list_lookup_fmap_Some in Hi. destruct Hi as (p0 & -> & Hi).
    apply (Ho i p0); [done|by destruct p0].
  - intros i Hi. destruct (Hoo i Hi) as (p & Hp & Hown). exists (wake p).
    rewrite list_lookup_fmap, Hp. split; [done|by destruct p].
  - by rewrite count_wake.
Qed.

Lemma minv_u32 o r ps i p :
  minv (mkM o r ps) -> ps !! i = Some p ->
  (counted p = false -> u32 (r + 1) = r + 1) /\ (counted p = true -> u32 (r - 1) = r - 1).
Proof.
  intros [Hs _ _ Hr] Hi. simpl in *. split; intros Hc; apply u32_id; unfold is_u32.
  - pose proof (count_bounds (<[i := SDone]> ps)) as Hb.
    rewrite (count_insert _ _ p), length_insert in Hb by done. rewrite Hc in Hb. simpl in Hb.
    pose proof (count_bounds ps). lia.
  - pose proof (count_pos ps i p Hi Hc). pose proof (count_bounds ps). lia.
Qed.

Lemma minv_step cv i ms ms' : minv ms -> mstep cv i ms ms' -> minv ms'.
Proof.
  intros Hi Hstep. destruct Hstep as
    [o r ps Hp|r ps Hp|o r ps Hp Hr|o r ps Hp Hr|o r ps Hp|r ps Hp|o r ps Hp|o r ps Hp|r ps Hp
    |o r ps Hp|o r ps Hp|o r ps Hp|r ps Hp|o r ps Hp Hr|o r ps Hp Hr|o r ps Hp|o r ps Hp
    |o r ps _ Hp|o r ps _ Hp|r ps _ Hp];
    pose proof (minv_u32 _ _ _ _ _ Hi Hp) as [Hup Hdn]; simpl in Hup, Hdn;
    try specialize (Hup eq_refl); try specialize (Hdn eq_refl);
    try (eapply minv_local; [exact Hi|exact Hp|simpl; lia|simpl; tauto]).
  eapply (minv_local _ _ _ _ _ _ UBcast); [by apply minv_wake| |simpl; lia|simpl; tauto].
  by rewrite list_lookup_fmap, Hp.
Qed.

Lemma minv_init n : Z.of_nat n < 2 ^ 32 -> minv (minit n).
Proof.
  intros Hn. unfold minit. split; simpl; [by rewrite length_replicate| |done|].
  - intros i p Hp. apply lookup_replicate in Hp as [-> _]. done.
  - induction n as [|n IH]; [done|]. simpl. rewrite <- IH by lia. done.
Qed.

Lemma minv_reachable cv n ms :
  Z.of_nat n < 2 ^ 32 -> msteps cv (minit n) ms -> minv ms.
Proof.
  intros Hn Hr. apply minv_init in Hn. revert Hn. generalize (minit n) Hr. intros m0 Hr0.
  induction Hr0 as [|x y z [i Hs] _ IH]; [done|]. intros Hi. apply IH; [done|]. by eapply minv_step.
Qed.

(** Without [condvar_wait], the counter is 0 while the lock is held exclusively. *)
Definition alone (ms : mstate) : Prop := forall i, pcs ms !! i = Some Ex -> readers ms = 0.

(** A thread waiting for the readers to leave will be woken: there still are
    readers, or the last one is about to broadcast. *)
Definition no_lost_wakeup (ms : mstate) : Prop :=
  forall i, pcs ms !! i = Some LWait -> 0 < readers ms \/ exists j, pcs ms !! j = Some UBcast.

(** Case analysis on which thread is looked up after an update. *)
Ltac lookup_cases H :=
  apply list_lookup_insert_Some in H as [(<- & H & _)|[? H]]; [try discriminate|].

Lemma alone_step i ms ms' : minv ms -> alone ms -> mstep false i ms ms' -> alone ms'.
Proof.
  intros Hinv Hal Hstep j Hj. pose proof (minv_owner _ Hinv) as Ho.
  pose proof (minv_readers _ Hinv) as Hr. pose proof (count_bounds (pcs ms)) as Hb.
  destruct Hstep; simpl in *; try discriminate; lookup_cases Hj; try (by apply (Hal j)); try lia;
    try (pose proof (Ho _ _ Hj eq_refl) as E1;
         match goal with Hp : _ !! i = Some _ |- _ =>
           pose proof (Ho _ _ Hp eq_refl) as E2 end; congruence).
  rewrite list_lookup_fmap_Some in Hj. destruct Hj as (q & Hq & Hj).
  apply (Hal j). destruct q; done.
Qed.

Lemma wakeup_step cv i ms ms' :
  minv ms -> no_lost_wakeup ms -> mstep cv i ms ms' -> no_lost_wakeup ms'.
Proof.
  intros Hinv Hw Hstep j Hj. pose proof (minv_u32 (owner ms) (readers ms) (pcs ms) i) as Hu.
  assert (Hinv' : minv (mkM (owner ms) (readers ms) (pcs ms))) by (by destruct ms).
  pose proof (minv_readers _ Hinv) as Hr. pose proof (count_bounds (pcs ms)) as Hb.
  assert (Hkeep : forall q ps, pcs ms = ps -> ps !! i = Some q -> q <> UBcast -> ps !! j = Some LWait ->
    0 < readers ms \/ exists k, k <> i /\ ps !! k = Some UBcast).
  { intros q ps <- Hq Hne Hjl. destruct (Hw j Hjl) as [|[k Hk]]; [by left|right].
    exists k. split; [congruence|done]. }
  destruct Hstep as
    [o r ps Hp|r ps Hp|o r ps Hp H0|o r ps Hp H0|o r ps Hp|r ps Hp|o r ps Hp|o r ps Hp|r ps Hp
    |o r ps Hp|o r ps Hp|o r ps Hp|r ps Hp|o r ps Hp H0|o r ps Hp H0|o r ps Hp|o r ps Hp
    |o r ps _ Hp|o r ps _ Hp|r ps _ Hp]; simpl in *;
    destruct (Hu _ Hinv' Hp) as [Hup Hdn]; simpl in Hup, Hdn;
    try specialize (Hup eq_refl); try specialize (Hdn eq_refl);
    lookup_cases Hj; try (by left);
    try (destruct (Hkeep _ _ eq_refl Hp ltac:(done) Hj) as [?|(k & Hk & Hkb)]; [by left; lia|
         right; exists k; by rewrite list_lookup_insert_ne by done]).
  - right. exists i. apply list_lookup_insert_eq. by eapply lookup_lt_Some.
  - rewrite list_lookup_fmap_Some in Hj. destruct Hj as (q & Hq & _). by destruct q.
Qed.

(** Every reachable state satisfies what holds at the start and is preserved. *)
Lemma msteps_ind cv n (P : mstate -> Prop) ms :
  Z.of_nat n < 2 ^ 32 -> P (minit n) ->
  (forall i a b, minv a -> P a -> mstep cv i a b -> P b) ->
  msteps cv (minit n) ms -> P ms.
Proof.
  intros Hn H0 Hstep Hr. apply minv_init in Hn. unfold msteps in Hr.
  induction Hr as [|x y z [i Hs] _ IH]; [done|].
  apply IH; [by eapply minv_step|by eapply Hstep].
Qed.

Lemma minit_out n i p : pcs (minit n) !! i = Some p -> p = Out.
Proof. intros Hp. by apply lookup_replicate in Hp as [-> _]. Qed.

(** ** Properties *)

(** Any number of threads using the lock without condition variables: when
    a thread holds it exclusively, no other thread holds it, exclusively or
    shared, nor is between the counter's increment and decrement. *)
Theorem mutex_exclusion n ms i j p :
  Z.of_nat n < 2 ^ 32 -> msteps false (minit n) ms ->
  pcs ms !! i = Some Ex -> pcs ms !! j = Some p -> i <> j ->
  p <> Ex /\ p <> Sh /\ counted p = false.
Proof.
  intros Hn Hr Hi Hj Hne. pose proof (minv_reachable _ _ _ Hn Hr) as Hinv.
  assert (Hal : alone ms).
  { apply (msteps_ind false n alone ms); [done| |intros; by eapply alone_step|done].
    intros k Hk. by apply minit_out in Hk. }
  assert (Hc : counted p = false).
  { destruct (counted p) eqn:Hc; [|done]. pose proof (count_pos _ _ _ Hj Hc).
    pose proof (Hal i Hi). pose proof (minv_readers _ Hinv). lia. }
  split_and!; [|by intros ->|done]. intros ->.
  pose proof (minv_owner _ Hinv _ _ Hi eq_refl). pose proof (minv_owner _ Hinv _ _ Hj eq_refl). congruence.
Qed.

(** Take a step in a closed example. *)
Ltac mstep_by c i := eapply rtc_l; [exists i; eapply c; reflexivity || (simpl; lia) || (vm_compute; done)|]; cbn.

Lemma mutex_exclusion_witness :
  exists ms, msteps false (minit 2) ms /\ pcs ms !! 0%nat = Some Ex /\
    LEnter <> Ex /\ LEnter <> Sh /\ counted LEnter = false.
Proof.
  assert (Hr : msteps false (minit 2) (mkM (Some 0%nat) 0 [Ex; LEnter])).
  { unfold msteps, minit. simpl. mstep_by M_lock_call 0%nat. mstep_by M_lock_enter 0%nat.
    mstep_by M_lock_done 0%nat. mstep_by M_lock_call 1%nat. apply rtc_refl. }
  eexists. split; [exact Hr|]. split; [reflexivity|].
  apply (mutex_exclusion 2 _ 0 1 LEnter ltac:(simpl; lia) Hr); [reflexivity|reflexivity|lia].
Defined.

(** C38. With condition variables too: the [readers] counter is exactly the
    number of threads that hold the lock shared or are releasing it, two threads
    never hold it exclusively at once, and a thread that waits for the readers
    to leave is never forgotten: there are readers, or the last of them is about
    to broadcast. *)
Theorem mutex_no_lost_wakeup n ms :
  Z.of_nat n < 2 ^ 32 -> msteps true (minit n) ms ->
  readers ms = count (pcs ms) /\
  (forall i j, pcs ms !! i = Some Ex -> pcs ms !! j = Some Ex -> i = j) /\
  (forall i, pcs ms !! i = Some LWait -> 0 < readers ms \/ exists j, pcs ms !! j = Some UBcast).
Proof.
  intros Hn Hr. pose proof (minv_reachable _ _ _ Hn Hr) as Hinv. split_and!.
  - apply Hinv.
  - intros i j Hi Hj. pose proof (minv_owner _ Hinv _ _ Hi eq_refl).
    pose proof (minv_owner _ Hinv _ _ Hj eq_refl). congruence.
  - apply (msteps_ind true n no_lost_wakeup ms); [done| |intros; by eapply wakeup_step|done].
    intros k Hk. by apply minit_out in Hk.
Qed.

Lemma mutex_no_lost_wakeup_witness :
  exists ms, msteps true (minit 2) ms /\ pcs ms !! 1%nat = Some LWait /\ readers ms = count (pcs ms).
Proof.
  assert (Hr : msteps true (minit 2) (mkM None 1 [Sh; LWait])).
  { unfold msteps, minit. simpl. mstep_by M_shared_call 0%nat. mstep_by M_shared_enter 0%nat.
    mstep_by M_shared_inc 0%nat. mstep_by M_shared_done 0%nat. mstep_by M_lock_call 1%nat.
    mstep_by M_lock_enter 1%nat. mstep_by M_lock_wait 1%nat. apply rtc_refl. }
  eexists. split; [exact Hr|]. split; [reflexivity|].
  apply (mutex_no_lost_wakeup 2 _ ltac:(simpl; lia) Hr).
Defined.

(** [condvar_wait] takes back only the pthread mutex and does not look at
    the readers: a thread can return from it to its exclusive section while
    another thread holds the lock shared. *)
Theorem condvar_wait_admits_readers :
  exists ms, msteps true (minit 2) ms /\ pcs ms !! 0%nat = Some Ex /\ pcs ms !! 1%nat = Some Sh.
Proof.
  exists (mkM (Some 0%nat) 1 [Ex; Sh]). split; [|done]. unfold msteps, minit. simpl.
  mstep_by M_lock_call 0%nat. mstep_by M_lock_enter 0%nat. mstep_by M_lock_done 0%nat.
  mstep_by M_cv_wait 0%nat.
  mstep_by M_shared_call 1%nat. mstep_by M_shared_enter 1%nat. mstep_by M_shared_inc 1%nat.
  mstep_by M_shared_done 1%nat. mstep_by M_cv_wake 0%nat. mstep_by M_cv_again 0%nat.
  apply rtc_refl.
Qed.

(** The deadline of a timed wait is a normalised time, [msec] milliseconds
    after the current one, for every 32-bit number of milliseconds. *)
Theorem deadline_exact sec nsec msec :
  0 <= nsec < 1000000000 -> is_u32 msec ->
  let '(s, n) := deadline sec nsec msec in
  0 <= n < 1000000000 /\
  s * 1000000000 + n = sec * 1000000000 + nsec + msec * 1000000.
Proof.
  intros Hn Hm. unfold deadline. rewrite u32_id by (unfold is_u32; div_lia). div_lia.
Qed.

Lemma deadline_exact_witness :
  let '(s, n) := deadline 10 999000000 1500 in
  0 <= n < 1000000000 /\ s * 1000000000 + n = 10 * 1000000000 + 999000000 + 1500 * 1000000.
Proof. apply (deadline_exact 10 999000000 1500); unfold is_u32; lia. Defined.
