(* ===== verification/LockSpec.v ===== *)
(** * What a lock promises (src/include/mutex.h)

    [mutex.h] is implemented twice, by [mutex_posix.c] and by [mutex_win.c].  This
    file states what the rest of the program may rely on, as a transition system
    on what each thread holds ([lspec]), and the interface [RWLock] of a lock that
    implements it.  Everything that is proved of an [RWLock] holds of both
    implementations: exclusion, and that data written only by exclusive holders
    is stable for every other holder.  The POSIX lock of Mutex.v, used without
    [condvar_wait], is an instance; the Windows lock is one in MutexWin.v. *)

From S2P Require Import Prelude Sys Mutex.

(** ** The contract *)

(** What a thread holds. *)
Inductive hold : Type := HNone | HEx | HSh.

#[export] Instance hold_eq_dec : EqDecision hold.
Proof. solve_decision. Defined.

Abbreviation lview := (list hold).

(** [mutex_lock], [mutex_lock_shared] and their inverses return for thread [i]. *)
Inductive lspec (i : nat) : lview -> lview -> Prop :=
| L_lock v :
    v !! i = Some HNone -> (forall j h, v !! j = Some h -> h = HNone) -> lspec i v (<[i := HEx]> v)
| L_lock_shared v :
    v !! i = Some HNone -> (forall j, v !! j <> Some HEx) -> lspec i v (<[i := HSh]> v)
| L_unlock v : v !! i = Some HEx -> lspec i v (<[i := HNone]> v)
| L_unlock_shared v : v !! i = Some HSh -> lspec i v (<[i := HNone]> v).

Definition lspecs : lview -> lview -> Prop := rtc (fun a b => exists i, lspec i a b).

(** Who holds the lock exclusively is alone. *)
Definition exclusive (v : lview) : Prop :=
  forall i j h, v !! i = Some HEx -> v !! j = Some h -> i <> j -> h = HNone.

Lemma exclusive_step i v v' : exclusive v -> lspec i v v' -> exclusive v'.
Proof.
  intros Hx Hs a b h Ha Hb Hne. destruct Hs as [v Hi Hn|v Hi Hn|v Hi|v Hi];
    apply list_lookup_insert_Some in Ha as [(<- & ? & _)|[? Ha]]; try done;
    apply list_lookup_insert_Some in Hb as [(<- & <- & _)|[? Hb]]; try done;
    try (by eapply (Hx a b)); try (by destruct (Hn a)).
  - by eapply (Hn b).
  - by specialize (Hn a HEx Ha).
Qed.

Lemma exclusive_start n : exclusive (replicate n HNone).
Proof. intros i j h Hi. by apply lookup_replicate in Hi as [? _]. Qed.

(** ** The interface *)

(** The states of a lock used by some threads, the steps of its threads and
    what they hold. *)
Class RWLock (S : Type) : Type := {
  rw_init : nat -> S;
  rw_step : nat -> S -> S -> Prop;
  rw_view : S -> lview;
  rw_inv : S -> Prop;
}.

(** Every step is invisible or one of the contract's.  A lock has room for fewer
    than 2^32 threads. *)
Class RWLockOK S `{!RWLock S} : Prop := {
  rw_start n : Z.of_nat n < 2 ^ 32 -> rw_inv (rw_init n) /\ rw_view (rw_init n) = replicate n HNone;
  rw_sim i s s' : rw_inv s -> rw_step i s s' ->
    rw_inv s' /\ (rw_view s' = rw_view s \/ lspec i (rw_view s) (rw_view s'));
}.

Section Client.
Context {S : Type} `{!RWLock S} {Hok : RWLockOK S}.

Definition rw_steps : S -> S -> Prop := rtc (fun a b => exists i, rw_step i a b).

Lemma rw_refines n s :
  Z.of_nat n < 2 ^ 32 -> rw_steps (rw_init n) s ->
  rw_inv s /\ lspecs (replicate n HNone) (rw_view s).
Proof.
  intros Hn Hr. destruct (rw_start n Hn) as [Hi Hv].
  assert (Hgo : rw_inv s /\ lspecs (rw_view (rw_init n)) (rw_view s)); [|by rewrite <- Hv].
  clear Hv. induction Hr as [x|x y z [i Hs] _ IH]; [split; [done|apply rtc_refl]|].
  destruct (rw_sim i x y Hi Hs) as [Hi' Hstep]. destruct (IH Hi') as [Hz Hl]. split; [done|].
  destruct Hstep as [<-|Hstep]; [done|]. eapply rtc_l; [by exists i|done].
Qed.

Lemma lspecs_exclusive n v : lspecs (replicate n HNone) v -> exclusive v.
Proof using.
  intros Hr. pose proof (exclusive_start n) as Hx. revert Hx. generalize (replicate n HNone) Hr.
  intros v0 Hr0. induction Hr0 as [|x y z [i Hs] _ IH]; [done|]. intros Hx. by eapply IH, exclusive_step.
Qed.

(** *** Data behind the lock *)

(** A step of thread [i] takes or releases the lock, or writes to the data, which
    it may do while it holds the lock exclusively. *)
Inductive gstep {D : Type} (i : nat) : bool -> S * D -> S * D -> Prop :=
| G_lock s s' d : rw_step i s s' -> gstep i false (s, d) (s', d)
| G_write s d d' : rw_view s !! i = Some HEx -> gstep i true (s, d) (s, d').

Definition gsteps {D : Type} : S * D -> S * D -> Prop :=
  rtc (fun a b => exists i w, gstep i w a b).

(** Thread [j] holds the lock all along and does not write. *)
Definition watched {D : Type} (j : nat) : S * D -> S * D -> Prop :=
  rtc (fun a b => exists i w, gstep i w a b /\ ~ (i = j /\ w = true) /\
                  exists h, rw_view (fst a) !! j = Some h /\ h <> HNone).

Lemma gsteps_lock {D} (x y : S * D) : gsteps x y -> rw_steps (fst x) (fst y).
Proof using.
  induction 1 as [x|x y z (i & w & Hs) _ IH]; [apply rtc_refl|].
  destruct Hs as [s s' d Hs|s d d' Hv]; [|exact IH]. eapply rtc_l; [by exists i|exact IH].
Qed.

Lemma watched_stable {D} n (x y : S * D) j :
  Z.of_nat n < 2 ^ 32 -> rw_steps (rw_init n) (fst x) -> watched j x y -> snd y = snd x.
Proof.
  intros Hn Hr Hw. induction Hw as [|x y z (i & w & Hs & Hno & h & Hh & Hne) _ IH]; [done|].
  rewrite IH.
  - destruct Hs as [s s' d Hs|s d d' Hi]; [done|]. simpl in *. destruct (decide (i = j)) as [->|Hij].
    + by destruct Hno.
    + destruct (rw_refines n s Hn Hr) as [_ Hl]. destruct Hne.
      by eapply (lspecs_exclusive n _ Hl i j).
  - unfold rw_steps in *. etrans; [exact Hr|]. apply (gsteps_lock x y).
    apply rtc_once. by exists i, w.
Qed.

End Client.

(** ** The POSIX lock *)

(** What a thread holds at each point: a shared lock from the increment of
    [readers] to its decrement. *)
Definition posix_hold (p : mpc) : hold :=
  match p with
  | Ex => HEx
  | SDone | Sh | UEnter | UDec => HSh
  | _ => HNone
  end.

#[export] Instance posix_lock : RWLock mstate := {|
  rw_init := minit;
  rw_step := mstep false;
  rw_view ms := posix_hold <$> pcs ms;
  rw_inv ms := minv ms /\ alone ms;
|}.

(** A step between two points at which the thread holds the same. *)
Lemma view_same {A} (f : A -> hold) (ps : list A) i p q :
  ps !! i = Some p -> f p = f q -> f <$> <[i := q]> ps = f <$> ps.
Proof.
  intros Hi Hf. rewrite list_fmap_insert. apply list_insert_id. by rewrite list_lookup_fmap, Hi, <- Hf.
Qed.

Lemma view_wake (ps : list mpc) : posix_hold <$> (wake <$> ps) = posix_hold <$> ps.
Proof. rewrite <- list_fmap_compose. apply list_fmap_ext. by intros ? []. Qed.

(** The view at a thread, from its point. *)
Lemma view_at {A} (f : A -> hold) (ps : list A) i p h : ps !! i = Some p -> f p = h -> (f <$> ps) !! i = Some h.
Proof. intros Hi <-. by rewrite list_lookup_fmap, Hi. Qed.

Lemma posix_nobody ms i p :
  minv ms -> readers ms = 0 -> pcs ms !! i = Some p -> owns p = true -> p <> Ex ->
  forall j h, (posix_hold <$> pcs ms) !! j = Some h -> h = HNone.
Proof.
  intros Hinv H0 Hi Hp Hne j h Hj. apply list_lookup_fmap_Some in Hj as (q & -> & Hj).
  pose proof (minv_readers _ Hinv) as Hr. rewrite H0 in Hr.
  assert (Hc : counted q = false).
  { destruct (counted q) eqn:Hc; [|done]. pose proof (count_pos _ _ _ Hj Hc). lia. }
  destruct q; try done. pose proof (minv_owner _ Hinv _ _ Hj eq_refl).
  pose proof (minv_owner _ Hinv _ _ Hi Hp). congruence.
Qed.

Lemma posix_no_writer ms i p :
  minv ms -> pcs ms !! i = Some p -> owns p = true -> p <> Ex ->
  forall j, (posix_hold <$> pcs ms) !! j <> Some HEx.
Proof.
  intros Hinv Hi Hp Hne j Hj. apply list_lookup_fmap_Some in Hj as (q & Hq & Hj).
  destruct q; try done. pose proof (minv_owner _ Hinv _ _ Hj eq_refl).
  pose proof (minv_owner _ Hinv _ _ Hi Hp). congruence.
Qed.

Lemma posix_sim i ms ms' :
  minv ms -> mstep false i ms ms' ->
  posix_hold <$> pcs ms' = posix_hold <$> pcs ms \/
  lspec i (posix_hold <$> pcs ms) (posix_hold <$> pcs ms').
Proof.
  intros Hinv Hs. pose proof (minv_readers _ Hinv) as Hr. pose proof (count_bounds (pcs ms)) as Hb.
  destruct Hs as
    [o r ps Hp|r ps Hp|o r ps Hp H0|o r ps Hp H0|o r ps Hp|r ps Hp|o r ps Hp|o r ps Hp|r ps Hp
    |o r ps Hp|o r ps Hp|o r ps Hp|r ps Hp|o r ps Hp H0|o r ps Hp H0|o r ps Hp|o r ps Hp
    |o r ps [=] Hp|o r ps [=] Hp|r ps [=] Hp]; simpl in *;
    try (left; by eapply view_same);
    try (left; rewrite <- (view_wake ps); eapply view_same; [by rewrite list_lookup_fmap, Hp|done]);
    rewrite list_fmap_insert; right.
  - apply L_lock; [by eapply view_at|]. by eapply (posix_nobody _ i LTest Hinv); [simpl; lia|..].
  - apply L_unlock. by eapply view_at.
  - apply L_lock_shared; [by eapply view_at|]. by eapply (posix_no_writer _ i SInc Hinv).
  - apply L_unlock_shared. by eapply view_at.
  - apply L_unlock_shared. by eapply view_at.
Qed.

#[export] Instance posix_lock_ok : RWLockOK mstate.
Proof.
  split.
  - intros n Hn. simpl. split; [split; [by apply minv_init|]|by rewrite fmap_replicate].
    intros i Hi. by apply minit_out in Hi.
  - intros i s s' [Hinv Hal] Hs. simpl in *. split; [split; [by eapply minv_step|by eapply alone_step]|].
    by apply posix_sim.
Qed.

(** ** Properties *)




