(* ===== verification/MutexWin.v ===== *)
(** * Locks on Windows (src/src/mutex_win.c)

    The second implementation of [mutex.h], on slim reader/writer locks and
    Windows condition variables.  These are parameters: [SrwApi] has the calls the
    code makes, [SrwLaws] what Microsoft documents of them, in terms of whether
    the lock is held exclusively and by how many shared holders; [SrwCounter] is
    an instance.  [nstep] is the step relation of any number of threads using the
    lock and a condition variable.

    The theorem shows that the lock keeps the contract of LockSpec.v, and unlike
    the POSIX lock also when its holders wait on condition variables. *)

From S2P Require Import Prelude Sys Mutex LockSpec.

(** ** The calls of the system *)

(** Acquiring gives [None] while it blocks. *)
Class SrwApi : Type := {
  SRWLOCK : Type;
  InitializeSRWLock : SRWLOCK;
  AcquireSRWLockExclusive : SRWLOCK -> option SRWLOCK;
  AcquireSRWLockShared : SRWLOCK -> option SRWLOCK;
  ReleaseSRWLockExclusive : SRWLOCK -> SRWLOCK;
  ReleaseSRWLockShared : SRWLOCK -> SRWLOCK;
}.

(** [srw_state] is whether the lock is held exclusively, and the number of its
    shared holders.  An exclusive lock is given when nobody holds the lock, a
    shared one only when nobody holds it exclusively. *)
Class SrwLaws (Api : SrwApi) : Type := {
  srw_state : SRWLOCK -> bool * nat;
  srw_init : srw_state InitializeSRWLock = (false, 0%nat);
  srw_exclusive s s' : AcquireSRWLockExclusive s = Some s' -> srw_state s = (false, 0%nat) /\ srw_state s' = (true, 0%nat);
  srw_available s : srw_state s = (false, 0%nat) -> is_Some (AcquireSRWLockExclusive s);
  srw_shared s s' : AcquireSRWLockShared s = Some s' ->
    exists n, srw_state s = (false, n) /\ srw_state s' = (false, S n);
  srw_release s : srw_state s = (true, 0%nat) -> srw_state (ReleaseSRWLockExclusive s) = (false, 0%nat);
  srw_release_shared s n : srw_state s = (false, S n) -> srw_state (ReleaseSRWLockShared s) = (false, n);
}.

Module MutexWin.

(** ** Initialisation and return values *)

Section Init.
Context `{OS}.

Definition mutex_init (has_priv : bool) : IO (Z * bool) :=
  let* ok := (if has_priv then ret true
              else let* a := sys CAlloc in ret (negb (a_ret a =? 0))) in
  if negb ok then ret (- ENOMEM, false) else ret (0, true).

Definition mutex_free (has_priv : bool) : IO bool := ret false.

Definition condvar_init (has_priv : bool) : IO (Z * bool) :=
  let* ok := (if has_priv then ret true
              else let* a := sys CAlloc in ret (negb (a_ret a =? 0))) in
  if negb ok then ret (- ENOMEM, false) else ret (0, true).

Definition condvar_free (has_priv : bool) : IO bool := ret false.

(** What the waits return, for the answers of [SleepConditionVariableSRW] and
    [GetLastError]. *)
Definition ERROR_TIMEOUT : Z := 1460.

Definition condvar_wait (slept : bool) (error : Z) : Z := if slept then 0 else error.

Definition condvar_wait_time (slept : bool) (error : Z) : Z :=
  if slept then 0 else if error =? ERROR_TIMEOUT then 1 else error.

End Init.

(** ** The lock as a transition system *)

(** Where a thread is. *)
Inductive npc : Type :=
| NOut                     (* holds nothing *)
| NLock                    (* mutex_lock: in AcquireSRWLockExclusive *)
| NEx                      (* mutex_lock has returned *)
| NLockSh                  (* mutex_lock_shared: in AcquireSRWLockShared *)
| NSh                      (* mutex_lock_shared has returned *)
| NSleep                   (* condvar_wait: asleep *)
| NWoken.                  (* condvar_wait: woken or timed out, taking the lock back *)

Definition nwake (p : npc) : npc := match p with NSleep => NWoken | p => p end.

Definition win_hold (p : npc) : hold := match p with NEx => HEx | NSh => HSh | _ => HNone end.

Section Steps.
Context {Api : SrwApi}.

Record nstate : Type := mkN { lock : SRWLOCK; npcs : list npc }.

(** A step of thread [i].  A thread asleep may wake at any time, by a time-out or
    for no reason, and has the lock again when the call returns. *)
Inductive nstep (i : nat) : nstate -> nstate -> Prop :=
| N_lock_call s ps :
    ps !! i = Some NOut -> nstep i (mkN s ps) (mkN s (<[i := NLock]> ps))
| N_lock s s' ps :
    ps !! i = Some NLock -> AcquireSRWLockExclusive s = Some s' ->
    nstep i (mkN s ps) (mkN s' (<[i := NEx]> ps))
| N_unlock s ps :
    ps !! i = Some NEx -> nstep i (mkN s ps) (mkN (ReleaseSRWLockExclusive s) (<[i := NOut]> ps))
| N_shared_call s ps :
    ps !! i = Some NOut -> nstep i (mkN s ps) (mkN s (<[i := NLockSh]> ps))
| N_shared s s' ps :
    ps !! i = Some NLockSh -> AcquireSRWLockShared s = Some s' ->
    nstep i (mkN s ps) (mkN s' (<[i := NSh]> ps))
| N_ushared s ps :
    ps !! i = Some NSh -> nstep i (mkN s ps) (mkN (ReleaseSRWLockShared s) (<[i := NOut]> ps))
| N_wait s ps :
    ps !! i = Some NEx -> nstep i (mkN s ps) (mkN (ReleaseSRWLockExclusive s) (<[i := NSleep]> ps))
| N_wake s ps :
    ps !! i = Some NSleep -> nstep i (mkN s ps) (mkN s (<[i := NWoken]> ps))
| N_again s s' ps :
    ps !! i = Some NWoken -> AcquireSRWLockExclusive s = Some s' ->
    nstep i (mkN s ps) (mkN s' (<[i := NEx]> ps))
| N_wake_one s ps j :                                          (* condvar_wake_one *)
    ps !! j = Some NSleep -> nstep i (mkN s ps) (mkN s (<[j := NWoken]> ps))
| N_wake_all s ps : nstep i (mkN s ps) (mkN s (nwake <$> ps)). (* condvar_wake_all *)

Definition nsteps : nstate -> nstate -> Prop := rtc (fun a b => exists i, nstep i a b).

Definition ninit (n : nat) : nstate := mkN InitializeSRWLock (replicate n NOut).

End Steps.

(** ** Invariant *)

(** The number of threads that hold [h]. *)
Definition holders (h : hold) (v : lview) : nat := length (filter (eq h) v).

Definition b2n (b : bool) : nat := if b then 1%nat else 0%nat.

Lemma holders_cons h a v : holders h (a :: v) = (b2n (bool_decide (h = a)) + holders h v)%nat.
Proof. unfold holders. rewrite filter_cons. by case_decide; case_bool_decide. Qed.

Lemma holders_insert h v i a b :
  v !! i = Some a ->
  (holders h (<[i := b]> v) + b2n (bool_decide (h = a)) = holders h v + b2n (bool_decide (h = b)))%nat.
Proof.
  revert i. induction v as [|c v IH]; intros [|i] Hi; [done|done| |].
  - injection Hi as ->. simpl. rewrite !holders_cons. lia.
  - change (<[S i := b]> (c :: v)) with (c :: <[i := b]> v). rewrite !holders_cons.
    specialize (IH i Hi). lia.
Qed.

Lemma holders_none h v i : holders h v = 0%nat -> v !! i <> Some h.
Proof.
  intros H0 Hi. apply nil_length_inv in H0. assert (h ∈ filter (eq h) v) as Hin.
  { apply list_elem_of_filter. split; [done|by eapply list_elem_of_lookup_2]. }
  rewrite H0 in Hin. by apply not_elem_of_nil in Hin.
Qed.

Lemma holders_some h v : holders h v <> 0%nat -> exists i, v !! i = Some h.
Proof.
  intros H0. unfold holders in H0. destruct (filter (eq h) v) as [|x l] eqn:Ef; [done|].
  assert (Hx : x ∈ filter (eq h) v) by (rewrite Ef; left).
  apply list_elem_of_filter in Hx as [<- Hx]. by apply list_elem_of_lookup in Hx.
Qed.

Lemma holders_start h n : h <> HNone -> holders h (replicate n HNone) = 0%nat.
Proof.
  intros Hh. induction n as [|n IH]; [done|]. simpl. rewrite holders_cons, IH.
  by rewrite bool_decide_false.
Qed.

Section Refine.
Context {Api : SrwApi} {Laws : SrwLaws Api}.

Definition win_view (ns : nstate) : lview := win_hold <$> npcs ns.

(** The state of the lock is what the threads hold. *)
Definition ninv (ns : nstate) : Prop :=
  exists b n, srw_state (lock ns) = (b, n) /\ holders HEx (win_view ns) = b2n b /\ holders HSh (win_view ns) = n.

Lemma view_nwake (ps : list npc) : win_hold <$> (nwake <$> ps) = win_hold <$> ps.
Proof using. rewrite <- list_fmap_compose. apply list_fmap_ext. by intros ? []. Qed.

(** A change of what thread [i] holds, with the lock changed to match. *)
Lemma ninv_move s s' ps i p q b n b' n' :
  ninv (mkN s ps) -> ps !! i = Some p -> srw_state s = (b, n) -> srw_state s' = (b', n') ->
  (b2n b' + b2n (bool_decide (HEx = win_hold p)) = b2n b + b2n (bool_decide (HEx = win_hold q)))%nat ->
  (n' + b2n (bool_decide (HSh = win_hold p)) = n + b2n (bool_decide (HSh = win_hold q)))%nat ->
  ninv (mkN s' (<[i := q]> ps)).
Proof.
  intros (b0 & n0 & Hs0 & He & Hh) Hi Hs Hs' Hb Hn. unfold win_view in *. simpl in *.
  rewrite Hs0 in Hs. injection Hs as -> ->.
  exists b', n'. split; [done|]. unfold win_view. simpl. rewrite list_fmap_insert.
  assert (Hv : (win_hold <$> ps) !! i = Some (win_hold p)) by (by rewrite list_lookup_fmap, Hi).
  pose proof (holders_insert HEx _ i _ (win_hold q) Hv). pose proof (holders_insert HSh _ i _ (win_hold q) Hv).
  split; lia.
Qed.

(** In a state of the invariant, what the threads hold is what the lock says. *)
Lemma ninv_free ns : ninv ns -> srw_state (lock ns) = (false, 0%nat) ->
  forall j h, win_view ns !! j = Some h -> h = HNone.
Proof.
  intros (b & n & Hs & He & Hh) H0 j h Hj. rewrite H0 in Hs. injection Hs as <- <-.
  destruct h; [done| |].
  - by destruct (holders_none HEx (win_view ns) j).
  - by destruct (holders_none HSh (win_view ns) j).
Qed.

Lemma ninv_readable ns n : ninv ns -> srw_state (lock ns) = (false, n) -> forall j, win_view ns !! j <> Some HEx.
Proof.
  intros (b & m & Hs & He & _) H0 j. rewrite H0 in Hs. injection Hs as <- <-. by apply holders_none.
Qed.

(** A thread holds the lock exclusively, or shared: so does the lock. *)
Lemma ninv_writer ns i :
  ninv ns -> exclusive (win_view ns) -> win_view ns !! i = Some HEx -> srw_state (lock ns) = (true, 0%nat).
Proof.
  intros (b & n & Hs & He & Hh) Hex Hi. destruct b; [|by destruct (holders_none HEx (win_view ns) i)].
  rewrite Hs. f_equal. destruct n as [|n]; [done|]. destruct (holders_some HSh (win_view ns)) as [j Hj]; [lia|].
  destruct (decide (i = j)) as [->|Hne]; [congruence|]. by specialize (Hex i j HSh Hi Hj Hne).
Qed.

Lemma ninv_reader ns i :
  ninv ns -> exclusive (win_view ns) -> win_view ns !! i = Some HSh -> exists n, srw_state (lock ns) = (false, S n).
Proof.
  intros (b & n & Hs & He & Hh) Hex Hi. destruct n as [|n]; [by destruct (holders_none HSh (win_view ns) i)|].
  exists n. rewrite Hs. f_equal. destruct b; [|done]. destruct (holders_some HEx (win_view ns)) as [j Hj]; [simpl in He; lia|].
  destruct (decide (j = i)) as [->|Hne]; [congruence|]. by specialize (Hex j i HSh Hj Hi Hne).
Qed.

Lemma ninv_start n : ninv (ninit n) /\ win_view (ninit n) = replicate n HNone.
Proof.
  assert (Hv : win_view (ninit n) = replicate n HNone) by (unfold win_view; simpl; apply fmap_replicate).
  split; [|done]. exists false, 0%nat. rewrite Hv, !holders_start by done. split; [apply srw_init|done].
Qed.

(** A step that leaves the lock and what the threads hold. *)
Lemma ninv_same s ps ps' : ninv (mkN s ps) -> win_hold <$> ps' = win_hold <$> ps -> ninv (mkN s ps').
Proof. intros (b & n & Hs & He & Hh) Hv. exists b, n. unfold win_view in *. simpl in *. by rewrite Hv. Qed.

Ltac moved := eapply ninv_move; [eassumption|eassumption|eassumption|eassumption|simpl; lia|simpl; lia].

Lemma nstep_sim i ns ns' :
  ninv ns -> exclusive (win_view ns) -> nstep i ns ns' ->
  ninv ns' /\ (win_view ns' = win_view ns \/ lspec i (win_view ns) (win_view ns')).
Proof.
  intros Hi Hex Hs.
  destruct Hs as [s ps Hp|s s' ps Hp Ha|s ps Hp|s ps Hp|s s' ps Hp Ha|s ps Hp|s ps Hp|s ps Hp|s s' ps Hp Ha
    |s ps j Hp|s ps];
    try (match goal with |- ninv (mkN s ?ps') /\ _ =>
           assert (Hsame : win_hold <$> ps' = win_hold <$> ps) by (by eapply view_same || apply view_nwake);
           split; [by eapply ninv_same|by left] end);
    pose proof (view_at win_hold ps i _ _ Hp eq_refl) as Hat; unfold win_view; simpl; rewrite ?list_fmap_insert.
  - apply srw_exclusive in Ha as [H0 H1]. split; [by moved|].
    right. apply L_lock; [done|]. by apply (ninv_free _ Hi).
  - pose proof (ninv_writer _ i Hi Hex Hat) as H0. pose proof (srw_release _ H0) as H1. split; [by moved|].
    right. by apply L_unlock.
  - apply srw_shared in Ha as (n & H0 & H1). split; [by moved|].
    right. apply L_lock_shared; [done|]. by eapply (ninv_readable _ n Hi).
  - destruct (ninv_reader _ i Hi Hex Hat) as [n H0]. pose proof (srw_release_shared _ _ H0) as H1. split; [by moved|].
    right. by apply L_unlock_shared.
  - pose proof (ninv_writer _ i Hi Hex Hat) as H0. pose proof (srw_release _ H0) as H1. split; [by moved|].
    right. by apply L_unlock.
  - apply srw_exclusive in Ha as [H0 H1]. split; [by moved|].
    right. apply L_lock; [done|]. by apply (ninv_free _ Hi).
Qed.

#[export] Instance win_lock : RWLock nstate := {|
  rw_init := ninit;
  rw_step := nstep;
  rw_view := win_view;
  rw_inv ns := ninv ns /\ exclusive (win_view ns);
|}.

#[export] Instance win_lock_ok : RWLockOK nstate.
Proof.
  split.
  - intros n _. destruct (ninv_start n) as [Hi Hv]. split; [split; [done|]|done].
    change (exclusive (win_view (ninit n))). rewrite Hv. apply exclusive_start.
  - intros i s s' [Hi Hex] Hs. destruct (nstep_sim i s s' Hi Hex Hs) as [Hi' Hv]. split; [split; [done|]|done].
    simpl in Hv. destruct Hv as [->|Hv]; [done|]. by eapply exclusive_step.
Qed.

End Refine.

(** *** A lock *)

(** A counter of the shared holders, and a flag. *)
#[local] Instance SrwCounter : SrwApi := {|
  SRWLOCK := bool * nat;
  InitializeSRWLock := (false, 0%nat);
  AcquireSRWLockExclusive s := match s with (false, O) => Some (true, 0%nat) | _ => None end;
  AcquireSRWLockShared s := match s with (false, n) => Some (false, S n) | _ => None end;
  ReleaseSRWLockExclusive s := (false, snd s);
  ReleaseSRWLockShared s := (fst s, pred (snd s));
|}.

#[local] Instance SrwCounter_laws : SrwLaws SrwCounter.
Proof.
  refine {| srw_state := fun s => s |}.
  - done.
  - by intros [[] []] s' [= <-].
  - intros s ->. by eexists.
  - intros [[] n] s'; [done|]. intros [= <-]. by exists n.
  - by intros s ->.
  - by intros s n ->.
Defined.

(** ** Properties *)

(** C19. The Windows lock keeps the contract of [mutex.h] in every interleaving of
    threads that lock, unlock, wait on a condition variable, with or without a
    time-out, and wake each other: a thread that returns from a wait has the lock
    exclusively, and nobody else has it. *)
Theorem windows_lock_refines {Api : SrwApi} {Laws : SrwLaws Api} n ns :
  Z.of_nat n < 2 ^ 32 -> nsteps (ninit n) ns ->
  lspecs (replicate n HNone) (win_view ns) /\
  forall i j p, npcs ns !! i = Some NEx -> npcs ns !! j = Some p -> i <> j -> win_hold p = HNone.
Proof.
  intros Hn Hr. destruct (@rw_refines nstate win_lock win_lock_ok n ns Hn Hr) as [_ Hl]. split; [exact Hl|].
  intros i j p Hi Hj. apply (lspecs_exclusive n _ Hl); [by eapply (view_at win_hold)|by eapply (view_at win_hold)].
Qed.

Lemma windows_lock_refines_witness :
  exists ns, nsteps (ninit 2) ns /\ npcs ns = [NEx; NLockSh] /\
    (lspecs (replicate 2 HNone) (win_view ns) /\
     forall i j p, npcs ns !! i = Some NEx -> npcs ns !! j = Some p -> i <> j -> win_hold p = HNone).
Proof.
  assert (Hr : nsteps (ninit 2) (mkN (true, 0%nat) [NEx; NLockSh])).
  { unfold nsteps, ninit. simpl.
    eapply rtc_l; [exists 0%nat; by apply N_lock_call|]. cbn.
    eapply rtc_l; [exists 0%nat; by eapply N_lock|]. cbn.
    eapply rtc_l; [exists 0%nat; by apply N_wait|]. cbn.
    eapply rtc_l; [exists 1%nat; by apply N_shared_call|]. cbn.
    eapply rtc_l; [exists 1%nat; by apply N_wake_all|]. cbn.
    eapply rtc_l; [exists 0%nat; by eapply N_again|]. apply rtc_refl. }
  eexists. split; [exact Hr|]. split; [reflexivity|].
  apply (windows_lock_refines 2 _ ltac:(simpl; lia) Hr).
Defined.

End MutexWin.
