(* ===== verification/ThreadWin.v ===== *)
(** * Threads on Windows (src/src/thread_win.c)

    The alternative of [thread_posix.c] for Windows.  The calls of the system are
    answered by [OS]; [WinLaws] says that [CreateThread] returns NULL or a handle
    that is not open.

    The theorem shows that a thread's handle is closed once for every thread that
    is created, also where [thread_join] is called for a thread that was never
    started. *)

From S2P Require Import Prelude Sys Mutex MutexWin.

(** ** Handles *)

Definition handle_step (S : gset Z) (ev : event) : gset Z :=
  match ev with
  | ESys CCreateThread a => if decide (a_ret a = 0) then S else {[a_ret a]} ∪ S
  | ESys (CCloseHandle x) _ => S ∖ {[x]}
  | _ => S
  end.
Definition open_handles (h : trace) : gset Z := fold_left handle_step h ∅.

Class WinLaws (O : OS) : Prop :=
  win_create : forall h, let x := a_ret (os_answer h CCreateThread) in x = 0 \/ x ∉ open_handles h.

Module ThreadWin.

(** ** Threads *)

Definition ECHILD : Z := 10.
Definition WAIT_OBJECT_0 : Z := 0.
Definition NULL : Z := 0.

Section Threads.
Context `{OS}.

(** [thread_handle]: its [priv] with the handle of the thread. *)
Record thread_handle : Type := mkThread { thread_id : nat; thread : option Z }.

Definition set_thread (t : thread_handle) (x : option Z) : thread_handle := mkThread (thread_id t) x.

Definition thread_init (t : thread_handle) : IO (Z * thread_handle) :=
  let* ok := match thread t with
             | Some _ => ret true
             | None => let* a := sys CAlloc in ret (negb (a_ret a =? 0))
             end in
  if negb ok then ret (- ENOMEM, t) else
  let* (r, _) := MutexWin.mutex_init (bool_decide (is_Some (thread t))) in
  if r <? 0 then ret (r, set_thread t None)
  else ret (0, set_thread t (Some (default NULL (thread t)))).

Definition thread_join (t : thread_handle) : IO (Z * thread_handle) :=
  match thread t with
  | None => crash
  | Some x =>
      do* mutex_lock (MThread (thread_id t)) in
      let* a := sys (CWaitForSingleObject x) in
      do* sys (CCloseHandle x) in
      do* mutex_unlock (MThread (thread_id t)) in
      let* r := (if a_ret a =? WAIT_OBJECT_0 then ret (a_ret a) else let* e := sys CGetLastError in ret (a_ret e)) in
      ret (r, set_thread t (Some NULL))
  end.

Definition thread_start (t : thread_handle) : IO (Z * thread_handle) :=
  match thread t with
  | None => crash
  | Some _ =>
      do* mutex_lock (MThread (thread_id t)) in
      let* a := sys CCreateThread in
      do* mutex_unlock (MThread (thread_id t)) in
      ret (if a_ret a =? NULL then - ECHILD else 0, set_thread t (Some (a_ret a)))
  end.

Definition thread_free (t : thread_handle) : IO thread_handle :=
  match thread t with
  | None => ret t
  | Some _ =>
      let* (_, t) := thread_join t in
      do* MutexWin.mutex_free true in
      ret (set_thread t None)
  end.

(** The life of a thread handle as [worker.c] uses it: the thread is started and
    joined any number of times, joined once more, and freed. *)
Fixpoint cycles (n : nat) (t : thread_handle) : IO thread_handle :=
  match n with
  | O => ret t
  | S n =>
      let* (_, t) := thread_start t in
      let* (_, t) := thread_join t in
      cycles n t
  end.

Definition life (n : nat) (t : thread_handle) : IO (Z * thread_handle) :=
  let* (r, t) := thread_init t in
  if r <? 0 then ret (r, t) else
  let* t := cycles n t in
  let* (_, t) := thread_join t in
  let* t := thread_free t in
  ret (0, t).

End Threads.

(** ** Handles are accounted for *)

Lemma open_handles_app h e : open_handles (h ++ e) = fold_left handle_step e (open_handles h).
Proof. apply fold_left_app. Qed.

Lemma handles_not_null h : NULL ∉ open_handles h.
Proof.
  unfold open_handles. assert (H0 : NULL ∉ (∅ : gset Z)) by set_solver. revert H0. generalize (∅ : gset Z).
  induction h as [|ev h IH]; intros T HT; [done|]. apply IH.
  destruct ev as [[] a|? ?|? ?]; simpl; try done; [case_decide; set_solver|set_solver].
Qed.

Section Account.
Context {O : OS} {Hwin : WinLaws O}.

(** After the trace [h] the open handles are [S] and that of [t]. *)
Definition owned (S : gset Z) (h : trace) (t : thread_handle) : Prop :=
  (NULL ∉ S) /\ exists x, thread t = Some x /\ (x ∉ S) /\ open_handles h = (if decide (x = NULL) then S else {[x]} ∪ S).

Definition stopped (t : thread_handle) : Prop := thread t = Some NULL.

Lemma start_owned S t h :
  owned S h t -> stopped t ->
  wp (thread_start t) h (fun res e =>
    owned S (h ++ e) (snd res) /\ ((fst res = 0 /\ ~ stopped (snd res)) \/ (fst res = - ECHILD /\ stopped (snd res)))).
Proof.
  intros (H0 & x & Hx & HxS & Ho) Hr. unfold thread_start. rewrite Hr in *. injection Hx as <-.
  rewrite decide_True in Ho by done. wp_steps. set (h1 := h ++ [ELock false (MThread (thread_id t))]).
  pose proof (win_create h1) as Hc. simpl in Hc. set (y := a_ret _) in *.
  assert (H1 : open_handles h1 = S) by (unfold h1; rewrite open_handles_app; exact Ho).
  rewrite H1 in Hc. split.
  - split; [done|]. exists y. cbn [snd thread set_thread]. rewrite !open_handles_app. simpl.
    fold y. rewrite Ho. clearbody y. destruct (decide (y = 0)) as [->|Hy]; [done|].
    split; [done|]. split; [by destruct Hc|by rewrite decide_False].
  - unfold stopped. cbn [fst snd thread set_thread]. destruct (Z.eqb_spec y NULL) as [E|E]; [right|left].
    + by rewrite E.
    + split; [done|]. by intros [= ?].
Qed.

Lemma join_owned S t h :
  owned S h t ->
  wp (thread_join t) h (fun res e => owned S (h ++ e) (snd res) /\ stopped (snd res)).
Proof.
  intros (H0 & x & Hx & HxS & Ho). unfold thread_join. rewrite Hx. wp_steps.
  set (a := os_answer _ (CWaitForSingleObject x)).
  eapply (wp_mono _ _ (fun _ e => forall T, fold_left handle_step e T = T)).
  { destruct (a_ret a =? WAIT_OBJECT_0); wp_steps; intros T; reflexivity. }
  intros r e He. wp_steps. split; [|done]. split; [done|]. exists NULL.
  split; [done|]. split; [done|]. rewrite !open_handles_app. simpl. rewrite fold_left_app, He. simpl. rewrite Ho.
  destruct (decide (x = NULL)) as [->|]; set_solver.
Qed.

Lemma cycles_owned S n t h :
  owned S h t -> stopped t -> wp (cycles n t) h (fun t e => owned S (h ++ e) t /\ stopped t).
Proof.
  revert t h. induction n as [|n IH]; intros t h Ho Hr; cbn [cycles]; wp_steps; [by rewrite app_nil_r|].
  eapply wp_mono; [by apply start_owned|]. intros [r1 t1] e1 [Ho1 _]. wp_steps.
  eapply wp_mono; [by apply join_owned|]. intros [r2 t2] e2 [Ho2 Hr2].
  eapply wp_mono; [by apply IH|]. intros t3 e3 Ho3. by rewrite !app_assoc in *.
Qed.

Lemma init_owned t h :
  thread t = None ->
  wp (thread_init t) h (fun res e =>
    open_handles (h ++ e) = open_handles h /\
    ((fst res < 0 /\ thread (snd res) = None) \/ (fst res = 0 /\ stopped (snd res)))).
Proof using.
  intros Ht. unfold thread_init, MutexWin.mutex_init. rewrite Ht. wp_steps.
  set (a := os_answer _ CAlloc). destruct (a_ret a =? 0); cbn [negb]; wp_steps.
  { rewrite open_handles_app. split; [done|]. by left. }
  rewrite bool_decide_false by (by intros [? [=]]). wp_steps.
  set (b := os_answer (_ ++ _) CAlloc). destruct (a_ret b =? 0); cbn [negb]; wp_steps;
    [change (- ENOMEM <? 0) with true|change (0 <? 0) with false]; cbv iota; wp_steps;
    rewrite open_handles_app; (split; [done|]); [by left|by right].
Qed.

Lemma life_owned n t h :
  thread t = None ->
  wp (life n t) h (fun res e => thread (snd res) = None /\ open_handles (h ++ e) = open_handles h).
Proof.
  intros Ht. unfold life. wp_steps. eapply wp_mono; [by apply init_owned|].
  intros [r0 t0] e0 [H0 [[Hneg Hn]|[Hr Hs]]]; cbn [fst snd] in *.
  { rewrite (proj2 (Z.ltb_lt _ _) Hneg). wp_steps. by rewrite app_nil_r. }
  subst r0. change (0 <? 0) with false. cbv iota. wp_steps.
  set (S := open_handles h). assert (Ho : owned S (h ++ e0) t0).
  { split; [apply handles_not_null|]. exists NULL. split_and!; [done|apply handles_not_null|]. by rewrite decide_True. }
  eapply wp_mono; [by apply (cycles_owned S)|]. intros t1 e1 [Ho1 _]. wp_steps.
  eapply wp_mono; [by apply (join_owned S)|]. intros [r2 t2] e2 [Ho2 Hs2]. cbn [snd] in *. wp_steps.
  unfold thread_free. rewrite Hs2. wp_steps.
  eapply wp_mono; [by apply (join_owned S)|]. intros [r3 t3] e3 [(_ & x & Hx & _ & Ho3) Hs3]. cbn [snd] in *.
  unfold MutexWin.mutex_free. wp_steps. split; [done|].
  rewrite Hs3 in Hx. injection Hx as <-. rewrite decide_True in Ho3 by done.
  rewrite <- Ho3. f_equal. by rewrite !app_nil_r, !app_assoc.
Qed.

End Account.

(** A system on which memory does not run out and threads can be created. *)
#[local] Instance Handles : OS := fun h c =>
  match c with
  | CAlloc => mkAns 1 0 [] 0 0 0
  | CCreateThread => mkAns (fresh ({[0]} ∪ open_handles h)) 0 [] 0 0 0
  | _ => mkAns 0 0 [] 0 0 0
  end.

#[local] Instance Handles_laws : WinLaws Handles.
Proof. intros h. right. pose proof (is_fresh ({[0]} ∪ open_handles h)). set_solver. Qed.

(** ** Properties *)

(** However often a thread is started and joined between its initialisation
    and its end, and whichever of the calls fail, nothing follows a NULL pointer
    and every handle the system gave is closed: the open handles are those of
    before.  Starting a stopped thread returns 0 and keeps its handle, or -ECHILD
    when there is none. *)
Theorem thread_handles_accounted {O : OS} {Hwin : WinLaws O} n t h :
  thread t = None ->
  (exists r t' e, life n t h = (Some (r, t'), e) /\ thread t' = None /\ open_handles (h ++ e) = open_handles h) /\
  (forall u S, owned S h u -> stopped u ->
     exists r u' e, thread_start u h = (Some (r, u'), e) /\ owned S (h ++ e) u' /\
       ((r = 0 /\ ~ stopped u') \/ (r = - ECHILD /\ stopped u'))).
Proof.
  intros Ht. split.
  - destruct (life_owned n t h Ht) as ([r t'] & e & E & Hn & Ho). by exists r, t', e.
  - intros u S Hu Hs. destruct (start_owned S u h Hu Hs) as ([r u'] & e & E & Ho & Hr). by exists r, u', e.
Qed.

Lemma thread_handles_accounted_witness :
  (exists r t' e, life 3 (mkThread 0 None) [] = (Some (r, t'), e) /\ thread t' = None /\ open_handles ([] ++ e) = open_handles []) /\
  fst <$> fst (life 3 (mkThread 0 None) []) = Some 0.
Proof.
  split; [|vm_compute; reflexivity].
  apply (thread_handles_accounted 3 (mkThread 0 None) []). reflexivity.
Defined.

End ThreadWin.
