(* ===== verification/WsaErrno.v ===== *)
(** * Socket errors on Windows (src/src/conn_wsa_errno.c)

    [conn_wsa_errno] translates the error of the last Winsock call to an error
    number of the C library, which [conn.c] returns negated.  The numbers are
    those of the errno.h and winsock2.h of Windows; the answer of
    [WSAGetLastError] is an argument.

    The theorem shows that the table has, for every Winsock error, the error
    number of the same name where there is one and the Winsock error itself
    otherwise, except for WSAEINVAL, and that no two errors are confused. *)

From S2P Require Import Prelude.

(** ** Error numbers *)

Definition EPERM : Z := 1.
Definition ENOENT : Z := 2.
Definition ESRCH : Z := 3.
Definition EINTR : Z := 4.
Definition EIO : Z := 5.
Definition ENXIO : Z := 6.
Definition E2BIG : Z := 7.
Definition ENOEXEC : Z := 8.
Definition EBADF : Z := 9.
Definition ECHILD : Z := 10.
Definition EAGAIN : Z := 11.
Definition ENOMEM : Z := 12.
Definition EACCES : Z := 13.
Definition EFAULT : Z := 14.
Definition EBUSY : Z := 16.
Definition EEXIST : Z := 17.
Definition EXDEV : Z := 18.
Definition ENODEV : Z := 19.
Definition ENOTDIR : Z := 20.
Definition EISDIR : Z := 21.
Definition EINVAL : Z := 22.
Definition ENFILE : Z := 23.
Definition EMFILE : Z := 24.
Definition ENOTTY : Z := 25.
Definition EFBIG : Z := 27.
Definition ENOSPC : Z := 28.
Definition ESPIPE : Z := 29.
Definition EROFS : Z := 30.
Definition EMLINK : Z := 31.
Definition ENAMETOOLONG : Z := 38.
Definition ENOTEMPTY : Z := 41.
Definition EADDRINUSE : Z := 100.
Definition EADDRNOTAVAIL : Z := 101.
Definition EAFNOSUPPORT : Z := 102.
Definition EALREADY : Z := 103.
Definition ECONNABORTED : Z := 106.
Definition ECONNREFUSED : Z := 107.
Definition ECONNRESET : Z := 108.
Definition EDESTADDRREQ : Z := 109.
Definition EHOSTUNREACH : Z := 110.
Definition EINPROGRESS : Z := 112.
Definition EISCONN : Z := 113.
Definition ELOOP : Z := 114.
Definition EMSGSIZE : Z := 115.
Definition ENETDOWN : Z := 116.
Definition ENETRESET : Z := 117.
Definition ENETUNREACH : Z := 118.
Definition ENOBUFS : Z := 119.
Definition ENOPROTOOPT : Z := 123.
Definition ENOTCONN : Z := 126.
Definition ENOTSOCK : Z := 128.
Definition EOPNOTSUPP : Z := 130.
Definition EPROTONOSUPPORT : Z := 135.
Definition EPROTOTYPE : Z := 136.
Definition ETIMEDOUT : Z := 138.
Definition EWOULDBLOCK : Z := 140.

(** ** The table *)

Definition wsa_errno : list Z := [
  10000; EPERM; ENOENT; ESRCH;
  EINTR; EIO; ENXIO; E2BIG;
  ENOEXEC; EBADF; ECHILD; EAGAIN;
  ENOMEM; EACCES; EFAULT; 10015;
  EBUSY; EEXIST; EXDEV; ENODEV;
  ENOTDIR; EISDIR; 10022; ENFILE;
  EMFILE; ENOTTY; 10026; EFBIG;
  ENOSPC; ESPIPE; EROFS; EMLINK;
  10032; 10033; 10034; EWOULDBLOCK;
  EINPROGRESS; EALREADY; ENOTSOCK; EDESTADDRREQ;
  EMSGSIZE; EPROTOTYPE; ENOPROTOOPT; EPROTONOSUPPORT;
  10044; EOPNOTSUPP; 10046; EAFNOSUPPORT;
  EADDRINUSE; EADDRNOTAVAIL; ENETDOWN; ENETUNREACH;
  ENETRESET; ECONNABORTED; ECONNRESET; ENOBUFS;
  EISCONN; ENOTCONN; 10058; 10059;
  ETIMEDOUT; ECONNREFUSED; ELOOP; ENAMETOOLONG;
  10064; EHOSTUNREACH; ENOTEMPTY; 10067 ].

(** [None] is a read outside the table. *)
Definition conn_wsa_errno (last : Z) : option Z :=
  if (10000 <=? last) && (last <=? 10067) then wsa_errno !! Z.to_nat (last - 10000) else Some last.

(** ** Winsock *)

(** The socket errors of winsock2.h, and the error number with the same name. *)
Definition winsock : list (Z * option Z) := [
  (10004, Some EINTR); (10009, Some EBADF); (10013, Some EACCES); (10014, Some EFAULT);
  (10022, Some EINVAL); (10024, Some EMFILE); (10035, Some EWOULDBLOCK); (10036, Some EINPROGRESS);
  (10037, Some EALREADY); (10038, Some ENOTSOCK); (10039, Some EDESTADDRREQ); (10040, Some EMSGSIZE);
  (10041, Some EPROTOTYPE); (10042, Some ENOPROTOOPT); (10043, Some EPROTONOSUPPORT);
  (10044, None) (* WSAESOCKTNOSUPPORT *); (10045, Some EOPNOTSUPP); (10046, None) (* WSAEPFNOSUPPORT *);
  (10047, Some EAFNOSUPPORT); (10048, Some EADDRINUSE); (10049, Some EADDRNOTAVAIL); (10050, Some ENETDOWN);
  (10051, Some ENETUNREACH); (10052, Some ENETRESET); (10053, Some ECONNABORTED); (10054, Some ECONNRESET);
  (10055, Some ENOBUFS); (10056, Some EISCONN); (10057, Some ENOTCONN); (10058, None) (* WSAESHUTDOWN *);
  (10059, None) (* WSAETOOMANYREFS *); (10060, Some ETIMEDOUT); (10061, Some ECONNREFUSED); (10062, Some ELOOP);
  (10063, Some ENAMETOOLONG); (10064, None) (* WSAEHOSTDOWN *); (10065, Some EHOSTUNREACH);
  (10066, Some ENOTEMPTY); (10067, None) (* WSAEPROCLIM *) ].

Definition WSAEINVAL : Z := 10022.

Lemma wsa_table_length : length wsa_errno = 68%nat.
Proof. reflexivity. Qed.

Lemma table_distinct : NoDup wsa_errno.
Proof. apply (bool_decide_unpack _). vm_compute. reflexivity. Qed.

Lemma table_positive : Forall (fun e => 0 < e) wsa_errno.
Proof. apply (bool_decide_unpack _). vm_compute. reflexivity. Qed.

Lemma wsa_in_table last : 10000 <= last <= 10067 ->
  exists e, conn_wsa_errno last = Some e /\ wsa_errno !! Z.to_nat (last - 10000) = Some e.
Proof.
  intros Hl. unfold conn_wsa_errno. rewrite !(proj2 (Z.leb_le _ _)) by lia. cbn [andb].
  destruct (lookup_lt_is_Some_2 wsa_errno (Z.to_nat (last - 10000))) as [e He]; [rewrite wsa_table_length; lia|].
  by exists e.
Qed.

Lemma wsa_errno_positive last : exists e, conn_wsa_errno last = Some e /\ (0 < last -> 0 < e).
Proof.
  destruct (decide (10000 <= last <= 10067)) as [Hl|Hl].
  - destruct (wsa_in_table last Hl) as (e & -> & He). exists e. split; [done|]. intros _.
    by apply (Forall_lookup_1 _ _ _ _ table_positive He).
  - exists last. split; [|done]. unfold conn_wsa_errno. destruct (10000 <=? last) eqn:E1, (last <=? 10067) eqn:E2; simpl; lia || done.
Qed.

Definition named (p : Z * option Z) : Prop :=
  fst p = WSAEINVAL /\ conn_wsa_errno (fst p) = Some WSAEINVAL \/
  fst p <> WSAEINVAL /\ conn_wsa_errno (fst p) = Some (default (fst p) (snd p)).

#[export] Instance named_dec p : Decision (named p).
Proof. unfold named. apply _. Defined.

(** ** Properties *)

(** No error number makes [conn_wsa_errno] read outside its table.  Every
    socket error of Winsock gives the error number of its name, if there is one,
    and itself otherwise; only WSAEINVAL gives itself although there is an
    EINVAL.  A positive error stays positive, so that its negation is an error to
    the caller, and different errors of Winsock stay different. *)
Theorem conn_wsa_errno_named :
  (forall last, exists e, conn_wsa_errno last = Some e /\ (0 < last -> 0 < e)) /\
  (forall w e, (w, e) ∈ winsock -> w <> WSAEINVAL -> conn_wsa_errno w = Some (default w e)) /\
  conn_wsa_errno WSAEINVAL = Some WSAEINVAL /\
  (forall a b, 10000 <= a <= 10067 -> 10000 <= b <= 10067 -> conn_wsa_errno a = conn_wsa_errno b -> a = b).
Proof.
  split_and!; [exact wsa_errno_positive| |reflexivity|].
  - intros w e Hin Hne. assert (Hall : Forall named winsock) by (apply (bool_decide_unpack _); vm_compute; reflexivity).
    rewrite Forall_forall in Hall. destruct (Hall _ Hin) as [[? _]|[_ ?]]; done.
  - intros a b Ha Hb. destruct (wsa_in_table a Ha) as (x & -> & Hx), (wsa_in_table b Hb) as (y & -> & Hy).
    intros [= <-]. pose proof (NoDup_lookup _ _ _ _ table_distinct Hx Hy). lia.
Qed.
