(* ===== verification/Worker.v ===== *)
(** * Workers and threads (src/src/worker.c, src/src/thread_posix.c)

    The operations a client calls are definitions over [IO]; the part of each
    that runs under the worker's lock is a pure function on [worker_state], and
    the loop of the worker's thread is the function [worker_loop] from one
    acquisition of the lock to the next release.  [wstep] is the step relation of
    one worker thread with any number of clients: each step is one critical
    section, which the lock makes atomic.

    The theorems show that work whose [worker_wake] succeeded is performed, also
    when [worker_join] follows, that a client in [worker_wait_idle] is not
    forgotten, and that a failed thread start leaves the worker unusable. *)

From S2P Require Import Prelude Sys Mutex.

(** ** States *)

Inductive worker_state : Type :=
| WORKER_STOPPED | WORKER_STOPPING | WORKER_STOPPING_AFTER_WORK | WORKER_BUSY
| WORKER_SIGNALED | WORKER_IDLE | WORKER_STARTING.

#[export] Instance worker_state_eq_dec : EqDecision worker_state.
Proof. solve_decision. Defined.

Definition ord (s : worker_state) : Z :=
  match s with
  | WORKER_STOPPED => 0 | WORKER_STOPPING => 1 | WORKER_STOPPING_AFTER_WORK => 2
  | WORKER_BUSY => 3 | WORKER_SIGNALED => 4 | WORKER_IDLE => 5 | WORKER_STARTING => 6
  end.

(** ** Threads *)

Section Thread.
Context `{OS}.

(** [thread_handle]: its [priv] with the flag [dirty], and the stack size. *)
Record thread_handle : Type := mkThread { thread_id : nat; dirty : option bool; stack_size : Z }.

Definition set_dirty (t : thread_handle) (d : option bool) : thread_handle :=
  mkThread (thread_id t) d (stack_size t).

(** [ret > 0 ? -ret : ret] *)
Definition neg_errno (r : Z) : Z := if 0 <? r then - r else r.

Definition thread_init (t : thread_handle) : IO (Z * thread_handle) :=
  let* ok := match dirty t with
             | Some _ => ret true
             | None => let* a := sys CAlloc in ret (negb (a_ret a =? 0))
             end in
  if negb ok then ret (- ENOMEM, t) else
  let* (r, _) := mutex_init (bool_decide (is_Some (dirty t))) in
  if r <? 0 then ret (r, set_dirty t None)
  else ret (0, set_dirty t (Some (default false (dirty t)))).

Definition thread_join (t : thread_handle) : IO (Z * thread_handle) :=
  match dirty t with
  | None => crash
  | Some d =>
      do* mutex_lock (MThread (thread_id t)) in
      let* r := (if d : bool then let* a := sys CThreadJoin in ret (a_ret a) else ret 0) in
      do* mutex_unlock (MThread (thread_id t)) in
      ret (neg_errno r, set_dirty t (Some false))
  end.

Definition thread_free (t : thread_handle) : IO thread_handle :=
  match dirty t with
  | None => ret t
  | Some _ => let* _ := thread_join t in do* mutex_free true in ret (set_dirty t None)
  end.

Definition thread_start (t : thread_handle) : IO (Z * thread_handle) :=
  let* a := sys (CPthread false) in
  if negb (a_ret a =? 0) then ret (neg_errno (a_ret a), t) else
  let* b := (if 0 <? stack_size t then sys (CPthread false) else ret a) in
  if negb (a_ret b =? 0) then ret (neg_errno (a_ret b), t) else
  do* thread_join t in
  do* mutex_lock (MThread (thread_id t)) in
  let* a := sys CThreadStart in
  do* mutex_unlock (MThread (thread_id t)) in
  ret (neg_errno (a_ret a), set_dirty t (Some (a_ret a =? 0))).

End Thread.

(** ** Critical sections *)

(** [worker_wake]: the return value, the new state, and whether [condvar] is
    signalled. *)
Definition wake_state (s : worker_state) : Z * worker_state * bool :=
  if ord WORKER_STOPPING_AFTER_WORK <? ord s then
    (0, WORKER_SIGNALED, bool_decide (s = WORKER_IDLE))
  else (- EINVAL, s, false).

(** [worker_join], before it waits for the thread; [condvar_idle] is always
    signalled. *)
Definition join_state (s : worker_state) : worker_state * bool :=
  if ord WORKER_STOPPING_AFTER_WORK <? ord s then
    (if decide (s = WORKER_SIGNALED) then WORKER_STOPPING_AFTER_WORK else WORKER_STOPPING,
     bool_decide (s = WORKER_IDLE))
  else (s, false).

(** [worker_wait_idle]: [Some] return value, or [None] to wait on [condvar_idle]. *)
Definition wait_idle_test (s : worker_state) : option Z :=
  if ord s <? ord WORKER_IDLE then
    if ord s <? ord WORKER_BUSY then Some (- EINVAL) else None
  else Some 0.

(** Where the worker's thread is when it does not hold the lock. *)
Inductive wpc : Type :=
| WNone                    (* no thread *)
| WStart                   (* created, has not run *)
| WWork                    (* in func_ptr *)
| WWait (woken : bool)     (* in condvar_wait; has it been signalled? *)
| WDone.                   (* returned, not joined *)

#[export] Instance wpc_eq_dec : EqDecision wpc.
Proof. solve_decision. Defined.

(** [worker_func], from a point where it holds the lock (before the outer loop,
    after [func_ptr], after the wait) to the next release. *)
Definition worker_loop (s : worker_state) : worker_state * wpc :=
  if ord s <=? ord WORKER_STOPPING then (WORKER_STOPPED, WDone)
  else if decide (s = WORKER_SIGNALED \/ s = WORKER_STOPPING_AFTER_WORK) then
    (if decide (s = WORKER_STOPPING_AFTER_WORK) then WORKER_STOPPING else WORKER_BUSY, WWork)
  else (WORKER_IDLE, WWait false).

(** After the wait: a periodic worker treats any return as a signal. *)
Definition after_wait (periodic : bool) (s : worker_state) : worker_state :=
  if periodic && bool_decide (s = WORKER_IDLE) then WORKER_SIGNALED else s.

(** ** Client operations *)

Section Operations.
Context `{OS}.

Record worker_handle : Type := mkWorker {
  worker_id : nat;
  wpriv : option (worker_state * thread_handle);
  wstack_size : Z;
  periodic_wake : Z;
}.

Definition set_wpriv (w : worker_handle) (p : option (worker_state * thread_handle)) :=
  mkWorker (worker_id w) p (wstack_size w) (periodic_wake w).
Definition worker_mutex (w : worker_handle) : mutex_id := MWorker (worker_id w).

Definition with_worker {A} (w : worker_handle)
    (k : worker_state -> thread_handle -> IO A) : IO A :=
  match wpriv w with None => crash | Some (s, t) => k s t end.

Definition worker_init (w : worker_handle) : IO (Z * worker_handle) :=
  let fail (r : Z) (cv cvi m : bool) : IO (Z * worker_handle) :=
    do* mutex_free m in do* condvar_free cvi in do* condvar_free cv in
    ret (r, set_wpriv w None) in
  let live := bool_decide (is_Some (wpriv w)) in
  let* ok := (if live then ret true else let* a := sys CAlloc in ret (negb (a_ret a =? 0))) in
  if negb ok then ret (- ENOMEM, w) else
  let* (r, cv) := condvar_init live in
  if r <? 0 then fail r cv live live else
  let* (r, cvi) := condvar_init live in
  if r <? 0 then fail r cv cvi live else
  let* (r, m) := mutex_init live in
  if r <? 0 then fail r cv cvi m else
  let old := match wpriv w with Some (_, t) => dirty t | None => None end in
  let* (r, t) := thread_init (mkThread (worker_id w) old (wstack_size w)) in
  if r <? 0 then fail r cv cvi m
  else ret (0, set_wpriv w (Some (match wpriv w with Some (s, _) => s | None => WORKER_STOPPED end, t))).

Definition worker_is_idle (w : worker_handle) : IO Z :=
  with_worker w (fun s _ =>
  do* mutex_lock_shared (worker_mutex w) in
  do* mutex_unlock_shared (worker_mutex w) in
  ret (if ord WORKER_IDLE <=? ord s then 1 else 0)).

(** After the join a thread that was running has left [worker_func]. *)
Definition worker_join (w : worker_handle) : IO (Z * worker_handle) :=
  with_worker w (fun s t =>
  do* mutex_lock (worker_mutex w) in
  let s1 := fst (join_state s) in
  do* mutex_unlock (worker_mutex w) in
  let* (r, t') := thread_join t in
  let s2 := match dirty t with Some true => WORKER_STOPPED | _ => s1 end in
  ret (r, set_wpriv w (Some (s2, t')))).

Definition worker_free (w : worker_handle) : IO worker_handle :=
  match wpriv w with
  | None => ret w
  | Some _ =>
      let* (_, w) := worker_join w in
      with_worker w (fun _ t =>
      let* _ := thread_free t in
      do* mutex_free true in do* condvar_free true in do* condvar_free true in
      ret (set_wpriv w None))
  end.

Definition worker_start (w : worker_handle) : IO (Z * worker_handle) :=
  with_worker w (fun s t =>
  do* mutex_lock (worker_mutex w) in
  let* (r, s, t) :=
    (if ord s <=? ord WORKER_STOPPED then
       let* (r, t) := thread_start t in ret (r, WORKER_STARTING, t)
     else ret (0, s, t)) in
  do* mutex_unlock (worker_mutex w) in
  ret (r, set_wpriv w (Some (s, t)))).

Definition worker_wake (w : worker_handle) : IO (Z * worker_handle) :=
  with_worker w (fun s t =>
  do* mutex_lock (worker_mutex w) in
  let '(r, s, _) := wake_state s in
  do* mutex_unlock (worker_mutex w) in
  ret (r, set_wpriv w (Some (s, t)))).

(** When it has to wait, it returns once the thread has gone idle. *)
Definition worker_wait_idle (w : worker_handle) : IO (Z * worker_handle) :=
  with_worker w (fun s t =>
  do* mutex_lock (worker_mutex w) in
  do* mutex_unlock (worker_mutex w) in
  ret (match wait_idle_test s with
       | Some r => (r, w)
       | None => (0, set_wpriv w (Some (WORKER_IDLE, t)))
       end)).

End Operations.

(** ** The worker as a transition system *)

(** Besides the worker's state and its thread: [works] counts the calls of
    [func_ptr], [pending] records a successful [worker_wake] since the last of
    them, and [waiter] is a client blocked in [worker_wait_idle]: has it been
    signalled? *)
Record wsys : Type := mkW {
  st : worker_state; pc : wpc; works : nat; pending : bool; waiter : option bool;
}.

Definition winit : wsys := mkW WORKER_STOPPED WNone 0 false None.

(** Signal [condvar] and [condvar_idle]. *)
Definition signal (b : bool) (p : wpc) : wpc :=
  match p with WWait w => WWait (w || b) | p => p end.
Definition signal_idle (x : option bool) : option bool :=
  match x with Some _ => Some true | None => None end.

(** The worker's thread runs from the lock to the next release. *)
Definition run_worker (s : worker_state) (w : wsys) : wsys :=
  let '(s', p) := worker_loop s in
  mkW s' p (if decide (p = WWork) then S (works w) else works w)
      (if decide (p = WWork) then false else pending w)
      (if decide (p = WWait false) then signal_idle (waiter w) else waiter w).

(** Steps of the worker's thread. *)
Inductive tstep (periodic : bool) : wsys -> wsys -> Prop :=
| T_begin w : pc w = WStart -> tstep periodic w (run_worker (st w) w)
| T_work_done w : pc w = WWork -> tstep periodic w (run_worker (st w) w)
| T_wait_return w b :
    (* signalled, spurious, or timed out *)
    pc w = WWait b -> tstep periodic w (run_worker (after_wait periodic (st w)) w).

(** Steps of clients.  [thread_fails] allows [thread_start] to fail. *)
Inductive cstep (thread_fails : bool) : wsys -> wsys -> Prop :=
| C_start w :
    st w = WORKER_STOPPED ->
    cstep thread_fails w (mkW WORKER_STARTING WStart (works w) (pending w) (waiter w))
| C_start_fails w :
    thread_fails = true -> st w = WORKER_STOPPED ->
    cstep thread_fails w (mkW WORKER_STARTING (if decide (pc w = WDone) then WNone else pc w)
                              (works w) (pending w) (waiter w))
| C_wake w r s b :
    wake_state (st w) = (r, s, b) ->
    cstep thread_fails w (mkW s (signal b (pc w)) (works w)
                              (bool_decide (r = 0) || pending w) (waiter w))
| C_join w s b :
    join_state (st w) = (s, b) ->
    cstep thread_fails w (mkW s (signal b (pc w)) (works w) (pending w) (signal_idle (waiter w)))
| C_joined w :
    pc w = WDone -> cstep thread_fails w (mkW (st w) WNone (works w) (pending w) (waiter w))
| C_wait_idle w :
    waiter w = None \/ waiter w = Some true ->
    wait_idle_test (st w) = None ->
    cstep thread_fails w (mkW (st w) (pc w) (works w) (pending w) (Some false))
| C_wait_idle_returns w r :
    waiter w = None \/ waiter w = Some true ->
    wait_idle_test (st w) = Some r ->
    cstep thread_fails w (mkW (st w) (pc w) (works w) (pending w) None).

Definition wsteps (periodic thread_fails : bool) : wsys -> wsys -> Prop :=
  rtc (fun a b => tstep periodic a b \/ cstep thread_fails a b).

(** The thread exists and will take the lock again without being signalled. *)
Definition runnable (p : wpc) : bool :=
  match p with WStart | WWork | WWait true => true | _ => false end.

(** What the state says about the thread. *)
Definition wrel (s : worker_state) (p : wpc) : bool :=
  match s, p with
  | WORKER_STOPPED, (WNone | WDone) => true
  | WORKER_STOPPING, (WStart | WWork | WWait true) => true
  | WORKER_STOPPING_AFTER_WORK, (WStart | WWork | WWait true) => true
  | WORKER_BUSY, WWork => true
  | WORKER_SIGNALED, (WStart | WWork | WWait true) => true
  | WORKER_IDLE, WWait _ => true
  | WORKER_STARTING, WStart => true
  | _, _ => false
  end.

(** The invariant, as a boolean so that it can be decided by cases: the state
    and the thread agree; pending work is signalled; a client that waits
    unsignalled waits for a busy or signalled worker. *)
Definition winvb (s : worker_state) (p : wpc) (pe : bool) (wa : option bool) : bool :=
  wrel s p &&
  (negb pe || match s with WORKER_SIGNALED | WORKER_STOPPING_AFTER_WORK => true | _ => false end) &&
  match wa with
  | Some false => match s with WORKER_BUSY | WORKER_SIGNALED => true | _ => false end
  | _ => true
  end.
Definition winv (w : wsys) : Prop := winvb (st w) (pc w) (pending w) (waiter w) = true.

Lemma winv_run periodic w s :
  winv w -> runnable (pc w) = true \/ (exists b, pc w = WWait b) ->
  s = st w \/ s = after_wait periodic (st w) -> winv (run_worker s w).
Proof.
  unfold winv. destruct w as [s0 p wk pe wa]. simpl. intros Hi _ Hs.
  destruct s0, p as [| | |[]|], pe, wa as [[]|]; try discriminate Hi;
    destruct Hs as [->| ->], periodic; reflexivity.
Qed.

Lemma winv_step periodic a b :
  winv a -> tstep periodic a b \/ cstep false a b -> winv b.
Proof.
  intros Hi [Ht|Hc].
  - destruct Ht as [w Hw|w Hw|w b Hw]; apply (winv_run periodic); auto; rewrite Hw; eauto.
  - revert Hi. unfold winv.
    destruct Hc as [w Hs|w Hf|w r s b Hs|w s b Hs|w Hd|w Ha Ht|w r Ha Ht]; [|done|..];
      destruct w as [s0 p wk pe wa]; simpl in *; subst;
      try (destruct s0; try discriminate); try destruct p as [| | |[]|]; destruct pe, wa as [[]|];
      intros Hi; try discriminate Hi; try reflexivity;
      try (vm_compute in Hs; injection Hs as <- <- <- || injection Hs as <- <-; reflexivity).
Qed.

Lemma winv_reachable periodic w : wsteps periodic false winit w -> winv w.
Proof.
  intros Hr. assert (H0 : winv winit) by done. unfold wsteps in Hr.
  induction Hr as [|x y z Hs _ IH]; [done|]. apply IH. by eapply winv_step.
Qed.

(** ** Lock discipline *)

Section Locks.
Context `{OS}.

Lemma locks_mutex_free b s : locks s (mutex_free b) s.
Proof using. unfold mutex_free. solve_locks. Qed.
Lemma locks_condvar_free b s : locks s (condvar_free b) s.
Proof using. unfold condvar_free. solve_locks. Qed.
Lemma locks_condvar_init b s : locks s (condvar_init b) s.
Proof using. unfold condvar_init. solve_locks. Qed.

Hint Resolve locks_mutex_free locks_condvar_free locks_condvar_init : locks.

Lemma locks_thread_join t s : below (MThread (thread_id t)) s -> locks s (thread_join t) s.
Proof using. intros ?. unfold thread_join. solve_locks. Qed.

Lemma locks_thread_free t s : below (MThread (thread_id t)) s -> locks s (thread_free t) s.
Proof using.
  intros ?. pose proof (locks_thread_join t s). unfold thread_free. solve_locks.
Qed.

Lemma locks_thread_init t s : locks s (thread_init t) s.
Proof using. unfold thread_init. solve_locks. Qed.

Lemma locks_thread_start t s : below (MThread (thread_id t)) s -> locks s (thread_start t) s.
Proof using.
  intros ?. pose proof (locks_thread_join t s). unfold thread_start. solve_locks.
Qed.

Hint Resolve locks_thread_join locks_thread_free locks_thread_init locks_thread_start : locks.

Section Client.
Context (w : worker_handle) (s : lockset).
Hypothesis Hm : below (worker_mutex w) s.

Lemma locks_worker_is_idle : locks s (worker_is_idle w) s.
Proof using Hm. unfold worker_is_idle, with_worker. solve_locks. Qed.

Lemma locks_worker_wake : locks s (worker_wake w) s.
Proof using Hm. unfold worker_wake, with_worker. solve_locks. Qed.

Lemma locks_worker_wait_idle : locks s (worker_wait_idle w) s.
Proof using Hm. unfold worker_wait_idle, with_worker. solve_locks. Qed.

Lemma locks_worker_join : locks s (worker_join w) s.
Proof using Hm. unfold worker_join, with_worker. solve_locks. Qed.

Lemma locks_worker_start : locks s (worker_start w) s.
Proof using Hm. unfold worker_start, with_worker. solve_locks. Qed.

End Client.

Lemma locks_worker_free w s : below (worker_mutex w) s -> locks s (worker_free w) s.
Proof using.
  intros Hm. pose proof (locks_worker_join w s Hm). unfold worker_free, with_worker. solve_locks.
Qed.

Lemma locks_worker_init w s : locks s (worker_init w) s.
Proof using. unfold worker_init. solve_locks. Qed.

End Locks.

#[export] Hint Resolve locks_mutex_free locks_condvar_free locks_condvar_init
  locks_thread_join locks_thread_free locks_thread_init locks_thread_start
  locks_worker_is_idle locks_worker_wake locks_worker_wait_idle locks_worker_join
  locks_worker_start locks_worker_free locks_worker_init : locks.

(** ** Initialised workers *)

(** The worker and its thread have their private data: none of the operations
    dereferences NULL. *)
Definition worker_up (w : worker_handle) : Prop :=
  exists s t d, wpriv w = Some (s, t) /\ dirty t = Some d.

(** The worker's thread is in [func_ptr], or about to call it. *)
Definition working (w : worker_handle) : Prop :=
  exists s t, wpriv w = Some (s, t) /\ (s = WORKER_BUSY \/ s = WORKER_SIGNALED).

Section Up.
Context {O : OS}.

Lemma worker_up_set w s t d : dirty t = Some d -> worker_up (set_wpriv w (Some (s, t))).
Proof using. intros Hd. by exists s, t, d. Qed.

Lemma thread_join_up t d h :
  dirty t = Some d -> wp (thread_join t) h (fun res _ => dirty res.2 = Some false).
Proof using. intros Hd. unfold thread_join. rewrite Hd. wp_steps. destruct d; by wp_steps. Qed.

Lemma worker_wake_up w h :
  worker_up w -> wp (worker_wake w) h (fun res _ => worker_up res.2 /\ (res.1 = 0 \/ res.1 < 0)).
Proof using.
  intros (s & t & d & Hw & Hd). unfold worker_wake, with_worker. rewrite Hw. wp_steps.
  unfold wake_state. destruct (_ <? _); wp_steps; (split; [by eapply worker_up_set|]);
    [by left|right; unfold EINVAL; simpl; lia].
Qed.

Lemma worker_wait_idle_up w h :
  worker_up w -> wp (worker_wait_idle w) h (fun res _ => worker_up res.2 /\ ~ working res.2).
Proof using.
  intros (s & t & d & Hw & Hd). unfold worker_wait_idle, with_worker. rewrite Hw. wp_steps.
  destruct (wait_idle_test s) eqn:E; simpl.
  - split; [by exists s, t, d|]. intros (s' & t' & Hw' & Hs). rewrite Hw in Hw'. injection Hw' as <- <-.
    by destruct Hs as [->| ->].
  - split; [by eapply worker_up_set|]. intros (s' & t' & [= <- <-] & [?|?]); done.
Qed.

Lemma worker_join_up w h :
  worker_up w -> wp (worker_join w) h (fun res _ => worker_up res.2).
Proof using.
  intros (s & t & d & Hw & Hd). unfold worker_join, with_worker. rewrite Hw. wp_steps.
  eapply wp_mono; [by eapply thread_join_up|]. intros [r t'] e Ht. wp_steps. by eapply worker_up_set.
Qed.

Lemma worker_free_up w h : worker_up w \/ wpriv w = None -> wp (worker_free w) h (fun w' _ => wpriv w' = None).
Proof using.
  intros [Hu|Hn]; unfold worker_free; [|rewrite Hn; by wp_steps].
  pose proof Hu as (s & t & d & Hw & Hd). rewrite Hw. wp_steps.
  eapply wp_mono; [by apply worker_join_up|]. intros [r w'] e (s' & t' & d' & Hw' & Hd').
  simpl in *. unfold with_worker. rewrite Hw'. wp_steps. unfold thread_free. rewrite Hd'. wp_steps.
  eapply wp_mono; [by eapply thread_join_up|]. intros. unfold mutex_free, condvar_free. by wp_steps.
Qed.

Lemma neg_errno_nonpos r : 0 <= r -> neg_errno r <= 0.
Proof using. intros Hr. unfold neg_errno. destruct (Z.ltb_spec 0 r); lia. Qed.

Lemma worker_start_up {Hos : OSLaws O} w h :
  worker_up w -> wp (worker_start w) h (fun res _ => worker_up res.2 /\ res.1 <= 0).
Proof using.
  intros (s & t & d & Hw & Hd). unfold worker_start, with_worker. rewrite Hw. wp_steps.
  destruct (_ <=? _); [|wp_steps; split; [by eapply worker_up_set|done]]. wp_steps.
  assert (Hup : forall t', is_Some (dirty t') -> worker_up (set_wpriv w (Some (WORKER_STARTING, t')))).
  { intros t' [d' Hd']. by exists WORKER_STARTING, t', d'. }
  eapply (wp_mono _ _ (fun res _ => is_Some (dirty res.2) /\ res.1 <= 0)).
  2: { intros [r t'] e [Ht Hr]. wp_steps. split; [by apply Hup|done]. }
  unfold thread_start. wp_steps.
  assert (Hneg : forall h', neg_errno (a_ret (os_answer h' (CPthread false))) <= 0).
  { intros h'. apply neg_errno_nonpos. apply (Hos h' (CPthread false)). }
  destruct (negb _); wp_steps; [split; [by exists d|apply Hneg]|].
  eapply (wp_mono _ _ (fun b _ => neg_errno (a_ret b) <= 0)); [destruct (_ <? _); wp_steps; apply Hneg|].
  intros b e Hb. destruct (negb _); wp_steps; [split; [by exists d|done]|].
  eapply wp_mono; [by eapply thread_join_up|]. intros. wp_steps. split; [by eexists|].
  apply neg_errno_nonpos. apply (Hos _ CThreadStart).
Qed.

Lemma worker_init_up {Hos : OSLaws O} w h :
  wpriv w = None ->
  wp (worker_init w) h (fun res _ => worker_id res.2 = worker_id w /\
    (res.1 = 0 /\ worker_up res.2 \/ res.1 < 0 /\ wpriv res.2 = None)).
Proof using.
  intros Hw. unfold worker_init. rewrite Hw. cbn [bool_decide]. rewrite bool_decide_eq_false_2 by (by intros [? [=]]).
  assert (Hcv : forall b h', wp (condvar_init b) h' (fun res _ => res.1 = 0 \/ res.1 < 0)).
  { intros b h'. unfold condvar_init. wp_steps. eapply (wp_mono _ _ (fun _ _ => True)); [by destruct b; wp_steps|].
    intros ok e _. destruct ok; simpl; wp_steps; [|right; simpl; unfold ENOMEM; lia].
    pose proof (Hos (h' ++ e) (CPthread false)) as Hl. cbn [legal] in Hl.
    destruct (Z.eqb_spec (a_ret (os_answer (h' ++ e) (CPthread false))) 0); simpl; wp_steps; [by left|right; simpl; lia]. }
  wp_steps. destruct (a_ret _ =? 0); cbn [negb]; wp_steps; [split; [done|right; unfold ENOMEM; simpl; split; [lia|done]]|].
  assert (Hfail : forall (b1 b2 b3 : bool) r h' (Q : Z * worker_handle -> trace -> Prop), r < 0 ->
    (forall e, Q (r, set_wpriv w None) e) ->
    wp (do* mutex_free b1 in do* condvar_free b2 in do* condvar_free b3 in ret (r, set_wpriv w None)) h' Q).
  { intros b1 b2 b3 r h' Q Hr HQ. unfold mutex_free, condvar_free. destruct b1, b2, b3; wp_steps; apply HQ. }
  eapply wp_mono; [apply Hcv|]. intros [r1 cv] e1 Hr1. simpl in Hr1.
  destruct (Z.ltb_spec r1 0); [apply Hfail; [done|]; intros; by split; [|right]|]. wp_steps.
  eapply wp_mono; [apply Hcv|]. intros [r2 cvi] e2 Hr2. simpl in Hr2.
  destruct (Z.ltb_spec r2 0); [apply Hfail; [done|]; intros; by split; [|right]|]. wp_steps.
  apply mutex_init_wp. intros r3 e3 Hr3 _.
  destruct (Z.ltb_spec r3 0); [apply Hfail; [done|]; intros; by split; [|right]|]. wp_steps.
  eapply (wp_mono _ _ (fun res _ => res.1 < 0 \/ res.1 = 0 /\ is_Some (dirty res.2))).
  { unfold thread_init. cbn [dirty]. wp_steps. destruct (a_ret _ =? 0); simpl; wp_steps; [left; simpl; unfold ENOMEM; lia|].
    apply mutex_init_wp. intros r e Hr _. destruct (Z.ltb_spec r 0); wp_steps; [by left|right; split; [done|by eexists]]. }
  intros [r4 t] e4 Hr4. simpl in Hr4.
  destruct (Z.ltb_spec r4 0); [apply Hfail; [done|]; intros; by split; [|right]|]. wp_steps.
  split; [done|]. left. split; [done|]. destruct Hr4 as [?|[_ [d Hd]]]; [lia|]. by eapply worker_up_set.
Qed.

End Up.

(** ** Properties *)

(** C24. Work whose [worker_wake] succeeded is performed: in every reachable
    state with such work outstanding, also after a [worker_join], the worker's
    thread exists and is not asleep, and the next thing it does when it gets the
    lock is to call the work function. *)
Theorem worker_wake_performed periodic w :
  wsteps periodic false winit w -> pending w = true ->
  runnable (pc w) = true /\ (exists w', tstep periodic w w') /\
  forall w', tstep periodic w w' ->
    pc w' = WWork /\ works w' = S (works w) /\ pending w' = false.
Proof.
  intros Hr Hp. apply winv_reachable in Hr. unfold winv in Hr.
  destruct w as [s p wk pe wa]; simpl in *. subst pe.
  split_and!.
  - by destruct s, p as [| | |[]|].
  - destruct s, p as [| | |[]|]; try discriminate Hr;
      eexists; first [by apply T_begin|by apply T_work_done|by eapply T_wait_return].
  - intros w' Hs. inversion Hs as [w Hw|w Hw|w b Hw]; simpl in *; subst;
      destruct s; try discriminate Hr; try (destruct b; discriminate Hr);
      by destruct periodic.
Qed.

Lemma worker_wake_performed_witness :
  exists w, wsteps false false winit w /\ st w = WORKER_STOPPING_AFTER_WORK /\ pending w = true /\
    runnable (pc w) = true.
Proof.
  assert (Hr : wsteps false false winit (mkW WORKER_STOPPING_AFTER_WORK WStart 0 true None)).
  { unfold wsteps. eapply rtc_l; [right; apply C_start; reflexivity|].
    eapply rtc_l; [right; eapply C_wake; reflexivity|]. cbn.
    eapply rtc_l; [right; eapply C_join; reflexivity|]. apply rtc_refl. }
  eexists. split; [exact Hr|]. split; [reflexivity|]. split; [reflexivity|].
  apply (worker_wake_performed false _ Hr eq_refl).
Defined.

(** A client blocked in [worker_wait_idle] is not forgotten: while it sleeps
    unsignalled, the worker is busy or about to be and its thread runs on its
    own, and whatever ends that (going idle, or a [worker_join]) signals it. *)
Theorem worker_wait_idle_signalled periodic w :
  wsteps periodic false winit w -> waiter w = Some false ->
  (st w = WORKER_BUSY \/ st w = WORKER_SIGNALED) /\ runnable (pc w) = true /\
  forall w', tstep periodic w w' \/ cstep false w w' ->
    waiter w' = Some true \/
    (waiter w' = Some false /\ (st w' = WORKER_BUSY \/ st w' = WORKER_SIGNALED)).
Proof.
  intros Hr Hw. apply winv_reachable in Hr. unfold winv in Hr.
  assert (Hst : (st w = WORKER_BUSY \/ st w = WORKER_SIGNALED) /\ runnable (pc w) = true).
  { destruct w as [s p wk pe wa]; simpl in *. subst wa.
    destruct s, p as [| | |[]|], pe; try discriminate Hr; auto. }
  destruct Hst as [Hst Hrun]. split; [done|]. split; [done|]. intros w' Hs.
  assert (Hi : winv w') by (by eapply winv_step).
  assert (Hsome : waiter w' <> None).
  { destruct Hs as [Ht|Hc]; [destruct Ht|destruct Hc]; simpl; try (rewrite Hw; done); try naive_solver;
      unfold run_worker; destruct (worker_loop _); simpl; case_decide; by rewrite Hw. }
  destruct w' as [s p wk pe [[]|]]; simpl in *; [by left|right|done].
  split; [done|]. unfold winv in Hi. simpl in Hi.
  destruct s, p as [| | |[]|], pe; try discriminate Hi; auto.
Qed.

Lemma worker_wait_idle_signalled_witness :
  exists w, wsteps false false winit w /\ waiter w = Some false /\ runnable (pc w) = true.
Proof.
  assert (Hr : wsteps false false winit (mkW WORKER_SIGNALED WStart 0 true (Some false))).
  { unfold wsteps. eapply rtc_l; [right; apply C_start; reflexivity|].
    eapply rtc_l; [right; eapply C_wake; reflexivity|]. cbn.
    eapply rtc_l; [right; eapply C_wait_idle; [left|]; reflexivity|]. apply rtc_refl. }
  eexists. split; [exact Hr|]. split; [reflexivity|].
  apply (worker_wait_idle_signalled false _ Hr eq_refl).
Defined.

(** [worker_start] sets the state before it creates the thread and leaves it
    when that fails: afterwards [worker_wake] reports success although no thread
    exists, and no sequence of calls ever brings a thread into being again. *)
Theorem worker_start_failure_stuck periodic :
  exists w, wsteps periodic true winit w /\ pc w = WNone /\ pending w = true /\
    forall w', wsteps periodic true w w' -> pc w' = WNone /\ works w' = 0%nat.
Proof.
  exists (mkW WORKER_SIGNALED WNone 0 true None). split.
  { unfold wsteps. eapply rtc_l; [right; by apply C_start_fails|].
    eapply rtc_l; [right; by eapply C_wake|]. apply rtc_refl. }
  split; [done|]. split; [done|]. intros w' Hr. unfold wsteps in Hr.
  assert (Hinv : st w' <> WORKER_STOPPED /\ pc w' = WNone /\ works w' = 0%nat); [|tauto].
  remember (mkW WORKER_SIGNALED WNone 0 true None) as w0 eqn:Hw0.
  assert (H0 : st w0 <> WORKER_STOPPED /\ pc w0 = WNone /\ works w0 = 0%nat) by (by subst).
  clear Hw0. induction Hr as [|x y z Hs _ IH]; [done|]. apply IH. destruct H0 as (H1 & H2 & H3).
  destruct Hs as [Ht|Hc]; [destruct Ht; congruence|].
  destruct Hc as [w|w|w r s b Hs|w s b Hs|w|w|w]; simpl; try done; rewrite H2; split_and!; try done;
    unfold wake_state, join_state in Hs; destruct (st w); simpl in Hs; congruence.
Qed.
