(* ===== verification/Conn.v ===== *)
(** * Network connections (src/src/conn.c, src/include/conn.h)

    A connection handle is passed and returned by value; its private part holds
    the three descriptors and the remote address.  Each operation is one
    definition over [IO], with the Linux branches of the conditional compilation.

    The theorems show that the operations respect the lock discipline, that
    [conn_recv] delivers exactly the bytes the kernel handed over, in order,
    that descriptors are accounted for (the open ones are those the handle
    holds), and the text of a port.  [conn_send] repeats the start of the buffer
    after a partial send. *)

From S2P Require Import Prelude Sys Mutex.

(** ** Data *)

Definition CONN_TYPE_TCP : Z := 0.
Definition CONN_TYPE_UDP : Z := 1.

Definition AF_INET : Z := 2.
Definition AF_INET6 : Z := 10.

(** [struct sockaddr_storage]: the family, and the address and port as they lie
    in memory (network byte order, read as host integers). *)
Record sockaddr : Type := mkSockaddr { ss_family : Z; s_addr : Z; s_port : Z }.

Record conn_priv : Type := mkConnPriv {
  sock_fd : Z; conn_fd : Z; fd : Z; remote_addr : sockaddr;
}.

Record conn_handle : Type := mkConn {
  conn_id : nat;                          (* names the handle's lock *)
  source_addr : option (list Z);
  source_port : option (list Z);
  conn_type : Z;
  priv : option conn_priv;
}.

Definition sockaddr_zero : sockaddr := mkSockaddr 0 0 0.
Definition conn_priv_zero : conn_priv := mkConnPriv 0 0 0 sockaddr_zero.

Definition set_sock_fd (p : conn_priv) (x : Z) : conn_priv :=
  mkConnPriv x (conn_fd p) (fd p) (remote_addr p).
Definition set_conn_fd (p : conn_priv) (x : Z) : conn_priv :=
  mkConnPriv (sock_fd p) x (fd p) (remote_addr p).
Definition set_fd (p : conn_priv) (x : Z) : conn_priv :=
  mkConnPriv (sock_fd p) (conn_fd p) x (remote_addr p).
Definition set_remote_addr (p : conn_priv) (x : sockaddr) : conn_priv :=
  mkConnPriv (sock_fd p) (conn_fd p) (fd p) x.
Definition set_priv (c : conn_handle) (p : option conn_priv) : conn_handle :=
  mkConn (conn_id c) (source_addr c) (source_port c) (conn_type c) p.
Definition conn_mutex (c : conn_handle) : mutex_id := MConn (conn_id c).

(** Dereference [conn->priv]. *)
Definition with_priv {A} (c : conn_handle) (k : conn_priv -> IO A) : IO A :=
  match priv c with None => crash | Some p => k p end.

(** [htons]/[ntohs] on a little-endian host. *)
Definition htons (x : Z) : Z := Z.lor (Z.shiftl (Z.land x 255) 8) (Z.land (Z.shiftr x 8) 255).

(** ** Operations *)

Section Operations.
Context `{OS}.

Definition conn_init (c : conn_handle) : IO (Z * conn_handle) :=
  let* p :=
    match priv c with
    | Some p => ret (Some p)
    | None => let* a := sys CAlloc in
              ret (if a_ret a =? 0 then None else Some conn_priv_zero)
    end in
  match p with
  | None => ret (- ENOMEM, c)
  | Some p =>
      let* (r, _) := mutex_init (bool_decide (is_Some (priv c))) in
      if r <? 0 then ret (r, set_priv c None)
      else ret (0, set_priv c (Some (mkConnPriv INVALID_SOCKET INVALID_SOCKET INVALID_SOCKET
                                                (remote_addr p))))
  end.

Definition conn_shutdown (c : conn_handle) : IO unit :=
  with_priv c (fun p =>
  do* mutex_lock_shared (conn_mutex c) in
  do* (if conn_fd p =? INVALID_SOCKET then ret tt
       else do* sys (CShutdown (conn_fd p)) in ret tt) in
  do* (if sock_fd p =? INVALID_SOCKET then ret tt
       else do* sys (CShutdown (sock_fd p)) in ret tt) in
  mutex_unlock_shared (conn_mutex c)).

(** [closesocket] of a descriptor that is not [INVALID_SOCKET]. *)
Definition close_fd (x : Z) : IO unit :=
  if x =? INVALID_SOCKET then ret tt else do* sys (CClose x) in ret tt.

Definition conn_close (c : conn_handle) : IO conn_handle :=
  with_priv c (fun p =>
  do* conn_shutdown c in
  do* mutex_lock (conn_mutex c) in
  do* close_fd (conn_fd p) in
  do* close_fd (sock_fd p) in
  do* mutex_unlock (conn_mutex c) in
  ret (set_priv c (Some (mkConnPriv INVALID_SOCKET INVALID_SOCKET INVALID_SOCKET
                                    (remote_addr p))))).

Definition conn_free (c : conn_handle) : IO conn_handle :=
  match priv c with
  | None => ret c
  | Some _ => let* c := conn_close c in do* mutex_free true in ret (set_priv c None)
  end.

Definition conn_drop (c : conn_handle) : IO conn_handle :=
  with_priv c (fun p =>
  do* mutex_lock_shared (conn_mutex c) in
  if (conn_fd p =? INVALID_SOCKET) && (fd p =? INVALID_SOCKET) then
    do* mutex_unlock_shared (conn_mutex c) in ret c
  else
    do* (if conn_fd p =? INVALID_SOCKET then ret tt
         else do* sys (CShutdown (conn_fd p)) in ret tt) in
    do* mutex_unlock_shared (conn_mutex c) in
    do* mutex_lock (conn_mutex c) in
    do* close_fd (conn_fd p) in
    do* mutex_unlock (conn_mutex c) in
    ret (set_priv c (Some (set_conn_fd (set_fd p INVALID_SOCKET) INVALID_SOCKET)))).

(** The port given to [getaddrinfo] for the local end. *)
Definition service_of (c : conn_handle) : list Z := default (str "0") (source_port c).

Definition conn_listen (c : conn_handle) : IO (Z * conn_handle) :=
  if negb ((conn_type c =? CONN_TYPE_TCP) || (conn_type c =? CONN_TYPE_UDP)) then ret (-1, c)
  else
    let tcp := conn_type c =? CONN_TYPE_TCP in
    let* a := sys (CGetaddrinfo (source_addr c) (service_of c) tcp true) in
    if negb (a_ret a =? 0) then ret (- EADDRNOTAVAIL, c) else
    let* s := sys (CSocket tcp) in
    with_priv c (fun p =>
    let c1 := set_priv c (Some (set_sock_fd p (a_ret s))) in
    if a_ret s =? INVALID_SOCKET then ret (SOCK_ERRNO s, c1) else
    let* a := sys (CSetsockopt (a_ret s) SO_REUSEADDR) in
    if a_ret a =? SOCKET_ERROR then ret (SOCK_ERRNO a, c1) else
    let* b := sys (CBind (a_ret s)) in
    if a_ret b =? SOCKET_ERROR then ret (SOCK_ERRNO b, c1) else
    let* l := (if tcp then sys (CListen (a_ret s)) else ret b) in
    if a_ret l =? SOCKET_ERROR then ret (SOCK_ERRNO l, c1) else
    do* mutex_lock (conn_mutex c) in
    do* mutex_unlock (conn_mutex c) in
    ret (a_ret l, set_priv c (Some (set_fd (set_sock_fd p (a_ret s)) (a_ret s))))).

(** A list of [setsockopt] calls of which the first failure ends the rest. *)
Fixpoint set_options (x : Z) (opts : list sockopt) : IO (option Z) :=
  match opts with
  | [] => ret None
  | o :: opts =>
      let* a := sys (CSetsockopt x o) in
      if a_ret a =? SOCKET_ERROR then ret (Some (SOCK_ERRNO a)) else set_options x opts
  end.

Definition conn_accept (c accepted : conn_handle) : IO (Z * conn_handle) :=
  with_priv accepted (fun ap =>
  with_priv c (fun p =>
  do* mutex_lock_shared (conn_mutex c) in
  let* a := sys (CAccept (sock_fd p)) in
  do* mutex_unlock_shared (conn_mutex c) in
  if a_ret a =? INVALID_SOCKET then
    ret (SOCK_ERRNO a, set_priv accepted (Some (set_conn_fd ap (a_ret a)))) else
  let ap1 := set_remote_addr (set_conn_fd ap (a_ret a))
                             (mkSockaddr (a_family a) (a_addr a) (a_port a)) in
  let* o := set_options (a_ret a) [SO_KEEPALIVE 1; TCP_KEEPIDLE 600; TCP_KEEPINTVL 12;
                                   TCP_KEEPCNT 10] in
  match o with
  | Some e => ret (e, set_priv accepted (Some ap1))
  | None =>
      do* mutex_lock (conn_mutex accepted) in
      do* mutex_unlock (conn_mutex accepted) in
      ret (0, set_priv accepted (Some (set_fd ap1 (a_ret a))))
  end)).

(** The two addresses are [res] (local, IPv4) and [res_remote]; a failure of
    [bind] or [connect] closes the new socket, earlier ones leave it. *)
Definition conn_connect (c : conn_handle) (addr port : list Z) : IO (Z * conn_handle) :=
  if negb (conn_type c =? CONN_TYPE_TCP) then ret (- EPROTOTYPE, c) else
  let* a := sys (CGetaddrinfo (source_addr c) (service_of c) true true) in
  if negb (a_ret a =? 0) then ret (- EADDRNOTAVAIL, c) else
  let* a := sys (CGetaddrinfo (Some addr) port true false) in
  if negb (a_ret a =? 0) then ret (- EADDRNOTAVAIL, c) else
  let* s := sys (CSocket true) in
  with_priv c (fun p =>
  let c1 := set_priv c (Some (set_sock_fd p (a_ret s))) in
  let fail (e : Z) : IO (Z * conn_handle) :=
    do* sys (CShutdown (a_ret s)) in
    do* sys (CClose (a_ret s)) in
    ret (e, set_priv c (Some (set_sock_fd p INVALID_SOCKET))) in
  if a_ret s =? INVALID_SOCKET then ret (SOCK_ERRNO s, c1) else
  let* a := sys (CSetsockopt (a_ret s) SO_REUSEADDR) in
  if a_ret a =? SOCKET_ERROR then ret (SOCK_ERRNO a, c1) else
  let* b := sys (CBind (a_ret s)) in
  if a_ret b =? SOCKET_ERROR then fail (SOCK_ERRNO b) else
  let* b := sys (CConnect (a_ret s)) in
  if a_ret b =? SOCKET_ERROR then fail (SOCK_ERRNO b) else
  do* mutex_lock (conn_mutex c) in
  do* mutex_unlock (conn_mutex c) in
  ret (0, set_priv c (Some (set_fd (set_sock_fd p (a_ret s)) (a_ret s))))).

(** The loop of [conn_recv]: [n] bytes are still wanted, [acc] is what [buff]
    holds so far and [r] the last value of [ret]. *)
Fixpoint recv_loop (fuel : nat) (x : Z) (n : nat) (r : Z) (acc : list Z) : IO (Z * list Z) :=
  if decide (n = 0%nat) then ret (r, acc) else
  match fuel with
  | O => crash
  | S fuel =>
      let* a := sys (CRecv x n) in
      if a_ret a =? 0 then ret (- EPIPE, acc)
      else if a_ret a =? SOCKET_ERROR then ret (SOCK_ERRNO a, acc)
      else
        let acc := acc ++ a_data a in
        recv_loop fuel x (n - Z.to_nat (a_ret a))%nat (Z.of_nat (length acc)) acc
  end.

(** The result is the return value and the bytes stored in [buff]. *)
Definition conn_recv (c : conn_handle) (n : nat) : IO (Z * list Z) :=
  if negb (conn_type c =? CONN_TYPE_TCP) then ret (- EPROTOTYPE, []) else
  with_priv c (fun p =>
  do* mutex_lock_shared (conn_mutex c) in
  let* r := (if fd p =? INVALID_SOCKET then ret (- ENOTCONN, [])
             else recv_loop n (fd p) n 0 []) in
  do* mutex_unlock_shared (conn_mutex c) in
  ret r).

(** The result is the return value, the bytes stored in [buff], the sender's
    address and port as stored in [*addr] and [*port] (when the value is
    positive), and the handle. *)
Definition conn_recv_any (c : conn_handle) (n : nat)
  : IO (Z * list Z * option (Z * Z) * conn_handle) :=
  with_priv c (fun p =>
  do* mutex_lock_shared (conn_mutex c) in
  let* (r, data, p') :=
    (if fd p =? INVALID_SOCKET then ret (- ENOTCONN, [], p)
     else
       let* a := sys (CRecvfrom (fd p) n) in
       if a_ret a =? 0 then ret (- EPIPE, [], p)
       else if a_ret a =? SOCKET_ERROR then ret (SOCK_ERRNO a, [], p)
       else ret (a_ret a, a_data a,
                 set_remote_addr p (mkSockaddr (a_family a) (a_addr a) (a_port a)))) in
  do* mutex_unlock_shared (conn_mutex c) in
  ret (r, data,
       if 0 <? r then Some (s_addr (remote_addr p'), htons (s_port (remote_addr p'))) else None,
       set_priv c (Some p'))).

(** The loop of [conn_send] and [conn_send_to]; [buff] itself does not advance.
    [call] is [send] or [sendto] of the given bytes. *)
Fixpoint send_loop (fuel : nat) (call_of : list Z -> call) (buff : list Z) (n : nat) : IO Z :=
  if decide (n = 0%nat) then ret 0 else
  match fuel with
  | O => crash
  | S fuel =>
      let* a := sys (call_of (take n buff)) in
      if a_ret a =? 0 then ret (- EPIPE)
      else if a_ret a =? SOCKET_ERROR then ret (SOCK_ERRNO a)
      else send_loop fuel call_of buff (n - Z.to_nat (a_ret a))%nat
  end.

Definition conn_send (c : conn_handle) (buff : list Z) : IO Z :=
  if negb (conn_type c =? CONN_TYPE_TCP) then ret (- EPROTOTYPE) else
  with_priv c (fun p =>
  do* mutex_lock_shared (conn_mutex c) in
  let* r := (if fd p =? INVALID_SOCKET then ret (- ENOTCONN)
             else send_loop (length buff) (CSend (fd p)) buff (length buff)) in
  do* mutex_unlock_shared (conn_mutex c) in
  ret r).

Definition conn_send_to (c : conn_handle) (buff : list Z) (addr port : Z) : IO Z :=
  if negb (conn_type c =? CONN_TYPE_UDP) then ret (- EPROTOTYPE) else
  with_priv c (fun p =>
  do* mutex_lock_shared (conn_mutex c) in
  let* r := (if fd p =? INVALID_SOCKET then ret (- ENOTCONN)
             else send_loop (length buff) (fun b => CSendto (fd p) b addr (htons port))
                            buff (length buff)) in
  do* mutex_unlock_shared (conn_mutex c) in
  ret r).

Definition conn_set_timeout (c : conn_handle) (msec : Z) : IO Z :=
  with_priv c (fun p =>
  do* mutex_lock_shared (conn_mutex c) in
  let* a := sys (CSetsockopt (sock_fd p) (SO_RCVTIMEO (msec / 1000) (msec mod 1000 * 1000))) in
  do* mutex_unlock_shared (conn_mutex c) in
  ret (if a_ret a =? SOCKET_ERROR then SOCK_ERRNO a else a_ret a)).

Definition conn_in_use (c : conn_handle) : IO Z :=
  with_priv c (fun p =>
  do* mutex_lock_shared (conn_mutex c) in
  do* mutex_unlock_shared (conn_mutex c) in
  ret (if fd p =? INVALID_SOCKET then 0 else 1)).

End Operations.

(** ** Text of ports and addresses *)

(** The counting loop: one digit, then one more while a quotient remains.  A
    16-bit port has at most five, so five rounds are enough. *)
Fixpoint port_digits (fuel : nat) (port_tmp : Z) : Z :=
  let port_tmp := port_tmp / 10 in
  match fuel with
  | O => 1
  | S fuel => if port_tmp =? 0 then 1 else 1 + port_digits fuel port_tmp
  end.

(** The [switch] with its fall-through, entered at case [n]. *)
Fixpoint port_cases (n : nat) (port_tmp : Z) : list Z :=
  match n with
  | O => []
  | 1%nat => [48 + port_tmp]
  | S m => 48 + port_tmp / 10 ^ Z.of_nat m :: port_cases m (port_tmp mod 10 ^ Z.of_nat m)
  end.

Definition conn_port_to_str (port : Z) : list Z :=
  port_cases (Z.to_nat (port_digits 5 port)) port ++ [0].

(** [inet_ntop] for IPv4 is dotted decimal; the IPv6 text is the argument
    [ntop6]. *)
Definition dotted (addr : Z) : list Z :=
  let byte i := dec (Z.land (Z.shiftr addr (8 * i)) 255) in
  byte 0 ++ str "." ++ byte 1 ++ str "." ++ byte 2 ++ str "." ++ byte 3.

Definition conn_get_remote_addr (ntop6 : Z -> list Z) (c : conn_handle) : option (list Z) :=
  match priv c with
  | None => None
  | Some p =>
      let a := remote_addr p in
      Some (if ss_family a =? AF_INET then
              dotted (s_addr a) ++ str ":" ++ conn_port_to_str (s_port a)
            else if ss_family a =? AF_INET6 then
              str "[" ++ ntop6 (s_addr a) ++ str "]:" ++ conn_port_to_str (s_port a)
            else str "(unknown)" ++ [0])
  end.

(** ** Lock discipline *)

Lemma locks_close_fd `{OS} x s : locks s (close_fd x) s.
Proof. unfold close_fd. solve_locks. Qed.

Lemma locks_recv_loop `{OS} fuel x n r acc s : locks s (recv_loop fuel x n r acc) s.
Proof.
  revert n r acc. induction fuel as [|fuel IH]; intros n r acc; simpl; solve_locks.
Qed.

Lemma locks_send_loop `{OS} fuel f b n s : locks s (send_loop fuel f b n) s.
Proof. revert n. induction fuel as [|fuel IH]; intros n; simpl; solve_locks. Qed.

Lemma locks_set_options `{OS} x opts s : locks s (set_options x opts) s.
Proof. induction opts; simpl; solve_locks. Qed.

#[export] Hint Resolve locks_close_fd locks_recv_loop locks_send_loop locks_set_options : locks.

Section Locks.
Context `{OS} (c : conn_handle) (s : lockset).
Hypothesis Hfree : below (conn_mutex c) s.

Lemma locks_conn_shutdown : locks s (conn_shutdown c) s.
Proof using Hfree. unfold conn_shutdown, with_priv. solve_locks. Qed.

Lemma locks_conn_close : locks s (conn_close c) s.
Proof using Hfree.
  pose proof locks_conn_shutdown. unfold conn_close, with_priv. solve_locks.
Qed.

Lemma locks_conn_free : locks s (conn_free c) s.
Proof using Hfree. pose proof locks_conn_close. unfold conn_free, mutex_free. solve_locks. Qed.

Lemma locks_conn_drop : locks s (conn_drop c) s.
Proof using Hfree. unfold conn_drop, with_priv. solve_locks. Qed.

Lemma locks_conn_recv n : locks s (conn_recv c n) s.
Proof using Hfree. unfold conn_recv, with_priv. solve_locks. Qed.

Lemma locks_conn_recv_any n : locks s (conn_recv_any c n) s.
Proof using Hfree. unfold conn_recv_any, with_priv. solve_locks. Qed.

Lemma locks_conn_send b : locks s (conn_send c b) s.
Proof using Hfree. unfold conn_send, with_priv. solve_locks. Qed.

Lemma locks_conn_send_to b a p : locks s (conn_send_to c b a p) s.
Proof using Hfree. unfold conn_send_to, with_priv. solve_locks. Qed.

Lemma locks_conn_connect a p : locks s (conn_connect c a p) s.
Proof using Hfree. unfold conn_connect, with_priv. solve_locks. Qed.

Lemma locks_conn_listen : locks s (conn_listen c) s.
Proof using Hfree. unfold conn_listen, with_priv. solve_locks. Qed.

Lemma locks_conn_in_use : locks s (conn_in_use c) s.
Proof using Hfree. unfold conn_in_use, with_priv. solve_locks. Qed.

Lemma locks_conn_set_timeout t : locks s (conn_set_timeout c t) s.
Proof using Hfree. unfold conn_set_timeout, with_priv. solve_locks. Qed.

Lemma locks_conn_accept acc : locks s (conn_accept c acc) s.
Proof using Hfree. unfold conn_accept, with_priv. solve_locks. Qed.

End Locks.

Lemma locks_conn_init `{OS} c s : locks s (conn_init c) s.
Proof. unfold conn_init. solve_locks. Qed.

#[export] Hint Resolve locks_conn_shutdown locks_conn_close locks_conn_free locks_conn_drop
  locks_conn_recv locks_conn_recv_any locks_conn_send locks_conn_send_to locks_conn_connect
  locks_conn_listen locks_conn_in_use locks_conn_set_timeout locks_conn_accept
  locks_conn_init : locks.

(** ** Receiving and sending *)

Section Transfer.
Context {O : OS} {Hos : OSLaws O}.

(** What a receiving loop leaves: the bytes delivered by the kernel, in order,
    all [n] of them or an error. *)
Definition recv_post (x : Z) (n : nat) (res : Z * list Z) (e : trace) : Prop :=
  received x e = res.2 /\
  (res.1 = Z.of_nat n /\ length res.2 = n \/ res.1 < 0 /\ (length res.2 < n)%nat) /\
  bytes_ok res.2 /\ forall y, sent y e = [].

Lemma recv_loop_spec fuel x n r acc h :
  (n <= fuel)%nat -> r = Z.of_nat (length acc) ->
  wp (recv_loop fuel x n r acc) h (fun res e =>
    exists new, res.2 = acc ++ new /\ received x e = new /\ bytes_ok new /\
      (res.1 = Z.of_nat (length res.2) /\ length new = n \/ res.1 < 0 /\ (length new < n)%nat) /\
      forall y, sent y e = []).
Proof using Hos.
  revert n r acc h. induction fuel as [|fuel IH]; intros n r acc h Hn ->; simpl;
    (destruct (decide (n = 0%nat)) as [->|Hn0];
     [apply wp_ret; exists []; split_and!; simpl; rewrite ?app_nil_r; [done|done|by apply Forall_nil|by left|done]|]);
    [lia|].
  wp_steps. pose proof (Hos h (CRecv x n)) as Hl. simpl in Hl.
  set (a := os_answer h (CRecv x n)) in *.
  assert (Hstop : forall v, v < 0 -> a_ret a <= 0 -> wp (ret (v, acc)) (h ++ [ESys (CRecv x n) a])
    (fun b e' => exists new, b.2 = acc ++ new /\
       received x ([ESys (CRecv x n) a] ++ e') = new /\ bytes_ok new /\
       (b.1 = Z.of_nat (length b.2) /\ length new = n \/ b.1 < 0 /\ (length new < n)%nat) /\
       forall y, sent y ([ESys (CRecv x n) a] ++ e') = [])).
  { intros v Hv Ha. apply wp_ret. exists []. rewrite app_nil_r. unfold received. simpl.
    rewrite decide_False by lia. split_and!; [done|done|by apply Forall_nil|right; simpl; lia|done]. }
  destruct (Z.eqb_spec (a_ret a) 0) as [H0|H0]; [apply Hstop; unfold EPIPE; lia|].
  unfold SOCKET_ERROR. destruct (Z.eqb_spec (a_ret a) (-1)) as [H1|H1].
  { destruct Hl as [[_ He]|Hl]; [|lia]. apply Hstop; unfold SOCK_ERRNO; lia. }
  destruct Hl as [[? _]|(Hr & Hlen & Hb)]; [lia|].
  eapply wp_mono; [apply IH; [lia|done]|]. intros [v d] e (new & Hd & Hrec & Hbn & Hv & Hs).
  exists (a_data a ++ new). simpl in *. rewrite app_assoc. split_and!; [done| |by apply bytes_ok_app| |done].
  - change (ESys (CRecv x n) a :: e) with ([ESys (CRecv x n) a] ++ e).
    rewrite received_app, Hrec. f_equal. unfold received. simpl.
    rewrite decide_True by lia. apply app_nil_r.
  - rewrite length_app. lia.
Qed.

Lemma conn_recv_wp c p n h :
  priv c = Some p -> conn_type c = CONN_TYPE_TCP -> fd p <> INVALID_SOCKET ->
  wp (conn_recv c n) h (recv_post (fd p) n).
Proof using Hos.
  intros Hp Ht Hfd. unfold conn_recv, with_priv. rewrite Ht, Hp. simpl.
  rewrite (proj2 (Z.eqb_neq _ _) Hfd). wp_steps.
  eapply wp_mono; [apply recv_loop_spec; [lia|done]|].
  intros [v d] e (new & Hd & Hr & Hb & Hv & Hs). wp_steps. simpl in *. subst d.
  unfold recv_post. trace_simpl. simpl. rewrite Hr. split_and!; [done|lia|done|].
  intros y. by trace_simpl.
Qed.

(** The bytes of a repeated send: pieces that all begin at the start of the
    buffer. *)
Definition restarted (buff : list Z) (ks : list nat) : list Z :=
  concat (map (fun k => take k buff) ks).

Definition send_post (x : Z) (buff : list Z) (r : Z) (e : trace) : Prop :=
  (r = 0 /\ length (sent x e) = length buff \/ r < 0) /\
  (exists ks, sent x e = restarted buff ks) /\
  forall y, received y e = [] /\ (y <> x -> sent y e = []).

Lemma send_loop_spec fuel x buff n h :
  (n <= fuel)%nat -> (n <= length buff)%nat ->
  wp (send_loop fuel (CSend x) buff n) h (fun r e =>
    (r = 0 /\ length (sent x e) = n \/ r < 0) /\
    (exists ks, sent x e = restarted buff ks) /\
    forall y, received y e = [] /\ (y <> x -> sent y e = [])).
Proof using Hos.
  revert n h. induction fuel as [|fuel IH]; intros n h Hn Hb; simpl;
    (destruct (decide (n = 0%nat)) as [->|Hn0];
     [apply wp_ret; split_and!; [by left|by exists []|done]|]); [lia|].
  wp_steps. pose proof (Hos h (CSend x (take n buff))) as Hl. simpl in Hl.
  set (a := os_answer h (CSend x (take n buff))) in *.
  rewrite length_take in Hl.
  assert (Hev : forall y, sent y [ESys (CSend x (take n buff)) a] =
                  if decide (y = x) then take (Z.to_nat (a_ret a) `min` n) buff else []).
  { intros y. unfold sent. simpl. by rewrite app_nil_r, take_take. }
  assert (Hstop : forall v, v < 0 -> a_ret a <= 0 ->
    wp (ret v) (h ++ [ESys (CSend x (take n buff)) a]) (fun b e' =>
      (b = 0 /\ length (sent x ([ESys (CSend x (take n buff)) a] ++ e')) = n \/ b < 0) /\
      (exists ks, sent x ([ESys (CSend x (take n buff)) a] ++ e') = restarted buff ks) /\
      forall y, received y ([ESys (CSend x (take n buff)) a] ++ e') = [] /\
        (y <> x -> sent y ([ESys (CSend x (take n buff)) a] ++ e') = []))).
  { intros v Hv Ha. apply wp_ret. rewrite app_nil_r. setoid_rewrite Hev.
    replace (Z.to_nat (a_ret a)) with 0%nat by lia.
    split_and!; [by right|exists []; by case_decide|]. intros y. split; [done|by case_decide]. }
  destruct (Z.eqb_spec (a_ret a) 0) as [H0|H0]; [apply Hstop; unfold EPIPE; lia|].
  unfold SOCKET_ERROR. destruct (Z.eqb_spec (a_ret a) (-1)) as [H1|H1].
  { destruct Hl as [[_ He]|Hl]; [|lia]. apply Hstop; unfold SOCK_ERRNO; lia. }
  destruct Hl as [[? _]|Hr]; [lia|].
  eapply wp_mono; [apply IH; lia|]. intros v e (Hv & (ks & Hks) & Hy).
  setoid_rewrite sent_app. setoid_rewrite received_app. setoid_rewrite Hev.
  rewrite decide_True by done. split_and!.
  - destruct Hv as [[-> Hlen]|]; [left|by right]. rewrite length_app, length_take. lia.
  - exists ((Z.to_nat (a_ret a) `min` n)%nat :: ks). by rewrite Hks.
  - intros y. destruct (Hy y) as [-> Hs]. split; [done|]. intros Hyx.
    by rewrite decide_False, Hs.
Qed.

Lemma conn_send_wp c p buff h :
  priv c = Some p -> conn_type c = CONN_TYPE_TCP -> fd p <> INVALID_SOCKET ->
  wp (conn_send c buff) h (send_post (fd p) buff).
Proof using Hos.
  intros Hp Ht Hfd. unfold conn_send, with_priv. rewrite Ht, Hp. simpl.
  rewrite (proj2 (Z.eqb_neq _ _) Hfd). wp_steps.
  eapply wp_mono; [apply send_loop_spec; lia|].
  intros v e (Hv & Hks & Hy). wp_steps. unfold send_post. trace_simpl.
  split_and!; [done|done|]. intros y. by trace_simpl.
Qed.

End Transfer.

(** ** Descriptors *)

(** The descriptors a handle holds. *)
Definition held (p : conn_priv) : gset Z := ({[sock_fd p]} ∪ {[conn_fd p]}) ∖ {[INVALID_SOCKET]}.

(** After the history [h] the open descriptors are those of the handle and the
    others [F]; the handle holds no descriptor twice. *)
Record fds_inv (F : gset Z) (h : trace) (p : conn_priv) : Prop := {
  inv_open : open_fds h = F ∪ held p;
  inv_disj : F ## held p;
  inv_none : INVALID_SOCKET ∉ F;
  inv_distinct : sock_fd p = conn_fd p -> sock_fd p = INVALID_SOCKET;
}.

Lemma held_closed r : held (mkConnPriv INVALID_SOCKET INVALID_SOCKET INVALID_SOCKET r) = ∅.
Proof. unfold held. set_solver. Qed.

Lemma not_in_minus (x : Z) (S T : gset Z) : x ∉ S -> x ∉ S ∖ T.
Proof. set_solver. Qed.

Lemma minus_invalid (S : gset Z) : INVALID_SOCKET ∉ S -> S = S ∖ {[INVALID_SOCKET]}.
Proof. set_solver. Qed.

Lemma minus_held S p :
  INVALID_SOCKET ∉ S -> S ∖ {[conn_fd p]} ∖ {[sock_fd p]} = S ∖ held p.
Proof.
  intros HS. apply set_eq. intros x. unfold held.
  destruct (decide (x = INVALID_SOCKET)) as [->|]; set_solver.
Qed.

Lemma minus_valid (S : gset Z) x :
  INVALID_SOCKET ∉ S -> S ∖ {[x]} = S ∖ ({[x]} ∖ {[INVALID_SOCKET]}).
Proof.
  intros HS. apply set_eq. intros y.
  destruct (decide (y = INVALID_SOCKET)) as [->|]; set_solver.
Qed.

#[local] Hint Resolve not_in_minus minus_invalid minus_held minus_valid : core.

Definition accounted (F : gset Z) (h : trace) (c : conn_handle) : Prop :=
  exists p, priv c = Some p /\ fds_inv F h p.

Lemma accounted_same F h e c p p' :
  fds_inv F h p -> fds_run (open_fds h) e = open_fds h ->
  sock_fd p' = sock_fd p -> conn_fd p' = conn_fd p -> accounted F (h ++ e) (set_priv c (Some p')).
Proof.
  intros [Ho Hd Hn Hdi] He Hs Hc. exists p'. split; [done|].
  assert (Hh : held p' = held p) by (unfold held; by rewrite Hs, Hc).
  split; rewrite ?open_fds_app, ?Hh, ?Hs, ?Hc, ?He; done.
Qed.

Lemma accounted_open_sock F h e c p p' v :
  fds_inv F h p -> sock_fd p = INVALID_SOCKET -> v <> INVALID_SOCKET -> v ∉ F -> v ∉ held p ->
  fds_run (open_fds h) e = {[v]} ∪ open_fds h ->
  sock_fd p' = v -> conn_fd p' = conn_fd p -> accounted F (h ++ e) (set_priv c (Some p')).
Proof.
  intros [Ho Hd Hn Hdi] Hs Hv HvF Hvh He Hs' Hc'. exists p'. split; [done|].
  assert (Hh : held p' = {[v]} ∪ held p) by (unfold held in *; rewrite Hs, Hs', Hc'; set_solver).
  split; [rewrite open_fds_app, He, Ho, Hh|rewrite Hh|done|]; [set_solver..|].
  unfold held in *. rewrite Hs', Hc'. intros ->. set_solver.
Qed.

Lemma accounted_open_conn F h e c p p' v :
  fds_inv F h p -> conn_fd p = INVALID_SOCKET -> v <> INVALID_SOCKET -> v ∉ F -> v ∉ held p ->
  fds_run (open_fds h) e = {[v]} ∪ open_fds h ->
  conn_fd p' = v -> sock_fd p' = sock_fd p -> accounted F (h ++ e) (set_priv c (Some p')).
Proof.
  intros [Ho Hd Hn Hdi] Hs Hv HvF Hvh He Hs' Hc'. exists p'. split; [done|].
  assert (Hh : held p' = {[v]} ∪ held p) by (unfold held in *; rewrite Hs, Hs', Hc'; set_solver).
  split; [rewrite open_fds_app, He, Ho, Hh|rewrite Hh|done|]; [set_solver..|].
  unfold held in *. rewrite Hs', Hc'. intros Heq. rewrite Heq in Hvh. set_solver.
Qed.

Lemma fds_inv_quiet F h e p : fds_inv F h p -> (forall S, fds_run S e = S) -> fds_inv F (h ++ e) p.
Proof. intros [Ho Hd Hn Hdi] He. split; rewrite ?open_fds_app, ?He; done. Qed.

Section Descriptors.
Context {O : OS}.

Lemma close_fd_wp x h Q :
  (forall e, (forall S, INVALID_SOCKET ∉ S -> fds_run S e = S ∖ {[x]}) -> Q tt e) ->
  wp (close_fd x) h Q.
Proof using.
  intros HQ. unfold close_fd. destruct (Z.eqb_spec x INVALID_SOCKET) as [->|]; wp_steps; apply HQ.
  - intros S HS. trace_simpl. by apply minus_invalid.
  - intros S HS. by trace_simpl.
Qed.

(** A step whose calls neither open nor close a descriptor. *)
Lemma shutdown_fd_wp x h Q :
  (forall e, (forall S, fds_run S e = S) -> Q tt e) ->
  wp (if x =? INVALID_SOCKET then ret tt else do* sys (CShutdown x) in ret tt) h Q.
Proof using.
  intros HQ. destruct (x =? INVALID_SOCKET); wp_steps; apply HQ; intros S; by trace_simpl.
Qed.

Lemma conn_shutdown_wp c p h Q :
  priv c = Some p -> (forall e, (forall S, fds_run S e = S) -> Q tt e) ->
  wp (conn_shutdown c) h Q.
Proof using.
  intros Hp HQ. unfold conn_shutdown, with_priv. rewrite Hp. wp_steps.
  apply shutdown_fd_wp. intros e1 H1. wp_steps. apply shutdown_fd_wp. intros e2 H2. wp_steps.
  apply HQ. intros S. trace_simpl. by rewrite H1, H2.
Qed.

Lemma conn_close_wp c p h :
  priv c = Some p ->
  wp (conn_close c) h (fun c' e =>
    c' = set_priv c (Some (mkConnPriv INVALID_SOCKET INVALID_SOCKET INVALID_SOCKET (remote_addr p)))
    /\ forall S, INVALID_SOCKET ∉ S -> fds_run S e = S ∖ held p).
Proof using.
  intros Hp. unfold conn_close, with_priv. rewrite Hp. wp_steps.
  apply (conn_shutdown_wp c p); [done|]. intros e1 H1. wp_steps.
  apply close_fd_wp. intros e2 H2. wp_steps. apply close_fd_wp. intros e3 H3. wp_steps.
  split; [done|]. intros S HS. trace_simpl. rewrite H1, H2, H3 by auto. by apply minus_held.
Qed.

Lemma conn_drop_wp c p h :
  priv c = Some p ->
  wp (conn_drop c) h (fun c' e =>
    exists p', c' = set_priv c (Some p') /\ fd p' = INVALID_SOCKET /\ conn_fd p' = INVALID_SOCKET /\
      sock_fd p' = sock_fd p /\
      forall S, INVALID_SOCKET ∉ S -> fds_run S e = S ∖ ({[conn_fd p]} ∖ {[INVALID_SOCKET]})).
Proof using.
  intros Hp. unfold conn_drop, with_priv. rewrite Hp. wp_steps.
  destruct (Z.eqb_spec (conn_fd p) INVALID_SOCKET) as [Hc|Hc];
    [destruct (Z.eqb_spec (fd p) INVALID_SOCKET) as [Hf|Hf]|]; simpl; wp_steps.
  - exists p. split_and!; [|done..|].
    + destruct c; simpl in *; by subst.
    + intros S HS. trace_simpl. rewrite Hc, <- minus_valid by done. by apply minus_invalid.
  - apply close_fd_wp. intros e1 H1. wp_steps. eexists. split_and!; [done..|].
    intros S HS. trace_simpl. rewrite H1 by done. by apply minus_valid.
  - apply close_fd_wp. intros e1 H1. wp_steps. eexists. split_and!; [done..|].
    intros S HS. trace_simpl. rewrite H1 by done. by apply minus_valid.
Qed.

Lemma accounted_drop F h c p :
  priv c = Some p -> fds_inv F h p -> wp (conn_drop c) h (fun c' e => accounted F (h ++ e) c').
Proof using.
  intros Hp [Ho Hd Hn Hdi]. eapply wp_mono; [by apply conn_drop_wp|].
  intros c' e (p' & -> & _ & Hc' & Hs' & He). exists p'. split; [done|].
  assert (Hh : held p' = held p ∖ ({[conn_fd p]} ∖ {[INVALID_SOCKET]})).
  { unfold held. rewrite Hc', Hs'. clear - Hdi. apply set_eq. intros x.
    destruct (decide (x = INVALID_SOCKET)) as [->|]; [set_solver|].
    destruct (decide (sock_fd p = conn_fd p)) as [Heq|]; [rewrite <- Heq, Hdi by done|]; set_solver. }
  assert (HO : INVALID_SOCKET ∉ open_fds h) by (rewrite Ho; unfold held; set_solver).
  split; rewrite ?open_fds_app, ?Hh, ?He, ?Ho, ?Hc' by done; [| |done|congruence].
  - unfold held in *. clear - Hd. apply set_eq. intros x. set_solver.
  - clear - Hd. set_solver.
Qed.

Context {Hos : OSLaws O}.

Lemma set_options_wp x opts h Q :
  (forall r e, (forall S, fds_run S e = S) -> (forall v, r = Some v -> v < 0) -> Q r e) ->
  wp (set_options x opts) h Q.
Proof using Hos.
  revert h Q. induction opts as [|o opts IH]; intros h Q HQ; simpl; wp_steps; [by apply HQ|].
  pose proof (Hos h (CSetsockopt x o)) as Hl. simpl in Hl. unfold failed in Hl.
  unfold SOCKET_ERROR. destruct (Z.eqb_spec (a_ret (os_answer h (CSetsockopt x o))) (-1)).
  - wp_steps. apply HQ; [intros S; by trace_simpl|]. intros v [= <-]. unfold SOCK_ERRNO. lia.
  - apply IH. intros r e He Hr. apply HQ; [|done]. intros S. trace_simpl. apply He.
Qed.

(** A new descriptor is not one of the open ones. *)
Definition opens (c : call) : bool :=
  match c with CSocket _ | CAccept _ => true | _ => false end.

Lemma fresh_fd F h e p c :
  fds_inv F h p -> (forall S, fds_run S e = S) -> opens c = true ->
  let v := a_ret (os_answer (h ++ e) c) in
  v <> INVALID_SOCKET -> (v ∉ F) /\ (v ∉ held p) /\ (v ∉ open_fds h).
Proof using Hos.
  intros [Ho _ _ _] He Hc v Hne. pose proof (Hos (h ++ e) c) as Hl.
  assert (Hv : v ∉ open_fds h).
  { destruct c; try done; simpl in Hl; rewrite open_fds_app, He in Hl;
      by destruct Hl as [[? _]|[_ Hl]]. }
  rewrite Ho in *. set_solver.
Qed.

Lemma accounted_listen F h c p :
  priv c = Some p -> fds_inv F h p -> sock_fd p = INVALID_SOCKET ->
  wp (conn_listen c) h (fun res e => accounted F (h ++ e) res.2).
Proof using Hos.
  intros Hp Hi Hs. unfold conn_listen, with_priv. rewrite Hp.
  assert (Hquiet : forall e, (forall S, fds_run S e = S) -> accounted F (h ++ e) c).
  { intros e He. exists p. split; [done|]. by apply fds_inv_quiet. }
  case_match; wp_steps; [by apply Hquiet|].
  case_match; wp_steps; [by apply Hquiet|].
  set (v := a_ret _). destruct (Z.eqb_spec v INVALID_SOCKET) as [Ha|Ha].
  { wp_steps. apply (accounted_same _ _ _ _ p); simpl; [done| |by rewrite Hs|done].
    trace_simpl. by rewrite decide_True. }
  pose proof Ha as Hf. eapply fresh_fd in Hf as (HF & Hh & _); [|done..].
  assert (Hdone : forall e p', sock_fd p' = v -> conn_fd p' = conn_fd p ->
    fds_run (open_fds h) e = {[v]} ∪ open_fds h -> accounted F (h ++ e) (set_priv c (Some p'))).
  { intros. by eapply accounted_open_sock. }
  wp_steps. repeat (case_match; wp_steps); apply Hdone; try done; trace_simpl;
    by rewrite decide_False.
Qed.

Lemma accounted_connect F h c p addr port :
  priv c = Some p -> fds_inv F h p -> sock_fd p = INVALID_SOCKET ->
  wp (conn_connect c addr port) h (fun res e => accounted F (h ++ e) res.2).
Proof using Hos.
  intros Hp Hi Hs. unfold conn_connect, with_priv. rewrite Hp.
  assert (Hquiet : forall e, (forall S, fds_run S e = S) -> accounted F (h ++ e) c).
  { intros e He. exists p. split; [done|]. by apply fds_inv_quiet. }
  case_match; wp_steps; [by apply Hquiet|].
  case_match; wp_steps; [by apply Hquiet|].
  case_match; wp_steps; [by apply Hquiet|].
  rewrite <- app_assoc. set (v := a_ret _).
  destruct (Z.eqb_spec v INVALID_SOCKET) as [Ha|Ha].
  { wp_steps. apply (accounted_same _ _ _ _ p); simpl; [done| |by rewrite Hs|done].
    trace_simpl. by rewrite decide_True. }
  pose proof Ha as Hf. eapply fresh_fd in Hf as (HF & Hh & Ho); [|done..].
  assert (Hdone : forall e p', sock_fd p' = v -> conn_fd p' = conn_fd p ->
    fds_run (open_fds h) e = {[v]} ∪ open_fds h -> accounted F (h ++ e) (set_priv c (Some p'))).
  { intros. by eapply accounted_open_sock. }
  wp_steps. repeat (case_match; wp_steps); try (apply Hdone; try done; trace_simpl;
    by rewrite decide_False);
  (apply (accounted_same _ _ _ _ p); [done| |done|done]; trace_simpl;
    rewrite decide_False by done; set_solver).
Qed.

Lemma accounted_accept F h l lp c p :
  priv l = Some lp -> priv c = Some p -> fds_inv F h p -> conn_fd p = INVALID_SOCKET ->
  wp (conn_accept l c) h (fun res e => accounted F (h ++ e) res.2).
Proof using Hos.
  intros Hl Hp Hi Hs. unfold conn_accept, with_priv. rewrite Hp, Hl. wp_steps.
  set (v := a_ret _). destruct (Z.eqb_spec v INVALID_SOCKET) as [Ha|Ha].
  { wp_steps. apply (accounted_same _ _ _ _ p); simpl; [done| |done|by rewrite Hs].
    trace_simpl. by rewrite decide_True. }
  pose proof Ha as Hf. eapply fresh_fd in Hf as (HF & Hh & Ho); [|done..].
  wp_steps. apply set_options_wp. intros o e He _.
  case_match; wp_steps; (eapply (accounted_open_conn _ _ _ _ p _ v); try done; trace_simpl;
    rewrite decide_False by done; by trace_simpl; rewrite ?He).
Qed.

End Descriptors.

(** ** Effects *)

Section Effects.
Context `{OS} (c : conn_handle) (f : effect).

Lemma within_close_fd x : events (within f) (close_fd x).
Proof using. unfold close_fd. solve_events. Qed.
Hint Resolve within_close_fd : events.

Lemma within_conn_shutdown : events (within f) (conn_shutdown c).
Proof using. unfold conn_shutdown, with_priv. solve_events. Qed.
Hint Resolve within_conn_shutdown : events.

Lemma within_conn_close : events (within f) (conn_close c).
Proof using. unfold conn_close, with_priv. solve_events. Qed.

Lemma within_conn_drop : events (within f) (conn_drop c).
Proof using. unfold conn_drop, with_priv. solve_events. Qed.

Lemma within_conn_connect a p : events (within f) (conn_connect c a p).
Proof using. unfold conn_connect, with_priv. solve_events. Qed.

Lemma within_conn_listen : events (within f) (conn_listen c).
Proof using. unfold conn_listen, with_priv. solve_events. Qed.

Lemma within_recv_loop fuel x n r acc :
  eff_recv f x = true -> events (within f) (recv_loop fuel x n r acc).
Proof using.
  intros Hx. revert n r acc. induction fuel as [|fuel IH]; intros n r acc; simpl; solve_events.
Qed.

Lemma within_send_loop fuel g b n :
  (forall b a, within f (ESys (g b) a)) -> events (within f) (send_loop fuel g b n).
Proof using.
  intros Hg. revert n. induction fuel as [|fuel IH]; intros n; simpl; [solve_events|].
  destruct (decide (n = 0%nat)); [solve_events|].
  apply events_bind; [by apply events_sys|intros a]. solve_events.
Qed.

Lemma within_conn_recv n :
  (forall p, priv c = Some p -> eff_recv f (fd p) = true) -> events (within f) (conn_recv c n).
Proof using.
  intros Hr. unfold conn_recv, with_priv. case_match; [solve_events|].
  destruct (priv c) as [p|]; [|solve_events]. pose proof (within_recv_loop n (fd p) n 0 [] (Hr p eq_refl)).
  solve_events.
Qed.

Lemma within_conn_send b :
  (forall p, priv c = Some p -> eff_send f (fd p) = true) -> events (within f) (conn_send c b).
Proof using.
  intros Hs. unfold conn_send, with_priv. case_match; [solve_events|].
  destruct (priv c) as [p|]; [|solve_events].
  pose proof (within_send_loop (length b) (CSend (fd p)) b (length b) (fun _ _ => Hs p eq_refl)).
  solve_events.
Qed.

Lemma within_conn_send_to b a port :
  (forall p, priv c = Some p -> eff_dgram f (fd p) = true) ->
  events (within f) (conn_send_to c b a port).
Proof using.
  intros Hs. unfold conn_send_to, with_priv. case_match; [solve_events|].
  destruct (priv c) as [p|]; [|solve_events].
  pose proof (within_send_loop (length b) (fun b => CSendto (fd p) b a (htons port)) b (length b)
                (fun _ _ => Hs p eq_refl)).
  solve_events.
Qed.

Lemma within_conn_recv_any n :
  (forall p, priv c = Some p -> eff_recv f (fd p) = true) -> events (within f) (conn_recv_any c n).
Proof using.
  intros Hr. unfold conn_recv_any, with_priv.
  destruct (priv c) as [p|]; [|solve_events]. specialize (Hr p eq_refl). solve_events.
Qed.

End Effects.

#[export] Hint Resolve within_conn_shutdown within_conn_close within_conn_drop
  within_conn_connect within_conn_listen : events.

(** Transfers do not open or close anything. *)
Section Transfers.
Context `{OS} (c : conn_handle).

Lemma nofd_recv_loop fuel y n r acc : events nofd (recv_loop fuel y n r acc).
Proof using.
  revert n r acc. induction fuel as [|fuel IH]; intros n r acc; simpl; solve_events.
Qed.

Lemma nofd_send_loop fuel g b n :
  (forall b a, nofd (ESys (g b) a)) -> events nofd (send_loop fuel g b n).
Proof using.
  intros Hg. revert n. induction fuel as [|fuel IH]; intros n; simpl; [solve_events|].
  destruct (decide (n = 0%nat)); [solve_events|].
  apply events_bind; [by apply events_sys|intros a]. solve_events.
Qed.
Hint Resolve nofd_recv_loop : events.

Lemma nofd_conn_recv n : events nofd (conn_recv c n).
Proof using. unfold conn_recv, with_priv. solve_events. Qed.

Lemma nofd_conn_recv_any n : events nofd (conn_recv_any c n).
Proof using. unfold conn_recv_any, with_priv. solve_events. Qed.

Lemma nofd_conn_send b : events nofd (conn_send c b).
Proof using.
  unfold conn_send, with_priv. case_match; [solve_events|]. destruct (priv c) as [p|]; [|solve_events].
  pose proof (nofd_send_loop (length b) (CSend (fd p)) b (length b) (fun _ _ => I)). solve_events.
Qed.

Lemma nofd_conn_send_to b a port : events nofd (conn_send_to c b a port).
Proof using.
  unfold conn_send_to, with_priv. case_match; [solve_events|]. destruct (priv c) as [p|]; [|solve_events].
  pose proof (nofd_send_loop (length b) (fun b => CSendto (fd p) b a (htons port)) b (length b)
                (fun _ _ => I)).
  solve_events.
Qed.

End Transfers.

#[export] Hint Resolve nofd_conn_recv nofd_conn_recv_any nofd_conn_send nofd_conn_send_to : events.

(** A handle that does not use descriptor [x]. *)
Definition clear_of (x : Z) (c : conn_handle) : Prop :=
  exists p, priv c = Some p /\ sock_fd p <> x /\ conn_fd p <> x /\ fd p <> x.

Section Apart.
Context {O : OS}.

Lemma conn_close_clear c x h (S : gset Z) :
  clear_of x c -> x <> INVALID_SOCKET ->
  wp (conn_close c) h (fun c' e =>
    clear_of x c' /\
    (x ∈ S -> INVALID_SOCKET ∉ S -> x ∈ fds_run S e /\ INVALID_SOCKET ∉ fds_run S e) /\
    conn_type c' = conn_type c).
Proof using.
  intros (p & Hp & H1 & H2 & H3) Hx. eapply wp_mono; [by apply conn_close_wp|].
  intros c' e [-> He]. split_and!; [|intros HS Hi; rewrite He by done|done].
  - eexists. split; [done|]. simpl. by split_and!.
  - unfold held. set_solver.
Qed.

Context {Hos : OSLaws O}.

Lemma conn_send_to_wp c p b a port h :
  priv c = Some p ->
  wp (conn_send_to c b a port) h (fun r e =>
    (r = 0 /\ datagrams e = (if decide (b = []) then [] else [(fd p, b, a, htons port)]) \/
     r < 0 /\ datagrams e = [])).
Proof using Hos.
  intros Hp. unfold conn_send_to, with_priv. rewrite Hp.
  case_match; wp_steps; [right; unfold EPROTOTYPE; split; [lia|done]|].
  case_match; wp_steps; [right; unfold ENOTCONN; split; [lia|done]|].
  destruct (length b) as [|n] eqn:Hn; simpl; wp_steps.
  { left. apply nil_length_inv in Hn. by rewrite decide_True. }
  rewrite <- Hn, firstn_all.
  match goal with |- context [os_answer ?h1 ?c1] =>
    pose proof (Hos h1 c1) as Hl; set (an := os_answer h1 c1) in * end.
  assert (Hb : b <> []) by (by intros ->). simpl in Hl. unfold failed, SOCKET_ERROR in *.
  destruct (Z.eqb_spec (a_ret an) 0); [wp_steps; right; split; [unfold EPIPE; lia|]; lia|].
  destruct (Z.eqb_spec (a_ret an) (-1)) as [Hf|Hf]; wp_steps.
  - right. unfold SOCK_ERRNO. split; [lia|]. trace_simpl. by rewrite decide_True.
  - destruct Hl as [[? _]|Hl]; [lia|]. rewrite Hl, Nat2Z.id, Nat.sub_diag.
    destruct n; cbn [send_loop]; rewrite decide_True by done; wp_steps; left; split; [done| |done|];
      trace_simpl; by rewrite !decide_False.
Qed.

Lemma conn_recv_any_wp c p n h :
  priv c = Some p ->
  wp (conn_recv_any c n) h (fun '(r, d, from, c') e =>
    received (fd p) e = d /\ bytes_ok d /\
    (0 < r <= Z.of_nat n /\ Z.of_nat (length d) = r /\ is_Some from \/ r < 0 /\ d = []) /\
    exists q, c' = set_priv c (Some q) /\ fd q = fd p /\ sock_fd q = sock_fd p /\ conn_fd q = conn_fd p).
Proof using Hos.
  intros Hp. unfold conn_recv_any, with_priv. rewrite Hp. wp_steps.
  destruct (Z.eqb_spec (fd p) INVALID_SOCKET) as [Hf|Hf]; wp_steps.
  { split_and!; [done|by apply Forall_nil|right; unfold ENOTCONN; split; [lia|done]|by exists p]. }
  match goal with |- context [os_answer ?h1 ?c1] =>
    pose proof (Hos h1 c1) as Hl; set (a := os_answer h1 c1) in * end.
  simpl in Hl. unfold failed, SOCKET_ERROR in *.
  destruct (Z.eqb_spec (a_ret a) 0) as [H0|H0]; [|destruct (Z.eqb_spec (a_ret a) (-1)) as [H1|H1]];
    wp_steps; simpl.
  - split_and!; [|by apply Forall_nil|right; unfold EPIPE; split; [lia|done]|by exists p].
    trace_simpl. by rewrite decide_False by lia.
  - split_and!; [|by apply Forall_nil|right; unfold SOCK_ERRNO; split; [lia|done]|by exists p].
    trace_simpl. by rewrite decide_False by lia.
  - destruct Hl as [[? _]|(Hr & Hlen & Hb)]; [lia|].
    rewrite (proj2 (Z.ltb_lt _ _)) by lia. split_and!; [|done|left; split; [lia|split; [lia|done]]|].
    + trace_simpl. by rewrite decide_True by lia.
    + eexists. split; [done|]. done.
Qed.

Lemma conn_connect_clear c x addr port h :
  clear_of x c -> x <> INVALID_SOCKET -> x ∈ open_fds h -> INVALID_SOCKET ∉ open_fds h ->
  wp (conn_connect c addr port) h (fun '(r, c') e =>
    clear_of x c' /\ x ∈ open_fds (h ++ e) /\ (INVALID_SOCKET ∉ open_fds (h ++ e)) /\
    conn_type c' = conn_type c).
Proof using Hos.
  intros Hc Hx Ho Hno. pose proof Hc as (p & Hp & H1 & H2 & H3). unfold conn_connect, with_priv. rewrite Hp.
  case_match; wp_steps; [by rewrite app_nil_r|].
  case_match; wp_steps; [by rewrite open_fds_app; trace_simpl|].
  case_match; wp_steps; [by rewrite open_fds_app; trace_simpl|].
  rewrite <- app_assoc. match goal with |- context [os_answer ?h1 (CSocket true)] =>
    pose proof (Hos h1 (CSocket true)) as Hl; set (v := a_ret (os_answer h1 (CSocket true))) in * end.
  cbn [legal] in Hl. fold v in Hl. rewrite open_fds_app in Hl. trace_simpl.
  assert (Hv : v = -1 \/ v <> -1 /\ (v ∉ open_fds h) /\ v <> x).
  { destruct Hl as [[? _]|[? Hl]]; [by left|right]. split_and!; [lia|done|]. intros ->. done. }
  assert (Hclear : forall q, (sock_fd q = v \/ sock_fd q = -1) -> conn_fd q = conn_fd p ->
            (fd q = fd p \/ fd q = v) -> clear_of x (set_priv c (Some q))).
  { intros q Hq1 Hq2 Hq3. exists q. unfold INVALID_SOCKET in *. split; [done|].
    split_and!; [|congruence|]; destruct Hv as [Hv|(_ & _ & Hv)]; destruct Hq1, Hq3; congruence. }
  clear Hl. unfold INVALID_SOCKET in *.
  destruct (Z.eqb_spec v (-1)) as [E|E].
  { wp_steps. split_and!; [apply Hclear; auto| | |done]; trace_simpl; by rewrite decide_True. }
  destruct Hv as [?|(_ & Hv & Hvx)]; [done|].
  wp_steps. repeat (case_match; wp_steps);
    (split_and!; [apply Hclear; auto| | |done]; trace_simpl; rewrite decide_False by done;
     clear - Ho Hno Hv Hvx E Hx; set_solver).
Qed.

End Apart.

(** ** Properties *)

(** Entered with locks of lower rank only, every operation on a connection
    takes and releases locks in stack order and in the order of [rank] on every
    path, error paths included, whatever the system answers: it never takes a
    lock it holds and leaves none behind. *)
Theorem conn_lock_discipline `{OS} (c acc : conn_handle) (s : lockset) :
  below (conn_mutex c) s ->
  locks s (conn_init c) s /\ locks s (conn_free c) s /\ locks s (conn_listen c) s /\
  locks s (conn_accept c acc) s /\ (forall a p, locks s (conn_connect c a p) s) /\
  (forall n, locks s (conn_recv c n) s) /\ (forall n, locks s (conn_recv_any c n) s) /\
  (forall b, locks s (conn_send c b) s) /\ (forall b a p, locks s (conn_send_to c b a p) s) /\
  (forall t, locks s (conn_set_timeout c t) s) /\ locks s (conn_drop c) s /\
  locks s (conn_close c) s /\ locks s (conn_shutdown c) s /\ locks s (conn_in_use c) s.
Proof. intros Hc. split_and!; eauto with locks. Qed.

(** A connected TCP handle for the examples. *)
Definition tcp_conn (id : nat) (x : Z) : conn_handle :=
  mkConn id None None CONN_TYPE_TCP (Some (mkConnPriv x INVALID_SOCKET x sockaddr_zero)).

Lemma conn_lock_discipline_witness :
  locks [] (conn_close (H := Scripted []) (tcp_conn 0 5)) [].
Proof.
  apply (conn_lock_discipline (H := Scripted []) (tcp_conn 0 5) (tcp_conn 1 6) []);
    apply below_nil.
Defined.

(** C21. [conn_recv] on a connected TCP handle always returns.  It returns the
    count asked for with exactly the bytes the kernel delivered, in order and
    nothing lost between two [recv] calls, or a negative error with fewer. *)
Theorem conn_recv_exact {O : OS} {Hos : OSLaws O} c p n h :
  priv c = Some p -> conn_type c = CONN_TYPE_TCP -> fd p <> INVALID_SOCKET ->
  exists r data e, conn_recv c n h = (Some (r, data), e) /\
    received (fd p) e = data /\ bytes_ok data /\
    (r = Z.of_nat n /\ length data = n \/ r < 0 /\ (length data < n)%nat).
Proof.
  intros Hp Ht Hf. destruct (conn_recv_wp c p n h Hp Ht Hf) as ([r d] & e & Hrun & Hpost).
  exists r, d, e. unfold recv_post in Hpost. simpl in Hpost. naive_solver.
Qed.

Lemma conn_recv_exact_witness :
  exists r data e,
    conn_recv (H := Scripted [delivers [1; 2]; delivers [3]]) (tcp_conn 0 5) 3 [] = (Some (r, data), e) /\
    received 5 e = data /\ bytes_ok data /\
    (r = 3 /\ length data = 3%nat \/ r < 0 /\ (length data < 3)%nat).
Proof.
  apply (conn_recv_exact (O := Scripted [delivers [1; 2]; delivers [3]]) (tcp_conn 0 5)
           (mkConnPriv 5 INVALID_SOCKET 5 sockaddr_zero) 3 []); [reflexivity|reflexivity|].
  simpl. unfold INVALID_SOCKET. lia.
Defined.

(** A blocking socket takes the whole buffer of a [send] or fails. *)
Class WholeSends (O : OS) : Prop :=
  whole_sends : forall h x b, let a := os_answer h (CSend x b) in
    0 < a_ret a -> a_ret a = Z.of_nat (length b).

Lemma send_whole {O : OS} {Hos : OSLaws O} {Hw : WholeSends O} x buff h :
  wp (send_loop (length buff) (CSend x) buff (length buff)) h (fun r e =>
    (r = 0 /\ sent x e = buff \/ r < 0 /\ sent x e = []) /\
    forall y, received y e = [] /\ (y <> x -> sent y e = [])).
Proof.
  destruct (length buff) as [|n] eqn:Hn.
  { apply nil_length_inv in Hn as ->. apply wp_ret. by split; [left|]. }
  simpl. rewrite <- Hn, firstn_all. wp_steps.
  pose proof (Hos h (CSend x buff)) as Hl. pose proof (Hw h x buff) as Hwb. simpl in Hl, Hwb.
  set (a := os_answer h (CSend x buff)) in *. unfold failed in Hl.
  assert (Hev : forall y, sent y [ESys (CSend x buff) a] =
                  if decide (y = x) then take (Z.to_nat (a_ret a)) buff else []).
  { intros y. by trace_simpl. }
  assert (Hoth : forall y, received y [ESys (CSend x buff) a] = [] /\
                           (y <> x -> sent y [ESys (CSend x buff) a] = [])).
  { intros y. split; [done|]. intros Hy. by rewrite Hev, decide_False. }
  specialize (Hev x). rewrite decide_True in Hev by done. unfold SOCKET_ERROR.
  destruct (Z.eqb_spec (a_ret a) 0) as [H0|H0];
    [|destruct (Z.eqb_spec (a_ret a) (-1)) as [H1|H1]].
  - wp_steps. rewrite app_nil_r, Hev, H0. split; [by right|done].
  - wp_steps. rewrite app_nil_r, Hev, H1. split; [right; unfold SOCK_ERRNO; split; [lia|done]|done].
  - assert (Hr : a_ret a = Z.of_nat (length buff)) by (apply Hwb; lia).
    rewrite Hr, Nat2Z.id, firstn_all in Hev. rewrite Hr, Nat2Z.id, Nat.sub_diag.
    destruct n; cbn [send_loop]; rewrite decide_True by done; wp_steps; rewrite app_nil_r; auto.
Qed.

Lemma conn_send_whole_wp {O : OS} {Hos : OSLaws O} {Hw : WholeSends O} c p buff h :
  priv c = Some p -> conn_type c = CONN_TYPE_TCP -> fd p <> INVALID_SOCKET ->
  wp (conn_send c buff) h (fun r e =>
    (r = 0 /\ sent (fd p) e = buff \/ r < 0 /\ sent (fd p) e = []) /\
    forall y, received y e = [] /\ (y <> fd p -> sent y e = [])).
Proof.
  intros Hp Ht Hf. unfold conn_send, with_priv. rewrite Ht, Hp. simpl.
  rewrite (proj2 (Z.eqb_neq _ _) Hf). wp_steps.
  eapply wp_mono; [apply send_whole|]. intros r e [Hr Hy]. wp_steps. trace_simpl.
  split; [done|]. intros y. by trace_simpl.
Qed.

(** When a send takes its whole buffer, as on a blocking socket, a
    successful [conn_send] has put exactly the buffer on the wire, a failed one
    nothing. *)
Theorem conn_send_whole {O : OS} {Hos : OSLaws O} {Hw : WholeSends O} c p buff h :
  priv c = Some p -> conn_type c = CONN_TYPE_TCP -> fd p <> INVALID_SOCKET ->
  exists r e, conn_send c buff h = (Some r, e) /\
    (r = 0 /\ sent (fd p) e = buff \/ r < 0 /\ sent (fd p) e = []).
Proof.
  intros Hp Ht Hf. destruct (conn_send_whole_wp c p buff h Hp Ht Hf) as (r & e & Hr & Hs & _).
  by exists r, e.
Qed.

(** A system whose sends take everything. *)
Definition SendAll : OS := fun h c =>
  match c with CSend _ b => returns (Z.of_nat (length b)) | _ => os_answer (OS := Scripted []) h c end.

#[export] Instance SendAll_laws : OSLaws SendAll.
Proof.
  intros h c. destruct c; try apply (Scripted_laws []). simpl. right. lia.
Qed.
#[export] Instance SendAll_whole : WholeSends SendAll.
Proof. intros h x b. done. Qed.

(** A system whose peers say [msg] and then close; sends are whole. *)
Definition Peer (msg : list Z) : OS := fun h c =>
  match c with
  | CRecv x n | CRecvfrom x n => delivers (take n (drop (length (received x h)) msg))
  | _ => os_answer (OS := SendAll) h c
  end.

Lemma Peer_laws msg : bytes_ok msg -> OSLaws (Peer msg).
Proof.
  intros Hm h c. destruct c; try apply SendAll_laws; right; simpl;
    rewrite !length_take, Nat2Z.id; (split_and!; [lia|lia|done|]); by apply Forall_take, Forall_drop.
Qed.
#[export] Instance Peer_whole msg : WholeSends (Peer msg).
Proof. intros h x b. done. Qed.
#[export] Instance Peer_alloc msg : AllocOK (Peer msg).
Proof.
  intros h. unfold os_answer, Peer, SendAll, Scripted, os_answer.
  case_decide; [destruct (length _)|]; done.
Qed.

Lemma conn_send_whole_witness :
  exists r e, conn_send (H := SendAll) (tcp_conn 0 5) [1; 2; 3] [] = (Some r, e) /\
    (r = 0 /\ sent 5 e = [1; 2; 3] \/ r < 0 /\ sent 5 e = []).
Proof.
  apply (conn_send_whole (O := SendAll) (tcp_conn 0 5)
           (mkConnPriv 5 INVALID_SOCKET 5 sockaddr_zero) [1; 2; 3] []); [reflexivity|reflexivity|].
  simpl. unfold INVALID_SOCKET. lia.
Defined.

(** After a partial send the loop starts again at the first byte of the
    buffer: [conn_send] reports success, with the right number of bytes, but the
    peer receives the start of the buffer twice and never its end. *)
Theorem conn_send_partial_restarts :
  exists O : OS, OSLaws O /\
    let res := conn_send (tcp_conn 0 5) (str "hello world!") [] in
    fst res = Some 0 /\ sent 5 (snd res) = str "hello wohell".
Proof. exists (Scripted [returns 8; returns 4]). split; [apply _|by vm_compute]. Qed.



(** Connecting a handle that already holds a socket overwrites the record of
    it: afterwards both sockets are open and the handle knows only the new one,
    so no later [conn_close] can close the old one. *)
Theorem conn_connect_leaks_socket :
  exists O : OS, OSLaws O /\
    let first := conn_connect (tcp_conn 0 (-1)) (str "10.0.0.1") (str "5200") [] in
    exists c1, fst first = Some (0, c1) /\
    let second := conn_connect c1 (str "10.0.0.2") (str "5200") (snd first) in
    exists c2 p2, fst second = Some (0, c2) /\ priv c2 = Some p2 /\
      open_fds (snd first ++ snd second) = {[3; 4]} /\ held p2 = {[4]}.
Proof.
  exists (Scripted [returns 0; returns 0; returns 3; returns 0; returns 0; returns 0;
                    returns 0; returns 0; returns 4; returns 0; returns 0; returns 0]).
  split; [apply _|]. exists (tcp_conn 0 3). split; [vm_compute; reflexivity|].
  exists (tcp_conn 0 4), (mkConnPriv 4 (-1) 4 sockaddr_zero).
  split; [vm_compute; reflexivity|]. split; [reflexivity|].
  split; apply (bool_decide_unpack _); vm_compute; exact I.
Qed.

(** By the number of digits. *)
Lemma port_text p :
  is_u16 p -> conn_port_to_str p = dec p ++ [0] /\ (length (conn_port_to_str p) <= 6)%nat /\
              dec_value (removelast (conn_port_to_str p)) = p.
Proof.
  unfold is_u16. change (2 ^ 16) with 65536. intros Hp.
  unfold conn_port_to_str, dec. cbn [port_digits].
  assert (H5 : p / 10 / 10 / 10 / 10 / 10 = 0) by div_lia.
  rewrite H5. cbn [Z.eqb].
  destruct (Z.eqb_spec (p / 10) 0) as [H1|H1];
  [|destruct (Z.eqb_spec (p / 10 / 10) 0) as [H2|H2];
  [|destruct (Z.eqb_spec (p / 10 / 10 / 10) 0) as [H3|H3];
  [|destruct (Z.eqb_spec (p / 10 / 10 / 10 / 10) 0) as [H4|H4]]]];
  match goal with |- context [port_cases (Z.to_nat ?n)] =>
     let k := eval vm_compute in (Z.to_nat n) in change (Z.to_nat n) with k end;
  cbn [port_cases Z.of_nat Pos.of_succ_nat Pos.succ];
  change (10 ^ 1) with 10; change (10 ^ 2) with 100; change (10 ^ 3) with 1000;
  change (10 ^ 4) with 10000.
  all: (split_and!; [|cbn; lia|cbn [dec_value fold_left removelast app]; Z.div_mod_to_equations; lia]).
  all: cbn [dec_go app].
  all: repeat match goal with |- context [?a <? ?b] =>
    first [rewrite (proj2 (Z.ltb_lt a b)) by div_lia | rewrite (proj2 (Z.ltb_ge a b)) by div_lia] end.
  all: cbn [app]; repeat (apply (f_equal2 cons); [div_lia|]); reflexivity.
Qed.

(** The text of a 16-bit port is its decimal numeral with the terminating
    NUL: it fits the six bytes of the caller's array for every port, has no
    leading zero, and reads back as the port. *)
Theorem conn_port_to_str_decimal p :
  is_u16 p ->
  conn_port_to_str p = dec p ++ [0] /\ (length (conn_port_to_str p) <= 6)%nat /\
  dec_value (removelast (conn_port_to_str p)) = p.
Proof. apply port_text. Qed.

Lemma conn_port_to_str_decimal_witness :
  conn_port_to_str 5198 = str "5198" ++ [0] /\ (length (conn_port_to_str 5198) <= 6)%nat /\
  dec_value (removelast (conn_port_to_str 5198)) = 5198.
Proof. apply (conn_port_to_str_decimal 5198). unfold is_u16. lia. Defined.

Lemma htons_range x : is_u16 (htons x).
Proof.
  unfold htons, is_u16. change 255 with (Z.ones 8). rewrite !Z.land_ones by lia. rewrite Z.lor_comm.
  pose proof (Z.mod_pos_bound x (2 ^ 8)). pose proof (Z.mod_pos_bound (Z.shiftr x 8) (2 ^ 8)).
  rewrite lor_shiftl_add by lia. lia.
Qed.

(** For an IPv4 peer the port is written as it lies in memory, in network
    byte order, without [ntohs]: the text names the byte-swapped port. *)
Theorem conn_get_remote_addr_swapped ntop6 c p port :
  priv c = Some p -> ss_family (remote_addr p) = AF_INET -> is_u16 port ->
  s_port (remote_addr p) = htons port ->
  conn_get_remote_addr ntop6 c =
    Some (dotted (s_addr (remote_addr p)) ++ str ":" ++ dec (htons port) ++ [0]).
Proof.
  intros Hp Hf Hr Hs. unfold conn_get_remote_addr. rewrite Hp, Hf, Hs. simpl.
  rewrite (proj1 (port_text (htons port) (htons_range port))). reflexivity.
Qed.

Lemma conn_get_remote_addr_swapped_witness :
  conn_get_remote_addr (fun _ => [])
    (mkConn 0 None None 0 (Some (mkConnPriv (-1) 7 7 (mkSockaddr AF_INET 16777343 (htons 8100))))) =
  Some (str "127.0.0.1:42015" ++ [0]).
Proof.
  apply (conn_get_remote_addr_swapped (fun _ => [])
    (mkConn 0 None None 0 (Some (mkConnPriv (-1) 7 7 (mkSockaddr AF_INET 16777343 (htons 8100)))))
    (mkConnPriv (-1) 7 7 (mkSockaddr AF_INET 16777343 (htons 8100))) 8100);
    [reflexivity|reflexivity|unfold is_u16; lia|reflexivity].
Defined.
