(* ===== verification/ConnWin.v ===== *)
(** * Network connections on Windows (src/src/conn.c)

    The branches of [conn.c] that are compiled on Windows: starting and cleaning
    up Winsock, keeping accepted connections alive, closing the socket where
    [conn_shutdown] only shuts it down elsewhere, and the errors.  The operations
    without such branches are those of Conn.v, and so are [conn_recv],
    [conn_recv_any], [conn_send] and [conn_send_to], which treat an error like the
    POSIX code once it is translated: [Winsock] is the system these see.

    The theorems show that the system keeps the laws of the POSIX one, so that
    what Conn.v shows of the transfers holds on Windows too, that a connection
    gives back its sockets and its use of Winsock, whatever was done with it, and
    that [conn_shutdown] leaves the number of a closed socket in use. *)

From S2P Require Import Prelude Sys Mutex MutexWin WsaErrno Conn.

(** ** Errors *)

Definition WSAESHUTDOWN : Z := 10058.

(** [SOCK_ERRNO] after a call that failed with [last]. *)
Definition sock_errno (last : Z) : Z := - default last (conn_wsa_errno last).

(** What the transfers make of it. *)
Definition transfer_errno (last : Z) : Z :=
  let ret := sock_errno last in if ret =? - WSAESHUTDOWN then - Sys.EPIPE else ret.

(** Winsock as the code sees it: [raw] answers with the errors of Winsock. *)
Definition Winsock (raw : OS) : OS := fun h c =>
  let a := os_answer (OS := raw) h c in
  mkAns (a_ret a)
        (match c with
         | CRecv _ _ | CRecvfrom _ _ | CSend _ _ | CSendto _ _ _ _ => - transfer_errno (a_errno a)
         | _ => - sock_errno (a_errno a)
         end)
        (a_data a) (a_family a) (a_addr a) (a_port a).

Module ConnWin.

(** ** Operations *)

Section Operations.
Context `{OS}.

Definition conn_init (c : conn_handle) : IO (Z * conn_handle) :=
  let* p :=
    match priv c with
    | Some p => ret (Some p)
    | None => let* a := sys CAlloc in
              ret (if a_ret a =? 0 then None else Some conn_priv_zero)
    end in
  match p with
  | None => ret (- Sys.ENOMEM, c)
  | Some p =>
      let* a := sys CWSAStartup in
      if negb (a_ret a =? 0) then ret (- a_ret a, set_priv c None) else
      let* (r, _) := MutexWin.mutex_init (bool_decide (is_Some (priv c))) in
      if r <? 0 then do* sys CWSACleanup in ret (r, set_priv c None)
      else ret (0, set_priv c (Some (mkConnPriv INVALID_SOCKET INVALID_SOCKET INVALID_SOCKET
                                                (remote_addr p))))
  end.

(** The socket is closed as well, to end an [accept] that is waiting. *)
Definition conn_shutdown (c : conn_handle) : IO conn_handle :=
  with_priv c (fun p =>
  do* mutex_lock_shared (conn_mutex c) in
  do* (if conn_fd p =? INVALID_SOCKET then ret tt
       else do* sys (CShutdown (conn_fd p)) in ret tt) in
  do* (if sock_fd p =? INVALID_SOCKET then ret tt
       else do* sys (CShutdown (sock_fd p)) in do* sys (CClose (sock_fd p)) in ret tt) in
  do* mutex_unlock_shared (conn_mutex c) in
  ret (set_priv c (Some (set_sock_fd p INVALID_SOCKET)))).

Definition conn_close (c : conn_handle) : IO conn_handle :=
  let* c := conn_shutdown c in
  with_priv c (fun p =>
  do* mutex_lock (conn_mutex c) in
  do* close_fd (conn_fd p) in
  do* close_fd (sock_fd p) in
  do* mutex_unlock (conn_mutex c) in
  ret (set_priv c (Some (mkConnPriv INVALID_SOCKET INVALID_SOCKET INVALID_SOCKET
                                    (remote_addr p))))).

Definition conn_free (c : conn_handle) : IO conn_handle :=
  match priv c with
  | None => ret c
  | Some _ =>
      let* c := conn_close c in
      do* sys CWSACleanup in
      do* MutexWin.mutex_free true in
      ret (set_priv c None)
  end.

Definition conn_accept (c accepted : conn_handle) : IO (Z * conn_handle) :=
  with_priv accepted (fun ap =>
  with_priv c (fun p =>
  do* mutex_lock_shared (conn_mutex c) in
  let* a := sys (CAccept (sock_fd p)) in
  do* mutex_unlock_shared (conn_mutex c) in
  if a_ret a =? INVALID_SOCKET then
    ret (SOCK_ERRNO a, set_priv accepted (Some (set_conn_fd ap (a_ret a)))) else
  let ap1 := set_remote_addr (set_conn_fd ap (a_ret a))
                             (mkSockaddr (a_family a) (a_addr a) (a_port a)) in
  let* o := sys (CWSAIoctl (a_ret a) (600 * 1000) (12 * 1000)) in
  if negb (a_ret o =? 0) then ret (SOCK_ERRNO o, set_priv accepted (Some ap1)) else
  do* mutex_lock (conn_mutex accepted) in
  do* mutex_unlock (conn_mutex accepted) in
  ret (0, set_priv accepted (Some (set_fd ap1 (a_ret a)))))).

Definition conn_set_timeout (c : conn_handle) (msec : Z) : IO Z :=
  with_priv c (fun p =>
  do* mutex_lock_shared (conn_mutex c) in
  let* a := sys (CSetsockopt (sock_fd p) (SO_RCVTIMEO_win msec)) in
  do* mutex_unlock_shared (conn_mutex c) in
  ret (if a_ret a =? SOCKET_ERROR then SOCK_ERRNO a else a_ret a)).

(** ** Histories of a connection *)

(** The operations on one connection; the slot that one fills is empty, as
    wherever the proxy calls it. *)
Inductive wop : Type :=
| WListen | WConnect (addr port : list Z) | WAccept (l : conn_handle) | WTimeout (msec : Z)
| WDrop | WShutdown | WClose.

Definition wop_run (o : wop) (c : conn_handle) : IO conn_handle :=
  with_priv c (fun p =>
  match o with
  | WListen => if sock_fd p =? INVALID_SOCKET then let* (_, c) := conn_listen c in ret c else ret c
  | WConnect a s => if sock_fd p =? INVALID_SOCKET then let* (_, c) := conn_connect c a s in ret c else ret c
  | WAccept l =>
      if (conn_fd p =? INVALID_SOCKET) && bool_decide (is_Some (priv l)) then
        let* (_, c) := conn_accept l c in ret c
      else ret c
  | WTimeout m => do* conn_set_timeout c m in ret c
  | WDrop => conn_drop c
  | WShutdown => conn_shutdown c
  | WClose => conn_close c
  end).

Fixpoint wops_run (os : list wop) (c : conn_handle) : IO conn_handle :=
  match os with
  | [] => ret c
  | o :: os => let* c := wop_run o c in wops_run os c
  end.

End Operations.
(** ** Lemmas *)

Lemma sock_errno_neg last : 0 < last -> sock_errno last < 0.
Proof. intros Hl. unfold sock_errno. destruct (wsa_errno_positive last) as (e & -> & He). simpl. lia. Qed.

Lemma transfer_errno_neg last : 0 < last -> transfer_errno last < 0.
Proof.
  intros Hl%sock_errno_neg. unfold transfer_errno. destruct (_ =? _); [unfold Sys.EPIPE; lia|done].
Qed.

(** The times Winsock has been started and not cleaned up. *)
Definition startup_step (ev : event) : Z :=
  match ev with
  | ESys CWSAStartup a => if a_ret a =? 0 then 1 else 0
  | ESys CWSACleanup _ => -1
  | _ => 0
  end.
Definition startups (e : trace) : Z := foldr (fun ev n => startup_step ev + n) 0 e.

Lemma startups_app e e' : startups (e ++ e') = startups e + startups e'.
Proof. induction e as [|ev e IH]; [done|]. simpl. rewrite IH. lia. Qed.

(** A program that does not start or clean up Winsock. *)
Definition apart (ev : event) : Prop :=
  match ev with ESys CWSAStartup _ | ESys CWSACleanup _ => False | _ => True end.

Lemma apart_startups e : Forall apart e -> startups e = 0.
Proof. induction 1 as [|ev e Hev _ IH]; [done|]. simpl. rewrite IH. by destruct ev as [[] ?| |]. Qed.

Section Resources.
Context {O : OS}.

Lemma apart_listen c : events apart (Conn.conn_listen c).
Proof using. unfold conn_listen, with_priv. solve_events. Qed.
Lemma apart_connect c a s : events apart (Conn.conn_connect c a s).
Proof using. unfold conn_connect, with_priv. solve_events. Qed.
Lemma apart_drop c : events apart (Conn.conn_drop c).
Proof using. unfold conn_drop, with_priv, close_fd. solve_events. Qed.
Lemma apart_timeout c m : events apart (conn_set_timeout c m).
Proof using. unfold conn_set_timeout, with_priv. solve_events. Qed.
Lemma apart_accept l c : events apart (conn_accept l c).
Proof using. unfold conn_accept, with_priv. solve_events. Qed.
Lemma apart_shutdown c : events apart (conn_shutdown c).
Proof using. unfold conn_shutdown, with_priv. solve_events. Qed.
Hint Resolve apart_listen apart_connect apart_drop apart_timeout apart_accept apart_shutdown : events.
Lemma apart_close c : events apart (conn_close c).
Proof using. unfold conn_close, with_priv, close_fd. solve_events. Qed.
Hint Resolve apart_close : events.

Lemma apart_run o c : events apart (wop_run o c).
Proof using. unfold wop_run, with_priv. destruct o; solve_events. Qed.

(** A step that closes the socket, if there is one. *)
Lemma shutdown_sock_wp x h Q :
  (forall e, (forall S, INVALID_SOCKET ∉ S -> fds_run S e = S ∖ {[x]}) -> Q tt e) ->
  wp (if x =? INVALID_SOCKET then ret tt else do* sys (CShutdown x) in do* sys (CClose x) in ret tt) h Q.
Proof using.
  intros HQ. destruct (Z.eqb_spec x INVALID_SOCKET) as [->|]; wp_steps; apply HQ; intros S HS; trace_simpl; [|done].
  by apply minus_invalid.
Qed.

Lemma win_shutdown_wp c p h :
  priv c = Some p ->
  wp (conn_shutdown c) h (fun c' e => c' = set_priv c (Some (set_sock_fd p INVALID_SOCKET)) /\
    forall S, INVALID_SOCKET ∉ S -> fds_run S e = S ∖ {[sock_fd p]}).
Proof using.
  intros Hp. unfold conn_shutdown, with_priv. rewrite Hp. wp_steps. apply shutdown_fd_wp. intros e1 H1. wp_steps.
  apply shutdown_sock_wp. intros e2 H2. wp_steps. split; [done|]. intros S HS. trace_simpl. by rewrite H1, H2.
Qed.

Lemma win_accounted_shutdown F h c p :
  priv c = Some p -> fds_inv F h p -> wp (conn_shutdown c) h (fun c' e => accounted F (h ++ e) c').
Proof using.
  intros Hp [Ho Hd Hn Hdi]. eapply wp_mono; [by apply win_shutdown_wp|]. intros c' e [-> He].
  exists (set_sock_fd p INVALID_SOCKET). split; [done|].
  assert (Hh : held (set_sock_fd p INVALID_SOCKET) = held p ∖ {[sock_fd p]}).
  { unfold held. simpl. clear - Hdi. apply set_eq. intros x. destruct (decide (x = INVALID_SOCKET)) as [->|]; [set_solver|].
    destruct (decide (sock_fd p = conn_fd p)) as [Heq|]; [rewrite <- Heq, Hdi by done|]; set_solver. }
  assert (HO : INVALID_SOCKET ∉ open_fds h) by (rewrite Ho; unfold held; set_solver).
  split; rewrite ?open_fds_app, ?Hh, ?He, ?Ho by done; [|set_solver|done|done].
  clear - Hd Hn Hh. unfold held in *. apply set_eq. intros x. destruct (decide (x = INVALID_SOCKET)) as [->|]; set_solver.
Qed.

Lemma win_close_wp c p h :
  priv c = Some p ->
  wp (conn_close c) h (fun c' e =>
    c' = set_priv c (Some (mkConnPriv INVALID_SOCKET INVALID_SOCKET INVALID_SOCKET (remote_addr p)))
    /\ forall S, INVALID_SOCKET ∉ S -> fds_run S e = S ∖ held p).
Proof using.
  intros Hp. unfold conn_close. wp_steps. eapply wp_mono; [by apply win_shutdown_wp|]. intros c1 e1 [-> H1].
  unfold with_priv. cbn [priv set_priv]. wp_steps. apply close_fd_wp. intros e2 H2. wp_steps.
  apply close_fd_wp. intros e3 H3. wp_steps. split; [done|]. intros S HS. trace_simpl. simpl in H2, H3.
  rewrite H1, H2, H3 by auto using not_in_minus. rewrite <- (minus_held S p) by done.
  apply set_eq. intros x. destruct (decide (x = INVALID_SOCKET)) as [->|]; set_solver.
Qed.

Lemma win_accounted_close F h c p :
  priv c = Some p -> fds_inv F h p -> wp (conn_close c) h (fun c' e => accounted F (h ++ e) c' /\ open_fds (h ++ e) = F).
Proof using.
  intros Hp [Ho Hd Hn Hdi]. eapply wp_mono; [by apply win_close_wp|]. intros c' e [-> He].
  assert (HF : open_fds (h ++ e) = F).
  { rewrite open_fds_app, He, Ho; [set_solver|]. rewrite Ho. unfold held. set_solver. }
  split; [|done]. eexists. split; [done|]. split; rewrite ?HF, ?held_closed; set_solver.
Qed.

Context {Hos : OSLaws O}.

Lemma win_accounted_accept F h l lp c p :
  priv l = Some lp -> priv c = Some p -> fds_inv F h p -> conn_fd p = INVALID_SOCKET ->
  wp (conn_accept l c) h (fun res e => accounted F (h ++ e) res.2).
Proof using Hos.
  intros Hl Hp Hi Hs. unfold conn_accept, with_priv. rewrite Hp, Hl. wp_steps.
  set (v := a_ret _). destruct (Z.eqb_spec v INVALID_SOCKET) as [Ha|Ha].
  { wp_steps. apply (accounted_same _ _ _ _ p); simpl; [done| |done|by rewrite Hs].
    trace_simpl. by rewrite decide_True. }
  pose proof Ha as Hf. eapply fresh_fd in Hf as (HF & Hh & Ho); [|done..].
  wp_steps. case_match; wp_steps; (eapply (accounted_open_conn _ _ _ _ p _ v); try done; trace_simpl;
    rewrite decide_False by done; by trace_simpl).
Qed.

Lemma win_accounted_run F o h c :
  accounted F h c -> wp (wop_run o c) h (fun c' e => accounted F (h ++ e) c' /\ startups e = 0).
Proof using Hos.
  intros (p & Hp & Hi).
  assert (Hw : wp (wop_run o c) h (fun c' e => accounted F (h ++ e) c')).
  { unfold wop_run, with_priv. rewrite Hp.
    assert (Hsame : forall e, (forall S, fds_run S e = S) -> accounted F (h ++ e) c)
      by (intros e He; exists p; split; [done|by apply fds_inv_quiet]).
    destruct o as [|a s|l|m| | |]; [..|by eapply accounted_drop|by eapply win_accounted_shutdown|].
    - destruct (Z.eqb_spec (sock_fd p) INVALID_SOCKET) as [Hz|Hz]; wp_steps; [|by apply Hsame].
      eapply wp_mono; [by eapply accounted_listen|]. intros [r c'] e Hc. wp_steps. by rewrite app_nil_r.
    - destruct (Z.eqb_spec (sock_fd p) INVALID_SOCKET) as [Hz|Hz]; wp_steps; [|by apply Hsame].
      eapply wp_mono; [by eapply accounted_connect|]. intros [r c'] e Hc. wp_steps. by rewrite app_nil_r.
    - destruct (Z.eqb_spec (conn_fd p) INVALID_SOCKET) as [Hz|Hz]; cbn [andb]; [|wp_steps; by apply Hsame].
      case_bool_decide as Hl; [|wp_steps; by apply Hsame]. destruct Hl as [lp Hl]. wp_steps.
      eapply wp_mono; [by eapply win_accounted_accept|]. intros [r c'] e Hc. wp_steps. by rewrite app_nil_r.
    - unfold conn_set_timeout, with_priv. rewrite Hp. wp_steps. apply Hsame. intros S. by trace_simpl.
    - eapply wp_mono; [by eapply win_accounted_close|]. by intros c' e [? _]. }
  eapply wp_mono; [apply (wp_events apart), Hw; apply apart_run|]. intros c' e [He Hc]. split; [exact Hc|].
  by apply apart_startups.
Qed.

Lemma win_accounted_runs F os : forall h c,
  accounted F h c -> wp (wops_run os c) h (fun c' e => accounted F (h ++ e) c' /\ startups e = 0).
Proof using Hos.
  induction os as [|o os IH]; intros h c Hc; cbn [wops_run]; wp_steps; [by rewrite app_nil_r|].
  eapply wp_mono; [by apply win_accounted_run|]. intros c1 e1 [H1 Hs1]. eapply wp_mono; [by apply IH|].
  intros c2 e2 [H2 Hs2]. rewrite startups_app, (assoc_L (++)). split; [done|]. lia.
Qed.

Lemma win_init_wp F h c :
  priv c = None -> open_fds h = F -> INVALID_SOCKET ∉ F ->
  wp (conn_init c) h (fun res e => open_fds (h ++ e) = F /\
    ((res.1 < 0 /\ priv res.2 = None /\ startups e = 0) \/ (res.1 = 0 /\ accounted F (h ++ e) res.2 /\ startups e = 1))).
Proof using Hos.
  intros Hp HF Hn. unfold conn_init. rewrite Hp. wp_steps. set (b := os_answer h CAlloc).
  destruct (a_ret b =? 0).
  { wp_steps. split; [trace_simpl; by rewrite HF|]. left. unfold Sys.ENOMEM. simpl. by split_and!; [lia|..]. }
  wp_steps. set (a := os_answer _ CWSAStartup). assert (Ha : 0 <= a_ret a) by exact (Hos _ CWSAStartup).
  destruct (Z.eqb_spec (a_ret a) 0) as [H0|H0]; cbn [negb].
  2: { wp_steps. split; [trace_simpl; by rewrite HF|]. left. simpl. rewrite (proj2 (Z.eqb_neq _ _) H0). by split_and!; [lia|..]. }
  change (bool_decide (is_Some None)) with false. unfold MutexWin.mutex_init. wp_steps. set (d := os_answer _ CAlloc).
  destruct (a_ret d =? 0); cbn [negb]; wp_steps.
  - change (- Sys.ENOMEM <? 0) with true. cbv iota. wp_steps. split; [trace_simpl; by rewrite HF|]. left. simpl.
    rewrite H0. by unfold Sys.ENOMEM; split_and!; [lia|..].
  - change (0 <? 0) with false. cbv iota. wp_steps.
    assert (HF' : forall e, fds_run F e = F -> open_fds (h ++ e) = F) by (intros e He; by rewrite open_fds_app, HF).
    rewrite HF' by (by trace_simpl). split; [done|]. right. simpl. rewrite H0. split; [done|]. split; [|done]. eexists. split; [done|].
    split; rewrite ?held_closed; [rewrite HF' by (by trace_simpl)|..]; set_solver.
Qed.

Lemma win_free_wp F h c :
  accounted F h c ->
  wp (conn_free c) h (fun c' e => priv c' = None /\ open_fds (h ++ e) = F /\ startups e = -1).
Proof using.
  intros (p & Hp & Hi). unfold conn_free. rewrite Hp. wp_steps.
  eapply wp_mono; [apply (wp_events apart); [apply apart_close|by eapply win_accounted_close]|].
  intros c1 e1 (He & _ & HF). unfold MutexWin.mutex_free. wp_steps. split; [done|].
  rewrite (assoc_L (++)), open_fds_app, HF, !startups_app, (apart_startups e1 He). by split.
Qed.

End Resources.

(** ** Properties *)

(** Winsock keeps the laws of the POSIX system, whatever its errors: every error
    that the code sees is an error number, so that [conn_recv], [conn_recv_any],
    [conn_send] and [conn_send_to] have all the properties shown in Conn.v; an error of a transfer
    after a shutdown is [EPIPE], as on POSIX. *)
Theorem winsock_laws (raw : OS) :
  OSLaws raw -> OSLaws (Winsock raw) /\ transfer_errno WSAESHUTDOWN = - Sys.EPIPE.
Proof.
  intros Hr. split; [|reflexivity]. intros h c. specialize (Hr h c). unfold Winsock, os_answer in *.
  set (a := raw h c) in *. clearbody a.
  assert (Hs : forall x, failed a -> x = - sock_errno (a_errno a) \/ x = - transfer_errno (a_errno a) ->
    failed (mkAns (a_ret a) x (a_data a) (a_family a) (a_addr a) (a_port a))).
  { intros x [H1 H2] Hx. split; [done|]. simpl. pose proof (sock_errno_neg _ H2). pose proof (transfer_errno_neg _ H2). lia. }
  destruct c; cbn [legal] in *; try exact Hr; (destruct Hr as [Hf|Hr]; [left; apply Hs; auto|by right]).
Qed.

(** The life of a connection, with any operations in between. *)
Definition life `{OS} (os : list wop) (c : conn_handle) : IO (Z * conn_handle) :=
  let* (r, c) := conn_init c in
  if r <? 0 then ret (r, c) else
  let* c := wops_run os c in
  let* c := conn_free c in ret (0, c).


(** Listening, a client, and the end. *)
Definition example_script : OS :=
  Scripted [returns 1; returns 0; returns 1; returns 0; returns 3; returns 0; returns 0; returns 0; returns 4; returns 0].
Definition example_ops : list wop := [WListen; WAccept (tcp_conn 1 5); WShutdown; WClose].


(** After [conn_shutdown] on Windows, a connection whose transfers go through its
    own socket still names it, although the socket is closed: the connection counts as in use, and a
    transfer goes to a descriptor that is no longer its own. *)
Theorem windows_shutdown_stale {O : OS} F c p h :
  priv c = Some p -> fds_inv F h p -> fd p = sock_fd p -> sock_fd p <> INVALID_SOCKET ->
  exists c' p' e, conn_shutdown c h = (Some c', e) /\ priv c' = Some p' /\ fd p' = sock_fd p /\
    (fd p' ∉ open_fds (h ++ e)) /\ wp (conn_in_use c') (h ++ e) (fun r _ => r = 1).
Proof.
  intros Hp [Ho Hd Hn Hdi] Hfd Hs. destruct (win_shutdown_wp c p h Hp) as (c' & e & E & -> & He).
  exists (set_priv c (Some (set_sock_fd p INVALID_SOCKET))), (set_sock_fd p INVALID_SOCKET), e.
  split_and!; [done|done|done| |].
  - simpl. rewrite Hfd, open_fds_app, He; [set_solver|]. rewrite Ho. unfold held. set_solver.
  - unfold conn_in_use, with_priv. simpl. rewrite Hfd, (proj2 (Z.eqb_neq _ _) Hs). by wp_steps.
Qed.

Lemma windows_shutdown_stale_witness :
  exists c' p' e, conn_shutdown (H := Scripted []) (tcp_conn 0 3) [ESys (CSocket true) (returns 3)] = (Some c', e) /\
    priv c' = Some p' /\ fd p' = 3 /\ (fd p' ∉ open_fds ([ESys (CSocket true) (returns 3)] ++ e)) /\
    wp (conn_in_use c') ([ESys (CSocket true) (returns 3)] ++ e) (fun r _ => r = 1).
Proof.
  apply (windows_shutdown_stale (O := Scripted []) ∅ (tcp_conn 0 3) (mkConnPriv 3 (-1) 3 sockaddr_zero)).
  - reflexivity.
  - split; [apply (bool_decide_unpack _); vm_compute; exact I|set_solver|set_solver|discriminate].
  - reflexivity.
  - discriminate.
Defined.

End ConnWin.
