(* ===== verification/Conf.v ===== *)
(** * The configuration file (src/src/conf.c)

    Reading a line into a growing buffer, splitting it into a key and a value,
    storing the value, and the loop over the file.  Allocation is a call that
    may fail; [free] has no visible effect and is not an event.  The stream is
    the list of the file's bytes.

    The theorems show that the buffer is never overrun, that a file is the fold
    of its lines, which values of a line are stored where, the numbers accepted
    for a port, and the list of additional addresses against a reference split. *)

From S2P Require Import Prelude Sys.

(** ** Data: [struct proxy_conf] *)

Record proxy_conf : Type := mkConf {
  bind_addr : option (list Z);
  bind_addr_ext : option (list Z);
  bind_addr_ext_add : option (list (list Z));
  calls_allowed : option (list Z);
  calls_denied : option (list Z);
  password : option (list Z);
  reg_name : option (list Z);
  reg_comment : option (list Z);
  public_addr : option (list Z);
  connection_timeout : Z;
  bind_addr_ext_add_len : Z;
  port : Z;
}.

(** A zeroed structure, as the handle that contains it is allocated. *)
Definition conf_zero : proxy_conf := mkConf None None None None None None None None None 0 0 0.

(** The fields that hold one string. *)
Inductive field : Type :=
| FBindAddr | FBindAddrExt | FCallsAllowed | FCallsDenied | FPassword | FRegName
| FRegComment | FPublicAddr.

Definition set_field (f : field) (v : option (list Z)) (c : proxy_conf) : proxy_conf :=
  let '(mkConf ba be add ca cd pw rn rc pa ct len po) := c in
  match f with
  | FBindAddr => mkConf v be add ca cd pw rn rc pa ct len po
  | FBindAddrExt => mkConf ba v add ca cd pw rn rc pa ct len po
  | FCallsAllowed => mkConf ba be add v cd pw rn rc pa ct len po
  | FCallsDenied => mkConf ba be add ca v pw rn rc pa ct len po
  | FPassword => mkConf ba be add ca cd v rn rc pa ct len po
  | FRegName => mkConf ba be add ca cd pw v rc pa ct len po
  | FRegComment => mkConf ba be add ca cd pw rn v pa ct len po
  | FPublicAddr => mkConf ba be add ca cd pw rn rc v ct len po
  end.

Definition set_port (c : proxy_conf) (v : Z) : proxy_conf :=
  let '(mkConf ba be add ca cd pw rn rc pa ct len po) := c in
  mkConf ba be add ca cd pw rn rc pa ct len v.
Definition set_timeout (c : proxy_conf) (v : Z) : proxy_conf :=
  let '(mkConf ba be add ca cd pw rn rc pa ct len po) := c in
  mkConf ba be add ca cd pw rn rc pa v len po.
Definition set_add (c : proxy_conf) (v : option (list (list Z))) (n : Z) : proxy_conf :=
  let '(mkConf ba be add ca cd pw rn rc pa ct len po) := c in
  mkConf ba be v ca cd pw rn rc pa ct n po.

(** ** Characters and [sscanf] *)

Definition is_blank (b : Z) : bool := (b =? 32) || (b =? 9).
Definition is_blank_nl (b : Z) : bool := is_blank b || (b =? 10) || (b =? 13).
(** [isspace] in the C locale. *)
Definition is_space (b : Z) : bool := (b =? 32) || ((9 <=? b) && (b <=? 13)).
Definition is_digit (b : Z) : bool := (48 <=? b) && (b <=? 57).

Fixpoint skip (p : Z -> bool) (l : list Z) : list Z :=
  match l with
  | b :: l' => if p b then skip p l' else l
  | [] => []
  end.

Fixpoint span (p : Z -> bool) (l : list Z) : list Z :=
  match l with
  | b :: l' => if p b then b :: span p l' else []
  | [] => []
  end.

(** [strtoul] of an optional sign and the digits [ds]: saturates at the largest
    [unsigned long], otherwise negates modulo [2 ^ 64]. *)
Definition strtoul (neg : bool) (ds : list Z) : Z :=
  let v := dec_value ds in
  if 2 ^ 64 <=? v then 2 ^ 64 - 1 else if neg then u64 (- v) else v.

(** [sscanf(s, "%hu%1s", &v, dummy)] and its [%u] form: the return value, and
    the stored number before conversion to the width of the target. *)
Definition sscanf_u_1s (s : list Z) : Z * option Z :=
  let s1 := skip is_space s in
  match s1 with
  | [] => (-1, None)
  | _ =>
      let '(neg, s2) := match s1 with
                        | 45 :: t => (true, t) | 43 :: t => (false, t) | _ => (false, s1)
                        end in
      match span is_digit s2 with
      | [] => (0, None)
      | ds =>
          let rest := skip is_space (drop (length ds) s2) in
          (match rest with [] => 1 | _ => 2 end, Some (strtoul neg ds))
      end
  end.

(** ** Operations *)

Section Operations.
Context `{OS}.

(** [malloc], [calloc] or [realloc]: did it succeed? *)
Definition alloc : IO bool := let* a := sys CAlloc in ret (negb (a_ret a =? 0)).

(** The reading loop: [cap] is the size of the buffer, [acc] its contents.  A
    store outside the buffer is undefined behaviour.  The result is the return
    value, the line, and what is left of the stream. *)
Fixpoint readline_loop (cap : nat) (acc stream : list Z) : IO (Z * list Z * list Z) :=
  let finish (cap : nat) (acc stream : list Z) : IO (Z * list Z * list Z) :=
    if (length acc <? cap)%nat then ret (Z.of_nat (length acc), acc, stream) else crash in
  match stream with
  | [] => finish cap acc []
  | temp :: stream =>
      let* cap :=
        (if (cap <=? length acc + 1)%nat then
           let* ok := alloc in ret (if ok : bool then Some (cap + 128)%nat else None)
         else ret (Some cap)) in
      match cap with
      | None => ret (- ENOMEM, acc, stream)
      | Some cap =>
          if (length acc <? cap)%nat then
            if temp =? 10 then finish cap (acc ++ [temp]) stream
            else readline_loop cap (acc ++ [temp]) stream
          else crash
      end
  end.

(** [lineptr] is the size of the buffer the caller passes, if any. *)
Definition conf_readline (lineptr : option nat) (stream : list Z) : IO (Z * list Z * list Z) :=
  let* cap :=
    match lineptr with
    | None | Some O => let* ok := alloc in ret (if ok : bool then Some 128%nat else None)
    | Some n => ret (Some n)
    end in
  match cap with
  | None => ret (- ENOMEM, [], stream)
  | Some n => readline_loop n [] stream
  end.

(** Store a copy of the value, or NULL when it is empty. *)
Definition store_string (f : field) (val : list Z) (c : proxy_conf) : IO (Z * proxy_conf) :=
  if decide (val = []) then ret (0, set_field f None c)
  else
    let* ok := alloc in
    ret (if ok : bool then (0, set_field f (Some val) c) else (- ENOMEM, set_field f None c)).

Definition store_password (val : list Z) (c : proxy_conf) : IO (Z * proxy_conf) :=
  let* ok := alloc in
  ret (if ok : bool then
         if decide (val = str "notset") then (- EINVAL, set_field FPassword None c)
         else (0, set_field FPassword (Some val) c)
       else (- ENOMEM, set_field FPassword None c)).

(** The loop that fills the array of additional addresses: [n] entries are
    left, [rest] is what lies from index [j] on. *)
Fixpoint fill_add (n : nat) (rest : list Z) : IO (option (list (list Z))) :=
  match n with
  | O => ret (Some [])
  | S n =>
      let seg := span (fun b => negb (b =? 44)) rest in
      let* ok := alloc in
      if ok : bool then
        let* r := fill_add n (drop (S (length seg)) rest) in
        ret (match r with Some l => Some (seg :: l) | None => None end)
      else ret None
  end.

Definition count_commas (l : list Z) : Z := Z.of_nat (length (List.filter (Z.eqb 44) l)).

(** The counter is not reset before the commas are counted into it. *)
Definition store_add (val : list Z) (c : proxy_conf) : IO (Z * proxy_conf) :=
  if decide (val = []) then ret (0, set_add c None 0)
  else
    let n := u16 (bind_addr_ext_add_len c + count_commas (drop 1 val) + 1) in
    let* ok := alloc in
    if ok : bool then
      let* r := fill_add (Z.to_nat n) val in
      ret (match r with
           | Some l => (0, set_add c (Some l) n)
           | None => (- ENOMEM, set_add c None 0)
           end)
    else ret (- ENOMEM, set_add c None n).

(** [val] is the rest of the line, of which the first [val_len] characters are
    the value; the numbers are scanned from the whole of it. *)
Definition conf_parse_pair (key val : list Z) (val_len : nat) (c : proxy_conf)
  : IO (Z * proxy_conf) :=
  let v := take val_len val in
  if decide (key = str "Port") then
    let '(n, x) := sscanf_u_1s val in
    let c := match x with Some x => set_port c (u16 x) | None => c end in
    ret (if n =? 1 then 0 else - EINVAL, c)
  else if decide (key = str "Password") then store_password v c
  else if decide (key = str "BindAddress") then store_string FBindAddr v c
  else if decide (key = str "PublicAddress") then store_string FPublicAddr v c
  else if decide (key = str "CallsignsDenied") then store_string FCallsDenied v c
  else if decide (key = str "CallsignsAllowed") then store_string FCallsAllowed v c
  else if decide (key = str "RegistrationName") then store_string FRegName v c
  else if decide (key = str "ConnectionTimeout") then
    let '(n, x) := sscanf_u_1s val in
    let c := match x with Some x => set_timeout c (u32 x) | None => c end in
    ret (if n =? 1 then 0 else - EINVAL, c)
  else if decide (key = str "ExternalBindAddress") then store_string FBindAddrExt v c
  else if decide (key = str "RegistrationComment") then store_string FRegComment v c
  else if decide (key = str "AdditionalExternalBindAddresses") then store_add v c
  else ret (0, c).

(** Drop the characters at the end that satisfy [p]. *)
Definition rtrim (p : Z -> bool) (l : list Z) : list Z := reverse (skip p (reverse l)).

(** [line] is the C string in the buffer. *)
Definition conf_parse_line (line : list Z) (c : proxy_conf) : IO (Z * proxy_conf) :=
  let key := skip is_blank_nl line in
  match key with
  | [] => ret (0, c)
  | b :: _ =>
      if (b =? 35) || (b =? 61) then ret (0, c)
      else
        let raw := span (fun b => negb (b =? 61)) key in
        match drop (length raw) key with
        | [] => ret (0, c)
        | _ :: val =>
            let val := skip is_blank val in
            conf_parse_pair (rtrim is_blank raw) val (length (rtrim is_blank_nl val)) c
        end
  end.

(** Each round consumes at least one byte of the stream, so its length and one
    are enough rounds. *)
Fixpoint parse_stream_loop (fuel : nat) (stream : list Z) (c : proxy_conf) : IO (Z * proxy_conf) :=
  match fuel with
  | O => crash
  | S fuel =>
      let* (n, line, stream) := conf_readline None stream in
      if 0 <? n then
        let* (r, c) := conf_parse_line (cstr line) c in
        if r <? 0 then ret (r, c) else parse_stream_loop fuel stream c
      else ret (0, c)
  end.

Definition conf_parse_stream (stream : list Z) (c : proxy_conf) : IO (Z * proxy_conf) :=
  parse_stream_loop (S (length stream)) stream c.

(** [file] is what [fopen] finds: the contents or an [errno]. *)
Definition conf_parse_file (file : list Z + Z) (c : proxy_conf) : IO (Z * proxy_conf) :=
  match file with
  | inr e => ret (- e, c)
  | inl contents => conf_parse_stream contents c
  end.

End Operations.

Definition conf_init (c : proxy_conf) : Z * proxy_conf :=
  (0, set_port (set_field FPassword None c) 8100).

Definition conf_free (c : proxy_conf) : proxy_conf :=
  let n := match bind_addr_ext_add c with Some _ => 0 | None => bind_addr_ext_add_len c end in
  mkConf None None None None None None None None None (connection_timeout c) n (port c).

(** ** Reference definitions *)

(** The lines of a file, each with its newline; the last may lack it. *)
Fixpoint lines_from (acc stream : list Z) : list (list Z) :=
  match stream with
  | [] => if decide (acc = []) then [] else [acc]
  | b :: stream =>
      if b =? 10 then (acc ++ [b]) :: lines_from [] stream else lines_from (acc ++ [b]) stream
  end.

(** The pieces of a list between commas. *)
Fixpoint split_commas (l : list Z) : list (list Z) :=
  match l with
  | [] => [[]]
  | b :: l =>
      if b =? 44 then [] :: split_commas l
      else match split_commas l with
           | s :: r => (b :: s) :: r
           | [] => [[b]]
           end
  end.

Fixpoint parse_lines `{OS} (ls : list (list Z)) (c : proxy_conf) : IO (Z * proxy_conf) :=
  match ls with
  | [] => ret (0, c)
  | l :: ls =>
      let* (r, c) := conf_parse_line (cstr l) c in
      if r <? 0 then ret (r, c) else parse_lines ls c
  end.

(** ** Lemmas: lists *)

Lemma span_skip_all p l r :
  forallb p l = true -> match r with b :: _ => p b = false | [] => True end ->
  span p (l ++ r) = l /\ skip p (l ++ r) = r.
Proof.
  intros Hl Hr. induction l as [|b l IH]; simpl in *.
  - destruct r as [|b r]; simpl; [done|]. by rewrite Hr.
  - apply andb_true_iff in Hl as [-> Hl]. destruct (IH Hl) as [-> ->]. done.
Qed.

Lemma forallb_reverse (p : Z -> bool) l : forallb p (reverse l) = forallb p l.
Proof.
  induction l as [|b l IH]; [done|]. rewrite reverse_cons, forallb_app, IH. simpl.
  rewrite andb_true_r. apply andb_comm.
Qed.

Lemma rtrim_app p l r :
  forallb p r = true -> match last l with Some b => p b = false | None => True end ->
  rtrim p (l ++ r) = l.
Proof.
  intros Hr Hl. unfold rtrim. rewrite reverse_app.
  destruct (span_skip_all p (reverse r) (reverse l)) as [_ ->].
  - by rewrite forallb_reverse.
  - rewrite <- (reverse_involutive l), last_reverse in Hl. destruct (reverse l); done.
  - apply reverse_involutive.
Qed.

Lemma split_commas_length l :
  length (split_commas l) = S (length (List.filter (Z.eqb 44) l)).
Proof.
  induction l as [|b l IH]; [done|]. cbn [split_commas List.filter]. rewrite (Z.eqb_sym 44 b).
  destruct (b =? 44); simpl; [by rewrite IH|]. by destruct (split_commas l).
Qed.

(** Splitting off the piece before the first comma. *)
Lemma split_commas_span l :
  split_commas l =
  span (fun b => negb (b =? 44)) l ::
    (let r := drop (length (span (fun b => negb (b =? 44)) l)) l in
     match r with [] => [] | _ :: r => split_commas r end).
Proof.
  induction l as [|b l IH]; [done|]. simpl. destruct (b =? 44) eqn:Hb; simpl; [done|].
  by rewrite IH at 1.
Qed.

(** ** Lemmas: operations *)

Section Results.
Context {O : OS} {Ha : AllocOK O}.

Lemma yields_alloc : yields alloc true.
Proof using Ha.
  intros h. unfold alloc, bind, sys, ret. simpl. pose proof (Ha h) as Hh.
  by rewrite (proj2 (Z.eqb_neq _ _) Hh).
Qed.

Lemma yields_alloc_bind {B} (f : bool -> IO B) b : yields (f true) b -> yields (bind alloc f) b.
Proof using Ha. intros Hf. by eapply yields_bind; [apply yields_alloc|]. Qed.

Lemma fill_add_split n rest :
  yields (fill_add (length (split_commas rest) + n) rest)
         (Some (split_commas rest ++ replicate n [])).
Proof using Ha.
  assert (Hempty : yields (fill_add n []) (Some (replicate n []))).
  { induction n as [|n IH]; simpl; [apply yields_ret|]. apply yields_alloc_bind. by eapply yields_bind. }
  remember (length rest) as k eqn:Hk. revert rest Hk.
  induction (lt_wf k) as [k _ IH]; intros rest ->.
  rewrite (split_commas_span rest). cbn [length Nat.add fill_add].
  set (seg := span _ rest). apply yields_alloc_bind. simpl.
  destruct (drop (length seg) rest) as [|b r] eqn:Hd.
  - replace (drop (S (length seg)) rest) with (@nil Z).
    + by eapply yields_bind; [apply Hempty|].
    + rewrite <- Nat.add_1_r, <- drop_drop, Hd. done.
  - replace (drop (S (length seg)) rest) with r.
    + eapply yields_bind; [eapply (IH (length r)); [|done]|done].
      pose proof (length_drop rest (length seg)). rewrite Hd in *. simpl in *. lia.
    + rewrite <- Nat.add_1_r, <- drop_drop, Hd. done.
Qed.

Lemma readline_loop_yields cap acc stream :
  (length acc < cap)%nat ->
  exists line rest, yields (readline_loop cap acc stream) (Z.of_nat (length line), line, rest) /\
    (line = [] -> acc = [] /\ stream = []) /\
    (length line + length rest = length acc + length stream)%nat /\
    lines_from acc stream = (if decide (line = []) then [] else line :: lines_from [] rest).
Proof using Ha.
  revert cap acc. induction stream as [|b stream IH]; intros cap acc Hc; simpl.
  { exists acc, []. rewrite (proj2 (Nat.ltb_lt _ _) Hc). split; [apply yields_ret|].
    split; [done|]. split; [done|]. by case_decide. }
  set (cap' := if (cap <=? length acc + 1)%nat then (cap + 128)%nat else cap).
  assert (Hc' : (length acc + 1 < cap')%nat) by (unfold cap'; destruct (Nat.leb_spec cap (length acc + 1)); lia).
  assert (Hgrow : yields (if (cap <=? length acc + 1)%nat
      then let* ok := alloc in ret (if ok : bool then Some (cap + 128)%nat else None)
      else ret (Some cap)) (Some cap')).
  { unfold cap'. destruct (cap <=? length acc + 1)%nat; [by apply yields_alloc_bind|done]. }
  destruct (Z.eqb_spec b 10) as [->|Hb].
  - exists (acc ++ [10]), stream. split_and!.
    + eapply yields_bind; [exact Hgrow|]. cbv beta iota. rewrite (proj2 (Nat.ltb_lt _ _)) by lia.
      rewrite length_app. simpl. by rewrite (proj2 (Nat.ltb_lt _ _)) by lia.
    + by destruct acc.
    + len.
    + by rewrite decide_False by (by destruct acc).
  - destruct (IH cap' (acc ++ [b])) as (line & rest & Hy & Hnil & Hlen & Hl); [len|].
    exists line, rest. split_and!.
    + eapply yields_bind; [exact Hgrow|]. cbv beta iota. by rewrite (proj2 (Nat.ltb_lt _ _)) by lia.
    + intros Hline. destruct (Hnil Hline). by destruct acc.
    + rewrite length_app in Hlen. simpl in *. lia.
    + done.
Qed.

Lemma store_string_yields f v c :
  yields (store_string f v c) (0, set_field f (if decide (v = []) then None else Some v) c).
Proof using Ha.
  unfold store_string. case_decide; [apply yields_ret|]. by apply yields_alloc_bind.
Qed.

Lemma store_password_yields v c :
  yields (store_password v c)
    (if decide (v = str "notset") then (- EINVAL, set_field FPassword None c)
     else (0, set_field FPassword (Some v) c)).
Proof using Ha. by apply yields_alloc_bind. Qed.

Lemma store_add_yields v c :
  v <> [] -> head v <> Some 44 -> 0 <= bind_addr_ext_add_len c ->
  bind_addr_ext_add_len c + Z.of_nat (length (split_commas v)) < 2 ^ 16 ->
  yields (store_add v c)
    (0, set_add c (Some (split_commas v ++ replicate (Z.to_nat (bind_addr_ext_add_len c)) []))
                (bind_addr_ext_add_len c + Z.of_nat (length (split_commas v)))).
Proof using Ha.
  intros Hv Hh H0 Hmax. unfold store_add. rewrite decide_False by done.
  assert (Hn : bind_addr_ext_add_len c + count_commas (drop 1 v) + 1
               = bind_addr_ext_add_len c + Z.of_nat (length (split_commas v))).
  { destruct v as [|b v]; [done|]. rewrite split_commas_length. unfold count_commas.
    cbn [drop List.filter]. rewrite drop_0.
    rewrite (proj2 (Z.eqb_neq 44 b)) by (intros <-; done). lia. }
  rewrite Hn, u16_id by (unfold is_u16; lia). apply yields_alloc_bind. cbv beta iota.
  rewrite Z2Nat.inj_add, Nat2Z.id, Nat.add_comm by lia.
  by eapply yields_bind; [apply fill_add_split|].
Qed.

Lemma fill_add_total n rest : exists r, yields (fill_add n rest) r.
Proof using Ha.
  revert rest. induction n as [|n IH]; intros rest; simpl; [by eexists|].
  destruct (IH (drop (S (length (span (fun b => negb (b =? 44)) rest))) rest)) as [r Hr].
  eexists. apply yields_alloc_bind. eapply yields_bind; [apply Hr|apply yields_ret].
Qed.

Lemma conf_parse_line_total l c : exists r, yields (conf_parse_line l c) r.
Proof using Ha.
  assert (Hpair : forall k v n, exists r, yields (conf_parse_pair k v n c) r).
  { intros k v n. unfold conf_parse_pair.
    repeat case_decide; try (destruct (sscanf_u_1s v)); try (eexists; apply yields_ret);
      try (eexists; apply store_string_yields); [eexists; apply store_password_yields|].
    unfold store_add. case_decide; [eexists; apply yields_ret|].
    set (n' := u16 _). destruct (fill_add_total (Z.to_nat n') (take n v)) as [r Hr].
    eexists. apply yields_alloc_bind. eapply yields_bind; [apply Hr|apply yields_ret]. }
  unfold conf_parse_line. repeat case_match; eauto using yields_ret.
Qed.

Lemma parse_stream_lines fuel stream c :
  (length stream < fuel)%nat ->
  exists r, yields (parse_stream_loop fuel stream c) r /\
            yields (parse_lines (lines_from [] stream) c) r.
Proof using Ha.
  revert stream c. induction fuel as [|fuel IH]; intros stream c Hf; [lia|].
  destruct (readline_loop_yields 128 [] stream) as (line & rest & Hy & Hnil & Hlen & ->); [simpl; lia|].
  assert (Hrl : yields (conf_readline None stream) (Z.of_nat (length line), line, rest)).
  { eapply yields_bind; [by apply yields_alloc_bind|exact Hy]. }
  case_decide as Hline.
  - exists (0, c). split; [|done]. eapply yields_bind; [exact Hrl|]. by rewrite Hline.
  - assert (Hpos : (0 <? Z.of_nat (length line)) = true).
    { apply Z.ltb_lt. destruct line; [done|simpl; lia]. }
    destruct (conf_parse_line_total (cstr line) c) as [[r c'] Hp].
    destruct (r <? 0) eqn:Hr.
    + exists (r, c'). split; [eapply yields_bind; [exact Hrl|]; cbv beta iota; rewrite Hpos|];
        (eapply yields_bind; [exact Hp|]; cbv beta iota; rewrite Hr; apply yields_ret).
    + destruct (IH rest c') as (res & H1 & H2).
      { destruct line; [done|]. simpl in *. lia. }
      exists res. split; [eapply yields_bind; [exact Hrl|]; cbv beta iota; rewrite Hpos|];
        (eapply yields_bind; [exact Hp|]; cbv beta iota; by rewrite Hr).
Qed.

End Results.

(** The first character is not [p]; the last is not [p]. *)
Definition starts_clear (p : Z -> bool) (l : list Z) : Prop :=
  match head l with Some b => p b = false | None => True end.
Definition ends_clear (p : Z -> bool) (l : list Z) : Prop :=
  match last l with Some b => p b = false | None => True end.

(** A key: nonempty, without '=', not a comment, no blanks around it. *)
Record key_ok (key : list Z) : Prop := {
  key_start : match head key with
              | Some b => is_blank_nl b = false /\ b <> 35 | None => False end;
  key_end : ends_clear is_blank key;
  key_no_eq : forallb (fun b => negb (b =? 61)) key = true;
}.

(** A value: no blanks around it. *)
Record val_ok (val : list Z) : Prop := {
  val_start : starts_clear is_blank val;
  val_end : ends_clear is_blank_nl val;
  val_nonempty : val <> [];
}.

Lemma blank_not_eq w : forallb is_blank w = true -> forallb (fun b => negb (b =? 61)) w = true.
Proof.
  intros Hw. apply forallb_forall. intros b Hb. rewrite forallb_forall in Hw.
  specialize (Hw b Hb). unfold is_blank in Hw. destruct (Z.eqb_spec b 61) as [->|]; done.
Qed.

Lemma parse_line_pair `{OS} lead key w1 w2 val w3 c :
  forallb is_blank_nl lead = true -> key_ok key -> forallb is_blank w1 = true ->
  forallb is_blank w2 = true -> val_ok val -> forallb is_blank_nl w3 = true ->
  conf_parse_line (lead ++ key ++ w1 ++ 61 :: w2 ++ val ++ w3) c
  = conf_parse_pair key (val ++ w3) (length val) c.
Proof.
  intros Hlead [Hk1 Hk2 Hk3] Hw1 Hw2 [Hv1 Hv2 Hv3] Hw3. unfold conf_parse_line.
  destruct key as [|k0 key]; [done|]. destruct Hk1 as [Hk0 Hk35]. simpl in Hk0.
  set (body := (k0 :: key) ++ w1).
  replace (lead ++ (k0 :: key) ++ w1 ++ 61 :: w2 ++ val ++ w3)
    with (lead ++ body ++ 61 :: w2 ++ val ++ w3) by (unfold body; by rewrite <- !app_assoc).
  destruct (span_skip_all is_blank_nl lead (body ++ 61 :: w2 ++ val ++ w3)) as [_ ->]; [done..|].
  assert (Hbody : forallb (fun b => negb (b =? 61)) body = true).
  { unfold body. by rewrite forallb_app, Hk3, blank_not_eq. }
  destruct (span_skip_all _ body (61 :: w2 ++ val ++ w3) Hbody eq_refl) as [Hspan _].
  destruct (body ++ 61 :: w2 ++ val ++ w3) as [|b0 t] eqn:Hbt; [done|].
  assert (b0 = k0) as -> by (unfold body in Hbt; simpl in Hbt; congruence).
  assert (Hk61 : (k0 =? 61) = false) by (simpl in Hk3; by destruct (k0 =? 61)).
  rewrite Hk61, (proj2 (Z.eqb_neq k0 35) Hk35). cbn [orb].
  rewrite Hspan, <- Hbt, drop_app_length.
  unfold body. rewrite (rtrim_app is_blank (k0 :: key) w1) by done.
  destruct val as [|v0 val]; [done|].
  destruct (span_skip_all is_blank w2 ((v0 :: val) ++ w3)) as [_ ->]; [done..|].
  by rewrite (rtrim_app is_blank_nl (v0 :: val) w3) by done.
Qed.

Lemma sscanf_dec z w :
  0 <= z < 2 ^ 64 -> forallb is_space w = true -> sscanf_u_1s (dec z ++ w) = (1, Some z).
Proof.
  intros Hz Hw. unfold sscanf_u_1s.
  pose proof (dec_digits z) as Hd. pose proof (dec_nonempty z) as Hne.
  assert (Hdig : forallb is_digit (dec z) = true).
  { apply forallb_forall. intros d Hin. rewrite Forall_forall in Hd.
    apply list_elem_of_In, Hd in Hin. unfold is_digit. lia. }
  assert (Hval : dec_value (dec z) = z) by (apply dec_value_dec; lia).
  destruct (span_skip_all is_digit (dec z) w) as [Hs _]; [done| |].
  { destruct w as [|b w]; [done|]. simpl in Hw. unfold is_space, is_digit in *. lia. }
  destruct (span_skip_all is_space w []) as [_ Hskip]; [done..|]. rewrite app_nil_r in Hskip.
  revert Hd Hne Hdig Hval Hs. generalize (dec z). intros ds Hd Hne Hdig Hval Hs.
  destruct ds as [|d ds]; [done|]. inversion_clear Hd as [|? ? Hd0 _].
  cbn [app skip] in *. replace (is_space d) with false by (unfold is_space; lia).
  assert (Hsign : (match d :: ds ++ w with
    | 45 :: t => (true, t) | 43 :: t => (false, t) | _ => (false, d :: ds ++ w) end)
    = (false, d :: ds ++ w)).
  { destruct (decide (d = 45)); [lia|]. destruct (decide (d = 43)); [lia|].
    destruct d as [|q|q]; try done. repeat (destruct q as [q|q|]; try done). }
  rewrite Hsign, Hs. cbn [length drop]. rewrite drop_app_length, Hskip.
  unfold strtoul. rewrite Hval. by rewrite (proj2 (Z.leb_gt _ _)) by lia.
Qed.

(** ** Printing a configuration *)

Definition print_line (key : string) (val : list Z) : list Z := str key ++ 61 :: val ++ [10].

Definition print_field (key : string) (o : option (list Z)) : list (list Z) :=
  match o with Some v => [print_line key v] | None => [] end.

Fixpoint join_commas (l : list (list Z)) : list Z :=
  match l with
  | [] => []
  | [s] => s
  | s :: l => s ++ 44 :: join_commas l
  end.

Definition conf_lines (c : proxy_conf) : list (list Z) :=
  [print_line "Port" (dec (port c)); print_line "ConnectionTimeout" (dec (connection_timeout c))]
  ++ print_field "Password" (password c) ++ print_field "BindAddress" (bind_addr c)
  ++ print_field "PublicAddress" (public_addr c) ++ print_field "CallsignsDenied" (calls_denied c)
  ++ print_field "CallsignsAllowed" (calls_allowed c) ++ print_field "RegistrationName" (reg_name c)
  ++ print_field "ExternalBindAddress" (bind_addr_ext c)
  ++ print_field "RegistrationComment" (reg_comment c)
  ++ print_field "AdditionalExternalBindAddresses" (join_commas <$> bind_addr_ext_add c).

Definition print_conf (c : proxy_conf) : list Z := concat (conf_lines c).

(** Values the file format can hold: no NUL or newline inside, no blanks around. *)
Definition text_ok (v : list Z) : Prop := val_ok v /\ Forall (fun b => b <> 0 /\ b <> 10) v.
Definition opt_ok (o : option (list Z)) : Prop := forall v, o = Some v -> text_ok v.

Record conf_ok (c : proxy_conf) : Prop := {
  ok_port : is_u16 (port c);
  ok_timeout : is_u32 (connection_timeout c);
  ok_password : opt_ok (password c);
  ok_notset : password c <> Some (str "notset");
  ok_bind : opt_ok (bind_addr c);
  ok_public : opt_ok (public_addr c);
  ok_denied : opt_ok (calls_denied c);
  ok_allowed : opt_ok (calls_allowed c);
  ok_name : opt_ok (reg_name c);
  ok_ext : opt_ok (bind_addr_ext c);
  ok_comment : opt_ok (reg_comment c);
  ok_add : opt_ok (join_commas <$> bind_addr_ext_add c);
  ok_add_entries : forall l, bind_addr_ext_add c = Some l ->
    Forall (fun e => 44 ∉ e) l /\ head l <> Some [] /\ Z.of_nat (length l) < 2 ^ 16;
  ok_add_len : bind_addr_ext_add_len c =
    match bind_addr_ext_add c with Some l => Z.of_nat (length l) | None => 0 end;
}.

Lemma split_commas_entry e : 44 ∉ e -> split_commas e = [e].
Proof.
  induction e as [|b e IH]; intros He; [done|]. apply not_elem_of_cons in He as [Hb He]. simpl.
  rewrite (proj2 (Z.eqb_neq b 44)) by congruence. by rewrite IH.
Qed.

Lemma split_commas_app e r : 44 ∉ e -> split_commas (e ++ 44 :: r) = e :: split_commas r.
Proof.
  induction e as [|b e IH]; intros He; [done|]. apply not_elem_of_cons in He as [Hb He]. simpl.
  rewrite (proj2 (Z.eqb_neq b 44)) by congruence. by rewrite IH.
Qed.

Lemma split_join l : l <> [] -> Forall (fun e => 44 ∉ e) l -> split_commas (join_commas l) = l.
Proof.
  induction l as [|e [|e' l] IH]; intros Hne Hl; [done| |]; inversion_clear Hl as [|? ? He Hl'].
  - by apply split_commas_entry.
  - change (join_commas (e :: e' :: l)) with (e ++ 44 :: join_commas (e' :: l)).
    by rewrite split_commas_app, IH.
Qed.

Lemma lines_from_line acc body rest :
  Forall (fun b => b <> 10) body ->
  lines_from acc (body ++ 10 :: rest) = (acc ++ body ++ [10]) :: lines_from [] rest.
Proof.
  revert acc. induction body as [|b body IH]; intros acc Hb; [done|].
  inversion_clear Hb as [|? ? Hb0 Hb']. simpl. rewrite (proj2 (Z.eqb_neq b 10)) by done.
  rewrite IH by done. by rewrite <- app_assoc.
Qed.

(** A printed line is a key from the table and a legal value. *)
Definition line_ok (l : list Z) : Prop :=
  exists key v, l = print_line key v /\ text_ok v /\ Forall (fun b => b <> 0 /\ b <> 10) (str key).

Lemma lines_concat ls : Forall line_ok ls -> lines_from [] (concat ls) = ls.
Proof.
  induction 1 as [|l ls (key & v & -> & [_ Hv] & Hk) _ IH]; [done|]. simpl. unfold print_line.
  replace ((str key ++ 61 :: v ++ [10]) ++ concat ls)
    with ((str key ++ 61 :: v) ++ 10 :: concat ls) 
    by (rewrite <- !app_assoc; simpl; by rewrite <- app_assoc).
  rewrite lines_from_line, IH; [by rewrite <- app_assoc|].
  apply Forall_app. split; [by eapply Forall_impl; [exact Hk|naive_solver]|].
  constructor; [done|]. by eapply Forall_impl; [exact Hv|naive_solver].
Qed.

Lemma cstr_print_line key v :
  text_ok v -> Forall (fun b => b <> 0 /\ b <> 10) (str key) ->
  cstr (print_line key v) = print_line key v.
Proof.
  intros [_ Hv] Hk. apply cstr_id. unfold no_nul, print_line.
  apply Forall_app. split; [by eapply Forall_impl; [exact Hk|naive_solver]|].
  constructor; [done|]. apply Forall_app. split; [by eapply Forall_impl; [exact Hv|naive_solver]|].
  by repeat constructor.
Qed.

Lemma dec_text_ok z : text_ok (dec z).
Proof.
  pose proof (dec_digits z) as Hd. pose proof (dec_nonempty z) as Hne.
  assert (Hb : forall b, b ∈ dec z -> 48 <= b <= 57) by (rewrite Forall_forall in Hd; auto).
  split; [split|].
  - unfold starts_clear. destruct (head (dec z)) as [b|] eqn:E; [|done].
    apply head_Some_elem_of, Hb in E. unfold is_blank. lia.
  - unfold ends_clear. destruct (last (dec z)) as [b|] eqn:E; [|done].
    apply last_Some_elem_of, Hb in E. unfold is_blank_nl, is_blank. lia.
  - done.
  - eapply Forall_impl; [exact Hd|]. simpl. lia.
Qed.

Section RoundTrip.
Context {O : OS} {Ha : AllocOK O}.

Lemma parse_print_line key v c :
  key_ok (str key) -> text_ok v -> Forall (fun b => b <> 0 /\ b <> 10) (str key) ->
  conf_parse_line (cstr (print_line key v)) c = conf_parse_pair (str key) (v ++ [10]) (length v) c.
Proof using.
  intros Hk Hv Hkt. rewrite cstr_print_line by done.
  apply (parse_line_pair [] (str key) [] [] v [10]); try done. apply Hv.
Qed.

Lemma parse_lines_cons key v ls c c' r :
  key_ok (str key) -> Forall (fun b => b <> 0 /\ b <> 10) (str key) -> text_ok v ->
  yields (conf_parse_pair (str key) (v ++ [10]) (length v) c) (0, c') ->
  yields (parse_lines ls c') r -> yields (parse_lines (print_line key v :: ls) c) r.
Proof using.
  intros Hk Hkt Hv Hp Hls. cbn [parse_lines]. rewrite parse_print_line by done.
  by eapply yields_bind.
Qed.

Lemma parse_lines_field key f o ls c r :
  key_ok (str key) -> Forall (fun b => b <> 0 /\ b <> 10) (str key) -> opt_ok o ->
  (forall v n, conf_parse_pair (str key) v n c = store_string f (take n v) c) ->
  set_field f None c = c -> yields (parse_lines ls (set_field f o c)) r ->
  yields (parse_lines (print_field key o ++ ls) c) r.
Proof using Ha.
  intros Hk Hkt Ho Hp Hc Hls. destruct o as [v|]; [|by rewrite Hc in Hls]. cbn [print_field app].
  specialize (Ho v eq_refl). eapply parse_lines_cons; [done..| |exact Hls].
  rewrite Hp, take_app_length. destruct Ho as [[_ _ Hne] _].
  pose proof (store_string_yields f v c) as Hs. by rewrite decide_False in Hs by done.
Qed.

(** The keys of the table, checked by evaluation. *)
Ltac key_table := split; vm_compute; repeat split; congruence.

Lemma conf_lines_ok c : conf_ok c -> Forall line_ok (conf_lines c).
Proof using.
  intros [].
  assert (Hf : forall key o, opt_ok o -> Forall (fun b => b <> 0 /\ b <> 10) (str key) ->
                 Forall line_ok (print_field key o)).
  { intros key [v|] Ho Hk; constructor; [|constructor]. exists key, v. auto. }
  assert (Hd : forall key z, Forall (fun b => b <> 0 /\ b <> 10) (str key) ->
                 line_ok (print_line key (dec z))).
  { intros key z Hk. exists key, (dec z). auto using dec_text_ok. }
  unfold conf_lines. repeat (apply Forall_app; split); try (apply Hf; [done|]);
    try (apply Forall_cons; split; [apply Hd|apply Forall_cons; split; [apply Hd|constructor]]);
    vm_compute; repeat constructor; congruence.
Qed.

Lemma parse_conf_lines c :
  conf_ok c -> yields (parse_lines (conf_lines c) (snd (conf_init conf_zero))) (0, c).
Proof using Ha.
  intros [Hpo Hto Hpw Hns Hb Hpu Hde Hal Hn Hx Hco Had Hen Hlen]. unfold conf_lines.
  assert (Htxt : forall key, bool_decide (Forall (fun b => b <> 0 /\ b <> 10) (str key)) = true ->
    Forall (fun b => b <> 0 /\ b <> 10) (str key)) by (intros key; by rewrite bool_decide_eq_true).
  cbn [app]. eapply parse_lines_cons; [key_table|by apply Htxt|apply dec_text_ok| |].
  { unfold conf_parse_pair. rewrite decide_True by done.
    rewrite sscanf_dec by (done || (unfold is_u16 in Hpo; lia)). apply yields_ret. }
  eapply parse_lines_cons; [key_table|by apply Htxt|apply dec_text_ok| |].
  { unfold conf_parse_pair. do 7 rewrite decide_False by done. rewrite decide_True by done.
    rewrite sscanf_dec by (done || (unfold is_u32 in Hto; lia)). apply yields_ret. }
  rewrite u16_id, u32_id by done. cbn.
  assert (Hpass : forall ls c0 r, password c0 = None ->
    yields (parse_lines ls (set_field FPassword (password c) c0)) r ->
    yields (parse_lines (print_field "Password" (password c) ++ ls) c0) r).
  { intros ls c0 r H0 Hls. destruct (password c) as [v|] eqn:Ep; [|by destruct c0; simpl in *; subst].
    eapply parse_lines_cons; [key_table|by apply Htxt|by apply Hpw| |exact Hls].
    change (conf_parse_pair (str "Password") (v ++ [10]) (length v) c0)
      with (store_password (take (length v) (v ++ [10])) c0). rewrite take_app_length.
    pose proof (store_password_yields v c0) as Hs. by rewrite decide_False in Hs by congruence. }
  apply Hpass; [done|].
  do 7 (eapply parse_lines_field; [key_table|by apply Htxt|done|by intros|done|]; cbn).
  destruct (bind_addr_ext_add c) as [l|] eqn:Eadd;
    [|destruct c; simpl in *; subst; apply yields_ret].
  destruct (Hen l eq_refl) as (Hcm & Hhd & Hl). cbn [fmap option_fmap option_map print_field].
  apply (parse_lines_cons _ _ _ _ c); [key_table|by apply Htxt|by apply Had| |apply yields_ret].
  match goal with |- yields (conf_parse_pair _ ?v ?n ?c1) _ =>
    change (yields (store_add (take n v) c1) (0, c)); set (c0 := c1) end.
  assert (Hc : c = set_add c0 (Some l) (bind_addr_ext_add_len c)) by (destruct c; simpl in *; by subst).
  rewrite Hc at 1. rewrite take_app_length. destruct (Had _ eq_refl) as [[_ _ Hne] _].
  assert (l <> []) by (by destruct l).
  assert (Hsp : split_commas (join_commas l) = l) by by apply split_join.
  pose proof (store_add_yields _ c0 Hne) as Hs.
  rewrite Hsp in Hs. simpl in Hs. rewrite app_nil_r, <- Hlen in Hs. apply Hs; [|lia|lia].
  destruct l as [|[|b e] [|e' l']]; [done..| | ]; simpl; intros [= ->];
    inversion_clear Hcm; set_solver.
Qed.
End RoundTrip.

(** ** Totality, with memory running out anywhere *)

Section Total.
Context `{OS}.

Definition line_code (r : Z) : Prop := r = 0 \/ r = - EINVAL \/ r = - ENOMEM.

Lemma wp_alloc h (Q : bool -> trace -> Prop) : (forall b e, Q b e) -> wp alloc h Q.
Proof using. intros HQ. unfold alloc. wp_steps. apply HQ. Qed.

Lemma readline_loop_wp cap acc stream h :
  (length acc < cap)%nat ->
  wp (readline_loop cap acc stream) h (fun '(n, line, rest) _ =>
    n <= Z.of_nat (length line) /\ (length line + length rest <= length acc + length stream)%nat).
Proof using.
  revert cap acc h. induction stream as [|b stream IH]; intros cap acc h Hc; cbn [readline_loop].
  { rewrite (proj2 (Nat.ltb_lt _ _) Hc). wp_steps. simpl. lia. }
  wp_steps. eapply (wp_mono _ _ (fun cap' _ => forall c', cap' = Some c' -> (length acc + 1 < c')%nat)).
  { destruct (Nat.leb_spec cap (length acc + 1)); wp_steps; [|intros ? [= <-]; lia].
    apply wp_alloc. intros [] e; wp_steps; [|done]. intros ? [= <-]. lia. }
  intros [cap'|] e Hcap; [specialize (Hcap _ eq_refl)|wp_steps; unfold ENOMEM; simpl; lia].
  rewrite (proj2 (Nat.ltb_lt _ _)) by lia. destruct (b =? 10).
  - rewrite length_app. simpl. rewrite (proj2 (Nat.ltb_lt _ _)) by lia. wp_steps. len.
  - eapply wp_mono; [apply IH; len|]. intros [[n line] rest] e'. len.
Qed.

Lemma conf_readline_wp stream h :
  wp (conf_readline None stream) h (fun '(n, line, rest) _ =>
    n <= Z.of_nat (length line) /\ (length line + length rest <= length stream)%nat).
Proof using.
  unfold conf_readline. wp_steps. apply wp_alloc. intros [] e; wp_steps.
  - eapply wp_mono; [apply readline_loop_wp; simpl; lia|]. by intros [[n line] rest] e'.
  - unfold ENOMEM. simpl. lia.
Qed.

Lemma fill_add_wp n rest h : wp (fill_add n rest) h (fun _ _ => True).
Proof using.
  revert rest h. induction n as [|n IH]; intros rest h; simpl; wp_steps; [done|].
  apply wp_alloc. intros [] e; wp_steps; [|done]. eapply wp_mono; [apply IH|]. intros. by wp_steps.
Qed.

Lemma store_wp h f v c :
  wp (store_string f v c) h (fun res _ => line_code res.1) /\
  wp (store_password v c) h (fun res _ => line_code res.1) /\
  wp (store_add v c) h (fun res _ => line_code res.1).
Proof using.
  unfold store_string, store_password, store_add, line_code. split_and!.
  - case_decide; wp_steps; [auto|]. apply wp_alloc. intros [] e; wp_steps; auto.
  - wp_steps. apply wp_alloc. intros [] e; wp_steps; [|auto]. case_decide; auto.
  - case_decide; wp_steps; [auto|]. apply wp_alloc. intros [] e; wp_steps; [|auto].
    eapply wp_mono; [apply fill_add_wp|]. intros [l|] e' _; wp_steps; auto.
Qed.

Lemma conf_parse_line_wp l c h : wp (conf_parse_line l c) h (fun res _ => line_code res.1).
Proof using.
  assert (Hpair : forall k v n, wp (conf_parse_pair k v n c) h (fun res _ => line_code res.1)).
  { intros k v n. unfold conf_parse_pair.
    repeat case_decide; try (destruct (sscanf_u_1s v)); 
      try (by apply store_wp); try (by apply (store_wp h FPassword)); apply wp_ret;
      unfold line_code; simpl; try case_match; auto. }
  unfold conf_parse_line. repeat case_match; auto; apply wp_ret; by left.
Qed.

Lemma parse_stream_wp fuel stream c h :
  (length stream < fuel)%nat ->
  wp (parse_stream_loop fuel stream c) h (fun res _ => line_code res.1).
Proof using.
  revert stream c h. induction fuel as [|fuel IH]; intros stream c h Hf; [lia|].
  cbn [parse_stream_loop]. wp_steps. eapply wp_mono; [apply conf_readline_wp|].
  intros [[n line] rest] e [Hn Hlen]. destruct (Z.ltb_spec 0 n); [|wp_steps; by left].
  wp_steps. eapply wp_mono; [apply conf_parse_line_wp|]. intros [r c'] e' Hr.
  destruct (r <? 0); [by wp_steps|]. eapply wp_mono; [apply IH; lia|]. done.
Qed.

End Total.

(** ** The number of additional addresses, when memory does not run out *)

(** As many addresses are stored as their number says. *)
Definition addresses_counted (c : proxy_conf) : Prop :=
  bind_addr_ext_add_len c = Z.of_nat (length (default [] (bind_addr_ext_add c))).

Section Counted.
Context {O : OS} {Ha : AllocOK O}.

Lemma wp_alloc_true h (Q : bool -> trace -> Prop) : (forall e, Q true e) -> wp alloc h Q.
Proof using Ha.
  intros HQ. unfold alloc. wp_steps. match goal with |- Q ?b _ => replace b with true; [apply HQ|] end.
  symmetry. apply negb_true_iff, Z.eqb_neq, Ha.
Qed.

Lemma fill_add_length n rest h : wp (fill_add n rest) h (fun r _ => exists l, r = Some l /\ length l = n).
Proof using Ha.
  revert rest h. induction n as [|n IH]; intros rest h; cbn [fill_add]; wp_steps; [by exists []|].
  apply wp_alloc_true. intros e. wp_steps. eapply wp_mono; [apply IH|].
  intros ? e' (l & -> & Hl). wp_steps. eexists. split; [done|]. simpl. by rewrite Hl.
Qed.

Lemma counted_set_field f v c : addresses_counted (set_field f v c) = addresses_counted c.
Proof using. by destruct c, f. Qed.

Lemma conf_parse_line_counted l c h :
  addresses_counted c -> wp (conf_parse_line l c) h (fun res _ => addresses_counted res.2).
Proof using Ha.
  intros Hc. assert (Hpair : forall k v n, wp (conf_parse_pair k v n c) h (fun res _ => addresses_counted res.2)).
  { intros k v n. unfold conf_parse_pair, store_string, store_password, store_add.
    repeat case_decide; try (destruct (sscanf_u_1s v) as [? []]); wp_steps; try (apply wp_alloc_true; intros e; wp_steps);
      try case_decide; simpl; rewrite ?counted_set_field; try done; try (by destruct c).
    all: eapply wp_mono; [apply fill_add_length|]; intros ? e' (x & -> & Hx); wp_steps; destruct c;
      unfold addresses_counted; simpl; rewrite Hx, Z2Nat.id; [done|apply u16_range]. }
  unfold conf_parse_line. repeat case_match; auto; by apply wp_ret.
Qed.

Lemma conf_parse_file_counted file c h :
  addresses_counted c -> wp (conf_parse_file file c) h (fun res _ => addresses_counted res.2).
Proof using Ha.
  intros Hc. destruct file as [stream|e]; cbn [conf_parse_file]; [|by wp_steps]. unfold conf_parse_stream.
  assert (Hf : (length stream < S (length stream))%nat) by lia. revert Hf. generalize (S (length stream)) as fuel.
  intros fuel. revert stream c h Hc. induction fuel as [|fuel IH]; intros stream c h Hc Hf; [lia|].
  cbn [parse_stream_loop]. wp_steps. eapply wp_mono; [apply conf_readline_wp|].
  intros [[n line] rest] e [Hn Hlen]. destruct (Z.ltb_spec 0 n); [|by wp_steps].
  wp_steps. eapply wp_mono; [by apply conf_parse_line_counted|]. intros [r c'] e' Hr. simpl in Hr.
  destruct (r <? 0); [by wp_steps|]. eapply wp_mono; [apply IH; [done|lia]|]. done.
Qed.

(** What a file gives does not depend on what happened before. *)
Lemma conf_parse_file_yields file c : exists r, yields (conf_parse_file file c) r.
Proof using Ha.
  destruct file as [stream|e]; cbn [conf_parse_file]; [|eexists; apply yields_ret].
  destruct (parse_stream_lines (S (length stream)) stream c) as (r & Hr & _); [lia|]. by exists r.
Qed.

End Counted.

(** ** Properties *)

#[export] Instance Scripted_nil_alloc : AllocOK (Scripted []).
Proof. intros h. unfold os_answer, Scripted. by destruct (length _). Qed.

(** C9. Printing a configuration and parsing the text gives the configuration
    back, for every configuration whose values the format can hold (no newline
    or NUL inside, no blanks around, password other than the placeholder
    "notset"): every field goes to its own key, numbers survive the decimal
    notation, the additional addresses the comma list. *)
Theorem conf_print_parse {O : OS} {Ha : AllocOK O} c :
  conf_ok c ->
  yields (conf_parse_stream (print_conf c) (snd (conf_init conf_zero))) (0, c).
Proof.
  intros Hc. destruct (parse_stream_lines (S (length (print_conf c))) (print_conf c)
    (snd (conf_init conf_zero))) as (r & H1 & H2); [lia|].
  unfold print_conf at 1 in H2. rewrite lines_concat in H2 by by apply conf_lines_ok.
  pose proof (parse_conf_lines c Hc) as H3. specialize (H2 []). specialize (H3 []).
  unfold conf_parse_stream. congruence.
Qed.

Definition conf_example : proxy_conf :=
  mkConf (Some (str "10.0.0.1")) None (Some [str "10.0.0.3"; str "10.0.0.4"]) (Some (str "^KM.*"))
    None (Some (str "PUBLIC")) (Some (str "My Proxy")) None None 30 2 8100.

Lemma conf_print_parse_witness :
  yields (conf_parse_stream (H := Scripted []) (print_conf conf_example) (snd (conf_init conf_zero)))
         (0, conf_example).
Proof.
  assert (Htxt : forall v, bool_decide (v <> [] /\ Forall (fun b => b <> 0 /\ b <> 10) v) = true ->
     starts_clear is_blank v -> ends_clear is_blank_nl v -> text_ok v).
  { intros v Hv H1 H2. apply bool_decide_eq_true in Hv as [H3 H4]. split; [split|]; assumption. }
  apply (conf_print_parse (O := Scripted [])).
  split; try (unfold is_u16, is_u32; simpl; lia); try discriminate;
    try (intros v [= <-]; apply Htxt; reflexivity); try (intros v [=]; done).
  intros l [= <-]. split; [|split; [discriminate|simpl; lia]].
  repeat (apply Forall_cons; split; [apply (bool_decide_unpack _); vm_compute; exact I|]).
  apply Forall_nil_2.
Defined.

(** C36. Whatever the file contains and wherever memory runs out, parsing it
    terminates without overrunning the line buffer and returns 0, -EINVAL or
    -ENOMEM. *)
Theorem conf_parse_file_total `{OS} contents c h :
  exists r c' e, conf_parse_file (inl contents) c h = (Some (r, c'), e) /\
    (r = 0 \/ r = - EINVAL \/ r = - ENOMEM).
Proof.
  destruct (parse_stream_wp (S (length contents)) contents c h) as ([r c'] & e & Hr & Hc); [lia|].
  by exists r, c', e.
Qed.

(** A file is processed as the sequence of its lines: reading through the
    growing buffer gives the same result as splitting the contents at the
    newlines first and parsing each piece, stopping at the first error. *)
Theorem conf_parse_stream_lines {O : OS} {Ha : AllocOK O} stream c :
  exists r, yields (conf_parse_stream stream c) r /\
            yields (parse_lines (lines_from [] stream) c) r.
Proof. apply parse_stream_lines. lia. Qed.

Lemma conf_parse_stream_lines_witness :
  exists r, yields (conf_parse_stream (H := Scripted []) (str "Port=1") conf_zero) r /\
            yields (parse_lines (H := Scripted []) (lines_from [] (str "Port=1")) conf_zero) r.
Proof. apply (conf_parse_stream_lines (O := Scripted [])). Defined.

(** Blanks around the key, the value and the line do not matter: any such
    line stores the trimmed value under the trimmed key. *)
Theorem conf_parse_line_blanks `{OS} lead key w1 w2 val w3 c :
  forallb is_blank_nl lead = true -> key_ok key -> forallb is_blank w1 = true ->
  forallb is_blank w2 = true -> val_ok val -> forallb is_blank_nl w3 = true ->
  conf_parse_line (lead ++ key ++ w1 ++ 61 :: w2 ++ val ++ w3) c
  = conf_parse_pair key (val ++ w3) (length val) c.
Proof. apply parse_line_pair. Qed.

Lemma conf_parse_line_blanks_witness :
  conf_parse_line (H := Scripted []) (str "  BindAddress =  10.0.0.1  ") conf_zero
  = conf_parse_pair (H := Scripted []) (str "BindAddress") (str "10.0.0.1  ") 8 conf_zero.
Proof.
  apply (conf_parse_line_blanks (H := Scripted []) (str "  ") (str "BindAddress") (str " ") (str "  ")
           (str "10.0.0.1") (str "  ") conf_zero); try reflexivity;
    split; try reflexivity; try discriminate.
  split; [reflexivity|discriminate].
Defined.

(** Storing the list of additional addresses appends empty addresses, as
    many as the configuration already counted: the counter is not reset.  From
    a fresh configuration the entries are exactly the pieces between commas. *)
Theorem conf_additional_addresses {O : OS} {Ha : AllocOK O} v c :
  v <> [] -> head v <> Some 44 -> 0 <= bind_addr_ext_add_len c ->
  bind_addr_ext_add_len c + Z.of_nat (length (split_commas v)) < 2 ^ 16 ->
  yields (store_add v c)
    (0, set_add c (Some (split_commas v ++ replicate (Z.to_nat (bind_addr_ext_add_len c)) []))
                (bind_addr_ext_add_len c + Z.of_nat (length (split_commas v)))).
Proof. apply store_add_yields. Qed.

(** The second of two lines yields four addresses, two of them empty. *)
Lemma conf_additional_addresses_witness :
  yields (store_add (H := Scripted []) (str "10.0.0.3,10.0.0.4") conf_example)
    (0, set_add conf_example (Some [str "10.0.0.3"; str "10.0.0.4"; []; []]) 4).
Proof.
  apply (conf_additional_addresses (O := Scripted []) (str "10.0.0.3,10.0.0.4") conf_example);
    try discriminate; vm_compute; reflexivity.
Defined.

(** The value of [Port] may carry a sign: "-1" is accepted and stored as
    65535, and 65536 and more are accepted and reduced modulo 65536. *)
Theorem conf_port_wraps :
  yields (conf_parse_line (H := Scripted []) (str "Port=-1") conf_zero) (0, set_port conf_zero 65535) /\
  yields (conf_parse_line (H := Scripted []) (str "Port=65616") conf_zero) (0, set_port conf_zero 80).
Proof. split; intros h; by vm_compute. Qed.

(** When memory runs out while a line is read, the rest of the file is
    skipped and parsing still reports success. *)
Theorem conf_out_of_memory_ignored :
  exists O : OS, OSLaws O /\
    forall stream c, fst (conf_parse_stream stream c []) = Some (0, c).
Proof. exists (Scripted [returns 0]). split; [apply _|]. done. Qed.
