(* ===== verification/ProxyConn.v ===== *)
(** * Client sessions (src/src/proxy_conn.c, src/include/proxy_msg.h)

    A slot relays between one client (TCP) and the EchoLink network (two UDP
    ports and one TCP connection).  The handlers of the five message types, the
    three forwarders that run in worker threads, and the operations that claim,
    finish, start and stop a slot are definitions over [IO].

    The client's connection is shared by pointer with the proxy worker that
    accepted it: [heap] maps the pointer to the handle, and a slot stores the
    pointer, so that the client's handle may change, or be freed, behind the
    slot's back.  The other connections belong to the slot.  Log messages are
    not modelled. *)

From S2P Require Import Prelude Sys Mutex Worker Conn.

(** ** Messages *)

Definition PROXY_MSG_TYPE_TCP_OPEN : Z := 1.
Definition PROXY_MSG_TYPE_TCP_DATA : Z := 2.
Definition PROXY_MSG_TYPE_TCP_CLOSE : Z := 3.
Definition PROXY_MSG_TYPE_TCP_STATUS : Z := 4.
Definition PROXY_MSG_TYPE_UDP_DATA : Z := 5.
Definition PROXY_MSG_TYPE_UDP_CONTROL : Z := 6.

(** [struct proxy_msg]: nine packed bytes, integers in host (little-endian)
    order. *)
Record proxy_msg : Type := mkMsg { msg_type : Z; msg_address : Z; msg_size : Z }.

Definition MSG_LEN : nat := 9.
Definition CONN_BUFF_LEN : nat := 4096.
Definition CONN_BUFF_LEN_HEADERLESS : nat := CONN_BUFF_LEN - MSG_LEN.

Definition le32 (z : Z) : list Z :=
  [u8 z; u8 (Z.shiftr z 8); u8 (Z.shiftr z 16); u8 (Z.shiftr z 24)].
Definition of_le32 (l : list Z) : Z :=
  nth 0 l 0 + nth 1 l 0 * 2 ^ 8 + nth 2 l 0 * 2 ^ 16 + nth 3 l 0 * 2 ^ 24.

Definition msg_bytes (m : proxy_msg) : list Z :=
  u8 (msg_type m) :: le32 (msg_address m) ++ le32 (msg_size m).
Definition msg_of_bytes (l : list Z) : proxy_msg :=
  mkMsg (nth 0 l 0) (of_le32 (drop 1 l)) (of_le32 (drop 5 l)).

(** ** State *)

Record pc_priv : Type := mkPriv {
  conn_client : option nat;                (* pointer into the heap *)
  conn_control : conn_handle;
  conn_data : conn_handle;
  conn_tcp : conn_handle;
  mutex_client : bool;                     (* initialised? *)
  mutex_client_send : bool;
  worker_control : worker_handle;
  worker_data : worker_handle;
  worker_tcp : worker_handle;
  callsign : list Z;                       (* the C string in the 12 bytes *)
}.

Record proxy_conn_handle : Type := mkPc {
  pc_id : nat;
  pc_priv_ptr : option pc_priv;
  pc_source_addr : option (list Z);
  control_port : option (list Z);
  data_port : option (list Z);
}.

Abbreviation heap := (gmap nat conn_handle).
Record pst : Type := mkPst { pc : proxy_conn_handle; hp : heap }.

Definition set_pc (s : pst) (p : option pc_priv) : pst :=
  mkPst (mkPc (pc_id (pc s)) p (pc_source_addr (pc s)) (control_port (pc s)) (data_port (pc s))) (hp s).
Definition set_hp (s : pst) (h : heap) : pst := mkPst (pc s) h.

Definition set_client (p : pc_priv) (x : option nat) : pc_priv :=
  mkPriv x (conn_control p) (conn_data p) (conn_tcp p) (mutex_client p) (mutex_client_send p)
         (worker_control p) (worker_data p) (worker_tcp p) (callsign p).
Definition set_callsign (p : pc_priv) (x : list Z) : pc_priv :=
  mkPriv (conn_client p) (conn_control p) (conn_data p) (conn_tcp p) (mutex_client p)
         (mutex_client_send p) (worker_control p) (worker_data p) (worker_tcp p) x.

(** The three embedded connections and workers, by name. *)
Inductive leg : Type := Control | Data | Tcp.

Definition conn_of (l : leg) (p : pc_priv) : conn_handle :=
  match l with Control => conn_control p | Data => conn_data p | Tcp => conn_tcp p end.
Definition set_conn (l : leg) (p : pc_priv) (c : conn_handle) : pc_priv :=
  match l with
  | Control => mkPriv (conn_client p) c (conn_data p) (conn_tcp p) (mutex_client p)
                 (mutex_client_send p) (worker_control p) (worker_data p) (worker_tcp p) (callsign p)
  | Data => mkPriv (conn_client p) (conn_control p) c (conn_tcp p) (mutex_client p)
                 (mutex_client_send p) (worker_control p) (worker_data p) (worker_tcp p) (callsign p)
  | Tcp => mkPriv (conn_client p) (conn_control p) (conn_data p) c (mutex_client p)
                 (mutex_client_send p) (worker_control p) (worker_data p) (worker_tcp p) (callsign p)
  end.
Definition worker_of (l : leg) (p : pc_priv) : worker_handle :=
  match l with Control => worker_control p | Data => worker_data p | Tcp => worker_tcp p end.
Definition set_worker (l : leg) (p : pc_priv) (w : worker_handle) : pc_priv :=
  match l with
  | Control => mkPriv (conn_client p) (conn_control p) (conn_data p) (conn_tcp p) (mutex_client p)
                 (mutex_client_send p) w (worker_data p) (worker_tcp p) (callsign p)
  | Data => mkPriv (conn_client p) (conn_control p) (conn_data p) (conn_tcp p) (mutex_client p)
                 (mutex_client_send p) (worker_control p) w (worker_tcp p) (callsign p)
  | Tcp => mkPriv (conn_client p) (conn_control p) (conn_data p) (conn_tcp p) (mutex_client p)
                 (mutex_client_send p) (worker_control p) (worker_data p) w (callsign p)
  end.

Section Operations.
Context `{OS}.

(** Dereference [pc->priv], and [priv->conn_client]: NULL, or a pointer to
    memory that has been freed, is undefined behaviour. *)
Definition with_pc {A} (s : pst) (k : pc_priv -> IO A) : IO A :=
  match pc_priv_ptr (pc s) with None => crash | Some p => k p end.
Definition with_client {A} (s : pst) (p : pc_priv) (k : nat -> conn_handle -> IO A) : IO A :=
  match conn_client p with
  | None => crash
  | Some i => match hp s !! i with None => crash | Some c => k i c end
  end.

Definition client_lock (s : pst) : mutex_id := MClient (pc_id (pc s)).
Definition send_lock (s : pst) : mutex_id := MClientSend (pc_id (pc s)).

(** Send bytes to the client under [mutex_client_send]. *)
Definition send_client (s : pst) (p : pc_priv) (b : list Z) : IO Z :=
  do* mutex_lock (send_lock s) in
  let* r := with_client s p (fun _ c => conn_send c b) in
  do* mutex_unlock (send_lock s) in
  ret r.

Definition send_tcp_close (s : pst) : IO Z :=
  with_pc s (fun p => send_client s p (msg_bytes (mkMsg PROXY_MSG_TYPE_TCP_CLOSE 0 0))).

Definition proxy_conn_drop (s : pst) : IO pst :=
  with_pc s (fun p =>
  do* mutex_lock_shared (client_lock s) in
  let* s' := (match conn_client p with
              | None => ret s
              | Some _ => with_client s p (fun i c =>
                  let* c := conn_drop c in ret (set_hp s (<[i := c]> (hp s))))
              end) in
  do* mutex_unlock_shared (client_lock s) in
  ret s').

(** [conn_close] of an embedded connection. *)
Definition close_leg (l : leg) (s : pst) : IO pst :=
  with_pc s (fun p => let* c := conn_close (conn_of l p) in ret (set_pc s (Some (set_conn l p c)))).

(** The errors after which a session ends quietly. *)
Definition quiet_error (r : Z) : bool :=
  (r =? - ECONNRESET) || (r =? - EINTR) || (r =? - ENOTCONN) || (r =? - EPIPE).

(** [proxy_conn_drop] unless the error is quiet. *)
Definition drop_unless_quiet (r : Z) (s : pst) : IO pst :=
  if quiet_error r then ret s else proxy_conn_drop s.

Definition leg_type (l : leg) : Z :=
  match l with
  | Control => PROXY_MSG_TYPE_UDP_CONTROL
  | Data => PROXY_MSG_TYPE_UDP_DATA
  | Tcp => PROXY_MSG_TYPE_TCP_DATA
  end.

(** One round of a forwarder's loop: receive, and pass the data on to the
    client as one message.  [inl] keeps looping, [inr] has returned. *)
Definition forward_round (l : leg) (s : pst) : IO (pst + pst) :=
  with_pc s (fun p =>
  let* (r, data, from, c) := conn_recv_any (conn_of l p) CONN_BUFF_LEN_HEADERLESS in
  let p := set_conn l p c in
  let s := set_pc s (Some p) in
  if 0 <? r then
    let addr := match l, from with (Control | Data), Some (a, _) => a | _, _ => 0 end in
    let* r := send_client s p (msg_bytes (mkMsg (leg_type l) addr r) ++ data) in
    if r <? 0 then
      let* s := close_leg l s in
      let* s := drop_unless_quiet r s in
      ret (inr s)
    else ret (inl s)
  else
    let r := if r =? 0 then - EPIPE else r in
    let* s := (match l with Tcp => ret s | _ => drop_unless_quiet r s end) in
    let* s := close_leg l s in
    do* (match l with Tcp => send_tcp_close s | _ => ret 0 end) in
    ret (inr s)).

(** [forwarder_control], [forwarder_data] and [forwarder_tcp], observed for at
    most [n] rounds. *)
Fixpoint forwarder (l : leg) (n : nat) (s : pst) : IO (pst + pst) :=
  match n with
  | O => ret (inl s)
  | S n =>
      let* r := forward_round l s in
      match r with inl s => forwarder l n s | inr s => ret (inr s) end
  end.
Definition forwarder_control := forwarder Control.
Definition forwarder_data := forwarder Data.
Definition forwarder_tcp := forwarder Tcp.

(** *** Messages from the client *)

(** The size of the next piece of [n] outstanding bytes. *)
Definition piece (n : Z) : nat := Z.to_nat (Z.min n (Z.of_nat CONN_BUFF_LEN)).

(** Every round but the last takes a full buffer. *)
Definition pieces (n : Z) : nat := Z.to_nat ((n + 4095) / 4096).

(** The loop of [process_control_data_message] and [process_data_message]. *)
Fixpoint udp_loop (fuel : nat) (l : leg) (port : Z) (s : pst) (p : pc_priv) (addr n : Z) : IO Z :=
  if n <=? 0 then ret 0 else
  match fuel with
  | O => crash
  | S fuel =>
      let* (r, data) := with_client s p (fun _ c => conn_recv c (piece n)) in
      if r <? 0 then ret r else if r =? 0 then ret (- EPIPE) else
      do* conn_send_to (conn_of l p) data addr port in
      udp_loop fuel l port s p addr (n - r)
  end.

Definition process_control_data_message (s : pst) (m : proxy_msg) : IO (Z * pst) :=
  with_pc s (fun p =>
  let* r := udp_loop (pieces (msg_size m)) Control 5199 s p (msg_address m) (msg_size m) in
  ret (r, s)).

Definition process_data_message (s : pst) (m : proxy_msg) : IO (Z * pst) :=
  with_pc s (fun p =>
  let* r := udp_loop (pieces (msg_size m)) Data 5198 s p (msg_address m) (msg_size m) in
  ret (r, s)).

Definition process_tcp_close_message (s : pst) (m : proxy_msg) : IO (Z * pst) :=
  let* s := close_leg Tcp s in ret (0, s).

(** The loop of [process_tcp_data_message]: after a failed send the rest is
    received and discarded.  The result is the client's error, if any, and
    [tcp_ret]. *)
Fixpoint tcp_loop (fuel : nat) (s : pst) (n tcp_ret : Z) : IO (Z * Z * pst) :=
  if n <=? 0 then ret (0, tcp_ret, s) else
  match fuel with
  | O => crash
  | S fuel =>
      with_pc s (fun p =>
      let* (r, data) := with_client s p (fun _ c => conn_recv c (piece n)) in
      if r <? 0 then ret (r, tcp_ret, s) else if r =? 0 then ret (- EPIPE, tcp_ret, s) else
      if tcp_ret =? 0 then
        let* t := conn_send (conn_tcp p) data in
        let* s := (if t <? 0 then close_leg Tcp s else ret s) in
        tcp_loop fuel s (n - r) t
      else tcp_loop fuel s (n - r) tcp_ret)
  end.

Definition process_tcp_data_message (s : pst) (m : proxy_msg) : IO (Z * pst) :=
  let* (r, tcp_ret, s) := tcp_loop (pieces (msg_size m)) s (msg_size m) 0 in
  if r <? 0 then ret (r, s)
  else if tcp_ret =? 0 then ret (0, s)
  else do* send_tcp_close s in ret (0, s).

(** [snprintf(addr, 16, "%hu.%hu.%hu.%hu", ...)] from the four bytes of the
    address in memory order; at most 15 characters and at least 7. *)
Definition addr_text (a : Z) : list Z :=
  match le32 a with
  | [a; b; c; d] => dec a ++ str "." ++ dec b ++ str "." ++ dec c ++ str "." ++ dec d
  | _ => []
  end.

Definition process_tcp_open_message (s : pst) (m : proxy_msg) : IO (Z * pst) :=
  with_pc s (fun p =>
  let addr := addr_text (msg_address m) in
  if (length addr <? 7)%nat || (15 <? length addr)%nat then ret (- EINVAL, s) else
  let* (r, c) := conn_connect (conn_tcp p) addr (str "5200") in
  let p := set_conn Tcp p c in
  let* (r, p) :=
    (if r <? 0 then ret (r, p)
     else
       let* (r, w) := worker_wake (worker_tcp p) in
       let p := set_worker Tcp p w in
       if r <? 0 then let* c := conn_close (conn_tcp p) in ret (r, set_conn Tcp p c)
       else ret (r, p)) in
  let s := set_pc s (Some p) in
  let* r := send_client s p (msg_bytes (mkMsg PROXY_MSG_TYPE_TCP_STATUS 0 4) ++ le32 r) in
  ret (r, s)).

Definition process_message (s : pst) (m : proxy_msg) : IO (Z * pst) :=
  if msg_type m =? PROXY_MSG_TYPE_TCP_OPEN then process_tcp_open_message s m
  else if msg_type m =? PROXY_MSG_TYPE_TCP_DATA then process_tcp_data_message s m
  else if msg_type m =? PROXY_MSG_TYPE_TCP_CLOSE then process_tcp_close_message s m
  else if msg_type m =? PROXY_MSG_TYPE_UDP_DATA then process_data_message s m
  else if msg_type m =? PROXY_MSG_TYPE_UDP_CONTROL then process_control_data_message s m
  else ret (- EINVAL, s).

Definition proxy_conn_process (s : pst) : IO (Z * pst) :=
  with_pc s (fun p =>
  let* (r, b) := with_client s p (fun _ c => conn_recv c MSG_LEN) in
  if r <? 0 then ret (r, s) else process_message s (msg_of_bytes b)).

(** The loop of [proxy_worker_func] over a session's messages, observed for at
    most [n] of them: [inl] when all were processed, [inr] when the session has
    ended. *)
Fixpoint process_loop (n : nat) (s : pst) : IO (pst + pst) :=
  match n with
  | O => ret (inl s)
  | S n =>
      let* (r, s) := proxy_conn_process s in
      if 0 <=? r then process_loop n s else ret (inr s)
  end.

(** *** Life of a slot *)

(** [worker_wait_idle], [worker_start] and [worker_join] of a leg's worker. *)
Definition on_worker (f : worker_handle -> IO (Z * worker_handle)) (l : leg) (s : pst) : IO (Z * pst) :=
  with_pc s (fun p =>
  let* (r, w) := f (worker_of l p) in ret (r, set_pc s (Some (set_worker l p w)))).

Definition proxy_conn_finish (s : pst) : IO pst :=
  let* s := proxy_conn_drop s in
  let* s := close_leg Control s in
  let* s := close_leg Data s in
  let* s := close_leg Tcp s in
  let* (_, s) := on_worker worker_wait_idle Tcp s in
  let* (_, s) := on_worker worker_wait_idle Data s in
  let* (_, s) := on_worker worker_wait_idle Control s in
  do* mutex_lock (client_lock s) in
  let* s' := with_pc s (fun p => ret (set_pc s (Some (set_client p None)))) in
  do* mutex_unlock (client_lock s) in
  ret s'.

(** [conn_listen] of a leg. *)
Definition listen_leg (l : leg) (s : pst) : IO (Z * pst) :=
  with_pc s (fun p =>
  let* (r, c) := conn_listen (conn_of l p) in ret (r, set_pc s (Some (set_conn l p c)))).

Definition proxy_conn_accept (s : pst) (client : nat) (call : list Z) (reconnect_only : bool)
  : IO (Z * pst) :=
  let fail (r : Z) (s : pst) : IO (Z * pst) := let* s := proxy_conn_finish s in ret (r, s) in
  with_pc s (fun p =>
  do* mutex_lock (client_lock s) in
  if bool_decide (is_Some (conn_client p)) || (reconnect_only && negb (bool_decide (callsign p = call)))
  then do* mutex_unlock (client_lock s) in ret (- EBUSY, s)
  else
    do* mutex_unlock (client_lock s) in
    let s := set_pc s (Some (set_client (set_callsign p (take 11 call)) (Some client))) in
    let* (r, s) := listen_leg Control s in
    if r <? 0 then fail r s else
    let* (r, s) := listen_leg Data s in
    if r <? 0 then fail r s else
    let* (r, s) := on_worker worker_wake Control s in
    if r <? 0 then fail r s else
    let* (r, s) := on_worker worker_wake Data s in
    if r <? 0 then fail r s else
    ret (0, s)).

Definition proxy_conn_in_use (s : pst) : IO Z :=
  with_pc s (fun p =>
  do* mutex_lock_shared (client_lock s) in
  do* mutex_unlock_shared (client_lock s) in
  ret (if bool_decide (is_Some (conn_client p)) then 1 else 0)).

Definition proxy_conn_start (s : pst) : IO (Z * pst) :=
  with_pc s (fun _ =>
  do* mutex_lock_shared (client_lock s) in
  let* res :=
    (let* (r, s) := on_worker worker_start Control s in
     if r <? 0 then ret (r, s) else
     let* (r, s) := on_worker worker_start Data s in
     if r <? 0 then ret (r, s) else
     on_worker worker_start Tcp s) in
  do* mutex_unlock_shared (client_lock s) in
  ret res).

Definition proxy_conn_stop (s : pst) : IO (Z * pst) :=
  let* s := proxy_conn_finish s in
  let* (r1, s) := on_worker worker_join Tcp s in
  let* (r2, s) := on_worker worker_join Data s in
  let* (r3, s) := on_worker worker_join Control s in
  ret (if r3 <? 0 then r3 else if r2 <? 0 then r2 else if r1 <? 0 then r1 else 0, s).

(** The cleanup shared by [proxy_conn_free] and the failure of
    [proxy_conn_init]. *)
Definition release (p : pc_priv) : IO unit :=
  do* worker_free (worker_tcp p) in
  do* worker_free (worker_data p) in
  do* worker_free (worker_control p) in
  do* mutex_free (mutex_client p) in
  do* mutex_free (mutex_client_send p) in
  do* conn_free (conn_tcp p) in
  do* conn_free (conn_data p) in
  do* conn_free (conn_control p) in
  ret tt.

Definition proxy_conn_free (s : pst) : IO pst :=
  match pc_priv_ptr (pc s) with
  | None => ret s
  | Some _ =>
      let* (_, s) := proxy_conn_stop s in
      with_pc s (fun p => do* release p in ret (set_pc s None))
  end.

(** A zeroed [proxy_conn_priv]; the numbers name the locks of its parts. *)
Definition pc_zero (id : nat) : pc_priv :=
  let c k := mkConn (3 * id + k) None None 0 None in
  let w k := mkWorker (3 * id + k) None 0 0 in
  mkPriv None (c 0%nat) (c 1%nat) (c 2%nat) false false (w 0%nat) (w 1%nat) (w 2%nat) [].

(** Configure and initialise a connection, and a worker. *)
Definition init_conn (l : leg) (addr port : option (list Z)) (ty : Z) (p : pc_priv)
  : IO (Z * pc_priv) :=
  let c := conn_of l p in
  let* (r, c) := conn_init (mkConn (conn_id c) addr port ty (priv c)) in
  ret (r, set_conn l p c).

Definition init_worker (l : leg) (p : pc_priv) : IO (Z * pc_priv) :=
  let w := worker_of l p in
  let* (r, w) := worker_init (mkWorker (worker_id w) (wpriv w) (1024 * 1024) (periodic_wake w)) in
  ret (r, set_worker l p w).

Definition set_mutexes (p : pc_priv) (m ms : bool) : pc_priv :=
  mkPriv (conn_client p) (conn_control p) (conn_data p) (conn_tcp p) m ms
         (worker_control p) (worker_data p) (worker_tcp p) (callsign p).

(** The steps of the initialisation; each one continues only after success. *)
Definition then_init (m : IO (Z * pc_priv)) (k : pc_priv -> IO (Z * pc_priv)) : IO (Z * pc_priv) :=
  let* (r, p) := m in if negb (r =? 0) then ret (r, p) else k p.

(** The value returned is 0 also when a step has failed. *)
Definition proxy_conn_init (s : pst) : IO (Z * pst) :=
  let c := pc s in
  let* p0 := match pc_priv_ptr c with
             | Some p => ret (Some p)
             | None => let* a := sys CAlloc in
                       ret (if a_ret a =? 0 then None else Some (pc_zero (pc_id c)))
             end in
  match p0 with
  | None => ret (- ENOMEM, s)
  | Some p =>
      let* (r, p) :=
        (then_init (init_conn Control (pc_source_addr c) (control_port c) CONN_TYPE_UDP p) (fun p =>
         then_init (init_conn Data (pc_source_addr c) (data_port c) CONN_TYPE_UDP p) (fun p =>
         then_init (init_conn Tcp (pc_source_addr c) None CONN_TYPE_TCP p) (fun p =>
         then_init (let* (r, b) := mutex_init (mutex_client_send p) in
                    ret (r, set_mutexes p (mutex_client p) b)) (fun p =>
         then_init (let* (r, b) := mutex_init (mutex_client p) in
                    ret (r, set_mutexes p b (mutex_client_send p))) (fun p =>
         then_init (init_worker Control p) (fun p =>
         then_init (init_worker Data p) (fun p =>
         init_worker Tcp p)))))))) in
      if r =? 0 then ret (0, set_pc s (Some p))
      else do* release p in ret (0, set_pc s None)
  end.

End Operations.

(** ** The message header *)

Lemma le32_roundtrip z r : is_u32 z -> of_le32 (le32 z ++ r) = z.
Proof.
  unfold is_u32, of_le32, le32, u8. intros Hz. cbn [nth app]. rewrite !Z.shiftr_div_pow2 by lia.
  change (2 ^ 8) with 256. change (2 ^ 16) with 65536. change (2 ^ 24) with 16777216.
  change (2 ^ 32) with 4294967296 in Hz. div_lia.
Qed.

Lemma of_le32_range l : bytes_ok l -> is_u32 (of_le32 l).
Proof.
  intros Hl. assert (Hn : forall i, 0 <= nth i l 0 < 256).
  { intros i. destruct (decide (i < length l)%nat) as [Hi|Hi].
    - unfold bytes_ok in Hl. rewrite Forall_forall in Hl. apply (Hl (nth i l 0)), list_elem_of_In, nth_In, Hi.
    - rewrite nth_overflow by lia. lia. }
  pose proof (Hn 0%nat). pose proof (Hn 1%nat). pose proof (Hn 2%nat). pose proof (Hn 3%nat).
  unfold of_le32, is_u32. change (2 ^ 8) with 256. change (2 ^ 16) with 65536.
  change (2 ^ 24) with 16777216. change (2 ^ 32) with 4294967296. lia.
Qed.

(** The size of the payload that follows a header. *)
Definition payload_size (m : proxy_msg) : Z :=
  if bool_decide (msg_type m ∈ [PROXY_MSG_TYPE_TCP_DATA; PROXY_MSG_TYPE_UDP_DATA;
                                PROXY_MSG_TYPE_UDP_CONTROL]) then msg_size m else 0.

(** Consecutive pieces of at most one buffer. *)
Fixpoint chunks (k : nat) (l : list Z) : list (list Z) :=
  match k with
  | O => []
  | S k => if decide (l = []) then [] else take CONN_BUFF_LEN l :: chunks k (drop CONN_BUFF_LEN l)
  end.

Lemma chunks_app k a b :
  a <> [] -> (length a = CONN_BUFF_LEN \/ b = [] /\ (length a <= CONN_BUFF_LEN)%nat) ->
  chunks (S k) (a ++ b) = a :: chunks k b.
Proof.
  intros Ha Hc. cbn [chunks]. rewrite decide_False by (by destruct a).
  destruct Hc as [Hc|[-> Hc]].
  - by rewrite <- Hc, take_app_length, drop_app_length.
  - rewrite app_nil_r, take_ge, drop_ge by lia. done.
Qed.

Lemma piece_length n : 0 < n -> (0 < piece n <= CONN_BUFF_LEN)%nat /\ Z.of_nat (piece n) <= n /\
  (piece n = CONN_BUFF_LEN \/ Z.of_nat (piece n) = n).
Proof. unfold piece, CONN_BUFF_LEN. lia. Qed.

(** ** Claiming and finishing a slot *)

(** The parts of a slot are initialised and its client pointer, if any, is not
    dangling. *)
Record alive (h : heap) (p : pc_priv) : Prop := {
  alive_conn : forall l, is_Some (priv (conn_of l p));
  alive_worker : forall l, worker_up (worker_of l p);
  alive_client : forall i, conn_client p = Some i -> exists c, h !! i = Some c /\ is_Some (priv c);
}.
Definition slot (s : pst) (p : pc_priv) : Prop :=
  pc_priv_ptr (pc s) = Some p /\ alive (hp s) p.

(** No descriptor is left. *)
Definition closed (c : conn_handle) : Prop :=
  exists q, priv c = Some q /\ fd q = INVALID_SOCKET /\ held q = ∅.

Lemma alive_set_conn h l p c : alive h p -> is_Some (priv c) -> alive h (set_conn l p c).
Proof.
  intros [H1 H2 H3] Hc. split.
  - intros l'. specialize (H1 l'). by destruct l', l.
  - intros l'. specialize (H2 l'). by destruct l', l.
  - intros i. specialize (H3 i). by destruct l.
Qed.

Lemma alive_set_worker h l p w : alive h p -> worker_up w -> alive h (set_worker l p w).
Proof.
  intros [H1 H2 H3] Hc. split.
  - intros l'. specialize (H1 l'). by destruct l', l.
  - intros l'. specialize (H2 l'). by destruct l', l.
  - intros i. specialize (H3 i). by destruct l.
Qed.

(** Where the client's pointer and callsign stay what they are. *)
Definition same_client (p p' : pc_priv) : Prop :=
  conn_client p' = conn_client p /\ callsign p' = callsign p.

Section Slot.
Context {O : OS}.

Lemma slot_close_leg l s p h :
  slot s p -> wp (close_leg l s) h (fun s' _ => exists c,
    closed c /\ s' = set_pc s (Some (set_conn l p c)) /\ slot s' (set_conn l p c)).
Proof using.
  intros [Hp Ha]. unfold close_leg, with_pc. rewrite Hp. wp_steps.
  destruct (alive_conn _ _ Ha l) as [q Hq].
  eapply wp_mono; [by apply (conn_close_wp _ q)|]. intros c e [-> _]. wp_steps.
  eexists. split; [|split; [done|split; [done|by apply alive_set_conn]]].
  eexists. split; [done|]. split; [done|]. apply held_closed.
Qed.

Lemma slot_on_worker f l s p h :
  (forall w h, worker_up w -> wp (f w) h (fun res _ => worker_up res.2)) ->
  slot s p -> wp (on_worker f l s) h (fun res _ => exists w,
    res.2 = set_pc s (Some (set_worker l p w)) /\ slot res.2 (set_worker l p w)).
Proof using.
  intros Hf [Hp Ha]. unfold on_worker, with_pc. rewrite Hp. wp_steps.
  eapply wp_mono; [apply Hf, Ha|]. intros [r w] e Hw. wp_steps.
  exists w. split; [done|]. split; [done|]. by apply alive_set_worker.
Qed.

(** After waiting for it, the forwarder of a leg is not running. *)
Lemma slot_wait_idle l s p h :
  slot s p -> wp (on_worker worker_wait_idle l s) h (fun res _ => exists w,
    res.2 = set_pc s (Some (set_worker l p w)) /\ slot res.2 (set_worker l p w) /\ ~ working w).
Proof using.
  intros [Hp Ha]. unfold on_worker, with_pc. rewrite Hp. wp_steps.
  eapply wp_mono; [apply worker_wait_idle_up, Ha|]. intros [r w] e [Hw Hn]. wp_steps.
  exists w. split; [done|]. split; [|done]. split; [done|]. by apply alive_set_worker.
Qed.

Lemma wake_alive w h : worker_up w -> wp (worker_wake w) h (fun res _ => worker_up res.2).
Proof using. intros Hw. eapply wp_mono; [by apply worker_wake_up|]. by intros res e [? _]. Qed.

Lemma slot_drop s p h :
  slot s p -> wp (proxy_conn_drop s) h (fun s' _ =>
    pc s' = pc s /\ slot s' p /\
    forall i, conn_client p = Some i -> exists c q, hp s' !! i = Some c /\ priv c = Some q /\
      fd q = INVALID_SOCKET /\ conn_fd q = INVALID_SOCKET).
Proof using.
  intros [Hp Ha]. unfold proxy_conn_drop, with_pc. rewrite Hp. wp_steps.
  destruct (conn_client p) as [i|] eqn:Hi; [|wp_steps; by split_and!].
  destruct (alive_client _ _ Ha i Hi) as (c & Hc & q & Hq). unfold with_client. rewrite Hi, Hc. wp_steps.
  eapply wp_mono; [by apply (conn_drop_wp _ q)|].
  intros c' e (q' & -> & Hf & Hcf & _). wp_steps. split; [done|]. split.
  - split; [done|]. destruct Ha as [H1 H2 H3]. split; [done|done|]. intros j Hj. simpl.
    destruct (decide (i = j)) as [<-|Hne]; [rewrite lookup_insert_eq; eauto|].
    rewrite lookup_insert_ne by done. auto.
  - intros j [= <-]. simpl. rewrite lookup_insert_eq. eauto 10.
Qed.

Lemma slot_drop_quiet r s p h :
  slot s p -> wp (drop_unless_quiet r s) h (fun s' _ => slot s' p).
Proof using.
  intros Hs. unfold drop_unless_quiet. case_match; wp_steps; [done|].
  eapply wp_mono; [by apply slot_drop|]. by intros s' e (_ & ? & _).
Qed.

Lemma slot_finish s p h :
  slot s p -> wp (proxy_conn_finish s) h (fun s' _ => exists p',
    slot s' p' /\ conn_client p' = None /\ callsign p' = callsign p /\
    (forall l, closed (conn_of l p')) /\ (forall l, ~ working (worker_of l p')) /\
    forall i, conn_client p = Some i -> exists c q, hp s' !! i = Some c /\ priv c = Some q /\
      fd q = INVALID_SOCKET /\ conn_fd q = INVALID_SOCKET).
Proof using.
  intros Hs. unfold proxy_conn_finish. wp_steps.
  eapply wp_mono; [by apply slot_drop|]. intros s1 e1 (_ & Hs1 & Hd). wp_steps.
  eapply wp_mono; [by apply slot_close_leg|]. intros s2 e2 (c1 & Hc1 & E2 & Hs2). wp_steps.
  eapply wp_mono; [by apply slot_close_leg|]. intros s3 e3 (c2 & Hc2 & E3 & Hs3). wp_steps.
  eapply wp_mono; [by apply slot_close_leg|]. intros s4 e4 (c3 & Hc3 & E4 & Hs4). wp_steps.
  eapply wp_mono; [apply slot_wait_idle, Hs4|].
  intros [r5 s5] e5 (w1 & E5 & Hs5 & Hi1). simpl in E5, Hs5. wp_steps.
  eapply wp_mono; [apply slot_wait_idle, Hs5|].
  intros [r6 s6] e6 (w2 & E6 & Hs6 & Hi2). simpl in E6, Hs6. wp_steps.
  eapply wp_mono; [apply slot_wait_idle, Hs6|].
  intros [r7 s7] e7 (w3 & E7 & Hs7 & Hi3). simpl in E7, Hs7. wp_steps.
  unfold with_pc. rewrite (proj1 Hs7). wp_steps. eexists (set_client _ None). split; [|split; [done|]].
  - split; [done|]. destruct Hs7 as [_ [H1 H2 _]].
    split; [intros l; specialize (H1 l); by destruct l|intros l; specialize (H2 l); by destruct l|done].
  - split; [done|]. split; [by intros []|]. split; [by intros []|]. intros i Hi. subst. simpl. by apply Hd.
Qed.

Context {Hos : OSLaws O}.

Lemma listen_alive c h :
  is_Some (priv c) ->
  wp (conn_listen c) h (fun res _ => is_Some (priv res.2) /\ (res.1 = 0 \/ res.1 < 0)).
Proof using Hos.
  intros [p Hp]. unfold conn_listen, with_priv. rewrite Hp.
  assert (Hst : forall h c v, (c = CBind v \/ c = CListen v) ->
    a_ret (os_answer h c) = 0 \/ a_ret (os_answer h c) = -1 /\ 0 < a_errno (os_answer h c)).
  { intros h' c' v Hc. pose proof (Hos h' c') as Hl. destruct Hc as [->| ->]; simpl in Hl; unfold failed in Hl; tauto. }
  case_match; wp_steps; [simpl; rewrite Hp; split; [done|lia]|].
  case_match; wp_steps; [simpl; rewrite Hp; split; [done|unfold EADDRNOTAVAIL; lia]|].
  unfold INVALID_SOCKET, SOCKET_ERROR, SOCK_ERRNO.
  match goal with |- context [os_answer ?h1 (CSocket ?b)] =>
    pose proof (Hos h1 (CSocket b)) as Hl; set (a := os_answer h1 (CSocket b)) in * end.
  simpl in Hl. unfold failed in Hl.
  destruct (Z.eqb_spec (a_ret a) (-1)) as [Ea|Ea]; wp_steps; [simpl; split; [done|lia]|].
  match goal with |- context [os_answer ?h1 (CSetsockopt ?x ?o)] =>
    pose proof (Hos h1 (CSetsockopt x o)) as Hl2; set (a2 := os_answer h1 (CSetsockopt x o)) in * end.
  simpl in Hl2. unfold failed in Hl2.
  destruct (Z.eqb_spec (a_ret a2) (-1)) as [Ea2|Ea2]; wp_steps; [simpl; split; [done|lia]|].
  match goal with |- context [os_answer ?h1 (CBind ?x)] =>
    pose proof (Hst h1 (CBind x) x (or_introl eq_refl)) as Hl3; set (a3 := os_answer h1 (CBind x)) in * end.
  destruct (Z.eqb_spec (a_ret a3) (-1)) as [Ea3|Ea3]; wp_steps; [simpl; split; [done|lia]|].
  destruct (conn_type c =? CONN_TYPE_TCP); wp_steps.
  - match goal with |- context [os_answer ?h1 (CListen ?x)] =>
      pose proof (Hst h1 (CListen x) x (or_intror eq_refl)) as Hl4; set (a4 := os_answer h1 (CListen x)) in * end.
    destruct (Z.eqb_spec (a_ret a4) (-1)) as [Ea4|Ea4]; wp_steps; simpl; (split; [done|lia]).
  - rewrite (proj2 (Z.eqb_neq _ _) Ea3). wp_steps. simpl. split; [done|lia].
Qed.

Lemma slot_listen_leg l s p h :
  slot s p -> wp (listen_leg l s) h (fun res _ => (res.1 = 0 \/ res.1 < 0) /\ exists c,
    res.2 = set_pc s (Some (set_conn l p c)) /\ slot res.2 (set_conn l p c)).
Proof using Hos.
  intros [Hp Ha]. unfold listen_leg, with_pc. rewrite Hp. wp_steps.
  eapply wp_mono; [apply listen_alive, Ha|]. intros [r c] e [Hc Hr]. wp_steps.
  split; [done|]. exists c. split; [done|]. split; [done|]. by apply alive_set_conn.
Qed.

(** A slot can be claimed unless it is in use or, for a reconnection, was last
    used under another callsign. *)
Definition claimable (p : pc_priv) (call : list Z) (reconnect_only : bool) : bool :=
  negb (bool_decide (is_Some (conn_client p))) &&
  (negb reconnect_only || bool_decide (callsign p = call)).

(** What a claim leaves. *)
Definition claimed (client : nat) (call : list Z) (res : Z * pst) (_ : trace) : Prop :=
  exists p', slot res.2 p' /\ callsign p' = take 11 call /\
    (res.1 = 0 /\ conn_client p' = Some client \/
     res.1 < 0 /\ conn_client p' = None /\ forall l, closed (conn_of l p')).

Lemma accept_fail client call r s p h :
  r < 0 -> slot s p -> callsign p = take 11 call ->
  wp (let* s := proxy_conn_finish s in ret (r, s)) h (claimed client call).
Proof using.
  intros Hr Hs Hcs. wp_steps. eapply wp_mono; [by apply slot_finish|].
  intros s3 e3 (p3 & Hs3 & Hn & Hc3 & Hcl3 & _). wp_steps. exists p3. rewrite Hc3. eauto 10.
Qed.

Lemma slot_accept s p client call reconnect_only h :
  slot s p -> (exists c, hp s !! client = Some c /\ is_Some (priv c)) ->
  wp (proxy_conn_accept s client call reconnect_only) h (fun res e =>
    if claimable p call reconnect_only then claimed client call res e else res = (- EBUSY, s)).
Proof using Hos.
  intros [Hp Ha] Hcl. unfold proxy_conn_accept, with_pc. rewrite Hp. wp_steps.
  unfold claimable. destruct (conn_client p) as [i|] eqn:Hi; simpl; [by wp_steps|].
  destruct (reconnect_only && negb (bool_decide (callsign p = call))) eqn:Hrc; wp_steps.
  { destruct reconnect_only, (bool_decide (callsign p = call)); simpl in *; try done. }
  assert (Hok : negb reconnect_only || bool_decide (callsign p = call) = true)
    by (destruct reconnect_only, (bool_decide (callsign p = call)); done).
  rewrite Hok. clear Hok Hrc.
  set (p1 := set_client (set_callsign p (take 11 call)) (Some client)).
  assert (Hs1 : slot (set_pc s (Some p1)) p1).
  { split; [done|]. destruct Ha as [H1 H2 _]. split.
    - intros l. specialize (H1 l). by destruct l.
    - intros l. specialize (H2 l). by destruct l.
    - intros j [= <-]. done. }
  set (s1 := set_pc s (Some p1)) in *.
  eapply wp_mono; [by apply slot_listen_leg|]. intros [r2 s2] e2 (Hr2 & c2 & E2 & Hs2). simpl in *.
  destruct (Z.ltb_spec r2 0); [by eapply accept_fail|]. wp_steps.
  eapply wp_mono; [by apply slot_listen_leg|]. intros [r3 s3] e3 (Hr3 & c3 & E3 & Hs3). simpl in *.
  destruct (Z.ltb_spec r3 0); [by eapply accept_fail|]. wp_steps.
  eapply wp_mono; [apply slot_on_worker; [apply wake_alive|exact Hs3]|].
  intros [r4 s4] e4 (w4 & E4 & Hs4). simpl in *.
  destruct (Z.ltb_spec r4 0); [by eapply accept_fail|]. wp_steps.
  eapply wp_mono; [apply slot_on_worker; [apply wake_alive|exact Hs4]|].
  intros [r5 s5] e5 (w5 & E5 & Hs5). simpl in *.
  destruct (Z.ltb_spec r5 0); [by eapply accept_fail|]. wp_steps.
  eexists. split; [exact Hs5|]. split; [done|]. by left.
Qed.

End Slot.

(** ** Sessions *)

(** The slot [p] points to a live TCP client on descriptor [x]. *)
Definition client_at (h : heap) (p : pc_priv) (x : Z) : Prop :=
  exists i c cp, conn_client p = Some i /\ h !! i = Some c /\ priv c = Some cp /\
    conn_type c = CONN_TYPE_TCP /\ fd cp = x.

(** A running session: the client is connected on [x], which is open and used
    by no other connection of the slot. *)
Record session (s : pst) (h : trace) (x : Z) : Prop := {
  se_x : x <> INVALID_SOCKET;
  se_open : x ∈ open_fds h;
  se_none : INVALID_SOCKET ∉ open_fds h;
  se_slot : exists p, pc_priv_ptr (pc s) = Some p /\ client_at (hp s) p x /\
    (forall l, clear_of x (conn_of l p)) /\ alive (hp s) p;
}.

(** Receiving from the client only. *)
Definition eff_client (x : Z) : effect := mkEff (Z.eqb x) (fun _ => false) (fun _ => false).

Section Session.
Context {O : OS} {Hos : OSLaws O}.

Lemma client_recv s p x n h :
  client_at (hp s) p x -> x <> INVALID_SOCKET ->
  wp (with_client s p (fun _ c => conn_recv c n)) h (fun res e =>
    recv_post x n res e /\ Forall nofd e /\ Forall (within (eff_client x)) e).
Proof using Hos.
  intros (i & c & cp & Hi & Hc & Hp & Ht & <-) Hx. unfold with_client. rewrite Hi, Hc.
  eapply wp_mono; [apply wp_events; [apply nofd_conn_recv|apply wp_events;
    [apply (within_conn_recv c (eff_client (fd cp)))|by apply conn_recv_wp]]|].
  - intros q Hq. simplify_eq. apply Z.eqb_refl.
  - intros r e (? & ? & ?). auto.
Qed.

Lemma eff_client_quiet x e :
  Forall (within (eff_client x)) e -> (forall y, sent y e = []) /\ datagrams e = [] /\
  forall y, y <> x -> received y e = [].
Proof using.
  intros He. split_and!.
  - intros y. by eapply within_sent.
  - by eapply within_datagrams.
  - intros y Hy. eapply within_received; [done|]. simpl. lia.
Qed.

(** A datagram from a leg: nothing is received or sent on a stream. *)
Lemma leg_send_to c p b a port h :
  priv c = Some p ->
  wp (conn_send_to c b a port) h (fun r e =>
    Forall nofd e /\ (forall y, sent y e = []) /\ (forall y, received y e = []) /\
    (datagrams e = [] \/ datagrams e = [(fd p, b, a, htons port)])).
Proof using Hos.
  intros Hp.
  eapply wp_mono; [apply wp_events; [apply nofd_conn_send_to|apply wp_events;
    [apply (within_conn_send_to c (mkEff (fun _ => false) (fun _ => false) (fun _ => true)))|
     by apply (conn_send_to_wp c p)]]|]; [done|].
  intros r e (Hn & Hw & Hd). split_and!; [done| | |].
  - intros y. by eapply within_sent.
  - intros y. by eapply within_received.
  - destruct Hd as [[_ ->]|[_ ->]]; [case_decide|]; auto.
Qed.

Lemma udp_loop_wp fuel l port s p q x addr n h :
  client_at (hp s) p x -> x <> INVALID_SOCKET -> priv (conn_of l p) = Some q ->
  0 <= n <= Z.of_nat fuel * 4096 ->
  wp (udp_loop fuel l port s p addr n) h (fun r e =>
    Forall nofd e /\ (forall y, sent y e = []) /\ r <= 0 /\
    Z.of_nat (length (received x e)) <= n /\
    (r = 0 -> Z.of_nat (length (received x e)) = n) /\
    datagrams e `sublist_of` map (fun b => (fd q, b, addr, htons port)) (chunks fuel (received x e))).
Proof using Hos.
  intros Hcl Hx Hq. revert n h. induction fuel as [|fuel IH]; intros n h Hn.
  { assert (n = 0) as -> by lia. simpl. wp_steps. simpl. split_and!; auto using Forall_nil_2; lia. }
  cbn [udp_loop]. destruct (Z.leb_spec n 0) as [H0|H0].
  { wp_steps. assert (n = 0) as -> by lia. split_and!; auto using Forall_nil_2; lia. }
  wp_steps. eapply wp_mono; [by apply client_recv|].
  intros [r data] e ((Hrec & Hr & Hb & _) & Hn1 & Hw1). simpl in Hrec, Hr, Hb.
  pose proof (eff_client_quiet _ _ Hw1) as (Hs1 & Hd1 & _).
  destruct (piece_length n H0) as (Hp1 & Hp2 & Hp3).
  destruct (Z.ltb_spec r 0) as [Hneg|Hpos].
  { wp_steps. trace_simpl. rewrite Hd1, Hrec.
    split_and!; [done|intros y; by trace_simpl|lia|lia|lia|apply sublist_nil_l]. }
  destruct Hr as [[Hr Hlen]|[? _]]; [|lia]. rewrite (proj2 (Z.eqb_neq r 0)) by lia.
  wp_steps. eapply wp_mono; [by apply leg_send_to|]. intros r2 e2 (Hn2 & Hs2 & Hr2 & Hd2).
  eapply wp_mono; [apply IH; unfold CONN_BUFF_LEN in *; lia|].
  intros r3 e3 (Hn3 & Hs3 & Hle & Hmax & Hfin & Hsub). trace_simpl.
  rewrite Hd1, Hrec, Hr2. cbn [app].
  assert (Hch : chunks (S fuel) (data ++ received x e3) = data :: chunks fuel (received x e3)).
  { apply chunks_app; [intros ->; simpl in Hlen; lia|].
    destruct Hp3 as [Hp3|Hp3]; [left; lia|right; split; [|lia]]. apply nil_length_inv. lia. }
  split_and!; [by repeat apply Forall_app_2|intros y; trace_simpl; by rewrite Hs1, Hs2, Hs3|lia|
    rewrite length_app; lia|intros H3; rewrite length_app; specialize (Hfin H3); lia|].
  rewrite Hch. cbn [map]. destruct Hd2 as [->| ->]; cbn [app]; by constructor.
Qed.

Lemma session_quiet s h x e : session s h x -> Forall nofd e -> session s (h ++ e) x.
Proof using.
  intros [Hx Ho Hn Hs] He. split; rewrite ?open_fds_app, ?nofd_run by done; done.
Qed.

Lemma session_set_conn s h x p l c :
  session s h x -> pc_priv_ptr (pc s) = Some p -> clear_of x c ->
  session (set_pc s (Some (set_conn l p c))) h x.
Proof using.
  intros [Hx Ho Hn (p' & Hp' & Hcl & Hlegs & Hw)] Hp Hc.
  assert (p' = p) as -> by congruence. split; try done.
  exists (set_conn l p c). split; [done|]. destruct Hcl as (i & cc & cp & ? & ? & ?).
  split_and!; [exists i, cc, cp; by destruct l|intros l'; pose proof (Hlegs l'); by destruct l', l|].
  apply alive_set_conn; [done|]. destruct Hc as (q & Hq & _). by rewrite Hq.
Qed.

(** No data moves. *)
Definition silent (e : trace) : Prop := Forall (within eff_none) e.

Lemma silent_sent e x : silent e -> sent x e = [].
Proof using. intros He. by eapply within_sent. Qed.
Lemma silent_received e x : silent e -> received x e = [].
Proof using. intros He. by eapply within_received. Qed.
Lemma silent_datagrams e : silent e -> datagrams e = [].
Proof using. intros He. by eapply within_datagrams. Qed.

Lemma close_leg_wp l s h x :
  session s h x ->
  wp (close_leg l s) h (fun s' e => session s' (h ++ e) x /\ silent e).
Proof using.
  intros Hse. pose proof Hse as [Hx Ho Hn (p & Hp & Hcl & Hlegs & Hw)].
  unfold close_leg, with_pc. rewrite Hp. wp_steps.
  eapply wp_mono; [apply wp_events; [apply (within_conn_close _ eff_none)|
    apply (conn_close_clear _ x _ (open_fds h)); [apply Hlegs|done]]|].
  intros c' e (Hsil & Hc & He & _). wp_steps. rewrite app_nil_r. split; [|done].
  destruct (He Ho Hn) as [Ho' Hn'].
  apply (session_set_conn s _ _ p); [|done|done]. split; [done| | |by exists p];
    by rewrite open_fds_app.
Qed.
Lemma session_slot s h x : session s h x ->
  exists p, pc_priv_ptr (pc s) = Some p /\ client_at (hp s) p x /\ x <> INVALID_SOCKET /\
    (forall l, clear_of x (conn_of l p)) /\ alive (hp s) p.
Proof using. intros [Hx _ _ (p & ? & ? & ? & ?)]. by exists p. Qed.

Lemma conn_send_total c b h : is_Some (priv c) -> wp (conn_send c b) h (fun _ _ => True).
Proof using Hos.
  intros [q Hq]. unfold conn_send, with_priv. rewrite Hq. case_match; wp_steps; [done|].
  case_match; wp_steps; [done|]. eapply wp_mono; [apply send_loop_spec; lia|]. intros. by wp_steps.
Qed.

Lemma slot_send_tcp_close s p h :
  slot s p -> is_Some (conn_client p) -> wp (send_tcp_close s) h (fun _ _ => True).
Proof using Hos.
  intros [Hp Ha] [i Hi]. unfold send_tcp_close, with_pc. rewrite Hp. unfold send_client.
  destruct (alive_client _ _ Ha i Hi) as (c & Hc & Hq). wp_steps. unfold with_client. rewrite Hi, Hc.
  eapply wp_mono; [by apply conn_send_total|]. intros. by wp_steps.
Qed.

(** Sending to another connection than the client's. *)
Lemma other_send c x b h :
  clear_of x c ->
  wp (conn_send c b) h (fun r e => Forall nofd e /\ sent x e = [] /\ datagrams e = [] /\
    forall y, received y e = []).
Proof using Hos.
  intros (q & Hq & _ & _ & Hfd).
  assert (Hw : events (within (mkEff (fun _ => false) (Z.eqb (fd q)) (fun _ => false))) (conn_send c b)).
  { apply within_conn_send. intros q' Hq'. simplify_eq. apply Z.eqb_refl. }
  eapply wp_mono; [apply wp_events; [apply nofd_conn_send|apply wp_events; [exact Hw|]]|].
  { apply conn_send_total. by rewrite Hq. }
  intros r e (Hn & He & _). split_and!; [done| | |].
  - eapply within_sent; [done|]. simpl. lia.
  - by eapply within_datagrams.
  - intros y. by eapply within_received.
Qed.

Lemma tcp_loop_wp fuel s x n t h :
  session s h x -> 0 <= n <= Z.of_nat fuel * 4096 ->
  wp (tcp_loop fuel s n t) h (fun '(r, _, s') e =>
    session s' (h ++ e) x /\ r <= 0 /\ sent x e = [] /\ datagrams e = [] /\
    Z.of_nat (length (received x e)) <= n /\
    (r = 0 -> Z.of_nat (length (received x e)) = n)).
Proof using Hos.
  revert s n t h. induction fuel as [|fuel IH]; intros s n t h Hse Hn.
  { assert (n = 0) as -> by lia. simpl. wp_steps. rewrite app_nil_r. by split_and!. }
  cbn [tcp_loop]. destruct (Z.leb_spec n 0) as [H0|H0].
  { wp_steps. rewrite app_nil_r. assert (n = 0) as -> by lia. by split_and!. }
  destruct (session_slot _ _ _ Hse) as (p & Hp & Hcl & Hx & Hlegs & Hwk).
  unfold with_pc. rewrite Hp. wp_steps. eapply wp_mono; [by apply client_recv|].
  intros [r data] e ((Hrec & Hr & _) & Hn1 & Hw1). simpl in Hrec, Hr.
  pose proof (eff_client_quiet _ _ Hw1) as (Hs1 & Hd1 & _).
  pose proof (session_quiet _ _ _ e Hse Hn1) as Hse1.
  destruct (piece_length n H0) as (Hp1 & Hp2 & Hp3).
  destruct (Z.ltb_spec r 0) as [Hneg|Hpos].
  { wp_steps. trace_simpl. rewrite Hrec, Hs1, Hd1. split_and!; try done; lia. }
  destruct Hr as [[Hr Hlen]|[? _]]; [|lia]. rewrite (proj2 (Z.eqb_neq r 0)) by lia.
  assert (Hrest : forall s' t' e', session s' (h ++ e ++ e') x -> sent x e' = [] -> datagrams e' = [] ->
    received x e' = [] ->
    wp (tcp_loop fuel s' (n - r) t') (h ++ e ++ e') (fun '(r', _, s2) e2 =>
      session s2 (h ++ e ++ e' ++ e2) x /\ r' <= 0 /\ sent x (e ++ e' ++ e2) = [] /\
      datagrams (e ++ e' ++ e2) = [] /\ Z.of_nat (length (received x (e ++ e' ++ e2))) <= n /\
      (r' = 0 -> Z.of_nat (length (received x (e ++ e' ++ e2))) = n))).
  { intros s' t' e' Hs' Hse' Hd' Hrec'. eapply wp_mono; [apply IH; [done|unfold CONN_BUFF_LEN in *; lia]|].
    intros [[r' t2] s2] e2 (H1 & H2 & H3 & H4 & H5 & H6). trace_simpl.
    rewrite Hs1, Hd1, Hse', Hd', Hrec, Hrec', H3, H4, <- !app_assoc in *. cbn [app]. rewrite length_app.
    split_and!; try done; lia. }
  destruct (t =? 0).
  - wp_steps. eapply wp_mono; [apply (other_send _ x), (Hlegs Tcp)|].
    intros t2 e2 (Hn2 & Hs2 & Hd2 & Hr2). pose proof (session_quiet _ _ _ e2 Hse1 Hn2) as Hse2.
    wp_steps. eapply (wp_mono _ _ (fun s' e3 => session s' (((h ++ e) ++ e2) ++ e3) x /\ silent e3)).
    { destruct (t2 <? 0); [by apply close_leg_wp|]. apply wp_ret. rewrite app_nil_r.
      split; [done|apply Forall_nil_2]. }
    intros s3 e3 [Hse3 Hsil]. rewrite <- !app_assoc in *.
    eapply wp_mono; [apply Hrest; [done|..]; trace_simpl;
      rewrite ?Hs2, ?Hd2, ?Hr2, ?silent_sent, ?silent_datagrams, ?silent_received by done; done|].
    intros [[r' t'] s'] e4. rewrite <- !app_assoc. done.
  - specialize (Hrest s t []). rewrite app_nil_r in Hrest. cbn [app] in Hrest.
    eapply wp_mono; [by apply Hrest|]. by intros [[r' t'] s'] e2.
Qed.

Lemma worker_wake_wp w h :
  worker_up w ->
  wp (worker_wake w) h (fun '(r, w') e => worker_up w' /\ Forall nofd e /\ silent e).
Proof using.
  intros (st & t & d & Hw & Hd). unfold worker_wake, with_worker. rewrite Hw. wp_steps.
  destruct (wake_state st) as [[r st'] b]. wp_steps.
  split_and!; [by eapply worker_up_set|..]; repeat constructor.
Qed.

Lemma session_set_tcp_worker s h x p w :
  session s h x -> pc_priv_ptr (pc s) = Some p -> worker_up w ->
  session (set_pc s (Some (set_worker Tcp p w))) h x.
Proof using.
  intros [Hx Ho Hn (p' & Hp' & Hcl & Hlegs & Ha)] Hp Hw.
  assert (p' = p) as -> by congruence. split; try done.
  exists (set_worker Tcp p w). split; [done|]. destruct Hcl as (i & cc & cp & ? & ? & ?).
  split_and!; [by exists i, cc, cp|intros l; apply (Hlegs l)|by apply alive_set_worker].
Qed.

Lemma client_send s p x b h :
  client_at (hp s) p x -> x <> INVALID_SOCKET ->
  wp (send_client s p b) h (fun r e => Forall nofd e /\ datagrams e = [] /\
    (forall y, received y e = []) /\ (r = 0 \/ r < 0)).
Proof using Hos.
  intros (i & c & cp & Hi & Hc & Hp & Ht & <-) Hx. unfold send_client, with_client. rewrite Hi, Hc.
  wp_steps. eapply wp_mono; [apply wp_events; [apply nofd_conn_send|apply wp_events;
    [apply (within_conn_send c (mkEff (fun _ => false) (fun _ => true) (fun _ => false)))|
     by apply (conn_send_wp c cp)]]|]; [done|].
  intros r e (Hn & Hw & Hpost & _). wp_steps. trace_simpl.
  split_and!; [|by erewrite within_datagrams by done|intros y; trace_simpl; by erewrite within_received|tauto].
  apply Forall_cons. split; [done|]. apply Forall_app. split; [done|by repeat constructor].
Qed.

Lemma process_tcp_open_wp s m h x :
  session s h x ->
  wp (process_tcp_open_message s m) h (fun '(r, s') e =>
    session s' (h ++ e) x /\ received x e = [] /\ r <= 0).
Proof using Hos.
  intros Hse. destruct (session_slot _ _ _ Hse) as (p & Hp & Hcl & Hx & Hlegs & Hwk).
  unfold process_tcp_open_message, with_pc. rewrite Hp.
  case_match; wp_steps; [rewrite app_nil_r; by split_and!|].
  eapply wp_mono; [apply wp_events; [apply (within_conn_connect _ eff_none)|
    apply (conn_connect_clear _ x); [apply (Hlegs Tcp)|done|apply Hse|apply Hse]]|].
  intros [r c] e (Hsil & Hc & Ho & Hno & _). fold (silent e) in Hsil.
  assert (Hse1 : session (set_pc s (Some (set_conn Tcp p c))) (h ++ e) x).
  { apply (session_set_conn s); [|done|done]. by split; [..|exists p]. }
  wp_steps. eapply (wp_mono _ _ (fun '(r', p') e' =>
    session (set_pc s (Some p')) ((h ++ e) ++ e') x /\ silent e')).
  { destruct (r <? 0); wp_steps; [rewrite app_nil_r; split; [done|apply Forall_nil_2]|].
    eapply wp_mono; [apply worker_wake_wp, (alive_worker _ _ Hwk Tcp)|]. intros [r2 w] e2 (Hw2 & Hn2 & Hs2).
    pose proof (session_set_tcp_worker _ _ _ _ w (session_quiet _ _ _ e2 Hse1 Hn2) eq_refl Hw2) as Hse2.
    destruct (r2 <? 0); wp_steps; [|rewrite app_nil_r; by split].
    pose proof (close_leg_wp Tcp _ _ _ Hse2) as Hcl2. unfold close_leg, with_pc in Hcl2. simpl in Hcl2.
    destruct Hcl2 as (s3 & e3 & Hrun & Hse3 & Hsil3).
    unfold bind in Hrun. destruct (conn_close c ((h ++ e) ++ e2)) as [[c3|] e3'] eqn:Hcc; [|done].
    injection Hrun as <- <-. exists c3, e3'. split; [done|]. wp_steps.
    rewrite <- !app_assoc, app_nil_r in *. split; [done|]. by apply Forall_app. }
  intros [r2 p2] e2 [Hse2 Hsil2]. wp_steps.
  destruct (session_slot _ _ _ Hse2) as (p2' & [= <-] & Hcl2 & _).
  eapply wp_mono; [by apply (client_send _ p2 x)|]. intros r3 e3 (Hn3 & _ & Hr3 & Hv). wp_steps.
  split_and!; [|trace_simpl; by rewrite Hr3, !silent_received|lia].
  rewrite app_nil_r, !app_assoc. by apply session_quiet.
Qed.

(** What a handler leaves: the session goes on and, on success, exactly the
    payload announced by the header has been taken from the stream. *)
Definition handled (h : trace) (x : Z) (m : proxy_msg) (res : Z * pst) (e : trace) : Prop :=
  session res.2 (h ++ e) x /\ res.1 <= 0 /\
  (res.1 = 0 -> Z.of_nat (length (received x e)) = payload_size m).

Lemma pieces_enough n : 0 <= n -> 0 <= n <= Z.of_nat (pieces n) * 4096.
Proof using. unfold pieces. div_lia. Qed.

Lemma process_udp_wp l port s m h x :
  session s h x -> is_u32 (msg_size m) -> payload_size m = msg_size m ->
  wp (with_pc s (fun p =>
      let* r := udp_loop (pieces (msg_size m)) l port s p (msg_address m) (msg_size m) in ret (r, s)))
     h (handled h x m).
Proof using Hos.
  intros Hse Hm Hsz. destruct (session_slot _ _ _ Hse) as (p & Hp & Hcl & Hx & Hlegs & _).
  destruct (Hlegs l) as (q & Hq & _).
  unfold with_pc. rewrite Hp. wp_steps. eapply wp_mono.
  { apply (udp_loop_wp _ _ _ _ _ q x); try done. apply pieces_enough, Hm. }
  intros r e (Hn & _ & Hle & _ & Hfin & _). wp_steps. unfold handled. simpl. rewrite app_nil_r, Hsz.
  split_and!; [by apply session_quiet|done|done].
Qed.

Lemma process_message_wp s m h x :
  session s h x -> is_u32 (msg_size m) -> wp (process_message s m) h (handled h x m).
Proof using Hos.
  intros Hse Hm. unfold process_message.
  destruct (Z.eqb_spec (msg_type m) PROXY_MSG_TYPE_TCP_OPEN) as [Ht|Ht].
  { eapply wp_mono; [by apply process_tcp_open_wp|]. intros [r s'] e (H1 & H2 & H3).
    split_and!; [done|done|]. intros _. unfold payload_size. by rewrite H2, Ht. }
  destruct (Z.eqb_spec (msg_type m) PROXY_MSG_TYPE_TCP_DATA) as [H2|H2].
  { unfold process_tcp_data_message. wp_steps.
    eapply wp_mono; [apply (tcp_loop_wp _ _ x); [done|apply pieces_enough, Hm]|].
    intros [[r t] s'] e (H3 & H4 & _ & _ & _ & H5). unfold handled, payload_size. rewrite H2.
    destruct (Z.ltb_spec r 0); [wp_steps; rewrite app_nil_r; split_and!; [done|done|simpl; lia]|].
    assert (r = 0) as -> by lia. specialize (H5 eq_refl).
    destruct (t =? 0); wp_steps; [by rewrite app_nil_r|].
    destruct (session_slot _ _ _ H3) as (p' & Hp' & Hcl' & Hx' & _).
    unfold send_tcp_close, with_pc. rewrite Hp'.
    eapply wp_mono; [by apply (client_send _ p' x)|]. intros r2 e2 (Hn2 & _ & Hr2 & _). wp_steps. simpl.
    rewrite app_nil_r, app_assoc, received_app, Hr2, app_nil_r.
    split_and!; [by apply session_quiet|done|done]. }
  destruct (Z.eqb_spec (msg_type m) PROXY_MSG_TYPE_TCP_CLOSE) as [H3|H3].
  { unfold process_tcp_close_message. wp_steps. eapply wp_mono; [by apply close_leg_wp|].
    intros s' e [H4 H5]. wp_steps. rewrite app_nil_r. split_and!; [done|done|]. intros _.
    unfold payload_size. by rewrite H3, silent_received. }
  destruct (Z.eqb_spec (msg_type m) PROXY_MSG_TYPE_UDP_DATA) as [H4|H4];
    [|destruct (Z.eqb_spec (msg_type m) PROXY_MSG_TYPE_UDP_CONTROL) as [H5|H5]].
  - apply process_udp_wp; [done..|]. unfold payload_size. by rewrite H4.
  - apply process_udp_wp; [done..|]. unfold payload_size. by rewrite H5.
  - wp_steps. unfold handled. rewrite app_nil_r. by split_and!.
Qed.

(** One message taken from the stream: its header and its payload. *)
Definition framed (msg : list Z * list Z) : Prop :=
  length msg.1 = MSG_LEN /\ Z.of_nat (length msg.2) = payload_size (msg_of_bytes msg.1).

Lemma proxy_conn_process_wp s h x :
  session s h x ->
  wp (proxy_conn_process s) h (fun '(r, s') e => session s' (h ++ e) x /\ r <= 0 /\
    (r = 0 -> exists msg, framed msg /\ received x e = msg.1 ++ msg.2)).
Proof using Hos.
  intros Hse. destruct (session_slot _ _ _ Hse) as (p & Hp & Hcl & Hx & Hlegs & _).
  unfold proxy_conn_process, with_pc. rewrite Hp. wp_steps. eapply wp_mono; [by apply client_recv|].
  intros [r b] e ((Hrec & Hr & Hb & _) & Hn & _). simpl in Hrec, Hr, Hb.
  pose proof (session_quiet _ _ _ e Hse Hn) as Hse1.
  destruct (Z.ltb_spec r 0); [wp_steps; rewrite app_nil_r; split_and!; [done|lia|lia]|].
  destruct Hr as [[Hr Hlen]|[? _]]; [|lia].
  eapply wp_mono; [apply process_message_wp; [done|]|].
  { unfold msg_of_bytes. simpl. by apply of_le32_range, bytes_ok_drop. }
  intros [r2 s2] e2 (H1 & H2 & H3). simpl in *. rewrite app_assoc. split_and!; [done|done|].
  intros H0. exists (b, received x e2). split; [by split; [|apply H3]|]. simpl. by rewrite received_app, Hrec.
Qed.

Lemma process_loop_wp n s h x :
  session s h x ->
  wp (process_loop n s) h (fun res e => match res with
    | inl s' => session s' (h ++ e) x /\
        exists msgs, length msgs = n /\ Forall framed msgs /\
          received x e = concat (map (fun msg => msg.1 ++ msg.2) msgs)
    | inr s' => session s' (h ++ e) x
    end).
Proof using Hos.
  revert s h. induction n as [|n IH]; intros s h Hse; cbn [process_loop]; wp_steps.
  { rewrite app_nil_r. split; [done|]. exists []. split_and!; [done|by constructor|done]. }
  eapply wp_mono; [by apply proxy_conn_process_wp|]. intros [r s1] e1 (H1 & H2 & H3).
  destruct (Z.leb_spec 0 r); [|wp_steps; by rewrite app_nil_r].
  destruct H3 as (msg & Hf & Hrec); [lia|].
  eapply wp_mono; [by apply IH|]. intros [s2|s2] e2 H4; rewrite <- app_assoc in *; [|done].
  destruct H4 as (H4 & msgs & Hl & Hfs & Hrec2). split; [done|]. exists (msg :: msgs).
  split_and!; [simpl; lia|by constructor|]. simpl. by rewrite received_app, Hrec, Hrec2.
Qed.

End Session.

(** ** Lock discipline *)

Section Locks.
Context `{OS} (s : pst) (k : lockset).

Lemma locks_with_client {A} p (f : nat -> conn_handle -> IO A) k1 k2 :
  (forall i c, locks k1 (f i c) k2) -> locks k1 (with_client s p f) k2.
Proof using. intros Hf. unfold with_client. solve_locks. Qed.

Lemma locks_send_client p b : below (send_lock s) k -> locks k (send_client s p b) k.
Proof using.
  intros Hb. unfold send_client. eapply locks_bind; [apply locks_lock; below|intros _].
  eapply locks_bind; [apply locks_with_client; intros; apply locks_conn_send; below|intros r]. solve_locks.
Qed.

Lemma locks_send_tcp_close : below (send_lock s) k -> locks k (send_tcp_close s) k.
Proof using.
  intros Hb. unfold send_tcp_close, with_pc. case_match; [by apply locks_send_client|solve_locks].
Qed.

Lemma locks_proxy_conn_drop : below (client_lock s) k -> locks k (proxy_conn_drop s) k.
Proof using. intros Hb. unfold proxy_conn_drop, with_pc, with_client. solve_locks. Qed.

Lemma locks_close_leg l : below (MConn 0) k -> locks k (close_leg l s) k.
Proof using.
  intros Hb. unfold close_leg, with_pc. case_match; [|solve_locks].
  eapply locks_bind; [apply locks_conn_close; below|intros c]. solve_locks.
Qed.

Lemma locks_listen_leg l : below (MConn 0) k -> locks k (listen_leg l s) k.
Proof using.
  intros Hb. unfold listen_leg, with_pc. case_match; [|solve_locks].
  eapply locks_bind; [apply locks_conn_listen; below|intros c]. solve_locks.
Qed.

Lemma locks_on_worker f l :
  (forall w, locks k (f w) k) -> locks k (on_worker f l s) k.
Proof using.
  intros Hf. unfold on_worker, with_pc. case_match; [|solve_locks].
  eapply locks_bind; [apply Hf|intros c]. solve_locks.
Qed.

End Locks.

Section Discipline.
Context `{OS} (k : lockset).
(** The locks held on entry rank below the slot's. *)
Hypothesis Hk : below (MClient 0) k.

Lemma locks_finish s : locks k (proxy_conn_finish s) k.
Proof using Hk.
  unfold proxy_conn_finish.
  eapply locks_bind; [apply locks_proxy_conn_drop; below|intros s1].
  do 3 (eapply locks_bind; [apply locks_close_leg; below|intros ?]).
  do 3 (eapply locks_bind; [apply locks_on_worker; intros; apply locks_worker_wait_idle; below|intros [? ?]]).
  unfold with_pc. solve_locks.
Qed.

Lemma locks_accept s client call rc : locks k (proxy_conn_accept s client call rc) k.
Proof using Hk.
  assert (Hfail : forall (r : Z) s, locks k (let* s := proxy_conn_finish s in ret (r, s)) k).
  { intros r s1. eapply locks_bind; [apply locks_finish|intros s2]. apply locks_ret. }
  unfold proxy_conn_accept, with_pc. case_match; [|solve_locks].
  eapply locks_bind; [apply locks_lock; below|intros _]. case_match; [solve_locks|].
  eapply locks_bind; [apply locks_unlock|intros _].
  do 2 (eapply locks_bind; [apply locks_listen_leg; below|intros [? ?]]; case_match; [apply Hfail|]).
  do 2 (eapply locks_bind; [apply locks_on_worker; intros; apply locks_worker_wake; below|intros [? ?]];
        case_match; [apply Hfail|]). apply locks_ret.
Qed.

Lemma locks_start s : locks k (proxy_conn_start s) k.
Proof using Hk.
  unfold proxy_conn_start, with_pc. case_match; [|solve_locks].
  assert (Hw : forall l s', locks ((true, client_lock s) :: k) (on_worker worker_start l s')
                              ((true, client_lock s) :: k)).
  { intros l s1. apply locks_on_worker. intros w. apply locks_worker_start. below. }
  eapply locks_bind; [apply locks_lock; below|intros _].
  eapply locks_bind; [|intros r; solve_locks].
  do 2 (eapply locks_bind; [apply Hw|intros [? ?]; case_match; [apply locks_ret|]]). apply Hw.
Qed.

Lemma locks_stop s : locks k (proxy_conn_stop s) k.
Proof using Hk.
  unfold proxy_conn_stop. eapply locks_bind; [apply locks_finish|intros s1].
  do 3 (eapply locks_bind; [apply locks_on_worker; intros; apply locks_worker_join; below|intros [? ?]]).
  apply locks_ret.
Qed.

Lemma locks_drop_unless_quiet r s : locks k (drop_unless_quiet r s) k.
Proof using Hk.
  unfold drop_unless_quiet. case_match; [apply locks_ret|]. apply locks_proxy_conn_drop. below.
Qed.

Lemma locks_forward_round l s : locks k (forward_round l s) k.
Proof using Hk.
  unfold forward_round, with_pc. case_match; [|solve_locks].
  eapply locks_bind; [apply locks_conn_recv_any; below|intros [[[r d] f] c]]. case_match.
  - eapply locks_bind; [apply locks_send_client; below|intros r2]. case_match; [|apply locks_ret].
    eapply locks_bind; [apply locks_close_leg; below|intros s2].
    eapply locks_bind; [apply locks_drop_unless_quiet|intros s3]. apply locks_ret.
  - eapply locks_bind; [destruct l; try apply locks_drop_unless_quiet; apply locks_ret|intros s2].
    eapply locks_bind; [apply locks_close_leg; below|intros s3].
    eapply locks_bind; [destruct l; try apply locks_ret; apply locks_send_tcp_close; below|intros r2].
    apply locks_ret.
Qed.

Lemma locks_udp_loop fuel l port s p addr n : locks k (udp_loop fuel l port s p addr n) k.
Proof using Hk.
  revert n. induction fuel as [|fuel IH]; intros n; cbn [udp_loop];
    (case_match; [apply locks_ret|]); [apply locks_crash|].
  eapply locks_bind; [apply locks_with_client; intros; apply locks_conn_recv; below|intros [r d]].
  repeat (case_match; [apply locks_ret|]).
  eapply locks_bind; [apply locks_conn_send_to; below|intros r2]. apply IH.
Qed.

Lemma locks_tcp_loop fuel s n t : locks k (tcp_loop fuel s n t) k.
Proof using Hk.
  revert s n t. induction fuel as [|fuel IH]; intros s n t; cbn [tcp_loop];
    (case_match; [apply locks_ret|]); [apply locks_crash|].
  unfold with_pc. case_match; [|solve_locks].
  eapply locks_bind; [apply locks_with_client; intros; apply locks_conn_recv; below|intros [r d]].
  repeat (case_match; [apply locks_ret|]). case_match; [|apply IH].
  eapply locks_bind; [apply locks_conn_send; below|intros r2].
  eapply locks_bind; [case_match; [apply locks_close_leg; below|apply locks_ret]|intros s2]. apply IH.
Qed.

Lemma locks_process_message s m : locks k (process_message s m) k.
Proof using Hk.
  unfold process_message. case_match; [|case_match; [|case_match; [|case_match; [|case_match]]]].
  - unfold process_tcp_open_message, with_pc. case_match; [|solve_locks]. case_match; [apply locks_ret|].
    eapply locks_bind; [apply locks_conn_connect; below|intros [r c]].
    apply (locks_bind _ _ k k); [|intros [r2 p2];
      eapply locks_bind; [apply locks_send_client; below|intros r3; apply locks_ret]].
    case_match; [apply locks_ret|].
    eapply locks_bind; [apply locks_worker_wake; below|intros [r2 w]]. case_match; [|apply locks_ret].
    eapply locks_bind; [apply locks_conn_close; below|intros c2]. apply locks_ret.
  - unfold process_tcp_data_message. eapply locks_bind; [apply locks_tcp_loop|intros [[r t] s2]].
    repeat (case_match; [apply locks_ret|]).
    eapply locks_bind; [apply locks_send_tcp_close; below|intros r2]. apply locks_ret.
  - unfold process_tcp_close_message. eapply locks_bind; [apply locks_close_leg; below|intros s2]. apply locks_ret.
  - unfold process_data_message, with_pc. case_match; [|solve_locks].
    eapply locks_bind; [apply locks_udp_loop|intros r]. apply locks_ret.
  - unfold process_control_data_message, with_pc. case_match; [|solve_locks].
    eapply locks_bind; [apply locks_udp_loop|intros r]. apply locks_ret.
  - apply locks_ret.
Qed.

Lemma locks_process s : locks k (proxy_conn_process s) k.
Proof using Hk.
  unfold proxy_conn_process, with_pc. case_match; [|solve_locks].
  eapply locks_bind; [apply locks_with_client; intros; apply locks_conn_recv; below|intros [r d]].
  case_match; [apply locks_ret|apply locks_process_message].
Qed.

Lemma locks_release p : locks k (release p) k.
Proof using Hk.
  unfold release. do 3 (eapply locks_bind; [apply locks_worker_free; below|intros ?]).
  do 2 (eapply locks_bind; [apply locks_mutex_free|intros ?]).
  do 3 (eapply locks_bind; [apply locks_conn_free; below|intros ?]). apply locks_ret.
Qed.

Lemma locks_free s : locks k (proxy_conn_free s) k.
Proof using Hk.
  unfold proxy_conn_free, with_pc. case_match; [|apply locks_ret].
  eapply locks_bind; [apply locks_stop|intros [r s2]]. case_match; [|apply locks_crash].
  eapply locks_bind; [apply locks_release|intros ?]. apply locks_ret.
Qed.

Lemma locks_in_use s : locks k (proxy_conn_in_use s) k.
Proof using Hk. unfold proxy_conn_in_use, with_pc. solve_locks. Qed.

Lemma locks_init s : locks k (proxy_conn_init s) k.
Proof using Hk.
  assert (Hthen : forall m f, locks k m k -> (forall p, locks k (f p) k) -> locks k (then_init m f) k).
  { intros m f Hm Hf. unfold then_init. eapply locks_bind; [exact Hm|intros [r p]]. case_match; [apply locks_ret|apply Hf]. }
  assert (Hc : forall l a p t q, locks k (init_conn l a p t q) k).
  { intros. unfold init_conn. eapply locks_bind; [apply locks_conn_init|intros [r c]]. apply locks_ret. }
  assert (Hw : forall l q, locks k (init_worker l q) k).
  { intros. unfold init_worker. eapply locks_bind; [apply locks_worker_init|intros [r c]]. apply locks_ret. }
  assert (Hm : forall b (g : bool -> pc_priv), locks k (let* (r, b) := mutex_init b in ret (r, g b)) k).
  { intros b g. eapply locks_bind; [apply locks_mutex_init|intros [r c]]. apply locks_ret. }
  unfold proxy_conn_init. eapply locks_bind; [solve_locks|intros [p|]]; [|apply locks_ret].
  eapply locks_bind; [repeat (apply Hthen; [auto|intros ?]); auto|intros [r p2]].
  case_match; [apply locks_ret|]. eapply locks_bind; [apply locks_release|intros ?]. apply locks_ret.
Qed.

End Discipline.

(** ** Forwarding to the client *)

(** The message in which a leg passes data on. *)
Definition frame (l : leg) (d : Z * list Z) : list Z :=
  msg_bytes (mkMsg (leg_type l) d.1 (Z.of_nat (length d.2))) ++ d.2.

Section Forward.
Context {O : OS} {Hos : OSLaws O} {Hw : WholeSends O}.

Lemma client_send_whole s p x b h :
  client_at (hp s) p x -> x <> INVALID_SOCKET ->
  wp (send_client s p b) h (fun r e => Forall nofd e /\ (forall y, received y e = []) /\
    (r = 0 /\ sent x e = b \/ r < 0)).
Proof using Hos Hw.
  intros (i & c & cp & Hi & Hc & Hp & Ht & <-) Hx. unfold send_client, with_client. rewrite Hi, Hc.
  wp_steps. eapply wp_mono; [apply wp_events; [apply nofd_conn_send|by apply (conn_send_whole_wp c cp)]|].
  intros r e (Hn & Hr & Hy). wp_steps. trace_simpl. split_and!; [|intros y; by trace_simpl; apply Hy|tauto].
  apply Forall_cons. split; [done|]. apply Forall_app. split; [done|by repeat constructor].
Qed.

Lemma forward_round_wp l s p q h x :
  session s h x -> pc_priv_ptr (pc s) = Some p -> priv (conn_of l p) = Some q ->
  wp (forward_round l s) h (fun res e => match res with
    | inr _ => True
    | inl s' => session s' (h ++ e) x /\ (exists p' q', pc_priv_ptr (pc s') = Some p' /\
          priv (conn_of l p') = Some q' /\ fd q' = fd q) /\
        exists d, (0 < length d.2 <= CONN_BUFF_LEN_HEADERLESS)%nat /\
          received (fd q) e = d.2 /\ sent x e = frame l d
    end).
Proof using Hos Hw.
  intros Hse Hp Hq. destruct (session_slot _ _ _ Hse) as (p' & Hp' & Hcl & Hx & Hlegs & _).
  assert (p' = p) as -> by congruence. unfold forward_round, with_pc. rewrite Hp. wp_steps.
  assert (Hne : fd q <> x) by (destruct (Hlegs l) as (q' & ? & ? & ? & ?); congruence).
  eapply wp_mono; [apply wp_events; [apply nofd_conn_recv_any|apply wp_events;
    [apply (within_conn_recv_any _ (mkEff (Z.eqb (fd q)) (fun _ => false) (fun _ => false)))|
     by apply (conn_recv_any_wp _ q)]]|].
  { intros q' Hq'. simplify_eq. apply Z.eqb_refl. }
  intros [[[r d] from] c] e (Hn & Hin & Hrec & Hb & Hr & q2 & Hc & Hfd & Hsf & Hcf). simpl in *.
  assert (Hs0 : sent x e = []) by (by eapply within_sent).
  assert (Hclear : clear_of x c).
  { exists q2. rewrite Hc. destruct (Hlegs l) as (q' & Hq' & H1 & H2 & H3).
    assert (q' = q) as -> by congruence. split; [done|]. by rewrite Hfd, Hsf, Hcf. }
  pose proof (session_set_conn _ _ _ _ l c (session_quiet _ _ _ e Hse Hn) Hp Hclear) as Hse1.
  destruct (session_slot _ _ _ Hse1) as (p1 & [= <-] & Hcl1 & _ & _ & Ha1).
  assert (Hslot : slot (set_pc s (Some (set_conn l p c))) (set_conn l p c)) by done.
  destruct (Z.ltb_spec 0 r) as [Hpos|Hneg].
  - destruct Hr as [(Hr & Hlen & Hfrom)|]; [|lia].
    wp_steps. eapply wp_mono; [by apply (client_send_whole _ _ x)|]. intros r2 e2 (Hn2 & Hr2 & Hs2).
    destruct (Z.ltb_spec r2 0); [|wp_steps].
    { wp_steps. eapply wp_mono; [by apply slot_close_leg|]. intros s3 e3 (c3 & _ & _ & Hs3). wp_steps.
      eapply wp_mono; [by apply slot_drop_quiet|]. intros. by wp_steps. }
    rewrite app_nil_r, app_assoc. split; [by apply session_quiet|]. split.
    { exists (set_conn l p c), q2. rewrite Hc. by destruct l. }
    destruct Hs2 as [[_ Hs2]|]; [|lia]. subst r.
    eexists (_, d). split_and!; [simpl; lia|simpl; lia|..];
      trace_simpl; rewrite ?Hrec, ?Hr2, ?Hs0, ?Hs2; simpl; rewrite ?app_nil_r; done.
  - wp_steps. set (r' := if r =? 0 then _ else _).
    eapply (wp_mono _ _ (fun s2 _ => slot s2 (set_conn l p c))).
    { destruct l; [by apply slot_drop_quiet..|by apply wp_ret]. }
    intros s2 e2 Hs2. wp_steps. eapply wp_mono; [by apply slot_close_leg|].
    intros s3 e3 (c3 & _ & _ & Hs3). wp_steps.
    eapply (wp_mono _ _ (fun _ _ => True)); [|intros; by wp_steps].
    destruct l; [by apply wp_ret..|]. eapply slot_send_tcp_close; [exact Hs3|].
    destruct Hcl1 as (i & ? & ? & Hi & _). simpl in *. by rewrite Hi.
Qed.

(** After [n] rounds of a forwarder. *)
Lemma forwarder_wp l n s p q h x :
  session s h x -> pc_priv_ptr (pc s) = Some p -> priv (conn_of l p) = Some q ->
  wp (forwarder l n s) h (fun res e => match res with
    | inr _ => True
    | inl _ => exists ds, length ds = n /\
        Forall (fun d => (0 < length d.2 <= CONN_BUFF_LEN_HEADERLESS)%nat) ds /\
        received (fd q) e = concat (map snd ds) /\ sent x e = concat (map (frame l) ds)
    end).
Proof using Hos Hw.
  revert s p q h. induction n as [|n IH]; intros s p q h Hse Hp Hq; cbn [forwarder]; wp_steps.
  { exists []. by split_and!. }
  eapply wp_mono; [by apply (forward_round_wp _ _ p q)|]. intros [s1|s1] e1 H1; [|by wp_steps].
  destruct H1 as (Hse1 & (p1 & q1 & Hp1 & Hq1 & Hfd) & d & Hlen & Hrec & Hsent).
  eapply wp_mono; [by apply (IH _ p1 q1)|]. intros [s2|s2] e2 H2; [|done].
  destruct H2 as (ds & Hn & Hds & Hr2 & Hs2). rewrite Hfd in Hr2. exists (d :: ds).
  trace_simpl. simpl. rewrite Hrec, Hsent, Hr2, Hs2. split_and!; [lia|by constructor|done|done].
Qed.
End Forward.

(** ** An example slot *)

Definition live_conn (id : nat) (ty x : Z) : conn_handle :=
  mkConn id None None ty (Some (mkConnPriv x INVALID_SOCKET x sockaddr_zero)).
Definition live_worker (id : nat) : worker_handle :=
  mkWorker id (Some (WORKER_IDLE, mkThread id (Some true) 0)) 0 0.
Definition example_priv (client : option nat) : pc_priv :=
  mkPriv client (live_conn 0 CONN_TYPE_UDP 10) (live_conn 1 CONN_TYPE_UDP 11)
    (live_conn 2 CONN_TYPE_TCP INVALID_SOCKET) true true (live_worker 0) (live_worker 1)
    (live_worker 2) (str "K1RFD").
Definition example_slot (client : option nat) : pst :=
  mkPst (mkPc 0 (Some (example_priv client)) None (Some (str "5199")) (Some (str "5198")))
        {[7%nat := live_conn 7 CONN_TYPE_TCP 9]}.
Definition example_history : trace := [ESys (CSocket true) (returns 9)].

Lemma example_alive client : client = None \/ client = Some 7%nat -> slot (example_slot client) (example_priv client).
Proof.
  intros Hc. split; [done|]. split; [by intros []|intros []; by eexists _, _, _|].
  intros i Hi. destruct Hc as [->| ->]; [done|]. injection Hi as <-.
  exists (live_conn 7 CONN_TYPE_TCP 9). split; [apply lookup_insert_eq|by eexists].
Qed.

Lemma example_session : session (example_slot (Some 7%nat)) example_history 9.
Proof.
  split; [done|apply (bool_decide_unpack _); vm_compute; exact I
    |apply (bool_decide_unpack _); vm_compute; exact I|].
  exists (example_priv (Some 7%nat)). split; [done|]. split; [|split].
  - exists 7%nat, (live_conn 7 CONN_TYPE_TCP 9), (mkConnPriv 9 INVALID_SOCKET 9 sockaddr_zero).
    split_and!; try done.
  - intros []; eexists; (split; [done|]); by vm_compute.
  - apply (example_alive (Some 7%nat)). by right.
Qed.

(** ** Properties *)


(** A TCP_CLOSE message and a UDP message with three bytes. *)
Definition example_messages : list Z :=
  msg_bytes (mkMsg PROXY_MSG_TYPE_TCP_CLOSE 0 0) ++ msg_bytes (mkMsg PROXY_MSG_TYPE_UDP_DATA 16777343 3) ++ [1; 2; 3].

Lemma example_messages_ok : bytes_ok example_messages.
Proof. apply (bool_decide_unpack _). vm_compute. exact I. Qed.






(** C25. Claiming a slot: a slot in use, or asked to reconnect another callsign,
    answers -EBUSY and is untouched; otherwise the claim either succeeds with
    the slot pointing to the client, or fails with the slot free again, no
    socket left open and no pointer to the client kept. *)
Theorem proxy_conn_accept_claims {O : OS} {Hos : OSLaws O} s p client call reconnect_only h :
  slot s p -> (exists c, hp s !! client = Some c /\ is_Some (priv c)) ->
  exists r s' e, proxy_conn_accept s client call reconnect_only h = (Some (r, s'), e) /\
    if claimable p call reconnect_only then exists p',
      pc_priv_ptr (pc s') = Some p' /\ callsign p' = take 11 call /\
      (r = 0 /\ conn_client p' = Some client \/
       r < 0 /\ conn_client p' = None /\ forall l, closed (conn_of l p'))
    else (r, s') = (- EBUSY, s).
Proof.
  intros Hs Hc. destruct (slot_accept s p client call reconnect_only h Hs Hc) as ([r s'] & e & Hr & Hpost).
  exists r, s', e. split; [done|]. destruct (claimable p call reconnect_only); [|done].
  destruct Hpost as (p' & [Hp _] & ? & ?). by exists p'.
Qed.

Lemma proxy_conn_accept_claims_witness :
  exists r s' e, proxy_conn_accept (H := Scripted []) (example_slot None) 7 (str "K1RFD") true [] = (Some (r, s'), e) /\
    exists p', pc_priv_ptr (pc s') = Some p' /\ callsign p' = str "K1RFD" /\
      (r = 0 /\ conn_client p' = Some 7%nat \/
       r < 0 /\ conn_client p' = None /\ forall l, closed (conn_of l p')).
Proof.
  apply (proxy_conn_accept_claims (O := Scripted []) (example_slot None) (example_priv None) 7
           (str "K1RFD") true []); [apply example_alive; left; reflexivity|].
  exists (live_conn 7 CONN_TYPE_TCP 9). split; [apply lookup_insert_eq|eexists; reflexivity].
Defined.

(** Finishing a slot always completes: afterwards it is free, keeps its
    callsign for a later reconnection, holds no descriptor on any leg, none of its
    forwarders is running any more, and the client's connection has been dropped
    in the shared handle. *)
Theorem proxy_conn_finish_frees {O : OS} s p h :
  slot s p ->
  exists s' e p', proxy_conn_finish s h = (Some s', e) /\ pc_priv_ptr (pc s') = Some p' /\
    conn_client p' = None /\ callsign p' = callsign p /\ (forall l, closed (conn_of l p')) /\
    (forall l, ~ working (worker_of l p')) /\
    forall i, conn_client p = Some i -> exists c q, hp s' !! i = Some c /\ priv c = Some q /\
      fd q = INVALID_SOCKET /\ conn_fd q = INVALID_SOCKET.
Proof.
  intros Hs. destruct (slot_finish s p h Hs) as (s' & e & Hr & p' & [Hp _] & ? & ? & ? & ? & ?).
  by exists s', e, p'.
Qed.

Lemma proxy_conn_finish_frees_witness :
  exists s' e p', proxy_conn_finish (H := Scripted []) (example_slot (Some 7%nat)) [] = (Some s', e) /\
    pc_priv_ptr (pc s') = Some p' /\ conn_client p' = None /\ callsign p' = str "K1RFD" /\
    (forall l, closed (conn_of l p')) /\ (forall l, ~ working (worker_of l p')) /\
    forall i, conn_client (example_priv (Some 7%nat)) = Some i ->
      exists c q, hp s' !! i = Some c /\ priv c = Some q /\
        fd q = INVALID_SOCKET /\ conn_fd q = INVALID_SOCKET.
Proof.
  apply (proxy_conn_finish_frees (O := Scripted []) (example_slot (Some 7%nat)) (example_priv (Some 7%nat)) []).
  apply example_alive. right. reflexivity.
Defined.

(** Entered with locks of lower rank only, every operation and handler of a
    slot, and every round of its forwarders, takes locks in the one global order
    (client, send, worker, thread, connection), releases them in stack order and
    leaves none behind, on every path. *)
Theorem proxy_conn_lock_discipline `{OS} (k : lockset) (s : pst) :
  below (MClient 0) k ->
  locks k (proxy_conn_init s) k /\ locks k (proxy_conn_free s) k /\
  (forall i call rc, locks k (proxy_conn_accept s i call rc) k) /\
  locks k (proxy_conn_drop s) k /\ locks k (proxy_conn_finish s) k /\
  locks k (proxy_conn_process s) k /\ locks k (proxy_conn_start s) k /\
  locks k (proxy_conn_stop s) k /\ locks k (proxy_conn_in_use s) k /\
  (forall l, locks k (forward_round l s) k).
Proof.
  intros Hk. split_and!.
  - by apply locks_init.
  - by apply locks_free.
  - intros. by apply locks_accept.
  - apply locks_proxy_conn_drop. below.
  - by apply locks_finish.
  - by apply locks_process.
  - by apply locks_start.
  - by apply locks_stop.
  - by apply locks_in_use.
  - intros. by apply locks_forward_round.
Qed.

Lemma proxy_conn_lock_discipline_witness :
  locks [(true, MUsable)] (proxy_conn_finish (H := Scripted []) (example_slot None)) [(true, MUsable)].
Proof.
  apply (proxy_conn_lock_discipline (H := Scripted []) [(true, MUsable)] (example_slot None)).
  apply below_cons; [simpl; lia|apply below_nil].
Defined.

(** The text of an address in a TCP_OPEN message always has between 7 and
    15 characters, so the length check never rejects one and the 16-byte buffer
    holds it with its terminator. *)
Theorem tcp_open_address_fits (a : Z) : (7 <= length (addr_text a) <= 15)%nat.
Proof.
  assert (Hd : forall z, (1 <= length (dec (u8 z)) <= 3)%nat).
  { intros z. pose proof (u8_range z) as Hz. unfold is_u8 in Hz. change (2 ^ 8) with 256 in Hz.
    assert (HS : forall n v acc, dec_go (S n) v acc =
      if v <? 10 then 48 + v mod 10 :: acc else dec_go n (v / 10) (48 + v mod 10 :: acc)) by done.
    unfold dec. rewrite HS. destruct (Z.ltb_spec (u8 z) 10); [simpl; lia|].
    rewrite HS. destruct (Z.ltb_spec (u8 z / 10) 10); [simpl; lia|].
    rewrite HS. destruct (Z.ltb_spec (u8 z / 10 / 10) 10); [simpl; lia|]. exfalso. div_lia. }
  unfold addr_text, le32. rewrite !length_app.
  pose proof (Hd a). pose proof (Hd (Z.shiftr a 8)). pose proof (Hd (Z.shiftr a 16)).
  pose proof (Hd (Z.shiftr a 24)). change (length (str ".")) with 1%nat. lia.
Qed.

(** When a step of [proxy_conn_init] fails it cleans up and then returns 0:
    the caller takes the slot for initialised, and starting it dereferences
    NULL. *)
Theorem proxy_conn_init_hides_failure :
  exists O : OS, OSLaws O /\
    let s := mkPst (mkPc 0 None None None None) ∅ in
    exists s', fst (proxy_conn_init s []) = Some (0, s') /\ pc_priv_ptr (pc s') = None /\
      forall h, fst (proxy_conn_start s' h) = None.
Proof.
  exists (Scripted [returns 1; returns 0]). split; [apply _|]. eexists.
  split; [vm_compute; reflexivity|]. split; [reflexivity|]. done.
Qed.
