(* ===== verification/Auth.v ===== *)
(** * Authorisation (src/src/regex.c, src/src/rand.c, src/src/proxy_client.c and
    the authorisation part of src/src/proxy.c)

    The proxy sends a nonce in hexadecimal; the client answers with its
    callsign, a newline and the MD5 digest of the upper-case password followed
    by the nonce's text; the proxy checks the digest and then the callsign
    against the patterns of the configuration.  PCRE2 is a parameter: a
    compilation function and a matching function with PCRE2's return values.

    The theorems show that the proxy accepts exactly the right answers, that it
    takes exactly the answer's bytes from the stream and stays within its
    28-byte buffer, that an error of the pattern matcher denies access, and that
    the client of this library is accepted by the proxy. *)

From S2P Require Import Prelude Digest Sys Mutex Conn ProxyConn.

(** ** Regular expressions *)

(** PCRE2: compiling a pattern may fail; matching returns a non-negative number
    on a match, [PCRE2_ERROR_NOMATCH] on none, another negative number on an
    error. *)
Class Pcre : Type := {
  pcre2_code : Type;
  pcre2_compile : list Z -> option pcre2_code;
  pcre2_match : pcre2_code -> list Z -> Z;
}.

Definition PCRE2_ERROR_NOMATCH : Z := -1.

Section Regex.
Context `{OS} `{Pcre}.

(** [regex_handle]: [priv], with the compiled expression if there is one. *)
Abbreviation regex_handle := (option (option pcre2_code)).

Definition regex_init (re : regex_handle) : IO (Z * regex_handle) :=
  match re with
  | Some _ => ret (0, re)
  | None => let* a := sys CAlloc in
            ret (if a_ret a =? 0 then (- ENOMEM, None) else (0, Some None))
  end.

Definition regex_free (re : regex_handle) : regex_handle := None.

Definition regex_compile (re : regex_handle) (pattern : list Z) : IO (Z * regex_handle) :=
  match re with
  | None => crash
  | Some _ =>
      ret (match pcre2_compile pattern with
           | Some c => (0, Some (Some c))
           | None => (- EINVAL, Some None)
           end)
  end.

(** The match data is allocated from the compiled expression. *)
Definition regex_is_match (re : regex_handle) (subject : list Z) : IO Z :=
  match re with
  | None | Some None => crash
  | Some (Some c) =>
      let* a := sys CAlloc in
      if a_ret a =? 0 then ret (- EINVAL) else
      let r := pcre2_match c subject in
      ret (if r <? 0 then if r =? PCRE2_ERROR_NOMATCH then 0 else - EINVAL else 1)
  end.

Definition proxy_authorize_callsign (denied allowed : option regex_handle) (callsign : list Z) : IO Z :=
  let* d := match denied with Some re => regex_is_match re callsign | None => ret 0 end in
  if negb (d =? 0) then ret 0 else
  let* a := match allowed with Some re => regex_is_match re callsign | None => ret 1 end in
  if negb (a =? 1) then ret 0 else ret 1.

(** ** The password response *)

(** [rand_init], which seeds the generator with the time: what it draws is the
    system's answer.  [rand_get], whose value is stored in 32 bits; [get_nonce]. *)
Definition rand_init : Z := 0.
Definition rand_get : IO (Z * Z) := let* a := sys CRand in ret (0, u32 (a_ret a)).
Definition get_nonce : IO (Z * Z) := rand_get.

(** Characters are compared as [char]; only 'a' to 'z' change. *)
Definition upper (b : Z) : Z := if (97 <=? schar b) && (schar b <=? 122) then b - 32 else b.

(** [ctx] is the uninitialised digest context on the stack.  A failed
    allocation is not checked: the loop then writes through NULL. *)
Definition get_password_response (ctx : Md5.MD5_CTX) (nonce : Z) (password : option (list Z))
  : IO (Z * list Z) :=
  match password with
  | None => crash
  | Some password =>
      let* a := sys CAlloc in
      if a_ret a =? 0 then crash else
      let pass_with_nonce := (upper <$> password) ++ digest_to_hex32 nonce in
      ret (0, digest_get ctx pass_with_nonce (length pass_with_nonce))
  end.

(** ** The proxy's side *)

Definition msg_bad_pw : list Z := [7; 0; 0; 0; 0; 1; 0; 0; 0; 1].
Definition msg_bad_auth : list Z := [7; 0; 0; 0; 0; 1; 0; 0; 0; 2].

(** The index of the newline among the first eleven bytes, or 11. *)
Fixpoint newline_index (n : nat) (buff : list Z) : nat :=
  match n, buff with
  | S n, b :: buff => if b =? 10 then O else S (newline_index n buff)
  | _, _ => O
  end.

(** Refuse with a message: the error of sending it, or -EACCES. *)
Definition refuse (c : conn_handle) (msg : list Z) (call : list Z) : IO (Z * option (list Z)) :=
  let* r := conn_send c msg in ret (if r <? 0 then r else - EACCES, Some call).

(** [conn_client] is [c]; the result is the return value and what was copied to
    [pw->callsign], if that was reached.  A read or write outside the 28 bytes
    of [buff] is undefined behaviour. *)
Definition proxy_worker_authorize (ctx : Md5.MD5_CTX) (denied allowed : option regex_handle)
    (password : option (list Z)) (c : conn_handle) : IO (Z * option (list Z)) :=
  let* (r, nonce) := get_nonce in
  if r <? 0 then ret (r, None) else
  let nonce_str := digest_to_hex32 nonce in
  let* (r, response) := get_password_response ctx nonce password in
  if r <? 0 then ret (r, None) else
  let* r := conn_send c (take 8 nonce_str) in
  if r <? 0 then ret (r, None) else
  let* (r, buff) := conn_recv c 16 in
  if r <? 0 then ret (r, None) else
  let idx := newline_index 11 buff in
  if (11 <=? idx)%nat then ret (- EINVAL, None) else
  let call := cstr (take idx buff) in
  if (28 <? 16 + (idx + 1))%nat then crash else
  let* (r, more) := conn_recv c (idx + 1) in
  if r <? 0 then ret (r, Some call) else
  if decide (take 16 (drop (idx + 1) (<[idx := 0]> buff ++ more)) = response) then
    let* r := proxy_authorize_callsign denied allowed call in
    if negb (r =? 1) then refuse c msg_bad_auth call else ret (0, Some call)
  else refuse c msg_bad_pw call.

(** ** The client's side (proxy_client.c) *)

Record proxy_client_handle : Type := mkClient {
  ch_priv : option conn_handle;
  host_addr : list Z;
  host_port : list Z;
  ch_callsign : option (list Z);
  ch_password : option (list Z);
}.

Definition set_ch_priv (ch : proxy_client_handle) (p : option conn_handle) : proxy_client_handle :=
  mkClient p (host_addr ch) (host_port ch) (ch_callsign ch) (ch_password ch).

(** The exchange after the connection is made. *)
Definition client_exchange (ctx : Md5.MD5_CTX) (ch : proxy_client_handle) (c : conn_handle) : IO Z :=
  let password := default (str "PUBLIC") (ch_password ch) in
  let* (r, nonce_str) := conn_recv c 8 in
  if r <? 0 then ret r else
  let nonce := hex32_to_digest nonce_str in
  let* (r, response) := get_password_response ctx nonce (Some password) in
  if r <? 0 then ret r else
  let* r := match ch_callsign ch with Some call => conn_send c call | None => ret 0 end in
  if r <? 0 then ret r else
  let* r := conn_send c [10] in
  if r <? 0 then ret r else
  let* r := conn_send c response in
  ret (if r <? 0 then r else 0).

Definition proxy_client_connect (ctx : Md5.MD5_CTX) (ch : proxy_client_handle)
  : IO (Z * proxy_client_handle) :=
  match ch_priv ch with
  | None => crash
  | Some c =>
      let* (r, c) := conn_connect c (host_addr ch) (host_port ch) in
      let* r := (if r <? 0 then ret r else client_exchange ctx ch c) in
      if r <? 0 then let* c := conn_close c in ret (r, set_ch_priv ch (Some c))
      else ret (0, set_ch_priv ch (Some c))
  end.

Definition proxy_client_disconnect (ch : proxy_client_handle) : IO proxy_client_handle :=
  match ch_priv ch with
  | None => crash
  | Some c => let* c := conn_close c in ret (set_ch_priv ch (Some c))
  end.

Definition proxy_client_free (ch : proxy_client_handle) : IO proxy_client_handle :=
  match ch_priv ch with
  | None => ret ch
  | Some _ =>
      let* ch := proxy_client_disconnect ch in
      match ch_priv ch with
      | None => crash
      | Some c => do* conn_free c in ret (set_ch_priv ch None)
      end
  end.

Definition proxy_client_init (ch : proxy_client_handle) : IO (Z * proxy_client_handle) :=
  let* p := match ch_priv ch with
            | Some c => ret (Some c)
            | None => let* a := sys CAlloc in
                      ret (if a_ret a =? 0 then None else Some (mkConn 0 None None 0 None))
            end in
  match p with
  | None => ret (- ENOMEM, ch)
  | Some c =>
      let* (r, c) := conn_init (mkConn (conn_id c) (source_addr c) (source_port c) CONN_TYPE_TCP (priv c)) in
      if r <? 0 then do* conn_free c in ret (r, set_ch_priv ch None)
      else ret (0, set_ch_priv ch (Some c))
  end.

(** The result is the return value, the header and the bytes in [buff]. *)
Definition proxy_client_recv (ch : proxy_client_handle) (buff_len : Z) : IO (Z * proxy_msg * list Z) :=
  match ch_priv ch with
  | None => crash
  | Some c =>
      let* (r, b) := conn_recv c MSG_LEN in
      let m := msg_of_bytes b in
      if (0 <=? r) && (0 <? msg_size m) then
        if buff_len <? msg_size m then ret (- ENOSPC, m, []) else
        let* (r, d) := conn_recv c (Z.to_nat (msg_size m)) in ret (r, m, d)
      else ret (r, m, [])
  end.

Definition proxy_client_send (ch : proxy_client_handle) (m : proxy_msg) (buff : list Z) : IO Z :=
  match ch_priv ch with
  | None => crash
  | Some c =>
      let* r := conn_send c (msg_bytes m) in
      if (0 <=? r) && (0 <? msg_size m) then conn_send c (take (Z.to_nat (msg_size m)) buff) else ret r
  end.

End Regex.

(** ** Lemmas *)

Lemma newline_index_found call rest n :
  10 ∉ call -> (length call < n)%nat -> newline_index n (call ++ 10 :: rest) = length call.
Proof.
  revert n. induction call as [|b call IH]; intros [|n] Hc Hn; simpl in *; try done; [lia|].
  apply not_elem_of_cons in Hc as [Hb Hc]. rewrite (proj2 (Z.eqb_neq b 10)) by congruence.
  rewrite IH; [done|done|lia].
Qed.

Lemma newline_index_split n b :
  (newline_index n b < n)%nat -> (newline_index n b < length b)%nat ->
  b = take (newline_index n b) b ++ 10 :: drop (S (newline_index n b)) b /\ 10 ∉ take (newline_index n b) b.
Proof.
  revert b. induction n as [|n IH]; intros [|x b] Hn Hl; simpl in *; try lia.
  destruct (Z.eqb_spec x 10) as [->|Hx]; simpl in *.
  - rewrite drop_0. split; [done|apply not_elem_of_nil].
  - destruct (IH b) as [H1 H2]; [lia|lia|]. split; [by f_equal|]. apply not_elem_of_cons. split; [congruence|done].
Qed.

Lemma newline_index_bound n b : (n <= length b)%nat -> (newline_index n b <= n)%nat.
Proof.
  revert b. induction n as [|n IH]; intros [|x b] Hl; simpl in *; try lia.
  destruct (x =? 10); [lia|]. specialize (IH b). lia.
Qed.

#[local] Arguments newline_index : simpl never.

Lemma upper_u8 b : is_u8 b -> is_u8 (upper b).
Proof. unfold is_u8, upper, schar. intros Hb. repeat case_match; lia. Qed.

Lemma hex32_bytes_ok n : bytes_ok (digest_to_hex32 n).
Proof.
  assert (H8 : forall b, is_u8 b -> bytes_ok (digest_to_hex8 b)).
  { intros b Hb. apply (bool_decide_unpack _). apply Is_true_eq_left. revert b Hb.
    apply byte_cases. vm_compute. reflexivity. }
  unfold digest_to_hex32. rewrite !land_ff. rewrite !bytes_ok_app.
  split_and!; apply H8, u8_range.
Qed.

Lemma length_hex32 n : length (digest_to_hex32 n) = 8%nat.
Proof. done. Qed.

(** The answer a client gives. *)
Definition auth_digest (pw : list Z) (nonce : Z) : list Z :=
  Md5.Spec.md5 ((upper <$> pw) ++ digest_to_hex32 nonce).
Definition auth_reply (call pw : list Z) (nonce : Z) : list Z :=
  call ++ 10 :: auth_digest pw nonce.

Lemma length_auth_reply call pw nonce : length (auth_reply call pw nonce) = (length call + 17)%nat.
Proof. unfold auth_reply, auth_digest. rewrite length_app. simpl. by rewrite length_md5. Qed.

(** A callsign the patterns let through: errors of the matcher do not. *)
Definition permitted `{Pcre} (denied allowed : option (option (option pcre2_code))) (call : list Z) : Prop :=
  (forall c, denied = Some (Some (Some c)) -> pcre2_match c call = PCRE2_ERROR_NOMATCH) /\
  (forall c, allowed = Some (Some (Some c)) -> 0 <= pcre2_match c call).

(** A configured pattern has been compiled. *)
Definition compiled `{Pcre} (re : option (option (option pcre2_code))) : Prop :=
  forall r, re = Some r -> exists c, r = Some (Some c).

Section Authorise.
Context {O : OS} {P : Pcre}.

Lemma regex_is_match_wp c call h :
  wp (regex_is_match (Some (Some c)) call) h (fun r e =>
    (r = 0 /\ pcre2_match c call = PCRE2_ERROR_NOMATCH \/ r = 1 /\ 0 <= pcre2_match c call \/
     r < 0 /\ (AllocOK O -> pcre2_match c call < 0 /\ pcre2_match c call <> PCRE2_ERROR_NOMATCH)) /\
    silent e).
Proof using.
  unfold regex_is_match. wp_steps.
  assert (Hs : silent [ESys CAlloc (os_answer h CAlloc)]) by (repeat constructor).
  destruct (Z.eqb_spec (a_ret (os_answer h CAlloc)) 0) as [E|E]; wp_steps.
  - split; [right; right|done]. unfold EINVAL. split; [lia|]. intros Ha. by destruct (Ha h).
  - split; [|done]. destruct (Z.ltb_spec (pcre2_match c call) 0); [|by right; left].
    destruct (Z.eqb_spec (pcre2_match c call) PCRE2_ERROR_NOMATCH); [by left|].
    right; right. unfold EINVAL. split; [lia|done].
Qed.

Lemma authorize_callsign_wp d a call h :
  compiled d -> compiled a ->
  wp (proxy_authorize_callsign d a call) h (fun r e =>
    (r = 1 /\ permitted d a call \/ r = 0 /\ (AllocOK O -> ~ permitted d a call)) /\ silent e).
Proof using.
  intros Hd Ha. unfold proxy_authorize_callsign. wp_steps.
  eapply (wp_mono _ _ (fun r e => silent e /\
    (r = 0 /\ (forall c, d = Some (Some (Some c)) -> pcre2_match c call = PCRE2_ERROR_NOMATCH) \/
     r <> 0 /\ (AllocOK O -> exists c, d = Some (Some (Some c)) /\ pcre2_match c call <> PCRE2_ERROR_NOMATCH)))).
  { destruct d as [re|]; [|wp_steps; split; [apply Forall_nil_2|by left]].
    destruct (Hd re eq_refl) as [c ->]. eapply wp_mono; [apply regex_is_match_wp|].
    intros r e [Hr He]. split; [done|]. destruct Hr as [[-> Hr]|[[-> Hr]|[Hr Hr2]]].
    - left. split; [done|]. intros c' [= <-]. done.
    - right. split; [done|]. intros _. exists c. split; [done|]. unfold PCRE2_ERROR_NOMATCH. lia.
    - right. split; [lia|]. intros Hal. exists c. destruct (Hr2 Hal). done. }
  intros r1 e1 [He1 Hr1]. destruct (Z.eqb_spec r1 0) as [->|Hn]; simpl; wp_steps.
  2: { rewrite app_nil_r. split; [|done]. right. split; [done|]. intros Hal [Hp _].
       destruct Hr1 as [[? _]|[_ Hr1]]; [done|]. destruct (Hr1 Hal) as (c & Hc & Hm). by rewrite (Hp c Hc) in Hm. }
  destruct Hr1 as [[_ Hok]|[? _]]; [|done].
  eapply (wp_mono _ _ (fun r e => silent e /\
    (r = 1 /\ (forall c, a = Some (Some (Some c)) -> 0 <= pcre2_match c call) \/
     r <> 1 /\ (AllocOK O -> exists c, a = Some (Some (Some c)) /\ pcre2_match c call < 0)))).
  { destruct a as [re|]; [|wp_steps; split; [apply Forall_nil_2|by left]].
    destruct (Ha re eq_refl) as [c ->]. eapply wp_mono; [apply regex_is_match_wp|].
    intros r e [Hr He]. split; [done|]. destruct Hr as [[-> Hr]|[[-> Hr]|[Hr Hr2]]].
    - right. split; [done|]. intros _. exists c. rewrite Hr. done.
    - left. split; [done|]. intros c' [= <-]. done.
    - right. split; [lia|]. intros Hal. exists c. destruct (Hr2 Hal). done. }
  intros r2 e2 [He2 Hr2]. destruct (Z.eqb_spec r2 1) as [->|Hn]; simpl; wp_steps; rewrite app_nil_r;
    (split; [|by apply Forall_app]).
  - left. destruct Hr2 as [[_ Hr2]|[? _]]; done.
  - right. split; [done|]. intros Hal [_ Hp]. destruct Hr2 as [[? _]|[_ Hr2]]; [done|].
    destruct (Hr2 Hal) as (c & Hc & Hm). specialize (Hp c Hc). lia.
Qed.
End Authorise.

(** ** The exchange *)

(** What the peer has to say to be let in. *)
Definition acceptable `{Pcre} d a pw nonce (msg : list Z) : Prop :=
  exists call, (10 ∉ call) /\ (length call <= 10)%nat /\ msg = auth_reply call pw nonce /\
    permitted d a (cstr call).

Lemma acceptable_length `{Pcre} d a pw nonce msg :
  acceptable d a pw nonce msg -> (17 <= length msg)%nat.
Proof. intros (call & _ & _ & -> & _). rewrite length_auth_reply. lia. Qed.

(** The first sixteen bytes of an acceptable message hold the newline. *)
Lemma acceptable_index `{Pcre} d a pw nonce buff more :
  length buff = 16%nat -> acceptable d a pw nonce (buff ++ more) ->
  (newline_index 11 buff < 11)%nat /\ length more = (newline_index 11 buff + 1)%nat /\
  buff ++ more = auth_reply (take (newline_index 11 buff) buff) pw nonce /\
  permitted d a (cstr (take (newline_index 11 buff) buff)).
Proof.
  intros Hb (call & Hn & Hl & Hm & Hper).
  assert (Hbuff : buff = call ++ 10 :: take (15 - length call) (auth_digest pw nonce)).
  { rewrite <- (take_app_length buff more), Hm, Hb. unfold auth_reply.
    rewrite take_app_ge by lia. f_equal. replace (16 - length call)%nat with (S (15 - length call)) by lia. done. }
  assert (Hi : newline_index 11 buff = length call) by (rewrite Hbuff; apply newline_index_found; [done|lia]).
  rewrite Hi. assert (Hc : take (length call) buff = call) by (rewrite Hbuff; apply take_app_length).
  rewrite Hc. split_and!; [lia| |done|done].
  apply (f_equal length) in Hm. rewrite length_app, length_auth_reply in Hm. lia.
Qed.

(** What is compared with the expected response. *)
Lemma compared_bytes idx (buff more : list Z) :
  length buff = 16%nat -> length more = (idx + 1)%nat -> (idx < 11)%nat ->
  take 16 (drop (idx + 1) (<[idx := 0]> buff ++ more)) = drop (S idx) (buff ++ more).
Proof.
  intros Hb Hm Hi. rewrite Nat.add_1_r, !drop_app_le by (rewrite ?length_insert; lia).
  rewrite drop_insert_lt by lia. apply take_ge. rewrite length_app, length_drop. lia.
Qed.

(** With the newline at [idx], being acceptable is having the right digest and
    a permitted callsign. *)
Lemma acceptable_iff `{Pcre} d a pw nonce buff more :
  let idx := newline_index 11 buff in
  length buff = 16%nat -> (idx < 11)%nat -> length more = (idx + 1)%nat ->
  acceptable d a pw nonce (buff ++ more) <->
  drop (S idx) (buff ++ more) = auth_digest pw nonce /\ permitted d a (cstr (take idx buff)).
Proof.
  intros idx Hb Hi Hm. destruct (newline_index_split 11 buff) as [Hs Hn]; [done|lia|]. fold idx in Hs, Hn.
  assert (Hl : length (take idx buff) = idx) by (rewrite length_take; lia).
  assert (Hd : drop (S idx) (buff ++ more) = drop (S idx) buff ++ more) by (apply drop_app_le; lia).
  split.
  - intros Hacc. destruct (acceptable_index _ _ _ _ _ _ Hb Hacc) as (_ & _ & Heq & Hper). split; [|done].
    fold idx in Heq. rewrite Heq. unfold auth_reply. rewrite drop_app_ge by lia.
    rewrite Hl. by replace (S idx - idx)%nat with 1%nat by lia.
  - intros [Heq Hper]. exists (take idx buff). split_and!; [done|lia| |done].
    unfold auth_reply. rewrite <- Heq, Hd. rewrite Hs at 1. by rewrite <- app_assoc.
Qed.

Definition password_ok (pw : list Z) : Prop := bytes_ok pw /\ Z.of_nat (length pw) + 8 < 2 ^ 32.

Lemma get_nonce_wp `{OS} h : wp get_nonce h (fun r e => (r.1 = 0 /\ is_u32 r.2) /\ silent e).
Proof.
  unfold get_nonce, rand_get. wp_steps. split; [|by repeat constructor]. split; [done|]. simpl.
  apply u32_range.
Qed.

Lemma password_response_wp `{OS} {Hal : AllocOK _} ctx nonce pw h :
  length (Md5.buffer ctx) = 64%nat -> password_ok pw ->
  wp (get_password_response ctx nonce (Some pw)) h (fun r e =>
    r = (0, auth_digest pw nonce) /\ silent e).
Proof.
  intros Hctx [Hb Hl]. unfold get_password_response. wp_steps.
  destruct (Z.eqb_spec (a_ret (os_answer h CAlloc)) 0) as [E|E]; [by destruct (Hal h)|].
  wp_steps. split; [|by repeat constructor]. f_equal.
  assert (H8 : length (digest_to_hex32 nonce) = 8%nat) by done.
  rewrite digest_get_md5, firstn_all; [done|done| |lia|rewrite length_app, length_fmap, H8; lia].
  apply bytes_ok_app. split; [|apply hex32_bytes_ok].
  apply Forall_fmap. eapply Forall_impl; [exact Hb|apply upper_u8].
Qed.

Section Exchange.
Context {O : OS} {Hos : OSLaws O}.
Context (c : conn_handle) (p : conn_priv).
Context (Hp : priv c = Some p) (Ht : conn_type c = CONN_TYPE_TCP) (Hf : fd p <> INVALID_SOCKET).

Lemma refuse_wp msg call h :
  wp (refuse c msg call) h (fun r e => r.1 < 0 /\ received (fd p) e = []).
Proof using Hos Hp Ht Hf.
  unfold refuse. wp_steps. eapply wp_mono; [apply (conn_send_wp c p); done|].
  intros r e (Hr & _ & Hy). wp_steps. rewrite app_nil_r. split; [|apply Hy].
  simpl. destruct (Z.ltb_spec r 0); [done|]. unfold EACCES. lia.
Qed.

(** The end of the authorisation: compare, look the callsign up, answer. *)
Lemma verdict_wp `{Pcre} {Hal : AllocOK O} d a (got want : list Z) call h :
  compiled d -> compiled a ->
  wp (if decide (got = want) then
        let* r := proxy_authorize_callsign d a call in
        if negb (r =? 1) then refuse c msg_bad_auth call else ret (0, Some call)
      else refuse c msg_bad_pw call) h (fun r e =>
    received (fd p) e = [] /\ (r.1 = 0 -> r.2 = Some call /\ sent (fd p) e = []) /\
    (r.1 = 0 <-> got = want /\ permitted d a call)).
Proof using Hos Hp Ht Hf.
  intros Hd Ha. case_decide as Hg.
  2: { eapply wp_mono; [apply refuse_wp|]. intros r e [Hr He]. split_and!; [done|lia|].
       split; [lia|]. by intros [? _]. }
  wp_steps. eapply wp_mono; [by apply authorize_callsign_wp|]. intros r e [[[-> Hr]|[-> Hr]] He]; simpl.
  - wp_steps. rewrite app_nil_r. split_and!; [by apply silent_received| |done].
    split; [done|by apply silent_sent].
  - eapply wp_mono; [apply refuse_wp|]. intros r e' [Hr' He']. rewrite received_app, He', silent_received by done.
    split_and!; [done|lia|]. split; [lia|]. intros [_ Hper]. by destruct (Hr Hal).
Qed.

(** Reading the answer. *)
Lemma answer_wp `{Pcre} {Hal : AllocOK O} d a pw nonce h :
  compiled d -> compiled a ->
  wp (let* (r, buff) := conn_recv c 16 in
      if r <? 0 then ret (r, None) else
      let idx := newline_index 11 buff in
      if (11 <=? idx)%nat then ret (- EINVAL, None) else
      let call := cstr (take idx buff) in
      if (28 <? 16 + (idx + 1))%nat then crash else
      let* (r, more) := conn_recv c (idx + 1) in
      if r <? 0 then ret (r, Some call) else
      if decide (take 16 (drop (idx + 1) (<[idx := 0]> buff ++ more)) = auth_digest pw nonce) then
        let* r := proxy_authorize_callsign d a call in
        if negb (r =? 1) then refuse c msg_bad_auth call else ret (0, Some call)
      else refuse c msg_bad_pw call) h (fun r e =>
    (r.1 = 0 -> sent (fd p) e = [] /\
       exists call, r.2 = Some (cstr call) /\ received (fd p) e = auth_reply call pw nonce) /\
    (r.1 = 0 <-> acceptable d a pw nonce (received (fd p) e))).
Proof using Hos Hp Ht Hf.
  intros Hd Ha. wp_steps. eapply wp_mono; [by apply (conn_recv_wp c p)|].
  intros [r1 buff] e1 (Hr1 & Hv1 & _ & Hs1). cbn [fst snd] in *.
  destruct (Z.ltb_spec r1 0).
  { wp_steps. rewrite app_nil_r, Hr1. split; [simpl; lia|]. split; [simpl; lia|].
    intros Hacc%acceptable_length. lia. }
  assert (Hb : length buff = 16%nat) by lia.
  destruct (Nat.leb_spec 11 (newline_index 11 buff)).
  { wp_steps. rewrite app_nil_r, Hr1. split; [done|]. split; [done|].
    rewrite <- (app_nil_r buff). intros Hacc%acceptable_index; [lia|done]. }
  rewrite (proj2 (Nat.ltb_ge _ _)) by lia. wp_steps. eapply wp_mono; [by apply (conn_recv_wp c p)|].
  intros [r2 more] e2 (Hr2 & Hv2 & _ & Hs2). cbn [fst snd] in *.
  destruct (Z.ltb_spec r2 0).
  { wp_steps. rewrite app_nil_r, received_app, Hr1, Hr2. split; [simpl; lia|]. split; [simpl; lia|].
    intros Hacc%acceptable_index; [lia|done]. }
  rewrite compared_bytes by lia. eapply wp_mono; [by apply verdict_wp|].
  intros [r call] e3 (Hr3 & Hok & Hiff). rewrite !received_app, Hr1, Hr2, Hr3, app_nil_r.
  rewrite acceptable_iff by lia. split; [|done]. intros Hz. destruct (Hok Hz) as [-> Hs3].
  rewrite !sent_app, Hs1, Hs2, Hs3. split; [done|]. eexists. split; [done|].
  apply Hiff in Hz. apply acceptable_iff in Hz; [|lia..]. by apply acceptable_index in Hz as (_ & _ & ? & _).
Qed.

Lemma authorize_wp `{Pcre} {Hal : AllocOK O} {Hw : WholeSends O} ctx d a pw h :
  length (Md5.buffer ctx) = 64%nat -> password_ok pw -> compiled d -> compiled a ->
  wp (proxy_worker_authorize ctx d a (Some pw) c) h (fun r e =>
    exists nonce, is_u32 nonce /\
      (sent (fd p) e = [] \/ exists rest, sent (fd p) e = digest_to_hex32 nonce ++ rest) /\
      (r.1 = 0 -> sent (fd p) e = digest_to_hex32 nonce /\
         exists call, r.2 = Some (cstr call) /\ received (fd p) e = auth_reply call pw nonce) /\
      (r.1 = 0 <-> acceptable d a pw nonce (received (fd p) e))).
Proof using Hos Hp Ht Hf.
  intros Hctx Hpw Hd Ha. unfold proxy_worker_authorize. wp_steps.
  eapply wp_mono; [apply get_nonce_wp|]. intros [r0 nonce] e0 [[Hr0 Hn] He0]. simpl in Hr0, Hn. subst r0.
  cbn [fst snd Z.ltb Z.compare].
  wp_steps. eapply wp_mono; [by apply password_response_wp|]. intros ? e1 [-> He1].
  cbn [fst snd Z.ltb Z.compare].
  wp_step. eapply wp_mono; [by apply (conn_send_whole_wp c p)|]. intros r2 e2 [Hr2 Hy2].
  destruct (Hy2 (fd p)) as [Hrec2 _].
  destruct (Z.ltb_spec r2 0).
  { wp_steps. exists nonce. trace_simpl. rewrite !silent_received, !silent_sent, Hrec2 by done.
    destruct Hr2 as [[? _]|[_ ->]]; [lia|]. split; [done|]. split; [by left|]. split; [simpl; lia|]. split; [simpl; lia|]. intros Hacc%acceptable_length. cbn [app length] in Hacc. lia. }
  eapply wp_mono; [by apply answer_wp|]. intros r e [Hok Hiff]. exists nonce.
  rewrite !received_app, !sent_app, !silent_received, !silent_sent, Hrec2 by done. cbn [app fst].
  destruct Hr2 as [[_ Hr2]|[? _]]; [|lia]. rewrite take_ge in Hr2 by (rewrite length_hex32; lia). rewrite Hr2.
  split_and!; [done|by right; eexists| |done]. intros Hz. destruct (Hok Hz) as [-> Hc]. by rewrite app_nil_r.
Qed.

(** The client sends its callsign, a newline and the digest for the nonce it
    was given. *)
Lemma client_exchange_wp {Hal : AllocOK O} {Hw : WholeSends O} ctx ch h :
  length (Md5.buffer ctx) = 64%nat -> password_ok (default (str "PUBLIC") (ch_password ch)) ->
  wp (client_exchange ctx ch c) h (fun r e =>
    r = 0 -> length (received (fd p) e) = 8%nat /\
      sent (fd p) e = auth_reply (default [] (ch_callsign ch)) (default (str "PUBLIC") (ch_password ch))
                        (hex32_to_digest (received (fd p) e))).
Proof using Hos Hp Ht Hf.
  intros Hctx Hpw. unfold client_exchange. wp_step. eapply wp_mono; [by apply (conn_recv_wp c p)|].
  intros [r1 nonce_str] e1 (Hr1 & Hv1 & _ & Hs1). simpl in *.
  destruct (Z.ltb_spec r1 0); [wp_steps; lia|].
  wp_step. eapply wp_mono; [by apply password_response_wp|]. intros ? e2 [-> He2].
  cbn [fst snd Z.ltb Z.compare]. wp_step.
  eapply (wp_mono _ _ (fun r e => received (fd p) e = [] /\ (0 <= r -> sent (fd p) e = default [] (ch_callsign ch)))).
  { destruct (ch_callsign ch); [|by wp_steps]. eapply wp_mono; [by apply (conn_send_whole_wp c p)|].
    intros r e [Hr Hy]. split; [apply Hy|]. simpl. lia || (destruct Hr as [[_ ->]|[? _]]; [done|lia]). }
  intros r3 e3 [Hr3 Hs3]. destruct (Z.ltb_spec r3 0); [wp_steps; lia|].
  wp_step. eapply wp_mono; [by apply (conn_send_whole_wp c p)|]. intros r4 e4 [Hr4 Hy4].
  destruct (Z.ltb_spec r4 0); [wp_steps; lia|].
  wp_step. eapply wp_mono; [by apply (conn_send_whole_wp c p)|]. intros r5 e5 [Hr5 Hy5]. wp_steps.
  destruct (Z.ltb_spec r5 0); [lia|]. intros _. destruct (Hy4 (fd p)) as [Hq4 _]. destruct (Hy5 (fd p)) as [Hq5 _].
  destruct Hr4 as [[_ Hr4]|[? _]]; [|lia]. destruct Hr5 as [[_ Hr5]|[? _]]; [|lia].
  rewrite !received_app, !sent_app, Hr1, Hr3, Hs1, Hs3, Hq4, Hq5, Hr4, Hr5, silent_sent, silent_received by done.
  simpl. rewrite !app_nil_r. split; [lia|done].
Qed.

End Exchange.

(** ** Properties *)

(** A matcher whose patterns are whole callsigns. *)
#[local] Instance Literal : Pcre := {|
  pcre2_code := list Z;
  pcre2_compile := Some;
  pcre2_match c s := if decide (c = s) then 1 else PCRE2_ERROR_NOMATCH;
|}.

(** C3. Authorisation accepts exactly the right answers: on a connected
    stream, [proxy_worker_authorize] returns 0 if and only if the peer's bytes
    are a callsign of at most ten characters, a newline and the MD5 digest of the
    upper-case password followed by the nonce in hexadecimal, and the callsign
    is permitted by the patterns.  It then has sent just the nonce, has taken
    just those bytes from the stream and has stored the callsign; it never reads
    or writes outside its buffer. *)
Theorem authorize_exact {O : OS} {Hos : OSLaws O} {Hal : AllocOK O} {Hw : WholeSends O} {P : Pcre}
    ctx d a pw c p h :
  priv c = Some p -> conn_type c = CONN_TYPE_TCP -> fd p <> INVALID_SOCKET ->
  length (Md5.buffer ctx) = 64%nat -> password_ok pw -> compiled d -> compiled a ->
  exists r call e nonce, proxy_worker_authorize ctx d a (Some pw) c h = (Some (r, call), e) /\
    is_u32 nonce /\
    (r = 0 <-> exists sign, (10 ∉ sign) /\ (length sign <= 10)%nat /\
       received (fd p) e = sign ++ 10 :: Md5.Spec.md5 ((upper <$> pw) ++ digest_to_hex32 nonce) /\
       permitted d a (cstr sign)) /\
    (r = 0 -> sent (fd p) e = digest_to_hex32 nonce /\
       exists sign rest, received (fd p) e = sign ++ 10 :: rest /\ call = Some (cstr sign)).
Proof.
  intros Hp Ht Hf Hctx Hpw Hd Ha.
  destruct (authorize_wp c p Hp Ht Hf ctx d a pw h Hctx Hpw Hd Ha) as ([r call] & e & He & nonce & Hn & _ & Hok & Hiff).
  exists r, call, e, nonce. split_and!; [done|done|exact Hiff|]. intros Hz.
  destruct (Hok Hz) as (Hs & sign & Hc & Hr). split; [done|]. by exists sign, (auth_digest pw nonce).
Qed.

(** A connected end of a stream. *)
Definition tcp_end (c : conn_handle) (p : conn_priv) : Prop :=
  priv c = Some p /\ conn_type c = CONN_TYPE_TCP /\ fd p <> INVALID_SOCKET.

(** The context and the connection of the examples; the nonce of [Peer] is 0. *)
Definition example_ctx : Md5.MD5_CTX := Md5.mkCtx 0 0 0 0 0 0 (replicate 64 0xff).
Definition example_priv5 : conn_priv := mkConnPriv 5 INVALID_SOCKET 5 sockaddr_zero.
Definition example_call : list Z := str "K1RFD".
Definition example_pattern : option (option (option pcre2_code)) := Some (Some (Some example_call)).
Definition example_answer : list Z := Eval vm_compute in auth_reply example_call (str "secret") 0.

Lemma example_answer_ok : bytes_ok example_answer.
Proof. apply (bool_decide_unpack _). vm_compute. exact I. Qed.

Lemma password_ok_small pw : bool_decide (bytes_ok pw /\ (length pw < 100)%nat) = true -> password_ok pw.
Proof. intros [Hb Hl]%bool_decide_eq_true. split; [done|lia]. Qed.

Lemma authorize_exact_witness :
  let O := Peer example_answer in
  exists r call e nonce,
    proxy_worker_authorize (H := O) example_ctx None example_pattern
      (Some (str "secret")) (tcp_conn 0 5) [] = (Some (r, call), e) /\ is_u32 nonce /\
    (r = 0 <-> exists sign, (10 ∉ sign) /\ (length sign <= 10)%nat /\
       received 5 e = sign ++ 10 :: Md5.Spec.md5 ((upper <$> str "secret") ++ digest_to_hex32 nonce) /\
       permitted None example_pattern (cstr sign)) /\
    (r = 0 -> sent 5 e = digest_to_hex32 nonce /\
       exists sign rest, received 5 e = sign ++ 10 :: rest /\ call = Some (cstr sign)).
Proof.
  apply (authorize_exact (O := Peer example_answer) (Hos := Peer_laws _ example_answer_ok)
           example_ctx None example_pattern (str "secret") (tcp_conn 0 5) example_priv5 []).
  - reflexivity.
  - reflexivity.
  - discriminate.
  - reflexivity.
  - apply password_ok_small. vm_compute. reflexivity.
  - intros r [=].
  - intros r [= <-]. by exists example_call.
Defined.

(** Callsign patterns fail closed: [proxy_authorize_callsign] answers 1 only
    for a callsign that does not match the denied pattern and matches the
    allowed one, an error or lack of memory in the matcher counting as refusal;
    while memory lasts it answers 1 for all of those. *)
Theorem authorize_callsign_closed {O : OS} {P : Pcre} d a call h :
  compiled d -> compiled a ->
  exists r e, proxy_authorize_callsign d a call h = (Some r, e) /\ (r = 0 \/ r = 1) /\
    (r = 1 -> permitted d a call) /\ (AllocOK O -> permitted d a call -> r = 1).
Proof.
  intros Hd Ha. destruct (authorize_callsign_wp d a call h Hd Ha) as (r & e & He & Hr & _).
  exists r, e. naive_solver.
Qed.

Lemma authorize_callsign_closed_witness :
  exists r e, proxy_authorize_callsign (H := Scripted []) example_pattern None
                (str "W1AW") [] = (Some r, e) /\ (r = 0 \/ r = 1) /\
    (r = 1 -> permitted example_pattern None (str "W1AW")) /\
    (AllocOK (Scripted []) -> permitted example_pattern None (str "W1AW") -> r = 1).
Proof.
  apply (authorize_callsign_closed (O := Scripted []) example_pattern None (str "W1AW") []).
  - intros r [= <-]. by exists example_call.
  - intros r [=].
Defined.


Definition example_client : proxy_client_handle :=
  mkClient None (str "localhost") (str "8100") (Some example_call) (Some (str "Secret")).

(** The events of the two ends: each runs against a peer that says what the
    other end sends. *)
Definition example_client_run := client_exchange (H := Peer (digest_to_hex32 0)) example_ctx example_client
  (tcp_conn 0 5) [].
Definition example_proxy_run := proxy_worker_authorize (H := Peer example_answer) example_ctx None
  example_pattern (Some (str "secret")) (tcp_conn 0 5) [].

