(* ===== verification/Pool.v ===== *)
(** * The pool of session slots (src/src/proxy.c)

    The idle slots form a doubly linked list, and the slots form 256 more by the
    hash of their last callsign.  The lists are intrusive and their back
    pointers point to the pointer that points to the element
    ([struct proxy_conn_handle **]); the model keeps those locations and every
    store of the code through them.

    The theorems show that the pointer operations refine operations on lists,
    and that, as long as no slot is claimed again in the window between the end
    of its session and its return to the pool, any interleaving of workers keeps
    every slot in exactly one place and finds the pool never empty.  A further
    theorem shows that a claim in that window destroys the pool. *)

From stdpp Require Import functions.
From S2P Require Import Prelude Digest Pearson Sys Mutex Worker Conn ProxyConn.

(** ** Locations and state *)

(** The places that hold a [struct proxy_conn_handle *]; slots are named by
    their index in [clients]. *)
Inductive ploc : Type :=
| LHead                       (* priv->idle_clients_head *)
| LNext (i : nat)             (* clients[i].next *)
| LByCall (h : Z)             (* priv->clients_by_call[h] *)
| LNextByCall (i : nat).      (* clients[i].next_by_call *)

#[export] Instance ploc_eq_dec : EqDecision ploc.
Proof. solve_decision. Defined.

Record pool : Type := mkPool {
  cell : ploc -> option nat;
  prev_ptr : nat -> option ploc;
  prev_by_call_ptr : nat -> option ploc;
  idle_clients_tail_ptr : option ploc;
}.

Definition set_cell (st : pool) (l : ploc) (x : option nat) : pool :=
  mkPool (<[l := x]> (cell st)) (prev_ptr st) (prev_by_call_ptr st) (idle_clients_tail_ptr st).
Definition set_prev (st : pool) (i : nat) (x : option ploc) : pool :=
  mkPool (cell st) (<[i := x]> (prev_ptr st)) (prev_by_call_ptr st) (idle_clients_tail_ptr st).
Definition set_prev_by_call (st : pool) (i : nat) (x : option ploc) : pool :=
  mkPool (cell st) (prev_ptr st) (<[i := x]> (prev_by_call_ptr st)) (idle_clients_tail_ptr st).
Definition set_tail (st : pool) (x : option ploc) : pool :=
  mkPool (cell st) (prev_ptr st) (prev_by_call_ptr st) x.

(** A store [*p = x]; NULL is undefined behaviour. *)
Definition store (st : pool) (p : option ploc) (x : option nat) : option pool :=
  match p with Some l => Some (set_cell st l x) | None => None end.

(** ** Operations *)

(** The lists as [proxy_open] links them: [calloc] has cleared the slots and
    [memset] the hash map; the head and the tail pointer are stored below. *)
Definition pool_zero : pool := mkPool (fun _ => None) (fun _ => None) (fun _ => None) None.

Fixpoint link_clients (n i : nat) (st : pool) : pool :=
  match n with
  | O => st
  | S n =>
      let st := set_prev_by_call st i None in
      let st := set_cell st (LNextByCall i) None in
      let st := set_cell st (LNext (i - 1)) (Some i) in
      let st := set_prev st i (Some (LNext (i - 1))) in
      link_clients n (S i) st
  end.

Definition pool_open (num_clients : nat) : pool :=
  let st := set_prev pool_zero 0 (Some LHead) in
  let st := set_cell st LHead (Some 0%nat) in
  let st := link_clients (num_clients - 1) 1 st in
  let st := set_cell st (LNext (num_clients - 1)) None in
  set_tail st (Some (LNext (num_clients - 1))).

(** Remove the slot from the pool. *)
Definition pool_remove (st : pool) (pc : nat) : option pool :=
  match store st (prev_ptr st pc) (cell st (LNext pc)) with
  | None => None
  | Some st =>
      Some (match cell st (LNext pc) with
            | None => set_tail st (prev_ptr st pc)
            | Some j => set_prev st j (prev_ptr st pc)
            end)
  end.

(** Remove the slot from the hash map. *)
Definition map_remove (st : pool) (pc : nat) : pool :=
  match prev_by_call_ptr st pc with
  | None => st
  | Some l =>
      let st := set_cell st l (cell st (LNextByCall pc)) in
      match cell st (LNextByCall pc) with
      | None => st
      | Some j => set_prev_by_call st j (prev_by_call_ptr st pc)
      end
  end.

(** Add the slot to the hash map. *)
Definition map_add (st : pool) (pc : nat) (hash : Z) : pool :=
  let st := set_prev_by_call st pc (Some (LByCall hash)) in
  let st := set_cell st (LNextByCall pc) (cell st (LByCall hash)) in
  let st := match cell st (LNextByCall pc) with
            | None => st
            | Some j => set_prev_by_call st j (Some (LNextByCall pc))
            end in
  set_cell st (LByCall hash) (Some pc).

Definition pool_take (st : pool) (pc : nat) (hash : Z) : option pool :=
  match pool_remove st pc with
  | None => None
  | Some st => Some (map_add (map_remove st pc) pc hash)
  end.

(** Put the slot back in the pool, once [pc->next] has been cleared. *)
Definition clear_next (st : pool) (pc : nat) : pool := set_cell st (LNext pc) None.
Definition pool_return (st : pool) (pc : nat) : option pool :=
  let st := set_prev st pc (idle_clients_tail_ptr st) in
  match store st (idle_clients_tail_ptr st) (Some pc) with
  | None => None
  | Some st => Some (set_tail st (Some (LNext pc)))
  end.

(** ** Linked lists *)

(** The elements [l] are linked from the location [a] to the location [b]. *)
Section Lists.
Context (c : ploc -> option nat) (pv : nat -> option ploc) (nx : nat -> ploc).

Fixpoint seg (a : ploc) (l : list nat) (b : ploc) : Prop :=
  match l with
  | [] => a = b
  | i :: l => c a = Some i /\ pv i = Some a /\ seg (nx i) l b
  end.

Definition end_of (a : ploc) (l : list nat) : ploc :=
  match last l with Some i => nx i | None => a end.

Definition linked (a : ploc) (l : list nat) : Prop := seg a l (end_of a l) /\ c (end_of a l) = None.
End Lists.

Lemma seg_app c pv nx a l1 l2 b :
  seg c pv nx a (l1 ++ l2) b <-> exists m, seg c pv nx a l1 m /\ seg c pv nx m l2 b.
Proof.
  revert a. induction l1 as [|i l1 IH]; intros a; simpl; [naive_solver|].
  rewrite IH. naive_solver.
Qed.

Lemma seg_end c pv nx a l b : seg c pv nx a l b -> b = end_of nx a l.
Proof.
  revert a. induction l as [|i l IH]; intros a; simpl; [by intros ->|].
  intros (_ & _ & Hs). apply IH in Hs as ->. unfold end_of. rewrite last_cons. by destruct (last l).
Qed.

Lemma linked_seg c pv nx a l b : seg c pv nx a l b -> c b = None -> linked c pv nx a l.
Proof. intros Hs Hb. pose proof (seg_end _ _ _ _ _ _ Hs) as ->. by split. Qed.

(** A segment depends on the cells it runs through and its elements' back
    pointers only. *)
Lemma seg_frame c pv c' pv' nx a l b :
  seg c pv nx a l b ->
  (l <> [] -> c' a = c a) -> (forall i, i ∈ l -> pv' i = pv i) ->
  (forall i, i ∈ removelast l -> c' (nx i) = c (nx i)) ->
  seg c' pv' nx a l b.
Proof.
  revert a. induction l as [|i l IH]; intros a; simpl; [done|].
  intros (Ha & Hi & Hs) Hca Hpv Hnx. split_and!.
  - by rewrite Hca.
  - rewrite Hpv by left. done.
  - apply IH; [done| |intros j Hj; apply Hpv; by right|].
    + intros Hl. destruct l; [done|]. apply Hnx. left.
    + intros j Hj. apply Hnx. destruct l; [by apply elem_of_nil in Hj|]. by right.
Qed.

Lemma removelast_elem_of (l : list nat) i : i ∈ removelast l -> i ∈ l.
Proof.
  destruct l as [|j l _] using rev_ind; [done|].
  rewrite removelast_last. intros Hi. apply elem_of_app. by left.
Qed.

Lemma linked_frame c pv c' pv' nx a l :
  linked c pv nx a l -> c' a = c a -> (forall i, i ∈ l -> pv' i = pv i /\ c' (nx i) = c (nx i)) ->
  linked c' pv' nx a l.
Proof.
  intros [Hs He] Ha Hl. split.
  - eapply seg_frame; [exact Hs|done|intros i Hi; by apply Hl|]. intros i Hi. by apply Hl, removelast_elem_of.
  - rewrite <- He. unfold end_of. destruct (last l) eqn:Hlast; [|done].
    apply Hl. by apply last_Some_elem_of.
Qed.

Section Links.
Context (nx : nat -> ploc) (a : ploc).
Context (Hinj : forall i j, nx i = nx j -> i = j) (Hna : forall i, nx i <> a).

(** The end of a list is not the next pointer of a slot outside it. *)
Lemma end_of_fresh l i : i ∉ l -> nx i <> end_of nx a l.
Proof using Hinj Hna.
  intros Hi. unfold end_of. destruct (last l) eqn:Hl; [|apply Hna].
  intros ->%Hinj. by apply last_Some_elem_of in Hl.
Qed.

Lemma end_of_not_start l : l <> [] -> end_of nx a l <> a.
Proof using Hna. intros Hl. unfold end_of. destruct (last l) eqn:E; [apply Hna|]. by apply last_None in E. Qed.

(** Writing at the end of a segment leaves it. *)
Lemma seg_store c pv l x :
  NoDup l -> seg c pv nx a l (end_of nx a l) ->
  seg (<[end_of nx a l := x]> c) pv nx a l (end_of nx a l).
Proof using Hinj Hna.
  intros Hnd Hs. eapply seg_frame; [exact Hs| |done|].
  - intros Hl. apply fn_lookup_insert_ne. by apply end_of_not_start.
  - intros i Hi. apply fn_lookup_insert_ne. intros Heq. symmetry in Heq. revert Heq.
    destruct l as [|j l _] using rev_ind; [by apply elem_of_nil in Hi|].
    rewrite removelast_last in Hi. unfold end_of. rewrite last_snoc. intros ->%Hinj.
    apply NoDup_app in Hnd as (_ & Hnd & _). apply (Hnd j Hi). left.
Qed.

(** Unlink an element. *)
Lemma linked_remove c pv l1 i l2 :
  NoDup (l1 ++ i :: l2) -> linked c pv nx a (l1 ++ i :: l2) ->
  pv i = Some (end_of nx a l1) /\
  let c' := <[end_of nx a l1 := c (nx i)]> c in
  c' (nx i) = c (nx i) /\
  let pv' := match c (nx i) with Some j => <[j := pv i]> pv | None => pv end in
  linked c' pv' nx a (l1 ++ l2) /\
  c (nx i) = head l2.
Proof using Hinj Hna.
  intros Hnd [Hs He]. apply seg_app in Hs as (m & Hs1 & Hm & Hpi & Hs2).
  pose proof (seg_end _ _ _ _ _ _ Hs1) as ->. apply NoDup_app in Hnd as (Hnd1 & Hd & Hnd2).
  apply NoDup_cons in Hnd2 as [Hi2 Hnd2].
  assert (Hi1 : i ∉ l1) by (intros Hi; apply (Hd i Hi); left).
  split; [done|]. intros c'. assert (Hc' : c' (nx i) = c (nx i)).
  { apply fn_lookup_insert_ne. apply not_eq_sym. by apply end_of_fresh. }
  split; [done|]. intros pv'. pose proof (seg_store c pv l1 (c (nx i)) Hnd1 Hs1) as Hs1'.
  destruct l2 as [|j l2].
  - simpl in Hs2. rewrite <- Hs2 in He. rewrite app_nil_r. unfold pv'. rewrite He. split; [|done].
    apply (linked_seg _ _ _ _ _ (end_of nx a l1)); [done|]. unfold c'. by rewrite fn_lookup_insert.
  - destruct Hs2 as (Hj & Hpj & Hs2). unfold pv'. rewrite Hj. split; [|done].
    assert (Hj1 : j ∉ l1) by (intros Hj1; apply (Hd j Hj1); by right; left).
    apply NoDup_cons in Hnd2 as [Hj2 Hnd2].
    apply (linked_seg _ _ _ _ _ (end_of nx a (l1 ++ i :: j :: l2))).
    + apply seg_app. exists (end_of nx a l1). split; [|split_and!].
      * eapply seg_frame; [exact Hs1'|done| |done]. intros k Hk. apply fn_lookup_insert_ne. by intros ->.
      * unfold c'. by rewrite fn_lookup_insert.
      * by rewrite fn_lookup_insert.
      * eapply seg_frame; [exact Hs2| | |].
        -- intros _. apply fn_lookup_insert_ne, not_eq_sym. by apply end_of_fresh.
        -- intros k Hk. apply fn_lookup_insert_ne. by intros ->.
        -- intros k Hk. apply fn_lookup_insert_ne, not_eq_sym, end_of_fresh. intros Hk1.
           apply (Hd k Hk1). right. right. by apply removelast_elem_of.
    + rewrite <- He. apply fn_lookup_insert_ne. unfold end_of at 2. rewrite last_app.
      destruct (last (i :: j :: l2)) as [z|] eqn:Hz; [|by apply last_None in Hz].
      apply not_eq_sym, end_of_fresh. intros Hz1. apply last_Some_elem_of in Hz. by apply (Hd z Hz1).
Qed.

(** Add an element at the end. *)
Lemma linked_snoc c pv l i :
  NoDup l -> i ∉ l -> linked c pv nx a l -> c (nx i) = None ->
  linked (<[end_of nx a l := Some i]> c) (<[i := Some (end_of nx a l)]> pv) nx a (l ++ [i]).
Proof using Hinj Hna.
  intros Hnd Hi [Hs He] Hc. apply (linked_seg _ _ _ _ _ (nx i)).
  - apply seg_app. exists (end_of nx a l). split.
    + eapply seg_frame; [apply (seg_store c pv l (Some i) Hnd Hs)|done| |done].
      intros k Hk. apply fn_lookup_insert_ne. by intros ->.
    + simpl. by rewrite !fn_lookup_insert.
  - rewrite fn_lookup_insert_ne; [done|]. apply not_eq_sym. by apply end_of_fresh.
Qed.

(** Add an element in front. *)
Lemma linked_cons c pv l i :
  NoDup l -> i ∉ l -> linked c pv nx a l ->
  let c1 := <[nx i := c a]> c in
  let pv1 := <[i := Some a]> pv in
  let pv2 := match c1 (nx i) with Some j => <[j := Some (nx i)]> pv1 | None => pv1 end in
  linked (<[a := Some i]> c1) pv2 nx a (i :: l).
Proof using Hinj Hna.
  intros Hnd Hi [Hs He] c1 pv1 pv2.
  assert (Hc1 : c1 (nx i) = c a) by apply fn_lookup_insert.
  assert (Hne : forall k, k ∈ l -> (<[a := Some i]> c1) (nx k) = c (nx k)).
  { intros k Hk. rewrite fn_lookup_insert_ne by apply not_eq_sym, Hna. apply fn_lookup_insert_ne.
    by intros ->%Hinj. }
  assert (Hnew : (<[a := Some i]> c1) (nx i) = c a).
  { rewrite fn_lookup_insert_ne by apply not_eq_sym, Hna. apply fn_lookup_insert. }
  destruct l as [|j l].
  - simpl in Hs. unfold end_of in He. simpl in He. unfold pv2, pv1. rewrite Hc1, He.
    apply (linked_seg _ _ _ _ _ (nx i)); [|by rewrite Hnew]. simpl.
    by rewrite fn_lookup_insert, fn_lookup_insert.
  - destruct Hs as (Hj & Hpj & Hs). unfold pv2, pv1. rewrite Hc1, Hj.
    apply not_elem_of_cons in Hi as [Hij Hil].
    apply (linked_seg _ _ _ _ _ (end_of nx a (j :: l))).
    + simpl. rewrite fn_lookup_insert, Hnew, fn_lookup_insert. split_and!; [done| |done|done|].
      * rewrite fn_lookup_insert_ne by done. apply fn_lookup_insert.
      * apply NoDup_cons in Hnd as [Hjl _]. eapply seg_frame; [exact Hs| | |].
        -- intros _. apply Hne. left.
        -- intros k Hk. rewrite fn_lookup_insert_ne by (by intros ->).
           apply fn_lookup_insert_ne. by intros ->.
        -- intros k Hk. apply Hne. right. by apply removelast_elem_of.
    + rewrite <- He. unfold end_of. destruct (last (j :: l)) eqn:Hz; [|by apply last_None in Hz].
      apply Hne. by apply last_Some_elem_of.
Qed.
End Links.

(** ** Representation *)

Definition without (i : nat) (l : list nat) : list nat := filter (fun j => j <> i) l.

Lemma without_id i l : i ∉ l -> without i l = l.
Proof.
  unfold without. induction l as [|j l IH]; intros Hi; [done|]. apply not_elem_of_cons in Hi as [Hij Hi].
  rewrite filter_cons_True, IH by done. done.
Qed.

Lemma without_app i l1 l2 : without i (l1 ++ l2) = without i l1 ++ without i l2.
Proof. apply filter_app. Qed.
Lemma without_cons i l : without i (i :: l) = without i l.
Proof. apply filter_cons_False. by intros []. Qed.

Lemma without_split i l1 l2 : NoDup (l1 ++ i :: l2) -> without i (l1 ++ i :: l2) = l1 ++ l2.
Proof.
  intros Hnd. apply NoDup_app in Hnd as (_ & Hd & Hnd2). apply NoDup_cons in Hnd2 as [Hi _].
  rewrite without_app, without_cons, !without_id; [done|done|]. intros Hi1. apply (Hd i Hi1). left.
Qed.

Lemma elem_of_without i j l : j ∈ without i l <-> j <> i /\ j ∈ l.
Proof. unfold without. by rewrite list_elem_of_filter. Qed.

Lemma NoDup_without i l : NoDup l -> NoDup (without i l).
Proof. apply NoDup_filter. Qed.

(** [st] represents the list of idle slots [idle] and the buckets [bk]; slots in
    [xs] may have a stale pointer into the hash map. *)
Record rep (xs : list nat) (st : pool) (idle : list nat) (bk : Z -> list nat) : Prop := {
  rep_idle : linked (cell st) (prev_ptr st) LNext LHead idle;
  rep_tail : idle_clients_tail_ptr st = Some (end_of LNext LHead idle);
  rep_nodup : NoDup idle;
  rep_bk : forall h, linked (cell st) (prev_by_call_ptr st) LNextByCall (LByCall h) (bk h);
  rep_bk_nodup : forall h, NoDup (bk h);
  rep_bk_disj : forall i h h', i ∈ bk h -> i ∈ bk h' -> h = h';
  rep_mapped : forall i, i ∉ xs -> is_Some (prev_by_call_ptr st i) -> exists h, i ∈ bk h;
}.

#[local] Instance LNext_inj : Inj (=) (=) LNext.
Proof. by intros i j [=]. Qed.

Lemma rep_remove xs st idle bk i :
  rep xs st idle bk -> i ∈ idle ->
  exists st', pool_remove st i = Some st' /\ rep xs st' (without i idle) bk /\
    forall k, k ∉ idle -> cell st' (LNext k) = cell st (LNext k).
Proof.
  intros [Hl Ht Hnd Hb Hbn Hbd Hu] Hi. apply list_elem_of_split in Hi as (l1 & l2 & ->).
  destruct (linked_remove LNext LHead ltac:(by intros ? ? [=]) ltac:(done) _ _ _ _ _ Hnd Hl)
    as (Hp & Hc & Hl' & Hlast).
  rewrite without_split by done. unfold pool_remove, store. rewrite Hp. cbn -[end_of].
  rewrite Hc, Hp in *. eexists. split; [done|].
  assert (Hfr : forall h, linked (<[end_of LNext LHead l1 := cell st (LNext i)]> (cell st))
                  (prev_by_call_ptr st) LNextByCall (LByCall h) (bk h)).
  { intros h. eapply linked_frame; [apply Hb| |intros j _; split; [done|]];
      apply fn_lookup_insert_ne; unfold end_of; by destruct (last l1). }
  assert (Hnd' : NoDup (l1 ++ l2)) by (rewrite <- (without_split i) by done; by apply NoDup_without).
  assert (Hk : forall k, k ∉ l1 ++ i :: l2 ->
    (<[end_of LNext LHead l1 := cell st (LNext i)]> (cell st)) (LNext k) = cell st (LNext k)).
  { intros k Hk. apply fn_lookup_insert_ne, not_eq_sym, end_of_fresh; [by intros ? ? [=]|done|].
    intros Hk1. apply Hk, elem_of_app. by left. }
  destruct (cell st (LNext i)) as [j|] eqn:Hj; simpl in *; (split; [split|]); simpl; try done.
  - rewrite Ht. f_equal. unfold end_of. rewrite !last_app, last_cons.
    destruct (last l2) eqn:E; [done|]. by apply last_None in E as ->.
  - destruct l2; [|done]. by rewrite app_nil_r.
Qed.

Definition bk_remove (i : nat) (bk : Z -> list nat) : Z -> list nat := fun h => without i (bk h).
Definition bk_add (i : nat) (h : Z) (bk : Z -> list nat) : Z -> list nat := <[h := i :: bk h]> bk.

Lemma rep_map_remove st idle bk i :
  rep [] st idle bk -> rep [i] (map_remove st i) idle (bk_remove i bk) /\
    forall k, cell (map_remove st i) (LNext k) = cell st (LNext k).
Proof.
  intros [Hl Ht Hnd Hb Hbn Hbd Hu]. unfold map_remove.
  assert (Hbd' : forall j h h', j ∈ bk_remove i bk h -> j ∈ bk_remove i bk h' -> h = h').
  { intros j h h' [_ H1]%elem_of_without [_ H2]%elem_of_without. by eapply Hbd. }
  assert (Hbn' : forall h, NoDup (bk_remove i bk h)) by (intros; apply NoDup_without, Hbn).
  assert (Hkeep : forall j h, j ∉ [i] -> j ∈ bk h -> j ∈ bk_remove i bk h).
  { intros j h Hj Hin. apply elem_of_without. split; [|done]. intros ->. apply Hj. left. }
  destruct (prev_by_call_ptr st i) as [l|] eqn:Hp.
  2: { assert (Hout : forall h, i ∉ bk h).
    { intros h Hi. apply list_elem_of_split in Hi as (l1 & l2 & E). pose proof (Hb h) as Hb'. rewrite E in Hb'.
      destruct Hb' as [Hs _]. apply seg_app in Hs as (m & _ & _ & Hp' & _). congruence. }
    assert (Hsame : forall h, bk_remove i bk h = bk h) by (intros h; by apply without_id).
    split; [|done]. split; try done; [intros h; by rewrite Hsame|].
    intros j Hj Hs. destruct (Hu j (not_elem_of_nil _) Hs) as [h Hh]. exists h. auto. }
  destruct (Hu i (not_elem_of_nil _) ltac:(by rewrite Hp)) as [h Hih].
  pose proof (Hb h) as Hbh. pose proof (Hbn h) as Hbnh.
  pose proof Hih as Hsplit. apply list_elem_of_split in Hsplit as (l1 & l2 & E). rewrite E in Hbh, Hbnh.
  destruct (linked_remove LNextByCall (LByCall h) ltac:(by intros ? ? [=]) ltac:(done) _ _ _ _ _ Hbnh Hbh)
    as (Hp' & Hc & Hl' & Hhd).
  rewrite Hp in Hp'. injection Hp' as ->. cbn -[end_of]. rewrite Hc, Hp in *.
  set (c' := <[_ := _]> (cell st)) in *. set (pv' := match cell st _ with Some _ => _ | None => _ end) in Hl'.
  match goal with |- rep _ ?s _ _ /\ _ => replace s with (mkPool c' (prev_ptr st) pv' (idle_clients_tail_ptr st)) end.
  2: { unfold pv'. by destruct (cell st (LNextByCall i)). }
  assert (Hend : end_of LNextByCall (LByCall h) l1 = LByCall h \/
                 exists k, k ∈ bk h /\ end_of LNextByCall (LByCall h) l1 = LNextByCall k).
  { unfold end_of. destruct (last l1) as [k|] eqn:Hk; [right|by left]. exists k. split; [|done].
    rewrite E. apply elem_of_app. left. by apply last_Some_elem_of. }
  assert (Hpv : forall k, k ∉ bk h -> pv' k = prev_by_call_ptr st k).
  { intros k Hk. unfold pv'. rewrite Hhd. destruct l2 as [|j l2]; [done|]. apply fn_lookup_insert_ne.
    intros ->. apply Hk. rewrite E. apply elem_of_app. right. right. left. }
  assert (Hcn : forall k, c' (LNext k) = cell st (LNext k)).
  { intros k. apply fn_lookup_insert_ne. destruct Hend as [->|(? & _ & ->)]; done. }
  split; [|done].
  split; simpl; try done.
  - eapply linked_frame; [exact Hl| |done]. apply fn_lookup_insert_ne. destruct Hend as [->|(? & _ & ->)]; done.
  - intros h'. destruct (decide (h' = h)) as [->|Hne].
    { unfold bk_remove. rewrite E, without_split by done. done. }
    assert (Hm : forall k, k ∈ bk h' -> k ∉ bk h) by (intros k Hk Hk'; eauto).
    unfold bk_remove. rewrite without_id by (intros Hi'; by eapply Hm).
    eapply linked_frame; [apply Hb| |].
    + apply fn_lookup_insert_ne. destruct Hend as [->|(? & _ & ->)]; congruence.
    + intros k Hk. split; [by apply Hpv, Hm|]. apply fn_lookup_insert_ne.
      destruct Hend as [->|(k' & Hk' & ->)]; [done|]. intros [= ->]. by eapply Hm.
  - intros j Hj Hs. destruct (decide (j ∈ bk h)); [by exists h; apply Hkeep|].
    rewrite Hpv in Hs by done. destruct (Hu j (not_elem_of_nil _) Hs) as [h2 Hh2]. exists h2. auto.
Qed.

Lemma rep_map_add st idle bk i h :
  rep [i] st idle bk -> (forall h, i ∉ bk h) -> rep [] (map_add st i h) idle (bk_add i h bk).
Proof.
  intros [Hl Ht Hnd Hb Hbn Hbd Hu] Hout.
  pose proof (linked_cons LNextByCall (LByCall h) ltac:(by intros ? ? [=]) ltac:(done) _ _ _ i (Hbn h) (Hout h) (Hb h)) as Hc.
  cbv zeta in Hc. rewrite fn_lookup_insert in Hc.
  set (c1 := <[LNextByCall i := cell st (LByCall h)]> (cell st)) in *.
  set (pv1 := <[i := Some (LByCall h)]> (prev_by_call_ptr st)) in *.
  set (pv2 := match cell st (LByCall h) with Some _ => _ | None => _ end) in Hc.
  replace (map_add st i h) with (mkPool (<[LByCall h := Some i]> c1) (prev_ptr st) pv2 (idle_clients_tail_ptr st)).
  2: { unfold map_add, pv2. cbn. rewrite fn_lookup_insert. by destruct (cell st (LByCall h)). }
  assert (Hother : forall l, l <> LByCall h -> l <> LNextByCall i -> (<[LByCall h := Some i]> c1) l = cell st l).
  { intros l H1 H2. rewrite !fn_lookup_insert_ne by done. unfold c1. by apply fn_lookup_insert_ne. }
  assert (Hpv : forall k, k <> i -> k ∉ bk h -> pv2 k = prev_by_call_ptr st k).
  { intros k Hk Hkb. assert (H1 : pv1 k = prev_by_call_ptr st k) by (by apply fn_lookup_insert_ne).
    unfold pv2. destruct (cell st (LByCall h)) as [j|] eqn:Hj; [|done].
    rewrite fn_lookup_insert_ne; [done|]. intros ->. apply Hkb.
    destruct (Hb h) as [Hs He]. destruct (bk h) as [|z l]; [simpl in *; unfold end_of in He; simpl in He; congruence|].
    destruct Hs as [Hs _]. rewrite Hs in Hj. injection Hj as ->. left. }
  split; simpl; try done.
  - eapply linked_frame; [exact Hl|by apply Hother|]. intros k _. split; [done|by apply Hother].
  - intros h'. unfold bk_add. destruct (decide (h' = h)) as [->|Hne].
    { by rewrite fn_lookup_insert. }
    rewrite fn_lookup_insert_ne by done. eapply linked_frame; [apply Hb|apply Hother; congruence|].
    intros k Hk. assert (k <> i) by (intros ->; by eapply Hout). split; [|apply Hother; congruence].
    apply Hpv; [done|]. intros Hk'. by eapply Hne, Hbd.
  - intros h'. unfold bk_add. destruct (decide (h' = h)) as [->|Hne].
    + rewrite fn_lookup_insert. by apply NoDup_cons.
    + by rewrite fn_lookup_insert_ne.
  - assert (Hin : forall j h', j ∈ bk_add i h bk h' -> j = i /\ h' = h \/ j ∈ bk h').
    { intros j h'. unfold bk_add. destruct (decide (h' = h)) as [->|Hne].
      - rewrite fn_lookup_insert. intros [->|?]%elem_of_cons; auto.
      - rewrite fn_lookup_insert_ne by done. auto. }
    intros j h1 h2 [[-> ->]|H1]%Hin [[? ->]|H2]%Hin; subst; try done; try (by exfalso; eapply Hout). eauto.
  - intros j _ Hs. destruct (decide (j = i)) as [->|Hji].
    { exists h. unfold bk_add. rewrite fn_lookup_insert. left. }
    destruct (decide (j ∈ bk h)).
    { exists h. unfold bk_add. rewrite fn_lookup_insert. by right. }
    rewrite Hpv in Hs by done. destruct (Hu j) as [h2 Hh2]; [|done|].
    { intros Hj%list_elem_of_singleton. done. }
    exists h2. unfold bk_add. rewrite fn_lookup_insert_ne; [done|]. by intros ->.
Qed.

Lemma map_add_next st i h k : cell (map_add st i h) (LNext k) = cell st (LNext k).
Proof.
  unfold map_add. cbn. rewrite fn_lookup_insert. destruct (cell st (LByCall h)); simpl;
    by rewrite !fn_lookup_insert_ne.
Qed.

Lemma rep_take st idle bk i h :
  rep [] st idle bk -> i ∈ idle ->
  exists st', pool_take st i h = Some st' /\
    rep [] st' (without i idle) (bk_add i h (bk_remove i bk)) /\
    forall k, k ∉ idle -> cell st' (LNext k) = cell st (LNext k).
Proof.
  intros Hr Hi. unfold pool_take. destruct (rep_remove _ _ _ _ _ Hr Hi) as (st1 & -> & Hr1 & Hk1).
  destruct (rep_map_remove _ _ _ i Hr1) as [Hr2 Hk2].
  eexists. split; [done|]. split.
  - apply rep_map_add; [done|]. intros h' [? _]%elem_of_without. done.
  - intros k Hk. by rewrite map_add_next, Hk2, Hk1.
Qed.

Lemma rep_clear xs st idle bk i :
  rep xs st idle bk -> i ∉ idle -> rep xs (clear_next st i) idle bk.
Proof.
  intros [Hl Ht Hnd Hb Hbn Hbd Hu] Hi. split; simpl; try done.
  - eapply linked_frame; [exact Hl|by apply fn_lookup_insert_ne|]. intros k Hk. split; [done|].
    apply fn_lookup_insert_ne. congruence.
  - intros h. eapply linked_frame; [apply Hb|by apply fn_lookup_insert_ne|]. intros k Hk. split; [done|].
    by apply fn_lookup_insert_ne.
Qed.

Lemma rep_return xs st idle bk i :
  rep xs st idle bk -> i ∉ idle -> cell st (LNext i) = None ->
  exists st', pool_return st i = Some st' /\ rep xs st' (idle ++ [i]) bk /\
    forall k, k ∉ idle -> cell st' (LNext k) = cell st (LNext k).
Proof.
  intros [Hl Ht Hnd Hb Hbn Hbd Hu] Hi Hn. unfold pool_return, store. simpl. rewrite Ht.
  eexists. split; [done|]. split.
  2: { intros k Hk. apply fn_lookup_insert_ne, not_eq_sym, end_of_fresh; [by intros ? ? [=]|done|done]. }
  split; simpl; try done.
  - apply linked_snoc; try done. by intros ? ? [=].
  - unfold end_of. by rewrite last_snoc.
  - apply NoDup_app. split_and!; [done| |apply NoDup_singleton].
    by intros j Hj ->%list_elem_of_singleton.
  - intros h. eapply linked_frame; [apply Hb| |intros k Hk; split; [done|]];
      apply fn_lookup_insert_ne; unfold end_of; by destruct (last idle).
Qed.

(** Equality of pools, pointwise. *)
#[export] Instance pool_equiv : Equiv pool := fun st st' =>
  (forall l, cell st l = cell st' l) /\ (forall i, prev_ptr st i = prev_ptr st' i) /\
  (forall i, prev_by_call_ptr st i = prev_by_call_ptr st' i) /\
  idle_clients_tail_ptr st = idle_clients_tail_ptr st'.

#[export] Instance rep_proper xs : Proper ((≡) ==> (=) ==> (=) ==> impl) (rep xs).
Proof.
  intros st st' (Hc & Hp & Hq & Ht) idle _ <- bk _ <- [H1 H2 H3 H4 H5 H6 H7]. split; try done.
  - eapply linked_frame; [exact H1|by rewrite Hc|]. intros i _. by rewrite Hp, Hc.
  - by rewrite <- Ht.
  - intros h. eapply linked_frame; [apply H4|by rewrite Hc|]. intros i _. by rewrite Hq, Hc.
  - intros i. rewrite <- Hq. apply H7.
Qed.

(** The list [proxy_open] builds. *)
Lemma rep_link n i st :
  (0 < i)%nat -> rep [] (set_tail st (Some (LNext (i - 1)))) (seq 0 i) (fun _ => []) ->
  (forall j, (i <= j)%nat -> cell st (LNext j) = None) -> (forall j, cell st (LNextByCall j) = None) ->
  rep [] (set_tail (link_clients n i st) (Some (LNext (i + n - 1)))) (seq 0 (i + n)) (fun _ => []).
Proof.
  revert i st. induction n as [|n IH]; intros i st Hi Hr Hn Hc; cbn [link_clients].
  { by rewrite Nat.add_0_r. }
  replace (i + S n)%nat with (S i + n)%nat by lia. apply IH; [lia| | |].
  - destruct (rep_return _ _ _ _ i Hr) as (st' & Hst' & Hr' & _).
    { rewrite elem_of_seq. lia. }
    { simpl. apply Hn. lia. }
    rewrite seq_S. simpl. revert Hr'. unfold pool_return in Hst'. simpl in Hst'. injection Hst' as <-.
    apply rep_proper; [|done|done]. split_and!; simpl; [|done| |by rewrite Nat.sub_0_r].
    + intros l. destruct (decide (l = LNext (i - 1))) as [->|Hl]; [by rewrite !fn_lookup_insert|].
      rewrite !(fn_lookup_insert_ne _ (LNext (i - 1))) by done.
      destruct (decide (l = LNextByCall i)) as [->|Hl']; [by rewrite fn_lookup_insert, Hc|].
      by rewrite fn_lookup_insert_ne.
    + intros j. destruct (decide (j = i)) as [->|Hj]; [|by rewrite fn_lookup_insert_ne].
      rewrite fn_lookup_insert. destruct (prev_by_call_ptr st i) eqn:E; [|done].
      destruct (rep_mapped _ _ _ _ Hr i (not_elem_of_nil _)) as [h Hh]; [by eexists|]. by apply not_elem_of_nil in Hh.
  - intros j Hj. simpl. rewrite !fn_lookup_insert_ne by (try done; intros [=]; lia). apply Hn. lia.
  - intros j. simpl. rewrite fn_lookup_insert_ne by done.
    destruct (decide (j = i)) as [->|Hj]; [apply fn_lookup_insert|].
    rewrite fn_lookup_insert_ne by congruence. apply Hc.
Qed.

Lemma rep_open n : (0 < n)%nat -> rep [] (pool_open n) (seq 0 n) (fun _ => []).
Proof.
  intros Hn. unfold pool_open. set (st := set_cell (set_prev pool_zero 0 (Some LHead)) LHead (Some 0%nat)).
  assert (Hr : rep [] (set_tail (link_clients (n - 1) 1 st) (Some (LNext (1 + (n - 1) - 1))))
                 (seq 0 (1 + (n - 1))) (fun _ => [])).
  { apply rep_link; [lia| |done|done]. split; simpl; try done.
    - apply NoDup_singleton.
    - intros _. apply NoDup_nil_2.
    - by intros ? ? ? ?%not_elem_of_nil.
    - by intros i _ [? ?]. }
  replace (1 + (n - 1))%nat with n in Hr by lia.
  assert (Hend : cell (link_clients (n - 1) 1 st) (LNext (n - 1)) = None).
  { pose proof (rep_tail _ _ _ _ Hr) as Ht. pose proof (rep_idle _ _ _ _ Hr) as [_ He]. simpl in *. congruence. }
  revert Hr. apply rep_proper; [|done|done]. split_and!; simpl; try done. intros l.
  destruct (decide (l = LNext (n - 1))) as [->|Hl]; [by rewrite fn_lookup_insert|by rewrite fn_lookup_insert_ne].
Qed.

(** ** Workers and slots *)

(** What the pool sees of a slot: whether it has a client, and its last
    callsign. *)
Record sslot : Type := mkSlot { busy : bool; last_call : list Z }.

Definition can_claim (s : sslot) (call : list Z) (reconnect_only : bool) : bool :=
  negb (busy s) && (negb reconnect_only || bool_decide (last_call s = call)).

(** What [proxy_conn_accept] promises: the slot before and after, and the value
    returned. *)
Inductive accept (call : list Z) (reconnect_only : bool) : sslot -> sslot -> Z -> Prop :=
| A_busy s : can_claim s call reconnect_only = false -> accept call reconnect_only s s (- EBUSY)
| A_ok s : can_claim s call reconnect_only = true ->
    accept call reconnect_only s (mkSlot true (take 11 call)) 0
| A_fail s r : can_claim s call reconnect_only = true -> r < 0 ->
    accept call reconnect_only s (mkSlot false (take 11 call)) r.

Definition slot_view (p : pc_priv) : sslot :=
  mkSlot (bool_decide (is_Some (conn_client p))) (callsign p).

Definition hash_of (call : list Z) : Z := pearson_get call (length call).

Section Search.
Context (st : pool) (call : list Z).

(** The search for a reconnection along a bucket, from [pc] on: the slots
    afterwards, [ret] and [pc] when the loop ends. *)
Inductive search : option nat -> (nat -> sslot) -> (nat -> sslot) -> Z -> option nat -> Prop :=
| S_end sl ret : search None sl sl ret None
| S_stop pc sl s ret : accept call true (sl pc) s ret -> ret <> - EBUSY ->
    search (Some pc) sl (<[pc := s]> sl) ret (Some pc)
| S_next pc sl s sl' ret res : accept call true (sl pc) s (- EBUSY) ->
    search (cell st (LNextByCall pc)) (<[pc := s]> sl) sl' ret res ->
    search (Some pc) sl sl' ret res.

(** The critical section of [proxy_worker_func] that picks a slot: the slot, if
    the worker gets one. *)
Inductive acquire (sl : nat -> sslot) : pool -> (nat -> sslot) -> option nat -> Prop :=
| Q_empty : cell st LHead = None -> acquire sl st sl None
| Q_reconnect hd sl' ret pc st' : cell st LHead = Some hd ->
    search (cell st (LByCall (hash_of call))) sl sl' ret (Some pc) -> 0 <= ret ->
    pool_take st pc (hash_of call) = Some st' -> acquire sl st' sl' (Some pc)
| Q_reconnect_fails hd sl' ret pc : cell st LHead = Some hd ->
    search (cell st (LByCall (hash_of call))) sl sl' ret (Some pc) -> ret < 0 ->
    acquire sl st sl' None
| Q_oldest hd sl' s r0 ret st' : cell st LHead = Some hd ->
    search (cell st (LByCall (hash_of call))) sl sl' r0 None ->
    accept call false (sl' hd) s ret -> 0 <= ret ->
    pool_take st hd (hash_of call) = Some st' -> acquire sl st' (<[hd := s]> sl') (Some hd)
| Q_oldest_fails hd sl' s r0 ret : cell st LHead = Some hd ->
    search (cell st (LByCall (hash_of call))) sl sl' r0 None ->
    accept call false (sl' hd) s ret -> ret < 0 ->
    acquire sl st (<[hd := s]> sl') None.
End Search.

(** Where a worker is in [proxy_worker_func]. *)
Inductive wk : Type :=
| Ready                     (* no slot *)
| Session (pc : nat)        (* processing the messages of a session *)
| Finished (pc : nat)       (* after proxy_conn_finish *)
| Cleared (pc : nat).       (* after pc->next = NULL *)

Definition owned (w : wk) : option nat :=
  match w with Ready => None | Session pc | Finished pc | Cleared pc => Some pc end.

Record psys : Type := mkSys { lists : pool; slots : nat -> sslot; workers : list wk }.

(** A step of worker [w].  With [window = false] no worker gets a slot that
    another one has finished with but not yet returned. *)
Inductive pstep (window : bool) (w : nat) : psys -> psys -> Prop :=
| P_acquire call st sl ws st' sl' res :
    ws !! w = Some Ready -> acquire st call sl st' sl' res ->
    (window = false -> forall pc, res = Some pc -> pc ∉ omap owned ws) ->
    pstep window w (mkSys st sl ws)
      (mkSys st' sl' (<[w := match res with Some pc => Session pc | None => Ready end]> ws))
| P_finish pc st sl ws :
    ws !! w = Some (Session pc) ->
    pstep window w (mkSys st sl ws)
      (mkSys st (<[pc := mkSlot false (last_call (sl pc))]> sl) (<[w := Finished pc]> ws))
| P_clear pc st sl ws :
    ws !! w = Some (Finished pc) ->
    pstep window w (mkSys st sl ws) (mkSys (clear_next st pc) sl (<[w := Cleared pc]> ws))
| P_return pc st sl ws st' :
    ws !! w = Some (Cleared pc) -> pool_return st pc = Some st' ->
    pstep window w (mkSys st sl ws) (mkSys st' sl (<[w := Ready]> ws)).

Definition psteps (window : bool) : psys -> psys -> Prop := rtc (fun a b => exists w, pstep window w a b).

(** After [proxy_open] with [n] slots and as many workers. *)
Definition pinit (n : nat) : psys :=
  mkSys (pool_open n) (fun _ => mkSlot false []) (replicate n Ready).

(** ** Invariant of the interleavings *)

(** A claim changes whether a slot is busy only when it succeeds. *)
Lemma accept_busy call ro s s' r :
  accept call ro s s' r -> (r < 0 /\ busy s' = busy s) \/ (r = 0 /\ busy s = false /\ busy s' = true).
Proof.
  unfold EBUSY. intros [s0 H|s0 H|s0 r0 H Hr]; unfold can_claim in H; simpl;
    [left; by split|right|left]; by destruct (busy s0).
Qed.

Lemma search_busy st call cur sl sl' ret res :
  search st call cur sl sl' ret res ->
  (forall j, ~ (res = Some j /\ 0 <= ret) -> busy (sl' j) = busy (sl j)) /\
  (forall j, res = Some j -> 0 <= ret -> busy (sl j) = false /\ busy (sl' j) = true).
Proof.
  induction 1 as [sl ret|pc sl s ret Ha Hr|pc sl s sl' ret res Ha _ [IH1 IH2]]; [done| |].
  - apply accept_busy in Ha. split.
    + intros j Hj. destruct (decide (j = pc)) as [->|Hne]; [|by rewrite fn_lookup_insert_ne].
      rewrite fn_lookup_insert. destruct Ha as [[_ ?]|[-> _]]; [done|]. by destruct Hj.
    + intros j [= <-] H0. rewrite fn_lookup_insert. destruct Ha as [[? _]|[_ ?]]; [lia|done].
  - assert (Hsame : forall j, busy ((<[pc := s]> sl) j) = busy (sl j)).
    { intros j. destruct (decide (j = pc)) as [->|Hne]; [|by rewrite fn_lookup_insert_ne].
      rewrite fn_lookup_insert. apply accept_busy in Ha as [[_ ?]|[? _]]; [done|]. unfold EBUSY in *. lia. }
    split; intros j; rewrite <- Hsame; auto.
Qed.

(** The search stays in its bucket. *)
Lemma search_bucket st pv call cur sl sl' ret res pc :
  search st call cur sl sl' ret res -> res = Some pc -> forall a l b,
  cur = cell st a -> seg (cell st) pv LNextByCall a l b -> cell st b = None -> pc ∈ l.
Proof.
  induction 1 as [sl ret|pc' sl s ret Ha Hr|pc' sl s sl' ret res Ha _ IH]; intros Hres a l b Hcur Hs Hb; [done| |];
    (destruct l as [|i l]; simpl in Hs; [congruence|]; destruct Hs as (Hi & _ & Hs)).
  - assert (pc = i) as -> by congruence. left.
  - assert (pc' = i) as -> by congruence. right. by eapply IH.
Qed.

(** What a worker gets: nothing changes hands, or a free slot that is in its
    callsign's bucket or at the head of the pool becomes busy. *)
Lemma acquire_cases st call sl st' sl' res idle bk :
  rep [] st idle bk -> acquire st call sl st' sl' res ->
  (res = None /\ st' = st /\ forall j, busy (sl' j) = busy (sl j)) \/
  exists pc, res = Some pc /\ pool_take st pc (hash_of call) = Some st' /\
    (pc ∈ idle \/ exists h, pc ∈ bk h) /\
    busy (sl pc) = false /\ busy (sl' pc) = true /\ forall j, j <> pc -> busy (sl' j) = busy (sl j).
Proof.
  intros Hr. pose proof (rep_bk _ _ _ _ Hr (hash_of call)) as [Hseg Hend].
  assert (Hhd : forall hd, cell st LHead = Some hd -> hd ∈ idle).
  { intros hd Hhd. pose proof (rep_idle _ _ _ _ Hr) as [Hi He]. destruct idle as [|i l].
    - unfold end_of in He. simpl in He. congruence.
    - destruct Hi as [Hi _]. assert (hd = i) as -> by congruence. left. }
  intros [Hn|hd s1 ret pc st1 H1 Hs H0 Ht|hd s1 ret pc H1 Hs H0
         |hd s1 s r0 ret st1 H1 Hs Ha H0 Ht|hd s1 s r0 ret H1 Hs Ha H0]; [by left| | | |];
    pose proof (search_busy _ _ _ _ _ _ _ Hs) as [Hsame Hgot].
  - right. exists pc. destruct (Hgot pc eq_refl H0). split_and!; try done.
    + right. exists (hash_of call). by eapply search_bucket.
    + intros j Hj. apply Hsame. intros [[= ->] _]. done.
  - left. split_and!; [done|done|]. intros j. apply Hsame. intros [_ ?]. lia.
  - right. exists hd. apply accept_busy in Ha as [[? _]|(-> & Hf & Htr)]; [lia|].
    assert (Hall : forall j, busy (s1 j) = busy (sl j)) by (intros j; apply Hsame; by intros [? _]).
    split_and!; [done|done|left; auto|by rewrite <- Hall|by rewrite fn_lookup_insert|].
    intros j Hj. by rewrite fn_lookup_insert_ne.
  - left. split_and!; [done|done|]. intros j.
    assert (Hall : busy (s1 j) = busy (sl j)) by (apply Hsame; by intros [? _]).
    destruct (decide (j = hd)) as [->|Hj]; [|by rewrite fn_lookup_insert_ne].
    rewrite fn_lookup_insert. apply accept_busy in Ha as [[_ ?]|[? _]]; [congruence|lia].
Qed.

(** Slots held by the workers. *)
Abbreviation held_slots ws := (omap owned ws).

Lemma lookup_middle {A} (l : list A) i x y :
  l !! i = Some x -> exists l1 l2, l = l1 ++ x :: l2 /\ <[i := y]> l = l1 ++ y :: l2.
Proof.
  intros Hi. apply list_elem_of_split_length in Hi as (l1 & l2 & -> & ->). exists l1, l2. split; [done|].
  by rewrite insert_app_r_alt, Nat.sub_diag.
Qed.

Lemma held_insert ws w x y :
  ws !! w = Some x ->
  option_list (owned x) ++ held_slots (<[w := y]> ws) ≡ₚ option_list (owned y) ++ held_slots ws.
Proof.
  intros Hx. destruct (lookup_middle ws w x y Hx) as (l1 & l2 & -> & ->). rewrite !omap_app.
  destruct (owned x) eqn:Ex, (owned y) eqn:Ey; simpl; rewrite ?Ex, ?Ey; solve_Permutation.
Qed.

Lemma held_unique ws w w' x y i :
  NoDup (held_slots ws) -> ws !! w = Some x -> ws !! w' = Some y -> owned x = Some i -> owned y = Some i -> w = w'.
Proof.
  revert w w'. induction ws as [|z ws IH]; intros w w' Hnd Hx Hy Ox Oy; [done|].
  assert (Hin : forall v u, ws !! v = Some u -> owned u = Some i -> i ∈ held_slots ws).
  { intros v u Hv Hu. apply list_elem_of_omap. exists u. split; [by eapply list_elem_of_lookup_2|done]. }
  simpl in Hnd. destruct w as [|w], w' as [|w']; simpl in *; try done.
  - injection Hx as ->. rewrite Ox in Hnd. apply NoDup_cons in Hnd as [Hn _]. by destruct Hn; eapply Hin.
  - injection Hy as ->. rewrite Oy in Hnd. apply NoDup_cons in Hnd as [Hn _]. by destruct Hn; eapply Hin.
  - f_equal. eapply IH; try done. destruct (owned z); [by apply NoDup_cons in Hnd as [_ ?]|done].
Qed.

(** Every slot is idle or held by one worker; idle slots are free, a slot in
    session is busy, one on its way back is free. *)
Record pinv (n : nat) (s : psys) (idle : list nat) (bk : Z -> list nat) : Prop := {
  pinv_rep : rep [] (lists s) idle bk;
  pinv_perm : idle ++ held_slots (workers s) ≡ₚ seq 0 n;
  pinv_bk : forall h i, i ∈ bk h -> (i < n)%nat;
  pinv_idle : forall i, i ∈ idle -> busy (slots s i) = false;
  pinv_session : forall w i, workers s !! w = Some (Session i) -> busy (slots s i) = true;
  pinv_back : forall w i, workers s !! w = Some (Finished i) \/ workers s !! w = Some (Cleared i) ->
    busy (slots s i) = false;
  pinv_cleared : forall w i, workers s !! w = Some (Cleared i) -> cell (lists s) (LNext i) = None;
}.

Lemma pinv_nodup n s idle bk : pinv n s idle bk -> NoDup (idle ++ held_slots (workers s)).
Proof. intros H. rewrite (pinv_perm _ _ _ _ H). apply NoDup_seq. Qed.

Lemma held_in (ws : list wk) w x i : ws !! w = Some x -> owned x = Some i -> i ∈ held_slots ws.
Proof. intros Hw Ho. apply list_elem_of_omap. exists x. split; [by eapply list_elem_of_lookup_2|done]. Qed.

(** A held slot is not idle, and no other worker holds it. *)
Lemma pinv_held n s idle bk w x i :
  pinv n s idle bk -> workers s !! w = Some x -> owned x = Some i ->
  (i ∉ idle) /\ forall w' y, workers s !! w' = Some y -> owned y = Some i -> w' = w.
Proof.
  intros Hp Hw Ho. pose proof (pinv_nodup _ _ _ _ Hp) as Hnd. apply NoDup_app in Hnd as (_ & Hd & Hn). split.
  - intros Hi. by eapply Hd, held_in.
  - intros w' y Hw' Hy. by eapply held_unique.
Qed.

(** What the entries of an updated list of workers are. *)
Lemma insert_cases (ws : list wk) w y w' z :
  <[w := y]> ws !! w' = Some z -> (w' = w /\ z = y) \/ (w' <> w /\ ws !! w' = Some z).
Proof. rewrite list_lookup_insert_Some. naive_solver. Qed.

Lemma pinv_finish n st sl ws idle bk w pc :
  pinv n (mkSys st sl ws) idle bk -> ws !! w = Some (Session pc) ->
  pinv n (mkSys st (<[pc := mkSlot false (last_call (sl pc))]> sl) (<[w := Finished pc]> ws)) idle bk.
Proof.
  intros Hp Hw. destruct (pinv_held _ _ _ _ w (Session pc) pc Hp Hw eq_refl) as [Hni Huniq].
  pose proof Hp as [Hr Hperm Hbk Hidle Hse Hback Hcl]. simpl in *.
  assert (Hoth : forall w' z i, w' <> w -> ws !! w' = Some z -> owned z = Some i ->
    (<[pc := mkSlot false (last_call (sl pc))]> sl) i = sl i).
  { intros w' z i Hne Hz Ho. apply fn_lookup_insert_ne. intros ->. by destruct Hne; eapply Huniq. }
  split; simpl; try done.
  - pose proof (held_insert ws w (Session pc) (Finished pc) Hw) as Hi. simpl in Hi.
    apply (Permutation.Permutation_cons_inv) in Hi. by rewrite Hi.
  - intros i Hi. rewrite fn_lookup_insert_ne by congruence. auto.
  - intros w' i [[_ [=]]|[Hne Hz]]%insert_cases. erewrite Hoth by done. by eapply Hse.
  - intros w' i [[[_ [= ->]]|[Hne Hz]]%insert_cases|[[_ [=]]|[Hne Hz]]%insert_cases].
    + by rewrite fn_lookup_insert.
    + erewrite Hoth by done. eauto.
    + erewrite Hoth by done. eauto.
  - intros w' i [[_ [=]]|[_ Hz]]%insert_cases. eauto.
Qed.

Lemma pinv_clear n st sl ws idle bk w pc :
  pinv n (mkSys st sl ws) idle bk -> ws !! w = Some (Finished pc) ->
  pinv n (mkSys (clear_next st pc) sl (<[w := Cleared pc]> ws)) idle bk.
Proof.
  intros Hp Hw. destruct (pinv_held _ _ _ _ w (Finished pc) pc Hp Hw eq_refl) as [Hni Huniq].
  pose proof Hp as [Hr Hperm Hbk Hidle Hse Hback Hcl]. simpl in *. split; simpl; try done.
  - by apply rep_clear.
  - pose proof (held_insert ws w (Finished pc) (Cleared pc) Hw) as Hi. simpl in Hi.
    apply (Permutation.Permutation_cons_inv) in Hi. by rewrite Hi.
  - intros w' i [[_ [=]]|[_ Hz]]%insert_cases. eauto.
  - intros w' i [[[_ [=]]|[_ Hz]]%insert_cases|[[_ [= ->]]|[_ Hz]]%insert_cases]; eauto.
  - intros w' i [[_ [= ->]]|[_ Hz]]%insert_cases; [apply fn_lookup_insert|].
    destruct (decide (i = pc)) as [->|Hne]; [apply fn_lookup_insert|].
    rewrite fn_lookup_insert_ne by congruence. eauto.
Qed.

Lemma pinv_return n st sl ws idle bk w pc st' :
  pinv n (mkSys st sl ws) idle bk -> ws !! w = Some (Cleared pc) -> pool_return st pc = Some st' ->
  pinv n (mkSys st' sl (<[w := Ready]> ws)) (idle ++ [pc]) bk.
Proof.
  intros Hp Hw Hret. destruct (pinv_held _ _ _ _ w (Cleared pc) pc Hp Hw eq_refl) as [Hni Huniq].
  pose proof Hp as [Hr Hperm Hbk Hidle Hse Hback Hcl]. simpl in *.
  destruct (rep_return _ _ _ _ pc Hr Hni (Hcl w pc Hw)) as (st1 & E & Hr1 & Hk).
  rewrite Hret in E. injection E as <-. split; simpl; try done.
  - pose proof (held_insert ws w (Cleared pc) Ready Hw) as Hi. simpl in Hi.
    rewrite <- app_assoc. simpl. by rewrite Hi.
  - intros i [Hi| ->%list_elem_of_singleton]%elem_of_app; eauto.
  - intros w' i [[_ [=]]|[_ Hz]]%insert_cases. eauto.
  - intros w' i [[[_ [=]]|[_ Hz]]%insert_cases|[[_ [=]]|[_ Hz]]%insert_cases]; eauto.
  - intros w' i [[_ [=]]|[_ Hz]]%insert_cases. rewrite Hk; [eauto|].
    by apply (pinv_held _ _ _ _ w' (Cleared i) i Hp Hz eq_refl).
Qed.

Lemma pinv_acquire n st sl ws idle bk w call st' sl' res :
  pinv n (mkSys st sl ws) idle bk -> ws !! w = Some Ready -> acquire st call sl st' sl' res ->
  (forall pc, res = Some pc -> pc ∉ held_slots ws) ->
  exists idle' bk', pinv n (mkSys st' sl' (<[w := match res with Some pc => Session pc | None => Ready end]> ws)) idle' bk'.
Proof.
  intros Hp Hw Hq Hwin. pose proof Hp as [Hr Hperm Hbk Hidle Hse Hback Hcl]. simpl in *.
  destruct (acquire_cases _ _ _ _ _ _ _ _ Hr Hq) as [(-> & -> & Hb)|(pc & -> & Ht & Hin & Hfree & Hbusy & Hoth)].
  { rewrite list_insert_id by done. exists idle, bk. split; simpl; try done; intros *; rewrite Hb; eauto. }
  specialize (Hwin pc eq_refl).
  assert (Hidle_pc : pc ∈ idle).
  { destruct Hin as [?|[h Hh]]; [done|]. apply Hbk in Hh.
    assert (Hs : pc ∈ idle ++ held_slots ws) by (rewrite Hperm; apply elem_of_seq; lia).
    by apply elem_of_app in Hs as [?|?]. }
  destruct (rep_take _ _ _ _ (hash_of call) Hr Hidle_pc) as (st1 & E & Hr1 & Hk).
  rewrite Ht in E. injection E as <-.
  assert (Hne : forall w' z i, ws !! w' = Some z -> owned z = Some i -> i <> pc).
  { intros w' z i Hz Ho ->. by eapply Hwin, held_in. }
  exists (without pc idle), (bk_add pc (hash_of call) (bk_remove pc bk)). split; simpl; try done.
  - pose proof (held_insert ws w Ready (Session pc) Hw) as Hi. simpl in Hi. rewrite Hi, <- Hperm.
    pose proof (rep_nodup _ _ _ _ Hr) as Hnd. apply list_elem_of_split in Hidle_pc as (l1 & l2 & ->).
    rewrite without_split by done. solve_Permutation.
  - intros h i. unfold bk_add, bk_remove. destruct (decide (h = hash_of call)) as [->|Hh].
    + rewrite fn_lookup_insert. intros [->|[_ Hi]%elem_of_without]%elem_of_cons; [|eauto].
      assert (Hs : pc ∈ seq 0 n) by (rewrite <- Hperm; apply elem_of_app; by left).
      apply elem_of_seq in Hs. lia.
    + rewrite fn_lookup_insert_ne by done. intros [_ Hi]%elem_of_without. eauto.
  - intros i [Hi1 Hi2]%elem_of_without. rewrite Hoth by done. auto.
  - intros w' i [[_ [= ->]]|[_ Hz]]%insert_cases; [done|]. rewrite Hoth by (by eapply Hne). eauto.
  - intros w' i [[[_ [=]]|[_ Hz]]%insert_cases|[[_ [=]]|[_ Hz]]%insert_cases];
      (rewrite Hoth by (by eapply Hne)); eauto.
  - intros w' i [[_ [=]]|[_ Hz]]%insert_cases. rewrite Hk; [eauto|].
    by apply (pinv_held _ _ _ _ w' (Cleared i) i Hp Hz eq_refl).
Qed.

Lemma pinv_init n : (0 < n)%nat -> pinv n (pinit n) (seq 0 n) (fun _ => []).
Proof.
  intros Hn. assert (Hrep : forall w x, replicate n Ready !! w = Some x -> x = Ready).
  { intros w x Hx. by apply lookup_replicate in Hx as [-> _]. }
  split; simpl; try done.
  - by apply rep_open.
  - replace (held_slots (replicate n Ready)) with (@nil nat); [by rewrite app_nil_r|].
    clear. induction n; simpl; done.
  - intros h i Hi. by apply not_elem_of_nil in Hi.
  - intros w i Hi. by apply Hrep in Hi.
  - intros w i Hi. by apply Hrep in Hi.
Qed.

Lemma pinv_reachable n s :
  (0 < n)%nat -> psteps false (pinit n) s ->
  (exists idle bk, pinv n s idle bk) /\ length (workers s) = n.
Proof.
  intros Hn Hr. unfold psteps in Hr. remember (pinit n) as s0 eqn:E.
  assert (H0 : (exists idle bk, pinv n s0 idle bk) /\ length (workers s0) = n).
  { subst. split; [do 2 eexists; by apply pinv_init|]. apply length_replicate. }
  clear E. induction Hr as [|x y z [w Hs] _ IH]; [done|]. apply IH. destruct H0 as [(idle & bk & Hp) Hlen].
  destruct Hs as [call st sl ws st' sl' res Hw Hq Hwin|pc st sl ws Hw|pc st sl ws Hw|pc st sl ws st' Hw Hret];
    simpl in *; rewrite length_insert; (split; [|done]).
  - eapply pinv_acquire; eauto.
  - do 2 eexists. by apply pinv_finish.
  - do 2 eexists. by apply pinv_clear.
  - do 2 eexists. by eapply pinv_return.
Qed.

(** A search along a finite chain comes to an end. *)
Lemma search_total st pv call l : forall a b sl,
  seg (cell st) pv LNextByCall a l b -> cell st b = None ->
  exists sl' ret res, search st call (cell st a) sl sl' ret res /\
    (forall pc, res = Some pc -> ret = 0 /\ busy (sl pc) = false /\ last_call (sl pc) = call) /\
    (res = None -> forall j, sl' j = sl j).
Proof.
  induction l as [|i l IH]; intros a b sl Hs Hb.
  { simpl in Hs. subst b. rewrite Hb. exists sl, 0, None. split; [constructor|done]. }
  destruct Hs as (Hi & _ & Hs). rewrite Hi. destruct (can_claim (sl i) call true) eqn:Hc.
  - eexists _, 0, (Some i). split; [apply S_stop; [by apply A_ok|done]|]. split; [|done].
    intros pc [= <-]. unfold can_claim in Hc. apply andb_true_iff in Hc as [H1%negb_true_iff H2].
    simpl in H2. by apply bool_decide_eq_true in H2.
  - assert (Hsame : forall j, (<[i := sl i]> sl) j = sl j).
    { intros j. destruct (decide (j = i)) as [->|?]; [apply fn_lookup_insert|by apply fn_lookup_insert_ne]. }
    destruct (IH (LNextByCall i) b (<[i := sl i]> sl) Hs Hb) as (sl' & ret & res & H1 & H2 & H3).
    exists sl', ret, res. split; [eapply S_next; [by apply A_busy|done]|]. split.
    + intros pc Hpc. rewrite <- Hsame. auto.
    + intros Hn j. rewrite H3 by done. apply Hsame.
Qed.

(** A worker without a slot leaves one for itself. *)
Lemma ready_idle n s idle bk w :
  pinv n s idle bk -> length (workers s) = n -> workers s !! w = Some Ready ->
  exists hd, cell (lists s) LHead = Some hd /\ hd ∈ idle.
Proof.
  intros Hp Hlen Hw. pose proof (pinv_perm _ _ _ _ Hp) as Hperm.
  pose proof (rep_idle _ _ _ _ (pinv_rep _ _ _ _ Hp)) as [Hs _].
  assert (Hlt : forall ws : list wk, (length (held_slots ws) <= length ws)%nat).
  { intros ws. induction ws as [|x ws IH]; [done|].
    change (held_slots (x :: ws)) with
      (match owned x with Some i => i :: held_slots ws | None => held_slots ws end).
    destruct (owned x); cbn [length]; lia. }
  apply Permutation_length in Hperm. rewrite length_app, length_seq in Hperm.
  apply list_elem_of_split_length in Hw as (l1 & l2 & E & _). rewrite E in Hperm, Hlen.
  rewrite omap_app, !length_app in Hperm. rewrite length_app in Hlen.
  assert (Hskip : held_slots (Ready :: l2) = held_slots l2) by done. rewrite Hskip in Hperm.
  pose proof (Hlt l1). pose proof (Hlt l2). destruct idle as [|hd idle]; [cbn [length] in *; lia|].
  destruct Hs as [Hs _]. exists hd. split; [done|left].
Qed.

(** [proxy_conn_accept] keeps its promise. *)
Lemma accept_view {O : OS} {Hos : OSLaws O} s p client call ro h :
  slot s p -> (exists c, hp s !! client = Some c /\ is_Some (priv c)) ->
  wp (proxy_conn_accept s client call ro) h (fun res e =>
    exists p', slot res.2 p' /\ accept call ro (slot_view p) (slot_view p') res.1).
Proof.
  intros Hs Hc. eapply wp_mono; [by apply slot_accept|]. intros [r s'] e.
  destruct (claimable p call ro) eqn:Hcl.
  - intros (p' & Hs' & Hcs & Hr). exists p'. split; [done|]. unfold slot_view. rewrite Hcs.
    simpl in Hr. destruct Hr as [[-> ->]|(Hr & -> & _)].
    + rewrite (bool_decide_eq_true_2 (is_Some (Some client))) by (by eexists). by apply A_ok.
    + rewrite (bool_decide_eq_false_2 (is_Some None)) by (by intros [? [=]]). by apply A_fail.
  - intros [= -> ->]. exists p. split; [done|]. by apply A_busy.
Qed.

(** ** Properties *)

(** C8. The pointer surgery on the intrusive lists implements queues and sets:
    on a pool that represents the idle queue [idle] and the buckets [bk], taking
    an idle slot succeeds, removes it from the queue and moves it to the front of
    its callsign's bucket; returning a slot that is not idle succeeds and appends
    it to the queue; nothing else changes, and [proxy_open] builds the queue of
    all slots with empty buckets. *)
Theorem pool_operations_refine st idle bk :
  rep [] st idle bk ->
  (forall i h, i ∈ idle -> exists st', pool_take st i h = Some st' /\
     rep [] st' (without i idle) (bk_add i h (bk_remove i bk))) /\
  (forall i, i ∉ idle -> exists st', pool_return (clear_next st i) i = Some st' /\
     rep [] st' (idle ++ [i]) bk) /\
  (forall n, (0 < n)%nat -> rep [] (pool_open n) (seq 0 n) (fun _ => [])).
Proof.
  intros Hr. split_and!.
  - intros i h Hi. destruct (rep_take _ _ _ _ h Hr Hi) as (st' & ? & ? & _). by exists st'.
  - intros i Hi. destruct (rep_return [] (clear_next st i) idle bk i) as (st' & ? & ? & _);
      [by apply rep_clear|done|apply fn_lookup_insert|]. by exists st'.
  - apply rep_open.
Qed.

Lemma pool_operations_refine_witness :
  exists st, pool_take (pool_open 3) 1 42 = Some st /\
    rep [] st [0; 2]%nat (bk_add 1 42 (bk_remove 1 (fun _ => []))).
Proof.
  apply (pool_operations_refine (pool_open 3) (seq 0 3) (fun _ => [])); [apply rep_open; lia|].
  apply elem_of_seq. lia.
Defined.

(** C6. Slots are neither lost nor shared: in every interleaving of the workers
    in which no slot is claimed between the end of its session and its return,
    the pool is well formed, every slot is either in the idle queue or held by
    exactly one worker, idle slots have no client and slots in session have
    one. *)
Theorem pool_conserves_slots n s :
  (0 < n)%nat -> psteps false (pinit n) s ->
  exists idle bk, rep [] (lists s) idle bk /\ idle ++ omap owned (workers s) ≡ₚ seq 0 n /\
    (forall i, i ∈ idle -> busy (slots s i) = false) /\
    (forall w i, workers s !! w = Some (Session i) -> busy (slots s i) = true).
Proof.
  intros Hn Hr. destruct (pinv_reachable n s Hn Hr) as [(idle & bk & Hp) _].
  exists idle, bk. by destruct Hp.
Qed.


(** A concrete run: one worker serves a client and returns the slot, while
    another takes a reconnection of the same callsign. *)
Definition ex_call : list Z := str "K1RFD".
Definition ex_hash : Z := Eval vm_compute in hash_of ex_call.
Definition ex_pool1 : pool := default pool_zero (pool_take (pool_open 2) 0 ex_hash).
Definition ex_pool2 : pool := default pool_zero (pool_take (clear_next ex_pool1 0) 0 ex_hash).
Definition ex_pool3 : pool := default pool_zero (pool_return ex_pool2 0).
Definition ex_slots0 : nat -> sslot := fun _ => mkSlot false [].
Definition ex_slots1 : nat -> sslot := <[0%nat := mkSlot true ex_call]> ex_slots0.
Definition ex_slots2 : nat -> sslot := <[0%nat := mkSlot false ex_call]> ex_slots1.
Definition ex_slots3 : nat -> sslot := <[0%nat := mkSlot true ex_call]> ex_slots2.

Lemma ex_hash_of : hash_of ex_call = ex_hash.
Proof. vm_compute. reflexivity. Qed.

Lemma ex_first : acquire (pool_open 2) ex_call ex_slots0 ex_pool1 ex_slots1 (Some 0%nat).
Proof.
  eapply (Q_oldest _ _ _ 0%nat ex_slots0 _ 0 0); [reflexivity| |by apply A_ok|lia|].
  - rewrite ex_hash_of. apply S_end.
  - rewrite ex_hash_of. reflexivity.
Qed.

Lemma ex_again : acquire (clear_next ex_pool1 0) ex_call ex_slots2 ex_pool2 ex_slots3 (Some 0%nat).
Proof.
  eapply (Q_reconnect _ _ _ 1%nat _ 0); rewrite ?ex_hash_of; [reflexivity| |lia|reflexivity].
  change (cell (clear_next ex_pool1 0) (LByCall ex_hash)) with (Some 0%nat).
  apply S_stop; [|done]. apply A_ok. vm_compute. reflexivity.
Qed.

Lemma pool_take_bycall st pc hash st' h :
  pool_take st pc hash = Some st' -> h <> hash ->
  prev_ptr st pc <> Some (LByCall h) -> prev_by_call_ptr st pc <> Some (LByCall h) ->
  cell st' (LByCall h) = cell st (LByCall h).
Proof.
  unfold pool_take, pool_remove, store. intros Ht Hh Hp Hq. destruct (prev_ptr st pc) as [l|]; [|done].
  set (st1 := match cell (set_cell st l (cell st (LNext pc))) (LNext pc) with Some _ => _ | None => _ end) in Ht.
  injection Ht as <-.
  assert (H1 : cell st1 (LByCall h) = cell st (LByCall h) /\ prev_by_call_ptr st1 pc = prev_by_call_ptr st pc).
  { unfold st1. destruct (cell _ _); simpl; (split; [|done]); apply fn_lookup_insert_ne; congruence. }
  destruct H1 as [<- Hq1]. rewrite <- Hq1 in Hq. clearbody st1. clear Hq1 Hp.
  assert (H2 : cell (map_remove st1 pc) (LByCall h) = cell st1 (LByCall h)).
  { unfold map_remove. destruct (prev_by_call_ptr st1 pc) as [l'|]; [|done].
    assert (Hl : l' <> LByCall h) by congruence. cbv zeta.
    destruct (cell (set_cell _ _ _) _); simpl; by apply fn_lookup_insert_ne. }
  rewrite <- H2. unfold map_add. simpl. rewrite fn_lookup_insert.
  destruct (cell (map_remove st1 pc) (LByCall hash)); simpl; by rewrite !fn_lookup_insert_ne by congruence.
Qed.

(** In the last pool of the run only one bucket is not empty. *)
Lemma ex_buckets h :
  exists l, l ⊆ [0%nat] /\ linked (cell ex_pool3) (prev_by_call_ptr ex_pool3) LNextByCall (LByCall h) l.
Proof.
  destruct (decide (h = ex_hash)) as [->|Hh]; [exists [0%nat]; split; [done|by vm_compute]|].
  exists []. split; [set_solver|]. split; [done|]. unfold end_of. simpl last. cbv iota.
  change (cell ex_pool3 (LByCall h)) with (cell ex_pool2 (LByCall h)).
  rewrite (pool_take_bycall (clear_next ex_pool1 0) 0 ex_hash); [|reflexivity|done|vm_compute; congruence|].
  2: { change (Some (LByCall ex_hash) <> Some (LByCall h)). congruence. }
  change (cell (clear_next ex_pool1 0) (LByCall h)) with (cell ex_pool1 (LByCall h)).
  rewrite (pool_take_bycall (pool_open 2) 0 ex_hash); [reflexivity|reflexivity|done|vm_compute; congruence..].
Qed.

(** C40. The window between the end of a session and the return of its slot is
    not protected: a reconnection that claims the slot there unlinks it through
    a stale pointer.  From two slots, in five steps, the other slot has vanished
    from the pool although nobody uses it, the busy slot is in the pool, and
    every client that comes while that session lasts is turned away. *)
Theorem pool_window_loses_slot :
  exists s, psteps true (pinit 2) s /\ workers s = [Ready; Session 0] /\
    linked (cell (lists s)) (prev_ptr (lists s)) LNext LHead [0%nat] /\ busy (slots s 1) = false /\
    forall call st' sl' res, acquire (lists s) call (slots s) st' sl' res -> res = None.
Proof.
  exists (mkSys ex_pool3 ex_slots3 [Ready; Session 0]). split_and!; [|done|by vm_compute|done|].
  - unfold psteps. eapply rtc_l; [exists 0%nat; by eapply P_acquire; [reflexivity|exact ex_first|]|].
    eapply rtc_l; [exists 0%nat; eapply P_finish; reflexivity|].
    eapply rtc_l; [exists 0%nat; eapply P_clear; reflexivity|].
    eapply rtc_l; [exists 1%nat; by eapply P_acquire; [reflexivity|exact ex_again|]|].
    eapply rtc_l; [exists 0%nat; eapply P_return; reflexivity|]. apply rtc_refl.
  - intros call st' sl' res. cbn [lists slots].
    assert (H0 : busy (ex_slots3 0%nat) = true) by reflexivity.
    intros [Hn|hd s1 ret pc st1 H1 Hs Hr Ht|hd s1 ret pc H1 Hs Hr
           |hd s1 s r0 ret st1 H1 Hs Ha Hr Ht|hd s1 s r0 ret H1 Hs Ha Hr]; try done; exfalso;
      pose proof (search_busy _ _ _ _ _ _ _ Hs) as [Hsame Hgot].
    + destruct (Hgot pc eq_refl Hr) as [Hf _]. destruct (ex_buckets (hash_of call)) as (l & Hl & Hlk & He).
      pose proof (search_bucket _ _ _ _ _ _ _ _ pc Hs eq_refl _ _ _ eq_refl Hlk He) as Hpc.
      apply Hl, list_elem_of_singleton in Hpc. subst pc. congruence.
    + injection H1 as <-. apply accept_busy in Ha as [[? _]|(_ & Hf & _)]; [lia|].
      rewrite Hsame in Hf by (by intros [? _]). congruence.
Qed.

Lemma pool_conserves_slots_witness :
  exists s idle bk, psteps false (pinit 2) s /\ workers s = [Session 0; Ready]%nat /\
    rep [] (lists s) idle bk /\ idle ++ [0%nat] ≡ₚ seq 0 2.
Proof.
  assert (Hr : psteps false (pinit 2) (mkSys ex_pool1 ex_slots1 [Session 0; Ready])).
  { unfold psteps. eapply rtc_l; [exists 0%nat; eapply P_acquire; [reflexivity|exact ex_first|]|apply rtc_refl].
    intros _ pc _. apply not_elem_of_nil. }
  destruct (pool_conserves_slots 2 _ ltac:(lia) Hr) as (idle & bk & H1 & H2 & _).
  exists (mkSys ex_pool1 ex_slots1 [Session 0; Ready]), idle, bk. split_and!; [exact Hr|reflexivity|exact H1|exact H2].
Defined.


(** [proxy_conn_accept] keeps the promise the pool relies on: run on a slot
    of ProxyConn, its return value and its effect on the slot, seen as client
    and callsign, are those of the pool's [accept]. *)
Theorem proxy_conn_accept_refines {O : OS} {Hos : OSLaws O} s p client call ro h :
  slot s p -> (exists c, hp s !! client = Some c /\ is_Some (priv c)) ->
  exists r s' e p', proxy_conn_accept s client call ro h = (Some (r, s'), e) /\
    slot s' p' /\ accept call ro (slot_view p) (slot_view p') r.
Proof.
  intros Hs Hc. destruct (accept_view s p client call ro h Hs Hc) as ([r s'] & e & Hr & p' & H1 & H2).
  by exists r, s', e, p'.
Qed.

Lemma proxy_conn_accept_refines_witness :
  exists r s' e p', proxy_conn_accept (H := Scripted []) (example_slot None) 7 (str "K1RFD") true [] = (Some (r, s'), e) /\
    slot s' p' /\ accept (str "K1RFD") true (slot_view (example_priv None)) (slot_view p') r.
Proof.
  apply (proxy_conn_accept_refines (O := Scripted []) (example_slot None) (example_priv None) 7 (str "K1RFD") true []);
    [apply example_alive; left; reflexivity|].
  exists (live_conn 7 CONN_TYPE_TCP 9). split; [apply lookup_insert_eq|eexists; reflexivity].
Defined.
