(* ===== verification/Registration.v ===== *)
(** * Registration with the directory (src/src/registration.c)

    A worker posts the proxy's status to www.echolink.org whenever it is woken,
    and at least every ten minutes.  The strings of a report are built in heap
    buffers whose sizes the model keeps: a write outside one is undefined
    behaviour.

    The theorems give the report that is sent byte by byte and show that its
    buffers are large enough, give the text that authenticates the proxy and the
    length of the name from which building it overflows the heap, and show that
    a service that is stopped and started again reports nothing. *)

From S2P Require Import Prelude Digest Sys Mutex Worker Conn Conf ProxyConn.

(** ** State *)

Inductive REGISTRATION_STATUS : Type :=
| REGISTRATION_STATUS_UNKNOWN
| REGISTRATION_STATUS_READY
| REGISTRATION_STATUS_BUSY
| REGISTRATION_STATUS_OFF.

#[export] Instance REGISTRATION_STATUS_eq_dec : EqDecision REGISTRATION_STATUS.
Proof. solve_decision. Defined.

(** A [char *] that owns its string: NULL, a string, or one that was freed. *)
Inductive cptr : Type := PNull | PStr (s : list Z) | PFreed.

Record registration_service_priv : Type := mkReg {
  r_name : option (list Z);
  r_comment : option (list Z);
  reg_suffix : cptr;
  public : Z;
  reg_mutex : bool;                     (* initialised? *)
  reg_worker : worker_handle;
  slots_total : Z;
  slots_used : Z;
  status : REGISTRATION_STATUS;
}.

Record registration_service_handle : Type := mkRs { rs_id : nat; rs_priv : option registration_service_priv }.

Definition set_rs (rs : registration_service_handle) (p : option registration_service_priv) :=
  mkRs (rs_id rs) p.
Definition set_status (p : registration_service_priv) (s : REGISTRATION_STATUS) :=
  mkReg (r_name p) (r_comment p) (reg_suffix p) (public p) (reg_mutex p) (reg_worker p)
        (slots_total p) (slots_used p) s.
Definition set_reg_worker (p : registration_service_priv) (w : worker_handle) :=
  mkReg (r_name p) (r_comment p) (reg_suffix p) (public p) (reg_mutex p) w
        (slots_total p) (slots_used p) (status p).
Definition set_slots (p : registration_service_priv) (used total : Z) :=
  mkReg (r_name p) (r_comment p) (reg_suffix p) (public p) (reg_mutex p) (reg_worker p)
        total used (status p).
Definition set_suffix (p : registration_service_priv) (s : cptr) :=
  mkReg (r_name p) (r_comment p) s (public p) (reg_mutex p) (reg_worker p)
        (slots_total p) (slots_used p) (status p).

(** ** Strings *)

Definition crlf : list Z := [13; 10].

(** [version] stands for [OPENELP_VERSION], which the build defines. *)
Definition http_message (version : list Z) : list Z :=
  str "POST /proxypost.jsp HTTP/1.1" ++ crlf ++
  str "Content-Type: application/x-www-form-urlencoded" ++ crlf ++
  str "Cache-Control: no-cache" ++ crlf ++
  str "Pragma: no-cache" ++ crlf ++
  str "User-Agent: OpenELP/" ++ version ++ crlf ++
  str "Host: www.echolink.org" ++ crlf ++
  str "Accept: text/html, image/gif, image/jpeg, *; q=.2, */*; q=.2" ++ crlf ++
  str "Connection: keep-alive" ++ crlf ++
  str "Content-Length: ".
Definition http_host : list Z := str "www.echolink.org".
Definition digest_salt : list Z := str "#5A!zu".
Definition protocol_version : list Z := str "1.2.3o".

Definition status_phrase (s : REGISTRATION_STATUS) : option (list Z) :=
  match s with
  | REGISTRATION_STATUS_UNKNOWN => None
  | REGISTRATION_STATUS_READY => Some (str "Ready")
  | REGISTRATION_STATUS_BUSY => Some (str "Busy")
  | REGISTRATION_STATUS_OFF => Some (str "Off")
  end.

(** [sprintf] of the string [s] to [&buf[off]], with its terminator; [None] when
    it does not fit.  The strings are shorter than 2^31. *)
Definition sprintf_at (buf : list Z) (off : nat) (s : list Z) : option (list Z) :=
  if (off + length s + 1 <=? length buf)%nat then Some (memcpy buf off (s ++ [0])) else None.

(** The contents of fresh memory are [mem]. *)
Definition fresh_bytes (mem : nat -> Z) (n : nat) : list Z := map mem (seq 0 n).

(** The middle of [registration_service_start]: the digest text is built in the
    buffer that then receives the suffix.  [ctx] is the uninitialised digest
    context. *)
Definition build_suffix (ctx : Md5.MD5_CTX) (mem : nat -> Z) (name addr : list Z) (port : Z)
  : option (list Z) :=
  let buf := fresh_bytes mem (length addr + 2 * DIGEST_LEN + (length protocol_version + 1) + 18) in
  match sprintf_at buf 0 (name ++ addr ++ digest_salt) with
  | None => None
  | Some buf =>
      let digest := digest_get ctx buf (length (name ++ addr ++ digest_salt)) in
      let head := str "&a=" ++ addr ++ str "&d=" in
      match sprintf_at buf 0 head with
      | None => None
      | Some buf =>
          let off := length head in
          let buf := take off buf ++ digest_to_str digest (drop off buf) in
          match sprintf_at buf (off + 2 * DIGEST_LEN) (str "&p=" ++ dec port ++ str "&v=" ++ protocol_version) with
          | None => None
          | Some buf => Some (cstr buf)
          end
      end
  end.

(** The body of a report. *)
Definition report_body (p : registration_service_priv) (name comment suffix phrase : list Z) (used total : Z)
  : list Z :=
  str "name=" ++ name ++ str "&comment=" ++ comment ++
  (if total =? 1 then [] else str " [" ++ dec used ++ str "/" ++ dec total ++ str "]") ++
  str "&public=" ++ [public p] ++ str "&status=" ++ phrase ++ suffix.

(** ** Operations *)

Section Operations.
Context `{OS} (version : list Z).

Definition with_rs {A} (rs : registration_service_handle) (k : registration_service_priv -> IO A) : IO A :=
  match rs_priv rs with Some p => k p | None => crash end.

Definition send_report (rs : registration_service_handle) (st : REGISTRATION_STATUS) (used total : Z) : IO Z :=
  with_rs rs (fun p =>
  match status_phrase st with
  | None => ret (- EINVAL)
  | Some phrase =>
      match r_name p, r_comment p, reg_suffix p with
      | Some name, Some comment, PStr suffix =>
          let* a := sys CAlloc in
          if a_ret a =? 0 then ret (- ENOMEM) else
          let body := report_body p name comment suffix phrase used total in
          if (length name + length comment + length suffix + 80 <? length body + 1)%nat then crash else
          if (length body <=? 0)%nat then ret (- EINVAL) else
          let header := http_message version ++ dec (Z.of_nat (length body)) ++ crlf ++ crlf in
          if (length (http_message version) + 1 + 14 <? length header + 1)%nat then crash else
          if (length header <=? 0)%nat then ret (- EINVAL) else
          let* (r, c) := conn_init (mkConn (rs_id rs) None None CONN_TYPE_TCP None) in
          let* (r, c) := (if r <? 0 then ret (r, c) else conn_connect c http_host (str "80")) in
          let* r := (if r <? 0 then ret r else
                     let* r := conn_send c header in
                     if r <? 0 then ret r else
                     let* r := conn_send c body in
                     if r <? 0 then ret r else
                     let* (r, b) := conn_recv c 13 in
                     if r <? 0 then ret r else
                     ret (if decide (b = str "HTTP/1.1 200 ") then r else - EINVAL)) in
          do* conn_free c in
          ret r
      | _, _, _ => crash
      end
  end).

(** The result of [worker_join] is returned. *)
Definition registration_service_stop (rs : registration_service_handle) : IO (Z * registration_service_handle) :=
  with_rs rs (fun p =>
  do* mutex_lock MReg in
  let p := set_status p REGISTRATION_STATUS_OFF in
  let* (_, w) := worker_wake (reg_worker p) in
  do* mutex_unlock MReg in
  let* (r, w) := worker_join w in
  ret (r, set_rs rs (Some (set_reg_worker p w)))).

Definition registration_service_free (rs : registration_service_handle) : IO registration_service_handle :=
  match rs_priv rs with
  | None => ret rs
  | Some _ =>
      let* (_, rs) := registration_service_stop rs in
      with_rs rs (fun p =>
      do* worker_free (reg_worker p) in
      do* mutex_free (reg_mutex p) in
      match reg_suffix p with PFreed => crash | _ => ret (set_rs rs None) end)
  end.

Definition reg_zero (id : nat) : registration_service_priv :=
  mkReg None None PNull 0 false (mkWorker id None 0 0) 0 0 REGISTRATION_STATUS_UNKNOWN.

Definition UPDATE_INTERVAL : Z := 600000.

Definition registration_service_init (rs : registration_service_handle) : IO (Z * registration_service_handle) :=
  let* p := match rs_priv rs with
            | Some p => ret (Some p)
            | None => let* a := sys CAlloc in
                      ret (if a_ret a =? 0 then None else Some (reg_zero (rs_id rs)))
            end in
  match p with
  | None => ret (- ENOMEM, rs)
  | Some p =>
      let fail (r : Z) (w : worker_handle) (m : bool) : IO (Z * registration_service_handle) :=
        do* worker_free w in do* mutex_free m in ret (r, set_rs rs None) in
      let* (r, m) := mutex_init (reg_mutex p) in
      if negb (r =? 0) then fail r (reg_worker p) m else
      let* (r, w) := worker_init (mkWorker (worker_id (reg_worker p)) (wpriv (reg_worker p))
                                           (1024 * 1024) UPDATE_INTERVAL) in
      if negb (r =? 0) then fail r w m else
      let st := if decide (status p = REGISTRATION_STATUS_OFF) then REGISTRATION_STATUS_UNKNOWN else status p in
      ret (0, set_rs rs (Some (mkReg (r_name p) (r_comment p) (reg_suffix p) (public p) m w
                                     (slots_total p) (slots_used p) st)))
  end.

(** A suffix of an earlier start is freed, and its pointer kept until the new
    one is stored. *)
Definition registration_service_start (ctx : Md5.MD5_CTX) (mem : nat -> Z)
    (rs : registration_service_handle) (conf : proxy_conf) : IO (Z * registration_service_handle) :=
  let addr := default [] (public_addr conf) in
  match reg_name conf with
  | None => ret (0, rs)
  | Some name =>
      with_rs rs (fun p =>
      do* mutex_lock MReg in
      match password conf, reg_suffix p with
      | None, _ | _, PFreed => crash
      | Some pw, old =>
          let pub := if decide (pw = str "PUBLIC") then 89 else 78 in
          let old := match old with PNull => PNull | _ => PFreed end in
          let p := mkReg (Some name) (reg_comment conf) old pub (reg_mutex p) (reg_worker p)
                         (slots_total p) (slots_used p) (status p) in
          let* (r, p) :=
            (let* a := sys CAlloc in
             if a_ret a =? 0 then ret (- ENOMEM, p) else
             match build_suffix ctx mem name addr (port conf) with
             | None => crash
             | Some suffix =>
                 let p := set_suffix p (PStr suffix) in
                 let* (r, w) := worker_start (reg_worker p) in
                 let p := set_reg_worker p w in
                 if r <? 0 then ret (r, p) else
                 let* (r, w) := worker_wake (reg_worker p) in
                 let p := set_reg_worker p w in
                 if r <? 0 then ret (r, p) else
                 ret (r, if decide (status p = REGISTRATION_STATUS_OFF)
                         then set_status p REGISTRATION_STATUS_UNKNOWN else p)
             end) in
          do* mutex_unlock MReg in
          ret (r, set_rs rs (Some p))
      end)
  end.

(** The arguments are converted from [int] to [size_t]. *)
Definition registration_service_update (rs : registration_service_handle) (used total : Z)
  : IO registration_service_handle :=
  let used := u64 used in
  let total := u64 total in
  with_rs rs (fun p =>
  do* mutex_lock MReg in
  let* p := (if decide (status p = REGISTRATION_STATUS_OFF) then ret p else
             let p := set_status p (if total <=? used then REGISTRATION_STATUS_BUSY else REGISTRATION_STATUS_READY) in
             let p := set_slots p used total in
             let* (_, w) := worker_wake (reg_worker p) in
             ret (set_reg_worker p w)) in
  do* mutex_unlock MReg in
  ret (set_rs rs (Some p))).

(** The work function; a failure is ignored. *)
Definition registration_func (rs : registration_service_handle) : IO unit :=
  with_rs rs (fun p =>
  do* mutex_lock MReg in
  do* mutex_unlock MReg in
  if decide (status p = REGISTRATION_STATUS_UNKNOWN) then ret tt else
  do* send_report rs (status p) (slots_used p) (slots_total p) in
  ret tt).

End Operations.

(** ** The suffix *)

Lemma sprintf_at_fits buf off s :
  (off + length s + 1 <= length buf)%nat -> sprintf_at buf off s = Some (memcpy buf off (s ++ [0])).
Proof. intros Hl. unfold sprintf_at. by rewrite (proj2 (Nat.leb_le _ _)). Qed.

Lemma length_sprintf buf off s :
  (off + length s + 1 <= length buf)%nat -> length (memcpy buf off (s ++ [0])) = length buf.
Proof. intros Hl. apply length_memcpy. rewrite length_app. simpl. lia. Qed.

Lemma take_sprintf buf off s k :
  (off + length s + 1 <= length buf)%nat -> (k = off + length s)%nat ->
  take k (memcpy buf off (s ++ [0])) = take off buf ++ s.
Proof.
  intros Hl ->. unfold memcpy. rewrite <- (app_assoc s), app_assoc, take_app_length'; [done|].
  rewrite length_app, length_take. lia.
Qed.

Definition hex_text (digest : list Z) : list Z := concat (digest_to_hex8_u <$> digest).

Lemma hex_text_no_nul digest : bytes_ok digest -> no_nul (hex_text digest).
Proof.
  assert (H8 : forall b, is_u8 b -> no_nul (digest_to_hex8_u b)).
  { intros b Hb. apply (bool_decide_unpack _), Is_true_eq_left. revert b Hb.
    apply byte_cases. vm_compute. reflexivity. }
  unfold hex_text, no_nul. induction 1 as [|b l Hb _ IH]; [constructor|].
  rewrite fmap_cons. cbn [concat]. apply Forall_app. split; [by apply H8|done].
Qed.

Lemma digest_to_str_write digest buf :
  length digest = 16%nat -> (32 <= length buf)%nat ->
  digest_to_str digest buf = hex_text digest ++ drop 32 buf.
Proof.
  intros Hd Hb. unfold digest_to_str, DIGEST_LEN. rewrite digest_to_str_loop_spec by lia.
  by rewrite take_0, drop_0, take_ge by lia.
Qed.

(** What authenticates the proxy to the directory. *)
Definition reg_digest (name addr : list Z) : list Z := Md5.Spec.md5 (name ++ addr ++ digest_salt).
Definition suffix_text (name addr : list Z) (port : Z) : list Z :=
  str "&a=" ++ addr ++ str "&d=" ++ hex_text (reg_digest name addr) ++
  str "&p=" ++ dec port ++ str "&v=" ++ protocol_version.

Lemma no_nul_app l1 l2 : no_nul l1 -> no_nul l2 -> no_nul (l1 ++ l2).
Proof. intros. by apply Forall_app. Qed.

Lemma no_nul_dec_text z : no_nul (dec z).
Proof. eapply Forall_impl; [apply dec_digits|]. simpl. lia. Qed.

Ltac literal := apply (bool_decide_unpack _); vm_compute; exact I.

Lemma length_fresh mem n : length (fresh_bytes mem n) = n.
Proof. unfold fresh_bytes. by rewrite length_map, length_seq. Qed.

Lemma fresh_ok mem n : (forall i, is_u8 (mem i)) -> bytes_ok (fresh_bytes mem n).
Proof. intros Hm. unfold fresh_bytes. apply Forall_map, Forall_true. done. Qed.

Lemma memcpy_ok dst off src : bytes_ok dst -> bytes_ok src -> bytes_ok (memcpy dst off src).
Proof. intros Hd Hs. unfold memcpy. apply Forall_app. split; [by apply Forall_take|].
  apply Forall_app. split; [done|by apply Forall_drop]. Qed.

(** The suffix is built within its buffer exactly when the name has at most
    fifty characters. *)
Lemma build_suffix_text ctx mem name addr port :
  length (Md5.buffer ctx) = 64%nat -> (forall i, is_u8 (mem i)) ->
  bytes_ok name -> bytes_ok addr -> no_nul addr -> is_u16 port ->
  Z.of_nat (length addr) < 2 ^ 31 -> (length name <= 50)%nat ->
  build_suffix ctx mem name addr port = Some (suffix_text name addr port).
Proof.
  intros Hctx Hmem Hbn Hba Hna Hport Hla Hln. unfold build_suffix, DIGEST_LEN.
  set (tail := str "&p=" ++ dec port ++ str "&v=" ++ protocol_version).
  assert (Htail : (length tail <= 17)%nat).
  { pose proof (dec_length port 5) as Hd. unfold is_u16 in Hport. unfold tail. rewrite !length_app.
    change (length (str "&p=")) with 3%nat. change (length (str "&v=")) with 3%nat.
    change (length protocol_version) with 6%nat. change (10 ^ Z.of_nat 5) with 100000 in Hd. lia. }
  set (head := str "&a=" ++ addr ++ str "&d=").
  assert (Hhead : length head = (length addr + 6)%nat).
  { unfold head. rewrite !length_app. change (length (str "&a=")) with 3%nat.
    change (length (str "&d=")) with 3%nat. lia. }
  set (key := name ++ addr ++ digest_salt).
  assert (Hkey : length key = (length name + length addr + 6)%nat).
  { unfold key. rewrite !length_app. change (length digest_salt) with 6%nat. lia. }
  change (length protocol_version) with 6%nat.
  set (buf0 := fresh_bytes mem _).
  assert (H0 : length buf0 = (length addr + 57)%nat) by (unfold buf0; rewrite length_fresh; lia).
  rewrite sprintf_at_fits by lia. set (buf1 := memcpy buf0 0 (key ++ [0])).
  assert (H1 : length buf1 = (length addr + 57)%nat) by (unfold buf1; rewrite length_sprintf; lia).
  assert (Hdig : digest_get ctx buf1 (length key) = reg_digest name addr).
  { rewrite digest_get_md5; [|done| |lia|lia].
    - unfold buf1. rewrite take_sprintf by lia. done.
    - unfold buf1. apply memcpy_ok; [by apply fresh_ok|]. apply bytes_ok_app. split; [|by repeat constructor].
      unfold key. rewrite !bytes_ok_app. split_and!; [done|done|literal]. }
  rewrite Hdig, sprintf_at_fits by lia. set (buf2 := memcpy buf1 0 (head ++ [0])).
  assert (H2 : length buf2 = (length addr + 57)%nat) by (unfold buf2; rewrite length_sprintf; lia).
  assert (Ht2 : take (length head) buf2 = head) by (unfold buf2; rewrite take_sprintf by lia; done).
  rewrite Ht2, digest_to_str_write by (try apply length_md5; rewrite length_drop; lia).
  set (buf3 := head ++ hex_text (reg_digest name addr) ++ _).
  assert (Hhex : length (hex_text (reg_digest name addr)) = 32%nat).
  { unfold hex_text. rewrite length_hex_text. unfold reg_digest. by rewrite length_md5. }
  assert (H3 : length buf3 = (length addr + 57)%nat).
  { unfold buf3. rewrite !length_app, Hhex, !length_drop. lia. }
  rewrite sprintf_at_fits by lia. f_equal. unfold memcpy.
  assert (Ht3 : take (length head + 2 * 16) buf3 = head ++ hex_text (reg_digest name addr)).
  { unfold buf3. rewrite app_assoc. apply take_app_length'. rewrite length_app. lia. }
  rewrite Ht3, <- (app_assoc tail). cbn [app]. rewrite app_assoc, cstr_app_nul.
  - unfold suffix_text, head, tail. by rewrite <- !app_assoc.
  - unfold head, tail. repeat apply no_nul_app;
      [literal|done|literal|apply hex_text_no_nul, md5_bytes_ok|literal|apply no_nul_dec_text|literal|literal].
Qed.

Lemma build_suffix_overflow ctx mem name addr port :
  (50 < length name)%nat -> build_suffix ctx mem name addr port = None.
Proof.
  intros Hl. unfold build_suffix, sprintf_at at 1. rewrite (proj2 (Nat.leb_gt _ _)); [done|].
  rewrite length_fresh, !length_app. change (length digest_salt) with 6%nat.
  change (length protocol_version) with 6%nat. unfold DIGEST_LEN. lia.
Qed.

(** ** Reports *)

Section Connecting.
Context {O : OS} {Hos : OSLaws O}.

Lemma silent_app e1 e2 : silent (e1 ++ e2) <-> silent e1 /\ silent e2.
Proof using. apply Forall_app. Qed.

Lemma conn_init_up c h :
  wp (conn_init c) h (fun res e => silent e /\
    (res.1 < 0 /\ (priv c = None -> priv res.2 = None) \/
     res.1 = 0 /\ conn_type res.2 = conn_type c /\ is_Some (priv res.2))).
Proof using Hos.
  apply (wp_events (within eff_none)); [unfold conn_init; solve_events|].
  { unfold mutex_init. solve_events. }
  unfold conn_init. wp_steps.
  eapply (wp_mono _ _ (fun p _ => p = None \/ is_Some p)).
  { destruct (priv c); wp_steps; [right; by eexists|]. case_match; [by left|right; by eexists]. }
  intros p e Hp. destruct p as [p|]; [|wp_steps; left; by split].
  wp_steps. apply mutex_init_wp. intros r e' Hr _.
  destruct Hr as [->|Hr]; [cbn [Z.ltb Z.compare]; wp_steps; right; split_and!; try done; by eexists|].
  rewrite (proj2 (Z.ltb_lt _ _)) by done. wp_steps. by left.
Qed.

Lemma conn_connect_up c addr port h :
  is_Some (priv c) -> conn_type c = CONN_TYPE_TCP ->
  wp (conn_connect c addr port) h (fun res e => silent e /\
    (res.1 < 0 \/ res.1 = 0 /\ conn_type res.2 = CONN_TYPE_TCP /\
       exists q, priv res.2 = Some q /\ fd q <> INVALID_SOCKET) /\ is_Some (priv res.2)).
Proof using Hos.
  intros [p Hp] Ht. apply (wp_events (within eff_none)); [apply within_conn_connect|].
  unfold conn_connect, with_priv. rewrite Ht, Hp. cbn [negb Z.eqb CONN_TYPE_TCP].
  assert (Herr : forall c' h1, a_ret (os_answer h1 c') = -1 -> legal h1 c' (os_answer h1 c') ->
     match c' with CSocket _ | CSetsockopt _ _ | CBind _ | CConnect _ => True | _ => False end ->
     SOCK_ERRNO (os_answer h1 c') < 0).
  { intros c' h1 Hm Hl Hc. unfold SOCK_ERRNO. destruct c'; try done; cbn [legal] in Hl; unfold failed in Hl; lia. }
  assert (Hso : forall q, is_Some (priv (set_priv c (Some q)))) by (intros; by eexists).
  unfold INVALID_SOCKET, SOCKET_ERROR in *.
  repeat (wp_steps; match goal with
    | |- wp (if negb (?a =? 0) then _ else _) _ _ => destruct (a =? 0); cbn [negb]
    | |- wp (if ?a =? -1 then _ else _) _ _ => destruct (Z.eqb_spec a (-1))
    end); wp_steps; (split; [|first [by eexists|apply Hso]]); cbn [fst snd];
    first [left; unfold EADDRNOTAVAIL; lia|left; apply Herr; [done|apply Hos|done]|right].
  split; [done|]. split; [done|]. eexists. split; [done|]. done.
Qed.

Lemma conn_free_up c h :
  wp (conn_free c) h (fun _ e => silent e).
Proof using.
  eapply wp_mono; [apply (wp_events (within eff_none))|].
  - unfold conn_free, mutex_free. solve_events.
  - instantiate (1 := fun _ _ => True). unfold conn_free, mutex_free. destruct (priv c) as [p|] eqn:Hp; wp_steps; [|done].
    eapply wp_mono; [by apply conn_close_wp|]. intros. wp_steps. done.
  - by intros ? ? [? _].
Qed.
End Connecting.

(** The whole text of a report. *)
Definition report_text (version body : list Z) : list Z :=
  http_message version ++ dec (Z.of_nat (length body)) ++ crlf ++ crlf ++ body.

Lemma report_body_length p name comment suffix st phrase used total :
  status_phrase st = Some phrase -> 0 <= used < 2 ^ 64 -> 0 <= total < 10 ^ 19 ->
  (1 <= length (report_body p name comment suffix phrase used total) /\
   length (report_body p name comment suffix phrase used total) + 1 <=
     length name + length comment + length suffix + 80)%nat.
Proof.
  intros Hph Hu Ht. unfold report_body. rewrite !length_app.
  assert (Hlen : (length phrase <= 5)%nat) by (destruct st; inversion Hph; subst; simpl; lia).
  assert (Hsl : (length (if total =? 1 then [] else str " [" ++ dec used ++ str "/" ++ dec total ++ str "]")%Z <= 43)%nat).
  { destruct (total =? 1); [simpl; lia|]. rewrite !length_app.
    pose proof (dec_length used 20) as H1. pose proof (dec_length total 19) as H2.
    change (10 ^ Z.of_nat 20) with (10 ^ 20) in H1. change (10 ^ Z.of_nat 19) with (10 ^ 19) in H2.
    change (length (str " [")) with 2%nat. change (length (str "/")) with 1%nat.
    change (length (str "]")) with 1%nat. lia. }
  change (length (str "name=")) with 5%nat. change (length (str "&comment=")) with 9%nat.
  change (length (str "&public=")) with 8%nat. change (length (str "&status=")) with 8%nat.
  change (length [public p]) with 1%nat. lia.
Qed.

Section Reports.
Context {O : OS} {Hos : OSLaws O} {Hw : WholeSends O}.

(** The conversation on a connection. *)
Lemma converse_wp c q header body h :
  priv c = Some q -> conn_type c = CONN_TYPE_TCP -> fd q <> INVALID_SOCKET ->
  wp (let* r := conn_send c header in
      if r <? 0 then ret r else
      let* r := conn_send c body in
      if r <? 0 then ret r else
      let* (r, b) := conn_recv c 13 in
      if r <? 0 then ret r else
      ret (if decide (b = str "HTTP/1.1 200 ") then r else - EINVAL)) h (fun r e =>
    0 <= r -> sent (fd q) e = header ++ body /\ received (fd q) e = str "HTTP/1.1 200 ").
Proof using Hos Hw.
  intros Hq Ht Hf. wp_step. eapply wp_mono; [by apply (conn_send_whole_wp c q)|]. intros r1 e1 [Hr1 Hy1].
  destruct (Z.ltb_spec r1 0); [wp_steps; lia|]. wp_step.
  eapply wp_mono; [by apply (conn_send_whole_wp c q)|]. intros r2 e2 [Hr2 Hy2].
  destruct (Z.ltb_spec r2 0); [wp_steps; lia|]. wp_step.
  eapply wp_mono; [by apply (conn_recv_wp c q)|]. intros [r3 b] e3 (Hb & _ & _ & Hs). cbn [fst snd] in *.
  destruct (Z.ltb_spec r3 0); wp_steps; [lia|]. destruct (decide _) as [->|]; [|unfold EINVAL; lia].
  intros _. destruct Hr1 as [[_ Hr1]|[? _]]; [|lia]. destruct Hr2 as [[_ Hr2]|[? _]]; [|lia].
  destruct (Hy1 (fd q)) as [Hq1 _]. destruct (Hy2 (fd q)) as [Hq2 _].
  rewrite !sent_app, !received_app, Hr1, Hr2, Hs, Hq1, Hq2, Hb. by rewrite !app_nil_r.
Qed.

Lemma send_report_wp version rs p name comment suffix st phrase used total h :
  rs_priv rs = Some p -> r_name p = Some name -> r_comment p = Some comment -> reg_suffix p = PStr suffix ->
  status_phrase st = Some phrase -> 0 <= used < 2 ^ 64 -> 0 <= total < 10 ^ 19 ->
  Z.of_nat (length name + length comment + length suffix) + 80 < 2 ^ 31 ->
  wp (send_report version rs st used total) h (fun r e => 0 <= r -> exists x,
    sent x e = report_text version (report_body p name comment suffix phrase used total) /\
    received x e = str "HTTP/1.1 200 ").
Proof using Hos Hw.
  intros Hp Hn Hc Hs Hph Hu Ht Hlen. unfold send_report, with_rs. rewrite Hp, Hph, Hn, Hc, Hs.
  pose proof (report_body_length p name comment suffix st phrase used total Hph Hu Ht) as [Hb1 Hb2].
  set (body := report_body p name comment suffix phrase used total) in *.
  assert (Hd : (length (dec (Z.of_nat (length body))) <= 10)%nat).
  { apply dec_length; [|lia]. change (10 ^ Z.of_nat 10) with 10000000000. lia. }
  set (header := http_message version ++ dec (Z.of_nat (length body)) ++ crlf ++ crlf).
  assert (Hh : (1 <= length header /\ length header <= length (http_message version) + 14)%nat).
  { unfold header. rewrite !length_app. change (length crlf) with 2%nat. lia. }
  wp_steps. destruct (_ =? 0); [wp_steps; unfold ENOMEM; lia|].
  rewrite (proj2 (Nat.ltb_ge _ _)), (proj2 (Nat.leb_gt _ _)) by lia.
  rewrite (proj2 (Nat.ltb_ge _ _)), (proj2 (Nat.leb_gt _ _)) by lia. wp_steps.
  eapply wp_mono; [apply conn_init_up|]. intros [r1 c1] e1 [He1 Hr1]. cbn [fst snd] in Hr1.
  wp_steps. destruct (Z.ltb_spec r1 0) as [Hneg|Hpos].
  { wp_steps. rewrite (proj2 (Z.ltb_lt _ _) Hneg). wp_steps.
    eapply wp_mono; [apply conn_free_up|]. intros ? e2 _. wp_steps. lia. }
  destruct Hr1 as [[? _]|(-> & Ht1 & Hp1)]; [lia|].
  eapply wp_mono; [by apply conn_connect_up|]. intros [r2 c2] e2 (He2 & Hr2 & Hp2). cbn [fst snd] in *.
  wp_steps. destruct (Z.ltb_spec r2 0) as [Hneg|Hpos2].
  { wp_steps. eapply wp_mono; [apply conn_free_up|]. intros ? e3 _. wp_steps. lia. }
  destruct Hr2 as [?|(-> & Ht2 & q & Hq & Hf)]; [lia|].
  eapply wp_mono; [by apply (converse_wp c2 q header body)|]. intros r3 e3 Hr3. wp_steps.
  eapply wp_mono; [apply conn_free_up|]. intros ? e4 He4. wp_steps. intros H0.
  destruct (Hr3 H0) as [Hs3 Hv3]. exists (fd q). cbn [app].
  rewrite sent_cons, received_cons. cbn [send_step recv_step app].
  rewrite !sent_app, !received_app, Hs3, Hv3, !silent_sent, !silent_received by done. cbn [app].
  rewrite !app_nil_r. split; [|done]. unfold report_text, header. by rewrite <- !app_assoc.
Qed.
End Reports.

(** ** Life of the service *)

(** Initialised, and without a dangling suffix. *)
Definition reg_up (rs : registration_service_handle) (p : registration_service_priv) : Prop :=
  rs_priv rs = Some p /\ worker_up (reg_worker p) /\ reg_suffix p <> PFreed.

(** What the digest and the text of the suffix need of a configuration. *)
Record conf_ok (conf : proxy_conf) (name addr pw : list Z) : Prop := {
  conf_name : reg_name conf = Some name;
  conf_addr : default [] (public_addr conf) = addr;
  conf_pw : password conf = Some pw;
  conf_name_ok : bytes_ok name;
  conf_addr_ok : bytes_ok addr /\ no_nul addr /\ Z.of_nat (length addr) < 2 ^ 31;
  conf_port_ok : is_u16 (port conf);
}.

Section Life.
Context {O : OS}.

Lemma registration_stop_wp rs p h :
  reg_up rs p ->
  wp (registration_service_stop rs) h (fun res _ => exists p',
    reg_up res.2 p' /\ status p' = REGISTRATION_STATUS_OFF).
Proof using.
  intros (Hp & Hw & Hs). unfold registration_service_stop, with_rs. rewrite Hp. wp_steps.
  eapply wp_mono; [by apply worker_wake_up|]. intros [r1 w1] e1 [Hw1 _]. wp_steps.
  eapply wp_mono; [by apply worker_join_up|]. intros [r2 w2] e2 Hw2. wp_steps.
  eexists. by split_and!.
Qed.

Lemma registration_update_wp rs p used total h :
  reg_up rs p ->
  wp (registration_service_update rs used total) h (fun rs' _ => exists p', reg_up rs' p' /\
    if decide (status p = REGISTRATION_STATUS_OFF) then p' = p
    else status p' = (if u64 total <=? u64 used then REGISTRATION_STATUS_BUSY else REGISTRATION_STATUS_READY)
         /\ slots_used p' = u64 used /\ slots_total p' = u64 total
         /\ r_name p' = r_name p /\ r_comment p' = r_comment p /\ reg_suffix p' = reg_suffix p
         /\ public p' = public p).
Proof using.
  intros (Hp & Hw & Hs). unfold registration_service_update, with_rs. rewrite Hp. wp_steps.
  destruct (decide _); wp_steps; [by exists p|].
  eapply wp_mono; [by apply worker_wake_up|]. intros [r1 w1] e1 [Hw1 _]. wp_steps.
  eexists. by split_and!.
Qed.

Lemma registration_start_wp {Hos : OSLaws O} ctx mem rs p conf name addr pw h :
  reg_up rs p -> conf_ok conf name addr pw -> length (Md5.buffer ctx) = 64%nat -> (forall i, is_u8 (mem i)) ->
  (length name <= 50)%nat ->
  wp (registration_service_start ctx mem rs conf) h (fun res _ => exists p',
    rs_priv res.2 = Some p' /\ worker_up (reg_worker p') /\
    (0 <= res.1 -> reg_suffix p' = PStr (suffix_text name addr (port conf)) /\
       r_name p' = Some name /\ r_comment p' = reg_comment conf /\
       public p' = (if decide (pw = str "PUBLIC") then 89 else 78) /\
       status p' = (if decide (status p = REGISTRATION_STATUS_OFF) then REGISTRATION_STATUS_UNKNOWN else status p))).
Proof using.
  intros (Hp & Hw & Hs) [Hn Ha Hpw Hbn (Hba & Hna & Hla) Hport] Hctx Hmem Hl.
  unfold registration_service_start, with_rs. rewrite Hn, Hp, Ha, Hpw. wp_steps.
  destruct (reg_suffix p) eqn:E; [..|done]; wp_steps; (destruct (_ =? 0);
    [wp_steps; eexists; split_and!; [done|done|unfold ENOMEM; simpl; lia]|]);
    rewrite build_suffix_text by done; cbn [reg_worker set_suffix]; wp_steps;
    (eapply wp_mono; [by apply worker_start_up|]); intros [r1 w1] e1 [Hw1 Hr1]; cbn [fst snd] in *;
    (destruct (Z.ltb_spec r1 0); [wp_steps; eexists; split_and!; [done|done|simpl; lia]|]); wp_steps;
    (eapply wp_mono; [by apply worker_wake_up|]); intros [r2 w2] e2 [Hw2 Hr2]; cbn [fst snd] in *;
    (destruct (Z.ltb_spec r2 0); [wp_steps; eexists; split_and!; [done|done|simpl; lia]|]); wp_steps;
    cbn [status set_reg_worker set_suffix]; destruct (decide (status p = REGISTRATION_STATUS_OFF));
    eexists; by split_and!.
Qed.

End Life.

(** *** Locks *)

Section Locking.
Context `{OS} (k : lockset).
Hypothesis Hk : below MReg k.

Lemma locks_reg_stop rs : locks k (registration_service_stop rs) k.
Proof using Hk. unfold registration_service_stop, with_rs. solve_locks. Qed.

Lemma locks_reg_update rs used total : locks k (registration_service_update rs used total) k.
Proof using Hk. unfold registration_service_update, with_rs. solve_locks. Qed.

Lemma locks_reg_start ctx mem rs conf : locks k (registration_service_start ctx mem rs conf) k.
Proof using Hk. unfold registration_service_start, with_rs. solve_locks. Qed.

Lemma locks_reg_init rs : locks k (registration_service_init rs) k.
Proof using Hk. unfold registration_service_init. solve_locks. Qed.

Lemma locks_reg_free rs : locks k (registration_service_free rs) k.
Proof using Hk.
  pose proof (locks_reg_stop rs). unfold registration_service_free, with_rs. solve_locks.
Qed.

Lemma locks_reg_func version rs : locks k (registration_func version rs) k.
Proof using Hk. unfold registration_func, send_report, with_rs. solve_locks. Qed.
End Locking.

#[export] Hint Resolve locks_reg_stop locks_reg_update locks_reg_start locks_reg_init locks_reg_free
  locks_reg_func : locks.

(** ** Properties *)

(** A system on which every host is reached on descriptor 5 and says [msg]. *)
Definition Online (msg : list Z) : OS := fun h c =>
  match c with
  | CGetaddrinfo _ _ _ _ | CSetsockopt _ _ | CBind _ | CConnect _ => returns 0
  | CSocket _ => if decide (5 ∈ open_fds h) then fails EINVAL else returns 5
  | _ => os_answer (OS := Peer msg) h c
  end.

Lemma Online_laws msg : bytes_ok msg -> OSLaws (Online msg).
Proof.
  intros Hm h c. destruct c; try apply (Peer_laws msg Hm); try (right; done); try done.
  unfold os_answer, Online. case_decide; [left; split; [done|unfold EINVAL; simpl; lia]|right; split; [simpl; lia|done]].
Qed.
#[export] Instance Online_whole msg : WholeSends (Online msg).
Proof. intros h x b. done. Qed.
#[export] Instance Online_alloc msg : AllocOK (Online msg).
Proof. intros h. apply (Peer_alloc msg). Qed.


Definition example_reg : registration_service_priv :=
  mkReg (Some (str "Test")) (Some (str "In London")) (PStr (str "&v=1")) 89 true (mkWorker 0 None 0 0) 2 1
        REGISTRATION_STATUS_READY.


(** The text that identifies the proxy: with a name of at most fifty
    characters, a successful [registration_service_start] leaves the suffix
    made of the address, the digest of name, address and salt in upper-case
    hexadecimal, the port and the protocol's version; with a longer name, building
    it writes past the end of its heap buffer. *)
Theorem registration_suffix {O : OS} {Hos : OSLaws O} {Hal : AllocOK O} ctx mem rs p conf name addr pw h :
  reg_up rs p -> conf_ok conf name addr pw ->
  length (Md5.buffer ctx) = 64%nat -> (forall i, is_u8 (mem i)) ->
  ((length name <= 50)%nat -> exists r rs' e p',
     registration_service_start ctx mem rs conf h = (Some (r, rs'), e) /\ rs_priv rs' = Some p' /\
     (0 <= r -> reg_suffix p' = PStr
        (str "&a=" ++ addr ++ str "&d=" ++
         concat (digest_to_hex8_u <$> Md5.Spec.md5 (name ++ addr ++ digest_salt)) ++
         str "&p=" ++ dec (port conf) ++ str "&v=" ++ protocol_version))) /\
  ((50 < length name)%nat -> fst (registration_service_start ctx mem rs conf h) = None).
Proof.
  intros Hup Hc Hctx Hmem. split.
  - intros Hl. destruct (registration_start_wp ctx mem rs p conf name addr pw h Hup Hc Hctx Hmem Hl)
      as ([r rs'] & e & Hr & p' & Hp' & _ & Hok).
    exists r, rs', e, p'. split; [done|]. split; [done|]. intros H0. by apply Hok.
  - intros Hl. destruct Hup as (Hp & _ & Hs). destruct Hc as [Hn _ Hpw _ _ _].
    unfold registration_service_start, with_rs, bind, mutex_lock, emit. rewrite Hn, Hp, Hpw.
    destruct (reg_suffix p); [..|done]; unfold sys; cbn [app];
      (destruct (Z.eqb_spec (a_ret (os_answer (h ++ [ELock false MReg]) CAlloc)) 0) as [E|_];
       [by destruct (Hal (h ++ [ELock false MReg]))|]);
      rewrite build_suffix_overflow by done; reflexivity.
Qed.

Definition example_rs : registration_service_handle :=
  mkRs 0 (Some (mkReg None None PNull 0 true (mkWorker 0 (Some (WORKER_STOPPED, mkThread 0 (Some false) 0)) 0 0)
                  0 0 REGISTRATION_STATUS_UNKNOWN)).
Definition example_conf : proxy_conf :=
  mkConf None None None None None (Some (str "PUBLIC")) (Some (str "Test")) None None 0 0 8100.
Definition example_md5 : Md5.MD5_CTX := Md5.mkCtx 0 0 0 0 0 0 (replicate 64 0xff).

Lemma example_conf_ok : conf_ok example_conf (str "Test") [] (str "PUBLIC").
Proof. split; try reflexivity; [literal|split_and!; [literal|literal|done]|unfold is_u16; simpl; lia]. Qed.

Lemma example_rs_up : exists p, reg_up example_rs p /\ status p = REGISTRATION_STATUS_UNKNOWN.
Proof. eexists. split; [split; [reflexivity|split; [|done]]|reflexivity].
  by exists WORKER_STOPPED, (mkThread 0 (Some false) 0), false. Qed.

Lemma registration_suffix_witness :
  exists r rs' e p',
     registration_service_start (H := Peer []) example_md5 (fun _ => 7) example_rs example_conf [] = (Some (r, rs'), e) /\
     rs_priv rs' = Some p' /\
     (0 <= r -> reg_suffix p' = PStr
        (str "&a=" ++ [] ++ str "&d=" ++
         concat (digest_to_hex8_u <$> Md5.Spec.md5 (str "Test" ++ [] ++ digest_salt)) ++
         str "&p=" ++ dec 8100 ++ str "&v=" ++ protocol_version)).
Proof.
  destruct example_rs_up as (p & Hp & _).
  apply (registration_suffix (O := Peer []) (Hos := Peer_laws [] (Forall_nil_2 _)) example_md5 (fun _ => 7) example_rs p example_conf
           (str "Test") [] (str "PUBLIC") []);
    [exact Hp|exact example_conf_ok|reflexivity|intros i; unfold is_u8; lia|simpl; lia].
Defined.

(** A service that is stopped and then started again stays silent: the
    update before the start is dropped because the status is still off, and the
    start resets the status to unknown, so that the work function sends nothing
    until the next client comes or goes. *)
Theorem registration_restart_silent {O : OS} {Hos : OSLaws O} version ctx mem rs p conf name addr pw used total h :
  reg_up rs p -> conf_ok conf name addr pw ->
  length (Md5.buffer ctx) = 64%nat -> (forall i, is_u8 (mem i)) -> (length name <= 50)%nat ->
  exists r rs' e,
    (let* (_, rs) := registration_service_stop rs in
     let* rs := registration_service_update rs used total in
     registration_service_start ctx mem rs conf) h = (Some (r, rs'), e) /\
    (0 <= r -> forall h', registration_func version rs' h' = (Some tt, [ELock false MReg; EUnlock false MReg])).
Proof.
  intros Hup Hc Hctx Hmem Hl.
  match goal with |- context [?m h = _] => assert (Hwp : wp m h (fun res _ => 0 <= res.1 -> forall h',
    registration_func version res.2 h' = (Some tt, [ELock false MReg; EUnlock false MReg]))) end.
  2: { destruct Hwp as ([r rs'] & e & Hr & Hok). by exists r, rs', e. }
  wp_steps. eapply wp_mono; [by eapply registration_stop_wp|]. intros [r1 rs1] e1 (p1 & Hp1 & Hst1). wp_steps.
  eapply wp_mono; [by eapply registration_update_wp|]. intros rs2 e2 (p2 & Hp2 & Hst2).
  rewrite Hst1, decide_True in Hst2 by done. subst p2.
  eapply wp_mono; [by eapply registration_start_wp|]. intros [r3 rs3] e3 (p3 & Hp3 & _ & Hok) H0 h'.
  cbn [fst snd] in *. destruct (Hok H0) as (_ & _ & _ & _ & Hst3). rewrite Hst1, decide_True in Hst3 by done.
  unfold registration_func, with_rs. rewrite Hp3. unfold bind, mutex_lock, mutex_unlock, emit. rewrite decide_True by done.
  done.
Qed.

Lemma registration_restart_silent_witness :
  exists r rs' e,
    (let* (_, rs) := registration_service_stop (H := Peer []) example_rs in
     let* rs := registration_service_update rs 0 1 in
     registration_service_start (H := Peer []) example_md5 (fun _ => 7) rs example_conf) [] = (Some (r, rs'), e) /\
    (0 <= r -> forall h', registration_func (H := Peer []) (str "1") rs' h' = (Some tt, [ELock false MReg; EUnlock false MReg])).
Proof.
  destruct example_rs_up as (p & Hp & _).
  apply (registration_restart_silent (O := Peer []) (Hos := Peer_laws [] (Forall_nil_2 _)) (str "1") example_md5 (fun _ => 7) example_rs p
           example_conf (str "Test") [] (str "PUBLIC") 0 1 []);
    [exact Hp|exact example_conf_ok|reflexivity|intros i; unfold is_u8; lia|simpl; lia].
Defined.
