(* ===== verification/Log.v ===== *)
(** * Logging (src/src/log.c, src/include/log.h, log_syslog.h, log_eventlog.h)

    A log handle has a threshold and a medium; files, the system log and the
    event log are resources that selecting a medium opens and closes.  The
    operations return the actions they perform on these.  What [fopen],
    [RegisterEventSource] and the clock answer is an argument, as is the text
    that the format and its arguments give.

    The theorems show that switching among the media that own a resource keeps
    exactly the current one's open, that going to the console or to no medium
    closes nothing, that a message is written once to the current medium or not
    at all depending on its level, and which levels go to standard error. *)

From S2P Require Import Prelude Sys.

(** ** Data *)

Inductive LOG_LEVEL : Type :=
| LOG_LEVEL_FATAL | LOG_LEVEL_ERROR | LOG_LEVEL_WARN | LOG_LEVEL_INFO | LOG_LEVEL_DEBUG.

Definition level_num (l : LOG_LEVEL) : Z :=
  match l with
  | LOG_LEVEL_FATAL => 0 | LOG_LEVEL_ERROR => 1 | LOG_LEVEL_WARN => 2
  | LOG_LEVEL_INFO => 3 | LOG_LEVEL_DEBUG => 4
  end.

Inductive LOG_MEDIUM : Type :=
| LOG_MEDIUM_NONE | LOG_MEDIUM_STDOUT | LOG_MEDIUM_FILE | LOG_MEDIUM_SYSLOG | LOG_MEDIUM_EVENTLOG.

#[export] Instance LOG_MEDIUM_eq_dec : EqDecision LOG_MEDIUM.
Proof. solve_decision. Defined.

(** [medium_eventlog.handle] and [medium_file.fp]. *)
Record log_priv : Type := mkLogPriv { eventlog_handle : option nat; file_fp : option nat }.

Record log_handle : Type := mkLog {
  log_priv_ptr : option log_priv;
  log_level : Z;
  log_medium : LOG_MEDIUM;
}.

Definition set_log_priv (l : log_handle) (p : log_priv) : log_handle := mkLog (Some p) (log_level l) (log_medium l).
Definition set_medium (l : log_handle) (m : LOG_MEDIUM) : log_handle := mkLog (log_priv_ptr l) (log_level l) m.

(** What is open. *)
Inductive resource : Type := RFile (fp : nat) | RSyslog | REvent (handle : nat).

#[export] Instance resource_eq_dec : EqDecision resource.
Proof. solve_decision. Defined.

Inductive lact : Type :=
| LOpen (r : resource)                     (* fopen, openlog, RegisterEventSource *)
| LClose (r : resource)                    (* fclose, closelog, DeregisterEventSource *)
| LStdout (text : list Z)
| LStderr (text : list Z)
| LFile (fp : nat) (text : list Z)
| LSyslog (priority : Z) (text : list Z)
| LEvent (handle : option nat) (type ident : Z) (text : list Z).

(** The answers: of [fopen] (a file, or an error number), of
    [RegisterEventSource] (a handle, or NULL with [EVENTLOG_ERRNO]), and the
    text of [strftime].  [env_messages] is, in a build with the event log, the
    identifiers of the messages in the header the build generates; [env_syslog]
    says whether the build has the system log.  Without it, log_syslog.h defines
    [openlog] to return [-ENOTSUP] from the function that calls it, [closelog] and
    [vsyslog] to do nothing, and the priorities to be 0. *)
Record lenv : Type := mkEnv {
  env_fopen : nat + Z;
  env_event : option nat;
  env_event_errno : Z;
  env_time : list Z;
  env_messages : option (LOG_LEVEL -> Z);
  env_syslog : bool;
}.

(** An operation gives its value, the handle and its actions; [None] is a
    dereference of NULL. *)
Abbreviation lres A := (option (A * log_handle * list lact)).

(** ** Operations *)

(** The inner switches that close what medium [m] has open. *)
Definition close_medium (env : lenv) (m : LOG_MEDIUM) (log : log_handle) : option (log_handle * list lact) :=
  match m with
  | LOG_MEDIUM_FILE =>
      match log_priv_ptr log with
      | None => None
      | Some p => Some (match file_fp p with
                        | None => (log, [])
                        | Some fp => (set_log_priv log (mkLogPriv (eventlog_handle p) None), [LClose (RFile fp)])
                        end)
      end
  | LOG_MEDIUM_SYSLOG => Some (log, if env_syslog env then [LClose RSyslog] else [])
  | LOG_MEDIUM_EVENTLOG =>
      match log_priv_ptr log with
      | None => None
      | Some p => Some (match eventlog_handle p with
                        | None => (log, [])
                        | Some h => (set_log_priv log (mkLogPriv None (file_fp p)), [LClose (REvent h)])
                        end)
      end
  | LOG_MEDIUM_NONE | LOG_MEDIUM_STDOUT => Some (log, [])
  end.

(** The branches of the new medium; [NONE] and [STDOUT] store it and only then
    look at the medium to close. *)
Definition select_plain (env : lenv) (log : log_handle) (m : LOG_MEDIUM) : lres Z :=
  let log := set_medium log m in
  match close_medium env (log_medium log) log with
  | None => None
  | Some (log, acts) => Some (0, log, acts)
  end.

Definition select_file (env : lenv) (log : log_handle) : lres Z :=
  match env_fopen env with
  | inr e => Some (- e, log, [])
  | inl fp =>
      match log_priv_ptr log with
      | None => None
      | Some p =>
          let opened := set_log_priv log (mkLogPriv (eventlog_handle p) (Some fp)) in
          match log_medium log with
          | LOG_MEDIUM_FILE =>
              Some (0, opened, LOpen (RFile fp) ::
                      match file_fp p with Some old => [LClose (RFile old)] | None => [] end)
          | m =>
              match close_medium env (match m with LOG_MEDIUM_SYSLOG | LOG_MEDIUM_EVENTLOG => m | _ => LOG_MEDIUM_NONE end)
                                 (set_medium opened LOG_MEDIUM_FILE) with
              | None => None
              | Some (log, acts) => Some (0, log, LOpen (RFile fp) :: acts)
              end
          end
      end
  end.

Definition select_syslog (env : lenv) (log : log_handle) : lres Z :=
  match log_medium log with
  | LOG_MEDIUM_SYSLOG => Some (0, log, [])
  | m =>
      if negb (env_syslog env) then Some (- ENOTSUP, log, []) else
      match close_medium env (match m with LOG_MEDIUM_FILE | LOG_MEDIUM_EVENTLOG => m | _ => LOG_MEDIUM_NONE end)
                         (set_medium log LOG_MEDIUM_SYSLOG) with
      | None => None
      | Some (log, acts) => Some (0, log, LOpen RSyslog :: acts)
      end
  end.

Definition select_eventlog (env : lenv) (log : log_handle) : lres Z :=
  match log_medium log with
  | LOG_MEDIUM_EVENTLOG => Some (0, log, [])
  | m =>
      match log_priv_ptr log with
      | None => None
      | Some p =>
          let log := set_log_priv log (mkLogPriv (env_event env) (file_fp p)) in
          match env_event env with
          | None => Some (env_event_errno env, log, [])
          | Some h =>
              match close_medium env (match m with LOG_MEDIUM_FILE | LOG_MEDIUM_SYSLOG => m | _ => LOG_MEDIUM_NONE end)
                                 (set_medium log LOG_MEDIUM_EVENTLOG) with
              | None => None
              | Some (log, acts) => Some (0, log, LOpen (REvent h) :: acts)
              end
          end
      end
  end.

Definition log_select_medium (env : lenv) (log : log_handle) (m : LOG_MEDIUM) : lres Z :=
  match m with
  | LOG_MEDIUM_NONE | LOG_MEDIUM_STDOUT => select_plain env log m
  | LOG_MEDIUM_FILE => select_file env log
  | LOG_MEDIUM_SYSLOG => select_syslog env log
  | LOG_MEDIUM_EVENTLOG => select_eventlog env log
  end.

Definition log_close (env : lenv) (log : log_handle) : option (log_handle * list lact) :=
  match log_select_medium env log LOG_MEDIUM_NONE with
  | None => None
  | Some (_, log, acts) => Some (log, acts)
  end.

Definition log_free (env : lenv) (log : log_handle) : option (log_handle * list lact) :=
  match log_priv_ptr log with
  | None => Some (log, [])
  | Some _ =>
      match log_close env log with
      | None => None
      | Some (log, acts) => Some (mkLog None (log_level log) (log_medium log), acts)
      end
  end.

(** [alloc] is the answer of [calloc]. *)
Definition log_init (alloc : bool) (log : log_handle) : Z * log_handle :=
  match log_priv_ptr log, alloc with
  | None, false => (- ENOMEM, log)
  | _, _ => (0, mkLog (Some (mkLogPriv None None)) (level_num LOG_LEVEL_INFO) LOG_MEDIUM_NONE)
  end.

Definition log_medium_to_str (m : LOG_MEDIUM) : list Z :=
  match m with
  | LOG_MEDIUM_NONE => str "Void"
  | LOG_MEDIUM_STDOUT => str "Console"
  | LOG_MEDIUM_FILE => str "Log File"
  | LOG_MEDIUM_SYSLOG => str "Syslog"
  | LOG_MEDIUM_EVENTLOG => str "Event Log"
  end.

Definition log_open (env : lenv) (log : log_handle) : lres Z :=
  match log_medium log with
  | LOG_MEDIUM_NONE => log_select_medium env log LOG_MEDIUM_STDOUT
  | _ => Some (0, log, [])
  end.

(** [LOG_CRIT] to [LOG_DEBUG] of syslog.h. *)
Definition SYSLOG_LEVEL (env : lenv) (l : LOG_LEVEL) : Z :=
  if negb (env_syslog env) then 0 else
  match l with
  | LOG_LEVEL_FATAL => 2 | LOG_LEVEL_ERROR => 3 | LOG_LEVEL_WARN => 4
  | LOG_LEVEL_INFO => 6 | LOG_LEVEL_DEBUG => 7
  end.

(** The event log's types, of winnt.h, and identifiers; without the event log
    they are 0. *)
Definition EVENTLOG_LEVEL (env : lenv) (l : LOG_LEVEL) : Z :=
  match env_messages env with
  | None => 0
  | Some _ =>
      match l with
      | LOG_LEVEL_FATAL | LOG_LEVEL_ERROR => 1 | LOG_LEVEL_WARN => 2
      | LOG_LEVEL_INFO | LOG_LEVEL_DEBUG => 4
      end
  end.
Definition EVENTLOG_IDENT (env : lenv) (l : LOG_LEVEL) : Z :=
  match env_messages env with None => 0 | Some ident => ident l end.

Definition log_vprintf (env : lenv) (log : log_handle) (lvl : LOG_LEVEL) (text : list Z) : option (list lact) :=
  if log_level log <? level_num lvl then Some [] else
  match log_medium log with
  | LOG_MEDIUM_NONE => Some []
  | LOG_MEDIUM_STDOUT =>
      Some (if level_num LOG_LEVEL_ERROR <=? level_num lvl then [LStderr text] else [LStdout text])
  | LOG_MEDIUM_FILE =>
      match log_priv_ptr log with
      | None => Some []
      | Some p => match file_fp p with
                  | None => None
                  | Some fp => Some [LFile fp (env_time env ++ str " : " ++ text)]
                  end
      end
  | LOG_MEDIUM_SYSLOG => Some (if env_syslog env then [LSyslog (SYSLOG_LEVEL env lvl) text] else [])
  | LOG_MEDIUM_EVENTLOG =>
      match log_priv_ptr log with
      | None => Some []
      | Some p => Some [LEvent (eventlog_handle p) (EVENTLOG_LEVEL env lvl) (EVENTLOG_IDENT env lvl) (take 255 text)]
      end
  end.

Definition log_printf (env : lenv) (log : log_handle) (lvl : LOG_LEVEL) (text : list Z) : option (list lact) :=
  if log_level log <? level_num lvl then Some [] else log_vprintf env log lvl text.

(** [version] stands for [OPENELP_VERSION]. *)
Definition log_ident (env : lenv) (version : list Z) (log : log_handle) : option (list lact) :=
  log_printf env log LOG_LEVEL_INFO (str "OpenELP " ++ version ++ [10]).

(** [proxy_ident], [proxy_log], [proxy_log_level] and [proxy_log_select_medium] of
    proxy.c, on the log of the proxy; [up] says whether its private data exists. *)
Definition proxy_ident (env : lenv) (version : list Z) (log : log_handle) : option (list lact) :=
  log_ident env version log.

Definition proxy_log (env : lenv) (up : bool) (log : log_handle) (lvl : LOG_LEVEL) (text : list Z)
  : option (list lact) :=
  if negb up || (log_level log <? level_num lvl) then Some [] else log_vprintf env log lvl text.

Definition proxy_log_level (log : log_handle) (lvl : LOG_LEVEL) : log_handle :=
  mkLog (log_priv_ptr log) (level_num lvl) (log_medium log).

Definition proxy_log_select_medium (env : lenv) (version : list Z) (log : log_handle) (m : LOG_MEDIUM) : lres Z :=
  match log_select_medium env log m with
  | None => None
  | Some (r, log, acts) =>
      if negb (bool_decide (m = LOG_MEDIUM_NONE)) && (r =? 0) then
        match log_ident env version log with
        | None => None
        | Some acts' => Some (r, log, acts ++ acts')
        end
      else Some (r, log, acts)
  end.

(** ** Resources *)

(** What is open after some actions. *)
Definition act_step (open : resource -> bool) (a : lact) : resource -> bool :=
  match a with
  | LOpen r => fun x => bool_decide (x = r) || open x
  | LClose r => fun x => negb (bool_decide (x = r)) && open x
  | _ => open
  end.
Definition open_after (open : resource -> bool) (acts : list lact) : resource -> bool :=
  fold_left act_step acts open.

(** The resource of the current medium. *)
Definition owns_res (log : log_handle) (r : resource) : bool :=
  match log_medium log, log_priv_ptr log with
  | LOG_MEDIUM_FILE, Some p => bool_decide (RFile <$> file_fp p = Some r)
  | LOG_MEDIUM_SYSLOG, _ => bool_decide (r = RSyslog)
  | LOG_MEDIUM_EVENTLOG, Some p => bool_decide (REvent <$> eventlog_handle p = Some r)
  | _, _ => false
  end.

(** The private data exists and records exactly the resource of the medium. *)
Definition log_ok (log : log_handle) : Prop :=
  exists p, log_priv_ptr log = Some p /\
    (is_Some (file_fp p) <-> log_medium log = LOG_MEDIUM_FILE) /\
    (is_Some (eventlog_handle p) <-> log_medium log = LOG_MEDIUM_EVENTLOG).

(** The medium and the pointer of the file agree, so that no message goes to a
    NULL file. *)
Definition log_safe (log : log_handle) : Prop :=
  exists p, log_priv_ptr log = Some p /\ (log_medium log = LOG_MEDIUM_FILE -> is_Some (file_fp p)).

(** ** Histories of a log *)

Inductive lop : Type :=
| OSelect (env : lenv) (m : LOG_MEDIUM)
| OProxySelect (env : lenv) (version : list Z) (m : LOG_MEDIUM)
| OOpen (env : lenv)
| OClose (env : lenv)
| OLevel (lvl : LOG_LEVEL)
| OPrintf (env : lenv) (lvl : LOG_LEVEL) (text : list Z).

Definition lop_run (o : lop) (log : log_handle) : option log_handle :=
  match o with
  | OSelect env m => (fun r => r.1.2) <$> log_select_medium env log m
  | OProxySelect env v m => (fun r => r.1.2) <$> proxy_log_select_medium env v log m
  | OOpen env => (fun r => r.1.2) <$> log_open env log
  | OClose env => fst <$> log_close env log
  | OLevel lvl => Some (proxy_log_level log lvl)
  | OPrintf env lvl text => (fun _ => log) <$> log_printf env log lvl text
  end.

Fixpoint lops_run (os : list lop) (log : log_handle) : option log_handle :=
  match os with
  | [] => Some log
  | o :: os => lop_run o log ≫= lops_run os
  end.

(** ** Lemmas *)

Ltac log_cases :=
  repeat match goal with
  | l : log_handle |- _ => destruct l as [[[[?h|] [?f|]]|] ? []]
  | m : LOG_MEDIUM |- _ => destruct m
  | e : lenv |- _ => destruct e as [[?|?] [?|] ? ? ? []]
  end.

Lemma select_safe env log m :
  log_safe log ->
  exists r log' acts, log_select_medium env log m = Some (r, log', acts) /\ log_safe log'.
Proof.
  intros (p & Hp & Hm). unfold log_safe.
  log_cases; simpl in *; simplify_eq; try (destruct (Hm eq_refl) as [? ?]; simplify_eq);
    eexists _, _, _; (split; [reflexivity|]); eexists; (split; [reflexivity|]); simpl; naive_solver.
Qed.

Lemma vprintf_safe env log lvl text :
  log_safe log ->
  exists acts, log_vprintf env log lvl text = Some acts /\
    length acts = (if (log_level log <? level_num lvl) || bool_decide (log_medium log = LOG_MEDIUM_NONE) ||
                      bool_decide (log_medium log = LOG_MEDIUM_SYSLOG) && negb (env_syslog env)
                   then 0%nat else 1%nat).
Proof.
  intros (p & Hp & Hm). unfold log_vprintf. destruct (log_level log <? level_num lvl); [by eexists|].
  rewrite Hp. destruct (log_medium log) eqn:E; simpl.
  - by eexists.
  - by destruct lvl; eexists.
  - destruct (Hm eq_refl) as [fp ->]. by eexists.
  - by destruct (env_syslog env); eexists.
  - by eexists.
Qed.

Lemma printf_vprintf env log lvl text : log_printf env log lvl text = log_vprintf env log lvl text.
Proof. unfold log_printf, log_vprintf. by destruct (_ <? _). Qed.

Lemma lop_safe o log : log_safe log -> exists log', lop_run o log = Some log' /\ log_safe log'.
Proof.
  intros Hs. destruct o as [env m|env v m|env|env|lvl|env lvl text]; cbn [lop_run].
  - destruct (select_safe env log m Hs) as (? & ? & ? & -> & ?). eauto.
  - unfold proxy_log_select_medium.
    destruct (select_safe env log m Hs) as (r & log' & acts & -> & Hs').
    unfold log_ident. rewrite printf_vprintf.
    destruct (vprintf_safe env log' LOG_LEVEL_INFO (str "OpenELP " ++ v ++ [10]) Hs') as (a & -> & _).
    destruct (_ && _); simpl; eauto.
  - destruct (select_safe env log LOG_MEDIUM_STDOUT Hs) as (? & ? & ? & E & ?).
    unfold log_open. rewrite E. destruct (log_medium log); simpl; eauto.
  - destruct (select_safe env log LOG_MEDIUM_NONE Hs) as (? & ? & ? & E & ?).
    unfold log_close. rewrite E. simpl. eauto.
  - eexists; split; [done|]. by destruct Hs as (p & ? & ?); exists p.
  - rewrite printf_vprintf. destruct (vprintf_safe env log lvl text Hs) as (a & -> & _). eauto.
Qed.

(** ** Properties *)

(** C31. The log stays well formed through every history: from an initialised
    handle, any sequence of selections, openings, closings, level changes and
    messages runs without following a NULL pointer, whatever the system answers,
    and ends in a handle whose medium and file pointer agree, so that the next
    message of any level can be written. *)
Theorem log_history_safe alloc log0 log os :
  log_init alloc log0 = (0, log) ->
  exists log', lops_run os log = Some log' /\ log_safe log' /\
    forall env lvl text, is_Some (log_printf env log' lvl text).
Proof.
  intros Hi.
  assert (Hs : log_safe log) by (unfold log_init in Hi; destruct (log_priv_ptr log0), alloc;
    simplify_eq; by eexists).
  clear Hi. revert log Hs. induction os as [|o os IH]; intros log Hs; simpl.
  - exists log. split; [done|]. split; [done|]. intros env lvl text. rewrite printf_vprintf.
    by destruct (vprintf_safe env log lvl text Hs) as (a & -> & _).
  - destruct (lop_safe o log Hs) as (log' & -> & Hs'). exact (IH log' Hs').
Qed.

Lemma log_history_safe_witness :
  exists log log',
    log_init true (mkLog None 0 LOG_MEDIUM_NONE) = (0, log) /\
    lops_run [OSelect (mkEnv (inl 7%nat) None (-95) [] None true) LOG_MEDIUM_FILE;
              OSelect (mkEnv (inr 13) None (-95) [] None true) LOG_MEDIUM_FILE] log = Some log' /\
    log_medium log' = LOG_MEDIUM_FILE /\
    is_Some (log_printf (mkEnv (inr 2) None (-95) [] None true) log' LOG_LEVEL_WARN (str "x")).
Proof.
  destruct (log_history_safe true (mkLog None 0 LOG_MEDIUM_NONE) (mkLog (Some (mkLogPriv None None)) 3 LOG_MEDIUM_NONE)
              [OSelect (mkEnv (inl 7%nat) None (-95) [] None true) LOG_MEDIUM_FILE;
               OSelect (mkEnv (inr 13) None (-95) [] None true) LOG_MEDIUM_FILE] eq_refl) as (log' & H & _ & Hp).
  exists (mkLog (Some (mkLogPriv None None)) 3 LOG_MEDIUM_NONE), log'. split; [reflexivity|]. split; [exact H|].
  split; [|apply Hp]. vm_compute in H. by injection H as <-.
Defined.

(** Switching among the media that own a resource is exact: when the file,
    system log or event source of the current medium is the only one open, then
    after selecting such a medium the one of the then current medium is the only
    one open; a selection that fails leaves the medium and what is open as they were. *)
Theorem log_switch_exact env log m open :
  log_ok log -> (log_medium log = LOG_MEDIUM_SYSLOG -> env_syslog env = true) ->
  m = LOG_MEDIUM_FILE \/ m = LOG_MEDIUM_SYSLOG \/ m = LOG_MEDIUM_EVENTLOG ->
  (forall r, open r = owns_res log r) ->
  (forall fp, env_fopen env = inl fp -> open (RFile fp) = false) ->
  (forall e, env_fopen env = inr e -> e <> 0) -> env_event_errno env <> 0 ->
  exists ret log' acts,
    log_select_medium env log m = Some (ret, log', acts) /\ log_ok log' /\
    (forall r, open_after open acts r = owns_res log' r) /\
    (ret = 0 /\ log_medium log' = m \/
     ret <> 0 /\ log_medium log' = log_medium log /\ acts = []).
Proof.
  intros (p & Hp & Hf & He) Hsl Hm Ho Hfresh Hferr Heerr.
  destruct env as [fo ev ee tm ms sl]; simpl in *.
  destruct log as [lp lv md]; simpl in *; subst lp.
  destruct p as [h f]; simpl in *.
  assert (Hf' : match f with Some _ => md = LOG_MEDIUM_FILE | None => md <> LOG_MEDIUM_FILE end)
    by (destruct f; [by apply Hf|]; intros E; by destruct (proj2 Hf E)).
  assert (He' : match h with Some _ => md = LOG_MEDIUM_EVENTLOG | None => md <> LOG_MEDIUM_EVENTLOG end)
    by (destruct h; [by apply He|]; intros E; by destruct (proj2 He E)).
  clear Hf He.
  destruct Hm as [->|[->| ->]]; destruct md, h, f, fo as [fp|e], ev as [h'|], sl; try congruence; try (discriminate (Hsl eq_refl));
    (eexists _, _, _; split; [reflexivity|]; split;
      [eexists; split; [reflexivity|]; simpl; split; split; intros; naive_solver|]; split;
      [intros r; unfold open_after; simpl; rewrite ?Ho; unfold owns_res; simpl;
       try (pose proof (Hfresh _ eq_refl) as Hfr; rewrite Ho in Hfr; unfold owns_res in Hfr; simpl in Hfr);
       repeat case_bool_decide; naive_solver
      |simpl]);
    first [by left | right; (split; [first [exact Heerr | pose proof (Hferr _ eq_refl); lia | unfold ENOTSUP; lia]|done])].
Qed.

Lemma log_switch_exact_witness :
  exists ret log' acts,
    log_select_medium (mkEnv (inl 4%nat) None (-95) [] None true) (mkLog (Some (mkLogPriv None (Some 3%nat))) 3 LOG_MEDIUM_FILE)
      LOG_MEDIUM_FILE = Some (ret, log', acts) /\ ret = 0 /\
    owns_res log' (RFile 4) = true /\ open_after (fun r => bool_decide (r = RFile 3)) acts (RFile 3) = false.
Proof.
  edestruct (log_switch_exact (mkEnv (inl 4%nat) None (-95) [] None true) (mkLog (Some (mkLogPriv None (Some 3%nat))) 3 LOG_MEDIUM_FILE)
    LOG_MEDIUM_FILE (fun r => bool_decide (r = RFile 3))) as (ret & log' & acts & E & _ & Ho & _).
  - eexists; split; [reflexivity|]. simpl. split; split; first [done | intros []; congruence].
  - done.
  - by left.
  - intros r. unfold owns_res. simpl. repeat case_bool_decide; naive_solver.
  - intros fp. simpl. intros [= <-]. reflexivity.
  - done.
  - done.
  - exists ret, log', acts. split; [exact E|]. rewrite Ho. vm_compute in E. injection E as <- <- <-. done.
Defined.

(** Leaving a medium for the console or for none releases nothing, and
    neither does freeing the log: log_free forgets the private data of a
    well-formed log, while every resource that was open stays open. *)
Theorem log_free_leaks env log open :
  log_ok log ->
  (forall m, m = LOG_MEDIUM_NONE \/ m = LOG_MEDIUM_STDOUT ->
     log_select_medium env log m = Some (0, set_medium log m, [])) /\
  exists log' acts,
    log_free env log = Some (log', acts) /\ log_priv_ptr log' = None /\
    forall r, open_after open acts r = open r.
Proof.
  intros (p & Hp & _). split; [by intros m [->| ->]|].
  unfold log_free. rewrite Hp. eexists _, _. by split.
Qed.

Lemma log_free_leaks_witness :
  let log := mkLog (Some (mkLogPriv None (Some 3%nat))) 3 LOG_MEDIUM_FILE in
  owns_res log (RFile 3) = true /\
  exists log' acts, log_free (mkEnv (inr 2) None (-95) [] None true) log = Some (log', acts) /\
    open_after (owns_res log) acts (RFile 3) = true.
Proof.
  intros log. split; [reflexivity|].
  destruct (log_free_leaks (mkEnv (inr 2) None (-95) [] None true) log (owns_res log)) as (_ & log' & acts & E & _ & Ho).
  - eexists; split; [reflexivity|]. simpl. split; split; first [done | intros []; congruence].
  - exists log', acts. split; [exact E|]. by rewrite Ho.
Defined.

(** Level gating: on a well-formed log a message makes exactly one record
    when its level is within the threshold and there is a medium, and none
    otherwise.  On the console it is whole; every level but the fatal one goes to
    standard error, and the fatal one to standard output. *)
Theorem log_gate env log lvl text :
  log_safe log ->
  exists acts, log_printf env log lvl text = Some acts /\
    length acts = (if (log_level log <? level_num lvl) || bool_decide (log_medium log = LOG_MEDIUM_NONE) ||
                      bool_decide (log_medium log = LOG_MEDIUM_SYSLOG) && negb (env_syslog env)
                   then 0%nat else 1%nat) /\
    (log_medium log = LOG_MEDIUM_STDOUT -> level_num lvl <= log_level log ->
     acts = [match lvl with LOG_LEVEL_FATAL => LStdout text | _ => LStderr text end]).
Proof.
  intros Hs. rewrite printf_vprintf. destruct (vprintf_safe env log lvl text Hs) as (acts & E & Hl).
  exists acts. split; [exact E|]. split; [exact Hl|].
  intros Hm Hle. unfold log_vprintf in E. rewrite Hm, (proj2 (Z.ltb_ge _ _) Hle) in E.
  by destruct lvl; simplify_eq/=.
Qed.

Lemma log_gate_witness :
  exists acts, log_printf (mkEnv (inr 2) None (-95) [] None true) (mkLog (Some (mkLogPriv None None)) 3 LOG_MEDIUM_STDOUT)
                 LOG_LEVEL_FATAL (str "boom") = Some acts /\ acts = [LStdout (str "boom")].
Proof.
  destruct (log_gate (mkEnv (inr 2) None (-95) [] None true) (mkLog (Some (mkLogPriv None None)) 3 LOG_MEDIUM_STDOUT)
              LOG_LEVEL_FATAL (str "boom")) as (acts & E & _ & Hs).
  - eexists; split; [reflexivity|done].
  - exists acts. split; [exact E|]. apply Hs; [done|simpl; lia].
Defined.
