(* ===== verification/StateErr.v ===== *)
(** * Programs with a state that can stop

    The monad of the two main programs, [proxyd.c] and [service.c]: a program of
    type [SE S E A] changes a state and gives a value or stops with an [E], which
    nothing after it undoes. *)

From S2P Require Import Prelude.

Definition SE (S E A : Type) : Type := S -> (A + E) * S.

Section ops.
Context {S E : Type}.

Definition mret {A} (x : A) : SE S E A := fun s => (inl x, s).
Definition mbind {A B} (m : SE S E A) (k : A -> SE S E B) : SE S E B :=
  fun s => match m s with (inl x, s') => k x s' | (inr e, s') => (inr e, s') end.
Definition mstop {A} (e : E) : SE S E A := fun s => (inr e, s).

Lemma mbind_ext {A B} (m : SE S E A) (k k' : A -> SE S E B) s :
  (forall x s, k x s = k' x s) -> mbind m k s = mbind m k' s.
Proof. intros Hk. unfold mbind. destruct (m s) as [[x|e] s']; [apply Hk|done]. Qed.

End ops.

Declare Scope main_scope.
Delimit Scope main_scope with main.
Notation "m ;;; k" := (mbind m (fun _ => k)) (at level 100, k at level 200, right associativity) : main_scope.
Notation "'let+' x ':=' m 'in' k" := (mbind m (fun x => k)) (at level 100, x binder, m at level 200, k at level 200) : main_scope.
