(* ===== verification/Proxyd.v ===== *)
(** * The daemon (src/src/proxyd.c)

    The command line ([parse_args]), the choice of the configuration file, and
    [main]: what it does in which order, given the answers of the proxy's
    operations and of the system, on a POSIX system or on Windows as the build
    says.  The log it switches is that of Log.v.

    The theorems show that options survive being written out and parsed, that at
    most one logging mechanism is ever selected, that flags may be bundled, that
    every path of [main] that opens the proxy also frees it, once and last, that
    the path of the configuration fits its buffer on Windows, and
    which log the daemon is left with when it closes its standard streams. *)

From S2P Require Import Prelude StateErr Sys Log.

(** ** Command line *)

Record proxy_opts : Type := mkOpts {
  config_path : option (list Z);
  log_path : option (list Z);
  opt_debug : bool;
  opt_eventlog : bool;
  opt_foreground : bool;
  opt_syslog : bool;
  opt_quiet : bool;
}.

Definition opts_zero : proxy_opts := mkOpts None None false false false false false.

Definition set_config (o : proxy_opts) (p : list Z) : proxy_opts :=
  mkOpts (Some p) (log_path o) (opt_debug o) (opt_eventlog o) (opt_foreground o) (opt_syslog o) (opt_quiet o).
Definition set_log (o : proxy_opts) (p : list Z) : proxy_opts :=
  mkOpts (config_path o) (Some p) (opt_debug o) (opt_eventlog o) (opt_foreground o) (opt_syslog o) (opt_quiet o).
Definition set_debug (o : proxy_opts) : proxy_opts :=
  mkOpts (config_path o) (log_path o) true (opt_eventlog o) (opt_foreground o) (opt_syslog o) (opt_quiet o).
Definition set_eventlog (o : proxy_opts) : proxy_opts :=
  mkOpts (config_path o) (log_path o) (opt_debug o) true (opt_foreground o) (opt_syslog o) (opt_quiet o).
Definition set_foreground (o : proxy_opts) : proxy_opts :=
  mkOpts (config_path o) (log_path o) (opt_debug o) (opt_eventlog o) true (opt_syslog o) (opt_quiet o).
Definition set_syslog (o : proxy_opts) : proxy_opts :=
  mkOpts (config_path o) (log_path o) (opt_debug o) (opt_eventlog o) (opt_foreground o) true (opt_quiet o).
Definition set_quiet (o : proxy_opts) : proxy_opts :=
  mkOpts (config_path o) (log_path o) (opt_debug o) (opt_eventlog o) (opt_foreground o) (opt_syslog o) true.

(** What the build defines: _WIN32, HAVE_EVENTLOG, HAVE_SYSLOG, OPENELP_VERSION and
    OPENELP_CONFIG_HINT. *)
Class Build : Type := {
  on_windows : bool;
  have_eventlog : bool;
  have_syslog : bool;
  openelp_version : list Z;
  config_path_hint : option (list Z);
}.

(** [exit] with a code after writing to standard output or standard error. *)
Inductive exit_with : Type := ExitOut (code : Z) (text : list Z) | ExitErr (code : Z) (text : list Z).

Section args.
Context `{Build}.

Definition print_usage : list Z :=
  str "OpenELP - Open EchoLink Proxy " ++ openelp_version ++ [10; 10] ++
  str "Usage: openelpd [OPTION...] [CONFIG FILE]" ++ [10; 10] ++
  str "Options:" ++ [10] ++
  str "  -d, --debug    Enable debugging output" ++ [10] ++
  (if have_eventlog then str "  -E             Use Event Log for logging" ++ [10] else []) ++
  (if on_windows then [] else str "  -F             Stay in foreground (don't daemonize)" ++ [10]) ++
  str "  -h, --help     Display this help" ++ [10] ++
  str "  -L <log path>  Log output the given log file" ++ [10] ++
  str "  -q, --quiet    Suppress messages to stdout" ++ [10] ++
  (if have_syslog then str "  -S             Use syslog for logging" ++ [10] else []) ++
  str "  -V, --version  Display version and exit" ++ [10] ++ (if on_windows then [] else [10]).

Definition err_one : exit_with := ExitErr (- EINVAL) (str "ERROR: Only one logging mechanism is allowed" ++ [10]).
Definition err_path : exit_with := ExitErr (- EINVAL) (str "ERROR: Invalid log file path" ++ [10]).
Definition err_config : exit_with := ExitErr (- EINVAL) (str "ERROR: Config path already specified" ++ [10]).
Definition err_flag (c : Z) : exit_with := ExitErr (- EINVAL) (str "ERROR: Invalid flag '" ++ [c] ++ str "'" ++ [10]).
Definition err_option (a : list Z) : exit_with :=
  ExitErr (- EINVAL) (str "ERROR: Invalid option '" ++ a ++ str "'" ++ [10]).

(** The loop over the flags of one argument; [FNext] takes the next argument
    for the path of the log. *)
Inductive flag_res : Type := FDone (o : proxy_opts) | FNext (o : proxy_opts) | FExit (e : exit_with).

Definition is_some {A} (o : option A) : bool := match o with Some _ => true | None => false end.

Fixpoint flags (cs : list Z) (o : proxy_opts) : flag_res :=
  match cs with
  | [] => FDone o
  | c :: cs' =>
      if c =? 100 (* 'd' *) then flags cs' (set_debug o)
      else if have_eventlog && (c =? 69 (* 'E' *)) then
        if is_some (log_path o) || opt_syslog o then FExit err_one else flags cs' (set_eventlog o)
      else if c =? 70 (* 'F' *) then flags cs' (set_foreground o)
      else if c =? 104 (* 'h' *) then FExit (ExitOut 0 print_usage)
      else if c =? 76 (* 'L' *) then
        if opt_eventlog o || opt_syslog o then FExit err_one
        else match cs' with
             | [] => FNext o
             | _ :: _ => FDone (set_log o cs')
             end
      else if c =? 113 (* 'q' *) then flags cs' (set_quiet o)
      else if have_syslog && (c =? 83 (* 'S' *)) then
        if opt_eventlog o || is_some (log_path o) then FExit err_one else flags cs' (set_syslog o)
      else if c =? 86 (* 'V' *) then FExit (ExitOut 0 (openelp_version ++ [10]))
      else FExit (err_flag c)
  end.

Definition long_option (a name : list Z) (o : proxy_opts) : proxy_opts + exit_with :=
  if bool_decide (name = str "debug") then inl (set_debug o)
  else if bool_decide (name = str "help") then inr (ExitOut 0 print_usage)
  else if bool_decide (name = str "quiet") then inl (set_quiet o)
  else if bool_decide (name = str "version") then inr (ExitOut 0 (openelp_version ++ [10]))
  else inr (err_option a).

(** The loop over the arguments after the program's name; 45 is '-'. *)
Fixpoint parse_args (argv : list (list Z)) (o : proxy_opts) : proxy_opts + exit_with :=
  match argv with
  | [] => inl o
  | a :: rest =>
      match a with
      | [] => inr (err_option a)
      | c0 :: (c1 :: cs) as a' =>
          if c0 =? 45 then
            if c1 =? 45 then
              match long_option a cs o with
              | inl o => parse_args rest o
              | inr e => inr e
              end
            else
              match flags (c1 :: cs) o with
              | FDone o => parse_args rest o
              | FExit e => inr e
              | FNext o =>
                  match rest with
                  | [] => inr err_path
                  | p :: rest => parse_args rest (set_log o p)
                  end
              end
          else
            match config_path o with
            | None => parse_args rest (set_config o a)
            | Some _ => inr err_config
            end
      | [_] =>
          match config_path o with
          | None => parse_args rest (set_config o a)
          | Some _ => inr err_config
          end
      end
  end.

Definition config_path_default : list Z := str "ELProxy.conf".

(** On Windows, a hint that does not start with a slash or a drive is taken from the
    directory of the executable, in a buffer of [MAX_PATH] bytes; 92 is the
    backslash, 47 the slash and 58 the colon.  [module] is the answer of
    [GetModuleFileName], empty if it fails. *)
Definition MAX_PATH : Z := 260.

Definition hint_relative (hint : list Z) : bool :=
  negb (nth 0 hint 0 =? 92) && negb (nth 0 hint 0 =? 47) && negb (nth 1 hint 0 =? 58) && negb (nth 2 hint 0 =? 58).

(** The loop that walks back to the last backslash: [n] characters are left. *)
Fixpoint exe_dir (module : list Z) (n : nat) : nat :=
  match n with
  | O => O
  | S m => if nth m module 0 =? 92 then n else exe_dir module m
  end.

Definition hint_path (module hint : list Z) : list Z :=
  take (exe_dir module (length module)) module ++ ((fun b => if b =? 47 then 92 else b) <$> hint).

(** [readable] is the answer of [access]. *)
Definition proxy_config_hint (readable : bool) (module hint : list Z) : list Z :=
  if readable then config_path_default
  else if on_windows && hint_relative hint then
    if Z.of_nat (length module) + Z.of_nat (length hint) + 1 <? MAX_PATH then hint_path module hint
    else config_path_default
  else hint.

Definition main_config (readable : bool) (module : list Z) (o : proxy_opts) : list Z :=
  match config_path o, config_path_hint with
  | Some p, _ => p
  | None, Some hint => proxy_config_hint readable module hint
  | None, None => config_path_default
  end.

End args.

(** ** Main *)

(** [SIGINT], [SIGUSR1] and [SIGTERM]. *)
Definition SIGINT : Z := 2.
Definition SIGUSR1 : Z := 10.
Definition SIGTERM : Z := 15.

(** The handler of signals: the new value of [sentinel], and whether the proxy is
    shut down. *)
Definition graceful_shutdown (signum : Z) (sentinel : bool) : bool * bool :=
  (((signum =? SIGTERM) || (signum =? SIGINT)) || sentinel,
   (signum =? SIGTERM) || (signum =? SIGINT) || (signum =? SIGUSR1)).

(** The handler of console events on Windows: the same, and whether the event was
    handled. *)
Definition CTRL_C_EVENT : Z := 0.

Definition console_shutdown (ctrl_type : Z) (sentinel : bool) : bool * bool * bool :=
  if ctrl_type =? CTRL_C_EVENT then (true, true, true) else (sentinel, false, false).

(** [AHandler] installs the handler of a signal; [AKey] waits for a key. *)
Inductive mact : Type :=
| AHandler (signum : Z) | AKey
| AInit | ALoad (path : list Z) | AOpen | AFork | AUmask | ASetsid | AChdir
| AClose (fd : Z) | AStart | AProcess | AWait | AFree
| AStderr (text : list Z)
| ALog (a : lact).

(** The answers of the operations of the proxy and of the system.  [an_signal]
    is the number of runs after which the loop finds the sentinel set.  On Windows,
    [an_module] is the path of the executable, [an_handler] the error of
    [SetConsoleCtrlHandler], if any, and [an_console] says whether the program has
    the console for itself. *)
Record answers : Type := mkAnswers {
  an_init : Z; an_load : Z; an_open : Z; an_fork : Z;
  an_setsid : Z; an_setsid_errno : Z; an_chdir : Z; an_chdir_errno : Z;
  an_start : Z; an_process : nat -> Z; an_signal : option nat;
  an_readable : bool;
  an_strerror : Z -> list Z;
  an_log : lenv;
  an_module : list Z; an_handler : option Z; an_console : bool;
}.

(** How main ends: it returns a code, exits over its arguments, exits as the
    parent of the daemon, still runs, or follows a NULL pointer. *)
Inductive mend : Type := MReturn (code : Z) | MExit (e : exit_with) | MParent | MRunning | MCrash.

Record mst : Type := mkSt { m_log : log_handle; m_acts : list mact }.

Abbreviation MM := (SE mst mend).
Definition macts (l : list mact) : MM unit := fun s => (inl tt, mkSt (m_log s) (m_acts s ++ l)).
Definition mact1 (a : mact) : MM unit := macts [a].

Local Open Scope main_scope.

Section main.
Context `{Build} (an : answers).

(** proxy_log, proxy_log_level and proxy_log_select_medium on [ph]. *)
Definition m_plog (lvl : LOG_LEVEL) (text : list Z) : MM unit :=
  fun s => match proxy_log (an_log an) true (m_log s) lvl text with
           | None => (inr MCrash, s)
           | Some acts => (inl tt, mkSt (m_log s) (m_acts s ++ map ALog acts))
           end.
Definition m_level (lvl : LOG_LEVEL) : MM unit :=
  fun s => (inl tt, mkSt (proxy_log_level (m_log s) lvl) (m_acts s)).
Definition m_select (m : LOG_MEDIUM) : MM Z :=
  fun s => match proxy_log_select_medium (an_log an) openelp_version (m_log s) m with
           | None => (inr MCrash, s)
           | Some (r, log, acts) => (inl r, mkSt log (m_acts s ++ map ALog acts))
           end.
(** proxy_init, which initialises the log of the proxy among others. *)
Definition m_init : MM Z :=
  fun s => (inl (an_init an),
            mkSt (if an_init an <? 0 then m_log s else snd (log_init true (m_log s))) (m_acts s ++ [AInit])).

(** The handlers that are installed first. *)
Definition handlers : list mact :=
  if on_windows then
    match an_handler an with
    | Some e => [AStderr (str "Failed to set signal handler (" ++ dec e ++ str ")" ++ [10])]
    | None => []
    end
  else [AHandler SIGINT; AHandler SIGTERM; AHandler SIGUSR1].

(** proxyd_exit; on Windows a program that fails in a console of its own waits. *)
Definition farewell (ret : Z) : list mact :=
  AFree :: if on_windows && negb (ret =? 0) && an_console an then [AKey] else [].

Definition m_exit (ret : Z) : MM unit := macts (farewell ret) ;;; mstop (MReturn ret).

Definition failure (what : list Z) (ret : Z) : list Z :=
  what ++ str " (" ++ dec (- ret) ++ str "): " ++ an_strerror an (- ret) ++ [10].
Definition fatal (what : list Z) (ret : Z) : MM unit := m_plog LOG_LEVEL_FATAL (failure what ret) ;;; m_exit ret.

Definition m_switch (m : LOG_MEDIUM) (what : list Z) : MM unit :=
  let+ ret := m_select m in
  if negb (ret =? 0) then m_plog LOG_LEVEL_ERROR (failure what ret) else mret tt.

Definition log_level_of (o : proxy_opts) : LOG_LEVEL := if opt_debug o then LOG_LEVEL_DEBUG else LOG_LEVEL_INFO.

(** The branch that daemonizes. *)
Definition daemonize (o : proxy_opts) : MM unit :=
  mact1 AFork ;;;
  (if an_fork an <? 0 then m_plog LOG_LEVEL_FATAL (str "Error forking daemon process" ++ [10]) ;;; m_exit (an_fork an)
   else if 0 <? an_fork an then mstop MParent else mret tt) ;;;
  match log_path o with
  | Some _ => m_switch LOG_MEDIUM_FILE (str "Failed to open log file") ;;; m_level (log_level_of o)
  | None =>
      if opt_syslog o then m_switch LOG_MEDIUM_SYSLOG (str "Failed to activate syslog") ;;; m_level (log_level_of o)
      else mret tt
  end ;;;
  mact1 AUmask ;;;
  mact1 ASetsid ;;;
  (if an_setsid an <? 0 then
     m_plog LOG_LEVEL_FATAL (failure (str "Process error") (- an_setsid_errno an)) ;;; m_exit (an_setsid_errno an)
   else mret tt) ;;;
  mact1 AChdir ;;;
  (if an_chdir an <? 0 then
     m_plog LOG_LEVEL_FATAL (failure (str "Failed to change dir") (- an_chdir_errno an)) ;;; m_exit (an_chdir_errno an)
   else mret tt) ;;;
  mact1 (AClose 0) ;;; mact1 (AClose 1) ;;; mact1 (AClose 2).

(** The branch that stays in the foreground; 34 is the quotation mark. *)
Definition stay (o : proxy_opts) : MM unit :=
  match log_path o with
  | Some p =>
      m_plog LOG_LEVEL_INFO (str "Switching log to file " ++ [34] ++ p ++ [34; 10]) ;;;
      m_switch LOG_MEDIUM_FILE (str "Failed to open log file")
  | None =>
      if opt_syslog o then
        m_plog LOG_LEVEL_INFO (str "Switching log to syslog" ++ [10]) ;;;
        m_switch LOG_MEDIUM_SYSLOG (str "Failed to activate syslog")
      else if opt_eventlog o then
        m_plog LOG_LEVEL_INFO (str "Switching log to eventlog" ++ [10]) ;;;
        m_switch LOG_MEDIUM_EVENTLOG (str "Failed to activate eventlog")
      else mret tt
  end.

(** There is no daemon on Windows. *)
Definition settle (o : proxy_opts) : MM unit := if on_windows || opt_foreground o then stay o else daemonize o.

(** The dispatch loop at its [k]-th test, for at most [fuel] runs; it stops with
    [MRunning] when it still serves then, or waits for a signal that never comes. *)
Definition sentinel_at (k : nat) : bool :=
  match an_signal an with Some s => (s <=? k)%nat | None => false end.

Fixpoint dispatch (fuel k : nat) : MM Z :=
  if sentinel_at k then mret 0 else
  match fuel with
  | O => mstop MRunning
  | S fuel =>
      m_plog LOG_LEVEL_DEBUG (str "Starting a processing run..." ++ [10]) ;;;
      mact1 AProcess ;;;
      (let ret := an_process an k in
       if ret =? 0 then dispatch fuel (S k)
       else if ret =? - EINTR then
         mact1 AWait ;;; (if is_some (an_signal an) then mret 0 else mstop MRunning)
       else if ret <? 0 then m_plog LOG_LEVEL_FATAL (failure (str "Message processing failure") ret) ;;; mret ret
       else mret ret)
  end.

Definition unless (ret : Z) (m : MM unit) : MM unit := if ret <? 0 then m else mret tt.

Definition main (fuel : nat) (argv : list (list Z)) : MM unit :=
  match parse_args argv opts_zero with
  | inr e => mstop (MExit e)
  | inl o =>
      let path := main_config (an_readable an) (an_module an) o in
      macts handlers ;;;
      let+ ret := m_init in
      unless ret (mact1 (AStderr (failure (str "Failed to initialize proxy") ret)) ;;; m_exit ret) ;;;
      m_level (if opt_quiet o then LOG_LEVEL_WARN else log_level_of o) ;;;
      let+ ret := m_select LOG_MEDIUM_STDOUT in
      unless ret (mact1 (AStderr (failure (str "Failed to switch log to STDOUT") ret)) ;;; m_exit ret) ;;;
      mact1 (ALoad path) ;;;
      unless (an_load an) (fatal (str "Failed to load config from '" ++ path ++ str "'") (an_load an)) ;;;
      mact1 AOpen ;;;
      unless (an_open an) (fatal (str "Failed to open proxy") (an_open an)) ;;;
      settle o ;;;
      mact1 AStart ;;;
      unless (an_start an) (fatal (str "Failed to start proxy") (an_start an)) ;;;
      m_plog LOG_LEVEL_INFO (str "Ready." ++ [10]) ;;;
      let+ ret := (if an_start an =? 0 then dispatch fuel 0 else mret (an_start an)) in
      m_plog LOG_LEVEL_INFO (str "Shutting down..." ++ [10]) ;;;
      m_exit ret
  end.

End main.

(** The state in which main starts: [ph] is zero. *)
Definition main_zero : mst := mkSt (mkLog None 0 LOG_MEDIUM_NONE) [].

(** ** Lemmas on the command line *)

Section args_lemmas.
Context `{Build}.

Definition path_ok (p : list Z) : Prop :=
  match p with [] => False | [_] => True | c :: _ => c <> 45 end.

(** The options that a command line can express. *)
Definition opts_valid (o : proxy_opts) : Prop :=
  (match log_path o with Some _ => opt_eventlog o = false /\ opt_syslog o = false
                       | None => opt_eventlog o && opt_syslog o = false end) /\
  (opt_eventlog o = true -> have_eventlog = true) /\
  (opt_syslog o = true -> have_syslog = true) /\
  match config_path o with Some p => path_ok p | None => True end.

(** A command line for some options. *)
Definition args_of (o : proxy_opts) : list (list Z) :=
  (if opt_debug o then [str "-d"] else []) ++
  (if opt_eventlog o then [str "-E"] else []) ++
  (if opt_foreground o then [str "-F"] else []) ++
  match log_path o with Some p => [str "-L"; p] | None => [] end ++
  (if opt_quiet o then [str "-q"] else []) ++
  (if opt_syslog o then [str "-S"] else []) ++
  match config_path o with Some p => [p] | None => [] end.

Ltac flag_case := match goal with |- context [if ?b then _ else _] => destruct b eqn:? end.

Lemma flags_valid cs o :
  opts_valid o ->
  match flags cs o with
  | FDone o' => opts_valid o'
  | FNext o' => opts_valid o' /\ opt_eventlog o' = false /\ opt_syslog o' = false
  | FExit _ => True
  end.
Proof.
  revert o. induction cs as [|c cs IH]; intros o Hv; [done|]. cbn [flags].
  destruct Hv as (Hl & He & Hs & Hc).
  flag_case; [by apply IH; split_and!|].
  flag_case.
  { flag_case; [done|]. apply IH. apply andb_prop in Heqb0 as [? _]. apply orb_false_elim in Heqb1 as [Hn Hy].
    unfold opts_valid; simpl. destruct (log_path o); [done|]. by rewrite Hy. }
  flag_case; [by apply IH; split_and!|].
  flag_case; [done|].
  flag_case.
  { flag_case; [done|]. apply orb_false_elim in Heqb4 as [Hn Hy].
    by destruct cs; [split|split_and!]. }
  flag_case; [by apply IH; split_and!|].
  flag_case.
  { flag_case; [done|]. apply IH. apply andb_prop in Heqb5 as [? _]. apply orb_false_elim in Heqb6 as [Hn Hy].
    unfold opts_valid; simpl. destruct (log_path o); [done|]. by rewrite Hn. }
  by flag_case.
Qed.

Lemma set_log_valid o p :
  opts_valid o -> opt_eventlog o = false -> opt_syslog o = false -> opts_valid (set_log o p).
Proof. intros (Hl & He & Hs & Hc) ??. by split_and!. Qed.

Lemma set_config_valid o p : opts_valid o -> path_ok p -> opts_valid (set_config o p).
Proof. intros (Hl & He & Hs & Hc) ?. by split_and!. Qed.

Lemma long_option_valid a n o o' : opts_valid o -> long_option a n o = inl o' -> opts_valid o'.
Proof.
  intros (Hl & He & Hs & Hc). unfold long_option. repeat case_bool_decide; intros; simplify_eq; by split_and!.
Qed.

Lemma parse_valid argv o o' : opts_valid o -> parse_args argv o = inl o' -> opts_valid o'.
Proof.
  remember (length argv) as n eqn:Hn. revert argv o Hn.
  induction n as [n IH] using lt_wf_ind; intros argv o -> Hv.
  assert (IH' : forall rest o1, (length rest < length argv)%nat -> opts_valid o1 ->
    parse_args rest o1 = inl o' -> opts_valid o') by (intros; by eapply IH). clear IH.
  destruct argv as [|a rest]; cbn [parse_args]; [by intros [= <-]|].
  destruct a as [|c0 [|c1 cs]]; [done| |].
  - destruct (config_path o); [done|]. apply IH'; [simpl; lia|]. by apply set_config_valid.
  - destruct (c0 =? 45) eqn:E0.
    + destruct (c1 =? 45).
      * destruct (long_option _ _ _) as [o1|] eqn:E; [|done].
        apply IH'; [simpl; lia|]. by eapply long_option_valid.
      * pose proof (flags_valid (c1 :: cs) o Hv) as Hf. destruct (flags _ _); [| |done].
        -- apply IH'; [simpl; lia|done].
        -- destruct rest as [|p rest]; [done|]. apply IH'; [simpl; lia|].
           destruct Hf as (? & ? & ?). by apply set_log_valid.
    + destruct (config_path o); [done|]. apply IH'; [simpl; lia|].
      apply set_config_valid; [done|]. simpl. lia.
Qed.

Lemma parse_flag c rest o o' :
  c <> 45 -> flags [c] o = FDone o' -> parse_args ([45; c] :: rest) o = parse_args rest o'.
Proof. intros Hc Hf. cbn [parse_args]. replace (c =? 45) with false by (symmetry; lia). by rewrite Hf. Qed.

Lemma parse_log p rest o :
  opt_eventlog o = false -> opt_syslog o = false ->
  parse_args ([45; 76] :: p :: rest) o = parse_args rest (set_log o p).
Proof. intros He Hs. cbn -[set_log]. rewrite He, Hs. destruct have_eventlog; done. Qed.

Lemma flags_no_next cs o o' : (76 ∉ cs) -> flags cs o <> FNext o'.
Proof.
  revert o. induction cs as [|c cs IH]; intros o Hn; [done|].
  apply not_elem_of_cons in Hn as [Hc Hn]. cbn [flags].
  replace (c =? 76) with false by (symmetry; lia).
  repeat flag_case; auto; discriminate.
Qed.

(** Flags that are not the one with a value are read one after the other. *)
Lemma flags_app cs ds o :
  (76 ∉ cs) ->
  flags (cs ++ ds) o = match flags cs o with FDone o' => flags ds o' | r => r end.
Proof.
  revert o. induction cs as [|c cs IH]; intros o Hn; [done|].
  apply not_elem_of_cons in Hn as [Hc Hn]. cbn [flags app].
  replace (c =? 76) with false by (symmetry; lia).
  repeat flag_case; by rewrite ?IH.
Qed.

Lemma exe_dir_spec module n :
  (n <= length module)%nat ->
  let d := exe_dir module n in
  (d <= n)%nat /\ (take d module = [] \/ last (take d module) = Some 92) /\ (92 ∉ drop d (take n module)).
Proof.
  induction n as [|n IH]; intros Hn; cbn [exe_dir]; [split_and!; [done|by left|set_solver]|].
  destruct (lookup_lt_is_Some_2 module n) as [x Hx]; [lia|]. rewrite (nth_lookup_Some _ _ _ _ Hx).
  rewrite (take_S_r _ _ _ Hx). destruct (Z.eqb_spec x 92) as [->|Hne].
  - split_and!; [done|right; by rewrite (take_S_r _ _ _ Hx), last_snoc|].
    rewrite drop_ge by (rewrite length_app, length_take; simpl; lia). set_solver.
  - destruct IH as (Hle & Hd & Hi); [lia|]. split_and!; [lia|done|].
    rewrite drop_app_le by (rewrite length_take; lia). set_solver.
Qed.

End args_lemmas.

(** ** Lemmas on main *)

(** Neither initialises nor frees the proxy. *)
Definition inner (a : mact) : Prop := a <> AInit /\ a <> AFree.

(** From a well-formed log, [m] keeps the log well formed and neither
    initialises nor frees; if it ends the program it does not crash, and if it
    returns it has freed the proxy once, and last if this is not Windows. *)
Definition well `{Build} {A} (m : MM A) : Prop :=
  forall s, log_safe (m_log s) ->
  exists l, m_acts (m s).2 = m_acts s ++ l /\ log_safe (m_log (m s).2) /\
    match (m s).1 with
    | inl _ => Forall inner l
    | inr (MReturn _) => exists l' post, l = l' ++ AFree :: post /\ Forall inner (l' ++ post) /\ (on_windows = false -> post = [])
    | inr (MParent | MRunning) => Forall inner l
    | inr (MExit _ | MCrash) => False
    end.

Create HintDb main.

Section main_lemmas.
Context `{Build} (an : answers).

Lemma well_ret {A} (x : A) : well (mret x).
Proof. intros s Hs. exists []. rewrite app_nil_r. split_and!; [done|exact Hs|by apply Forall_nil]. Qed.

Lemma well_bind {A B} (m : MM A) (k : A -> MM B) : well m -> (forall x, well (k x)) -> well (mbind m k).
Proof.
  intros Hm Hk s Hs. destruct (Hm s Hs) as (l & Ha & Hs1 & Hr). unfold mbind.
  destruct (m s) as [[x|e] s1]; simpl in *; [|by exists l].
  destruct (Hk x s1 Hs1) as (l2 & Ha2 & Hs2 & Hr2).
  exists (l ++ l2). rewrite Ha2, Ha, (assoc_L (++)). split; [done|]. split; [done|].
  destruct (k x s1) as [[y|[]] s2]; simpl in *; try (rewrite Forall_app; tauto); try done.
  destruct Hr2 as (l' & post & -> & Hin & ?). exists (l ++ l'), post.
  rewrite <- !(assoc_L (++)), (Forall_app _ l). by split_and!.
Qed.

Lemma well_acts l : Forall inner l -> well (macts l).
Proof. intros Hl s Hs. exists l. simpl. by split_and!. Qed.

Lemma well_act a : inner a -> well (mact1 a).
Proof. intros Ha. apply well_acts. by apply Forall_singleton. Qed.

Lemma inner_log acts : Forall inner (map ALog acts).
Proof. induction acts; constructor; done. Qed.

Lemma well_plog lvl text : well (m_plog an lvl text).
Proof.
  intros s Hs. unfold m_plog, proxy_log. simpl.
  destruct (log_level (m_log s) <? level_num lvl); simpl.
  - exists []. rewrite app_nil_r. split_and!; [done|exact Hs|by apply Forall_nil].
  - destruct (vprintf_safe (an_log an) (m_log s) lvl text Hs) as (acts & -> & _).
    exists (map ALog acts). split; [done|]. split; [done|apply inner_log].
Qed.

Lemma well_level lvl : well (m_level lvl).
Proof. intros s (p & ? & ?). exists []. rewrite app_nil_r. simpl. split_and!; [done| |done]. by exists p. Qed.

Lemma well_select m : well (m_select an m).
Proof.
  intros s Hs. unfold m_select.
  destruct (lop_safe (OProxySelect (an_log an) openelp_version m) _ Hs) as (log' & E & Hs'). simpl in E.
  destruct (proxy_log_select_medium _ _ _ _) as [[[r log2] acts]|]; simplify_eq/=.
  exists (map ALog acts). simpl. split_and!; [done|done|apply inner_log].
Qed.

Lemma farewell_inner ret : exists post,
  farewell an ret = AFree :: post /\ Forall inner post /\ (on_windows = false -> post = []).
Proof.
  unfold farewell. eexists. split; [done|]. split; [|by intros ->].
  destruct (_ && _); repeat constructor; discriminate.
Qed.

Lemma well_exit {A} ret (k : unit -> MM A) : well (mbind (m_exit an ret) k).
Proof.
  intros s Hs. destruct (farewell_inner ret) as (post & E & Hp & Hw). exists (AFree :: post).
  unfold m_exit, mbind, macts, mstop. rewrite E. simpl. split_and!; [done|done|]. by exists [], post.
Qed.

Lemma well_exit_end ret : well (m_exit an ret).
Proof.
  intros s Hs. destruct (farewell_inner ret) as (post & E & Hp & Hw). exists (AFree :: post).
  unfold m_exit, mbind, macts, mstop. rewrite E. simpl. split_and!; [done|done|]. by exists [], post.
Qed.

Lemma well_stop {A} (e : mend) : e = MParent \/ e = MRunning -> well (@mstop _ _ A e).
Proof. intros [->| ->] s Hs; exists []; rewrite app_nil_r; simpl; by split_and!. Qed.

End main_lemmas.

#[export] Hint Resolve well_ret well_act well_plog well_level well_select well_exit well_exit_end : main.
#[export] Hint Extern 1 (inner _) => split; discriminate : main.

Ltac well_step :=
  match goal with
  | |- well (mbind _ _) => apply well_bind; [|intros ?]
  | |- well (if ?b then _ else _) => destruct b
  | |- well (match ?o with Some _ => _ | None => _ end) => destruct o
  | |- well (mstop _) => apply well_stop; auto
  | |- well (unless _ _) => unfold unless
  | |- well (fatal _ _ _) => unfold fatal
  | |- well (m_switch _ _ _) => unfold m_switch
  | |- well _ => auto with main
  end.
Ltac solve_well := repeat (progress well_step).

Section main_parts.
Context `{Build} (an : answers).

Lemma well_daemonize o : well (daemonize an o).
Proof. unfold daemonize. solve_well. Qed.

Lemma well_stay o : well (stay an o).
Proof. unfold stay. solve_well. Qed.

Lemma well_settle o : well (settle an o).
Proof. unfold settle. destruct (on_windows || _); [apply well_stay|apply well_daemonize]. Qed.

Lemma well_dispatch fuel k : well (dispatch an fuel k).
Proof.
  revert k. induction fuel as [|fuel IH]; intros k; cbn [dispatch]; solve_well.
Qed.

#[local] Hint Resolve well_settle well_dispatch : main.

(** What never comes to an end of its own but ends the program. *)
Definition ends {A} (m : MM A) : Prop := forall s, exists e, (m s).1 = inr e.

Lemma ends_bind {A B} (m : MM A) (k : A -> MM B) : (forall x, ends (k x)) -> ends (mbind m k).
Proof. intros Hk s. unfold mbind. destruct (m s) as [[x|e] s']; [apply Hk|by exists e]. Qed.

Lemma ends_exit ret : ends (m_exit an ret).
Proof. intros s. by exists (MReturn ret). Qed.

(** Main after proxy_init. *)
Lemma main_init fuel argv o s0 :
  parse_args argv opts_zero = inl o ->
  exists k, main an fuel argv s0 =
    (if an_init an <? 0
     then (inr (MReturn (an_init an)),
           mkSt (m_log s0) (m_acts s0 ++ handlers an ++ [AInit] ++
             [AStderr (failure an (str "Failed to initialize proxy") (an_init an))] ++ farewell an (an_init an)))
     else k (mkSt (snd (log_init true (m_log s0))) (m_acts s0 ++ handlers an ++ [AInit]))) /\
    well k /\ ends k.
Proof.
  intros Ho. unfold main. rewrite Ho. eexists. split.
  - unfold mbind at 1, macts at 1, mbind at 1, m_init at 1. cbn [m_log m_acts]. destruct (an_init an <? 0) eqn:E.
    + unfold unless at 1. rewrite E. unfold mbind at 1 2, mact1 at 1, m_exit at 1, mbind at 1, macts. simpl. by rewrite <- !(assoc_L (++)).
    + unfold unless at 1. rewrite E. unfold mbind at 1. simpl. rewrite <- !(assoc_L (++)). reflexivity.
  - split; [solve_well|]. repeat (apply ends_bind; intros ?). apply ends_exit.
Qed.

Lemma handlers_inner : Forall inner (handlers an).
Proof. unfold handlers. repeat case_match; repeat constructor; discriminate. Qed.

End main_parts.

(** ** Properties *)

Section properties.
Context `{Build}.

(** Whatever the arguments, options that are accepted are consistent: at most
    one of log file, system log and event log, each only when the build has it,
    and a configuration path that is not empty and not a flag. *)
Theorem parse_args_consistent argv o :
  parse_args argv opts_zero = inl o -> opts_valid o.
Proof. apply parse_valid. by split_and!. Qed.

(** C34. Options survive the command line: the arguments written for any
    consistent options are parsed into exactly those options. *)
Theorem parse_args_roundtrip o :
  opts_valid o -> parse_args (args_of o) opts_zero = inl o.
Proof.
  intros (Hl & He & Hs & Hc). unfold args_of. destruct o as [c l d e f y q]; simpl in *.
  assert (Hcfg : forall o, config_path o = None ->
    parse_args (match c with Some p => [p] | None => [] end) o
      = inl (match c with Some p => set_config o p | None => o end)).
  { intros o Ho. destruct c as [[|c0 [|c1 cs]]|]; simpl in *; try done; rewrite Ho; [done|].
    by replace (c0 =? 45) with false by (symmetry; lia). }
  change (str "-d") with [45; 100]. change (str "-E") with [45; 69]. change (str "-F") with [45; 70].
  change (str "-L") with [45; 76]. change (str "-q") with [45; 113]. change (str "-S") with [45; 83].
  destruct d, f, q, e, y, l; try (destruct Hl; congruence); try discriminate; cbn [app];
    repeat (erewrite parse_flag; [|done|by simpl; rewrite ?He, ?Hs, ?andb_false_r by done]);
    try (rewrite parse_log by done; repeat (erewrite parse_flag; [|done|by simpl; rewrite ?andb_false_r]));
    (rewrite Hcfg; [by destruct c|done]).
Qed.

(** Flags may be bundled: giving several flags in one argument is the same as
    giving them in two, on every outcome, as long as the first of them does not
    contain the flag that takes a path. *)
Theorem parse_args_bundle a b rest o :
  a <> [] -> b <> [] -> (76 ∉ a) -> head a <> Some 45 -> head b <> Some 45 ->
  parse_args ((45 :: a ++ b) :: rest) o = parse_args ((45 :: a) :: (45 :: b) :: rest) o.
Proof.
  intros Ha Hb Hn Ha' Hb'. destruct a as [|c a]; [done|]. destruct b as [|d b]; [done|].
  assert (c <> 45 /\ d <> 45) as [Hc Hd] by (split; intros ->; done).
  change ((c :: a) ++ d :: b) with (c :: (a ++ d :: b)).
  cbn [parse_args]. replace (45 =? 45) with true by done.
  replace (c =? 45) with false by (symmetry; lia). replace (d =? 45) with false by (symmetry; lia).
  change (c :: a ++ d :: b) with ((c :: a) ++ d :: b). rewrite flags_app by done.
  destruct (flags (c :: a) o) as [o'|o'|e] eqn:E; [done| |done].
  by destruct (flags_no_next (c :: a) o o' Hn).
Qed.

(** C35. Main cleans up: whatever the arguments, the answers and the number of
    runs, it follows no NULL pointer of the log; if it returns, it has
    initialised the proxy once, after installing its handlers, and freed it once,
    as its last action except for waiting for a key on Windows; if it
    exits over its arguments it has done nothing. *)
Theorem main_frees an fuel argv :
  let '(r, s) := main an fuel argv main_zero in
  match r with
  | inr (MReturn _) => exists l post, m_acts s = handlers an ++ AInit :: l ++ AFree :: post /\
      Forall inner (handlers an ++ l ++ post) /\ (on_windows = false -> post = [])
  | inr (MExit _) => m_acts s = []
  | inr (MParent | MRunning) => exists l, m_acts s = handlers an ++ AInit :: l /\ Forall inner (handlers an ++ l)
  | inr MCrash | inl _ => False
  end.
Proof.
  destruct (parse_args argv opts_zero) as [o|e] eqn:Hp; [|by unfold main; rewrite Hp].
  destruct (main_init an fuel argv o main_zero Hp) as (k & -> & Hw & He). pose proof (handlers_inner an) as Hh.
  destruct (an_init an <? 0).
  { destruct (farewell_inner an (an_init an)) as (post & -> & Hpost & Hwin). eexists [_], post. split; [done|].
    split; [|done]. rewrite !Forall_app. split_and!; [done| |done]. by repeat constructor. }
  set (s0 := mkSt _ _). destruct (Hw s0) as (l & Ha & _ & Hr); [by eexists|]. destruct (He s0) as (e & Hend).
  destruct (k s0) as [r s]. simpl in *. subst r. rewrite <- (assoc_L (++)) in Ha. simpl in Ha.
  destruct e; try done; [|exists l; by rewrite Forall_app|exists l; by rewrite Forall_app].
  destruct Hr as (l' & post & -> & Hin & Hwin). exists l', post. rewrite Ha, Forall_app. by split_and!.
Qed.

(** A daemon that was given neither a log file nor the system log keeps
    logging to the console it has closed: right after closing descriptors 0, 1
    and 2 it starts the proxy and writes its messages to standard error, whose
    descriptor any socket may have by then. *)
Theorem main_daemon_console an fuel argv o :
  parse_args argv opts_zero = inl o ->
  on_windows = false -> opt_foreground o = false -> log_path o = None -> opt_syslog o = false -> opt_quiet o = false ->
  an_init an = 0 -> an_load an = 0 -> an_open an = 0 -> an_fork an = 0 ->
  0 <= an_setsid an -> 0 <= an_chdir an -> an_start an = 0 ->
  exists pre post,
    m_acts (main an fuel argv main_zero).2
    = pre ++ [AClose 0; AClose 1; AClose 2; AStart; ALog (LStderr (str "Ready." ++ [10]))] ++ post.
Proof.
  intros Hp Hwin Hfg Hlp Hsl Hq Hi Hl Ho Hf Hs Hc Hst.
  unfold main, settle, handlers. rewrite Hp, Hq, Hwin, Hfg, Hl, Ho, Hst. cbn [orb]. unfold daemonize, log_level_of. rewrite Hf, Hlp, Hsl.
  replace (an_setsid an <? 0) with false by (symmetry; lia).
  replace (an_chdir an <? 0) with false by (symmetry; lia).
  set (tail := fun _ : unit => mbind (if 0 =? 0 then _ else _) _).
  assert (Hw : well (tail tt)) by (unfold tail; simpl; eauto using well_bind, well_dispatch, well_plog, well_exit_end).
  clearbody tail. unfold m_init, mbind, mact1, macts, m_plog, m_level, m_select, unless, mret. rewrite Hi.
  destruct (opt_debug o); simpl;
    match goal with |- context [tail tt ?s] => destruct (Hw s) as (l & -> & _); [by eexists|] end;
    by eexists [_; _; _; _; _; _; _; _; _; _; _], l.
Qed.

(** On Windows a relative hint names a file in the executable's directory: what
    is built is that directory, up to and with its last backslash, followed by the
    hint with backslashes for slashes, and it fits its buffer with the terminator; if it would not,
    the default is taken. *)
Theorem config_hint_fits module hint :
  on_windows = true -> hint_relative hint = true ->
  let r := proxy_config_hint false module hint in
  r = config_path_default \/
  exists dir file, module = dir ++ file /\ (92 ∉ file) /\ (dir = [] \/ last dir = Some 92) /\
    r = dir ++ ((fun b => if b =? 47 then 92 else b) <$> hint) /\ Z.of_nat (length r) + 1 <= MAX_PATH.
Proof.
  intros Hw Hr. unfold proxy_config_hint. rewrite Hw, Hr. cbn [andb].
  destruct (Z.ltb_spec (Z.of_nat (length module) + Z.of_nat (length hint) + 1) MAX_PATH) as [Hl|]; [right|by left].
  destruct (exe_dir_spec module (length module) ltac:(done)) as (Hle & Hd & Hn).
  exists (take (exe_dir module (length module)) module), (drop (exe_dir module (length module)) module).
  rewrite take_drop, firstn_all in *. split_and!; [done|done|done|done|].
  unfold hint_path. rewrite length_app, length_take, length_fmap. lia.
Qed.

End properties.

(** ** Witnesses *)

(** A build with the system log, as on Linux. *)
Definition Linux : Build := {|
  on_windows := false; have_eventlog := false; have_syslog := true;
  openelp_version := str "0.9.3"; config_path_hint := None |}.

(** Everything succeeds and a signal comes after one run. *)
Definition all_well : answers :=
  mkAnswers 0 0 0 0 1 0 0 0 0 (fun _ => 0) (Some 1%nat) true (fun _ => []) (mkEnv (inl 3%nat) None (-95) [] None true) [] None false.

Lemma parse_args_consistent_witness :
  parse_args (H := Linux) [str "-dL"; str "out.log"; str "my.conf"] opts_zero
    = inl (mkOpts (Some (str "my.conf")) (Some (str "out.log")) true false false false false) /\
  opts_valid (H := Linux) (mkOpts (Some (str "my.conf")) (Some (str "out.log")) true false false false false).
Proof.
  split; [reflexivity|].
  apply (parse_args_consistent (H := Linux) [str "-dL"; str "out.log"; str "my.conf"]). reflexivity.
Defined.

Lemma parse_args_roundtrip_witness :
  parse_args (H := Linux) (args_of (mkOpts (Some (str "my.conf")) None true false true true false)) opts_zero
    = inl (mkOpts (Some (str "my.conf")) None true false true true false).
Proof. apply (parse_args_roundtrip (H := Linux)). vm_compute. split_and!; done. Defined.

Lemma parse_args_bundle_witness :
  parse_args (H := Linux) [str "-dFS"] opts_zero = parse_args (H := Linux) [str "-dF"; str "-S"] opts_zero.
Proof.
  apply (parse_args_bundle (H := Linux) (str "dF") (str "S") [] opts_zero); vm_compute; try done.
  intros Hin. by repeat (apply elem_of_cons in Hin as [Hin|Hin]; [discriminate|]); apply elem_of_nil in Hin.
Defined.

Lemma main_daemon_console_witness :
  exists pre post,
    m_acts (main (H := Linux) all_well 5 [] main_zero).2
    = pre ++ [AClose 0; AClose 1; AClose 2; AStart; ALog (LStderr (str "Ready." ++ [10]))] ++ post.
Proof. apply (main_daemon_console (H := Linux) all_well 5 [] opts_zero); try reflexivity; simpl; lia. Defined.

(** A Windows build that keeps its configuration in a directory beside the executable. *)
Definition Windows : Build := {|
  on_windows := true; have_eventlog := true; have_syslog := false;
  openelp_version := str "0.9.3"; config_path_hint := Some (str "../etc/ELProxy.conf") |}.

Definition example_exe : list Z := str "C:" ++ [92] ++ str "OpenELP" ++ [92] ++ str "bin" ++ [92] ++ str "openelpd.exe".

Lemma config_hint_fits_witness :
  let r := proxy_config_hint (H := Windows) false example_exe (str "../etc/ELProxy.conf") in
  r = config_path_default \/
  exists dir file, example_exe = dir ++ file /\ (92 ∉ file) /\ (dir = [] \/ last dir = Some 92) /\
    r = dir ++ ((fun b => if b =? 47 then 92 else b) <$> str "../etc/ELProxy.conf") /\ Z.of_nat (length r) + 1 <= MAX_PATH.
Proof. apply (config_hint_fits (H := Windows) example_exe (str "../etc/ELProxy.conf")); reflexivity. Defined.
