(* ===== verification/Service.v ===== *)
(** * The Windows service (src/src/service.c)

    The service executable: its command line, installing and uninstalling the
    service, and [service_main] with the handler of the controls.  The answers of
    Windows and of the proxy's operations are arguments, as in Proxyd.v.

    Windows calls the handler in a thread of its own.  [service_ctrl_handler] is
    the list of the handler's steps, and between any two actions of [service_main]
    a schedule says how many of them are performed.  Windows sends the stop
    control only to a service whose last reported state is SERVICE_RUNNING.

    The theorems give the states that are reported and in which order, show that
    a service that is told to stop stops, with the proxy freed once, where the
    configuration is looked for and which paths overflow the buffer, that
    installing and uninstalling close the handles they open, and that a stop that
    comes while the service ends by itself makes the handler follow a NULL
    pointer. *)

From S2P Require Import Prelude StateErr Sys Log.
Local Open Scope main_scope.

Module Service.

(** ** The configuration's path *)

Definition MAX_PATH : nat := 260.
Definition backslash : Z := 92.
Definition conf_name : list Z := backslash :: str "ELProxy.conf".

(** [while (ret >= 0 && config_path[ret] != '\\') ret--;] from [ret = r]. *)
Fixpoint scan (path : list Z) (r : nat) : Z :=
  if nth r path 0 =? backslash then Z.of_nat r
  else match r with O => -1 | S r => scan path r end.

Inductive config : Type := CfgPath (path : list Z) | CfgInvalid | CfgOverflow.

(** From the path of the executable: [strcpy] writes the name and its terminator
    into the buffer that holds it. *)
Definition service_config (path : list Z) : config :=
  let ret := scan path (length path) in
  let ret := if 0 <? ret then scan path (Z.to_nat (ret - 1)) else ret in
  if ret <? 0 then CfgInvalid
  else if (MAX_PATH <? Z.to_nat ret + length conf_name + 1)%nat then CfgOverflow
  else CfgPath (take (Z.to_nat ret) path ++ conf_name).

(** ** Reports *)

Inductive svc_state : Type := SERVICE_START_PENDING | SERVICE_RUNNING | SERVICE_STOP_PENDING | SERVICE_STOPPED.

#[export] Instance svc_state_eq_dec : EqDecision svc_state.
Proof. solve_decision. Defined.

Record SERVICE_STATUS : Type := mkStatus {
  dwCurrentState : svc_state;
  dwWin32ExitCode : Z;
  dwServiceSpecificExitCode : Z;
  dwWaitHint : Z;
  dwControlsAccepted : Z;
  dwCheckPoint : Z;
}.

Definition ERROR_SERVICE_SPECIFIC_ERROR : Z := 1066.
Definition SERVICE_ACCEPT_STOP : Z := 1.
Definition NO_ERROR : Z := 0.

(** The report and the new value of [check_point]. *)
Definition service_report_status (state : svc_state) (exit_code wait_hint check_point : Z) : SERVICE_STATUS * Z :=
  let counts := negb (bool_decide (state = SERVICE_RUNNING \/ state = SERVICE_STOPPED)) in
  (mkStatus state (if exit_code =? 0 then 0 else ERROR_SERVICE_SPECIFIC_ERROR) (u32 exit_code) wait_hint
     (if bool_decide (state = SERVICE_START_PENDING) then 0 else SERVICE_ACCEPT_STOP)
     (if counts then check_point else 0),
   if counts then u32 (check_point + 1) else check_point).

(** ** The service *)

(** The steps of the handler. *)
Inductive hstep : Type := HLog | HReport | HShutdown | HSentinel.

Definition SERVICE_CONTROL_STOP : Z := 1.

Definition service_ctrl_handler (ctrl : Z) : list hstep :=
  if ctrl =? SERVICE_CONTROL_STOP then [HLog; HReport; HShutdown; HSentinel] else [].

Inductive sact : Type :=
| VRegister | VReport (s : SERVICE_STATUS) | VInit | VLoad (path : list Z) | VOpen | VStart | VProcess | VFree
| VShutdown                                  (* proxy_shutdown *)
| VLog (a : lact).

(** The answers: of [RegisterServiceCtrlHandler], of [GetModuleFileName] (a path,
    or failure with [GetLastError]), of the operations of the proxy, and how many
    steps of the handler follow each action of the service. *)
Record answers : Type := mkAnswers {
  an_register : bool;
  an_module : option (list Z);
  an_last_error : Z;
  an_init : Z; an_load : Z; an_open : Z; an_start : Z;
  an_process : nat -> Z;
  an_schedule : nat -> nat;
  an_strerror : Z -> list Z;
  an_version : list Z;
  an_log : lenv;
}.

(** The service ends with a NULL pointer followed or a buffer overrun, or still
    runs. *)
Inductive send : Type := SCrash | SOverflow | SRunning.

(** [ph] (its log, and whether its private data exists), [sentinel], the last
    report, [check_point], what the handler still has to do, the number of
    actions of the service, and the actions of both threads. *)
Record sv : Type := mkSv {
  v_log : log_handle; v_priv : bool; v_sentinel : bool;
  v_state : option svc_state; v_check : Z;
  v_handler : list hstep; v_tick : nat; v_acts : list sact;
}.

Abbreviation SM := (SE sv send).

Definition set_v_log (s : sv) (x : log_handle) : sv :=
  mkSv x (v_priv s) (v_sentinel s) (v_state s) (v_check s) (v_handler s) (v_tick s) (v_acts s).
Definition set_v_priv (s : sv) (x : bool) : sv :=
  mkSv (v_log s) x (v_sentinel s) (v_state s) (v_check s) (v_handler s) (v_tick s) (v_acts s).
Definition set_v_sentinel (s : sv) (x : bool) : sv :=
  mkSv (v_log s) (v_priv s) x (v_state s) (v_check s) (v_handler s) (v_tick s) (v_acts s).
Definition set_v_handler (s : sv) (x : list hstep) : sv :=
  mkSv (v_log s) (v_priv s) (v_sentinel s) (v_state s) (v_check s) x (v_tick s) (v_acts s).
Definition next_tick (s : sv) : sv :=
  mkSv (v_log s) (v_priv s) (v_sentinel s) (v_state s) (v_check s) (v_handler s) (S (v_tick s)) (v_acts s).
Definition add_acts (s : sv) (l : list sact) : sv :=
  mkSv (v_log s) (v_priv s) (v_sentinel s) (v_state s) (v_check s) (v_handler s) (v_tick s) (v_acts s ++ l).
Definition add_report (s : sv) (state : svc_state) (exit_code wait_hint : Z) : sv :=
  let '(st, check) := service_report_status state exit_code wait_hint (v_check s) in
  mkSv (v_log s) (v_priv s) (v_sentinel s) (Some state) check (v_handler s) (v_tick s) (v_acts s ++ [VReport st]).

Section service.
Context (an : answers).

Definition plog (lvl : LOG_LEVEL) (text : list Z) : SM unit := fun s =>
  match proxy_log (an_log an) (v_priv s) (v_log s) lvl text with
  | None => (inr SCrash, s)
  | Some acts => (inl tt, add_acts s (map VLog acts))
  end.

(** *** The handler *)

Definition handler_step (h : hstep) : SM unit :=
  match h with
  | HLog => plog LOG_LEVEL_INFO (str "Received shutdown signal.")
  | HReport => fun s => (inl tt, add_report s SERVICE_STOP_PENDING NO_ERROR 0)
  | HShutdown => fun s => if v_priv s then (inl tt, add_acts s [VShutdown]) else (inr SCrash, s)
  | HSentinel => fun s => (inl tt, set_v_sentinel s true)
  end.

(** The next step of the handler; when it is not running, Windows may call it. *)
Definition handler : SM unit := fun s =>
  let todo :=
    match v_handler s with
    | [] => if decide (v_state s = Some SERVICE_RUNNING) then service_ctrl_handler SERVICE_CONTROL_STOP else []
    | l => l
    end in
  match todo with
  | [] => (inl tt, s)
  | h :: todo => handler_step h (set_v_handler s todo)
  end.

Fixpoint handlers (n : nat) : SM unit :=
  match n with O => mret tt | S n => handler ;;; handlers n end.

(** *** The service's own thread *)

(** After each action come some steps of the handler. *)
Definition tick : SM unit := fun s => handlers (an_schedule an (v_tick s)) (next_tick s).

Definition act (a : sact) : SM unit := (fun s => (inl tt, add_acts s [a])) ;;; tick.
Definition log (lvl : LOG_LEVEL) (text : list Z) : SM unit := plog lvl text ;;; tick.
Definition report (state : svc_state) (exit_code wait_hint : Z) : SM unit :=
  (fun s => (inl tt, add_report s state exit_code wait_hint)) ;;; tick.

(** proxy_init, which creates the private data and the log. *)
Definition init : SM Z :=
  (fun s => (inl tt, if an_init an <? 0 then s
                     else set_v_priv (set_v_log s (snd (log_init true (v_log s)))) true)) ;;;
  act VInit ;;; mret (an_init an).

Definition free : SM unit := (fun s => (inl tt, set_v_priv s false)) ;;; act VFree.

Definition level (lvl : LOG_LEVEL) : SM unit := fun s => (inl tt, set_v_log s (proxy_log_level (v_log s) lvl)).

Definition select (m : LOG_MEDIUM) : SM Z := fun s =>
  match proxy_log_select_medium (an_log an) (an_version an) (v_log s) m with
  | None => (inr SCrash, s)
  | Some (r, l, acts) => (tick ;;; mret r) (add_acts (set_v_log s l) (map VLog acts))
  end.

Definition failure (what : list Z) (ret : Z) : list Z :=
  what ++ str " (" ++ dec (- ret) ++ str "): " ++ an_strerror an (- ret) ++ [10].

(** The main dispatch loop, for at most [fuel] runs. *)
Fixpoint dispatch (fuel k : nat) (ret : Z) : SM Z := fun s =>
  if negb (ret =? 0) || v_sentinel s then mret ret s else
  match fuel with
  | O => mstop SRunning s
  | S fuel =>
      (log LOG_LEVEL_DEBUG (str "Starting a processing run..." ++ [10]) ;;;
       act VProcess ;;;
       let+ ret :=
         (if an_process an k <? 0 then
            if an_process an k =? - EINTR then mret 0
            else log LOG_LEVEL_FATAL (failure (str "Message processing failure") (an_process an k)) ;;;
                 mret (an_process an k)
          else mret (an_process an k)) in
       dispatch fuel (S k) ret) s
  end.

(** From the initialised proxy to [service_main_exit]. *)
Definition serve (fuel : nat) (path : list Z) : SM Z :=
  act (VLoad path) ;;;
  if an_load an <? 0 then
    log LOG_LEVEL_FATAL (failure (str "Failed to load config from '" ++ path ++ str "'") (an_load an)) ;;; mret (an_load an)
  else
  act VOpen ;;;
  if an_open an <? 0 then
    log LOG_LEVEL_FATAL (failure (str "Failed to open proxy") (an_open an)) ;;; mret (an_open an)
  else
  act VStart ;;;
  if an_start an <? 0 then
    log LOG_LEVEL_FATAL (failure (str "Failed to start proxy") (an_start an)) ;;; mret (an_start an)
  else
  log LOG_LEVEL_INFO (str "Ready." ++ [10]) ;;;
  report SERVICE_RUNNING NO_ERROR 0 ;;;
  let+ ret := dispatch fuel 0 (an_start an) in
  log LOG_LEVEL_INFO (str "Shutting down..." ++ [10]) ;;;
  mret ret.

Definition body (fuel : nat) (lvl : LOG_LEVEL) : SM Z :=
  level lvl ;;;
  let+ ret := select LOG_MEDIUM_EVENTLOG in
  if ret <? 0 then mret ret else
  match an_module an with
  | None =>
      log LOG_LEVEL_FATAL (str "Failed to get current executable path (" ++ dec (an_last_error an) ++ str ")" ++ [10]) ;;;
      mret (- an_last_error an)
  | Some path =>
      match service_config path with
      | CfgOverflow => mstop SOverflow
      | CfgInvalid => mret (- EINVAL)
      | CfgPath path => serve fuel path
      end
  end.

Definition log_level_of (argv : list (list Z)) : LOG_LEVEL :=
  match argv with
  | _ :: a :: _ => if bool_decide (a = str "-d" \/ a = str "--debug") then LOG_LEVEL_DEBUG else LOG_LEVEL_INFO
  | _ => LOG_LEVEL_INFO
  end.

Definition service_main (fuel : nat) (argv : list (list Z)) : SM unit :=
  (fun s => (inl tt, set_v_priv (set_v_log s (mkLog None 0 LOG_MEDIUM_NONE)) false)) ;;;
  act VRegister ;;;
  if negb (an_register an) then mret tt else
  report SERVICE_START_PENDING NO_ERROR 1000 ;;;
  let+ ret := init in
  let+ ret := (if ret <? 0 then mret ret
               else let+ ret := body fuel (log_level_of argv) in free ;;; mret ret) in
  report SERVICE_STOPPED ret 0.

End service.

(** The process before [service_main]. *)
Definition sv_zero : sv := mkSv (mkLog None 0 LOG_MEDIUM_NONE) false false None 1 [] 0 [].

(** ** Installing and the command line *)

Inductive sc_handle : Type := HManager | HService.

#[export] Instance sc_handle_eq_dec : EqDecision sc_handle.
Proof. solve_decision. Defined.

(** The answers of Windows: the path that [GetModuleFileName] gives, if it
    succeeds; whether [OpenSCManager] and
    [CreateService] or [OpenService] succeed, the values of
    [ChangeServiceConfig2] and [DeleteService], and [GetLastError]. *)
Record scm : Type := mkScm {
  sc_module : option (list Z); sc_manager : bool; sc_service : bool;
  sc_describe : Z; sc_delete : Z; sc_error : Z;
}.

(** The arguments of [CreateService] that are not NULL, and their constants of
    winsvc.h and winnt.h. *)
Record creation : Type := mkCreation {
  cr_name : list Z; cr_display : list Z; cr_access : Z; cr_type : Z; cr_start : Z; cr_error : Z;
  cr_path : list Z; cr_dependencies : list Z;
}.
Definition SERVICE_CHANGE_CONFIG : Z := 2.
Definition SERVICE_WIN32_OWN_PROCESS : Z := 16.
Definition SERVICE_DEMAND_START : Z := 3.
Definition SERVICE_ERROR_NORMAL : Z := 1.

Definition service_name : list Z := str "OpenELP".

Definition service_creation (exe_path : list Z) : creation :=
  mkCreation service_name service_name SERVICE_CHANGE_CONFIG SERVICE_WIN32_OWN_PROCESS SERVICE_DEMAND_START
    SERVICE_ERROR_NORMAL exe_path (str "netman" ++ [0; 0]).

Inductive iact : Type :=
| IOpen (h : sc_handle) | IClose (h : sc_handle) | ICreate (c : creation) | IDescribe (text : list Z) | IDelete.

Section install.
Context (a : scm).

Definition service_install : Z * list iact :=
  match sc_module a with
  | None => (sc_error a, [])
  | Some exe_path =>
      if negb (sc_manager a) then (sc_error a, [])
      else if negb (sc_service a) then
        (- sc_error a, [IOpen HManager; ICreate (service_creation exe_path); IClose HManager])
      else (if negb (sc_describe a =? 1) then - sc_error a else 0,
            [IOpen HManager; ICreate (service_creation exe_path); IOpen HService;
             IDescribe (str "Open Source EchoLink Proxy"); IClose HService; IClose HManager])
  end.

Definition service_uninstall : Z * list iact :=
  if negb (sc_manager a) then (sc_error a, [])
  else if negb (sc_service a) then (sc_error a, [IOpen HManager; IClose HManager])
  else (if sc_delete a =? 0 then - sc_error a else 0,
        [IOpen HManager; IOpen HService; IDelete; IClose HService; IClose HManager]).

Definition usage : list Z := str "Usage: openelp_service.exe [install|uninstall|-d]" ++ [10].

Definition int_text (z : Z) : list Z := if z <? 0 then str "-" ++ dec (- z) else dec z.

(** What is written to standard output, or to standard error, and the exit code;
    [dispatched] is the answer of [StartServiceCtrlDispatcher], which runs the
    service. *)
Inductive text : Type := TOut (l : list Z) | TErr (l : list Z) | TNone.

Definition main (dispatched : bool) (argv : list (list Z)) : text * Z * list iact :=
  match argv with
  | _ :: _ :: _ :: _ => (TOut usage, -1, [])
  | [_; arg] =>
      if bool_decide (arg = str "install") then
        let '(ret, acts) := service_install in
        if negb (ret =? 0) then
          (TErr (str "Failed to install service '" ++ service_name ++ str "' (" ++ int_text (- ret) ++ str ")" ++ [10]), -2, acts)
        else (TOut (str "Successfully installed service '" ++ service_name ++ str "'" ++ [10]), 0, acts)
      else if bool_decide (arg = str "uninstall") then
        let '(ret, acts) := service_uninstall in
        if negb (ret =? 0) then
          (TErr (str "Failed to uninstall service '" ++ service_name ++ str "' (" ++ int_text (- ret) ++ str ")" ++ [10]), -2, acts)
        else (TOut (str "Successfully removed service '" ++ service_name ++ str "'" ++ [10]), 0, acts)
      else if bool_decide (arg = str "--help") then (TOut usage, 0, [])
      else (TOut usage, -1, [])
  | _ => (TNone, if dispatched then 0 else -1, [])
  end.

End install.

(** The handles open after some actions, the last opened first. *)
Definition open_step (l : list sc_handle) (a : iact) : list sc_handle :=
  match a with
  | IOpen h => h :: l
  | IClose h => match l with h' :: l' => if decide (h = h') then l' else l | [] => [] end
  | _ => l
  end.

(** ** Phases *)

(** How far the service and the handler are: what has been reported, what the
    handler has to do and whether [sentinel] is set. *)
Inductive phase : Type :=
| Unreported                                                    (* nothing reported *)
| Starting | Running | Called | Pending | Shut | Signalled      (* before SERVICE_STOPPED *)
| Unstarted | Failed | FailedCalled | Late                      (* after it, without a stop *)
| EndPending | EndShut | EndSignalled.                          (* after it, with one *)

Definition reported (p : phase) : list svc_state :=
  match p with
  | Unreported => []
  | Starting => [SERVICE_START_PENDING]
  | Running | Called => [SERVICE_START_PENDING; SERVICE_RUNNING]
  | Pending | Shut | Signalled => [SERVICE_START_PENDING; SERVICE_RUNNING; SERVICE_STOP_PENDING]
  | Unstarted => [SERVICE_START_PENDING; SERVICE_STOPPED]
  | Failed | FailedCalled => [SERVICE_START_PENDING; SERVICE_RUNNING; SERVICE_STOPPED]
  | Late => [SERVICE_START_PENDING; SERVICE_RUNNING; SERVICE_STOPPED; SERVICE_STOP_PENDING]
  | EndPending | EndShut | EndSignalled =>
      [SERVICE_START_PENDING; SERVICE_RUNNING; SERVICE_STOP_PENDING; SERVICE_STOPPED]
  end.

Definition todo (p : phase) : list hstep :=
  match p with
  | Called | FailedCalled => [HReport; HShutdown; HSentinel]
  | Pending | Late | EndPending => [HShutdown; HSentinel]
  | Shut | EndShut => [HSentinel]
  | _ => []
  end.

Definition signalled (p : phase) : bool := match p with Signalled | EndSignalled => true | _ => false end.

(** A step of the handler, with the proxy alive. *)
Definition advance (p : phase) : phase :=
  match p with
  | Running => Called | Called => Pending | Pending => Shut | Shut => Signalled
  | FailedCalled => Late | EndShut => EndSignalled
  | p => p
  end.

(** The report of SERVICE_STOPPED. *)
Definition stop (p : phase) : phase :=
  match p with
  | Starting => Unstarted | Running => Failed | Called => FailedCalled
  | Pending => EndPending | Shut => EndShut | Signalled => EndSignalled
  | p => p
  end.

Definition unstopped (p : phase) : bool :=
  match p with Starting | Running | Called | Pending | Shut | Signalled => true | _ => false end.

(** Is [proxy_shutdown] next? *)
Definition shuts (p : phase) : bool := match p with Pending | Late | EndPending => true | _ => false end.

Definition states (l : list sact) : list svc_state :=
  omap (fun a => match a with VReport st => Some (dwCurrentState st) | _ => None end) l.

Record at_phase (p : phase) (s : sv) : Prop := {
  at_states : states (v_acts s) = reported p;
  at_state : v_state s = last (reported p);
  at_todo : v_handler s = todo p;
  at_sentinel : v_sentinel s = signalled p;
}.

Definition is_report (a : sact) : Prop := match a with VReport _ => True | _ => False end.

(** Before [proxy_init], while the proxy exists, and after [proxy_free]. *)
Inductive mode : Type := Before | Live | Freed.

#[export] Instance mode_eq_dec : EqDecision mode.
Proof. solve_decision. Defined.

Definition in_mode (m : mode) (s : sv) : Prop :=
  match m with
  | Before => v_priv s = false /\ (VFree ∉ v_acts s)
  | Live => v_priv s = true /\ log_safe (v_log s) /\ (VFree ∉ v_acts s)
  | Freed => v_priv s = false /\
      exists l l', v_acts s = l ++ VFree :: l' /\ (VFree ∉ l) /\ Forall is_report l'
  end.

Definition holds (m : mode) (p : phase) (t : nat) (s : sv) : Prop :=
  at_phase p s /\ in_mode m s /\ v_tick s = t.

(** ** Steps of the handler *)

Lemma states_app l l' : states (l ++ l') = states l ++ states l'.
Proof. apply omap_app. Qed.

Lemma states_log acts : states (map VLog acts) = [].
Proof. induction acts; [done|]. simpl. done. Qed.

Lemma free_not_log acts : VFree ∉ map VLog acts.
Proof. intros (a & ? & _)%list_elem_of_fmap. done. Qed.

Lemma add_nil s : add_acts s [] = s.
Proof. destruct s. unfold add_acts. simpl. by rewrite app_nil_r. Qed.

Section lemmas.
Context (an : answers).

(** Quiet actions: neither a report nor the end of the proxy. *)
Lemma holds_acts m p t s l :
  m <> Freed -> holds m p t s -> states l = [] -> (VFree ∉ l) -> holds m p t (add_acts s l).
Proof using.
  intros Hm ([Hs Hl Hh Hg] & Hmo & Ht) Hq Hf. split; [split; simpl; [|done..]|split; [|done]].
  - by rewrite states_app, Hq, app_nil_r.
  - destruct m; simpl in *; [| |done]; rewrite elem_of_app; naive_solver.
Qed.

(** A message leaves everything but the actions; once the proxy is freed it is
    not written. *)
Lemma plog_ok lvl text m p t s :
  holds m p t s -> exists s', plog an lvl text s = (inl tt, s') /\ holds m p t s'.
Proof.
  intros Hs. unfold plog, proxy_log. destruct (v_priv s) eqn:Hp; cbn [negb orb].
  - assert (m = Live) as ->.
    { destruct Hs as (_ & Hm & _). destruct m; [|done|]; simpl in Hm; destruct Hm; congruence. }
    assert (exists acts, (if log_level (v_log s) <? level_num lvl then Some []
                          else log_vprintf (an_log an) (v_log s) lvl text) = Some acts) as [acts ->].
    { destruct (log_level (v_log s) <? level_num lvl); [by eexists|].
      destruct Hs as (_ & (_ & Hls & _) & _).
      destruct (vprintf_safe (an_log an) (v_log s) lvl text Hls) as (acts & -> & _). by eexists. }
    eexists. split; [done|]. apply holds_acts; [done|done|apply states_log|apply free_not_log].
  - eexists. split; [done|]. by rewrite add_nil.
Qed.

Lemma holds_report m p q t s st x w :
  holds m p t s -> reported q = reported p ++ [st] -> signalled q = signalled p ->
  holds m q t (add_report (set_v_handler s (todo q)) st x w).
Proof using.
  intros ([Hs Hl Hh Hg] & Hm & Ht) Hr Hsg. unfold add_report. cbn [v_check set_v_handler].
  destruct (service_report_status st x w (v_check s)) as [r c] eqn:E.
  assert (Hst : dwCurrentState r = st) by (unfold service_report_status in E; by injection E as <- _).
  split; [split; simpl|split; [|done]].
  - by rewrite states_app, Hs, Hr, <- Hst.
  - by rewrite Hr, last_snoc.
  - done.
  - by rewrite Hg, Hsg.
  - destruct m; simpl in *.
    + rewrite elem_of_app, list_elem_of_singleton. naive_solver.
    + rewrite elem_of_app, list_elem_of_singleton. naive_solver.
    + destruct Hm as (Hp & l & l' & -> & Hf & Hl'). split; [done|]. exists l, (l' ++ [VReport r]).
      rewrite <- (assoc_L (++)). split_and!; [done|done|]. apply Forall_app. by repeat constructor.
Qed.

(** The handler's step moves the phase on, unless it finds the proxy freed. *)
Lemma handler_ok m p t s :
  holds m p t s -> (m = Live -> unstopped p = true) ->
  if bool_decide (m = Live \/ shuts p = false)
  then exists s', handler an s = (inl tt, s') /\ holds m (advance p) t s'
  else exists s', handler an s = (inr SCrash, s') /\ v_acts s' = v_acts s.
Proof.
  intros Hs Hu. pose proof Hs as ([Hst Hl Hh Hg] & Hm & Ht). unfold handler. rewrite Hh, Hl.
  assert (Hset : forall q, reported q = reported p -> signalled q = signalled p -> holds m q t (set_v_handler s (todo q))).
  { intros q Hr Hsg. split; [split; simpl; by rewrite ?Hr, ?Hsg|]. split; [|done]. by destruct m. }
  assert (Hsent : forall q, reported q = reported p -> signalled q = true ->
            holds m q t (set_v_sentinel (set_v_handler s (todo q)) true)).
  { intros q Hr Hsg. split; [split; simpl; by rewrite ?Hr, ?Hsg|]. split; [|done]. by destruct m. }
  assert (Hpriv : m <> Live -> v_priv s = false) by (intros ?; destruct m; [|done|]; by destruct Hm as [-> _]).
  destruct p; cbn [todo advance shuts reported last] in *;
    try (rewrite bool_decide_true by (by right); eexists; split; [reflexivity|exact Hs]);
    try (rewrite bool_decide_true by (by right); eexists; split; [reflexivity|by eapply holds_report]).
  - rewrite bool_decide_true by (by right). simpl. apply plog_ok. by apply (Hset Called).
  - case_bool_decide as Hc; simpl.
    + destruct Hc as [->|?]; [|done]. destruct Hm as (Hp & Hm). rewrite Hp. eexists. split; [reflexivity|].
      apply (holds_acts Live Shut); [done|by apply (Hset Shut)|done|set_solver].
    + rewrite (Hpriv ltac:(naive_solver)). by eexists.
  - rewrite bool_decide_true by (by right). eexists. split; [reflexivity|]. by apply Hsent.
  - rewrite bool_decide_false by (intros [?|?]; [by specialize (Hu ltac:(done))|done]). simpl.
    rewrite (Hpriv ltac:(naive_solver)). by eexists.
  - rewrite bool_decide_false by (intros [?|?]; [by specialize (Hu ltac:(done))|done]). simpl.
    rewrite (Hpriv ltac:(naive_solver)). by eexists.
  - rewrite bool_decide_true by (by right). eexists. split; [reflexivity|]. by apply Hsent.
Qed.

Lemma unstopped_iter n p : unstopped p = true -> unstopped (Nat.iter n advance p) = true.
Proof using. intros Hp. induction n as [|n IH]; [done|]. simpl. by destruct (Nat.iter n advance p). Qed.

(** The handler stopped the program: the proxy was not there any more. *)
Definition crashed (m : mode) (s : sv) : Prop :=
  m <> Live /\ exists p t s0, holds m p t s0 /\ shuts p = true /\ v_acts s = v_acts s0.

Lemma handlers_ok n m p t s :
  holds m p t s -> (m = Live -> unstopped p = true) ->
  match handlers an n s with
  | (inl _, s') => holds m (Nat.iter n advance p) t s'
  | (inr e, s') => e = SCrash /\ crashed m s'
  end.
Proof.
  revert p s. induction n as [|n IH]; intros p s Hs Hu; [done|]. cbn [handlers]. unfold mbind.
  pose proof (handler_ok m p t s Hs Hu) as Hh. case_bool_decide as Hc.
  - destruct Hh as (s1 & -> & Hs1). specialize (IH (advance p) s1 Hs1 ltac:(intros Hm; apply (unstopped_iter 1), Hu, Hm)).
    by rewrite Nat.iter_succ_r.
  - destruct Hh as (s1 & -> & Ha). split; [done|]. split; [naive_solver|]. exists p, t, s.
    destruct (shuts p); naive_solver.
Qed.

Lemma tick_ok m p t s :
  holds m p t s -> (m = Live -> unstopped p = true) ->
  match tick an s with
  | (inl _, s') => holds m (Nat.iter (an_schedule an t) advance p) (S t) s'
  | (inr e, s') => e = SCrash /\ crashed m s'
  end.
Proof.
  intros Hs Hu. unfold tick. pose proof Hs as (_ & _ & Ht). rewrite Ht. apply handlers_ok; [|done].
  destruct Hs as ([] & Hm & _). split; [by split|]. split; [by destruct m|]. simpl. by rewrite Ht.
Qed.

(** The handler is not called before the service runs. *)
Lemma handlers_idle n s : v_handler s = [] -> v_state s <> Some SERVICE_RUNNING -> handlers an n s = (inl tt, s).
Proof using.
  intros Hh Hs. induction n as [|n IH]; [done|]. cbn [handlers]. unfold mbind, handler.
  by rewrite Hh, decide_False, IH.
Qed.

Lemma tick_idle m p t s :
  holds m p t s -> todo p = [] -> last (reported p) <> Some SERVICE_RUNNING ->
  tick an s = (inl tt, next_tick s) /\ holds m p (S t) (next_tick s).
Proof using.
  intros ([Hs Hl Hh Hg] & Hm & Ht) Htd Hr. split.
  - unfold tick. apply handlers_idle; simpl; congruence.
  - split; [by split|]. split; [by destruct m|]. simpl. by rewrite Ht.
Qed.

(** ** The service's thread while the proxy exists *)

Definition overflows : Prop := exists path, an_module an = Some path /\ service_config path = CfgOverflow.

(** Before the report of SERVICE_RUNNING, after it, or either. *)
Inductive stage : Type := SStart | SServe | SAny.

Definition within (g : stage) (p : phase) : bool :=
  match g, p with
  | SStart, Starting => true
  | SStart, _ | SServe, Starting => false
  | _, p => unstopped p
  end.

Lemma within_unstopped g p : within g p = true -> unstopped p = true.
Proof using. by destruct g, p. Qed.

Lemma within_iter g n p : within g p = true -> within g (Nat.iter n advance p) = true.
Proof using. intros Hp. induction n as [|n IH]; [done|]. simpl. by destruct g, (Nat.iter n advance p). Qed.

Definition open (g : stage) (s : sv) : Prop := exists p t, holds Live p t s /\ within g p = true.

(** [m] does not free the proxy and follows no NULL pointer. *)
Definition keeps {A} (g g' : stage) (m : SM A) : Prop :=
  forall s, open g s ->
  match m s with
  | (inl _, s') => open g' s'
  | (inr SRunning, s') => open SServe s'
  | (inr SOverflow, _) => overflows
  | (inr SCrash, _) => False
  end.

Lemma keeps_ret {A} g (x : A) : keeps g g (mret x).
Proof using. by intros s Hs. Qed.

Lemma keeps_weaken {A} g g' (m : SM A) : keeps g g' m -> keeps g SAny m.
Proof using.
  intros Hm s Hs. specialize (Hm s Hs). destruct (m s) as [[x|[]] s']; try done.
  destruct Hm as (p & t & Hp & Hw). exists p, t. split; [done|]. by eapply within_unstopped.
Qed.

Lemma keeps_bind {A B} r1 r2 r3 (m : SM A) (k : A -> SM B) :
  keeps r1 r2 m -> (forall x, keeps r2 r3 (k x)) -> keeps r1 r3 (mbind m k).
Proof using.
  intros Hm Hk s Hs. specialize (Hm s Hs). unfold mbind. destruct (m s) as [[x|e] s1]; [|done]. by apply Hk.
Qed.

Lemma keeps_tick g : keeps g g (tick an).
Proof.
  intros s (p & t & Hs & Hp). pose proof (tick_ok Live p t s Hs (fun _ => within_unstopped g p Hp)) as Ht.
  destruct (tick an s) as [[x|e] s'].
  - eexists _, _. split; [exact Ht|]. by apply within_iter.
  - by destruct Ht as [_ [? _]].
Qed.

Lemma keeps_act g a : states [a] = [] -> a <> VFree -> keeps g g (act an a).
Proof.
  intros Ha Hf. apply (keeps_bind _ g); [|intros _; apply keeps_tick].
  intros s (p & t & Hs & Hp). exists p, t. split; [|done]. apply holds_acts; [done|done|done|]. set_solver.
Qed.

Lemma keeps_log g lvl text : keeps g g (log an lvl text).
Proof.
  apply (keeps_bind _ g); [|intros _; apply keeps_tick].
  intros s (p & t & Hs & Hp). destruct (plog_ok lvl text Live p t s Hs) as (s' & -> & Hs'). by exists p, t.
Qed.

Lemma keeps_running : keeps SStart SServe (report an SERVICE_RUNNING NO_ERROR 0).
Proof.
  apply (keeps_bind _ SServe); [|intros _; apply keeps_tick].
  intros s (p & t & Hs & Hp). destruct p; try done. exists Running, t. split; [|done].
  replace s with (set_v_handler s (todo Running)); [by eapply holds_report|].
  destruct Hs as ([_ _ Hh _] & _). destruct s. simpl in *. by subst.
Qed.

Lemma keeps_level g lvl : keeps g g (level lvl).
Proof using.
  intros s (p & t & ([] & Hm & Ht) & Hp). exists p, t. split; [|done]. split; [by split|]. split; [|done].
  destruct Hm as (? & (q & ? & ?) & ?). split; [done|]. split; [by exists q|done].
Qed.

Lemma keeps_select g m : keeps g g (select an m).
Proof.
  intros s (p & t & Hs & Hp). unfold select. pose proof Hs as (Hat & (Hv & Hl & Hf) & Ht).
  destruct (lop_safe (OProxySelect (an_log an) (an_version an) m) _ Hl) as (log' & E & Hl'). simpl in E.
  destruct (proxy_log_select_medium _ _ _ _) as [[[r log2] acts]|]; simplify_eq/=.
  apply (keeps_bind g g g (tick an)); [apply keeps_tick|intros _; apply keeps_ret|].
  exists p, (v_tick s). split; [|done]. apply holds_acts; [done| |apply states_log|apply free_not_log].
  destruct Hat. split; [by split|]. by split_and!.
Qed.

Ltac keeps_step :=
  match goal with
  | |- keeps _ _ (mbind (report _ SERVICE_RUNNING _ _) _) => eapply keeps_bind; [apply keeps_running|intros ?]
  | |- keeps ?r _ (mbind _ _) => apply (keeps_bind r r); [|intros ?]
  | |- keeps _ _ (if ?b then _ else _) => destruct b
  | |- keeps _ _ (log _ _ _) => apply keeps_log
  | |- keeps _ _ (act _ _) => apply keeps_act; [reflexivity|discriminate]
  | |- keeps ?r ?r (mret _) => apply keeps_ret
  | |- keeps _ SAny (mret _) => eapply keeps_weaken, keeps_ret
  end.

Lemma keeps_dispatch fuel k ret : keeps SServe SServe (dispatch an fuel k ret).
Proof.
  revert k ret. induction fuel as [|fuel IH]; intros k ret s Hs; cbn [dispatch];
    (destruct (negb (ret =? 0) || v_sentinel s); [exact Hs|]); [exact Hs|].
  revert s Hs. change (keeps SServe SServe (log an LOG_LEVEL_DEBUG (str "Starting a processing run..." ++ [10]) ;;;
       act an VProcess ;;;
       let+ ret :=
         (if an_process an k <? 0 then
            if an_process an k =? - EINTR then mret 0
            else log an LOG_LEVEL_FATAL (failure an (str "Message processing failure") (an_process an k)) ;;;
                 mret (an_process an k)
          else mret (an_process an k)) in
       dispatch an fuel (S k) ret)%main).
  repeat keeps_step. apply IH.
Qed.

Lemma keeps_serve fuel path : keeps SStart SAny (serve an fuel path).
Proof. unfold serve. repeat (keeps_step || apply keeps_dispatch). Qed.

Lemma keeps_body fuel lvl : keeps SStart SAny (body an fuel lvl).
Proof.
  unfold body. eapply keeps_bind; [apply keeps_level|intros _].
  eapply keeps_bind; [apply keeps_select|intros ret]. destruct (ret <? 0); [keeps_step|].
  destruct (an_module an) as [path|] eqn:Em; [|repeat keeps_step].
  destruct (service_config path) as [p| |] eqn:Ec; [apply keeps_serve|keeps_step|].
  intros s Hs. by exists path.
Qed.

(** *** The end of the service *)

Definition ended (p : phase) : bool :=
  match p with Unreported => false | p => negb (unstopped p) end.

Lemma ended_iter n p : ended p = true -> ended (Nat.iter n advance p) = true.
Proof using. intros Hp. induction n as [|n IH]; [done|]. simpl. by destruct (Nat.iter n advance p). Qed.

(** What a program ends with, from [m] and a phase that is not yet stopped. *)
Definition finish {A} (m : mode) (r : (A + send) * sv) : Prop :=
  match r with
  | (inl _, s') => exists q t, holds m q t s' /\ ended q = true
  | (inr e, s') => e = SCrash /\ crashed m s'
  end.

Lemma holds_free p t s : holds Live p t s -> holds Freed p t (add_acts (set_v_priv s false) [VFree]).
Proof using.
  intros ([Hs Hl Hh Hg] & (Hp & _ & Hf) & Ht). split; [split; simpl; [|done..]|split; [|done]].
  - by rewrite states_app, app_nil_r.
  - split; [done|]. exists (v_acts s), []. by split_and!.
Qed.

Lemma report_stopped m p t s ret :
  m <> Live -> holds m p t s -> unstopped p = true -> finish m (report an SERVICE_STOPPED ret 0 s).
Proof.
  intros Hm Hs Hu. unfold report, mbind.
  assert (Hst : holds m (stop p) t (add_report s SERVICE_STOPPED ret 0)).
  { assert (Es : s = set_v_handler s (todo (stop p))).
    { pose proof Hs as ([_ _ Hh _] & _). destruct s. simpl in *. unfold set_v_handler. simpl. f_equal.
      rewrite Hh. by destruct p. }
    rewrite Es. eapply holds_report; [exact Hs|by destruct p..]. }
  pose proof (tick_ok m (stop p) t _ Hst (fun E => False_rect _ (Hm E))) as Ht. unfold finish.
  destruct (tick an _) as [[x|e] s']; [|done]. eexists _, _. split; [exact Ht|].
  apply ended_iter. by destruct p.
Qed.

Lemma free_stopped p t s ret :
  holds Live p t s -> unstopped p = true ->
  finish Freed (mbind (free an ;;; mret ret) (fun ret => report an SERVICE_STOPPED ret 0) s).
Proof.
  intros Hs Hu. unfold free, act, mbind. cbn [mret]. set (s1 := add_acts _ _).
  assert (Hs1 : holds Freed p t s1) by (by apply holds_free).
  pose proof (tick_ok Freed p t s1 Hs1 ltac:(done)) as Ht. destruct (tick an s1) as [[x|e] s2]; [|done].
  eapply report_stopped; [done|exact Ht|by apply unstopped_iter].
Qed.

(** From the report of SERVICE_START_PENDING on. *)
Lemma main_started fuel argv s t :
  holds Before Starting t s ->
  let '(r, s') := mbind (init an) (fun ret =>
      mbind (if ret <? 0 then mret ret else let+ ret := body an fuel (log_level_of argv) in free an ;;; mret ret)
            (fun ret => report an SERVICE_STOPPED ret 0)) s in
  match r with
  | inr SRunning => open SServe s'
  | inr SOverflow => overflows
  | inr SCrash => crashed Freed s'
  | inl _ => exists q t', holds (if an_init an <? 0 then Before else Freed) q t' s' /\ ended q = true
  end.
Proof.
  intros Hs. unfold init, act. destruct (an_init an <? 0) eqn:Ei.
  - assert (Hs1 : holds Before Starting t (add_acts s [VInit])) by (apply holds_acts; [done|done|done|set_solver]).
    destruct (tick_idle _ _ _ _ Hs1) as [Et Hs2]; [done|done|]. unfold report, mbind, mret. cbv beta iota.
    rewrite Et, Ei. cbv beta iota. set (s2 := next_tick _) in *.
    assert (Hs3 : holds Before Unstarted (S t) (add_report s2 SERVICE_STOPPED (an_init an) 0)).
    { replace s2 with (set_v_handler s2 (todo Unstarted)); [by eapply holds_report|].
      destruct Hs2 as ([_ _ Hh _] & _). destruct s2. simpl in *. by subst. }
    destruct (tick_idle _ _ _ _ Hs3) as [Et3 Hs4]; [done|done|]. rewrite Et3. by exists Unstarted, (S (S t)).
  - set (s1 := add_acts (set_v_priv (set_v_log s (snd (log_init true (v_log s)))) true) [VInit]).
    assert (Hs1 : open SStart s1).
    { exists Starting, t. split; [|done]. destruct Hs as ([] & (_ & Hf) & Ht). apply holds_acts; [done| |done|set_solver].
      split; [by split|]. split; [|done]. split; [done|]. split; [|done]. cbn [v_log set_v_log set_v_priv].
      unfold log_init. destruct (log_priv_ptr (v_log s)); by eexists. }
    pose proof (keeps_bind _ _ _ (tick an) (fun _ => body an fuel (log_level_of argv)) (keeps_tick SStart)
                  (fun _ => keeps_body fuel (log_level_of argv)) s1 Hs1) as Hb.
    unfold mbind in Hb |- *. unfold mret at 1. fold s1. destruct (tick an s1) as [[x|e] s2]; [|by destruct e].
    unfold mret at 1. rewrite Ei. destruct (body an _ _ s2) as [[ret|e] s3]; [|by destruct e].
    destruct Hb as (p & t' & Hp & Hu). pose proof (free_stopped p t' s3 ret Hp Hu) as Hf. unfold mbind in Hf.
    destruct (free an s3) as [[y|e] s4]; [|by destruct Hf as [-> ?]]. unfold mret in Hf |- *.
    destruct (report an _ _ _ s4) as [[z|e] s5]; [done|by destruct Hf as [-> ?]].
Qed.

(** *** Stopping *)

(** While the proxy exists the phase moves as the schedule says. *)
Lemma tick_live p t s :
  holds Live p t s -> unstopped p = true ->
  exists s', tick an s = (inl tt, s') /\ holds Live (Nat.iter (an_schedule an t) advance p) (S t) s'.
Proof.
  intros Hs Hu. pose proof (tick_ok Live p t s Hs (fun _ => Hu)) as Ht.
  destruct (tick an s) as [[[]|e] s']; [by exists s'|by destruct Ht as [_ [? _]]].
Qed.

Lemma act_live a p t s :
  holds Live p t s -> unstopped p = true -> states [a] = [] -> a <> VFree ->
  exists s', act an a s = (inl tt, s') /\ holds Live (Nat.iter (an_schedule an t) advance p) (S t) s'.
Proof.
  intros Hs Hu Ha Hf. unfold act, mbind. apply tick_live; [|done]. apply holds_acts; [done|done|done|set_solver].
Qed.

Lemma log_live lvl text p t s :
  holds Live p t s -> unstopped p = true ->
  exists s', log an lvl text s = (inl tt, s') /\ holds Live (Nat.iter (an_schedule an t) advance p) (S t) s'.
Proof.
  intros Hs Hu. unfold log, mbind. destruct (plog_ok lvl text Live p t s Hs) as (s1 & -> & Hs1). by apply tick_live.
Qed.

(** How many steps the handler has left. *)
Definition left (p : phase) : nat :=
  match p with Running => 4 | Called => 3 | Pending => 2 | Shut => 1 | _ => 0 end.

Lemma left_advance p : within SServe p = true -> (left (advance p) <= left p - 1)%nat.
Proof using. destruct p; simpl; lia || done. Qed.

Lemma left_iter n p : within SServe p = true -> (left (Nat.iter n advance p) <= left p - n)%nat.
Proof using.
  intros Hp. induction n as [|n IH]; [simpl; lia|].
  change (Nat.iter (S n) advance p) with (advance (Nat.iter n advance p)).
  pose proof (left_advance _ (within_iter SServe n p Hp)). lia.
Qed.

Lemma left_signalled p : within SServe p = true -> (left p = 0%nat <-> signalled p = true).
Proof using. destruct p; simpl; done. Qed.

Definition fair (schedule : nat -> nat) : Prop := forall t, exists t', (t <= t')%nat /\ (0 < schedule t')%nat.

(** One run of the loop. *)
Lemma run_live k p t s :
  (an_process an k = 0 \/ an_process an k = - EINTR) -> holds Live p t s -> unstopped p = true -> signalled p = false ->
  exists s', (forall fuel, dispatch an (S fuel) k 0 s = dispatch an fuel (S k) 0 s') /\
    holds Live (Nat.iter (an_schedule an (S t)) advance (Nat.iter (an_schedule an t) advance p)) (S (S t)) s'.
Proof.
  intros Hk Hs Hu Hg. pose proof Hs as ([_ _ _ Hsg] & _).
  destruct (log_live LOG_LEVEL_DEBUG (str "Starting a processing run..." ++ [10]) p t s Hs Hu) as (s1 & E1 & Hs1).
  destruct (act_live VProcess _ _ s1 Hs1 ltac:(by apply unstopped_iter) eq_refl ltac:(done)) as (s2 & E2 & Hs2).
  exists s2. split; [|exact Hs2]. intros fuel. cbn [dispatch]. rewrite Hsg, Hg. cbn [Z.eqb negb orb].
  unfold mbind. rewrite E1, E2. destruct Hk as [-> | ->]; reflexivity.
Qed.

Lemma dispatch_stops :
  (forall k, an_process an k = 0 \/ an_process an k = - EINTR) -> fair (an_schedule an) ->
  forall n d p t k s, (left p <= n)%nat -> within SServe p = true -> holds Live p t s ->
    (exists t', (t <= t' <= t + d)%nat /\ (0 < an_schedule an t')%nat) ->
  exists N, forall fuel, (N <= fuel)%nat ->
    exists s' t', dispatch an fuel k 0 s = (inl 0, s') /\ holds Live Signalled t' s'.
Proof.
  intros Hok Hfair n. induction n as [n IHn] using lt_wf_ind. intros d. induction d as [d IHd] using lt_wf_ind.
  intros p t k s Hn Hp Hs (t' & Htd & Ht'). destruct (signalled p) eqn:Hsig.
  { exists 0%nat. intros fuel _. exists s, t. pose proof Hs as ([_ _ _ Hsg] & _). rewrite Hsig in Hsg.
    split; [destruct fuel; cbn [dispatch]; rewrite Hsg; reflexivity|]. by destruct p. }
  destruct (run_live k p t s (Hok k) Hs (within_unstopped _ _ Hp) Hsig) as (s1 & Erun & Hs1).
  set (q := Nat.iter _ advance _) in Hs1.
  assert (Hq : within SServe q = true) by (by do 2 apply within_iter).
  assert (Hrun : exists N, forall fuel, (N <= fuel)%nat ->
    exists s' t', dispatch an fuel (S k) 0 s1 = (inl 0, s') /\ holds Live Signalled t' s').
  { assert (Hl : (left q <= left p - an_schedule an t - an_schedule an (S t))%nat).
    { unfold q. etransitivity; [by apply left_iter, within_iter|]. pose proof (left_iter (an_schedule an t) p Hp). lia. }
    pose proof (proj1 (left_signalled p Hp)) as Hz.
    destruct (decide (left q < left p)%nat) as [Hlt|Hge].
    - destruct (Hfair (S (S t))) as (t2 & Ht2 & Hp2).
      apply (IHn (left q) ltac:(lia) (t2 - S (S t))%nat q (S (S t)) (S k) s1); [lia|done|done|].
      exists t2. split; [lia|done].
    - assert (left p <> 0%nat) by (intros E; rewrite (Hz E) in Hsig; done).
      assert (t' <> t /\ t' <> S t) by (split; intros ->; lia).
      apply (IHd (t' - S (S t))%nat ltac:(lia) q (S (S t)) (S k) s1); [lia|done|done|].
      exists t'. split; [lia|done]. }
  destruct Hrun as [N HN]. exists (S N). intros [|fuel] Hf; [lia|].
  rewrite Erun. apply HN. lia.
Qed.

Lemma iter_fixed n p : advance p = p -> Nat.iter n advance p = p.
Proof using. intros Hp. induction n as [|n IH]; [done|]. simpl. by rewrite IH. Qed.

(** The answers of a service that starts, and is told to stop at some time. *)
Record starts (path : list Z) : Prop := {
  ok_register : an_register an = true;
  ok_event : is_Some (env_event (an_log an));
  ok_module : exists m, an_module an = Some m /\ service_config m = CfgPath path;
  ok_init : 0 <= an_init an;
  ok_load : 0 <= an_load an;
  ok_open : 0 <= an_open an;
  ok_start : an_start an = 0;
  ok_process : forall k, an_process an k = 0 \/ an_process an k = - EINTR;
  ok_stop : fair (an_schedule an);
}.

Lemma serve_stops path t s :
  starts path -> holds Live Starting t s ->
  exists N, forall fuel, (N <= fuel)%nat ->
    exists s' t', serve an fuel path s = (inl 0, s') /\ holds Live Signalled t' s'.
Proof.
  intros [_ _ _ _ Hl Ho Hst Hpr Hfair] Hs. unfold serve, mbind.
  apply Z.ltb_ge in Hl, Ho. rewrite Hl, Ho, Hst. cbn [Z.ltb Z.compare].
  destruct (act_live (VLoad path) _ _ s Hs eq_refl eq_refl ltac:(done)) as (s1 & -> & Hs1). rewrite iter_fixed in Hs1 by done.
  destruct (act_live VOpen _ _ s1 Hs1 eq_refl eq_refl ltac:(done)) as (s2 & -> & Hs2). rewrite iter_fixed in Hs2 by done.
  destruct (act_live VStart _ _ s2 Hs2 eq_refl eq_refl ltac:(done)) as (s3 & -> & Hs3). rewrite iter_fixed in Hs3 by done.
  destruct (log_live LOG_LEVEL_INFO (str "Ready." ++ [10]) _ _ s3 Hs3 eq_refl) as (s4 & -> & Hs4). rewrite iter_fixed in Hs4 by done.
  unfold report, mbind. set (s5 := add_report s4 _ _ _).
  assert (Hs5 : holds Live Running (S (S (S (S t)))) s5).
  { unfold s5. replace s4 with (set_v_handler s4 (todo Running)); [by eapply holds_report|].
    destruct Hs4 as ([_ _ Hh _] & _). destruct s4. simpl in *. by subst. }
  destruct (tick_live _ _ s5 Hs5 eq_refl) as (s6 & -> & Hs6). set (p := Nat.iter _ _ _) in Hs6.
  destruct (Hfair (S (S (S (S (S t)))))) as (t' & Ht & Hp).
  destruct (dispatch_stops Hpr Hfair (left p) (t' - S (S (S (S (S t)))))%nat p _ 0 s6 ltac:(lia)
              ltac:(by apply within_iter) Hs6 ltac:(exists t'; split; [lia|done])) as [N HN].
  exists N. intros fuel Hf. destruct (HN fuel Hf) as (s7 & t7 & -> & Hs7).
  destruct (log_live LOG_LEVEL_INFO (str "Shutting down..." ++ [10]) _ _ s7 Hs7 eq_refl) as (s8 & -> & Hs8).
  rewrite iter_fixed in Hs8 by done. by exists s8, (S t7).
Qed.

(** The event log opens. *)
Lemma select_eventlog_ok env v log :
  is_Some (env_event env) -> log_safe log -> log_medium log = LOG_MEDIUM_NONE ->
  exists l acts, proxy_log_select_medium env v log LOG_MEDIUM_EVENTLOG = Some (0, l, acts) /\ log_safe l.
Proof using.
  intros [h Hev] (q & Hq & _) Hmed. unfold proxy_log_select_medium, log_select_medium, select_eventlog.
  rewrite Hmed, Hq, Hev. cbn [close_medium]. set (l := set_medium _ _).
  assert (Hl : log_safe l) by (by eexists). unfold log_ident. rewrite printf_vprintf.
  destruct (vprintf_safe env l LOG_LEVEL_INFO (str "OpenELP " ++ v ++ [10]) Hl) as (acts & -> & _). by eexists _, _.
Qed.

Lemma body_stops lvl path t s :
  starts path -> holds Live Starting t s -> log_medium (v_log s) = LOG_MEDIUM_NONE ->
  exists N, forall fuel, (N <= fuel)%nat ->
    exists s' t', body an fuel lvl s = (inl 0, s') /\ holds Live Signalled t' s'.
Proof.
  intros Hst Hs Hmed. unfold body, mbind, level. cbv beta iota. set (s1 := set_v_log s _).
  assert (Hs1 : holds Live Starting t s1).
  { destruct Hs as ([] & (? & (q & ? & ?) & ?) & ?). split; [by split|]. split; [|done]. split; [done|]. split; [|done]. by exists q. }
  pose proof Hs1 as (Hat & (Hv & Hls & Hf) & Ht).
  destruct (select_eventlog_ok (an_log an) (an_version an) (v_log s1) (ok_event _ Hst) Hls Hmed) as (l & acts & E & Hl).
  unfold select. rewrite E. unfold mbind, mret. set (s2 := add_acts _ _).
  assert (Hs2 : holds Live Starting t s2).
  { apply holds_acts; [done| |apply states_log|apply free_not_log]. destruct Hat. split; [by split|]. by split_and!. }
  destruct (tick_idle Live Starting t s2 Hs2 eq_refl ltac:(done)) as [-> Hs3]. cbn [Z.ltb Z.compare].
  destruct (ok_module _ Hst) as (m & -> & ->). destruct (serve_stops path _ _ Hst Hs3) as [N HN].
  by exists N.
Qed.

(** The service ends as it should, from the report of SERVICE_START_PENDING on. *)
Lemma end_stops t s :
  holds Live Signalled t s ->
  exists s', mbind (free an ;;; mret 0) (fun ret => report an SERVICE_STOPPED ret 0) s = (inl tt, s') /\
    states (v_acts s') = reported EndSignalled /\
    last (v_acts s') = Some (VReport (mkStatus SERVICE_STOPPED 0 0 0 SERVICE_ACCEPT_STOP 0)).
Proof using.
  intros Hs. unfold free, act, report, mbind, mret. set (s1 := add_acts _ _).
  assert (Hs1 : holds Freed Signalled t s1) by (by apply holds_free).
  destruct (tick_idle _ _ _ _ Hs1 eq_refl ltac:(done)) as [-> Hs2]. set (s2 := next_tick s1) in *.
  set (s3 := add_report s2 _ _ _). assert (Hs3 : holds Freed EndSignalled (S t) s3).
  { unfold s3. replace s2 with (set_v_handler s2 (todo EndSignalled)); [by eapply holds_report|].
    destruct Hs2 as ([_ _ Hh _] & _). destruct s2. simpl in *. by subst. }
  destruct (tick_idle _ _ _ _ Hs3 eq_refl ltac:(done)) as [-> Hs4]. eexists. split; [reflexivity|].
  split; [apply Hs4|]. unfold s3. simpl. apply last_snoc.
Qed.

End lemmas.

(** ** The scan of a path *)

Lemma scan_found path r i :
  nth i path 0 = backslash -> (i <= r)%nat -> (forall j, (i < j <= r)%nat -> nth j path 0 <> backslash) ->
  scan path r = Z.of_nat i.
Proof.
  intros Hi. induction r as [|r IH]; intros Hr Hj; cbn [scan].
  - assert (i = 0%nat) as -> by lia. by rewrite Hi.
  - destruct (decide (i = S r)) as [->|Hne]; [by rewrite Hi|].
    rewrite (proj2 (Z.eqb_neq _ _)) by (apply Hj; lia). apply IH; [lia|]. intros j Hjr. apply Hj. lia.
Qed.

Lemma scan_none path r : (forall j, (j <= r)%nat -> nth j path 0 <> backslash) -> scan path r = -1.
Proof.
  induction r as [|r IH]; intros Hj; cbn [scan]; rewrite (proj2 (Z.eqb_neq _ _)) by (apply Hj; lia); [done|].
  apply IH. intros j Hjr. apply Hj. lia.
Qed.

Lemma nth_plain l i : (backslash ∉ l) -> nth i l 0 <> backslash.
Proof.
  intros Hl Hn. destruct (nth_in_or_default i l 0) as [Hin|Hd]; [|rewrite Hd in Hn; done].
  rewrite Hn in Hin. by apply Hl, list_elem_of_In.
Qed.

(** The last separator of [a \ b]. *)
Lemma scan_last a b : (backslash ∉ b) -> scan (a ++ backslash :: b) (length (a ++ backslash :: b)) = Z.of_nat (length a).
Proof.
  intros Hb. apply scan_found.
  - by rewrite nth_middle.
  - rewrite length_app. simpl. lia.
  - intros j Hj. rewrite app_nth2 by lia. destruct (j - length a)%nat as [|k] eqn:E; [lia|]. cbn [nth]. by apply nth_plain.
Qed.

(** The one before it. *)
Lemma scan_before dir sub rest :
  (backslash ∉ sub) -> scan (dir ++ backslash :: sub ++ rest) (length dir + length sub) = Z.of_nat (length dir).
Proof.
  intros Hs. apply scan_found; [by rewrite nth_middle|lia|].
  intros j Hj. rewrite app_nth2 by lia. destruct (j - length dir)%nat as [|k] eqn:E; [lia|].
  cbn [nth]. rewrite app_nth1 by lia. by apply nth_plain.
Qed.

Lemma scan_plain l rest r : (backslash ∉ l) -> (r < length l)%nat -> scan (l ++ rest) r = -1.
Proof. intros Hl Hr. apply scan_none. intros j Hj. rewrite app_nth1 by lia. by apply nth_plain. Qed.

(** ** Properties *)



(** A service that is told to stop during its first run. *)
Definition example_env : lenv := mkEnv (inr 2) (Some 7%nat) 0 [] (Some (fun _ => 0)) false.
Definition example_path : list Z := [67; 58] ++ [92] ++ str "OpenELP" ++ [92] ++ str "bin" ++ [92] ++ str "openelp_service.exe".
Definition example_answers : answers :=
  mkAnswers true (Some example_path) 0 0 0 0 0 (fun k => if (k =? 0)%nat then 0 else - EINTR) (fun t => if (t <? 8)%nat then 0%nat else 1%nat)
    (fun _ => []) (str "0.9.3") example_env.


(** The first run fails; the stop comes right after [proxy_free]. *)
Definition late_answers : answers :=
  mkAnswers true (Some example_path) 0 0 0 0 0 (fun _ => - EINVAL) (fun t => if (t =? 13)%nat then 3%nat else 0%nat)
    (fun _ => []) (str "0.9.3") example_env.

(** A stop that comes while the service ends by itself, after a failed run, is
    handled when the proxy has been freed: the handler follows a NULL pointer
    before the service has reported that it stopped. *)
Theorem service_late_stop_crashes :
  exists s, service_main late_answers 2 [] sv_zero = (inr SCrash, s) /\
    exists l st, v_acts s = l ++ [VFree; VReport st] /\ dwCurrentState st = SERVICE_STOP_PENDING.
Proof.
  eexists. split; [vm_compute; reflexivity|]. simpl. eexists [_; _; _; _; _; _; _; _; _; _; _; _; _], _.
  split; reflexivity.
Qed.

(** C37. The configuration is looked for beside the directory of the executable, and
    the path fits the buffer exactly when that place is at most 246 characters
    deep; a longer one overruns it.  An executable without a directory, or in the
    root of a drive, is refused. *)
Theorem service_config_exact dir sub exe :
  (backslash ∉ sub) -> (backslash ∉ exe) ->
  service_config (dir ++ backslash :: sub ++ backslash :: exe)
    = (if (length dir <=? 246)%nat then CfgPath (dir ++ conf_name) else CfgOverflow) /\
  service_config exe = CfgInvalid /\
  (sub <> [] -> service_config (sub ++ backslash :: exe) = CfgInvalid) /\
  service_config (backslash :: exe) = CfgPath conf_name.
Proof.
  intros Hs He. unfold service_config. split_and!.
  - replace (dir ++ backslash :: sub ++ backslash :: exe) with ((dir ++ backslash :: sub) ++ backslash :: exe)
      by (by rewrite <- (assoc_L (++))).
    rewrite scan_last by done. rewrite length_app. cbn [length].
    rewrite (proj2 (Z.ltb_lt 0 _)) by lia. rewrite <- (assoc_L (++)). cbn [app].
    replace (Z.to_nat (Z.of_nat (length dir + S (length sub)) - 1)) with (length dir + length sub)%nat by lia.
    rewrite scan_before by done. rewrite (proj2 (Z.ltb_ge (Z.of_nat _) 0)) by lia. rewrite Nat2Z.id.
    change (length conf_name) with 13%nat. unfold MAX_PATH. rewrite take_app_length.
    destruct (Nat.leb_spec (length dir) 246), (Nat.ltb_spec 260 (length dir + 13 + 1)); done || lia.
  - rewrite scan_none; [done|]. intros j _. by apply nth_plain.
  - intros Hne. rewrite scan_last by done. assert (0 < length sub)%nat by (destruct sub; simpl; [done|lia]).
    rewrite (proj2 (Z.ltb_lt 0 _)) by lia. by rewrite scan_plain by (done || lia).
  - pose proof (scan_last [] exe He) as E. cbn [app length] in E |- *. by rewrite E.
Qed.

Lemma service_config_exact_witness :
  service_config example_path = CfgPath ([67; 58] ++ [92] ++ str "OpenELP" ++ conf_name) /\
  service_config (str "openelp_service.exe") = CfgInvalid.
Proof.
  assert (H1 : backslash ∉ str "bin") by (apply (bool_decide_unpack _); vm_compute; reflexivity).
  assert (H2 : backslash ∉ str "openelp_service.exe") by (apply (bool_decide_unpack _); vm_compute; reflexivity).
  destruct (service_config_exact ([67; 58] ++ [92] ++ str "OpenELP") (str "bin") (str "openelp_service.exe") H1 H2)
    as (Ha & Hb & _). split; [exact Ha|exact Hb].
Defined.

(** Installing and uninstalling close the handles they open, in the reverse order
    and on every path, and return 0 exactly when every call succeeded. *)
Theorem service_install_closes a :
  sc_error a <> 0 ->
  fold_left open_step (snd (service_install a)) [] = [] /\
  fold_left open_step (snd (service_uninstall a)) [] = [] /\
  (fst (service_install a) = 0 <->
     is_Some (sc_module a) /\ sc_manager a = true /\ sc_service a = true /\ sc_describe a = 1) /\
  (fst (service_uninstall a) = 0 <-> sc_manager a = true /\ sc_service a = true /\ sc_delete a <> 0).
Proof.
  intros Hn. unfold service_install, service_uninstall.
  destruct (sc_module a), (sc_manager a), (sc_service a); cbn [negb fst snd];
    destruct (Z.eqb_spec (sc_describe a) 1), (Z.eqb_spec (sc_delete a) 0); cbn [negb];
    split_and!; try reflexivity; split; intros; try lia; try (destruct_and?; done); split_and!; done || lia.
Qed.

End Service.
