(* ===== verification/Proxy.v ===== *)
(** * The proxy (src/src/proxy.c)

    The operations of the library on a whole proxy, composed from the other
    components: the slots (ProxyConn.v) with their lists (Pool.v), the workers
    that serve the clients, the listening connection, the patterns and the
    authorisation (Auth.v), the configuration (Conf.v), the log (Log.v; what is
    written to it is left out) and the registration service (Registration.v).

    An operation runs without interference from other threads; interleavings of
    whole operations and of the steps of the workers are in ProxySystem.v, those
    inside the critical sections of the pool in Pool.v.  The theorems here show
    that all locks are nested in one order, and two ways in which a failed start
    makes the cleanup follow bad pointers; ProxyProps.v has the theorems about a
    proxy at work. *)

From S2P Require Import Prelude Digest Pearson Sys Mutex Worker Conn Conf ProxyConn Auth Pool Registration Log.

Section Proxy.
Context {Os : OS} {Rx : Pcre}.

Abbreviation regex_handle := (option (option pcre2_code)).

(** ** State *)

Record proxy_worker : Type := mkPw {
  pw_id : nat;
  pw_conn : option nat;                  (* conn_client, a pointer into the heap *)
  pw_next : option nat;                  (* index in client_workers *)
  pw_mutex : bool;                       (* initialised? *)
  pw_worker : worker_handle;
  pw_callsign : list Z;
}.

Definition set_pw_conn (w : proxy_worker) (x : option nat) : proxy_worker :=
  mkPw (pw_id w) x (pw_next w) (pw_mutex w) (pw_worker w) (pw_callsign w).
Definition set_pw_next (w : proxy_worker) (x : option nat) : proxy_worker :=
  mkPw (pw_id w) (pw_conn w) x (pw_mutex w) (pw_worker w) (pw_callsign w).
Definition set_pw_worker (w : proxy_worker) (m : bool) (x : worker_handle) : proxy_worker :=
  mkPw (pw_id w) (pw_conn w) (pw_next w) m x (pw_callsign w).
Definition set_pw_callsign (w : proxy_worker) (x : list Z) : proxy_worker :=
  mkPw (pw_id w) (pw_conn w) (pw_next w) (pw_mutex w) (pw_worker w) x.

Record proxy_priv : Type := mkPx {
  px_clients : option (list proxy_conn_handle);   (* clients *)
  px_lists : pool;                                (* the lists of idle slots and of slots by callsign *)
  px_workers : option (list proxy_worker);        (* client_workers *)
  px_idle_workers : option nat;                   (* idle_workers_head *)
  px_allowed : option regex_handle;               (* re_calls_allowed *)
  px_denied : option regex_handle;                (* re_calls_denied *)
  px_num : Z;                                     (* num_clients *)
  px_usable : Z;                                  (* usable_clients *)
  px_listen : conn_handle;                        (* conn_listen *)
  px_log : log_handle;                            (* log *)
  px_mutexes : bool * bool * bool;                (* usable_clients, idle_clients, idle_workers: initialised? *)
  px_reg : registration_service_handle;           (* reg_service *)
  px_port : list Z;                               (* port_str *)
}.

Definition set_px_clients (p : proxy_priv) (x : option (list proxy_conn_handle)) : proxy_priv :=
  mkPx x (px_lists p) (px_workers p) (px_idle_workers p) (px_allowed p) (px_denied p) (px_num p)
       (px_usable p) (px_listen p) (px_log p) (px_mutexes p) (px_reg p) (px_port p).
Definition set_px_lists (p : proxy_priv) (x : pool) : proxy_priv :=
  mkPx (px_clients p) x (px_workers p) (px_idle_workers p) (px_allowed p) (px_denied p) (px_num p)
       (px_usable p) (px_listen p) (px_log p) (px_mutexes p) (px_reg p) (px_port p).
Definition set_px_workers (p : proxy_priv) (x : option (list proxy_worker)) : proxy_priv :=
  mkPx (px_clients p) (px_lists p) x (px_idle_workers p) (px_allowed p) (px_denied p) (px_num p)
       (px_usable p) (px_listen p) (px_log p) (px_mutexes p) (px_reg p) (px_port p).
Definition set_px_idle_workers (p : proxy_priv) (x : option nat) : proxy_priv :=
  mkPx (px_clients p) (px_lists p) (px_workers p) x (px_allowed p) (px_denied p) (px_num p)
       (px_usable p) (px_listen p) (px_log p) (px_mutexes p) (px_reg p) (px_port p).
Definition set_px_allowed (p : proxy_priv) (x : option regex_handle) : proxy_priv :=
  mkPx (px_clients p) (px_lists p) (px_workers p) (px_idle_workers p) x (px_denied p) (px_num p)
       (px_usable p) (px_listen p) (px_log p) (px_mutexes p) (px_reg p) (px_port p).
Definition set_px_denied (p : proxy_priv) (x : option regex_handle) : proxy_priv :=
  mkPx (px_clients p) (px_lists p) (px_workers p) (px_idle_workers p) (px_allowed p) x (px_num p)
       (px_usable p) (px_listen p) (px_log p) (px_mutexes p) (px_reg p) (px_port p).
Definition set_px_num (p : proxy_priv) (x : Z) : proxy_priv :=
  mkPx (px_clients p) (px_lists p) (px_workers p) (px_idle_workers p) (px_allowed p) (px_denied p) x
       (px_usable p) (px_listen p) (px_log p) (px_mutexes p) (px_reg p) (px_port p).
Definition set_px_usable (p : proxy_priv) (x : Z) : proxy_priv :=
  mkPx (px_clients p) (px_lists p) (px_workers p) (px_idle_workers p) (px_allowed p) (px_denied p)
       (px_num p) x (px_listen p) (px_log p) (px_mutexes p) (px_reg p) (px_port p).
Definition set_px_listen (p : proxy_priv) (x : conn_handle) : proxy_priv :=
  mkPx (px_clients p) (px_lists p) (px_workers p) (px_idle_workers p) (px_allowed p) (px_denied p)
       (px_num p) (px_usable p) x (px_log p) (px_mutexes p) (px_reg p) (px_port p).
Definition set_px_log (p : proxy_priv) (x : log_handle) : proxy_priv :=
  mkPx (px_clients p) (px_lists p) (px_workers p) (px_idle_workers p) (px_allowed p) (px_denied p)
       (px_num p) (px_usable p) (px_listen p) x (px_mutexes p) (px_reg p) (px_port p).
Definition set_px_mutexes (p : proxy_priv) (x : bool * bool * bool) : proxy_priv :=
  mkPx (px_clients p) (px_lists p) (px_workers p) (px_idle_workers p) (px_allowed p) (px_denied p)
       (px_num p) (px_usable p) (px_listen p) (px_log p) x (px_reg p) (px_port p).
Definition set_px_reg (p : proxy_priv) (x : registration_service_handle) : proxy_priv :=
  mkPx (px_clients p) (px_lists p) (px_workers p) (px_idle_workers p) (px_allowed p) (px_denied p)
       (px_num p) (px_usable p) (px_listen p) (px_log p) (px_mutexes p) x (px_port p).
Definition set_px_port (p : proxy_priv) (x : list Z) : proxy_priv :=
  mkPx (px_clients p) (px_lists p) (px_workers p) (px_idle_workers p) (px_allowed p) (px_denied p)
       (px_num p) (px_usable p) (px_listen p) (px_log p) (px_mutexes p) (px_reg p) x.

(** The handle, with the heap of the connections allocated by proxy_process. *)
Record proxy_handle : Type := mkPh {
  ph_conf : proxy_conf;
  ph_priv : option proxy_priv;
  ph_conns : heap;
}.

Definition set_ph (ph : proxy_handle) (p : proxy_priv) : proxy_handle := mkPh (ph_conf ph) (Some p) (ph_conns ph).
Definition set_conns (ph : proxy_handle) (h : heap) : proxy_handle := mkPh (ph_conf ph) (ph_priv ph) h.

(** A zeroed [proxy_priv]; the numbers name the locks of its parts. *)
Definition px_zero : proxy_priv :=
  mkPx None pool_zero None None None None 0 0 (mkConn 0 None None 0 None) (mkLog None 0 LOG_MEDIUM_NONE)
       (false, false, false) (mkRs 1 None) [].

(** [clients] and [client_workers] as [calloc] returns them. *)
Definition client_zero (i : nat) : proxy_conn_handle := mkPc (S i) None None None None.
Definition worker_zero (n i : nat) : proxy_worker :=
  mkPw i None None false (mkWorker (3 * (n + 1) + i) None 0 0) [].

(** Dereferences of [ph->priv], and of an element of one of the arrays. *)
Definition with_px {A} (ph : proxy_handle) (k : proxy_priv -> IO A) : IO A :=
  match ph_priv ph with None => crash | Some p => k p end.

Definition on_client {A} (i : nat) (f : pst -> IO (A * pst)) (ph : proxy_handle) : IO (A * proxy_handle) :=
  with_px ph (fun p =>
  match px_clients p with
  | None => crash
  | Some cs =>
      match cs !! i with
      | None => crash
      | Some c =>
          let* (a, s) := f (mkPst c (ph_conns ph)) in
          ret (a, mkPh (ph_conf ph) (Some (set_px_clients p (Some (<[i := pc s]> cs)))) (hp s))
      end
  end).

Definition on_pw {A} (i : nat) (f : proxy_worker -> IO (A * proxy_worker)) (ph : proxy_handle) : IO (A * proxy_handle) :=
  with_px ph (fun p =>
  match px_workers p with
  | None => crash
  | Some ws =>
      match ws !! i with
      | None => crash
      | Some w => let* (a, w) := f w in ret (a, set_ph ph (set_px_workers p (Some (<[i := w]> ws))))
      end
  end).

(** [*conn] for a connection of the heap. *)
Definition with_conn {A} (ph : proxy_handle) (x : option nat) (k : nat -> conn_handle -> IO A) : IO A :=
  match x with
  | None => crash
  | Some i => match ph_conns ph !! i with None => crash | Some c => k i c end
  end.

(** ** Registration and configuration *)

(** The length of the list of idle workers; [None] when it leaves the array or
    does not end. *)
Fixpoint count_idle (fuel : nat) (ws : list proxy_worker) (pw : option nat) : option Z :=
  match pw, fuel with
  | None, _ => Some 0
  | Some i, S fuel =>
      match ws !! i with
      | None => None
      | Some w => Z.add 1 <$> count_idle fuel ws (pw_next w)
      end
  | Some _, O => None
  end.

Definition proxy_update_registration (ph : proxy_handle) : IO proxy_handle :=
  with_px ph (fun p =>
  do* mutex_lock_shared MUsable in
  let slots_total := px_usable p in
  let slots_used := px_num p in
  do* mutex_unlock_shared MUsable in
  do* mutex_lock_shared MIdleWorkers in
  let ws := default [] (px_workers p) in
  match count_idle (S (length ws)) ws (px_idle_workers p) with
  | None => crash
  | Some n =>
      do* mutex_unlock_shared MIdleWorkers in
      let* rs := registration_service_update (px_reg p) (slots_used - n) slots_total in
      ret (set_ph ph (set_px_reg p rs))
  end).

(** [file] is what opening the path gives. *)
Definition proxy_load_conf (ph : proxy_handle) (file : list Z + Z) : IO (Z * proxy_handle) :=
  with_px ph (fun p =>
  let* (r, c) := conf_parse_file file (ph_conf ph) in
  let ph := mkPh c (Some p) (ph_conns ph) in
  if r <? 0 then ret (r, ph) else
  ret (if bool_decide (is_Some (bind_addr_ext_add c)) &&
          match bind_addr_ext c with None => true | Some a => bool_decide (a = str "0.0.0.0") end
       then - EINVAL else 0, ph)).

(** ** Workers *)

Definition proxy_worker_accept (i conn : nat) (ph : proxy_handle) : IO (Z * proxy_handle) :=
  on_pw i (fun w =>
  let m := MPw (pw_id w) in
  do* mutex_lock m in
  let* (r, w) :=
    (match pw_conn w with
     | Some _ => ret (- EBUSY, w)
     | None =>
         let w := set_pw_conn w (Some conn) in
         let* (r, wk) := worker_wake (pw_worker w) in
         let w := set_pw_worker w (pw_mutex w) wk in
         ret (r, if r <? 0 then set_pw_conn w None else w)
     end) in
  do* mutex_unlock m in
  ret (r, w)) ph.

Definition proxy_worker_drop (i : nat) (ph : proxy_handle) : IO proxy_handle :=
  with_px ph (fun p =>
  match px_workers p ≫= (fun ws => ws !! i) with
  | None => crash
  | Some w =>
      do* mutex_lock_shared (MPw (pw_id w)) in
      let* ph := (match pw_conn w with
                  | None => ret ph
                  | Some _ => with_conn ph (pw_conn w) (fun k c =>
                      let* c := conn_drop c in ret (set_conns ph (<[k := c]> (ph_conns ph))))
                  end) in
      do* mutex_unlock_shared (MPw (pw_id w)) in
      ret ph
  end).

Definition proxy_worker_free (i : nat) (ph : proxy_handle) : IO proxy_handle :=
  let* (_, ph) := on_pw i (fun w =>
    let* wk := worker_free (pw_worker w) in
    let* m := mutex_free (pw_mutex w) in
    ret (tt, set_pw_worker w m wk)) ph in
  ret ph.

Definition proxy_worker_init (i : nat) (ph : proxy_handle) : IO (Z * proxy_handle) :=
  on_pw i (fun w =>
  let* (r, m) := mutex_init (pw_mutex w) in
  if r <? 0 then ret (r, set_pw_worker w m (pw_worker w)) else
  let wk := pw_worker w in
  let* (r, wk) := worker_init (mkWorker (worker_id wk) (wpriv wk) (1024 * 1024) (periodic_wake wk)) in
  if r <? 0 then let* m := mutex_free m in ret (r, set_pw_worker w m wk)
  else ret (0, set_pw_worker w m wk)) ph.

(** The end of proxy_worker_func: the connection is freed and the worker put at
    the head of the idle ones. *)
Definition worker_release (i : nat) (ph : proxy_handle) : IO proxy_handle :=
  with_px ph (fun p =>
  match px_workers p with
  | None => crash
  | Some ws =>
      match ws !! i with
      | None => crash
      | Some w =>
          do* mutex_lock (MPw (pw_id w)) in
          let* h := with_conn ph (pw_conn w) (fun k c => do* conn_free c in ret (delete k (ph_conns ph))) in
          let w := set_pw_conn w None in
          do* mutex_unlock (MPw (pw_id w)) in
          do* mutex_lock MIdleWorkers in
          let w := set_pw_next w (px_idle_workers p) in
          let p := set_px_idle_workers (set_px_workers p (Some (<[i := w]> ws))) (Some i) in
          do* mutex_unlock MIdleWorkers in
          ret (mkPh (ph_conf ph) (Some p) h)
      end
  end).

(** The search of a bucket for a reconnection: [ret] and [pc] when it ends.  At
    most every slot is visited. *)
Fixpoint slot_search (fuel : nat) (pc : option nat) (conn : nat) (call : list Z) (r : Z) (ph : proxy_handle)
  : IO (Z * option nat * proxy_handle) :=
  match pc, fuel with
  | None, _ => ret (r, None, ph)
  | Some _, O => crash
  | Some i, S fuel =>
      let* (r, ph) := on_client i (fun s => proxy_conn_accept s conn call true) ph in
      if negb (r =? - EBUSY) then ret (r, Some i, ph)
      else with_px ph (fun p => slot_search fuel (cell (px_lists p) (LNextByCall i)) conn call r ph)
  end.

Definition slot_acquire (conn : nat) (call : list Z) (ph : proxy_handle) : IO (option nat * proxy_handle) :=
  let hash := hash_of call in
  with_px ph (fun p =>
  do* mutex_lock MIdleClients in
  let* (res, ph) :=
    (match cell (px_lists p) LHead with
     | None => ret (None, ph)
     | Some hd =>
         let fuel := S (length (default [] (px_clients p))) in
         let* (r, found, ph) := slot_search fuel (cell (px_lists p) (LByCall hash)) conn call 0 ph in
         let* (r, i, ph) :=
           (match found with
            | Some i => ret (r, i, ph)
            | None => let* (r, ph) := on_client hd (fun s => proxy_conn_accept s conn call false) ph in
                      ret (r, hd, ph)
            end) in
         if r <? 0 then ret (None, ph) else
         with_px ph (fun p =>
         match pool_take (px_lists p) i hash with
         | None => crash
         | Some st => ret (Some i, set_ph ph (set_px_lists p st))
         end)
     end) in
  do* mutex_unlock MIdleClients in
  ret (res, ph)).

Definition slot_give_back (i : nat) (ph : proxy_handle) : IO proxy_handle :=
  with_px ph (fun p =>
  let st := clear_next (px_lists p) i in
  do* mutex_lock MIdleClients in
  match pool_return st i with
  | None => crash
  | Some st => do* mutex_unlock MIdleClients in ret (set_ph ph (set_px_lists p st))
  end).

(** The session of a slot, observed for at most [n] messages; [inl] when it
    still goes on then. *)
Definition slot_session (n i : nat) (ph : proxy_handle) : IO (bool * proxy_handle) :=
  on_client i (fun s =>
    let* x := process_loop n s in
    ret (match x with inl s => (true, s) | inr s => (false, s) end)) ph.

(** The thread of the worker of leg [l] of a slot, in its forwarder, observed for
    at most [n] rounds; [inl] when it still goes on then. *)
Definition slot_forward (l : leg) (n i : nat) (ph : proxy_handle) : IO (bool * proxy_handle) :=
  on_client i (fun s =>
    let* x := forwarder l n s in
    ret (match x with inl s => (true, s) | inr s => (false, s) end)) ph.

Definition pw_at (ph : proxy_handle) (i : nat) : option proxy_worker :=
  match ph_priv ph with
  | None => None
  | Some p => match px_workers p with None => None | Some ws => ws !! i end
  end.

(** proxy_worker_func_exit. *)
Definition worker_exit (i : nat) (ph : proxy_handle) : IO proxy_handle :=
  let* ph := worker_release i ph in proxy_update_registration ph.

(** After authorisation of [conn] as [call].  The result is [inl] while the
    session goes on after [n] messages, and [inr] when the function returns. *)
Definition worker_serve (n i conn : nat) (call : list Z) (ph : proxy_handle) : IO (proxy_handle + proxy_handle) :=
  let* ph := proxy_update_registration ph in
  let* (res, ph) := slot_acquire conn call ph in
  match res with
  | None => let* ph := worker_exit i ph in ret (inr ph)
  | Some k =>
      let* (going, ph) := slot_session n k ph in
      if (going : bool) then ret (inl ph) else
      let* (_, ph) := on_client k (fun s => let* s := proxy_conn_finish s in ret (tt, s)) ph in
      let* ph := slot_give_back k ph in
      let* ph := worker_exit i ph in
      ret (inr ph)
  end.

(** The beginning of the function: the connection and the callsign that are
    admitted.  A client that is refused is sent away. *)
Definition worker_admit (ctx : Md5.MD5_CTX) (i : nat) (ph : proxy_handle)
  : IO (option (nat * list Z) * proxy_handle) :=
  with_px ph (fun p =>
  match pw_at ph i with
  | None => crash
  | Some w =>
      do* mutex_lock_shared (MPw (pw_id w)) in
      do* mutex_unlock_shared (MPw (pw_id w)) in
      match pw_conn w with
      | None => ret (None, ph)
      | Some conn =>
          let* (r, call) := with_conn ph (Some conn) (fun _ c =>
            proxy_worker_authorize ctx (px_denied p) (px_allowed p) (password (ph_conf ph)) c) in
          let call := default (pw_callsign w) call in
          let* (_, ph) := on_pw i (fun w => ret (tt, set_pw_callsign w call)) ph in
          if r <? 0 then let* ph := worker_release i ph in ret (None, ph)
          else ret (Some (conn, call), ph)
      end
  end).

Definition proxy_worker_func (ctx : Md5.MD5_CTX) (n i : nat) (ph : proxy_handle)
  : IO (proxy_handle + proxy_handle) :=
  let* (admitted, ph) := worker_admit ctx i ph in
  match admitted with
  | None => ret (inr ph)
  | Some (conn, call) => worker_serve n i conn call ph
  end.

(** ** Loops over the slots *)

(** [for (i = ...; i < num_clients; i++)] over [n] indices from [i] on, ended by
    a negative value: that value and the index. *)
Fixpoint for_until (n i : nat) (f : nat -> proxy_handle -> IO (Z * proxy_handle)) (ph : proxy_handle)
  : IO (Z * nat * proxy_handle) :=
  match n with
  | O => ret (0, i, ph)
  | S n => let* (r, ph) := f i ph in
           if r <? 0 then ret (r, i, ph) else for_until n (S i) f ph
  end.

Fixpoint for_all (n i : nat) (f : nat -> proxy_handle -> IO proxy_handle) (ph : proxy_handle) : IO proxy_handle :=
  match n with
  | O => ret ph
  | S n => let* ph := f i ph in for_all n (S i) f ph
  end.

(** [for (i--; i >= 0; i--)]. *)
Fixpoint for_down (i : nat) (f : nat -> proxy_handle -> IO proxy_handle) (ph : proxy_handle) : IO proxy_handle :=
  match i with
  | O => ret ph
  | S i => let* ph := f i ph in for_down i f ph
  end.

Definition num (ph : proxy_handle) : nat :=
  match ph_priv ph with Some p => Z.to_nat (px_num p) | None => 0 end.

Definition client_free (i : nat) (ph : proxy_handle) : IO proxy_handle :=
  let* (_, ph) := on_client i (fun s => let* s := proxy_conn_free s in ret (tt, s)) ph in ret ph.

(** ** Opening *)

(** The two patterns: the pointer afterwards. *)
Definition open_pattern (pattern : option (list Z)) (re : option regex_handle) : IO (Z * option regex_handle) :=
  match pattern with
  | None => ret (0, None)
  | Some pat =>
      let* (r, re) :=
        (match re with
         | Some re => ret (0, Some re)
         | None =>
             let* a := sys CAlloc in
             if a_ret a =? 0 then ret (- ENOMEM, None) else
             let* (r, h) := regex_init None in ret (r, Some h)
         end) in
      match re with
      | None => ret (r, None)
      | Some h => if r <? 0 then ret (r, Some h)
                  else let* (r, h) := regex_compile h pat in ret (r, Some h)
      end
  end.

(** proxy_open_exit: the pattern for denied callsigns is kept. *)
Definition open_exit (env : lenv) (r : Z) (ph : proxy_handle) : IO (Z * proxy_handle) :=
  with_px ph (fun p =>
  match log_close env (px_log p) with
  | None => crash
  | Some (log, _) =>
      let p := set_px_log (set_px_allowed p None) log in
      ret (r, set_ph ph (set_px_num (set_px_clients (set_px_workers p None) None) 0))
  end).

Definition clear_idle_clients (p : proxy_priv) : proxy_priv :=
  set_px_lists p (set_tail (set_cell (px_lists p) LHead None) None).

(** proxy_open_exit_late and proxy_open_exit_later. *)
Definition open_exit_late (env : lenv) (r : Z) (ph : proxy_handle) : IO (Z * proxy_handle) :=
  with_px ph (fun p =>
  let ph := set_ph ph (clear_idle_clients p) in
  let* ph := for_all (num ph) 0 client_free ph in
  open_exit env r ph).

Definition open_exit_later (env : lenv) (r : Z) (ph : proxy_handle) : IO (Z * proxy_handle) :=
  with_px ph (fun p =>
  let ph := set_ph ph (set_px_idle_workers p None) in
  let* ph := for_all (num ph) 0 proxy_worker_free ph in
  open_exit_late env r ph).

(** The addresses the slots send from. *)
Definition source_addrs (c : proxy_conf) : list (option (list Z)) :=
  bind_addr_ext c :: (Some <$> default [] (bind_addr_ext_add c)).

(** Configure and initialise slot [i]. *)
Definition open_client (i : nat) (ph : proxy_handle) : IO (Z * proxy_handle) :=
  on_client i (fun s =>
    let c := pc s in
    proxy_conn_init (mkPst (mkPc (pc_id c) (pc_priv_ptr c) (pc_source_addr c) (Some (str "5199")) (Some (str "5198")))
                           (hp s))) ph.

(** Initialise worker [i] and put it at the head of the idle ones. *)
Definition open_worker (i : nat) (ph : proxy_handle) : IO (Z * proxy_handle) :=
  let* (r, ph) := proxy_worker_init i ph in
  if r <? 0 then ret (r, ph) else
  with_px ph (fun p =>
  let* (_, ph) := on_pw i (fun w => ret (tt, set_pw_next w (px_idle_workers p))) ph in
  with_px ph (fun p => ret (0, set_ph ph (set_px_idle_workers p (Some i))))).

(** The parts of proxy_open after the allocations: the patterns, ... *)
Definition open_patterns (ph : proxy_handle) : IO (Z * proxy_handle) :=
  with_px ph (fun p =>
  let* (r, re) := open_pattern (calls_allowed (ph_conf ph)) (px_allowed p) in
  let p := set_px_allowed p re in
  if r <? 0 then ret (r, set_ph ph p) else
  let* (r, re) := open_pattern (calls_denied (ph_conf ph)) (px_denied p) in
  ret (r, set_ph ph (set_px_denied p re))).

(** ... the lists, slots and workers, and the listening connection.  The hash
    map is cleared; a slot without an additional address is out of bounds. *)
Definition open_rest (env : lenv) (ph : proxy_handle) : IO (Z * proxy_handle) :=
  with_px ph (fun p =>
  let n := num ph in
  match px_clients p with
  | None => crash
  | Some cs =>
      if (length (source_addrs (ph_conf ph)) <? n)%nat then crash else
      let cs := zip_with (fun c a => mkPc (pc_id c) (pc_priv_ptr c) a (control_port c) (data_port c))
                         cs (source_addrs (ph_conf ph)) in
      let ph := set_ph ph (set_px_lists (set_px_clients p (Some cs)) (pool_open n)) in
      let* (r, i, ph) := for_until n 0 open_client ph in
      if r <? 0 then let* ph := for_down i client_free ph in open_exit env r ph else
      let* (r, i, ph) := for_until n 0 open_worker ph in
      if r <? 0 then let* ph := for_down i proxy_worker_free ph in open_exit_late env r ph else
      with_px ph (fun p =>
      let c := px_listen p in
      let c := mkConn (conn_id c) (bind_addr (ph_conf ph)) (Some (cstr (px_port p))) (conn_type c) (priv c) in
      let* (r, c) := conn_listen c in
      let ph := set_ph ph (set_px_listen p c) in
      if r <? 0 then open_exit_later env r ph else ret (0, ph))
  end).

Definition proxy_open (env : lenv) (ph : proxy_handle) : IO (Z * proxy_handle) :=
  with_px ph (fun p =>
  let n := Z.to_nat (1 + bind_addr_ext_add_len (ph_conf ph)) in
  let p := set_px_num (set_px_port p (conn_port_to_str (port (ph_conf ph)))) (Z.of_nat n) in
  let* a := sys CAlloc in
  if a_ret a =? 0 then ret (- ENOMEM, set_ph ph (set_px_clients p None)) else
  let p := set_px_clients p (Some (map client_zero (seq 0 n))) in
  let* a := sys CAlloc in
  if a_ret a =? 0 then open_exit env (- ENOMEM) (set_ph ph (set_px_workers p None)) else
  let p := set_px_workers p (Some (map (worker_zero n) (seq 0 n))) in
  match log_open env (px_log p) with
  | None => crash
  | Some (r, log, _) =>
      let ph := set_ph ph (set_px_log p log) in
      if r <? 0 then open_exit env r ph else
      let* (r, ph) := open_patterns ph in
      if r <? 0 then open_exit env r ph else
      open_rest env ph
  end).

(** ** Closing *)

Definition proxy_shutdown (ph : proxy_handle) : IO proxy_handle :=
  with_px ph (fun p =>
  do* mutex_lock MUsable in
  let ph := set_ph ph (set_px_usable p 0) in
  do* mutex_unlock MUsable in
  let* ph := proxy_update_registration ph in
  with_px ph (fun p => do* conn_shutdown (px_listen p) in ret ph)).

Definition proxy_drop (ph : proxy_handle) : IO proxy_handle :=
  with_px ph (fun _ => for_all (num ph) 0 proxy_worker_drop ph).

(** What [proxy_close] does once the workers are freed. *)
Definition close_rest (env : lenv) (ph : proxy_handle) : IO proxy_handle :=
  with_px ph (fun p =>
  let ph := set_ph ph (clear_idle_clients (set_px_lists p
              (mkPool (fun l => match l with LByCall _ => None | l => cell (px_lists p) l end)
                      (prev_ptr (px_lists p)) (prev_by_call_ptr (px_lists p)) (idle_clients_tail_ptr (px_lists p))))) in
  let* ph := for_all (num ph) 0 client_free ph in
  with_px ph (fun p =>
  let p := set_px_num (set_px_clients (set_px_workers p None) None) 0 in
  let* c := conn_close (px_listen p) in
  match log_close env (px_log p) with
  | None => crash
  | Some (log, _) => ret (set_ph ph (set_px_log (set_px_listen p c) log))
  end)).

Definition proxy_close (env : lenv) (ph : proxy_handle) : IO proxy_handle :=
  with_px ph (fun p =>
  let* (_, rs) := registration_service_stop (px_reg p) in
  let* ph := proxy_shutdown (set_ph ph (set_px_reg p rs)) in
  let* ph := proxy_drop ph in
  with_px ph (fun p =>
  let ph := set_ph ph (set_px_idle_workers p None) in
  let* ph := for_all (num ph) 0 proxy_worker_free ph in
  close_rest env ph)).

(** What [proxy_free] does after [proxy_close]. *)
Definition free_rest (env : lenv) (ph : proxy_handle) : IO proxy_handle :=
  with_px ph (fun p =>
  do* mutex_free (px_mutexes p).2 in
  do* mutex_free (px_mutexes p).1.2 in
  do* mutex_free (px_mutexes p).1.1 in
  do* registration_service_free (px_reg p) in
  do* conn_free (px_listen p) in
  match log_free env (px_log p) with
  | None => crash
  | Some _ => ret (mkPh (conf_free (ph_conf ph)) None (ph_conns ph))
  end).

Definition proxy_free (env : lenv) (ph : proxy_handle) : IO proxy_handle :=
  match ph_priv ph with
  | None => ret ph
  | Some _ => let* ph := proxy_close env ph in free_rest env ph
  end.

(** ** Initialisation *)

(** One step of proxy_init: on a failure everything is freed. *)
Definition init_step (env : lenv) (m : IO (Z * proxy_handle)) (k : proxy_handle -> IO (Z * proxy_handle))
  : IO (Z * proxy_handle) :=
  let* (r, ph) := m in
  if r <? 0 then let* ph := proxy_free env ph in ret (r, ph) else k ph.

Definition on_mutex (b : bool) (set : bool -> proxy_priv) (ph : proxy_handle) : IO (Z * proxy_handle) :=
  let* (r, b) := mutex_init b in ret (r, set_ph ph (set b)).

Definition proxy_init (env : lenv) (ph : proxy_handle) : IO (Z * proxy_handle) :=
  let* p := match ph_priv ph with
            | Some p => ret (Some p)
            | None => let* a := sys CAlloc in ret (if a_ret a =? 0 then None else Some px_zero)
            end in
  match p with
  | None => ret (- ENOMEM, ph)
  | Some p =>
      let ph := set_ph ph p in
      init_step env (ret (rand_init, ph)) (fun ph =>
      init_step env (let* ok := match log_priv_ptr (px_log p) with
                                | Some _ => ret true
                                | None => let* a := sys CAlloc in ret (negb (a_ret a =? 0))
                                end in
                     let '(r, log) := log_init ok (px_log p) in ret (r, set_ph ph (set_px_log p log))) (fun ph =>
      init_step env (let '(r, c) := conf_init (ph_conf ph) in ret (r, mkPh c (ph_priv ph) (ph_conns ph))) (fun ph =>
      init_step env (with_px ph (fun p =>
                     let c := px_listen p in
                     let* (r, c) := conn_init (mkConn (conn_id c) (source_addr c) (source_port c) CONN_TYPE_TCP (priv c)) in
                     ret (r, set_ph ph (set_px_listen p c)))) (fun ph =>
      init_step env (with_px ph (fun p =>
                     let* (r, rs) := registration_service_init (px_reg p) in
                     ret (r, set_ph ph (set_px_reg p rs)))) (fun ph =>
      init_step env (with_px ph (fun p => let '(u, c, w) := px_mutexes p in
                     on_mutex u (fun b => set_px_mutexes p (b, c, w)) ph)) (fun ph =>
      init_step env (with_px ph (fun p => let '(u, c, w) := px_mutexes p in
                     on_mutex c (fun b => set_px_mutexes p (u, b, w)) ph)) (fun ph =>
      init_step env (with_px ph (fun p => let '(u, c, w) := px_mutexes p in
                     on_mutex w (fun b => set_px_mutexes p (u, c, b)) ph)) (fun ph =>
      ret (0, ph)))))))))
  end.

(** ** Running *)

(** Take an idle worker off the list, if there may be one. *)
Definition pick_worker (ph : proxy_handle) : IO (option nat * proxy_handle) :=
  with_px ph (fun p =>
  do* mutex_lock_shared MUsable in
  do* mutex_lock MIdleWorkers in
  let* (w, ph) :=
    (match px_idle_workers p with
     | Some i =>
         if 0 <? px_usable p then
           match pw_at ph i with
           | None => crash
           | Some w => ret (Some i, set_ph ph (set_px_idle_workers p (pw_next w)))
           end
         else ret (None, ph)
     | None => ret (None, ph)
     end) in
  do* mutex_unlock MIdleWorkers in
  do* mutex_unlock_shared MUsable in
  ret (w, ph)).

(** conn_process_exit: the new connection is freed. *)
Definition process_exit (k : nat) (r : Z) (ph : proxy_handle) : IO (Z * proxy_handle) :=
  with_conn ph (Some k) (fun k c => do* conn_free c in ret (r, set_conns ph (delete k (ph_conns ph)))).

Definition proxy_process (ph : proxy_handle) : IO (Z * proxy_handle) :=
  with_px ph (fun p =>
  let* a := sys CAlloc in
  if a_ret a =? 0 then ret (- ENOMEM, ph) else
  let k := fresh (dom (ph_conns ph)) in
  let* (r, c) := conn_init (mkConn (3 * (num ph + 1) + k) None None 0 None) in
  if r <? 0 then ret (r, ph) else
  let* (r, c) := conn_accept (px_listen p) c in
  let ph := set_conns ph (<[k := c]> (ph_conns ph)) in
  if r <? 0 then process_exit k r ph else
  let* (w, ph) := pick_worker ph in
  match w with
  | None => process_exit k 0 ph
  | Some i =>
      let* (r, ph) := proxy_worker_accept i k ph in
      if r <? 0 then process_exit k r ph else ret (0, ph)
  end).

Definition client_start (i : nat) : proxy_handle -> IO (Z * proxy_handle) := on_client i proxy_conn_start.
Definition client_stop (i : nat) (ph : proxy_handle) : IO proxy_handle :=
  let* (_, ph) := on_client i proxy_conn_stop ph in ret ph.
Definition pw_start (i : nat) : proxy_handle -> IO (Z * proxy_handle) :=
  on_pw i (fun w => let* (r, wk) := worker_start (pw_worker w) in ret (r, set_pw_worker w (pw_mutex w) wk)).
Definition pw_join (i : nat) (ph : proxy_handle) : IO proxy_handle :=
  let* (_, ph) := on_pw i (fun w =>
    let* (_, wk) := worker_join (pw_worker w) in ret (tt, set_pw_worker w (pw_mutex w) wk)) ph in
  ret ph.

Definition proxy_start (ctx : Md5.MD5_CTX) (mem : nat -> Z) (ph : proxy_handle) : IO (Z * proxy_handle) :=
  with_px ph (fun _ =>
  let n := num ph in
  let exit_early (i : nat) (r : Z) (ph : proxy_handle) : IO (Z * proxy_handle) :=
    let* ph := for_down i client_stop ph in ret (r, ph) in
  let exit (i : nat) (r : Z) (ph : proxy_handle) : IO (Z * proxy_handle) :=
    let* ph := for_down i pw_join ph in exit_early n r ph in
  let* (r, i, ph) := for_until n 0 client_start ph in
  if r <? 0 then exit_early i r ph else
  let* (r, i, ph) := for_until n 0 pw_start ph in
  if r <? 0 then exit i r ph else
  with_px ph (fun p =>
  do* mutex_lock MUsable in
  let ph := set_ph ph (set_px_usable p (px_num p)) in
  do* mutex_unlock MUsable in
  let* ph := proxy_update_registration ph in
  with_px ph (fun p =>
  let* (r, rs) := registration_service_start ctx mem (px_reg p) (ph_conf ph) in
  let ph := set_ph ph (set_px_reg p rs) in
  if r <? 0 then exit i r ph else ret (0, ph)))).

End Proxy.

(** ** Lock discipline *)

(** [solve_locks] through local definitions. *)
Ltac walk_locks := repeat (progress (cbv zeta; solve_locks)).

Section Locks.
Context {Os : OS} {Rx : Pcre}.

Lemma locks_on_client {A} i (f : pst -> IO (A * pst)) ph k :
  (forall s, locks k (f s) k) -> locks k (on_client i f ph) k.
Proof using. intros Hf. unfold on_client, with_px. walk_locks. Qed.

Lemma locks_on_pw {A} i (f : proxy_worker -> IO (A * proxy_worker)) ph k :
  (forall w, locks k (f w) k) -> locks k (on_pw i f ph) k.
Proof using. intros Hf. unfold on_pw, with_px. walk_locks. Qed.

Lemma locks_update ph : locks [] (proxy_update_registration ph) [].
Proof using. unfold proxy_update_registration, with_px. walk_locks. Qed.

Lemma locks_worker_accept i conn ph : locks [] (proxy_worker_accept i conn ph) [].
Proof using. apply locks_on_pw. intros w. walk_locks. Qed.

Lemma locks_worker_drop i ph : locks [] (proxy_worker_drop i ph) [].
Proof using. unfold proxy_worker_drop, with_px, with_conn. walk_locks. Qed.

Lemma locks_pw_free i ph : locks [] (proxy_worker_free i ph) [].
Proof using.
  unfold proxy_worker_free. eapply locks_bind; [apply locks_on_pw; intros w|intros [? ?]]; walk_locks.
Qed.

Lemma locks_pw_init i ph : locks [] (proxy_worker_init i ph) [].
Proof using. apply locks_on_pw. intros w. walk_locks. Qed.

Lemma locks_worker_release i ph : locks [] (worker_release i ph) [].
Proof using. unfold worker_release, with_px, with_conn. walk_locks. Qed.

Lemma locks_slot_search fuel cur conn call r ph k :
  below (MClient 0) k -> locks k (slot_search fuel cur conn call r ph) k.
Proof using.
  intros Hk. revert cur r ph. induction fuel as [|fuel IH]; intros [i|] r ph; cbn [slot_search];
    [apply locks_crash|apply locks_ret| |apply locks_ret].
  eapply locks_bind; [apply locks_on_client; intros s; by apply locks_accept|intros [r' ph']].
  case_match; [walk_locks|]. unfold with_px. case_match; [apply IH|walk_locks].
Qed.

Lemma locks_slot_acquire conn call ph : locks [] (slot_acquire conn call ph) [].
Proof using.
  unfold slot_acquire, with_px. case_match; [|walk_locks].
  assert (Hk : below (MClient 0) [(false, MIdleClients)]) by below.
  eapply locks_bind; [apply locks_lock; below|intros _].
  eapply locks_bind; [|intros [res ph']; walk_locks].
  case_match; [|walk_locks].
  eapply locks_bind; [by apply locks_slot_search|intros [[r found] ph1]].
  eapply (locks_bind _ _ _ [(false, MIdleClients)]); [|intros [[r' i] ph2]; walk_locks].
  destruct found; [walk_locks|].
  eapply locks_bind; [apply locks_on_client; intros s; by apply locks_accept|intros [? ?]; walk_locks].
Qed.

Lemma locks_process_loop n s k : below (MClient 0) k -> locks k (process_loop n s) k.
Proof using.
  intros Hk. revert s. induction n as [|n IH]; intros s; cbn [process_loop]; [walk_locks|].
  eapply locks_bind; [by apply locks_process|intros [r s']]. case_match; [apply IH|walk_locks].
Qed.

Lemma locks_worker_serve n i conn call ph : locks [] (worker_serve n i conn call ph) [].
Proof using.
  assert (Hexit : forall ph, locks [] (worker_exit i ph) []).
  { intros. unfold worker_exit. eapply locks_bind; [apply locks_worker_release|intros; apply locks_update]. }
  assert (Hk : below (MClient 0) []) by below.
  unfold worker_serve. eapply locks_bind; [apply locks_update|intros ph1].
  eapply locks_bind; [apply locks_slot_acquire|intros [[k|] ph2]].
  2: { eapply locks_bind; [apply Hexit|intros; walk_locks]. }
  eapply locks_bind; [apply locks_on_client; intros s|intros [going ph3]].
  { eapply locks_bind; [by apply locks_process_loop|intros; walk_locks]. }
  destruct going; [walk_locks|].
  eapply locks_bind; [apply locks_on_client; intros s|intros [? ph4]].
  { eapply locks_bind; [by apply locks_finish|intros; walk_locks]. }
  eapply (locks_bind _ _ _ []); [unfold slot_give_back, with_px; walk_locks|intros].
  eapply locks_bind; [apply Hexit|intros; walk_locks].
Qed.

Lemma locks_authorize ctx d a pw c k : below (MConn 0) k -> locks k (proxy_worker_authorize ctx d a pw c) k.
Proof using.
  intros Hk. unfold proxy_worker_authorize, get_nonce, rand_get, get_password_response, proxy_authorize_callsign,
    regex_is_match, refuse. walk_locks.
Qed.

Lemma locks_worker_admit ctx i ph : locks [] (worker_admit ctx i ph) [].
Proof using.
  unfold worker_admit, with_px. case_match; [|walk_locks]. case_match; [|walk_locks].
  eapply locks_bind; [apply locks_lock; below|intros _]. eapply locks_bind; [apply locks_unlock|intros _].
  case_match; [|walk_locks].
  eapply locks_bind; [unfold with_conn; case_match; [apply locks_authorize; below|walk_locks]|intros [r call]].
  eapply locks_bind; [apply locks_on_pw; intros; walk_locks|intros [? ph1]].
  case_match; [|walk_locks]. eapply locks_bind; [apply locks_worker_release|intros; walk_locks].
Qed.

Lemma locks_worker_func ctx n i ph : locks [] (proxy_worker_func ctx n i ph) [].
Proof using.
  unfold proxy_worker_func. eapply locks_bind; [apply locks_worker_admit|intros [[[conn call]|] ph1]];
    [apply locks_worker_serve|walk_locks].
Qed.

Lemma locks_for_all n i f ph : (forall i ph, locks [] (f i ph) []) -> locks [] (for_all n i f ph) [].
Proof using.
  intros Hf. revert i ph. induction n as [|n IH]; intros i ph; cbn [for_all]; [walk_locks|].
  eapply locks_bind; [apply Hf|intros; apply IH].
Qed.

Lemma locks_for_down i f ph : (forall i ph, locks [] (f i ph) []) -> locks [] (for_down i f ph) [].
Proof using.
  intros Hf. revert ph. induction i as [|i IH]; intros ph; cbn [for_down]; [walk_locks|].
  eapply locks_bind; [apply Hf|intros; apply IH].
Qed.

Lemma locks_for_until n i f ph : (forall i ph, locks [] (f i ph) []) -> locks [] (for_until n i f ph) [].
Proof using.
  intros Hf. revert i ph. induction n as [|n IH]; intros i ph; cbn [for_until]; [walk_locks|].
  eapply locks_bind; [apply Hf|intros [r ph']]. case_match; [walk_locks|apply IH].
Qed.

Lemma locks_client_free i ph : locks [] (client_free i ph) [].
Proof using.
  unfold client_free. eapply locks_bind; [apply locks_on_client; intros s|intros []; walk_locks].
  eapply locks_bind; [apply locks_free; below|intros; walk_locks].
Qed.

Lemma locks_open_exit env r ph : locks [] (open_exit env r ph) [].
Proof using. unfold open_exit, with_px. walk_locks. Qed.

Lemma locks_open_exit_late env r ph : locks [] (open_exit_late env r ph) [].
Proof using.
  unfold open_exit_late, with_px. case_match; [|walk_locks].
  eapply locks_bind; [apply locks_for_all, locks_client_free|intros; apply locks_open_exit].
Qed.

Lemma locks_open_rest env ph : locks [] (open_rest env ph) [].
Proof using.
  unfold open_rest, with_px. case_match; [|walk_locks]. case_match; [|walk_locks]. case_match; [walk_locks|].
  eapply locks_bind; [apply locks_for_until|intros [[r i] ph1]].
  { intros. apply locks_on_client. intros. apply locks_init. below. }
  case_match.
  { eapply locks_bind; [apply locks_for_down, locks_client_free|intros; apply locks_open_exit]. }
  eapply locks_bind; [apply locks_for_until|intros [[r' i'] ph2]].
  { intros. unfold open_worker, with_px. eapply locks_bind; [apply locks_pw_init|intros [? ?]].
    case_match; [walk_locks|]. case_match; [|walk_locks].
    eapply locks_bind; [apply locks_on_pw; intros; walk_locks|intros [? ?]; walk_locks]. }
  case_match.
  { eapply locks_bind; [apply locks_for_down, locks_pw_free|intros; apply locks_open_exit_late]. }
  case_match; [|walk_locks]. eapply locks_bind; [walk_locks|intros [? ?]]. case_match; [|walk_locks].
  unfold open_exit_later, with_px. case_match; [|walk_locks].
  eapply locks_bind; [apply locks_for_all, locks_pw_free|intros; apply locks_open_exit_late].
Qed.

Lemma locks_open env ph : locks [] (proxy_open env ph) [].
Proof using.
  unfold proxy_open, with_px. case_match; [|walk_locks].
  eapply locks_bind; [walk_locks|intros a]. case_match; [walk_locks|].
  eapply locks_bind; [walk_locks|intros b]. case_match; [apply locks_open_exit|].
  case_match; [|walk_locks]. destruct p0 as [[r log] acts]. case_match; [apply locks_open_exit|].
  eapply (locks_bind _ _ _ []); [|intros [r' ph1]; case_match; [apply locks_open_exit|apply locks_open_rest]].
  unfold open_patterns, with_px, open_pattern, regex_init, regex_compile. walk_locks.
Qed.

Lemma locks_shutdown ph : locks [] (proxy_shutdown ph) [].
Proof using.
  unfold proxy_shutdown, with_px. case_match; [|walk_locks].
  eapply locks_bind; [apply locks_lock; below|intros _]. eapply locks_bind; [apply locks_unlock|intros _].
  eapply locks_bind; [apply locks_update|intros]. walk_locks.
Qed.

Lemma locks_drop ph : locks [] (proxy_drop ph) [].
Proof using. unfold proxy_drop, with_px. case_match; [apply locks_for_all, locks_worker_drop|walk_locks]. Qed.

Lemma locks_close env ph : locks [] (proxy_close env ph) [].
Proof using.
  unfold proxy_close, close_rest, with_px. case_match; [|walk_locks].
  eapply locks_bind; [apply locks_reg_stop; below|intros [? ?]].
  eapply locks_bind; [apply locks_shutdown|intros ph1]. eapply locks_bind; [apply locks_drop|intros ph2].
  case_match; [|walk_locks]. eapply locks_bind; [apply locks_for_all, locks_pw_free|intros ph3].
  case_match; [|walk_locks]. eapply locks_bind; [apply locks_for_all, locks_client_free|intros ph4].
  walk_locks.
Qed.

Lemma locks_proxy_free env ph : locks [] (proxy_free env ph) [].
Proof using.
  unfold proxy_free. case_match; [|walk_locks]. eapply locks_bind; [apply locks_close|intros ph1].
  unfold free_rest, with_px. case_match; [|walk_locks]. do 3 (eapply locks_bind; [walk_locks|intros ?]).
  eapply locks_bind; [apply locks_reg_free; below|intros ?]. walk_locks.
Qed.

Lemma locks_init_step env m k :
  locks [] m [] -> (forall ph, locks [] (k ph) []) -> locks [] (init_step env m k) [].
Proof using.
  intros Hm Hk. unfold init_step. eapply locks_bind; [exact Hm|intros [r ph]]. case_match; [|apply Hk].
  eapply locks_bind; [apply locks_proxy_free|intros; walk_locks].
Qed.

Lemma locks_proxy_init env ph : locks [] (proxy_init env ph) [].
Proof using.
  unfold proxy_init. eapply (locks_bind _ _ _ []); [walk_locks|intros [p|]; [|walk_locks]]. cbv zeta.
  repeat (apply locks_init_step; [|intros ?]); unfold with_px, on_mutex;
    repeat (case_match; [|walk_locks]); try walk_locks.
Qed.

Lemma locks_process_exit k r ph : locks [] (process_exit k r ph) [].
Proof using. unfold process_exit, with_conn. walk_locks. Qed.

Lemma locks_proxy_process ph : locks [] (proxy_process ph) [].
Proof using.
  unfold proxy_process, with_px. case_match; [|walk_locks].
  eapply locks_bind; [walk_locks|intros a]. case_match; [walk_locks|]. cbv zeta.
  eapply locks_bind; [walk_locks|intros [r c]]. case_match; [walk_locks|].
  eapply locks_bind; [walk_locks|intros [r' c']]. case_match; [apply locks_process_exit|].
  eapply (locks_bind _ _ _ []); [unfold pick_worker, with_px; walk_locks|intros [[i|] ph1]]; [|apply locks_process_exit].
  eapply locks_bind; [apply locks_worker_accept|intros [r2 ph2]]. case_match; [apply locks_process_exit|walk_locks].
Qed.

Lemma locks_proxy_start ctx mem ph : locks [] (proxy_start ctx mem ph) [].
Proof using.
  assert (Hk : below (MClient 0) []) by below.
  assert (Hstop : forall i ph, locks [] (client_stop i ph) []).
  { intros. unfold client_stop. eapply locks_bind; [apply locks_on_client; intros; by apply locks_stop|intros [? ?]; walk_locks]. }
  assert (Hjoin : forall i ph, locks [] (pw_join i ph) []).
  { intros. unfold pw_join. eapply locks_bind; [apply locks_on_pw; intros; walk_locks|intros [? ?]; walk_locks]. }
  assert (Hexit : forall i (r : Z) ph, locks [] (let* ph := for_down i client_stop ph in ret (r, ph)) []).
  { intros. eapply locks_bind; [by apply locks_for_down|intros; walk_locks]. }
  unfold proxy_start, with_px. case_match; [|walk_locks].
  eapply locks_bind; [apply locks_for_until; intros; apply locks_on_client; intros; by apply locks_start|intros [[r i] ph1]].
  case_match; [apply Hexit|].
  eapply locks_bind; [apply locks_for_until; intros; apply locks_on_pw; intros; walk_locks|intros [[r' i'] ph2]].
  case_match; [eapply locks_bind; [by apply locks_for_down|intros; apply Hexit]|].
  case_match; [|walk_locks].
  eapply locks_bind; [apply locks_lock; below|intros _]. eapply locks_bind; [apply locks_unlock|intros _].
  eapply locks_bind; [apply locks_update|intros ph3]. case_match; [|walk_locks].
  eapply locks_bind; [apply locks_reg_start; below|intros [r2 rs]].
  case_match; [eapply locks_bind; [by apply locks_for_down|intros; apply Hexit]|walk_locks].
Qed.

End Locks.

(** ** Properties *)

(** C28. Every operation of the library on a proxy, and the whole function of a
    worker, takes locks in the one global order (usable clients, idle workers,
    idle slots, worker, registration, client, send, worker state, thread,
    connection), releases them in stack order and holds none when it returns,
    on every path and whatever the system answers. *)
Theorem proxy_lock_discipline {Os : OS} {Rx : Pcre} env ctx mem n i ph :
  locks [] (proxy_init env ph) [] /\ locks [] (proxy_open env ph) [] /\
  locks [] (proxy_start ctx mem ph) [] /\ locks [] (proxy_process ph) [] /\
  locks [] (proxy_worker_func ctx n i ph) [] /\ locks [] (proxy_update_registration ph) [] /\
  locks [] (proxy_shutdown ph) [] /\ locks [] (proxy_drop ph) [] /\
  locks [] (proxy_close env ph) [] /\ locks [] (proxy_free env ph) [].
Proof.
  split_and!; auto using locks_proxy_init, locks_open, locks_proxy_start, locks_proxy_process, locks_worker_func,
    locks_update, locks_shutdown, locks_drop, locks_close, locks_proxy_free.
Qed.

(** A log environment in which nothing needs to be opened. *)
Definition example_env : lenv := mkEnv (inr 2) None (- 95) [] None true.

(** A proxy whose initialisation fails on the way does not survive it:
    proxy_init cleans up with proxy_free, which stops the registration service
    before it exists; when the second allocation fails, NULL is dereferenced. *)
Theorem proxy_init_failure_crashes {Rx : Pcre} :
  exists O : OS, OSLaws O /\
    fst (proxy_init (Os := O) example_env (mkPh conf_zero None ∅) []) = None.
Proof.
  exists (Scripted [returns 1; returns 0]). split; [apply Scripted_laws|]. vm_compute. reflexivity.
Qed.

(** An operating system on which only allocation number [k] fails, and the calls
    that would need a network. *)
Definition is_alloc (ev : event) : bool := match ev with ESys CAlloc _ => true | _ => false end.
Definition AllocFails (k : nat) : OS := fun h c =>
  match c with
  | CAlloc => returns (if decide (length (List.filter is_alloc h) = k) then 0 else 1)
  | _ => default_ans c
  end.

Lemma AllocFails_laws k : OSLaws (AllocFails k).
Proof.
  intros h c. unfold os_answer, AllocFails.
  destruct c; simpl; unfold failed; simpl; try (left; split; unfold EPIPE; lia); try lia; done.
Qed.

(** Two slots. *)
Definition example_conf2 : proxy_conf :=
  set_add (set_field FBindAddrExt (Some (str "192.0.2.1")) conf_zero) (Some [str "192.0.2.2"]) 1.

(** proxy_init, proxy_open and proxy_free one after the other: the value of
    proxy_open, what it leaves, and whether proxy_free comes to its end. *)
Definition open_and_free (k : nat) : option (Z * option nat * Z * bool) :=
  let O := AllocFails k in
  match proxy_init (Os := O) (Rx := Literal) example_env (mkPh example_conf2 None ∅) [] with
  | (Some (0, ph), e) =>
      match proxy_open (Os := O) example_env ph e with
      | (Some (r, ph), e') =>
          match ph_priv ph with
          | None => None
          | Some p => Some (r, px_idle_workers p, px_num p,
                            bool_decide (is_Some (fst (proxy_free (Os := O) example_env ph (e ++ e')))))
          end
      | _ => None
      end
  | _ => None
  end.

(** A failed proxy_open leaves traps for the proxy_free that follows.  When
    the second worker cannot be initialised, the list of idle workers still
    points into the array that is freed; when the array of slots cannot be
    allocated, the number of slots stays.  In both cases proxy_open reports the
    lack of memory, and proxy_free then follows a bad pointer. *)
Theorem proxy_open_failure_crashes :
  (exists k, OSLaws (AllocFails k) /\ open_and_free k = Some (- ENOMEM, Some 0%nat, 0, false)) /\
  (exists k, OSLaws (AllocFails k) /\ open_and_free k = Some (- ENOMEM, None, 2, false)).
Proof.
  split; [exists 78%nat|exists 15%nat]; (split; [apply AllocFails_laws|vm_compute; reflexivity]).
Qed.
