(* ===== verification/ProxyRun.v ===== *)
(** * Running the proxy (src/src/proxy.c)

    What the operations of Proxy.v do to a whole proxy.  The first part shows
    that the operations of a slot touch no connection but that of the slot's
    client, and that a session never follows a bad pointer; the second states
    when a proxy is consistent and shows that the operations keep it so. *)

From stdpp Require Import functions.
From S2P Require Import Prelude Digest Pearson Sys Mutex Worker Conn Conf ProxyConn Auth Pool Registration Log Proxy.

(** ** Slots and the heap *)

Lemma wp_gives {A} (m : IO A) (P : A -> Prop) h Q :
  gives m P -> wp m h Q -> wp m h (fun a e => P a /\ Q a e).
Proof. intros Hg (a & e & Hm & HQ). exists a, e. split; [done|]. split; [by eapply Hg|done]. Qed.

Lemma wp_bind_inv {A B} (m : IO A) (f : A -> IO B) h Q :
  wp (bind m f) h Q -> wp m h (fun a e => wp (f a) (h ++ e) (fun b e' => Q b (e ++ e'))).
Proof.
  intros (b & e & Hm & HQ). unfold bind in Hm. destruct (m h) as [[a|] e1] eqn:E; [|done].
  destruct (f a (h ++ e1)) as [r e2] eqn:E2. injection Hm as -> <-.
  exists a, e1. split; [done|]. by exists b, e2.
Qed.

(** An initialised connection of the heap. *)
Definition live (h : heap) (k : nat) : Prop := exists c, h !! k = Some c /\ is_Some (priv c).

(** A connection of the heap that has been dropped: nothing is read from or
    written to it any more. *)
Definition gone (h : heap) (k : nat) : Prop :=
  exists c q, h !! k = Some c /\ priv c = Some q /\ fd q = INVALID_SOCKET.

(** At most connection [k] changes; it stays initialised, and dropped if it was. *)
Definition touch (k : nat) (h h' : heap) : Prop :=
  (forall j, j <> k -> h' !! j = h !! j) /\ (live h k -> live h' k) /\ (gone h k -> gone h' k).

Lemma touch_refl k h : touch k h h.
Proof. done. Qed.
Lemma touch_trans k h1 h2 h3 : touch k h1 h2 -> touch k h2 h3 -> touch k h1 h3.
Proof. intros (H1 & H2 & H3) (H4 & H5 & H6). split_and!; [intros j Hj; rewrite H4, H1 by done; done|auto..]. Qed.
Lemma touch_live k h h' j : touch k h h' -> live h j -> live h' j.
Proof.
  intros (H1 & H2 & _). destruct (decide (j = k)) as [->|Hj]; [done|]. unfold live. by rewrite H1.
Qed.
Lemma touch_gone k h h' j : touch k h h' -> gone h j -> gone h' j.
Proof.
  intros (H1 & _ & H2). destruct (decide (j = k)) as [->|Hj]; [done|]. unfold gone. by rewrite H1.
Qed.

(** The slot has no client but connection [k]. *)
Definition only_client (k : nat) (c : proxy_conn_handle) : Prop :=
  forall p i, pc_priv_ptr c = Some p -> conn_client p = Some i -> i = k.

(** What an operation on a slot leaves: no client but [k], no connection but [k]
    touched, the same slot. *)
Definition kept (k : nat) (s s' : pst) : Prop :=
  only_client k (pc s) ->
  only_client k (pc s') /\ touch k (hp s) (hp s') /\ pc_id (pc s') = pc_id (pc s).

Lemma kept_refl k s : kept k s s.
Proof. intros Hs. split_and!; [done|apply touch_refl|done]. Qed.
Lemma kept_trans k s1 s2 s3 : kept k s1 s2 -> kept k s2 s3 -> kept k s1 s3.
Proof.
  intros H12 H23 H1. destruct (H12 H1) as (H2 & Ht & Hi). destruct (H23 H2) as (H3 & Ht' & Hi').
  split_and!; [done|by eapply touch_trans|congruence].
Qed.

Lemma kept_set k s p p' :
  pc_priv_ptr (pc s) = Some p ->
  conn_client p' = conn_client p \/ conn_client p' = None \/ conn_client p' = Some k ->
  kept k s (set_pc s (Some p')).
Proof.
  intros Hp Hc Hs. split_and!; [|apply touch_refl|done]. intros q i [= <-] Hi.
  destruct Hc as [Hc|[Hc|Hc]]; [by eapply Hs; [|rewrite <- Hc]|congruence|congruence].
Qed.

Section Kept.
Context {O : OS} (k : nat).

(** Run a step and go on from the slot it leaves. *)
Lemma gives_kept_bind {A} (m : IO A) (f : A -> IO pst) s (g : A -> pst) :
  gives m (fun a => kept k s (g a)) -> (forall a, gives (f a) (kept k (g a))) ->
  gives (bind m f) (kept k s).
Proof using.
  intros Hm Hf. eapply gives_bind; [exact Hm|]. intros a Ha h s' e Hr.
  eapply kept_trans; [exact Ha|]. by eapply Hf.
Qed.

Lemma gives_kept_bind2 {A B} (m : IO A) (f : A -> IO (B * pst)) s (g : A -> pst) :
  gives m (fun a => kept k s (g a)) -> (forall a, gives (f a) (fun r => kept k (g a) r.2)) ->
  gives (bind m f) (fun r => kept k s r.2).
Proof using.
  intros Hm Hf. eapply gives_bind; [exact Hm|]. intros a Ha h s' e Hr.
  eapply kept_trans; [exact Ha|]. by eapply (Hf a).
Qed.

Lemma conn_drop_keeps c : gives (conn_drop c) (fun c' => exists q, priv c' = Some q /\ fd q = INVALID_SOCKET).
Proof using.
  unfold conn_drop, with_priv. destruct (priv c) as [p|] eqn:Hp; [|apply gives_crash].
  eapply gives_bind; [apply gives_any|intros _ _].
  destruct (Z.eqb_spec (conn_fd p) INVALID_SOCKET), (Z.eqb_spec (fd p) INVALID_SOCKET); cbn [andb].
  1: { eapply gives_bind; [apply gives_any|intros _ _]. apply gives_ret. by exists p. }
  all: do 5 (eapply gives_bind; [apply gives_any|intros _ _]); apply gives_ret; by eexists.
Qed.

Lemma kept_drop s : gives (proxy_conn_drop s) (kept k s).
Proof using.
  unfold proxy_conn_drop, with_pc. destruct (pc_priv_ptr (pc s)) as [p|] eqn:Hp; [|apply gives_crash].
  eapply gives_bind; [apply gives_any|intros _ _].
  apply (gives_kept_bind _ _ s (fun s' => s')).
  2: { intros s'. eapply gives_bind; [apply gives_any|intros _ _]. apply gives_ret, kept_refl. }
  destruct (conn_client p) as [i|] eqn:Hi; [|apply gives_ret, kept_refl].
  unfold with_client. rewrite Hi. destruct (hp s !! i) as [c|] eqn:Hc; [|apply gives_crash].
  eapply gives_bind; [apply conn_drop_keeps|]. intros c' (q & Hq & Hfd). apply gives_ret. intros Hs.
  assert (i = k) as -> by (by eapply Hs). split_and!; [done| |done]. split_and!.
  - intros j Hj. simpl. by rewrite lookup_insert_ne.
  - intros _. exists c'. simpl. rewrite lookup_insert_eq, Hq. by split.
  - intros _. exists c', q. simpl. by rewrite lookup_insert_eq.
Qed.

Lemma kept_close_leg l s : gives (close_leg l s) (kept k s).
Proof using.
  unfold close_leg, with_pc. destruct (pc_priv_ptr (pc s)) as [p|] eqn:Hp; [|apply gives_crash].
  eapply gives_bind; [apply gives_any|intros c _]. apply gives_ret.
  eapply kept_set; [done|]. left. by destruct l.
Qed.

Lemma kept_on_worker f l s : gives (on_worker f l s) (fun r => kept k s r.2).
Proof using.
  unfold on_worker, with_pc. destruct (pc_priv_ptr (pc s)) as [p|] eqn:Hp; [|apply gives_crash].
  eapply gives_bind; [apply gives_any|intros [r w] _]. apply gives_ret.
  eapply kept_set; [done|]. left. by destruct l.
Qed.

Lemma kept_listen_leg l s : gives (listen_leg l s) (fun r => kept k s r.2).
Proof using.
  unfold listen_leg, with_pc. destruct (pc_priv_ptr (pc s)) as [p|] eqn:Hp; [|apply gives_crash].
  eapply gives_bind; [apply gives_any|intros [r c] _]. apply gives_ret.
  eapply kept_set; [done|]. left. by destruct l.
Qed.

Lemma kept_finish s : gives (proxy_conn_finish s) (kept k s).
Proof using.
  unfold proxy_conn_finish.
  apply (gives_kept_bind _ _ s (fun s' => s')); [apply kept_drop|intros s1].
  do 3 (apply (gives_kept_bind _ _ _ (fun s' => s')); [apply kept_close_leg|intros ?s]).
  do 3 (apply (gives_kept_bind _ _ _ snd); [apply kept_on_worker|intros [? ?s]; simpl]).
  eapply gives_bind; [apply gives_any|intros _ _].
  eapply (gives_kept_bind _ _ _ (fun s' => s')).
  2: { intros s'. eapply gives_bind; [apply gives_any|intros _ _]. apply gives_ret, kept_refl. }
  unfold with_pc. destruct (pc_priv_ptr _) as [p|] eqn:Hp; [|apply gives_crash].
  apply gives_ret. eapply kept_set; [done|]. by right; left.
Qed.

Lemma kept_accept s call ro : gives (proxy_conn_accept s k call ro) (fun r => kept k s r.2).
Proof using.
  unfold proxy_conn_accept, with_pc. destruct (pc_priv_ptr (pc s)) as [p|] eqn:Hp; [|apply gives_crash].
  eapply gives_bind; [apply gives_any|intros _ _]. case_match.
  { eapply gives_bind; [apply gives_any|intros _ _]. apply gives_ret, kept_refl. }
  eapply gives_bind; [apply gives_any|intros _ _].
  assert (Hfail : forall (r : Z) s, gives (let* s := proxy_conn_finish s in ret (r, s)) (fun r => kept k s r.2)).
  { intros r s'. apply (gives_kept_bind2 _ _ _ (fun s' => s')); [apply kept_finish|intros]. apply gives_ret, kept_refl. }
  set (s1 := set_pc s _). intros h r e Hr. eapply (kept_trans _ _ s1).
  { eapply kept_set; [done|]. by right; right. }
  revert h r e Hr. change (gives
    (let* (r, s) := listen_leg Control s1 in
     if r <? 0 then let* s := proxy_conn_finish s in ret (r, s) else
     let* (r, s) := listen_leg Data s in
     if r <? 0 then let* s := proxy_conn_finish s in ret (r, s) else
     let* (r, s) := on_worker worker_wake Control s in
     if r <? 0 then let* s := proxy_conn_finish s in ret (r, s) else
     let* (r, s) := on_worker worker_wake Data s in
     if r <? 0 then let* s := proxy_conn_finish s in ret (r, s) else ret (0, s)) (fun r => kept k s1 r.2)).
  do 2 (apply (gives_kept_bind2 _ _ _ snd); [apply kept_listen_leg|intros [? ?s]; simpl; case_match; [apply Hfail|]]).
  do 2 (apply (gives_kept_bind2 _ _ _ snd); [apply kept_on_worker|intros [? ?s]; simpl; case_match; [apply Hfail|]]).
  apply gives_ret, kept_refl.
Qed.

End Kept.

(** ** Sessions *)

(** A session keeps the slot, its client and callsign, and all connections of
    the heap. *)
Definition goes_on (s : pst) (p : pc_priv) (s' : pst) : Prop :=
  exists p', slot s' p' /\ same_client p p' /\ hp s' = hp s /\ pc_id (pc s') = pc_id (pc s).

Lemma goes_on_refl s p : slot s p -> goes_on s p s.
Proof. intros Hs. by exists p. Qed.

Lemma goes_on_set s p p' : slot s p -> alive (hp s) p' -> same_client p p' -> goes_on s p (set_pc s (Some p')).
Proof. intros Hs Ha Hc. by exists p'. Qed.

Lemma goes_on_bind s p s' p' s'' :
  same_client p p' -> hp s' = hp s -> pc_id (pc s') = pc_id (pc s) -> goes_on s' p' s'' -> goes_on s p s''.
Proof.
  intros [H1 H2] Hh Hi (q & Hs & [H3 H4] & Hh' & Hi'). exists q. split_and!; [done| |congruence|congruence].
  split; congruence.
Qed.

(** *** Connections that have been dropped *)

Section Gone.
Context {O : OS} (c : conn_handle) (q : conn_priv) (Hq : priv c = Some q) (Hfd : fd q = INVALID_SOCKET).

Lemma conn_send_gone b : gives (conn_send c b) (fun r => r < 0).
Proof using Hq Hfd.
  unfold conn_send, with_priv. rewrite Hq, Hfd. case_match; [by apply gives_ret|].
  eapply gives_bind; [apply gives_any|intros _ _]. eapply (gives_bind _ _ (fun r => r < 0)); [by apply gives_ret|intros r Hr].
  eapply gives_bind; [apply gives_any|intros _ _]. by apply gives_ret.
Qed.

Lemma conn_recv_gone n : gives (conn_recv c n) (fun r => r.1 < 0).
Proof using Hq Hfd.
  unfold conn_recv, with_priv. rewrite Hq, Hfd. case_match; [by apply gives_ret|].
  eapply gives_bind; [apply gives_any|intros _ _]. eapply (gives_bind _ _ (fun r => r.1 < 0)); [by apply gives_ret|intros r Hr].
  eapply gives_bind; [apply gives_any|intros _ _]. by apply gives_ret.
Qed.

Lemma authorize_gone {Rx : Pcre} ctx d a pw : gives (proxy_worker_authorize ctx d a pw c) (fun r => r.1 < 0).
Proof using Hq Hfd.
  unfold proxy_worker_authorize. eapply gives_bind; [apply gives_any|intros [r1 nonce] _].
  destruct (Z.ltb_spec r1 0); [by apply gives_ret|]. eapply gives_bind; [apply gives_any|intros [r2 resp] _].
  destruct (Z.ltb_spec r2 0); [by apply gives_ret|]. eapply gives_bind; [apply conn_send_gone|intros r3 Hr3].
  rewrite (proj2 (Z.ltb_lt r3 0) Hr3). by apply gives_ret.
Qed.

End Gone.

(** A session with a client that has been dropped ends with its first message. *)
Lemma process_loop_gone {O : OS} n s p k :
  pc_priv_ptr (pc s) = Some p -> conn_client p = Some k -> gone (hp s) k ->
  gives (process_loop (S n) s) (fun x => exists s', x = inr s').
Proof.
  intros Hp Hk (c & q & Hc & Hq & Hfd). cbn [process_loop].
  apply (gives_bind _ _ (fun r => r.1 < 0)).
  - unfold proxy_conn_process, with_pc, with_client. rewrite Hp, Hk, Hc.
    eapply gives_bind; [by eapply conn_recv_gone|]. intros [r b] Hr. simpl in Hr.
    rewrite (proj2 (Z.ltb_lt r 0) Hr). by apply gives_ret.
  - intros [r s'] Hr. simpl in Hr. rewrite (proj2 (Z.leb_gt 0 r) Hr). apply gives_ret. by eexists.
Qed.

Section Total.
Context {O : OS} {Hos : OSLaws O}.

Lemma conn_recv_total c n h :
  is_Some (priv c) -> wp (conn_recv c n) h (fun res _ => res.1 < 0 \/ res.1 = Z.of_nat n /\ bytes_ok res.2).
Proof using Hos.
  intros [q Hq]. unfold conn_recv, with_priv. rewrite Hq.
  case_match; wp_steps; [left; unfold EPROTOTYPE; simpl; lia|].
  case_match; wp_steps; [left; unfold ENOTCONN; simpl; lia|].
  eapply wp_mono; [apply recv_loop_spec; [lia|done]|].
  intros [v d] e (new & Hd & _ & Hb & Hv & _). wp_steps. simpl in *. subst d. destruct Hv as [[-> Hl]|[Hv _]]; [|by left].
  right. by rewrite Hl.
Qed.

Lemma client_recv_total s p n h :
  slot s p -> is_Some (conn_client p) ->
  wp (with_client s p (fun _ c => conn_recv c n)) h (fun res _ => res.1 < 0 \/ res.1 = Z.of_nat n /\ bytes_ok res.2).
Proof using Hos.
  intros [_ Ha] [i Hi]. destruct (alive_client _ _ Ha i Hi) as (c & Hc & Hq).
  unfold with_client. rewrite Hi, Hc. by apply conn_recv_total.
Qed.

Lemma send_client_total s p b h :
  slot s p -> is_Some (conn_client p) -> wp (send_client s p b) h (fun _ _ => True).
Proof using Hos.
  intros [_ Ha] [i Hi]. destruct (alive_client _ _ Ha i Hi) as (c & Hc & Hq).
  unfold send_client, with_client. rewrite Hi, Hc. wp_steps.
  eapply wp_mono; [by apply conn_send_total|]. intros. by wp_steps.
Qed.

Lemma udp_total fuel l port s p addr n h :
  slot s p -> is_Some (conn_client p) -> 0 <= n <= Z.of_nat fuel * 4096 ->
  wp (udp_loop fuel l port s p addr n) h (fun _ _ => True).
Proof using Hos.
  intros Hs Hc. revert n h. induction fuel as [|fuel IH]; intros n h Hn; cbn [udp_loop];
    (destruct (Z.leb_spec n 0) as [H0|H0]; [by wp_steps|]); [lia|].
  wp_steps. eapply wp_mono; [by apply client_recv_total|]. intros [r data] e Hr. simpl in Hr.
  destruct (piece_length n H0) as (Hp1 & Hp2 & Hp3).
  destruct (Z.ltb_spec r 0); [by wp_steps|]. destruct Hr as [?|[-> _]]; [lia|].
  destruct (Z.of_nat (piece n) =? 0); [by wp_steps|]. wp_steps.
  destruct (alive_conn _ _ (proj2 Hs) l) as [q Hq].
  eapply wp_mono; [by apply (conn_send_to_wp _ q)|]. intros r2 e2 _. apply IH. unfold CONN_BUFF_LEN in *. lia.
Qed.

Lemma close_leg_total l s p h : slot s p -> wp (close_leg l s) h (fun s' _ => goes_on s p s').
Proof using.
  intros Hs. eapply wp_mono; [by apply slot_close_leg|]. intros s' e (c & _ & -> & _ & Ha).
  apply goes_on_set; [done|done|by destruct l].
Qed.

Lemma tcp_total fuel s p n t h :
  slot s p -> is_Some (conn_client p) -> 0 <= n <= Z.of_nat fuel * 4096 ->
  wp (tcp_loop fuel s n t) h (fun res _ => goes_on s p res.2).
Proof using Hos.
  revert s p n t h. induction fuel as [|fuel IH]; intros s p n t h Hs Hc Hn; cbn [tcp_loop];
    (destruct (Z.leb_spec n 0) as [H0|H0]; [wp_steps; by apply goes_on_refl|]); [lia|].
  unfold with_pc. rewrite (proj1 Hs). wp_steps.
  eapply wp_mono; [by apply client_recv_total|]. intros [r data] e Hr. simpl in Hr.
  destruct (piece_length n H0) as (Hp1 & Hp2 & Hp3).
  destruct (Z.ltb_spec r 0); [wp_steps; by apply goes_on_refl|]. destruct Hr as [?|[-> _]]; [lia|].
  destruct (Z.of_nat (piece n) =? 0); [wp_steps; by apply goes_on_refl|].
  assert (Hrange : 0 <= n - Z.of_nat (piece n) <= Z.of_nat fuel * 4096) by (unfold CONN_BUFF_LEN in *; lia).
  destruct (t =? 0); [|by apply IH]. wp_steps.
  eapply wp_mono; [apply conn_send_total, (alive_conn _ _ (proj2 Hs) Tcp)|]. intros t2 e2 _. wp_steps.
  eapply (wp_mono _ _ (fun s' _ => goes_on s p s')).
  { destruct (t2 <? 0); [by apply close_leg_total|]. wp_steps. by apply goes_on_refl. }
  intros s1 e3 (p1 & Hs1 & Hc1 & Hh1 & Hi1). eapply wp_mono; [apply (IH _ p1); [done| |done]|].
  { by rewrite (proj1 Hc1). }
  intros res e4 Hg. by eapply goes_on_bind.
Qed.

Lemma connect_total c addr port h :
  is_Some (priv c) -> wp (conn_connect c addr port) h (fun res _ => is_Some (priv res.2)).
Proof using Hos.
  intros Hc. destruct (Z.eqb_spec (conn_type c) CONN_TYPE_TCP) as [Ht|Ht].
  - eapply wp_mono; [by apply conn_connect_up|]. by intros res e (_ & _ & ?).
  - unfold conn_connect. rewrite (proj2 (Z.eqb_neq _ _) Ht). cbn [negb]. by wp_steps.
Qed.

Lemma tcp_open_total s p m h :
  slot s p -> is_Some (conn_client p) ->
  wp (process_tcp_open_message s m) h (fun res _ => goes_on s p res.2).
Proof using Hos.
  intros Hs Hc. unfold process_tcp_open_message, with_pc. rewrite (proj1 Hs).
  case_match; wp_steps; [by apply goes_on_refl|].
  eapply wp_mono; [apply connect_total, (alive_conn _ _ (proj2 Hs) Tcp)|]. intros [r c] e Hp. simpl in Hp. wp_steps.
  eapply (wp_mono _ _ (fun res _ => alive (hp s) res.2 /\ same_client p res.2)).
  { assert (Ha1 : alive (hp s) (set_conn Tcp p c)) by (apply alive_set_conn; [apply Hs|done]).
    case_match; wp_steps; [done|].
    eapply wp_mono; [apply wake_alive, (alive_worker _ _ Ha1 Tcp)|]. intros [r2 w] e2 Hw. simpl in Hw.
    assert (Ha2 : alive (hp s) (set_worker Tcp (set_conn Tcp p c) w)) by (by apply alive_set_worker).
    case_match; wp_steps; [|done]. destruct (alive_conn _ _ Ha2 Tcp) as [q Hq].
    eapply wp_mono; [by apply (conn_close_wp _ q)|]. intros c3 e3 [-> _]. wp_steps.
    split; [|done]. by apply (alive_set_conn _ Tcp). }
  intros [r2 p2] e2 [Ha2 Hc2]. simpl in *. wp_steps.
  eapply wp_mono; [apply (send_client_total _ p2); [by split|by rewrite (proj1 Hc2)]|].
  intros r3 e3 _. wp_steps. by apply goes_on_set.
Qed.

Lemma process_message_total s p m h :
  slot s p -> is_Some (conn_client p) -> is_u32 (msg_size m) ->
  wp (process_message s m) h (fun res _ => goes_on s p res.2).
Proof using Hos.
  intros Hs Hc Hm. unfold process_message.
  assert (Hudp : forall l port, wp (with_pc s (fun p =>
      let* r := udp_loop (pieces (msg_size m)) l port s p (msg_address m) (msg_size m) in ret (r, s)))
      h (fun res _ => goes_on s p res.2)).
  { intros l port. unfold with_pc. rewrite (proj1 Hs). wp_steps.
    eapply wp_mono; [apply udp_total; [done|done|apply pieces_enough, Hm]|]. intros. wp_steps. by apply goes_on_refl. }
  case_match; [by apply tcp_open_total|]. case_match; [|case_match; [|case_match; [apply Hudp|case_match; [apply Hudp|]]]].
  - unfold process_tcp_data_message. wp_steps.
    eapply wp_mono; [apply (tcp_total _ s p); [done|done|apply pieces_enough, Hm]|].
    intros [[r t] s'] e Hg. case_match; [by wp_steps|]. case_match; [by wp_steps|]. wp_steps.
    pose proof Hg as (p' & Hs' & Hc' & _).
    eapply wp_mono; [apply (slot_send_tcp_close _ p'); [done|by rewrite (proj1 Hc')]|]. intros. by wp_steps.
  - unfold process_tcp_close_message. wp_steps. eapply wp_mono; [by apply close_leg_total|]. intros. by wp_steps.
  - wp_steps. by apply goes_on_refl.
Qed.

(** A session of any length never follows a bad pointer and keeps slot and
    client. *)
Lemma process_loop_total n s p h :
  slot s p -> is_Some (conn_client p) ->
  wp (process_loop n s) h (fun res _ => goes_on s p (match res with inl s' | inr s' => s' end)).
Proof using Hos.
  revert s p h. induction n as [|n IH]; intros s p h Hs Hc; cbn [process_loop]; [wp_steps; by apply goes_on_refl|].
  wp_steps. eapply (wp_mono _ _ (fun res _ => goes_on s p res.2)).
  { unfold proxy_conn_process, with_pc. rewrite (proj1 Hs). wp_steps.
    eapply wp_mono; [by apply client_recv_total|]. intros [r b] e Hr. simpl in Hr.
    destruct (Z.ltb_spec r 0); [wp_steps; by apply goes_on_refl|]. destruct Hr as [?|[_ Hb]]; [lia|].
    apply process_message_total; [done|done|]. unfold msg_of_bytes. simpl. by apply of_le32_range, bytes_ok_drop. }
  intros [r s1] e (p1 & Hs1 & Hc1 & Hh1 & Hi1). simpl in *.
  case_match; [|wp_steps; by exists p1].
  eapply wp_mono; [apply (IH _ p1); [done|by rewrite (proj1 Hc1)]|]. intros res e2 Hg. by eapply goes_on_bind.
Qed.

(** *** Forwarders *)

(** A forwarder keeps the slot and its client, and touches no connection of the
    heap but the client's. *)
Definition relays (k : nat) (s : pst) (p : pc_priv) (s' : pst) : Prop :=
  exists p', slot s' p' /\ same_client p p' /\ touch k (hp s) (hp s').

Lemma relays_bind k s p s' p' s'' :
  same_client p p' -> touch k (hp s) (hp s') -> relays k s' p' s'' -> relays k s p s''.
Proof using.
  intros [H1 H2] Ht (q & Hs & [H3 H4] & Ht'). exists q. split_and!; [done|split; congruence|by eapply touch_trans].
Qed.

Lemma goes_on_relays k s p s' : goes_on s p s' -> relays k s p s'.
Proof using. intros (q & Hs & Hc & Hh & _). exists q. rewrite Hh. split_and!; [done|done|apply touch_refl]. Qed.

Lemma drop_quiet_total r s p k h :
  slot s p -> conn_client p = Some k -> wp (drop_unless_quiet r s) h (fun s' _ => relays k s p s').
Proof using.
  intros Hs Hk. unfold drop_unless_quiet. case_match; [wp_steps; by apply goes_on_relays, goes_on_refl|].
  eapply wp_mono; [apply wp_gives; [apply (kept_drop k)|by apply slot_drop]|].
  intros s' e [Hkept (_ & Hs' & _)]. exists p. split_and!; [done|done|].
  apply Hkept. intros p' i Hp' Hi. rewrite (proj1 Hs) in Hp'. congruence.
Qed.

Lemma forward_round_total l s p k h :
  slot s p -> conn_client p = Some k ->
  wp (forward_round l s) h (fun res _ => relays k s p (match res with inl s' | inr s' => s' end)).
Proof using Hos.
  intros Hs Hk. destruct (alive_conn _ _ (proj2 Hs) l) as [q Hq]. unfold forward_round, with_pc. rewrite (proj1 Hs).
  wp_steps. eapply wp_mono; [by apply (conn_recv_any_wp _ q)|].
  intros [[[r d] from] c] e (_ & _ & _ & q2 & Hc & _). set (p1 := set_conn l p c). set (s1 := set_pc s (Some p1)).
  assert (Hs1 : slot s1 p1) by (split; [done|]; apply alive_set_conn; [apply Hs|by rewrite Hc]).
  assert (Hc1 : same_client p p1) by (by destruct l). assert (Hk1 : conn_client p1 = Some k) by (by rewrite (proj1 Hc1)).
  assert (Hgo : forall s', relays k s1 p1 s' -> relays k s p s') by (intros s'; by apply relays_bind).
  destruct (0 <? r).
  - wp_steps. eapply wp_mono; [apply (send_client_total _ p1); [done|rewrite Hk1; by eexists]|]. intros r2 e2 _.
    destruct (r2 <? 0); [|wp_steps; by apply Hgo, goes_on_relays, goes_on_refl].
    wp_steps. eapply wp_mono; [by apply close_leg_total|]. intros s3 e3 (p3 & Hs3 & Hc3 & Hh3 & _). wp_steps.
    eapply wp_mono; [apply (drop_quiet_total _ _ p3 k); [done|by rewrite (proj1 Hc3)]|]. intros s4 e4 H4. wp_steps.
    apply Hgo. eapply relays_bind; [exact Hc3| |exact H4]. rewrite Hh3. apply touch_refl.
  - wp_steps. eapply (wp_mono _ _ (fun s2 _ => relays k s1 p1 s2)).
    { destruct l; [by apply drop_quiet_total..|]. wp_steps. by apply goes_on_relays, goes_on_refl. }
    intros s2 e2 H2. pose proof H2 as (p2 & Hs2 & Hc2 & Ht2). wp_steps.
    eapply wp_mono; [by apply close_leg_total|]. intros s3 e3 Hg3. pose proof Hg3 as (p3 & Hs3 & Hc3 & _). wp_steps.
    eapply (wp_mono _ _ (fun _ _ => True)).
    { destruct l; [by apply wp_ret..|]. apply (slot_send_tcp_close _ p3); [done|].
      rewrite (proj1 Hc3), (proj1 Hc2), Hk1. by eexists. }
    intros r4 e4 _. wp_steps. apply Hgo. eapply relays_bind; [exact Hc2|exact Ht2|]. by apply goes_on_relays.
Qed.

Lemma forwarder_total l n s p k h :
  slot s p -> conn_client p = Some k ->
  wp (forwarder l n s) h (fun res _ => relays k s p (match res with inl s' | inr s' => s' end)).
Proof using Hos.
  revert s p h. induction n as [|n IH]; intros s p h Hs Hk; cbn [forwarder]; wp_steps.
  { by apply goes_on_relays, goes_on_refl. }
  eapply wp_mono; [by apply forward_round_total|]. intros [s1|s1] e1 Hr; [|by wp_steps].
  destruct Hr as (p1 & Hs1 & Hc1 & Ht1). eapply wp_mono; [apply (IH s1 p1); [done|by rewrite (proj1 Hc1)]|].
  intros res e2 H2. eapply relays_bind; [exact Hc1|exact Ht1|exact H2].
Qed.

End Total.

(** ** Getting a slot *)

(** All slots are initialised, and their clients are connections of [h]. *)
Definition slots_ok (cs : list proxy_conn_handle) (h : heap) : Prop :=
  forall i c, cs !! i = Some c -> exists q, pc_priv_ptr c = Some q /\ alive h q.

(** [sl] is the pool's view of the slots. *)
Definition shows (cs : list proxy_conn_handle) (sl : nat -> sslot) : Prop :=
  forall i c q, cs !! i = Some c -> pc_priv_ptr c = Some q -> sl i = slot_view q.

(** The client of slot [i], and the connection of worker [i]. *)
Definition client_of (cs : list proxy_conn_handle) (i : nat) : option nat := (cs !! i ≫= pc_priv_ptr) ≫= conn_client.
Definition worker_conn (ws : list proxy_worker) (i : nat) : option nat := ws !! i ≫= pw_conn.

Lemma client_of_eq cs i c q : cs !! i = Some c -> pc_priv_ptr c = Some q -> client_of cs i = conn_client q.
Proof. intros Hc Hq. unfold client_of. rewrite Hc. simpl. by rewrite Hq. Qed.

Lemma client_of_Some cs i k :
  client_of cs i = Some k -> exists c q, cs !! i = Some c /\ pc_priv_ptr c = Some q /\ conn_client q = Some k.
Proof. unfold client_of. intros (q & (c & Hc & Hq)%bind_Some & Hk)%bind_Some. by exists c, q. Qed.

Lemma client_of_insert cs i c q j :
  (i < length cs)%nat -> pc_priv_ptr c = Some q ->
  client_of (<[i := c]> cs) j = (<[i := conn_client q]> (client_of cs)) j.
Proof.
  intros Hi Hq. destruct (decide (i = j)) as [<-|Hne].
  - rewrite fn_lookup_insert. eapply client_of_eq; [by apply list_lookup_insert_eq|done].
  - rewrite fn_lookup_insert_ne by done. unfold client_of. by rewrite list_lookup_insert_ne.
Qed.

Lemma worker_conn_insert ws i w j :
  (i < length ws)%nat -> worker_conn (<[i := w]> ws) j = (<[i := pw_conn w]> (worker_conn ws)) j.
Proof.
  intros Hi. unfold worker_conn. destruct (decide (i = j)) as [<-|Hne].
  - by rewrite fn_lookup_insert, list_lookup_insert_eq.
  - by rewrite fn_lookup_insert_ne, list_lookup_insert_ne.
Qed.

(** The slots after a claim for connection [k]: at most slot [res] has a new
    client, which is [k]. *)
Definition claims (k : nat) (res : option nat) (cs cs' : list proxy_conn_handle) : Prop :=
  length cs' = length cs /\
  forall i, client_of cs' i = client_of cs i \/
            res = Some i /\ client_of cs i = None /\ client_of cs' i = Some k.

Lemma claims_refl k res cs : claims k res cs cs.
Proof. split; [done|]. by left. Qed.

Lemma claims_trans k res cs1 cs2 cs3 : claims k None cs1 cs2 -> claims k res cs2 cs3 -> claims k res cs1 cs3.
Proof.
  intros [Hl1 H1] [Hl2 H2]. split; [congruence|]. intros i.
  destruct (H1 i) as [E|[? _]]; [|done]. rewrite <- E. apply H2.
Qed.

Lemma alive_touch k h h' q : touch k h h' -> alive h q -> alive h' q.
Proof.
  intros Ht [H1 H2 H3]. split; [done|done|]. intros i Hi.
  destruct (H3 i Hi) as (c & Hc & Hp). by apply (touch_live k h h' i Ht); exists c.
Qed.

Lemma slots_ok_touch k cs h h' : touch k h h' -> slots_ok cs h -> slots_ok cs h'.
Proof. intros Ht Hs i c Hc. destruct (Hs i c Hc) as (q & ? & ?). exists q. eauto using alive_touch. Qed.

(** Replacing one slot. *)
Lemma slots_ok_insert cs h i c q :
  slots_ok cs h -> pc_priv_ptr c = Some q -> alive h q -> slots_ok (<[i := c]> cs) h.
Proof. intros Hs Hc Ha j c' [(_ & <- & _)|[_ Hj]]%list_lookup_insert_Some; eauto. Qed.

Lemma shows_insert cs sl i c q :
  shows cs sl -> pc_priv_ptr c = Some q -> shows (<[i := c]> cs) (<[i := slot_view q]> sl).
Proof.
  intros Hs Hc j c' q' [(<- & <- & _)|[Hne Hj]]%list_lookup_insert_Some Hq'.
  - rewrite fn_lookup_insert. congruence.
  - rewrite fn_lookup_insert_ne by done. eauto.
Qed.

Lemma claims_insert k res cs i c q c' q' :
  cs !! i = Some c -> pc_priv_ptr c = Some q -> pc_priv_ptr c' = Some q' ->
  conn_client q' = conn_client q \/ res = Some i /\ conn_client q = None /\ conn_client q' = Some k ->
  claims k res cs (<[i := c']> cs).
Proof.
  intros Hc Hq Hc' Hcc. split; [by rewrite length_insert|]. intros j.
  rewrite (client_of_insert _ _ _ q') by (done || by eapply lookup_lt_Some).
  destruct (decide (i = j)) as [<-|Hne]; [|rewrite fn_lookup_insert_ne by done; by left].
  by rewrite fn_lookup_insert, (client_of_eq _ _ _ _ Hc Hq).
Qed.

Section Acquire.
Context {O : OS} {Hos : OSLaws O} {Rx : Pcre}.

(** [proxy_conn_accept] with everything it leaves. *)
Lemma slot_accept_full s p k call ro h :
  slot s p -> live (hp s) k ->
  wp (proxy_conn_accept s k call ro) h (fun res _ => exists p',
    slot res.2 p' /\ accept call ro (slot_view p) (slot_view p') res.1 /\ touch k (hp s) (hp res.2) /\
    pc_id (pc res.2) = pc_id (pc s) /\
    (conn_client p' = conn_client p \/ 0 <= res.1 /\ conn_client p = None /\ conn_client p' = Some k)).
Proof using Hos.
  intros Hs Hk. destruct (accept_view s p k call ro h Hs Hk) as (a & e & Hr & p' & Hs' & Hac).
  destruct (slot_accept s p k call ro h Hs Hk) as (a2 & e2 & Hr2 & Hcl).
  rewrite Hr in Hr2. injection Hr2 as <- <-. pose proof (kept_accept k s call ro h a e Hr) as Hkept.
  exists a, e. split; [done|]. exists p'. split; [done|]. split; [done|].
  destruct (claimable p call ro) eqn:Hc; [|subst a; destruct Hs as [Hp _], Hs' as [Hp' _]; simpl in Hp';
    assert (p' = p) as -> by congruence; split_and!; [apply touch_refl|done|by left]].
  assert (Hn : conn_client p = None).
  { unfold claimable in Hc. destruct (conn_client p); [|done]. by rewrite bool_decide_eq_true_2 in Hc by (by eexists). }
  destruct (Hkept ltac:(intros q i Hq Hi; destruct Hs as [Hp _]; congruence)) as (_ & Ht & Hid).
  split_and!; [done|done|]. destruct Hcl as (p2 & Hs2 & _ & Hcc).
  assert (p2 = p') as -> by (destruct Hs2 as [? _], Hs' as [? _]; congruence).
  rewrite Hn. destruct Hcc as [[H0 ->]|(_ & -> & _)]; [right; split_and!; [lia|done|done]|by left].
Qed.

Definition with_slots (ph : proxy_handle) (p : proxy_priv) (cs : list proxy_conn_handle) (h : heap) : proxy_handle :=
  mkPh (ph_conf ph) (Some (set_px_clients p (Some cs))) h.

(** A slot is claimed within the proxy. *)
Lemma claim_wp ph p cs H i k call ro sl h :
  (i < length cs)%nat -> slots_ok cs H -> live H k -> shows cs sl ->
  wp (on_client i (fun s => proxy_conn_accept s k call ro) (with_slots ph p cs H)) h (fun res _ =>
    exists cs' H' s', res.2 = with_slots ph p cs' H' /\ accept call ro (sl i) s' res.1 /\
      slots_ok cs' H' /\ shows cs' (<[i := s']> sl) /\ live H' k /\ touch k H H' /\
      claims k (if 0 <=? res.1 then Some i else None) cs cs').
Proof using Hos.
  intros Hi Hok Hk Hsh. destruct (lookup_lt_is_Some_2 cs i Hi) as [c Hc].
  destruct (Hok i c Hc) as (q & Hq & Ha). unfold on_client, with_px, with_slots at 1. cbn [ph_priv px_clients set_px_clients].
  rewrite Hc. wp_steps. eapply wp_mono; [by apply (slot_accept_full (mkPst c H) q)|].
  intros [r s'] e (q' & [Hq' Ha'] & Hac & Ht & Hid & Hcc). simpl in *. wp_steps. simpl.
  exists (<[i := pc s']> cs), (hp s'), (slot_view q'). split; [done|].
  rewrite (Hsh i c q Hc Hq). split; [done|]. split; [|split; [by apply shows_insert|]].
  { eapply slots_ok_insert; [by eapply slots_ok_touch|done|done]. }
  split; [by eapply touch_live|]. split; [done|].
  eapply claims_insert; [done|done|done|].
  destruct Hcc as [?|(H0 & ? & ?)]; [by left|right]. by rewrite (proj2 (Z.leb_le _ _) H0).
Qed.

Lemma slot_search_wp ph p pv k call b : forall l a fuel cs H sl r h,
  seg (cell (px_lists p)) pv LNextByCall a l b -> cell (px_lists p) b = None ->
  (length l < fuel)%nat -> Forall (fun i => i < length cs)%nat l ->
  slots_ok cs H -> live H k -> shows cs sl ->
  wp (slot_search fuel (cell (px_lists p) a) k call r (with_slots ph p cs H)) h (fun res _ =>
    exists cs' H' sl', res.2 = with_slots ph p cs' H' /\
      search (px_lists p) call (cell (px_lists p) a) sl sl' res.1.1 res.1.2 /\
      slots_ok cs' H' /\ shows cs' sl' /\ live H' k /\ touch k H H' /\
      claims k (if 0 <=? res.1.1 then res.1.2 else None) cs cs').
Proof using Hos.
  induction l as [|i l IH]; intros a fuel cs H sl r h Hseg Hend Hf Hlt Hok Hk Hsh.
  { simpl in Hseg. subst b. rewrite Hend. destruct fuel; cbn [slot_search]; wp_steps; simpl;
      exists cs, H, sl; (split_and!; [done|constructor|done|done|done|apply touch_refl|apply claims_refl]). }
  destruct Hseg as (Ha & _ & Hseg). rewrite Ha. destruct fuel as [|fuel]; [simpl in Hf; lia|].
  apply Forall_cons in Hlt as [Hi Hlt]. cbn [slot_search]. wp_steps.
  eapply wp_mono; [by apply (claim_wp ph p cs H i k call true sl)|].
  intros [r1 ph1] e (cs1 & H1 & s1 & E & Hac & Hok1 & Hsh1 & Hk1 & Ht1 & Hcl1). simpl in E, Hac, Hcl1. subst ph1.
  destruct (Z.eqb_spec r1 (- EBUSY)) as [->|Hne]; cbn [negb].
  - unfold with_px, with_slots at 1. cbn [ph_priv px_lists set_px_clients].
    replace (0 <=? - EBUSY) with false in Hcl1 by done.
    eapply wp_mono; [apply (IH (LNextByCall i) fuel cs1 H1 (<[i := s1]> sl)); [done|done|simpl in Hf; lia| |done|done|done]|].
    { destruct Hcl1 as [-> _]. done. }
    intros res e2 (cs2 & H2 & sl2 & E2 & Hse & Hok2 & Hsh2 & Hk2 & Ht2 & Hcl2).
    exists cs2, H2, sl2. split_and!; [done| |done|done|done|by eapply touch_trans|by eapply claims_trans].
    by eapply S_next.
  - wp_steps. simpl. exists cs1, H1, (<[i := s1]> sl). split_and!; try done. by apply S_stop.
Qed.

Lemma NoDup_below (l : list nat) n : NoDup l -> (forall i, i ∈ l -> i < n)%nat -> (length l <= n)%nat.
Proof using.
  intros Hnd Hlt. rewrite <- (length_seq n 0). apply NoDup_incl_length; [by apply NoDup_ListNoDup|].
  intros i Hi. apply in_seq. apply list_elem_of_In, Hlt in Hi. lia.
Qed.

(** The critical section of a worker, as a step of the pool. *)
Lemma slot_acquire_wp ph p cs H idle bk k call sl h :
  rep [] (px_lists p) idle bk -> (forall i, i ∈ idle -> i < length cs)%nat ->
  (forall b i, i ∈ bk b -> i < length cs)%nat ->
  slots_ok cs H -> live H k -> shows cs sl ->
  (forall i, (i < length cs)%nat -> busy (sl i) = false -> i ∈ idle) ->
  wp (slot_acquire k call (with_slots ph p cs H)) h (fun res _ => exists cs' H' sl' st',
    res.2 = with_slots ph (set_px_lists p st') cs' H' /\
    acquire (px_lists p) call sl st' sl' res.1 /\
    slots_ok cs' H' /\ shows cs' sl' /\ live H' k /\ touch k H H' /\ claims k res.1 cs cs').
Proof using Hos.
  intros Hrep Hidle Hbk Hok Hk Hsh Hfree.
  assert (Heta : forall cs' H', with_slots ph (set_px_lists p (px_lists p)) cs' H' = with_slots ph p cs' H')
    by (intros; by destruct p).
  unfold slot_acquire, with_px. cbn [with_slots ph_priv px_lists px_clients set_px_clients default from_option].
  pose proof (rep_idle _ _ _ _ Hrep) as [Hs He]. wp_steps. destruct (cell (px_lists p) LHead) as [hd|] eqn:Hhd.
  2: { wp_steps. simpl. exists cs, H, sl, (px_lists p). rewrite Heta.
       split_and!; [done|by apply Q_empty|done|done|done|apply touch_refl|apply claims_refl]. }
  assert (Hhdi : hd ∈ idle).
  { destruct idle as [|i l]; [unfold end_of in He; simpl in He; congruence|].
    destruct Hs as [Hs _]. assert (hd = i) as -> by congruence. left. }
  assert (Htake : forall i, i ∈ idle -> exists st', pool_take (px_lists p) i (hash_of call) = Some st').
  { intros i Hi. destruct (rep_take _ _ _ _ (hash_of call) Hrep Hi) as (st' & ? & _). by exists st'. }
  wp_steps. pose proof (rep_bk _ _ _ _ Hrep (hash_of call)) as [Hseg Hend].
  eapply wp_mono; [eapply (slot_search_wp ph p _ k call); [exact Hseg|exact Hend| | |done|done|done]|].
  { apply Nat.lt_succ_r, NoDup_below; [apply (rep_bk_nodup _ _ _ _ Hrep)|apply Hbk]. }
  { apply Forall_forall. intros i Hi. by eapply Hbk. }
  intros [[r found] ph1] e (cs1 & H1 & sl1 & E & Hse & Hok1 & Hsh1 & Hk1 & Ht1 & Hcl1). simpl in E, Hse, Hcl1. subst ph1.
  wp_steps. destruct found as [i|].
  - wp_steps. destruct (Z.ltb_spec r 0) as [Hr|Hr].
    + wp_steps. simpl. exists cs1, H1, sl1, (px_lists p). rewrite Heta.
      rewrite (proj2 (Z.leb_gt _ _) Hr) in Hcl1. split_and!; try done. by eapply Q_reconnect_fails.
    + assert (Hi : i ∈ idle).
      { apply Hfree; [|by apply (search_busy _ _ _ _ _ _ _ Hse)].
        eapply Hbk, search_bucket; [exact Hse|done|done|exact Hseg|exact Hend]. }
      destruct (Htake i Hi) as [st' Hst']. cbn [with_slots ph_priv px_lists set_px_clients]. rewrite Hst'.
      wp_steps. simpl. exists cs1, H1, sl1, st'. rewrite (proj2 (Z.leb_le _ _) Hr) in Hcl1.
      split_and!; try done. by eapply Q_reconnect.
  - wp_steps. assert (Hcl1' : claims k None cs cs1) by (by destruct (0 <=? r)).
    eapply wp_mono; [apply (claim_wp ph p cs1 H1 hd k call false sl1); [|done..]|].
    { destruct Hcl1' as [-> _]. by apply Hidle. }
    intros [r2 ph2] e2 (cs2 & H2 & s2 & E & Hac & Hok2 & Hsh2 & Hk2 & Ht2 & Hcl2). simpl in E, Hac, Hcl2. subst ph2.
    wp_steps. destruct (Z.ltb_spec r2 0) as [Hr|Hr].
    + wp_steps. simpl. exists cs2, H2, (<[hd := s2]> sl1), (px_lists p). rewrite Heta.
      rewrite (proj2 (Z.leb_gt _ _) Hr) in Hcl2.
      split_and!; [done|by eapply Q_oldest_fails|done|done|done|by eapply touch_trans|by eapply claims_trans].
    + destruct (Htake hd Hhdi) as [st' Hst']. cbn [with_slots ph_priv px_lists set_px_clients]. rewrite Hst'.
      wp_steps. simpl. exists cs2, H2, (<[hd := s2]> sl1), st'. rewrite (proj2 (Z.leb_le _ _) Hr) in Hcl2.
      split_and!; [done|by eapply Q_oldest|done|done|done|by eapply touch_trans|by eapply claims_trans].
Qed.

End Acquire.

(** ** A consistent proxy *)

(** What is known of the threads of the workers: that they are up, in a proxy that
    is not being closed. *)
Class Fit : Type := fit : worker_handle -> Prop.
Class AllUp (F : Fit) : Prop := all_up w : fit w <-> worker_up w.
#[export] Instance fit_up : Fit := worker_up.
#[export] Instance fit_up_all : AllUp fit_up.
Proof. done. Qed.

Section Consistent.
Context {Rx : Pcre} {F : Fit}.

(** The workers [l] are linked from [hd] on. *)
Fixpoint chain (ws : list proxy_worker) (hd : option nat) (l : list nat) : Prop :=
  match l with
  | [] => hd = None
  | i :: l => hd = Some i /\ exists w, ws !! i = Some w /\ chain ws (pw_next w) l
  end.

(** An open proxy none of whose slots is on its way back to the pool: the idle
    slots [idle] are the free ones, the buckets [bk] hold slots, the idle workers
    [iw] have no connection, and everything that is pointed to is initialised. *)
Record proxy_ok (ph : proxy_handle) (p : proxy_priv) (cs : list proxy_conn_handle) (ws : list proxy_worker)
    (idle : list nat) (bk : Z -> list nat) (iw : list nat) : Prop := {
  ok_priv : ph_priv ph = Some p;
  ok_clients : px_clients p = Some cs;
  ok_workers : px_workers p = Some ws;
  ok_num : px_num p = Z.of_nat (length cs) /\ length ws = length cs;
  ok_rep : rep [] (px_lists p) idle bk;
  ok_bk : forall b i, i ∈ bk b -> (i < length cs)%nat;
  ok_slots : slots_ok cs (ph_conns ph);
  ok_idle : forall i, i ∈ idle <-> (i < length cs)%nat /\ client_of cs i = None;
  ok_chain : chain ws (px_idle_workers p) iw;
  ok_iw : NoDup iw;
  ok_up : forall i w, ws !! i = Some w -> fit (pw_worker w);
  ok_conn : forall i k, worker_conn ws i = Some k -> live (ph_conns ph) k;
  ok_free : forall i, i ∈ iw -> worker_conn ws i = None;
  ok_reg : exists r, reg_up (px_reg p) r;
}.

(** What does not change while the proxy runs. *)
Definition keeps (ph : proxy_handle) (p : proxy_priv) (ph' : proxy_handle) (p' : proxy_priv) : Prop :=
  ph_conf ph' = ph_conf ph /\ px_allowed p' = px_allowed p /\ px_denied p' = px_denied p /\
  px_listen p' = px_listen p /\ px_log p' = px_log p /\ px_num p' = px_num p.

Lemma keeps_trans ph p ph1 p1 ph2 p2 : keeps ph p ph1 p1 -> keeps ph1 p1 ph2 p2 -> keeps ph p ph2 p2.
Proof using. intros (?&?&?&?&?&?) (?&?&?&?&?&?). repeat split; congruence. Qed.

(** Worker [i] has connection [k], for itself alone. *)
Record serving (cs : list proxy_conn_handle) (ws : list proxy_worker) (iw : list nat) (i k : nat) : Prop := {
  sv_conn : worker_conn ws i = Some k;
  sv_busy : i ∉ iw;
  sv_slots : forall j, client_of cs j <> Some k;
  sv_alone : forall j, worker_conn ws j = Some k -> j = i;
}.

(** Nothing points to connection [k]. *)
Definition unused (cs : list proxy_conn_handle) (ws : list proxy_worker) (k : nat) : Prop :=
  (forall j, client_of cs j <> Some k) /\ forall j, worker_conn ws j <> Some k.

Lemma worker_conn_Some ws i k : worker_conn ws i = Some k -> exists w, ws !! i = Some w /\ pw_conn w = Some k.
Proof using. unfold worker_conn. intros (w & ? & ?)%bind_Some. by exists w. Qed.

Lemma chain_frame ws i w hd l : i ∉ l -> chain ws hd l -> chain (<[i := w]> ws) hd l.
Proof using.
  revert hd. induction l as [|j l IH]; intros hd Hi; [done|]. apply not_elem_of_cons in Hi as [Hne Hi].
  intros (-> & w' & Hw' & Hc). split; [done|]. exists w'. rewrite list_lookup_insert_ne by done. auto.
Qed.

Lemma chain_bound ws hd l i : chain ws hd l -> i ∈ l -> (i < length ws)%nat.
Proof using.
  revert hd. induction l as [|j l IH]; intros hd; [by intros _ ?%not_elem_of_nil|].
  intros (_ & w & Hw & Hc) [->|Hi]%elem_of_cons; [by eapply lookup_lt_Some|eauto].
Qed.

Lemma chain_count ws hd l fuel :
  chain ws hd l -> (length l < fuel)%nat -> count_idle fuel ws hd = Some (Z.of_nat (length l)).
Proof using.
  revert hd fuel. induction l as [|i l IH]; intros hd fuel; simpl; [intros -> _; by destruct fuel|].
  intros (-> & w & Hw & Hc) Hf. destruct fuel as [|fuel]; [lia|]. simpl. rewrite Hw, (IH _ fuel) by (done || lia).
  simpl. f_equal. lia.
Qed.

Lemma ok_with_slots ph p cs ws idle bk iw :
  proxy_ok ph p cs ws idle bk iw -> ph = with_slots ph p cs (ph_conns ph).
Proof using.
  intros Hok. pose proof (ok_priv _ _ _ _ _ _ _ Hok) as Hp. pose proof (ok_clients _ _ _ _ _ _ _ Hok) as Hc.
  destruct ph as [cf pr hh], p; simpl in *. unfold with_slots. simpl. by subst.
Qed.

(** *** Changing the connections *)

(** A change of one connection, which stays initialised. *)
Lemma ok_touch ph p cs ws idle bk iw k h' :
  proxy_ok ph p cs ws idle bk iw -> touch k (ph_conns ph) h' -> proxy_ok (set_conns ph h') p cs ws idle bk iw.
Proof using.
  intros [Hp Hc Hw Hn Hrep Hbk Hsl Hid Hch Hnd Hup Hlv Hfr Hreg] Ht. split; try done.
  - by eapply slots_ok_touch.
  - intros i j Hj. eapply touch_live; [done|]. by eapply Hlv.
Qed.

Lemma ok_unused ph p cs ws idle bk iw k :
  proxy_ok ph p cs ws idle bk iw -> ph_conns ph !! k = None -> unused cs ws k.
Proof using.
  intros Hok Hk. split.
  - intros j (c & q & Hc & Hq & Hck)%client_of_Some.
    destruct (ok_slots _ _ _ _ _ _ _ Hok j c Hc) as (q' & Hq' & [_ _ Ha]).
    assert (q' = q) as -> by congruence. destruct (Ha k Hck) as (? & ? & _). congruence.
  - intros j Hj. destruct (ok_conn _ _ _ _ _ _ _ Hok j k Hj) as (? & ? & _). congruence.
Qed.

(** A connection nothing points to appears or disappears. *)
Lemma ok_heap ph p cs ws idle bk iw k h' :
  proxy_ok ph p cs ws idle bk iw -> unused cs ws k -> (forall j, j <> k -> h' !! j = ph_conns ph !! j) ->
  proxy_ok (set_conns ph h') p cs ws idle bk iw.
Proof using.
  intros [Hp Hc Hw Hn Hrep Hbk Hsl Hid Hch Hnd Hup Hlv Hfr Hreg] [Huc Huw] Hh.
  assert (Hl : forall j, j <> k -> live (ph_conns ph) j -> live h' j).
  { intros j Hj (c & Hcj & Hcp). exists c. by rewrite Hh. }
  split; try done.
  - intros i c Hi. destruct (Hsl i c Hi) as (q & Hq & [Ha1 Ha2 Ha3]). exists q. split; [done|]. split; [done|done|].
    intros x Hx. apply Hl; [|by apply Ha3]. intros ->. apply (Huc i). by rewrite (client_of_eq _ _ _ _ Hi Hq).
  - intros i x Hx. apply Hl; [|by eapply Hlv]. intros ->. by apply (Huw i).
Qed.

(** *** Changing a worker *)

Lemma ok_worker ph p cs ws idle bk iw i w w' :
  proxy_ok ph p cs ws idle bk iw -> ws !! i = Some w -> i ∉ iw -> fit (pw_worker w') ->
  (forall k, pw_conn w' = Some k -> live (ph_conns ph) k) ->
  proxy_ok (set_ph ph (set_px_workers p (Some (<[i := w']> ws)))) (set_px_workers p (Some (<[i := w']> ws)))
    cs (<[i := w']> ws) idle bk iw.
Proof using.
  intros [Hp Hc Hw [Hn Hl] Hrep Hbk Hsl Hid Hch Hnd Hup Hlv Hfr Hreg] Hi Hni Hu Hk.
  assert (Hlt : (i < length ws)%nat) by (by eapply lookup_lt_Some). split; try done.
  - by rewrite length_insert.
  - by apply chain_frame.
  - intros j d [(<- & <- & _)|[_ Hd]]%list_lookup_insert_Some; [done|by eapply Hup].
  - intros j x. rewrite worker_conn_insert by done. destruct (decide (i = j)) as [<-|Hne].
    + rewrite fn_lookup_insert. apply Hk.
    + rewrite fn_lookup_insert_ne by done. apply Hlv.
  - intros j Hj. rewrite worker_conn_insert, fn_lookup_insert_ne by (done || by intros ->). by apply Hfr.
Qed.

(** A worker is replaced by one in the same place. *)
Lemma chain_same ws i w w' hd l : ws !! i = Some w -> pw_next w' = pw_next w -> chain ws hd l -> chain (<[i := w']> ws) hd l.
Proof using.
  intros Hw Hn. revert hd. induction l as [|j l IH]; intros hd; [done|]. intros (-> & d & Hd & Hc). split; [done|].
  destruct (decide (i = j)) as [<-|Hne].
  - exists w'. rewrite list_lookup_insert_eq by (by eapply lookup_lt_Some). split; [done|]. rewrite Hn. apply IH.
    by assert (d = w) as <- by congruence.
  - exists d. rewrite list_lookup_insert_ne by done. auto.
Qed.

Lemma worker_conn_same ws i w w' j :
  ws !! i = Some w -> pw_conn w' = pw_conn w -> worker_conn (<[i := w']> ws) j = worker_conn ws j.
Proof using.
  intros Hi Hc. rewrite worker_conn_insert by (by eapply lookup_lt_Some). destruct (decide (i = j)) as [<-|Hne].
  - rewrite fn_lookup_insert, Hc. unfold worker_conn. by rewrite Hi.
  - by rewrite fn_lookup_insert_ne.
Qed.

Lemma ok_same ph p cs ws idle bk iw i w w' :
  proxy_ok ph p cs ws idle bk iw -> ws !! i = Some w -> pw_next w' = pw_next w -> pw_conn w' = pw_conn w ->
  fit (pw_worker w') ->
  proxy_ok (set_ph ph (set_px_workers p (Some (<[i := w']> ws)))) (set_px_workers p (Some (<[i := w']> ws)))
    cs (<[i := w']> ws) idle bk iw.
Proof using.
  intros [Hp Hc Hw [Hn Hl] Hrep Hbk Hsl Hid Hch Hnd Hup Hlv Hfr Hreg] Hi Hnx Hcn Hu.
  split; try done; [by rewrite length_insert|by eapply chain_same| | |].
  - intros j d [(<- & <- & _)|[_ Hd]]%list_lookup_insert_Some; [done|by eapply Hup].
  - intros j k. rewrite (worker_conn_same _ _ w) by done. apply Hlv.
  - intros j. rewrite (worker_conn_same _ _ w) by done. apply Hfr.
Qed.

(** Worker [i] becomes the first of the idle ones. *)
Lemma ok_push ph p cs ws idle bk iw i w :
  proxy_ok ph p cs ws idle bk iw -> ws !! i = Some w -> i ∉ iw -> pw_conn w = None ->
  pw_next w = px_idle_workers p ->
  proxy_ok (set_ph ph (set_px_idle_workers p (Some i))) (set_px_idle_workers p (Some i)) cs ws idle bk (i :: iw).
Proof using.
  intros [Hp Hc Hw Hn Hrep Hbk Hsl Hid Hch Hnd Hup Hlv Hfr Hreg] Hi Hni Hk Hnx. split; try done.
  - split; [done|]. exists w. by rewrite Hnx.
  - by apply NoDup_cons.
  - intros j [->|Hj]%elem_of_cons; [unfold worker_conn; rewrite Hi; done|by apply Hfr].
Qed.

Context {O : OS}.

(** *** The registration *)

(** What the registrar is told: how many workers are not idle, of how many
    usable slots. *)
Lemma update_wp ph p cs ws idle bk iw h :
  proxy_ok ph p cs ws idle bk iw ->
  wp (proxy_update_registration ph) h (fun ph' _ => exists rs,
    ph' = set_ph ph (set_px_reg p rs) /\ proxy_ok ph' (set_px_reg p rs) cs ws idle bk iw /\
    exists r r', reg_up (px_reg p) r /\ reg_up rs r' /\
      if decide (status r = REGISTRATION_STATUS_OFF) then r' = r
      else slots_used r' = u64 (px_num p - Z.of_nat (length iw)) /\ slots_total r' = u64 (px_usable p) /\
           status r' = (if slots_total r' <=? slots_used r' then REGISTRATION_STATUS_BUSY else REGISTRATION_STATUS_READY)).
Proof using.
  intros Hok. pose proof Hok as [Hp Hc Hw [Hn Hl] Hrep Hbk Hsl Hid Hch Hnd Hup Hlv Hfr [r Hr]].
  unfold proxy_update_registration, with_px. rewrite Hp, Hw. cbn [default from_option].
  rewrite (chain_count _ _ iw) by (first [done|apply Nat.lt_succ_r, NoDup_below; [done|intros i; by apply chain_bound with (1 := Hch)]]).
  wp_steps. eapply wp_mono; [by apply (registration_update_wp _ r)|]. intros rs e (r' & Hr' & Hst). wp_steps.
  exists rs. split; [done|]. split; [by split; try done; exists r'|]. exists r, r'. split_and!; [done|done|].
  case_decide; [done|]. destruct Hst as (-> & -> & -> & _). done.
Qed.

(** *** The end of a worker's run *)

Lemma conn_free_total c h : is_Some (priv c) -> wp (conn_free c) h (fun _ _ => True).
Proof using.
  intros [q Hq]. unfold conn_free, mutex_free. rewrite Hq. wp_steps. eapply wp_mono; [by apply conn_close_wp|].
  intros. by wp_steps.
Qed.

Lemma release_ok ph p cs ws idle bk iw i k h :
  proxy_ok ph p cs ws idle bk iw -> serving cs ws iw i k ->
  wp (worker_release i ph) h (fun ph' _ => exists p' ws',
    proxy_ok ph' p' cs ws' idle bk (i :: iw) /\ keeps ph p ph' p' /\
    ph_conns ph' = delete k (ph_conns ph) /\
    forall j, worker_conn ws' j = (<[i := None]> (worker_conn ws)) j).
Proof using.
  intros Hok [Hk Hni Hns Hal]. pose proof Hok as [Hp _ Hw _ _ _ _ _ _ _ Hup Hlv _ _].
  destruct (worker_conn_Some _ _ _ Hk) as (w & Hi & Hwk). destruct (Hlv i k Hk) as (c & Hcc & Hcp).
  assert (Hlt : (i < length ws)%nat) by (by eapply lookup_lt_Some).
  unfold worker_release, with_px, with_conn. rewrite Hp, Hw, Hi, Hwk, Hcc. wp_steps. cbn [pw_id set_pw_conn].
  eapply wp_mono; [by eapply conn_free_total|]. intros _ e _. wp_steps.
  set (w' := set_pw_next (set_pw_conn w None) (px_idle_workers p)).
  pose proof (ok_worker _ _ _ _ _ _ _ i w w' Hok Hi Hni (Hup i w Hi) ltac:(done)) as H1.
  eapply (ok_push _ _ _ _ _ _ _ i w') in H1; [|by apply list_lookup_insert_eq|done..].
  eapply (ok_heap _ _ _ _ _ _ _ k (delete k (ph_conns ph))) in H1.
  - eexists _, _. split; [exact H1|]. split_and!; try done. intros j. by rewrite worker_conn_insert.
  - split; [done|]. intros j. rewrite worker_conn_insert by done. destruct (decide (i = j)) as [<-|Hne].
    + by rewrite fn_lookup_insert.
    + rewrite fn_lookup_insert_ne by done. intros Hj. by apply Hne, eq_sym, Hal.
  - intros j Hj. by rewrite lookup_delete_ne.
Qed.

(** *** Getting a slot *)

(** The pool's view of some slots. *)
Definition views (cs : list proxy_conn_handle) (i : nat) : sslot :=
  match cs !! i with
  | Some c => match pc_priv_ptr c with Some q => slot_view q | None => mkSlot false [] end
  | None => mkSlot false []
  end.

Lemma shows_views cs : shows cs (views cs).
Proof using. intros i c q Hc Hq. unfold views. by rewrite Hc, Hq. Qed.

Lemma shows_busy cs sl h i :
  shows cs sl -> slots_ok cs h -> (i < length cs)%nat -> busy (sl i) = false <-> client_of cs i = None.
Proof using.
  intros Hsh Hs Hi. destruct (lookup_lt_is_Some_2 cs i Hi) as [c Hc]. destruct (Hs i c Hc) as (q & Hq & _).
  rewrite (Hsh i c q Hc Hq), (client_of_eq _ _ _ _ Hc Hq). simpl. rewrite bool_decide_eq_false. by rewrite eq_None_not_Some.
Qed.

(** The clients after slot [res] was claimed for connection [k]. *)
Definition taken (k : nat) (res : option nat) (cl : nat -> option nat) : nat -> option nat :=
  match res with Some s => <[s := Some k]> cl | None => cl end.

Lemma claims_taken k res cs cs' :
  claims k res cs cs' -> (forall s, res = Some s -> client_of cs s = None /\ client_of cs' s <> None) ->
  forall j, client_of cs' j = taken k res (client_of cs) j.
Proof using.
  intros [_ Hcl] Hs j. destruct res as [s|]; simpl.
  - destruct (decide (s = j)) as [<-|Hne].
    + rewrite fn_lookup_insert. destruct (Hs s eq_refl) as [H1 H2]. destruct (Hcl s) as [?|(_ & _ & ?)]; congruence.
    + rewrite fn_lookup_insert_ne by done. destruct (Hcl j) as [?|([= ->] & _)]; done.
  - by destruct (Hcl j) as [?|[? _]].
Qed.

Context {Hos : OSLaws O}.

(** The idle slots after the operation. *)
Definition idle_after (res : option nat) (idle : list nat) : list nat :=
  match res with Some s => without s idle | None => idle end.

Lemma acquired_idle cs cs' k res idle :
  length cs' = length cs -> (forall j, client_of cs' j = taken k res (client_of cs) j) ->
  (forall i, i ∈ idle <-> (i < length cs)%nat /\ client_of cs i = None) ->
  forall i, i ∈ idle_after res idle <-> (i < length cs')%nat /\ client_of cs' i = None.
Proof using.
  intros Hl Ht Hid i. rewrite Ht, Hl. destruct res as [s|]; simpl; [|apply Hid].
  rewrite elem_of_without, Hid. destruct (decide (s = i)) as [<-|Hne].
  - rewrite fn_lookup_insert. split; [by intros [? _]|by intros [_ ?]].
  - rewrite fn_lookup_insert_ne by done. split; [by intros [_ ?]|done].
Qed.

(** A worker gets an idle slot, or none. *)
Lemma acquire_ok ph p cs ws idle bk iw i k call h :
  proxy_ok ph p cs ws idle bk iw -> worker_conn ws i = Some k ->
  wp (slot_acquire k call ph) h (fun res _ => exists p' cs' bk',
    proxy_ok res.2 p' cs' ws (idle_after res.1 idle) bk' iw /\ keeps ph p res.2 p' /\
    touch k (ph_conns ph) (ph_conns res.2) /\ (forall s, res.1 = Some s -> s ∈ idle) /\
    forall j, client_of cs' j = taken k res.1 (client_of cs) j).
Proof using Hos.
  intros Hok Hk. pose proof Hok as [Hp Hc Hw [Hn Hl] Hrep Hbk Hsl Hid Hch Hnd Hup Hlv Hfr Hreg].
  rewrite (ok_with_slots _ _ _ _ _ _ _ Hok). eapply wp_mono.
  { apply (slot_acquire_wp ph p cs (ph_conns ph) idle bk k call (views cs)); try done.
    - by intros j [? _]%Hid.
    - by eapply Hlv.
    - apply shows_views.
    - intros j Hj Hb. apply Hid. split; [done|]. by eapply shows_busy; [apply shows_views|..]. }
  intros [res ph1] e (cs' & H' & sl' & st' & E & Hq & Hok' & Hsh' & Hk' & Ht & Hcl). simpl in *. subst ph1.
  pose proof (ok_touch _ _ _ _ _ _ _ _ _ Hok Ht) as [_ _ _ _ _ _ _ _ _ _ _ Hlv' _ _]. pose proof (proj1 Hcl) as Hlen.
  assert (Hres : exists bk', rep [] st' (idle_after res idle) bk' /\ (forall b j, j ∈ bk' b -> (j < length cs)%nat) /\
    forall s, res = Some s -> s ∈ idle /\ busy (sl' s) = true).
  { destruct (acquire_cases _ _ _ _ _ _ _ _ Hrep Hq) as [(-> & -> & Hb)|(s & -> & Htk & Hin & Hfree & Hbusy & Hoth)].
    { by exists bk. }
    assert (Hsi : s ∈ idle).
    { assert (Hs : (s < length cs)%nat) by (destruct Hin as [[? _]%Hid|[b ?]]; [done|by eapply Hbk]).
      apply Hid. split; [done|]. by eapply shows_busy; [apply shows_views|..]. }
    destruct (rep_take _ _ _ _ (hash_of call) Hrep Hsi) as (st1 & E1 & Hr1 & _).
    rewrite Htk in E1. injection E1 as <-. eexists. split; [exact Hr1|]. split; [|by intros ? [= <-]].
    intros b j. unfold bk_add, bk_remove. destruct (decide (b = hash_of call)) as [->|Hne].
    - rewrite fn_lookup_insert. intros [->|[_ Hj]%elem_of_without]%elem_of_cons; [by apply Hid|by eapply Hbk].
    - rewrite fn_lookup_insert_ne by done. intros [_ Hj]%elem_of_without. by eapply Hbk. }
  destruct Hres as (bk' & Hr' & Hb' & Hs'). assert (Htk : forall j, client_of cs' j = taken k res (client_of cs) j).
  { apply claims_taken; [done|]. intros s Hs. destruct (Hs' s Hs) as [Hsi Hbs]. apply Hid in Hsi as [Hlt Hn0].
    split; [done|]. rewrite <- (shows_busy cs' sl' H') by (done || by rewrite Hlen). by rewrite Hbs. }
  exists (set_px_clients (set_px_lists p st') (Some cs')), cs', bk'. split; [|split_and!; try done; naive_solver].
  split; try done; [by rewrite Hlen|by rewrite Hlen|by eapply acquired_idle].
Qed.

(** An operation on slot [s] within the proxy. *)
Lemma on_client_wp {A} s (f : pst -> IO (A * pst)) ph p cs H c h Q :
  cs !! s = Some c ->
  wp (f (mkPst c H)) h (fun r e => Q (r.1, with_slots ph p (<[s := pc r.2]> cs) (hp r.2)) e) ->
  wp (on_client s f (with_slots ph p cs H)) h Q.
Proof using.
  intros Hc Hf. unfold on_client, with_px. cbn [with_slots ph_priv px_clients set_px_clients]. rewrite Hc. wp_steps.
  eapply wp_mono; [exact Hf|]. intros [a s'] e HQ. wp_steps. by rewrite app_nil_r.
Qed.

(** *** What goes on in slot [s] *)

(** An operation on a slot in use that keeps the slot and its client. *)
Lemma relay_ok {A} (m : pst -> IO (A * pst)) (P : A -> Prop) ph p cs ws idle bk iw s k h :
  proxy_ok ph p cs ws idle bk iw -> client_of cs s = Some k ->
  (forall st q, slot st q -> conn_client q = Some k -> hp st = ph_conns ph ->
    wp (m st) h (fun res _ => P res.1 /\ relays k st q res.2)) ->
  wp (on_client s m ph) h (fun res _ => P res.1 /\ exists p' cs',
    proxy_ok res.2 p' cs' ws idle bk iw /\ keeps ph p res.2 p' /\ touch k (ph_conns ph) (ph_conns res.2) /\
    forall j, client_of cs' j = client_of cs j).
Proof using.
  intros Hok (c & q & Hs & Hq & Hk)%client_of_Some Hm. destruct (ok_slots _ _ _ _ _ _ _ Hok s c Hs) as (q0 & Hq0 & Ha).
  assert (q0 = q) as -> by congruence. assert (Hlt : (s < length cs)%nat) by (by eapply lookup_lt_Some).
  rewrite (ok_with_slots _ _ _ _ _ _ _ Hok). apply (on_client_wp _ _ _ _ _ _ c); [done|].
  eapply wp_mono; [apply (Hm (mkPst c (ph_conns ph)) q); [by split|done|done]|].
  intros [x [c' h']] e (HP & q' & [Hp' Ha'] & [Hcc _] & Ht). simpl in *. split; [done|].
  assert (Hcl : forall j, client_of (<[s := c']> cs) j = client_of cs j).
  { intros j. rewrite (client_of_insert _ _ _ q') by done. destruct (decide (s = j)) as [<-|Hne].
    - by rewrite fn_lookup_insert, Hcc, (client_of_eq _ _ _ _ Hs Hq).
    - by rewrite fn_lookup_insert_ne. }
  exists (set_px_clients p (Some (<[s := c']> cs))), (<[s := c']> cs). split; [|by split_and!].
  pose proof (ok_touch _ _ _ _ _ _ _ _ _ Hok Ht) as [Hp Hc Hw Hn Hrep Hbk Hsl Hid Hch Hnd Hup Hlv Hfr Hreg].
  split; try done; rewrite ?length_insert; [done|done|by eapply slots_ok_insert|].
  intros j. by rewrite Hcl.
Qed.

Lemma session_ok n ph p cs ws idle bk iw s k h :
  proxy_ok ph p cs ws idle bk iw -> client_of cs s = Some k ->
  wp (slot_session n s ph) h (fun res _ => (gone (ph_conns ph) k -> (0 < n)%nat -> res.1 = false) /\ exists p' cs',
    proxy_ok res.2 p' cs' ws idle bk iw /\ keeps ph p res.2 p' /\ touch k (ph_conns ph) (ph_conns res.2) /\
    forall j, client_of cs' j = client_of cs j).
Proof using Hos.
  intros Hok Hs. apply (relay_ok _ (fun b => _ -> _ -> b = false)); [done|done|]. intros st q Hst Hk Hh. wp_steps.
  assert (Hend : gives (process_loop n st) (fun x => gone (ph_conns ph) k -> (0 < n)%nat -> exists s', x = inr s')).
  { intros h' x e Hx Hg Hn. destruct n as [|n]; [lia|]. rewrite <- Hh in Hg. by eapply process_loop_gone, Hx; [apply Hst|..]. }
  eapply wp_mono; [apply wp_gives; [exact Hend|apply (process_loop_total n st q); [done|by rewrite Hk]]|].
  intros [st'|st'] e [He Hg]; wp_steps; (split; [|by apply goes_on_relays]); [|done].
  intros Hg' Hn. by destruct (He Hg' Hn).
Qed.

Lemma forward_ok l n ph p cs ws idle bk iw s k h :
  proxy_ok ph p cs ws idle bk iw -> client_of cs s = Some k ->
  wp (slot_forward l n s ph) h (fun res _ => True /\ exists p' cs',
    proxy_ok res.2 p' cs' ws idle bk iw /\ keeps ph p res.2 p' /\ touch k (ph_conns ph) (ph_conns res.2) /\
    forall j, client_of cs' j = client_of cs j).
Proof using Hos.
  intros Hok Hs. apply (relay_ok _ (fun _ => True)); [done|done|]. intros st q Hst Hk _. wp_steps.
  eapply wp_mono; [by apply forwarder_total|]. intros [st'|st'] e Hg; by wp_steps.
Qed.

(** The end of a session: the slot is freed and returned to the pool. *)
Lemma return_ok ph p cs ws idle bk iw s k h :
  proxy_ok ph p cs ws idle bk iw -> client_of cs s = Some k ->
  wp (let* (_, ph) := on_client s (fun s => let* s := proxy_conn_finish s in ret (tt, s)) ph in slot_give_back s ph) h
    (fun ph' _ => exists p' cs',
      proxy_ok ph' p' cs' ws (idle ++ [s]) bk iw /\ keeps ph p ph' p' /\ touch k (ph_conns ph) (ph_conns ph') /\
      forall j, client_of cs' j = (<[s := None]> (client_of cs)) j).
Proof using.
  intros Hok Hcs. pose proof Hcs as (c & q & Hs & Hq & Hk)%client_of_Some.
  pose proof Hok as [Hp Hc Hw [Hn Hl] Hrep Hbk Hsl Hid Hch Hnd Hup Hlv Hfr Hreg].
  destruct (Hsl s c Hs) as (q0 & Hq0 & Ha). assert (q0 = q) as -> by congruence.
  assert (Hlt : (s < length cs)%nat) by (by eapply lookup_lt_Some).
  assert (Hsi : s ∉ idle) by (intros [_ ?]%Hid; congruence).
  rewrite (ok_with_slots _ _ _ _ _ _ _ Hok). wp_steps.
  apply (on_client_wp _ _ _ _ _ _ c); [done|]. wp_steps.
  eapply wp_mono; [apply wp_gives; [apply (kept_finish k)|apply (slot_finish (mkPst c (ph_conns ph)) q); by split]|].
  intros s1 e1 (Hkept & q1 & [Hq1 Ha1] & Hn1 & _). wp_steps. simpl.
  destruct Hkept as (_ & Ht & _); [intros q2 j Hq2 Hj; simpl in Hq2; congruence|]. simpl in Ht.
  pose proof (rep_clear _ _ _ _ s Hrep Hsi) as Hr1.
  destruct (rep_return _ _ _ _ s Hr1 Hsi ltac:(apply fn_lookup_insert)) as (st' & Hst' & Hr2 & _).
  unfold slot_give_back, with_px. cbn [with_slots ph_priv px_lists set_px_clients]. wp_steps. rewrite Hst'. wp_steps.
  pose proof (ok_touch _ _ _ _ _ _ _ _ _ Hok Ht) as [_ _ _ _ _ _ Hsl' _ _ _ _ Hlv' _ _].
  assert (Hcl : forall j, client_of (<[s := pc s1]> cs) j = (<[s := None]> (client_of cs)) j).
  { intros j. by rewrite (client_of_insert _ _ _ q1), Hn1. }
  exists (set_px_lists (set_px_clients p (Some (<[s := pc s1]> cs))) st'), (<[s := pc s1]> cs).
  split; [|by split_and!]. split; try done; rewrite ?length_insert; [done|done|by eapply slots_ok_insert|].
  intros j. rewrite Hcl, elem_of_app, list_elem_of_singleton, Hid. destruct (decide (s = j)) as [<-|Hne].
  - rewrite fn_lookup_insert. split; [intros _; by split|by right].
  - rewrite fn_lookup_insert_ne by done. split; [by intros [?| ->]|by left].
Qed.

(** *** Admission *)

Lemma authorize_total {Hal : AllocOK O} ctx d a pw c h :
  is_Some (priv c) -> compiled d -> compiled a ->
  wp (proxy_worker_authorize ctx d a (Some pw) c) h (fun _ _ => True).
Proof using Hos.
  intros Hc Hd Ha. unfold proxy_worker_authorize, refuse. wp_steps.
  eapply wp_mono; [apply get_nonce_wp|]. intros [r nonce] e1 [[Hr _] _]. simpl in Hr. subst r.
  change (0 <? 0) with false. cbv iota. wp_steps.
  unfold get_password_response. wp_steps. case_match eqn:E; [by apply Z.eqb_eq, Hal in E|]. wp_steps.
  change (0 <? 0) with false. cbv iota. wp_steps.
  eapply wp_mono; [by apply conn_send_total|]. intros r2 e2 _. case_match; wp_steps; [done|].
  eapply wp_mono; [by apply conn_recv_total|]. intros [r3 buff] e3 _. case_match; wp_steps; [done|].
  destruct (Nat.leb_spec 11 (newline_index 11 buff)); wp_steps; [done|].
  rewrite (proj2 (Nat.ltb_ge 28 _)) by lia. wp_steps.
  eapply wp_mono; [by apply conn_recv_total|]. intros [r4 more] e4 _. case_match; wp_steps; [done|].
  case_decide; wp_steps; [|eapply wp_mono; [by apply conn_send_total|]; intros; by wp_steps].
  eapply wp_mono; [by apply authorize_callsign_wp|]. intros r5 e5 _. case_match; wp_steps; [|done].
  eapply wp_mono; [by apply conn_send_total|]. intros. by wp_steps.
Qed.

(** What admission needs of the configuration. *)
Definition admits (ph : proxy_handle) (p : proxy_priv) : Prop :=
  compiled (px_denied p) /\ compiled (px_allowed p) /\ is_Some (password (ph_conf ph)).

Lemma keeps_admits ph p ph' p' : keeps ph p ph' p' -> admits ph p -> admits ph' p'.
Proof using. intros (E1 & E2 & E3 & _) (?&?&?). unfold admits. by rewrite E1, E2, E3. Qed.

(** A worker admits the client of its connection, or gets rid of it. *)
Lemma admit_ok {Hal : AllocOK O} ctx ph p cs ws idle bk iw i k h :
  proxy_ok ph p cs ws idle bk iw -> serving cs ws iw i k -> admits ph p ->
  wp (worker_admit ctx i ph) h (fun res _ => (gone (ph_conns ph) k -> res.1 = None) /\ exists p' ws',
    keeps ph p res.2 p' /\
    match res.1 with
    | Some (k', _) => k' = k /\ proxy_ok res.2 p' cs ws' idle bk iw /\ ph_conns res.2 = ph_conns ph /\
        forall j, worker_conn ws' j = worker_conn ws j
    | None => proxy_ok res.2 p' cs ws' idle bk (i :: iw) /\ ph_conns res.2 = delete k (ph_conns ph) /\
        forall j, worker_conn ws' j = (<[i := None]> (worker_conn ws)) j
    end).
Proof using Hos.
  intros Hok Hsv (Hd & Ha & [pw Hpw]). pose proof Hok as [Hp _ Hws _ _ _ _ _ _ _ Hup Hlv _ _].
  pose proof Hsv as [Hk Hni Hns Hal']. destruct (worker_conn_Some _ _ _ Hk) as (w & Hi & Hwk).
  assert (Hlt : (i < length ws)%nat) by (by eapply lookup_lt_Some). destruct (Hlv i k Hk) as (c & Hc & Hcp).
  unfold worker_admit, pw_at, with_px. rewrite Hp, Hws, Hi. wp_steps. rewrite Hwk. unfold with_conn. rewrite Hc, Hpw.
  assert (Hg : gives (proxy_worker_authorize ctx (px_denied p) (px_allowed p) (Some pw) c)
                 (fun r => gone (ph_conns ph) k -> r.1 < 0)).
  { intros h' x e Hx (c' & q & Hc' & Hq & Hfd). assert (c' = c) as -> by congruence. by eapply authorize_gone. }
  wp_steps. eapply wp_mono; [apply wp_gives; [exact Hg|by apply authorize_total]|]. intros [r call] e [Hneg _]. wp_steps.
  unfold on_pw, with_px. rewrite Hp, Hws, Hi. wp_steps. set (w' := set_pw_callsign w _).
  pose proof (ok_worker _ _ _ _ _ _ _ i w w' Hok Hi Hni (Hup i w Hi)) as Hok'.
  assert (Hwc : forall j, worker_conn (<[i := w']> ws) j = worker_conn ws j).
  { intros j. rewrite worker_conn_insert by done. destruct (decide (i = j)) as [<-|Hne].
    - rewrite fn_lookup_insert, Hk. exact Hwk.
    - by rewrite fn_lookup_insert_ne. }
  assert (Hlv' : forall j, pw_conn w' = Some j -> live (ph_conns ph) j) by (intros j Hj; apply (Hlv i); by rewrite Hk, <- Hwk).
  specialize (Hok' Hlv'). destruct (Z.ltb_spec r 0); wp_steps.
  - eapply wp_mono; [eapply release_ok; [exact Hok'|]|].
    { split; [by rewrite Hwc|done|done|]. intros j. rewrite Hwc. apply Hal'. }
    intros ph' e' (p' & ws' & Hok2 & Hkp & Hh & Hw2). wp_steps. split; [done|]. exists p', ws'. split; [exact Hkp|].
    split_and!; [done|done|]. intros j. rewrite Hw2. destruct (decide (i = j)) as [<-|Hne].
    + by rewrite !fn_lookup_insert.
    + by rewrite !fn_lookup_insert_ne.
  - split; [intros Hgk; specialize (Hneg Hgk); simpl in Hneg; lia|].
    exists (set_px_workers p (Some (<[i := w']> ws))), (<[i := w']> ws). by split_and!.
Qed.

(** *** Accepting a connection *)

Lemma conn_init_total c h :
  wp (conn_init c) h (fun res _ => res.1 < 0 \/ is_Some (priv res.2)).
Proof using Hos.
  unfold conn_init. wp_steps.
  eapply (wp_mono _ _ (fun _ _ => True)); [destruct (priv c); by wp_steps|]. intros [q|] e _; wp_steps.
  - eapply (wp_mono _ _ (fun _ _ => True)); [by apply mutex_init_wp|]. intros [r ?] e' _.
    destruct (Z.ltb_spec r 0); wp_steps; [by left|right; by eexists].
  - left. unfold ENOMEM. simpl. lia.
Qed.

Lemma conn_accept_total c a h :
  is_Some (priv c) -> is_Some (priv a) -> wp (conn_accept c a) h (fun res _ => is_Some (priv res.2)).
Proof using Hos.
  intros [q Hq] [qa Hqa]. unfold conn_accept, with_priv. rewrite Hqa, Hq. wp_steps.
  case_match; wp_steps; [by eexists|]. apply set_options_wp. intros o e _ _. case_match; wp_steps; by eexists.
Qed.

(** What became of a connection that arrived when the workers [iw] were idle: it
    was freed again, with an error or because no worker may take it, or worker [i]
    has it. *)
Definition handed (ph : proxy_handle) (p : proxy_priv) (cs : list proxy_conn_handle) (ws : list proxy_worker)
    (idle : list nat) (bk : Z -> list nat) (iw : list nat) (res : Z * proxy_handle) : Prop :=
  exists p' ws' iw', proxy_ok res.2 p' cs ws' idle bk iw' /\ keeps ph p res.2 p' /\
    ((ph_conns res.2 = ph_conns ph /\ (forall j, worker_conn ws' j = worker_conn ws j) /\
      (res.1 < 0 /\ (iw' = iw \/ exists i, iw = i :: iw') \/
       res.1 = 0 /\ iw' = iw /\ (iw = [] \/ px_usable p <= 0))) \/
     (res.1 = 0 /\ exists i k c, iw = i :: iw' /\ ph_conns ph !! k = None /\ is_Some (priv c) /\
        ph_conns res.2 = <[k := c]> (ph_conns ph) /\
        forall j, worker_conn ws' j = (<[i := Some k]> (worker_conn ws)) j)).

(** The new connection is freed again. *)
Lemma process_exit_ok ph k c r h :
  ph_conns ph !! k = None -> is_Some (priv c) ->
  wp (process_exit k r (set_conns ph (<[k := c]> (ph_conns ph)))) h (fun res _ => res = (r, ph)).
Proof using.
  intros Hk Hc. unfold process_exit, with_conn. cbn [ph_conns set_conns]. rewrite lookup_insert_eq. wp_steps.
  eapply wp_mono; [by apply conn_free_total|]. intros _ e _. wp_steps.
  rewrite delete_insert_id by done. unfold set_conns. by destruct ph.
Qed.

Lemma pick_worker_ok ph p cs ws idle bk iw h :
  proxy_ok ph p cs ws idle bk iw ->
  wp (pick_worker ph) h (fun res _ =>
    match res.1 with
    | None => res.2 = ph /\ (iw = [] \/ px_usable p <= 0)
    | Some i => exists iw' hd, iw = i :: iw' /\ res.2 = set_ph ph (set_px_idle_workers p hd) /\
        proxy_ok res.2 (set_px_idle_workers p hd) cs ws idle bk iw'
    end).
Proof using.
  intros [Hp Hc Hw Hn Hrep Hbk Hsl Hid Hch Hnd Hup Hlv Hfr Hreg]. unfold pick_worker, with_px, pw_at. rewrite Hp, Hw. wp_steps.
  destruct iw as [|i iw]; simpl in Hch; [rewrite Hch; wp_steps; split; [done|by left]|].
  destruct Hch as (-> & w & Hi & Hch). destruct (Z.ltb_spec 0 (px_usable p)); [|wp_steps; split; [done|by right]].
  wp_steps. rewrite Hi. wp_steps. exists iw, (pw_next w). apply NoDup_cons in Hnd as [Hni Hnd].
  split_and!; try done. split; try done. intros j Hj. apply Hfr. by right.
Qed.

Lemma worker_accept_ok {Hup : AllUp F} ph p cs ws idle bk iw i k h :
  proxy_ok ph p cs ws idle bk iw -> (i < length ws)%nat -> worker_conn ws i = None -> i ∉ iw -> live (ph_conns ph) k ->
  wp (proxy_worker_accept i k ph) h (fun res _ => exists ws',
    res.2 = set_ph ph (set_px_workers p (Some ws')) /\
    proxy_ok res.2 (set_px_workers p (Some ws')) cs ws' idle bk iw /\
    (res.1 < 0 /\ (forall j, worker_conn ws' j = worker_conn ws j) \/
     res.1 = 0 /\ forall j, worker_conn ws' j = (<[i := Some k]> (worker_conn ws)) j)).
Proof using.
  intros Hok Hlt Hwc Hni Hlk. pose proof Hok as [Hp _ Hw _ _ _ _ _ _ _ Hfit Hlv _ _].
  destruct (lookup_lt_is_Some_2 ws i Hlt) as [w Hi].
  assert (Hwn : pw_conn w = None) by (unfold worker_conn in Hwc; by rewrite Hi in Hwc).
  unfold proxy_worker_accept, on_pw, with_px. rewrite Hp, Hw, Hi. wp_steps. rewrite Hwn. wp_steps.
  eapply wp_mono; [apply worker_wake_up, (proj1 (all_up (pw_worker w)) (Hfit i w Hi))|]. intros [r wk] e [Hup' Hr]. simpl in Hup', Hr. wp_steps.
  set (w' := if r <? 0 then _ else _).
  assert (Hw' : fit (pw_worker w') /\ pw_conn w' = if r <? 0 then None else Some k).
  { apply all_up in Hup'. unfold w'. by destruct (r <? 0). }
  destruct Hw' as [Hu Hk]. exists (<[i := w']> ws). split; [done|]. split.
  { eapply ok_worker; try done. intros x Hx. rewrite Hk in Hx. destruct (r <? 0); by simplify_eq/=. }
  destruct Hr as [->|Hr]; [right|left]; (split; [done|]); intros j; rewrite worker_conn_insert, Hk by done; [done|].
  rewrite (proj2 (Z.ltb_lt _ _) Hr). destruct (decide (i = j)) as [<-|Hne].
  - by rewrite fn_lookup_insert.
  - by rewrite fn_lookup_insert_ne.
Qed.

Lemma hand_over_ok {Hup : AllUp F} ph p cs ws idle bk i iw k c hd h :
  proxy_ok ph p cs ws idle bk (i :: iw) -> ph_conns ph !! k = None -> is_Some (priv c) ->
  let ph' := set_ph (set_conns ph (<[k := c]> (ph_conns ph))) (set_px_idle_workers p hd) in
  proxy_ok ph' (set_px_idle_workers p hd) cs ws idle bk iw ->
  wp (let* (r, ph) := proxy_worker_accept i k ph' in
      if r <? 0 then process_exit k r ph else ret (0, ph)) h (fun res _ => handed ph p cs ws idle bk (i :: iw) res).
Proof using.
  intros Hok Hk Hc ph' Hok'. destruct (ok_chain _ _ _ _ _ _ _ Hok) as (_ & w & Hw & _).
  pose proof (ok_free _ _ _ _ _ _ _ Hok i ltac:(by left)) as Hwc.
  pose proof (ok_iw _ _ _ _ _ _ _ Hok) as [Hni _]%NoDup_cons.
  pose proof (ok_unused _ _ _ _ _ _ _ _ Hok Hk) as [Huc Huw]. wp_steps.
  eapply wp_mono; [apply (worker_accept_ok _ _ _ _ _ _ _ _ _ _ Hok'); [by eapply lookup_lt_Some|done|done|]|].
  { exists c. split; [apply lookup_insert_eq|done]. }
  intros [r ph4] e4 (ws' & Hph & Hok4 & Hr). simpl in Hph, Hok4, Hr. subst ph4.
  set (p4 := set_px_workers _ (Some ws')) in *. destruct Hr as [[Hr Hsame]|[-> Hgot]].
  - rewrite (proj2 (Z.ltb_lt _ _) Hr).
    eapply wp_mono; [by apply (process_exit_ok (set_ph ph p4))|]. intros res e ->.
    exists p4, ws', iw. split; [|split; [done|left; split_and!; [done|done|left; split; [done|right; by exists i]]]].
    apply (ok_heap _ _ _ _ _ _ _ k (ph_conns ph)) in Hok4; [done| |].
    + split; [done|]. intros j. rewrite Hsame. apply Huw.
    + intros j Hj. simpl. by rewrite lookup_insert_ne.
  - change (0 <? 0) with false. cbv iota. wp_steps. exists p4, ws', iw. split; [done|]. split; [done|]. right.
    split; [done|]. by exists i, k, c.
Qed.

Lemma process_ok {Hup : AllUp F} ph p cs ws idle bk iw h :
  proxy_ok ph p cs ws idle bk iw -> is_Some (priv (px_listen p)) ->
  wp (proxy_process ph) h (fun res _ => handed ph p cs ws idle bk iw res).
Proof using Hos.
  intros Hok Hli. pose proof (ok_priv _ _ _ _ _ _ _ Hok) as Hp.
  assert (Hno : forall r, r < 0 \/ r = 0 /\ (iw = [] \/ px_usable p <= 0) -> handed ph p cs ws idle bk iw (r, ph)).
  { intros r Hr. exists p, ws, iw. split; [done|]. split; [done|]. left. split_and!; [done|done|].
    destruct Hr as [Hr|[Hr Hi]]; [left|right]; auto. }
  unfold proxy_process, with_px. rewrite Hp. wp_steps. case_match; wp_steps; [apply Hno; unfold ENOMEM; left; lia|].
  eapply wp_mono; [apply conn_init_total|]. intros [r c] e Hc. simpl in Hc.
  destruct (Z.ltb_spec r 0); wp_steps; [apply Hno; by left|]. destruct Hc as [?|Hc]; [lia|].
  eapply wp_mono; [by apply conn_accept_total|]. intros [r2 c2] e2 Hc2. simpl in Hc2.
  set (k := fresh _). assert (Hk : ph_conns ph !! k = None) by apply not_elem_of_dom, is_fresh.
  destruct (Z.ltb_spec r2 0).
  { eapply wp_mono; [by eapply process_exit_ok|]. intros res ? ->. apply Hno. by left. }
  assert (Hh : proxy_ok (set_conns ph (<[k := c2]> (ph_conns ph))) p cs ws idle bk iw).
  { eapply ok_heap; [done|by eapply ok_unused|]. intros j Hj. by apply lookup_insert_ne. }
  wp_steps. eapply wp_mono; [by eapply pick_worker_ok|].
  intros [[i|] ph3] e3 Hpick; simpl in Hpick.
  - destruct Hpick as (iw' & hd & -> & -> & Hok3). eapply wp_mono; [by eapply hand_over_ok|done].
  - destruct Hpick as [-> Hnone]. eapply wp_mono; [by eapply process_exit_ok|]. intros res ? ->. apply Hno. by right.
Qed.

(** *** Dropping the clients and shutting down *)

Lemma worker_drop_ok ph p cs ws idle bk iw i h :
  proxy_ok ph p cs ws idle bk iw -> (i < length ws)%nat ->
  wp (proxy_worker_drop i ph) h (fun ph' _ => exists h',
    ph' = set_conns ph h' /\ proxy_ok ph' p cs ws idle bk iw /\ dom h' = dom (ph_conns ph) /\
    (forall k, gone (ph_conns ph) k -> gone h' k) /\ forall k, worker_conn ws i = Some k -> gone h' k).
Proof using Hos.
  intros Hok Hi. pose proof Hok as [Hp _ Hw _ _ _ _ _ _ _ _ Hlv _ _].
  destruct (lookup_lt_is_Some_2 ws i Hi) as [w Hwi]. assert (E : ph = set_conns ph (ph_conns ph)) by (by destruct ph).
  unfold proxy_worker_drop, with_px. rewrite Hp, Hw. simpl. rewrite Hwi. wp_steps.
  assert (Hwc : worker_conn ws i = pw_conn w) by (unfold worker_conn; by rewrite Hwi). rewrite Hwc.
  destruct (pw_conn w) as [k|] eqn:Hk; [|wp_steps; by exists (ph_conns ph)].
  destruct (Hlv i k Hwc) as (c & Hc & q & Hq).
  unfold with_conn. rewrite Hc. wp_steps. eapply wp_mono; [by eapply conn_drop_wp|].
  intros c' e (q' & -> & Hfd & _). wp_steps. set (c' := set_priv _ _).
  assert (Hg : gone (<[k := c']> (ph_conns ph)) k) by (exists c', q'; by rewrite lookup_insert_eq).
  assert (Ht : touch k (ph_conns ph) (<[k := c']> (ph_conns ph))).
  { split_and!; [intros j Hj; by rewrite lookup_insert_ne| |done]. intros _. exists c'. rewrite lookup_insert_eq. by eexists. }
  eexists. split; [done|]. split_and!; [by apply (ok_touch _ _ _ _ _ _ _ k _ Hok)| |intros j; by eapply touch_gone|by intros ? [= <-]].
  rewrite dom_insert_L. apply elem_of_dom_2 in Hc. set_solver.
Qed.

Lemma drop_ok ph p cs ws idle bk iw h :
  proxy_ok ph p cs ws idle bk iw ->
  wp (proxy_drop ph) h (fun ph' _ => exists h',
    ph' = set_conns ph h' /\ proxy_ok ph' p cs ws idle bk iw /\ dom h' = dom (ph_conns ph) /\
    forall i k, worker_conn ws i = Some k -> gone h' k).
Proof using Hos.
  intros Hok. pose proof Hok as [Hp _ _ [Hn Hl] _ _ _ _ _ _ _ _ _ _]. unfold proxy_drop, with_px, num. rewrite Hp, Hn, Nat2Z.id.
  assert (Hloop : forall n i ph h, proxy_ok ph p cs ws idle bk iw -> (i + n <= length ws)%nat ->
    wp (for_all n i proxy_worker_drop ph) h (fun ph' _ => exists h',
      ph' = set_conns ph h' /\ proxy_ok ph' p cs ws idle bk iw /\ dom h' = dom (ph_conns ph) /\
      (forall k, gone (ph_conns ph) k -> gone h' k) /\
      forall j k, (i <= j < i + n)%nat -> worker_conn ws j = Some k -> gone h' k)).
  2: { eapply wp_mono; [apply Hloop; [done|lia]|]. intros ph' e (h' & ? & ? & ? & _ & Hg). exists h'. split_and!; try done.
       intros i k Hk. apply (Hg i k); [|done]. split; [lia|]. rewrite <- Hl. apply worker_conn_Some in Hk as (w & Hw & _).
       by eapply lookup_lt_Some. }
  clear ph h Hok Hp. induction n as [|n IH]; intros i ph h Hok Hi; cbn [for_all]; wp_steps.
  { exists (ph_conns ph). split_and!; [by destruct ph|done..|]. intros j k ?. lia. }
  eapply wp_mono; [eapply worker_drop_ok; [done|lia]|]. intros ph1 e1 (h1 & -> & Hok1 & Hd1 & Hg1 & Hk1).
  eapply wp_mono; [apply (IH (S i)); [done|lia]|]. intros ph2 e2 (h2 & -> & Hok2 & Hd2 & Hg2 & Hk2).
  exists h2. split_and!; [done|done|by rewrite Hd2, <- Hd1|intros k Hk; by apply Hg2, Hg1|].
  intros j k Hj Hk. destruct (decide (j = i)) as [->|Hne]; [by apply Hg2, Hk1|apply (Hk2 j k); [lia|done]].
Qed.

Lemma shutdown_ok ph p cs ws idle bk iw h :
  proxy_ok ph p cs ws idle bk iw -> is_Some (priv (px_listen p)) ->
  wp (proxy_shutdown ph) h (fun ph' _ => exists p',
    ph' = set_ph ph p' /\ proxy_ok ph' p' cs ws idle bk iw /\ keeps ph p ph' p' /\ px_usable p' = 0).
Proof using Hos.
  intros Hok [q Hq]. pose proof Hok as [Hp Hc Hw Hn Hrep Hbk Hsl Hid Hch Hnd Hup Hlv Hfr Hreg].
  assert (Hok0 : proxy_ok (set_ph ph (set_px_usable p 0)) (set_px_usable p 0) cs ws idle bk iw) by (by split).
  unfold proxy_shutdown, with_px. rewrite Hp. wp_steps. eapply wp_mono; [by eapply update_wp|].
  intros ph1 e1 (rs & -> & Hok1 & _). cbn [set_ph ph_priv px_listen set_px_reg set_px_usable]. wp_steps.
  apply (conn_shutdown_wp _ q); [done|]. intros e2 _. wp_steps. by exists (set_px_reg (set_px_usable p 0) rs).
Qed.

(** *** One run of the worker's function *)

(** What a run of worker [i] for connection [k] leaves. *)
Definition served (ph : proxy_handle) (idle iw : list nat) (i k : nat) (res : proxy_handle + proxy_handle) : Prop :=
  match res with
  | inl ph' => exists p' cs' ws' bk' s,
      s ∈ idle /\ proxy_ok ph' p' cs' ws' (without s idle) bk' iw /\ client_of cs' s = Some k
  | inr ph' => exists p' cs' ws' idle' bk',
      proxy_ok ph' p' cs' ws' idle' bk' (i :: iw) /\ idle' ≡ₚ idle /\ ph_conf ph' = ph_conf ph /\
      ph_conns ph' = delete k (ph_conns ph)
  end.

Lemma touch_delete k h h' : touch k h h' -> delete k h' = delete k h.
Proof using.
  intros [Ht _]. apply map_eq. intros j. destruct (decide (j = k)) as [->|Hj].
  - by rewrite !lookup_delete_eq.
  - rewrite !lookup_delete_ne by done. by apply Ht.
Qed.

Lemma served_exit ph0 p0 idle0 ph p cs ws idle bk iw i k h :
  proxy_ok ph p cs ws idle bk iw -> serving cs ws iw i k -> idle ≡ₚ idle0 ->
  keeps ph0 p0 ph p -> touch k (ph_conns ph0) (ph_conns ph) ->
  wp (let* ph := worker_exit i ph in ret (inr ph)) h (fun res _ => served ph0 idle0 iw i k res).
Proof using.
  intros Hok Hsv Hid Hkp Ht. unfold worker_exit. wp_steps. eapply wp_mono; [by eapply release_ok|].
  intros ph1 e1 (p1 & ws1 & Hok1 & Hkp1 & Hh1 & _). eapply wp_mono; [by eapply update_wp|].
  intros ph2 e2 (rs & -> & Hok2 & _). wp_steps. exists (set_px_reg p1 rs), cs, ws1, idle, bk.
  destruct (keeps_trans _ _ _ _ _ _ Hkp Hkp1) as [Hcf _]. split_and!; [done|done|done|].
  simpl. rewrite Hh1. by apply touch_delete.
Qed.

Lemma without_perm s (l : list nat) : NoDup l -> s ∈ l -> l ≡ₚ s :: without s l.
Proof using.
  intros Hnd (l1 & l2 & ->)%list_elem_of_split. rewrite without_split by done. solve_Permutation.
Qed.

Lemma serve_ok n ph p cs ws idle bk iw i k call h :
  proxy_ok ph p cs ws idle bk iw -> serving cs ws iw i k ->
  wp (worker_serve n i k call ph) h (fun res _ => served ph idle iw i k res).
Proof using Hos.
  intros Hok Hsv. pose proof (rep_nodup _ _ _ _ (ok_rep _ _ _ _ _ _ _ Hok)) as Hnd.
  pose proof Hsv as [Hk Hni Hns Hal]. unfold worker_serve. wp_steps.
  eapply wp_mono; [by eapply update_wp|]. intros ph1 e1 (rs & -> & Hok1 & _). wp_steps.
  eapply wp_mono; [by eapply acquire_ok|]. intros [[s|] ph2] e2 (p2 & cs2 & bk2 & Hok2 & Hkp2 & Ht2 & Hin & Hcl2).
  2: { eapply served_exit; [done| |done|exact Hkp2|exact Ht2]. split; try done. intros j. rewrite Hcl2. apply Hns. }
  simpl in *. specialize (Hin s eq_refl). assert (Hs2 : client_of cs2 s = Some k) by (by rewrite Hcl2, fn_lookup_insert).
  wp_steps. eapply wp_mono; [by eapply session_ok|].
  intros [going ph3] e3 (_ & p3 & cs3 & Hok3 & Hkp3 & Hh3 & Hcl3). simpl in *. rewrite <- Hcl3 in Hs2.
  destruct going; [wp_steps; by exists p3, cs3, ws, bk2, s|].
  apply wp_bind. eapply wp_mono; [exact (wp_bind_inv _ _ _ _ (return_ok _ _ _ _ _ _ _ _ _ _ Hok3 Hs2))|].
  intros [[] ph4] e4 Hgive. apply wp_bind. eapply wp_mono; [exact Hgive|].
  intros ph5 e5 (p5 & cs5 & Hok5 & Hkp5 & Ht5 & Hcl5).
  pose proof (keeps_trans _ _ _ _ _ _ (keeps_trans _ _ _ _ _ _ Hkp2 Hkp3) Hkp5) as Hkp.
  eapply served_exit; [exact Hok5| | |exact Hkp|].
  - split; try done. intros j. rewrite Hcl5. destruct (decide (s = j)) as [<-|Hne].
    + by rewrite fn_lookup_insert.
    + rewrite fn_lookup_insert_ne, Hcl3, Hcl2, fn_lookup_insert_ne by done. apply Hns.
  - etransitivity; [|symmetry; by apply without_perm]. solve_Permutation.
  - eapply touch_trans; [done|]. by eapply touch_trans.
Qed.

Lemma func_ok {Hal : AllocOK O} ctx n ph p cs ws idle bk iw i k h :
  proxy_ok ph p cs ws idle bk iw -> serving cs ws iw i k -> admits ph p ->
  wp (proxy_worker_func ctx n i ph) h (fun res _ => served ph idle iw i k res).
Proof using Hos.
  intros Hok Hsv Had. unfold proxy_worker_func. wp_steps. eapply wp_mono; [by eapply admit_ok|].
  intros [[[k' call]|] ph1] e (_ & p1 & ws1 & Hkp & Hres); simpl in *.
  - destruct Hres as (-> & Hok1 & Hh1 & Hw1). pose proof Hsv as [Hk Hni Hns Hal'].
    eapply wp_mono; [eapply serve_ok; [exact Hok1|]|].
    { split; [by rewrite Hw1|done|done|]. intros j. rewrite Hw1. apply Hal'. }
    intros [ph'|ph'] e' Hs; [exact Hs|]. destruct Hs as (p' & cs' & ws' & idle' & bk' & ? & ? & Hcf & Hh').
    exists p', cs', ws', idle', bk'. split_and!; [done|done|by rewrite Hcf; apply Hkp|by rewrite Hh', Hh1].
  - destruct Hres as (Hok1 & Hh1 & _). wp_steps. exists p1, cs, ws1, idle, bk. split_and!; [done|done|apply Hkp|done].
Qed.

End Consistent.
