(* ===== verification/ProxySystem.v ===== *)
(** * The proxy at work (src/src/proxy.c)

    The proxy at work: the connections that arrive and the threads of the
    workers, in any order.

    [worker_step] cuts [proxy_worker_func] of proxy.c at the places where another
    thread may come in between; [worker_func_steps] shows that the function is
    the sequence of these steps.  [run] performs any sequence of steps of the
    workers, of rounds of the forwarders of the slots' three legs, of calls of
    [proxy_process] by the main loop, and of [proxy_drop] and [proxy_shutdown].
    A forwarder may run whenever its slot has a client: [proxy_conn_finish] waits
    for all three before it forgets the client (ProxyConn.v shows that none is
    running when it returns).  [consistent] is the invariant: besides what [proxy_ok]
    says of the proxy, every connection belongs to one worker, and the slots that
    are not idle to the workers that are in a session.

    A step is performed as a whole.  The one place where that hides something is
    between [proxy_conn_finish] and the return of the slot to the pool, which
    [Pool.v] treats. *)

From stdpp Require Import functions.
From S2P Require Import Prelude Sys Mutex Worker Conn Conf ProxyConn Auth Pool Registration Log Proxy ProxyRun.

(** ** Steps of a worker *)

(** Where the thread of a worker is in [proxy_worker_func]. *)
Inductive phase : Type :=
  | Waiting
  | Cleared (conn : nat) (call : list Z)
  | Searching (conn : nat) (call : list Z)
  | InSlot (conn slot : nat)
  | Closing (conn slot : nat)
  | Leaving (conn : nat)
  | Reporting.

Section System.
Context {Os : OS} {Rx : Pcre}.

Definition worker_step (ctx : Md5.MD5_CTX) (n i : nat) (x : phase) (ph : proxy_handle) : IO (phase * proxy_handle) :=
  match x with
  | Waiting =>
      let* (admitted, ph) := worker_admit ctx i ph in
      ret (match admitted with Some (conn, call) => Cleared conn call | None => Waiting end, ph)
  | Cleared conn call => let* ph := proxy_update_registration ph in ret (Searching conn call, ph)
  | Searching conn call =>
      let* (res, ph) := slot_acquire conn call ph in
      ret (match res with Some s => InSlot conn s | None => Leaving conn end, ph)
  | InSlot conn s =>
      let* (going, ph) := slot_session n s ph in
      ret (if (going : bool) then InSlot conn s else Closing conn s, ph)
  | Closing conn s =>
      let* (_, ph) := on_client s (fun s => let* s := proxy_conn_finish s in ret (tt, s)) ph in
      let* ph := slot_give_back s ph in
      ret (Leaving conn, ph)
  | Leaving _ => let* ph := worker_release i ph in ret (Reporting, ph)
  | Reporting => let* ph := proxy_update_registration ph in ret (Waiting, ph)
  end.

(** Steps of worker [i] until it waits again, at most [fuel] of them. *)
Fixpoint worker_steps (fuel : nat) (ctx : Md5.MD5_CTX) (n i : nat) (x : phase) (ph : proxy_handle)
  : IO (phase * proxy_handle) :=
  match fuel with
  | O => ret (x, ph)
  | S fuel =>
      let* (x, ph) := worker_step ctx n i x ph in
      match x with Waiting => ret (x, ph) | _ => worker_steps fuel ctx n i x ph end
  end.

(** ** The system *)

(** Slot [s] is in use. *)
Definition in_use (ph : proxy_handle) (s : nat) : bool :=
  match ph_priv ph ≫= px_clients with
  | Some cs => match client_of cs s with Some _ => true | None => false end
  | None => false
  end.

Inductive act : Type :=
  | Process
  | Work (i n : nat)
  | Forward (l : leg) (s n : nat)
  | Drop
  | Shutdown.

Definition perform (ctx : Md5.MD5_CTX) (a : act) (f : nat -> phase) (ph : proxy_handle)
  : IO ((nat -> phase) * proxy_handle) :=
  match a with
  | Process => let* (_, ph) := proxy_process ph in ret (f, ph)
  | Work i n =>
      if (i <? num ph)%nat then
        let* (x, ph) := worker_step ctx n i (f i) ph in ret (<[i := x]> f, ph)
      else ret (f, ph)
  | Forward l s n =>
      if in_use ph s then let* (_, ph) := slot_forward l n s ph in ret (f, ph) else ret (f, ph)
  | Drop => let* ph := proxy_drop ph in ret (f, ph)
  | Shutdown => let* ph := proxy_shutdown ph in ret (f, ph)
  end.

Fixpoint run (ctx : Md5.MD5_CTX) (acts : list act) (f : nat -> phase) (ph : proxy_handle)
  : IO ((nat -> phase) * proxy_handle) :=
  match acts with
  | [] => ret (f, ph)
  | a :: acts => let* (f, ph) := perform ctx a f ph in run ctx acts f ph
  end.

End System.

(** ** Consistency *)

Definition holds (x : phase) (k s : nat) : Prop := x = InSlot k s \/ x = Closing k s.

(** The connection a phase is about. *)
Definition about (x : phase) : option nat :=
  match x with
  | Waiting | Reporting => None
  | Cleared k _ | Searching k _ | InSlot k _ | Closing k _ | Leaving k => Some k
  end.

(** Whose connections and slots they are: [wc] are the connections of the workers,
    [cl] the clients of the slots, and [H] all connections there are. *)
Record owners (f : nat -> phase) (wc cl : nat -> option nat) (H : gset nat) : Prop := {
  ow_alone : forall i j k, wc i = Some k -> wc j = Some k -> i = j;
  ow_owned : forall k, k ∈ H <-> exists i, wc i = Some k;
  ow_about : forall i k, about (f i) = Some k -> wc i = Some k;
  ow_slot : forall i k s, holds (f i) k s -> cl s = Some k;
  ow_held : forall s k, cl s = Some k -> exists i, holds (f i) k s;
}.

Section Owners.
Context (f : nat -> phase) (wc cl : nat -> option nat) (H : gset nat) (Ho : owners f wc cl H).

Lemma holds_about x k s : holds x k s -> about x = Some k.
Proof using. by intros [->| ->]. Qed.

Lemma owners_ext wc' cl' H' :
  (forall j, wc' j = wc j) -> (forall j, cl' j = cl j) -> H' = H -> owners f wc' cl' H'.
Proof using Ho.
  intros Hw Hc ->. destruct Ho as [H1 H2 H3 H4 H5]. split.
  - intros i j k. rewrite !Hw. apply H1.
  - intros k. rewrite H2. split; intros [i Hi]; exists i; by rewrite ?Hw in *.
  - intros i k. rewrite Hw. apply H3.
  - intros i k s. rewrite Hc. apply H4.
  - intros s k. rewrite Hc. apply H5.
Qed.

(** A worker whose thread is in no slot has its connection for itself. *)
Lemma owners_free i k : wc i = Some k -> (forall s, ~ holds (f i) k s) -> forall s, cl s <> Some k.
Proof using Ho.
  intros Hi Hn s [j Hj]%(ow_held _ _ _ _ Ho). assert (j = i) as ->; [|by apply (Hn s)].
  eapply (ow_alone _ _ _ _ Ho); [|done]. eapply (ow_about _ _ _ _ Ho), holds_about, Hj.
Qed.

(** The thread of worker [i] moves on with what it has. *)
Lemma owners_phase i x :
  (forall k, about x = Some k -> wc i = Some k) -> (forall k s, holds x k s <-> holds (f i) k s) ->
  owners (<[i := x]> f) wc cl H.
Proof using Ho.
  intros Ha Hh. destruct Ho as [H1 H2 H3 H4 H5].
  assert (E : forall j k s, holds ((<[i := x]> f) j) k s <-> holds (f j) k s).
  { intros j k s. destruct (decide (i = j)) as [<-|Hne]; [by rewrite fn_lookup_insert|by rewrite fn_lookup_insert_ne]. }
  split; [done|done| | |].
  - intros j k. destruct (decide (i = j)) as [<-|Hne].
    + rewrite fn_lookup_insert. apply Ha.
    + rewrite fn_lookup_insert_ne by done. apply H3.
  - intros j k s. rewrite E. apply H4.
  - intros s k (j & Hj)%H5. exists j. by rewrite E.
Qed.

(** It gives up its connection. *)
Lemma owners_release i k x :
  wc i = Some k -> (forall s, ~ holds (f i) k s) -> about x = None ->
  owners (<[i := x]> f) (<[i := None]> wc) cl (H ∖ {[k]}).
Proof using Ho.
  intros Hi Hn Hx. destruct Ho as [H1 H2 H3 H4 H5]. split.
  - intros a b c. destruct (decide (i = a)) as [<-|Ha]; [by rewrite fn_lookup_insert|].
    destruct (decide (i = b)) as [<-|Hb]; [by rewrite fn_lookup_insert|].
    rewrite !fn_lookup_insert_ne by done. apply H1.
  - intros c. rewrite elem_of_difference, elem_of_singleton, H2. split.
    + intros [[j Hj] Hc]. exists j. rewrite fn_lookup_insert_ne; [done|]. intros <-. congruence.
    + intros [j Hj]. destruct (decide (i = j)) as [<-|Hne]; [by rewrite fn_lookup_insert in Hj|].
      rewrite fn_lookup_insert_ne in Hj by done. split; [by exists j|]. intros ->. by apply Hne, (H1 i j k).
  - intros j c. destruct (decide (i = j)) as [<-|Hne]; [by rewrite fn_lookup_insert, Hx|].
    rewrite !fn_lookup_insert_ne by done. apply H3.
  - intros j c s. destruct (decide (i = j)) as [<-|Hne].
    + rewrite fn_lookup_insert. intros Hh%holds_about. congruence.
    + rewrite fn_lookup_insert_ne by done. apply H4.
  - intros s c Hc. destruct (H5 s c Hc) as [j Hj]. exists j. rewrite fn_lookup_insert_ne; [done|]. intros <-.
    assert (c = k) as ->; [|by apply (Hn s)]. apply holds_about, H3 in Hj. congruence.
Qed.

(** It gets slot [s]. *)
Lemma owners_acquire i k s :
  wc i = Some k -> (forall s, ~ holds (f i) k s) -> cl s = None ->
  owners (<[i := InSlot k s]> f) wc (<[s := Some k]> cl) H.
Proof using Ho.
  intros Hi Hn Hs. destruct Ho as [H1 H2 H3 H4 H5]. split; [done|done| | |].
  - intros j c. destruct (decide (i = j)) as [<-|Hne].
    + rewrite fn_lookup_insert. by intros [= <-].
    + rewrite fn_lookup_insert_ne by done. apply H3.
  - intros j c t. destruct (decide (i = j)) as [<-|Hne].
    + rewrite fn_lookup_insert. intros [[= <- <-]|?]; [by rewrite fn_lookup_insert|done].
    + rewrite fn_lookup_insert_ne by done. intros Hh%H4. rewrite fn_lookup_insert_ne; [done|]. intros <-. congruence.
  - intros t c. destruct (decide (s = t)) as [<-|Hne].
    + rewrite fn_lookup_insert. intros [= <-]. exists i. rewrite fn_lookup_insert. by left.
    + rewrite fn_lookup_insert_ne by done. intros Hc. destruct (H5 t c Hc) as [j Hj]. exists j.
      rewrite fn_lookup_insert_ne; [done|]. intros <-.
      assert (c = k) as ->; [|by apply (Hn t)]. apply holds_about, H3 in Hj. congruence.
Qed.

(** It leaves slot [s]. *)
Lemma owners_return i k s :
  f i = Closing k s -> owners (<[i := Leaving k]> f) wc (<[s := None]> cl) H.
Proof using Ho.
  intros Hf. destruct Ho as [H1 H2 H3 H4 H5]. assert (Hi : wc i = Some k) by (apply H3; by rewrite Hf).
  assert (Hs : cl s = Some k) by (apply (H4 i); right; done).
  split; [done|done| | |].
  - intros j c. destruct (decide (i = j)) as [<-|Hne].
    + rewrite fn_lookup_insert. by intros [= <-].
    + rewrite fn_lookup_insert_ne by done. apply H3.
  - intros j c t. destruct (decide (i = j)) as [<-|Hne].
    + rewrite fn_lookup_insert. by intros [?|?].
    + rewrite fn_lookup_insert_ne by done. intros Hh. rewrite fn_lookup_insert_ne; [by apply (H4 j)|]. intros <-.
      apply Hne, (H1 i j k); [done|]. assert (c = k) as <- by (apply H4 in Hh; congruence). by eapply H3, holds_about.
  - intros t c. destruct (decide (s = t)) as [<-|Hne]; [by rewrite fn_lookup_insert|].
    rewrite fn_lookup_insert_ne by done. intros Hc. destruct (H5 t c Hc) as [j Hj]. exists j.
    rewrite fn_lookup_insert_ne; [done|]. intros <-. rewrite Hf in Hj. destruct Hj as [?|[= _ <-]]; done.
Qed.

(** Worker [i] is given a new connection. *)
Lemma owners_hand i k :
  wc i = None -> k ∉ H -> owners f (<[i := Some k]> wc) cl ({[k]} ∪ H).
Proof using Ho.
  intros Hi Hk. destruct Ho as [H1 H2 H3 H4 H5]. assert (Hno : forall j, wc j <> Some k).
  { intros j Hj. apply Hk, H2. by exists j. }
  split; [| | |done|done].
  - intros a b c. destruct (decide (i = a)) as [<-|Ha], (decide (i = b)) as [<-|Hb]; try done;
      rewrite ?fn_lookup_insert, ?fn_lookup_insert_ne by done.
    + intros [= <-] Hc. by destruct (Hno b).
    + intros Hc [= <-]. by destruct (Hno a).
    + apply H1.
  - intros c. rewrite elem_of_union, elem_of_singleton, H2. split.
    + intros [->|[j Hj]]; [exists i; by rewrite fn_lookup_insert|].
      exists j. rewrite fn_lookup_insert_ne; [done|]. intros <-. congruence.
    + intros [j Hj]. destruct (decide (i = j)) as [<-|Hne].
      * rewrite fn_lookup_insert in Hj. injection Hj as <-. by left.
      * rewrite fn_lookup_insert_ne in Hj by done. right. by exists j.
  - intros j c Hc%H3. rewrite fn_lookup_insert_ne; [done|]. intros <-. congruence.
Qed.

End Owners.

(** All connections have been dropped. *)
Definition all_gone (h : heap) : Prop := forall k, is_Some (h !! k) -> gone h k.

Lemma gone_delete k h : all_gone h -> all_gone (delete k h).
Proof.
  intros Hg j. destruct (decide (k = j)) as [<-|Hne]; [rewrite lookup_delete_eq; by intros []|].
  unfold gone. rewrite lookup_delete_ne by done. apply Hg.
Qed.

Lemma touch_dom k (h h' : heap) : touch k h h' -> live h k -> dom h' = dom h.
Proof.
  intros (Ht & Hl & _) Hk. apply set_eq. intros j. rewrite !elem_of_dom. destruct (decide (j = k)) as [->|Hj].
  - destruct (Hl Hk) as (c' & Hc' & _), Hk as (c & Hc & _). rewrite Hc, Hc'. by split; eexists.
  - by rewrite Ht.
Qed.

Lemma gone_touch k h h' : touch k h h' -> live h k -> all_gone h -> all_gone h'.
Proof.
  intros Ht Hk Hg j Hj. eapply touch_gone, Hg; [done|]. apply elem_of_dom. rewrite <- (touch_dom _ _ _ Ht Hk).
  by apply elem_of_dom.
Qed.

(** How many of its steps a worker whose connection has been dropped is at most
    away from waiting for the next one. *)
Definition left (x : phase) (conn : option nat) : nat :=
  match x, conn with
  | Waiting, None => 0
  | Waiting, Some _ | Reporting, None => 1
  | Reporting, Some _ | Leaving _, _ => 2
  | Closing _ _, _ => 3
  | InSlot _ _, _ => 4
  | Searching _ _, _ => 5
  | Cleared _ _, _ => 6
  end.

Section Invariant.
Context {Rx : Pcre} {F : Fit}.

(** The connection of worker [i]. *)
Definition conn_at (ph : proxy_handle) (i : nat) : option nat := pw_at ph i ≫= pw_conn.

(** A proxy in which the threads of the workers are at [f]. *)
Record consistent (f : nat -> phase) (ph : proxy_handle) (p : proxy_priv) (cs : list proxy_conn_handle)
    (ws : list proxy_worker) (idle : list nat) (bk : Z -> list nat) (iw : list nat) : Prop := {
  co_ok : proxy_ok ph p cs ws idle bk iw;
  co_admits : admits ph p;
  co_listen : is_Some (priv (px_listen p));
  co_log : log_safe (px_log p);
  co_owners : owners f (worker_conn ws) (client_of cs) (dom (ph_conns ph));
}.

Definition is_consistent (f : nat -> phase) (ph : proxy_handle) : Prop :=
  exists p cs ws idle bk iw, consistent f ph p cs ws idle bk iw.

(** The steps of worker [j] that the action [a] is. *)
Definition works (a : act) (j : nat) : nat :=
  match a with Work i (S _) => if decide (i = j) then 1 else 0 | _ => 0 end.

(** What an action leaves: a consistent proxy, and workers that are not further
    away from waiting, once their connections have been dropped. *)
Record moves (a : act) (f : nat -> phase) (ph : proxy_handle) (f' : nat -> phase) (ph' : proxy_handle) : Prop := {
  mv_ok : is_consistent f' ph';
  mv_num : num ph' = num ph;
  mv_gone : all_gone (ph_conns ph) -> all_gone (ph_conns ph');
  mv_left : all_gone (ph_conns ph) -> forall j, (j < num ph)%nat ->
    (left (f' j) (conn_at ph' j) <= left (f j) (conn_at ph j) - works a j)%nat;
}.

Context {O : OS} {Hos : OSLaws O} {Hal : AllocOK O}.

Section Steps.
Context (f : nat -> phase) (ph : proxy_handle) (p : proxy_priv) (cs : list proxy_conn_handle)
  (ws : list proxy_worker) (idle : list nat) (bk : Z -> list nat) (iw : list nat).
Context (Hco : consistent f ph p cs ws idle bk iw).

(** The next state, from what an operation says about it. *)
Lemma consistent_next f' ph' p' cs' ws' idle' bk' iw' :
  proxy_ok ph' p' cs' ws' idle' bk' iw' -> keeps ph p ph' p' ->
  owners f' (worker_conn ws') (client_of cs') (dom (ph_conns ph')) -> is_consistent f' ph'.
Proof using Hco.
  intros Hok Hkp Ho. exists p', cs', ws', idle', bk', iw'. destruct Hco as [_ Had Hli Hlg _].
  split; [done|by eapply keeps_admits| | |done]; destruct Hkp as (_ & _ & _ & E1 & E2 & _); by rewrite ?E1, ?E2.
Qed.

Lemma keeps_num ph' p' cs' ws' idle' bk' iw' :
  proxy_ok ph' p' cs' ws' idle' bk' iw' -> keeps ph p ph' p' -> num ph' = num ph.
Proof using Hco.
  intros Hok' (_ & _ & _ & _ & _ & E). destruct Hco as [Hok _ _ _ _]. unfold num.
  by rewrite (ok_priv _ _ _ _ _ _ _ Hok), (ok_priv _ _ _ _ _ _ _ Hok'), E.
Qed.

Lemma ok_conn_at ph' p' cs' ws' idle' bk' iw' j :
  proxy_ok ph' p' cs' ws' idle' bk' iw' -> conn_at ph' j = worker_conn ws' j.
Proof using. intros [Hp _ Hw _ _ _ _ _ _ _ _ _ _ _]. unfold conn_at, pw_at. by rewrite Hp, Hw. Qed.

(** A step of worker [i]. *)
Lemma step_moves i n x ph' p' cs' ws' idle' bk' iw' :
  proxy_ok ph' p' cs' ws' idle' bk' iw' -> keeps ph p ph' p' ->
  owners (<[i := x]> f) (worker_conn ws') (client_of cs') (dom (ph_conns ph')) ->
  (forall j, j <> i -> worker_conn ws' j = worker_conn ws j) ->
  (all_gone (ph_conns ph) -> all_gone (ph_conns ph')) ->
  (all_gone (ph_conns ph) -> (left x (worker_conn ws' i) <= left (f i) (worker_conn ws i) - works (Work i n) i)%nat) ->
  moves (Work i n) f ph (<[i := x]> f) ph'.
Proof using Hco.
  intros Hok' Hkp Ho Hj Hg Hl. pose proof Hco as [Hok _ _ _ _].
  split; [by eapply consistent_next|by eapply keeps_num|done|].
  intros Ha j _. rewrite (ok_conn_at _ _ _ _ _ _ _ j Hok'), (ok_conn_at _ _ _ _ _ _ _ j Hok).
  destruct (decide (i = j)) as [<-|Hne]; [rewrite fn_lookup_insert; by apply Hl|].
  rewrite fn_lookup_insert_ne, Hj by done. unfold works. destruct n; [|rewrite decide_False by done]; lia.
Qed.

(** A worker that has a connection and is in no slot. *)
Lemma consistent_serving i k : worker_conn ws i = Some k -> (forall s, ~ holds (f i) k s) -> serving cs ws iw i k.
Proof using Hco.
  intros Hi Hn. destruct Hco as [Hok _ _ _ Ho]. split; [done| | |].
  - intros Hiw. by rewrite (ok_free _ _ _ _ _ _ _ Hok i Hiw) in Hi.
  - by eapply owners_free.
  - intros j Hj. by eapply (ow_alone _ _ _ _ Ho).
Qed.

(** An action that leaves the threads of the workers where they are. *)
Lemma quiet_moves a ph' p' cs' ws' idle' bk' iw' :
  (forall j, works a j = 0%nat) -> proxy_ok ph' p' cs' ws' idle' bk' iw' -> keeps ph p ph' p' ->
  owners f (worker_conn ws') (client_of cs') (dom (ph_conns ph')) -> (forall j, worker_conn ws' j = worker_conn ws j) ->
  (all_gone (ph_conns ph) -> all_gone (ph_conns ph')) -> moves a f ph f ph'.
Proof using Hco.
  intros Ha Hok' Hkp Ho Hj Hg. pose proof Hco as [Hok _ _ _ _].
  split; [by eapply consistent_next|by eapply keeps_num|done|].
  intros _ j _. rewrite (ok_conn_at _ _ _ _ _ _ _ j Hok'), (ok_conn_at _ _ _ _ _ _ _ j Hok), Hj, Ha. lia.
Qed.

Lemma works_le i n j : (works (Work i n) j <= 1)%nat.
Proof using. destruct n; simpl; [lia|]. case_decide; lia. Qed.

Ltac left_lia :=
  match goal with
  | |- context [works (Work ?i ?n) ?i] =>
      pose proof (works_le i n i); generalize dependent (works (Work i n) i); intros; simpl in *; lia
  end.

Lemma step_waiting ctx n i h :
  (i < length ws)%nat -> f i = Waiting ->
  wp (worker_step ctx n i Waiting ph) h (fun res _ => moves (Work i n) f ph (<[i := res.1]> f) res.2).
Proof using Hos Hal Hco.
  intros Hlt Hf. pose proof Hco as [Hok Had Hli _ Ho]. cbn [worker_step]. wp_steps.
  assert (Hn : forall k s, ~ holds (f i) k s) by (intros k s; rewrite Hf; by intros [?|?]).
  destruct (worker_conn ws i) as [k|] eqn:Hk.
  - eapply wp_mono; [eapply admit_ok; [done|by apply consistent_serving|done]|].
    assert (Hlk : is_Some (ph_conns ph !! k)).
    { destruct (ok_conn _ _ _ _ _ _ _ Hok i k Hk) as (c & -> & _). by eexists. }
    intros [[[k' call]|] ph'] e (Hgone & p' & ws' & Hkp & Hres); simpl in *; wp_steps; cbn [fst snd].
    + destruct Hres as (-> & Hok' & Hh & Hw).
      eapply step_moves; [exact Hok'|done| |by intros; rewrite Hw|by rewrite Hh|by intros Ha; specialize (Hgone (Ha k Hlk))].
      simpl. rewrite Hh. eapply owners_ext; [|done|done|done]. apply owners_phase; [done|by intros ? [= <-]|].
      intros k' s. split; [by intros [?|?]|by intros ?%Hn].
    + destruct Hres as (Hok' & Hh & Hw). eapply step_moves; [exact Hok'|done| | | |].
      * simpl. rewrite Hh, dom_delete_L. eapply owners_ext; [|done|done|done]. by apply owners_release.
      * intros j Hj. by rewrite Hw, fn_lookup_insert_ne.
      * rewrite Hh. apply gone_delete.
      * intros _. rewrite Hw, fn_lookup_insert. left_lia.
  - pose proof Hok as [Hp _ Hws _ _ _ _ _ _ _ _ _ _ _]. destruct (lookup_lt_is_Some_2 ws i Hlt) as [w Hw].
    assert (Hwn : pw_conn w = None) by (unfold worker_conn in Hk; by rewrite Hw in Hk).
    unfold worker_admit, with_px, pw_at. rewrite Hp, Hws, Hw. wp_steps. rewrite Hwn. wp_steps.
    eapply step_moves; [exact Hok|done| |done|done|intros _; rewrite Hk; left_lia].
    apply owners_phase; [done|done|]. by rewrite Hf.
Qed.

(** The registrar is told, and the worker goes on. *)
Lemma step_report n i x h :
  (forall k, about x = Some k -> worker_conn ws i = Some k) -> (forall k s, holds x k s <-> holds (f i) k s) ->
  (left x (worker_conn ws i) <= left (f i) (worker_conn ws i) - 1)%nat ->
  wp (let* ph := proxy_update_registration ph in ret (x, ph)) h
    (fun res _ => moves (Work i n) f ph (<[i := res.1]> f) res.2).
Proof using Hco.
  intros Ha Hh Hl. pose proof Hco as [Hok _ _ _ Ho]. wp_steps.
  eapply wp_mono; [by eapply update_wp|]. intros ph' e (rs & -> & Hok' & _). wp_steps. cbn [fst snd].
  eapply step_moves; [exact Hok'|done|by apply owners_phase|done|done|intros _; left_lia].
Qed.

Lemma step_searching ctx n i k call h :
  f i = Searching k call ->
  wp (worker_step ctx n i (Searching k call) ph) h (fun res _ => moves (Work i n) f ph (<[i := res.1]> f) res.2).
Proof using Hos Hco.
  intros Hf. pose proof Hco as [Hok _ _ _ Ho]. cbn [worker_step]. wp_steps.
  assert (Hk : worker_conn ws i = Some k) by (apply (ow_about _ _ _ _ Ho); by rewrite Hf).
  assert (Hn : forall k s, ~ holds (f i) k s) by (intros k' s; rewrite Hf; by intros [?|?]).
  eapply wp_mono; [by eapply acquire_ok|]. intros [res ph'] e (p' & cs' & bk' & Hok' & Hkp & Ht & Hin & Hcl). wp_steps.
  simpl in *. assert (Hlk : live (ph_conns ph) k) by (by eapply ok_conn).
  eapply step_moves; [exact Hok'|done| |done|by eapply gone_touch|intros _; rewrite Hf; destruct res; left_lia].
  rewrite (touch_dom _ _ _ Ht) by done. destruct res as [s|]; simpl in *; (eapply owners_ext; [|done|exact Hcl|done]).
  - apply owners_acquire; [done|done|done|]. by apply (ok_idle _ _ _ _ _ _ _ Hok), Hin.
  - apply owners_phase; [done|by intros ? [= <-]|]. intros k' s. split; [by intros [?|?]|by intros ?%Hn].
Qed.

Lemma step_session ctx n i k s h :
  f i = InSlot k s ->
  wp (worker_step ctx n i (InSlot k s) ph) h (fun res _ => moves (Work i n) f ph (<[i := res.1]> f) res.2).
Proof using Hos Hco.
  intros Hf. pose proof Hco as [Hok _ _ _ Ho]. cbn [worker_step]. wp_steps.
  assert (Hk : worker_conn ws i = Some k) by (apply (ow_about _ _ _ _ Ho); by rewrite Hf).
  assert (Hs : client_of cs s = Some k) by (apply (ow_slot _ _ _ _ Ho i); left; done).
  assert (Hlk : live (ph_conns ph) k) by (by eapply ok_conn).
  eapply wp_mono; [by eapply session_ok|]. intros [going ph'] e (Hend & p' & cs' & Hok' & Hkp & Ht & Hcl). wp_steps.
  simpl in *. eapply step_moves; [exact Hok'|done| |done|by eapply gone_touch|].
  - rewrite (touch_dom _ _ _ Ht) by done. eapply owners_ext; [|done|done|done].
    apply owners_phase; [done|destruct going; by intros ? [= <-]|]. rewrite Hf. unfold holds.
    intros k' s'. destruct going; naive_solver.
  - intros Ha. rewrite Hf. destruct n as [|n]; [destruct going; simpl; lia|]. rewrite Hend; [|apply Ha|lia].
    + simpl. rewrite decide_True by done. lia.
    + destruct Hlk as (c & -> & _). by eexists.
Qed.

Lemma step_forward ctx l n s h :
  wp (perform ctx (Forward l s n) f ph) h (fun res _ => moves (Forward l s n) f ph res.1 res.2).
Proof using Hos Hco.
  pose proof Hco as [Hok _ _ _ Ho]. cbn [perform]. unfold in_use.
  rewrite (ok_priv _ _ _ _ _ _ _ Hok). cbn [mbind option_bind]. rewrite (ok_clients _ _ _ _ _ _ _ Hok).
  destruct (client_of cs s) as [k|] eqn:Hs; [|wp_steps; by eapply quiet_moves].
  destruct (ow_held _ _ _ _ Ho s k Hs) as [i Hi%holds_about%(ow_about _ _ _ _ Ho)].
  wp_steps. eapply wp_mono; [by eapply forward_ok|]. intros [r ph'] e (_ & p' & cs' & Hok' & Hkp & Ht & Hcl). wp_steps.
  simpl in *. assert (Hlk : live (ph_conns ph) k) by (by eapply ok_conn).
  eapply quiet_moves; [done|exact Hok'|done| |done|by eapply gone_touch]. rewrite (touch_dom _ _ _ Ht) by done.
  by eapply owners_ext.
Qed.

Lemma step_closing ctx n i k s h :
  f i = Closing k s ->
  wp (worker_step ctx n i (Closing k s) ph) h (fun res _ => moves (Work i n) f ph (<[i := res.1]> f) res.2).
Proof using Hco.
  intros Hf. pose proof Hco as [Hok _ _ _ Ho]. cbn [worker_step].
  assert (Hk : worker_conn ws i = Some k) by (apply (ow_about _ _ _ _ Ho); by rewrite Hf).
  assert (Hs : client_of cs s = Some k) by (apply (ow_slot _ _ _ _ Ho i); right; done).
  assert (Hlk : live (ph_conns ph) k) by (by eapply ok_conn).
  apply wp_bind. eapply wp_mono; [exact (wp_bind_inv _ _ _ _ (return_ok _ _ _ _ _ _ _ _ _ _ Hok Hs))|].
  intros [[] ph1] e1 Hgive. apply wp_bind. eapply wp_mono; [exact Hgive|].
  intros ph' e (p' & cs' & Hok' & Hkp & Ht & Hcl). wp_steps. cbn [fst snd].
  eapply step_moves; [exact Hok'|done| |done|by eapply gone_touch|intros _; rewrite Hf; left_lia].
  simpl. rewrite (touch_dom _ _ _ Ht) by done. eapply owners_ext; [|done|exact Hcl|done]. by apply owners_return.
Qed.

Lemma step_leaving ctx n i k h :
  f i = Leaving k ->
  wp (worker_step ctx n i (Leaving k) ph) h (fun res _ => moves (Work i n) f ph (<[i := res.1]> f) res.2).
Proof using Hos Hco.
  intros Hf. pose proof Hco as [Hok _ _ _ Ho]. cbn [worker_step]. wp_steps.
  assert (Hk : worker_conn ws i = Some k) by (apply (ow_about _ _ _ _ Ho); by rewrite Hf).
  assert (Hn : forall s, ~ holds (f i) k s) by (intros s; rewrite Hf; by intros [?|?]).
  eapply wp_mono; [eapply release_ok; [done|by apply consistent_serving]|].
  intros ph' e (p' & ws' & Hok' & Hkp & Hh & Hw). wp_steps. cbn [fst snd]. eapply step_moves; [exact Hok'|done| | | |].
  - simpl. rewrite Hh, dom_delete_L. eapply owners_ext; [|done|done|done]. by apply owners_release.
  - intros j Hj. by rewrite Hw, fn_lookup_insert_ne.
  - rewrite Hh. apply gone_delete.
  - intros _. rewrite Hw, fn_lookup_insert, Hf. left_lia.
Qed.

Lemma step_ok ctx n i h :
  (i < length ws)%nat ->
  wp (worker_step ctx n i (f i) ph) h (fun res _ => moves (Work i n) f ph (<[i := res.1]> f) res.2).
Proof using Hos Hal Hco.
  intros Hlt. pose proof Hco as [Hok _ _ _ Ho]. destruct (f i) as [|k call|k call|k s|k s|k|] eqn:Hf;
    [by apply step_waiting| |by apply step_searching|by apply step_session|by apply step_closing|by apply step_leaving|].
  - apply step_report; rewrite ?Hf; [|intros k' s; by split; intros [?|?]|done].
    intros ? [= <-]. apply (ow_about _ _ _ _ Ho). by rewrite Hf.
  - apply step_report; rewrite ?Hf; [done|intros k' s; by split; intros [?|?]|by destruct (worker_conn ws i)].
Qed.

Lemma drop_moves h :
  wp (proxy_drop ph) h (fun ph' _ => moves Drop f ph f ph' /\ all_gone (ph_conns ph')).
Proof using Hos Hco.
  pose proof Hco as [Hok _ _ _ Ho]. eapply wp_mono; [by eapply drop_ok|]. intros ph' e (h' & -> & Hok' & Hd & Hg).
  assert (Hall : all_gone h').
  { intros k Hk. apply elem_of_dom in Hk. rewrite Hd in Hk. apply (ow_owned _ _ _ _ Ho) in Hk as [i Hi]. by apply (Hg i). }
  split; [|done]. eapply quiet_moves; [done|exact Hok'|done| |done|done]. simpl. by rewrite Hd.
Qed.

Lemma shutdown_moves h : wp (proxy_shutdown ph) h (fun ph' _ => moves Shutdown f ph f ph').
Proof using Hos Hco.
  pose proof Hco as [Hok _ Hli _ Ho]. eapply wp_mono; [by eapply shutdown_ok|].
  intros ph' e (p' & -> & Hok' & Hkp & _). by eapply quiet_moves.
Qed.

Lemma process_consistent {Hup : AllUp F} h :
  wp (proxy_process ph) h (fun res _ => is_consistent f res.2).
Proof using Hos Hco.
  pose proof Hco as [Hok _ Hli _ Ho]. eapply wp_mono; [by eapply process_ok|].
  intros res e (p' & ws' & iw' & Hok' & Hkp & [(Hh & Hw & _)|(_ & i & k & c & Hiw & Hk & _ & Hh & Hw)]).
  - eapply consistent_next; [exact Hok'|done|]. rewrite Hh. by eapply owners_ext.
  - eapply consistent_next; [exact Hok'|done|]. rewrite Hh, dom_insert_L. eapply owners_ext; [|done|done|done].
    apply owners_hand; [done| |by apply not_elem_of_dom]. apply (ok_free _ _ _ _ _ _ _ Hok). rewrite Hiw. by left.
Qed.

End Steps.

Lemma perform_moves ctx a f ph h :
  is_consistent f ph -> a <> Process -> wp (perform ctx a f ph) h (fun res _ => moves a f ph res.1 res.2).
Proof using Hos Hal.
  intros (p & cs & ws & idle & bk & iw & Hco) Ha. pose proof Hco as [Hok _ Hli _ Ho].
  destruct a as [|i n|l s n| |]; [done| |by eapply step_forward| |]; cbn [perform].
  - destruct (Nat.ltb_spec i (num ph)) as [Hi|Hi].
    + assert (Hlt : (i < length ws)%nat).
      { unfold num in Hi. destruct (ok_num _ _ _ _ _ _ _ Hok) as [Hn Hl]. rewrite (ok_priv _ _ _ _ _ _ _ Hok), Hn in Hi. lia. }
      wp_steps. eapply wp_mono; [by eapply step_ok|]. intros [x ph'] e Hc. by wp_steps.
    + wp_steps. split; [by exists p, cs, ws, idle, bk, iw|done|done|].
      intros _ j Hj. unfold works. destruct n; [|rewrite decide_False by (simpl in Hi; lia)]; simpl; lia.
  - wp_steps. eapply wp_mono; [by eapply drop_moves|]. intros ph' e [Hm _]. by wp_steps.
  - wp_steps. eapply wp_mono; [by eapply shutdown_moves|]. intros ph' e Hm. by wp_steps.
Qed.

Lemma perform_ok {Hup : AllUp F} ctx a f ph h :
  is_consistent f ph -> wp (perform ctx a f ph) h (fun res _ => is_consistent res.1 res.2).
Proof using Hos Hal.
  intros Hc. assert (a = Process \/ a <> Process) as [->|Ha] by (destruct a; (by left) || by right).
  - destruct Hc as (p & cs & ws & idle & bk & iw & Hco). cbn [perform]. wp_steps.
    eapply wp_mono; [by eapply process_consistent|]. intros [r ph'] e Hc'. by wp_steps.
  - eapply wp_mono; [by apply perform_moves|]. by intros [f' ph'] e [Hc' _ _ _].
Qed.

Lemma run_ok {Hup : AllUp F} ctx acts : forall f ph h,
  is_consistent f ph -> wp (run ctx acts f ph) h (fun res _ => is_consistent res.1 res.2).
Proof using Hos Hal.
  induction acts as [|a acts IH]; intros f ph h Hc; cbn [run]; wp_steps; [done|].
  eapply wp_mono; [by apply perform_ok|]. intros [f' ph'] e Hc'. eapply wp_mono; [by apply IH|done].
Qed.

End Invariant.

(** ** The function of a worker is the sequence of its steps *)

Lemma bind_assoc {A B C} (m : IO A) (f : A -> IO B) (g : B -> IO C) h :
  bind (bind m f) g h = bind m (fun a => bind (f a) g) h.
Proof.
  unfold bind. destruct (m h) as [[a|] e1]; [|done]. destruct (f a (h ++ e1)) as [[b|] e2]; [|done].
  rewrite app_assoc. destruct (g b ((h ++ e1) ++ e2)) as [r e3]. by rewrite app_assoc.
Qed.

Lemma bind_ret {A B} (a : A) (f : A -> IO B) h : bind (ret a) f h = f a h.
Proof. unfold bind, ret. rewrite app_nil_r. by destruct (f a h). Qed.

Lemma bind_ext {A B} (m : IO A) (f g : A -> IO B) h : (forall a h, f a h = g a h) -> bind m f h = bind m g h.
Proof. intros E. unfold bind. destruct (m h) as [[a|] e]; [|done]. by rewrite E. Qed.

Section Sequence.
Context {Os : OS} {Rx : Pcre}.

(** What is left of the function when its thread is at [x]. *)
Definition rest (ctx : Md5.MD5_CTX) (n i : nat) (x : phase) (ph : proxy_handle) : IO (proxy_handle + proxy_handle) :=
  let* (x, ph) := worker_steps 4 ctx n i x ph in
  match x with
  | Waiting => ret (inr ph)
  | InSlot _ _ => ret (inl ph)
  | _ => let* (_, ph) := worker_steps 4 ctx n i x ph in ret (inr ph)
  end.

(** Bring the first operation to the front, and step over it. *)
Ltac io_norm := cbn [worker_step]; repeat (first [rewrite !bind_assoc | rewrite !bind_ret]; cbv beta iota; cbn [worker_step]); try done.
Ltac io_step := io_norm; apply bind_ext; cbv beta.

Lemma func_rest ctx n i ph h : proxy_worker_func ctx n i ph h = rest ctx n i Waiting ph h.
Proof using.
  unfold proxy_worker_func, rest, worker_serve, worker_exit. cbn [worker_steps worker_step].
  io_step. intros [[[k call]|] ph1] h1; [|io_norm]. io_step. intros ph2 h2.
  io_step. intros [[s|] ph3] h3; io_norm; apply bind_ext.
  - intros [[] ph4] h4; io_norm. apply bind_ext. intros [[] ph5] h5. io_step. intros ph6 h6.
    io_step. intros ph7 h7. io_norm.
  - intros ph4 h4. io_norm.
Qed.

End Sequence.
