(* ===== verification/ProxyLife.v ===== *)
(** * The life of a proxy (src/src/proxy.c)

    Initialising, opening, starting, closing and freeing a proxy, when memory and
    the calls of the threads library do not fail.  [ready] is a proxy that has been
    initialised and is not open, [opened] one that is open and serves nobody;
    between the two a proxy runs, which ProxySystem.v is about.  [down] is a proxy
    that is closed, but for the list of its idle workers. *)

From stdpp Require Import functions.
From S2P Require Import Prelude Sys Mutex Worker Conn Conf ProxyConn Auth Pool Registration Log Proxy ProxyRun ProxySystem.

(** The calls of the threads library succeed. *)
Class PthreadOK (O : OS) : Prop := pthread_ok : forall h b, a_ret (os_answer h (CPthread b)) = 0.

(** Step past the test of a return value that is 0. *)
Ltac succeeds := change (0 <? 0) with false; change (0 =? 0) with true; cbn [negb]; cbv iota; wp_steps.

(** ** Initialising the parts *)

Section Parts.
Context {O : OS} {Hos : OSLaws O} {Hal : AllocOK O} {Hpt : PthreadOK O}.

Lemma alloc_eqb h : (a_ret (os_answer h CAlloc) =? 0) = false.
Proof using Hal. apply Z.eqb_neq, Hal. Qed.
Lemma pthread_eqb h b : (a_ret (os_answer h (CPthread b)) =? 0) = true.
Proof using Hpt. by rewrite Hpt. Qed.

(** Follow a computation whose calls succeed. *)
Ltac all_well := repeat (wp_steps; rewrite ?alloc_eqb, ?pthread_eqb; cbn [negb]; cbv iota).

Lemma mutex_init_ok b h : wp (mutex_init b) h (fun res _ => res = (0, true)).
Proof using Hal Hpt. unfold mutex_init. destruct b; all_well; done. Qed.

Lemma condvar_init_ok b h : wp (condvar_init b) h (fun res _ => res = (0, true)).
Proof using Hal Hpt. unfold condvar_init. destruct b; all_well; done. Qed.

Ltac inits H := eapply wp_mono; [apply H|]; intros ? ? ->; succeeds.

Lemma conn_init_ok c h :
  priv c = None -> wp (conn_init c) h (fun res _ => res.1 = 0 /\ is_Some (priv res.2)).
Proof using Hal Hpt.
  intros Hc. unfold conn_init. rewrite Hc. all_well. inits mutex_init_ok. split; [done|by eexists].
Qed.

Lemma worker_init_ok w h :
  wpriv w = None -> wp (worker_init w) h (fun res _ => res.1 = 0 /\ worker_up res.2).
Proof using Hal Hpt.
  intros Hw. unfold worker_init. rewrite Hw, bool_decide_eq_false_2 by (by intros [? [=]]). all_well.
  inits condvar_init_ok. inits condvar_init_ok. inits mutex_init_ok.
  unfold thread_init. cbn [dirty]. all_well. inits mutex_init_ok. succeeds. split; [done|by eapply worker_up_set].
Qed.

(** *** A slot *)

(** A slot without a client, whose parts are initialised. *)
Definition fresh_slot (c : proxy_conn_handle) : Prop :=
  exists q, pc_priv_ptr c = Some q /\ conn_client q = None /\ alive ∅ q.

Lemma init_conn_ok l a po ty p h :
  priv (conn_of l p) = None ->
  wp (init_conn l a po ty p) h (fun res _ => exists c, res = (0, set_conn l p c) /\ is_Some (priv c)).
Proof using Hal Hpt.
  intros Hp. unfold init_conn. wp_steps. eapply wp_mono; [by apply conn_init_ok|].
  intros [r c] e [Hr Hc]. simpl in Hr, Hc. subst r. wp_steps. by exists c.
Qed.

Lemma init_worker_ok l p h :
  wpriv (worker_of l p) = None ->
  wp (init_worker l p) h (fun res _ => exists w, res = (0, set_worker l p w) /\ worker_up w).
Proof using Hal Hpt.
  intros Hp. unfold init_worker. wp_steps. eapply wp_mono; [by apply worker_init_ok|].
  intros [r w] e [Hr Hw]. simpl in Hr, Hw. subst r. wp_steps. by exists w.
Qed.

Lemma slot_init_ok s h :
  pc_priv_ptr (pc s) = None ->
  wp (proxy_conn_init s) h (fun res _ => res.1 = 0 /\ fresh_slot (pc res.2) /\ hp res.2 = hp s).
Proof using Hal Hpt.
  intros Hs. unfold proxy_conn_init, then_init. rewrite Hs. all_well.
  eapply wp_mono; [by apply init_conn_ok|]. intros ? ? (c1 & -> & Hc1). succeeds.
  eapply wp_mono; [by apply init_conn_ok|]. intros ? ? (c2 & -> & Hc2). succeeds.
  eapply wp_mono; [by apply init_conn_ok|]. intros ? ? (c3 & -> & Hc3). succeeds.
  inits mutex_init_ok. succeeds. inits mutex_init_ok. succeeds.
  eapply wp_mono; [by apply init_worker_ok|]. intros ? ? (w1 & -> & Hw1). succeeds.
  eapply wp_mono; [by apply init_worker_ok|]. intros ? ? (w2 & -> & Hw2). succeeds.
  eapply wp_mono; [by apply init_worker_ok|]. intros ? ? (w3 & -> & Hw3). succeeds.
  split; [done|]. split; [|done]. eexists. split; [done|]. split; [done|]. split; [by intros []|by intros []|done].
Qed.

(** Nothing but the slot changes when nobody uses it. *)
Lemma kept_heap s s' : (forall k, kept k s s') -> (forall q, pc_priv_ptr (pc s) = Some q -> conn_client q = None) ->
  hp s' = hp s.
Proof using.
  intros Hk Hn. apply map_eq. intros j. destruct (Hk (S j)) as (_ & [Ht _] & _); [|apply Ht; lia].
  intros q i Hq Hi. rewrite (Hn q Hq) in Hi. done.
Qed.

Lemma fresh_alive q h : conn_client q = None -> alive h q -> alive ∅ q.
Proof using. intros Hn [H1 H2 _]. split; [done|done|]. intros i Hi. congruence. Qed.

(** Stopping and freeing a slot nobody uses. *)
Lemma slot_stop_ok s h :
  fresh_slot (pc s) -> wp (proxy_conn_stop s) h (fun res _ => fresh_slot (pc res.2) /\ hp res.2 = hp s).
Proof using.
  intros (q & Hq & Hn & Ha). unfold proxy_conn_stop. wp_steps.
  assert (Hs : slot s q) by (split; [done|]; destruct Ha as [H1 H2 _]; split; [done|done|congruence]).
  destruct (slot_finish s q h Hs) as (s1 & e1 & E & q1 & Hs1 & Hn1 & _).
  exists s1, e1. split; [done|]. assert (Hh1 : hp s1 = hp s).
  { apply kept_heap; [intros k; by eapply kept_finish|]. intros q' Hq'. congruence. }
  wp_steps. eapply wp_mono; [eapply slot_on_worker; [apply worker_join_up|exact Hs1]|]. intros [r2 s2] e2 (w2 & E2 & Hs2). cbn [snd] in *. subst s2. wp_steps.
  eapply wp_mono; [eapply slot_on_worker; [apply worker_join_up|exact Hs2]|]. intros [r3 s3] e3 (w3 & E3 & Hs3). cbn [snd] in *. subst s3. wp_steps.
  eapply wp_mono; [eapply slot_on_worker; [apply worker_join_up|exact Hs3]|]. intros [r4 s4] e4 (w4 & E4 & Hs4). cbn [snd] in *. subst s4. wp_steps.
  split; [|done]. destruct Hs4 as [Hp4 Ha4]. eexists. split; [done|]. split; [done|]. by eapply fresh_alive.
Qed.

Lemma slot_free_ok s h :
  fresh_slot (pc s) \/ pc_priv_ptr (pc s) = None ->
  wp (proxy_conn_free s) h (fun s' _ => pc_priv_ptr (pc s') = None /\ hp s' = hp s).
Proof using.
  intros [Hf|Hn]; unfold proxy_conn_free; [|rewrite Hn; by wp_steps]. pose proof Hf as (q & Hq & _). rewrite Hq. wp_steps.
  eapply wp_mono; [by apply slot_stop_ok|]. intros [r s1] e1 [(q1 & Hq1 & _ & Ha1) Hh]. simpl in *. unfold with_pc.
  rewrite Hq1. wp_steps. unfold release, mutex_free. wp_steps.
  pose proof (alive_worker _ _ Ha1) as Hw. pose proof (alive_conn _ _ Ha1) as Hc.
  eapply wp_mono; [apply worker_free_up; left; apply (Hw Tcp)|]. intros ? ? _. wp_steps.
  eapply wp_mono; [apply worker_free_up; left; apply (Hw Data)|]. intros ? ? _. wp_steps.
  eapply wp_mono; [apply worker_free_up; left; apply (Hw Control)|]. intros ? ? _. wp_steps.
  eapply (wp_mono _ _ (fun _ _ => True)); [destruct (mutex_client q1); by wp_steps|]. intros ? ? _. wp_steps.
  eapply (wp_mono _ _ (fun _ _ => True)); [destruct (mutex_client_send q1); by wp_steps|]. intros ? ? _. wp_steps.
  eapply wp_mono; [apply conn_free_total, (Hc Tcp)|]. intros ? ? _. wp_steps.
  eapply wp_mono; [apply conn_free_total, (Hc Data)|]. intros ? ? _. wp_steps.
  eapply wp_mono; [apply conn_free_total, (Hc Control)|]. intros ? ? _. by wp_steps.
Qed.

Lemma slot_start_ok s h :
  fresh_slot (pc s) -> wp (proxy_conn_start s) h (fun res _ => fresh_slot (pc res.2) /\ hp res.2 = hp s).
Proof using Hos.
  intros (q & Hq & Hn & Ha). unfold proxy_conn_start, with_pc. rewrite Hq. wp_steps.
  assert (Hs : slot s q) by (split; [done|]; destruct Ha as [H1 H2 _]; split; [done|done|congruence]).
  assert (Hst : forall w h, worker_up w -> wp (worker_start w) h (fun res _ => worker_up res.2)).
  { intros w h' Hw. eapply wp_mono; [by apply worker_start_up|]. by intros res e [? _]. }
  assert (Hend : forall s' q', slot s' q' -> conn_client q' = None -> fresh_slot (pc s')).
  { intros s' q' [Hp' Ha'] Hn'. exists q'. split; [done|]. split; [done|]. by eapply fresh_alive. }
  eapply wp_mono; [eapply slot_on_worker; [exact Hst|exact Hs]|]. intros [r2 s2] e2 (w2 & E2 & Hs2). cbn [snd] in *. subst s2.
  case_match; wp_steps; [split; [by eapply Hend|done]|].
  eapply wp_mono; [eapply slot_on_worker; [exact Hst|exact Hs2]|]. intros [r3 s3] e3 (w3 & E3 & Hs3). cbn [snd] in *. subst s3.
  case_match; wp_steps; [split; [by eapply Hend|done]|].
  eapply wp_mono; [eapply slot_on_worker; [exact Hst|exact Hs3]|]. intros [r4 s4] e4 (w4 & E4 & Hs4). cbn [snd] in *. subst s4. wp_steps.
  split; [by eapply Hend|done].
Qed.

End Parts.

(** ** Loops *)

Section Loops.
Context {Rx : Pcre} {O : OS}.

Lemma for_all_ok (I : nat -> proxy_handle -> Prop) f n : forall i ph h,
  I i ph -> (forall j ph h, (i <= j < i + n)%nat -> I j ph -> wp (f j ph) h (fun ph' _ => I (S j) ph')) ->
  wp (for_all n i f ph) h (fun ph' _ => I (i + n)%nat ph').
Proof using.
  induction n as [|n IH]; intros i ph h Hi Hf; cbn [for_all]; wp_steps; [by rewrite Nat.add_0_r|].
  eapply wp_mono; [apply Hf; [lia|done]|]. intros ph' e Hi'. rewrite <- Nat.add_succ_comm.
  eapply wp_mono; [apply IH; [done|]|done]. intros j ph2 h2 Hj. apply Hf. lia.
Qed.

Lemma for_until_ok (I : nat -> proxy_handle -> Prop) f n : forall i ph h,
  I i ph -> (forall j ph h, (i <= j < i + n)%nat -> I j ph -> wp (f j ph) h (fun res _ => res.1 = 0 /\ I (S j) res.2)) ->
  wp (for_until n i f ph) h (fun res _ => exists ph', res = (0, (i + n)%nat, ph') /\ I (i + n)%nat ph').
Proof using.
  induction n as [|n IH]; intros i ph h Hi Hf; cbn [for_until]; wp_steps; [exists ph; by rewrite Nat.add_0_r|].
  eapply wp_mono; [apply Hf; [lia|done]|]. intros [r ph'] e [Hr Hi']. simpl in Hr, Hi'. subst r. succeeds. rewrite <- Nat.add_succ_comm.
  eapply wp_mono; [apply IH; [done|]|done]. intros j ph2 h2 Hj. apply Hf. lia.
Qed.

End Loops.

(** ** Ready and opened proxies *)

Section Life.
Context {Rx : Pcre}.

Record ready (ph : proxy_handle) (p : proxy_priv) : Prop := {
  rd_priv : ph_priv ph = Some p;
  rd_conns : ph_conns ph = ∅;
  rd_num : px_num p = 0;
  rd_iw : px_idle_workers p = None;
  rd_log : log_safe (px_log p);
  rd_listen : is_Some (priv (px_listen p));
  rd_reg : exists r, reg_up (px_reg p) r;
  rd_pats : forall re, px_allowed p = Some re \/ px_denied p = Some re -> is_Some re;
}.

Definition opened (ph : proxy_handle) : Prop :=
  exists p cs ws idle bk iw, consistent (fun _ => Waiting) ph p cs ws idle bk iw /\ forall i, worker_conn ws i = None.

Context {O : OS} {Hos : OSLaws O} {Hal : AllocOK O} {Hpt : PthreadOK O}.

(** *** Opening *)

Lemma open_pattern_ok pat re h :
  (forall x, re = Some x -> is_Some x) ->
  wp (open_pattern pat re) h (fun res _ =>
    (res.1 < 0 \/ res.1 = 0 /\ compiled res.2) /\ forall x, res.2 = Some x -> is_Some x).
Proof using Hal.
  intros Hre. unfold open_pattern. destruct pat as [pat|]; [|wp_steps; split; [by right|done]].
  assert (Hc : forall x h, is_Some x -> wp (if 0 <? 0 then ret (0, Some x) else
    let* (r, h) := regex_compile x pat in ret (r, Some h)) h (fun res _ =>
    (res.1 < 0 \/ res.1 = 0 /\ compiled res.2) /\ forall x, res.2 = Some x -> is_Some x)).
  { intros x h' [y ->]. succeeds. unfold regex_compile. wp_steps. destruct (pcre2_compile pat) as [c|]; wp_steps; simpl.
    - split; [right; split; [done|]|intros ? [= <-]; by eexists]. intros ? [= <-]. by exists c.
    - split; [left; unfold EINVAL; lia|intros ? [= <-]; by eexists]. }
  destruct re as [x|]; wp_steps; [apply Hc; by apply Hre|]. unfold regex_init. rewrite (alloc_eqb (Hal := Hal)). wp_steps.
  rewrite (alloc_eqb (Hal := Hal)). wp_steps. apply Hc. by eexists.
Qed.

(** What a failed opening goes back through. *)
Record half_open (ph : proxy_handle) (p : proxy_priv) : Prop := {
  ho_priv : ph_priv ph = Some p;
  ho_conns : ph_conns ph = ∅;
  ho_iw : px_idle_workers p = None;
  ho_log : log_safe (px_log p);
  ho_listen : is_Some (priv (px_listen p));
  ho_reg : exists r, reg_up (px_reg p) r;
  ho_pats : forall re, px_allowed p = Some re \/ px_denied p = Some re -> is_Some re;
}.

Lemma open_exit_ok env r ph p h :
  half_open ph p -> wp (open_exit env r ph) h (fun res _ => res.1 = r /\ exists p', ready res.2 p').
Proof using.
  intros [Hp Hh Hi Hl Hli Hr Hpt']. unfold open_exit, with_px, log_close. rewrite Hp.
  destruct (select_safe env (px_log p) LOG_MEDIUM_NONE Hl) as (r' & log' & acts & -> & Hl'). wp_steps.
  split; [done|]. eexists. split; try done. intros re [[=]|Hd]. apply Hpt'. by right.
Qed.

(** The loops that free all slots and all workers. *)
Lemma free_clients_ok ph p cs n h :
  (n <= length cs)%nat -> (forall j c, cs !! j = Some c -> fresh_slot c \/ pc_priv_ptr c = None) ->
  wp (for_all n 0 client_free (with_slots ph p cs ∅)) h (fun ph' _ => exists cs', ph' = with_slots ph p cs' ∅).
Proof using.
  intros Hn Hcs. eapply wp_mono.
  - apply (for_all_ok (fun _ ph' => exists cs', ph' = with_slots ph p cs' ∅ /\ length cs' = length cs /\
             forall j c, cs' !! j = Some c -> fresh_slot c \/ pc_priv_ptr c = None)); [by exists cs|].
    intros j ph1 h1 Hj (cs1 & -> & Hl1 & Hcs1). unfold client_free. wp_steps.
    destruct (lookup_lt_is_Some_2 cs1 j ltac:(lia)) as [c Hc]. apply (on_client_wp _ _ _ _ _ _ c); [done|]. wp_steps.
    eapply wp_mono; [apply slot_free_ok, (Hcs1 j c Hc)|]. intros s e [Hs Hh]. wp_steps. simpl in *. rewrite Hh.
    exists (<[j := pc s]> cs1). split; [done|]. rewrite length_insert. split; [done|].
    intros i d [(_ & <- & _)|[_ Hd]]%list_lookup_insert_Some; [by right|by eapply Hcs1].
  - intros ph' e (cs' & -> & _). by exists cs'.
Qed.

Lemma free_workers_ok ph p ws n h :
  (n <= length ws)%nat -> (forall j w, ws !! j = Some w -> worker_up (pw_worker w) \/ wpriv (pw_worker w) = None) ->
  wp (for_all n 0 proxy_worker_free (set_ph ph (set_px_workers p (Some ws)))) h (fun ph' _ => exists ws',
    ph' = set_ph ph (set_px_workers p (Some ws'))).
Proof using.
  intros Hn Hws. eapply wp_mono.
  - apply (for_all_ok (fun _ ph' => exists ws', ph' = set_ph ph (set_px_workers p (Some ws')) /\ length ws' = length ws /\
             forall j w, ws' !! j = Some w -> worker_up (pw_worker w) \/ wpriv (pw_worker w) = None)); [by exists ws|].
    intros j ph1 h1 Hj (ws1 & -> & Hl1 & Hws1). unfold proxy_worker_free, on_pw, with_px.
    cbn [set_ph ph_priv px_workers set_px_workers]. destruct (lookup_lt_is_Some_2 ws1 j ltac:(lia)) as [w Hw].
    rewrite Hw. wp_steps. eapply wp_mono; [apply worker_free_up, (Hws1 j w Hw)|]. intros w' e Hw'.
    unfold mutex_free. wp_steps. eapply (wp_mono _ _ (fun _ _ => True)); [destruct (pw_mutex w); by wp_steps|].
    intros m e' _. wp_steps. eexists (<[j := _]> ws1). split; [done|]. rewrite length_insert. split; [done|].
    intros i d [(_ & <- & _)|[_ Hd]]%list_lookup_insert_Some; [by right|by eapply Hws1].
  - intros ph' e (ws' & -> & _). by exists ws'.
Qed.

(** The loops that initialise them. *)
Lemma open_clients_ok ph p cs n h :
  length cs = n -> (forall j c, cs !! j = Some c -> pc_priv_ptr c = None) ->
  wp (for_until n 0 open_client (with_slots ph p cs ∅)) h (fun res _ => exists cs',
    res = (0, n, with_slots ph p cs' ∅) /\ length cs' = n /\ forall j c, cs' !! j = Some c -> fresh_slot c).
Proof using Hal Hpt.
  intros Hn Hcs. eapply wp_mono.
  - apply (for_until_ok (fun i ph' => exists cs', ph' = with_slots ph p cs' ∅ /\ length cs' = n /\
             forall j c, cs' !! j = Some c -> if (j <? i)%nat then fresh_slot c else pc_priv_ptr c = None)).
    { exists cs. split_and!; [done|done|]. intros j c Hc. by eapply Hcs. }
    intros i ph1 h1 Hi (cs1 & -> & Hl1 & Hcs1). unfold open_client.
    destruct (lookup_lt_is_Some_2 cs1 i ltac:(lia)) as [c Hc]. apply (on_client_wp _ _ _ _ _ _ c); [done|].
    pose proof (Hcs1 i c Hc) as Hci. rewrite Nat.ltb_irrefl in Hci.
    eapply wp_mono; [by apply slot_init_ok|]. intros [r s] e (Hr & Hf & Hh). simpl in *. subst r. rewrite Hh.
    split; [done|]. exists (<[i := pc s]> cs1). split; [done|]. rewrite length_insert. split; [done|].
    intros j d [(<- & <- & _)|[Hne Hd]]%list_lookup_insert_Some; [by rewrite (proj2 (Nat.ltb_lt _ _)) by lia|].
    specialize (Hcs1 j d Hd). destruct (Nat.ltb_spec j i), (Nat.ltb_spec j (S i)); [done|lia|lia|done].
  - intros res e (ph' & -> & cs' & -> & Hl & Hf). exists cs'. split_and!; [done|done|].
    intros j c Hc. specialize (Hf j c Hc). rewrite (proj2 (Nat.ltb_lt _ _)) in Hf; [done|].
    simpl. rewrite <- Hl. by eapply lookup_lt_Some.
Qed.

(** Workers of which the first [i] are initialised and linked, the last one first. *)
Definition workers_up_to (i n : nat) (ws : list proxy_worker) (hd : option nat) : Prop :=
  length ws = n /\ chain ws hd (rev (seq 0 i)) /\
  forall j w, ws !! j = Some w -> pw_conn w = None /\
    if (j <? i)%nat then worker_up (pw_worker w) else wpriv (pw_worker w) = None.

Lemma open_worker_ok ph p i n ws hd h :
  workers_up_to i n ws hd -> (i < n)%nat ->
  wp (open_worker i (set_ph ph (set_px_idle_workers (set_px_workers p (Some ws)) hd))) h (fun res _ =>
    res.1 = 0 /\ exists ws' hd', workers_up_to (S i) n ws' hd' /\
      res.2 = set_ph ph (set_px_idle_workers (set_px_workers p (Some ws')) hd')).
Proof using Hal Hpt.
  intros (Hl & Hch & Hws) Hi. destruct (lookup_lt_is_Some_2 ws i ltac:(lia)) as [w Hw].
  pose proof (Hws i w Hw) as [Hwc Hwi]. rewrite Nat.ltb_irrefl in Hwi.
  unfold open_worker, proxy_worker_init, on_pw, with_px. cbn [set_ph ph_priv px_workers set_px_workers set_px_idle_workers].
  rewrite Hw. wp_steps. eapply wp_mono; [apply mutex_init_ok|]. intros ? ? ->. succeeds.
  eapply wp_mono; [by apply worker_init_ok|]. intros [r w1] e1 [Hr Hu]. simpl in Hr, Hu. subst r. succeeds.
  change (0 <? 0) with false. cbv iota. wp_steps.
  cbn [set_ph ph_priv px_workers set_px_workers set_px_idle_workers].
  rewrite list_lookup_insert_eq by lia. wp_steps.
  cbn [set_ph ph_priv px_workers set_px_workers px_idle_workers set_px_idle_workers]. wp_steps. split; [done|].
  rewrite list_insert_insert_eq. set (w' := set_pw_next _ hd). exists (<[i := w']> ws), (Some i). split; [|done]. split; [by rewrite length_insert|]. split.
  - rewrite seq_S, rev_app_distr. simpl. split; [done|]. exists w'. rewrite list_lookup_insert_eq by lia. split; [done|].
    apply chain_frame; [|done]. rewrite list_elem_of_In, <- in_rev, in_seq. lia.
  - intros j d [(<- & <- & _)|[Hne Hd]]%list_lookup_insert_Some.
    + rewrite (proj2 (Nat.ltb_lt _ _)) by lia. done.
    + destruct (Hws j d Hd) as [? Hj]. split; [done|].
      destruct (Nat.ltb_spec j i), (Nat.ltb_spec j (S i)); [done|lia|lia|done].
Qed.

Lemma open_workers_ok ph p n ws h :
  workers_up_to 0 n ws None ->
  wp (for_until n 0 open_worker (set_ph ph (set_px_idle_workers (set_px_workers p (Some ws)) None))) h (fun res _ =>
    exists ws' hd, res = (0, n, set_ph ph (set_px_idle_workers (set_px_workers p (Some ws')) hd)) /\
      workers_up_to n n ws' hd).
Proof using Hal Hpt.
  intros Hws. eapply wp_mono.
  - apply (for_until_ok (fun i ph' => exists ws' hd, workers_up_to i n ws' hd /\
             ph' = set_ph ph (set_px_idle_workers (set_px_workers p (Some ws')) hd))); [by exists ws, None|].
    intros i ph1 h1 Hi (ws1 & hd1 & H1 & ->). apply open_worker_ok; [done|lia].
  - intros res e (ph' & -> & ws' & hd & H1 & ->). by exists ws', hd.
Qed.

(** A proxy that has all its slots and workers, and no clients. *)
Record built (ph : proxy_handle) (p : proxy_priv) (cs : list proxy_conn_handle) (ws : list proxy_worker) : Prop := {
  bu_priv : ph_priv ph = Some p;
  bu_conns : ph_conns ph = ∅;
  bu_num : px_num p = Z.of_nat (length cs);
  bu_len : length ws = length cs;
  bu_clients : px_clients p = Some cs;
  bu_workers : px_workers p = Some ws;
  bu_fresh : forall j c, cs !! j = Some c -> fresh_slot c;
  bu_up : forall j w, ws !! j = Some w -> worker_up (pw_worker w);
  bu_log : log_safe (px_log p);
  bu_listen : is_Some (priv (px_listen p));
  bu_reg : exists r, reg_up (px_reg p) r;
  bu_pats : forall re, px_allowed p = Some re \/ px_denied p = Some re -> is_Some re;
}.

Lemma tear_workers ph p cs ws h :
  built ph p cs ws -> wp (for_all (num ph) 0 proxy_worker_free ph) h (fun ph' _ => exists ws',
    ph' = set_ph ph (set_px_workers p (Some ws'))).
Proof using.
  intros [Hp Hh Hn Hl Hc Hw Hf Hu _ _ _ _]. assert (E : ph = set_ph ph (set_px_workers p (Some ws))).
  { destruct ph as [cf pr hh], p; simpl in *. unfold set_ph. simpl. by subst. }
  unfold num. rewrite Hp, Hn, Nat2Z.id, E at 1. apply free_workers_ok; [by rewrite Hl|]. intros j w Hj. left. by eapply Hu.
Qed.

Lemma tear_clients ph p cs h :
  ph_priv ph = Some p -> ph_conns ph = ∅ -> px_clients p = Some cs -> px_num p = Z.of_nat (length cs) ->
  (forall j c, cs !! j = Some c -> fresh_slot c) ->
  wp (for_all (num ph) 0 client_free ph) h (fun ph' _ => exists cs', ph' = set_ph ph (set_px_clients p (Some cs'))).
Proof using.
  intros Hp Hh Hc Hn Hf. assert (E : ph = with_slots ph p cs ∅).
  { destruct ph as [cf pr hh], p; simpl in *. unfold with_slots. simpl. by subst. }
  unfold num. rewrite Hp, Hn, Nat2Z.id. rewrite E at 1. eapply wp_mono.
  - apply free_clients_ok; [done|]. intros j c Hj. left. by eapply Hf.
  - intros ph' e (cs' & ->). exists cs'. unfold with_slots, set_ph. by rewrite Hh.
Qed.

(** The cleanup when everything is initialised but the proxy cannot listen. *)
Lemma open_exit_later_ok env r ph p cs ws h :
  built ph p cs ws -> wp (open_exit_later env r ph) h (fun res _ => res.1 = r /\ exists p', ready res.2 p').
Proof using.
  intros Hb. pose proof Hb as [Hp Hh Hn Hl Hc Hw Hf Hu Hlg Hli Hr Hpa].
  unfold open_exit_later, open_exit_late, with_px. rewrite Hp. wp_steps.
  eapply wp_mono; [apply (tear_workers _ (set_px_idle_workers p None) cs ws); by split|]. intros ph1 e1 (ws' & ->).
  cbn [set_ph ph_priv]. wp_steps.
  eapply wp_mono; [by apply (tear_clients _ (clear_idle_clients (set_px_workers (set_px_idle_workers p None) (Some ws'))) cs)|].
  intros ph2 e2 (cs' & ->). eapply wp_mono; [by eapply open_exit_ok; split|done].
Qed.

Lemma opened_ok ph p cs ws hd n :
  (0 < n)%nat -> ph_priv ph = Some p -> ph_conns ph = ∅ -> px_num p = Z.of_nat n -> px_lists p = pool_open n ->
  px_clients p = Some cs -> length cs = n -> (forall j c, cs !! j = Some c -> fresh_slot c) ->
  px_workers p = Some ws -> px_idle_workers p = hd -> workers_up_to n n ws hd ->
  (exists r, reg_up (px_reg p) r) -> admits ph p -> is_Some (priv (px_listen p)) -> log_safe (px_log p) ->
  consistent (fun _ => Waiting) ph p cs ws (seq 0 n) (fun _ => []) (rev (seq 0 n)) /\ forall i, worker_conn ws i = None.
Proof using.
  intros Hn0 Hp Hh Hn Hpl Hc Hlc Hfs Hw Hhd (Hlw & Hch & Hws) Hr Had Hli Hlg.
  assert (Hcl : forall i, client_of cs i = None).
  { intros i. unfold client_of. destruct (cs !! i) as [c|] eqn:E; [|done]. destruct (Hfs i c E) as (q & Hq & Hcn & _).
    simpl. rewrite Hq. done. }
  assert (Hwc : forall i, worker_conn ws i = None).
  { intros i. unfold worker_conn. destruct (ws !! i) as [w|] eqn:E; [|done]. apply (Hws i w E). }
  split; [|done]. split; [|done|done|done|].
  - split; try done.
    + split; congruence.
    + rewrite Hpl. by apply rep_open.
    + by intros b i ?%not_elem_of_nil.
    + intros i c Hi. destruct (Hfs i c Hi) as (q & Hq & Hcn & Ha). exists q. split; [done|]. by rewrite Hh.
    + intros i. rewrite Hcl, elem_of_seq, Hlc. intuition lia.
    + by rewrite Hhd.
    + apply NoDup_ListNoDup, NoDup_rev, seq_NoDup.
    + intros i w Hi. destruct (Hws i w Hi) as [_ Hu]. apply lookup_lt_Some in Hi. by rewrite (proj2 (Nat.ltb_lt _ _)) in Hu by lia.
    + intros i k Hk. by rewrite Hwc in Hk.
  - split; [intros i j k Hi; by rewrite Hwc in Hi| |done|by intros i k s [?|?]|intros s k Hs; by rewrite Hcl in Hs].
    intros k. rewrite Hh, dom_empty_L. split; [by intros ?%elem_of_empty|]. intros [i Hi]. by rewrite Hwc in Hi.
Qed.

(** The slots before they are initialised, and the workers. *)
Lemma zero_slots n addrs j c :
  zip_with (fun c a => mkPc (pc_id c) (pc_priv_ptr c) a (control_port c) (data_port c))
    (map client_zero (seq 0 n)) addrs !! j = Some c -> pc_priv_ptr c = None.
Proof using.
  rewrite lookup_zip_with. intros (c0 & H0 & (a & Ha & [= <-])%bind_Some)%bind_Some.
  apply list_lookup_fmap_Some in H0 as (x & -> & _). done.
Qed.

Lemma zero_workers n : workers_up_to 0 n (map (worker_zero n) (seq 0 n)) None.
Proof using.
  split; [by rewrite length_map, length_seq|]. split; [done|]. intros j w Hw.
  apply list_lookup_fmap_Some in Hw as (x & -> & _). done.
Qed.

Lemma open_rest_ok env ph p n h :
  half_open ph p -> admits ph p -> (0 < n)%nat -> length (source_addrs (ph_conf ph)) = n -> px_num p = Z.of_nat n ->
  px_clients p = Some (map client_zero (seq 0 n)) -> px_workers p = Some (map (worker_zero n) (seq 0 n)) ->
  wp (open_rest env ph) h (fun res _ =>
    (res.1 < 0 /\ exists p', ready res.2 p') \/
    (res.1 = 0 /\ exists p' cs ws, ph_conf res.2 = ph_conf ph /\
       consistent (fun _ => Waiting) res.2 p' cs ws (seq 0 n) (fun _ => []) (rev (seq 0 n)) /\
       (forall i, worker_conn ws i = None) /\ length cs = n)).
Proof using Hos Hal Hpt.
  intros [Hp Hh Hi Hl Hli Hr Hpa] Had Hn0 Hsa Hn Hc Hw.
  assert (Hnum : num ph = n) by (unfold num; rewrite Hp, Hn; lia).
  unfold open_rest, with_px. rewrite Hp, Hnum, Hc, Hsa, Nat.ltb_irrefl.
  set (cs0 := zip_with _ _ _). set (p1 := set_px_lists p (pool_open n)).
  assert (E1 : set_ph ph (set_px_lists (set_px_clients p (Some cs0)) (pool_open n)) = with_slots ph p1 cs0 ∅).
  { unfold set_ph, with_slots, p1. simpl. by rewrite Hh. }
  rewrite E1. wp_steps. eapply wp_mono; [apply open_clients_ok|].
  { unfold cs0. rewrite length_zip_with, length_map, length_seq, Hsa. lia. }
  { intros j c. apply zero_slots. }
  intros res e (cs & -> & Hlc & Hfs). succeeds. set (p2 := set_px_clients p1 (Some cs)).
  assert (E2 : with_slots ph p1 cs ∅ = set_ph ph (set_px_idle_workers (set_px_workers p2 (px_workers p)) None)).
  { unfold with_slots, set_ph, p2, p1. destruct p; simpl in *. by rewrite Hh, Hi. }
  rewrite E2, Hw. wp_steps. eapply wp_mono; [apply open_workers_ok, zero_workers|].
  intros res e' (ws & hd & -> & Hws). succeeds. cbn [set_ph ph_priv]. wp_steps.
  eapply wp_mono; [by apply listen_alive|]. intros [r c] e2 [Hcl Hrr]. simpl in Hcl, Hrr.
  set (p3 := set_px_listen _ c). set (ph3 := set_ph _ p3).
  assert (Hb : built ph3 p3 cs ws).
  { destruct Hws as (Hlw & _ & Hws). split; try done; [by rewrite Hlc|congruence|].
    intros j w Hj. destruct (Hws j w Hj) as [_ Hu]. apply lookup_lt_Some in Hj.
    by rewrite (proj2 (Nat.ltb_lt _ _)) in Hu by lia. }
  destruct Hrr as [->|Hneg]; [succeeds; right|rewrite (proj2 (Z.ltb_lt _ _) Hneg)].
  - split; [done|]. exists p3, cs, ws. split; [done|]. apply and_assoc. split; [by apply (opened_ok _ _ _ _ hd)|done].
  - eapply wp_mono; [by eapply open_exit_later_ok|]. intros res e3 [-> Hrd]. by left.
Qed.

Lemma open_patterns_ok ph p h :
  half_open ph p ->
  wp (open_patterns ph) h (fun res _ => exists p',
    half_open res.2 p' /\ ph_conf res.2 = ph_conf ph /\ px_num p' = px_num p /\ px_clients p' = px_clients p /\
    px_workers p' = px_workers p /\ (res.1 < 0 \/ res.1 = 0 /\ compiled (px_denied p') /\ compiled (px_allowed p'))).
Proof using Hal.
  intros [Hp Hh Hi Hl Hli Hr Hpa]. unfold open_patterns, with_px. rewrite Hp. wp_steps.
  eapply wp_mono; [apply open_pattern_ok; intros x Hx; apply Hpa; by left|]. intros [r a] e [Hra Ha]. simpl in Hra, Ha.
  destruct (Z.ltb_spec r 0); wp_steps.
  { exists (set_px_allowed p a). split_and!; try done; [|by left]. split; try done.
    intros re [Hre|Hre]; [by apply Ha|apply Hpa; by right]. }
  eapply wp_mono; [apply open_pattern_ok; intros x Hx; apply Hpa; by right|]. intros [r2 d] e2 [Hrd Hd]. simpl in Hrd, Hd.
  wp_steps. exists (set_px_denied (set_px_allowed p a) d). split_and!; try done; [|].
  - split; try done. intros re [Hre|Hre]; [by apply Ha|by apply Hd].
  - destruct Hrd as [?|[-> Hcd]]; [by left|right]. destruct Hra as [?|[_ Hca]]; [lia|done].
Qed.

Lemma open_ok env ph p h :
  ready ph p -> addresses_counted (ph_conf ph) -> is_Some (password (ph_conf ph)) ->
  wp (proxy_open env ph) h (fun res _ =>
    (res.1 < 0 /\ exists p', ready res.2 p') \/
    (res.1 = 0 /\ exists p' cs ws, ph_conf res.2 = ph_conf ph /\
       let n := length (source_addrs (ph_conf ph)) in
       consistent (fun _ => Waiting) res.2 p' cs ws (seq 0 n) (fun _ => []) (rev (seq 0 n)) /\
       (forall i, worker_conn ws i = None) /\ length cs = n)).
Proof using Hos Hal Hpt.
  intros [Hp Hh Hn Hi Hl Hli Hr Hpa] Hadr Hpw. unfold proxy_open, with_px. rewrite Hp.
  assert (En : Z.to_nat (1 + bind_addr_ext_add_len (ph_conf ph)) = length (source_addrs (ph_conf ph))).
  { rewrite Hadr. unfold source_addrs. simpl. rewrite length_fmap. lia. }
  rewrite En. set (n := length _). wp_steps. rewrite (alloc_eqb (Hal := Hal)). wp_steps. rewrite (alloc_eqb (Hal := Hal)).
  assert (Hlog : exists r log acts, log_open env (px_log p) = Some (r, log, acts) /\ log_safe log).
  { unfold log_open. destruct (log_medium (px_log p)); try (eexists _, _, _; done). by apply select_safe. }
  destruct Hlog as (r & log & acts & Hlo & Hl'). cbn [px_log set_px_num set_px_port set_px_clients set_px_workers].
  rewrite Hlo. set (p1 := set_px_log _ log). wp_steps. destruct (Z.ltb_spec r 0) as [Hr0|_].
  { eapply wp_mono; [by apply (open_exit_ok env r (set_ph ph p1) p1); split|]. intros res e [-> Hrd]. by left. }
  wp_steps. eapply wp_mono; [by apply (open_patterns_ok (set_ph ph p1) p1); split|].
  intros [r2 ph2] e2 (p2 & Hho & Hcf & Hn2 & Hc2 & Hw2 & Hr2). simpl in *. destruct Hr2 as [Hneg|(-> & Hd & Ha)].
  - rewrite (proj2 (Z.ltb_lt _ _) Hneg). eapply wp_mono; [by apply (open_exit_ok env r2 ph2 p2)|].
    intros res e [-> Hrd]. by left.
  - succeeds. eapply wp_mono; [apply (open_rest_ok env ph2 p2 n); try done|].
    + split_and!; [done|done|by rewrite Hcf].
    + unfold n, source_addrs. simpl. lia.
    + by rewrite Hcf.
    + intros res e Hres. by rewrite Hcf in Hres.
Qed.

(** *** Initialising *)

Lemma registration_init_ok rs h :
  rs_priv rs = None -> wp (registration_service_init rs) h (fun res _ => res.1 = 0 /\ exists r, reg_up res.2 r).
Proof using Hal Hpt.
  intros Hrs. unfold registration_service_init. rewrite Hrs. wp_steps. rewrite (alloc_eqb (Hal := Hal)). wp_steps.
  eapply wp_mono; [apply mutex_init_ok|]. intros ? ? ->. succeeds.
  eapply wp_mono; [by apply worker_init_ok|]. intros [r w] e' [Hr Hw]. simpl in Hr, Hw. subst r. succeeds.
  split; [done|]. eexists. split; [done|]. done.
Qed.

Lemma init_step_ok env m k (P : proxy_handle -> Prop) h Q :
  wp m h (fun res _ => res.1 = 0 /\ P res.2) ->
  (forall ph h, P ph -> wp (k ph) h (fun res _ => Q res)) -> wp (init_step env m k) h (fun res _ => Q res).
Proof using.
  intros Hm Hk. unfold init_step. wp_steps. eapply wp_mono; [exact Hm|]. intros [r ph] e [Hr HP]. simpl in Hr, HP. subst r.
  succeeds. by eapply wp_mono; [apply Hk|].
Qed.

Lemma mutex_step_ok ph p b set h :
  (forall b, ready (set_ph ph (set b)) (set b)) -> ready ph p ->
  wp (on_mutex b set ph) h (fun res _ => res.1 = 0 /\ ph_conf res.2 = ph_conf ph /\ exists p', ready res.2 p').
Proof using Hal Hpt.
  intros Hset Hr. unfold on_mutex. wp_steps. eapply wp_mono; [apply mutex_init_ok|]. intros ? ? ->. wp_steps.
  split; [done|]. split; [done|]. exists (set true). apply Hset.
Qed.

(** Before the listening connection and the registration service are there. *)
Record begun (ph : proxy_handle) (p : proxy_priv) : Prop := {
  be_priv : ph_priv ph = Some p;
  be_conns : ph_conns ph = ∅;
  be_num : px_num p = 0;
  be_iw : px_idle_workers p = None;
  be_log : log_safe (px_log p);
  be_pats : px_allowed p = None /\ px_denied p = None;
  be_reg : rs_priv (px_reg p) = None;
}.

Lemma init_ok env c h :
  wp (proxy_init env (mkPh c None ∅)) h (fun res _ =>
    res.1 = 0 /\ ph_conf res.2 = snd (conf_init c) /\ exists p, ready res.2 p).
Proof using Hal Hpt.
  unfold proxy_init. cbn [ph_priv]. wp_steps. rewrite (alloc_eqb (Hal := Hal)).
  cbn [px_zero px_log log_priv_ptr]. set (c' := snd (conf_init c)).
  apply (init_step_ok env _ _ (eq (set_ph (mkPh c None ∅) px_zero))); [by wp_steps|]. intros ? h0 <-.
  apply (init_step_ok env _ _ (fun ph => ph_conf ph = c /\ exists p, begun ph p /\ priv (px_listen p) = None)).
  { wp_steps. rewrite (alloc_eqb (Hal := Hal)). cbn [negb log_init log_priv_ptr px_log px_zero]. wp_steps.
    split; [done|]. split; [done|]. eexists. split; [split; done || by eexists|done]. }
  intros ph1 h1 (Hc1 & p1 & Hb1 & Hl1).
  apply (init_step_ok env _ _ (fun ph => ph_conf ph = c' /\ exists p, begun ph p /\ priv (px_listen p) = None)).
  { rewrite Hc1. unfold conf_init. wp_steps. split; [done|]. split; [done|]. exists p1. split; [|done]. destruct Hb1. by split. }
  intros ph2 h2 (Hc2 & p2 & [Hp2 Hh2 Hn2 Hi2 Hlg2 Hpa2 Hrg2] & Hl2).
  apply (init_step_ok env _ _ (fun ph => ph_conf ph = c' /\ exists p, begun ph p /\ is_Some (priv (px_listen p)))).
  { unfold with_px. rewrite Hp2. wp_steps. eapply wp_mono; [by apply conn_init_ok|]. intros [r cn] e [Hr Hc]. wp_steps.
    split; [done|]. split; [done|]. eexists. split; [by split|exact Hc]. }
  intros ph3 h3 (Hc3 & p3 & [Hp3 Hh3 Hn3 Hi3 Hlg3 [Hpa3 Hpd3] Hrg3] & Hl3).
  apply (init_step_ok env _ _ (fun ph => ph_conf ph = c' /\ exists p, ready ph p)).
  { unfold with_px. rewrite Hp3. wp_steps. eapply wp_mono; [by apply registration_init_ok|]. intros [r rs] e [Hr Hrs]. wp_steps.
    split; [done|]. split; [done|]. eexists. split; try done. intros re [Hre|Hre]; simpl in Hre; congruence. }
  do 3 (intros ? ? (Hcf & ? & Hrd); apply (init_step_ok env _ _ (fun ph => ph_conf ph = c' /\ exists p, ready ph p));
    [unfold with_px; rewrite (rd_priv _ _ Hrd); destruct (px_mutexes _) as [[? ?] ?]; rewrite <- Hcf;
     eapply mutex_step_ok; [intros; destruct Hrd; by split|exact Hrd]|clear Hcf Hrd]).
  intros ? ? Hrd. wp_steps. by split.
Qed.

(** *** Reading the configuration *)

Lemma load_ok ph p file h :
  ready ph p -> addresses_counted (ph_conf ph) ->
  wp (proxy_load_conf ph file) h (fun res _ => ready res.2 p /\ addresses_counted (ph_conf res.2) /\
    (0 <= res.1 -> exists r, 0 <= r /\ yields (conf_parse_file file (ph_conf ph)) (r, ph_conf res.2))).
Proof using Hal.
  intros Hr Hc. destruct (conf_parse_file_yields file (ph_conf ph)) as [[r c] Hy].
  unfold proxy_load_conf, with_px. rewrite (rd_priv _ _ Hr). wp_steps.
  destruct (conf_parse_file_counted file (ph_conf ph) h Hc) as (res & e & E & Hcf).
  exists res, e. split; [exact E|]. pose proof (Hy h) as Hyh. rewrite E in Hyh. simpl in Hyh. injection Hyh as ->. simpl in Hcf.
  assert (Hrd : ready (mkPh c (Some p) (ph_conns ph)) p) by (by destruct Hr).
  destruct (Z.ltb_spec r 0); wp_steps; (split; [done|]; split; [done|]); cbn [fst snd ph_conf]; [lia|by exists r].
Qed.

(** The slots of a proxy without clients. *)
Lemma ok_fresh {F : Fit} ph p cs ws idle bk iw j c :
  proxy_ok ph p cs ws idle bk iw -> client_of cs j = None -> cs !! j = Some c -> fresh_slot c.
Proof using.
  intros Hok Hn Hc. destruct (ok_slots _ _ _ _ _ _ _ Hok j c Hc) as (q & Hq & Ha).
  rewrite (client_of_eq _ _ _ _ Hc Hq) in Hn. exists q. split; [done|]. split; [done|]. by eapply fresh_alive.
Qed.

Lemma owners_none f wc cl H : owners f wc cl H -> (forall i, wc i = None) -> H = ∅ /\ forall s, cl s = None.
Proof using.
  intros [_ Ho Ha _ Hh] Hn. split.
  - apply set_eq. intros k. rewrite Ho. split; [intros [i Hi]; by rewrite Hn in Hi|by intros ?%elem_of_empty].
  - intros s. destruct (cl s) as [k|] eqn:E; [|done]. destruct (Hh s k E) as [i Hi%holds_about%Ha]. by rewrite Hn in Hi.
Qed.

Lemma ok_reg_set {F : Fit} ph p cs ws idle bk iw rs r :
  proxy_ok ph p cs ws idle bk iw -> reg_up rs r ->
  proxy_ok (set_ph ph (set_px_reg p rs)) (set_px_reg p rs) cs ws idle bk iw.
Proof using. intros [] Hr. split; try done. by exists r. Qed.

(** *** Starting *)

(** An open proxy with [n] slots and no clients. *)
Definition idle_proxy (cf : proxy_conf) (n : nat) (ph : proxy_handle) : Prop :=
  ph_conf ph = cf /\
  exists p cs ws idle bk iw, consistent (fun _ => Waiting) ph p cs ws idle bk iw /\
    (forall i, worker_conn ws i = None) /\ length cs = n.

(** Replacing a worker, or a slot, by one in the same place. *)
Lemma idle_worker cf n ph p ws i w w' :
  idle_proxy cf n ph -> ph_priv ph = Some p -> px_workers p = Some ws -> ws !! i = Some w -> pw_next w' = pw_next w ->
  pw_conn w' = pw_conn w -> worker_up (pw_worker w') -> idle_proxy cf n (set_ph ph (set_px_workers p (Some (<[i := w']> ws)))).
Proof using.
  intros (Hcf & p0 & cs & ws0 & idle & bk & iw & [Hok Had Hli Hlg Ho] & Hwn & Hl) Hp Hws Hw Hnx Hcn Hu.
  assert (p0 = p) as -> by (pose proof (ok_priv _ _ _ _ _ _ _ Hok); congruence).
  assert (ws0 = ws) as -> by (pose proof (ok_workers _ _ _ _ _ _ _ Hok); congruence).
  pose proof (ok_same _ _ _ _ _ _ _ i w w' Hok Hw Hnx Hcn Hu) as Hok'.
  assert (Hwc : forall j, worker_conn (<[i := w']> ws) j = worker_conn ws j) by (intros j; by apply (worker_conn_same _ _ w)).
  split; [done|]. eexists _, cs, (<[i := w']> ws), idle, bk, iw. split; [|split; [intros j; by rewrite Hwc|done]].
  split; [exact Hok'|exact Had|done|done|by eapply owners_ext].
Qed.

Lemma idle_on_pw {A} cf n i (f : proxy_worker -> IO (A * proxy_worker)) ph h :
  (forall w h, worker_up (pw_worker w) -> wp (f w) h (fun res _ => worker_up (pw_worker res.2) /\
     pw_next res.2 = pw_next w /\ pw_conn res.2 = pw_conn w)) ->
  idle_proxy cf n ph -> (i < n)%nat -> wp (on_pw i f ph) h (fun res _ => idle_proxy cf n res.2).
Proof using.
  intros Hf Hi Hlt. pose proof Hi as (Hcf & p & cs & ws & idle & bk & iw & [Hok _ _ _ _] & _ & Hl).
  pose proof Hok as [Hp Hc Hw [Hn Hlw] _ _ _ _ _ _ Hup _ _ _].
  destruct (lookup_lt_is_Some_2 ws i ltac:(lia)) as [w Hwi]. unfold on_pw, with_px. rewrite Hp, Hw, Hwi. wp_steps.
  eapply wp_mono; [by eapply Hf, Hup|]. intros [a w'] e (Hu & Hnx & Hcn). wp_steps. by eapply idle_worker.
Qed.

Lemma idle_on_client {A} cf n i (f : pst -> IO (A * pst)) ph h :
  (forall s h, fresh_slot (pc s) -> wp (f s) h (fun res _ => fresh_slot (pc res.2) /\ hp res.2 = hp s)) ->
  idle_proxy cf n ph -> (i < n)%nat -> wp (on_client i f ph) h (fun res _ => idle_proxy cf n res.2).
Proof using.
  intros Hf Hi Hlt. pose proof Hi as (Hcf & p & cs & ws & idle & bk & iw & [Hok Had Hli Hlg Ho] & Hwn & Hl).
  destruct (owners_none _ _ _ _ Ho Hwn) as [_ Hcl]. destruct (lookup_lt_is_Some_2 cs i ltac:(lia)) as [c Hci].
  assert (Hfr : fresh_slot c) by (by eapply ok_fresh).
  rewrite (ok_with_slots _ _ _ _ _ _ _ Hok). apply (on_client_wp _ _ _ _ _ _ c); [done|].
  eapply wp_mono; [by apply Hf|]. intros [a s] e [(q & Hq & Hqn & Ha) Hh]. simpl in *. rewrite Hh.
  assert (Hcl' : forall j, client_of (<[i := pc s]> cs) j = client_of cs j).
  { intros j. rewrite (client_of_insert _ _ _ q) by (done || lia). rewrite Hqn, Hcl.
    destruct (decide (i = j)) as [<-|Hne]; [by rewrite fn_lookup_insert|by rewrite fn_lookup_insert_ne, Hcl]. }
  split; [done|]. exists (set_px_clients p (Some (<[i := pc s]> cs))), (<[i := pc s]> cs), ws, idle, bk, iw.
  split; [|split; [done|by rewrite length_insert]]. split; [|exact Had|done|done|by eapply owners_ext].
  destruct Hok as [Hp Hc Hw Hn Hrep Hbk Hsl Hid Hch Hnd Hup Hlv Hfe Hreg].
  split; try done; rewrite ?length_insert; [done|done| |intros j; by rewrite Hcl'].
  eapply slots_ok_insert; [done|done|]. destruct Ha as [Ha1 Ha2 _]. split; [done|done|congruence].
Qed.

(** Loops whose steps keep a proxy idle, whether they fail or not. *)
Lemma for_until_idle cf n f m : forall i ph h,
  (forall j ph h, (j < n)%nat -> idle_proxy cf n ph -> wp (f j ph) h (fun res _ => idle_proxy cf n res.2)) ->
  idle_proxy cf n ph -> (i + m <= n)%nat ->
  wp (for_until m i f ph) h (fun res _ => idle_proxy cf n res.2 /\ (i <= res.1.2 <= i + m)%nat).
Proof using.
  induction m as [|m IH]; intros i ph h Hf Hi Hn; cbn [for_until]; wp_steps; [split; [done|simpl; lia]|].
  eapply wp_mono; [apply Hf; [lia|done]|]. intros [r ph'] e Hi'. case_match; wp_steps; [split; [done|simpl; lia]|].
  eapply wp_mono; [apply IH; [done|done|lia]|]. intros res e' [? ?]. split; [done|lia].
Qed.

Lemma for_down_idle cf n f : forall i ph h,
  (forall j ph h, (j < n)%nat -> idle_proxy cf n ph -> wp (f j ph) h (fun ph' _ => idle_proxy cf n ph')) ->
  idle_proxy cf n ph -> (i <= n)%nat -> wp (for_down i f ph) h (fun ph' _ => idle_proxy cf n ph').
Proof using.
  induction i as [|i IH]; intros ph h Hf Hi Hn; cbn [for_down]; wp_steps; [done|].
  eapply wp_mono; [apply Hf; [lia|done]|]. intros ph' e Hi'. eapply wp_mono; [apply IH; [done|done|lia]|done].
Qed.

Lemma client_stop_idle cf n i ph h : (i < n)%nat -> idle_proxy cf n ph -> wp (client_stop i ph) h (fun ph' _ => idle_proxy cf n ph').
Proof using.
  intros Hi Hp. unfold client_stop. wp_steps. eapply wp_mono; [apply (idle_on_client cf n); [apply slot_stop_ok|done|done]|].
  intros [r ph'] e Hp'. by wp_steps.
Qed.

Lemma pw_join_idle cf n i ph h : (i < n)%nat -> idle_proxy cf n ph -> wp (pw_join i ph) h (fun ph' _ => idle_proxy cf n ph').
Proof using.
  intros Hi Hp. unfold pw_join. wp_steps. eapply wp_mono; [apply (idle_on_pw cf n); [|done|done]|].
  - intros w h' Hw. wp_steps. eapply wp_mono; [by apply worker_join_up|]. intros [r wk] e Hwk. by wp_steps.
  - intros [[] ph'] e Hp'. by wp_steps.
Qed.

(** The text of the registration fits its buffer. *)
Definition suffix_fits (ctx : Md5.MD5_CTX) (mem : nat -> Z) (c : proxy_conf) : Prop :=
  forall name, reg_name c = Some name -> is_Some (build_suffix ctx mem name (default [] (public_addr c)) (port c)).

Lemma registration_start_up ctx mem rs r c pw h :
  reg_up rs r -> password c = Some pw -> suffix_fits ctx mem c ->
  wp (registration_service_start ctx mem rs c) h (fun res _ => exists r', reg_up res.2 r').
Proof using Hos Hal.
  intros Hup Hpw Hfit. pose proof Hup as (Hr & Hw & Hs). unfold registration_service_start.
  destruct (reg_name c) as [name|] eqn:Hn; [|wp_steps; by exists r]. destruct (Hfit name Hn) as [sfx Hsfx].
  unfold with_rs. rewrite Hr, Hpw. wp_steps. destruct (reg_suffix r) eqn:E; [..|done]; wp_steps;
    rewrite (alloc_eqb (Hal := Hal)), Hsfx; wp_steps; (eapply wp_mono; [by apply worker_start_up|]);
    intros [r1 w1] e1 [Hw1 _]; cbn [snd] in Hw1; (case_match; wp_steps; [by eexists|]);
    (eapply wp_mono; [by apply worker_wake_up|]); intros [r2 w2] e2 [Hw2 _]; cbn [snd] in Hw2;
    (case_match; wp_steps; [by eexists|]); case_decide; by eexists.
Qed.

(** The ends of a start that fails. *)
Lemma start_exit_early cf n i r ph h :
  (i <= n)%nat -> idle_proxy cf n ph ->
  wp (let* ph := for_down i client_stop ph in ret (r, ph)) h (fun (res : Z * proxy_handle) _ =>
    res.1 = r /\ idle_proxy cf n res.2).
Proof using.
  intros Hi Hp. wp_steps. eapply wp_mono; [apply (for_down_idle cf n); [|done|done]|].
  - intros. by apply client_stop_idle.
  - intros. by wp_steps.
Qed.

Lemma start_exit cf n i r ph h :
  (i <= n)%nat -> idle_proxy cf n ph ->
  wp (let* ph := for_down i pw_join ph in let* ph := for_down n client_stop ph in ret (r, ph)) h
    (fun (res : Z * proxy_handle) _ => res.1 = r /\ idle_proxy cf n res.2).
Proof using.
  intros Hi Hp. apply wp_bind. eapply wp_mono; [apply (for_down_idle cf n); [|done|done]|].
  - intros. by apply pw_join_idle.
  - intros ph' e Hp'. by eapply wp_mono; [apply (start_exit_early cf n)|].
Qed.

Lemma start_ok ctx mem cf n ph h :
  idle_proxy cf n ph -> suffix_fits ctx mem cf ->
  wp (proxy_start ctx mem ph) h (fun res _ => idle_proxy cf n res.2 /\
    (res.1 < 0 \/ res.1 = 0 /\ exists p, ph_priv res.2 = Some p /\ px_usable p = Z.of_nat n)).
Proof using Hos Hal.
  intros Hi Hfit. assert (Hnum : num ph = n /\ is_Some (ph_priv ph)).
  { destruct Hi as (_ & p & cs & ws & idle & bk & iw & [Hok _ _ _ _] & _ & Hl).
    destruct Hok as [Hp _ _ [Hn _] _ _ _ _ _ _ _ _ _ _]. unfold num. rewrite Hp, Hn, Hl. split; [lia|by eexists]. }
  destruct Hnum as [Hnum [p0 Hp0]]. unfold proxy_start, with_px at 1. rewrite Hp0, Hnum. wp_steps.
  eapply wp_mono; [apply (for_until_idle cf n); [|done|lia]|].
  { intros j ph' h' Hj Hph. apply (idle_on_client cf n); [apply slot_start_ok|done|done]. }
  intros [[r1 i1] ph1] e1 [Hi1 Hb1]. cbn [fst snd] in Hi1, Hb1.
  destruct (Z.ltb_spec r1 0).
  { eapply wp_mono; [apply (start_exit_early cf n _ r1); [lia|done]|]. intros res e [-> ?]. split; [done|by left]. }
  wp_steps.
  eapply wp_mono; [apply (for_until_idle cf n); [|done|lia]|].
  { intros j ph' h' Hj Hph. apply (idle_on_pw cf n); [|done|done]. intros w h2 Hw. wp_steps.
    eapply wp_mono; [by apply worker_start_up|]. intros [r wk] e [Hwk _]. by wp_steps. }
  intros [[r2 i2] ph2] e2 [Hi2 Hb2]. cbn [fst snd] in Hi2, Hb2.
  destruct (Z.ltb_spec r2 0).
  { eapply wp_mono; [apply (start_exit cf n _ r2); [lia|done]|]. intros res e [-> ?]. split; [done|by left]. }
  destruct Hi2 as (Hcf & p & cs & ws & idle & bk & iw & [Hok (Hd & Ha & [pw Hpw]) Hli Hlg Ho] & Hwn & Hl).
  assert (Hok0 : proxy_ok (set_ph ph2 (set_px_usable p (px_num p))) (set_px_usable p (px_num p)) cs ws idle bk iw).
  { destruct Hok. by split. }
  unfold with_px. rewrite (ok_priv _ _ _ _ _ _ _ Hok). wp_steps. eapply wp_mono; [by eapply update_wp|].
  intros ph3 e3 (rs & -> & Hok1 & _). cbn [set_ph ph_priv]. wp_steps. destruct (ok_reg _ _ _ _ _ _ _ Hok1) as [r Hr].
  eapply wp_mono; [eapply registration_start_up; [exact Hr|exact Hpw|cbn [set_ph ph_conf]; by rewrite Hcf]|].
  intros [x rs2] e4 [r' Hr']. set (p4 := set_px_reg _ rs2). set (ph4 := set_ph _ p4).
  assert (Hend : idle_proxy cf n ph4).
  { split; [done|]. exists p4, cs, ws, idle, bk, iw. split; [|done].
    split; [by eapply ok_reg_set|split_and!; [done|done|by exists pw]|done|done|done]. }
  destruct (Z.ltb_spec x 0).
  { eapply wp_mono; [apply (start_exit cf n _ x); [lia|done]|]. intros res e [-> ?]. split; [done|by left]. }
  wp_steps. split; [done|]. right. split; [done|]. exists p4. split; [done|]. simpl.
  rewrite (proj1 (ok_num _ _ _ _ _ _ _ Hok)). by rewrite Hl.
Qed.

(** *** Closing *)

(** A proxy that is closed, but for the list of the idle workers. *)
Record down (ph : proxy_handle) (p : proxy_priv) : Prop := {
  dn_priv : ph_priv ph = Some p;
  dn_conns : ph_conns ph = ∅;
  dn_num : px_num p = 0;
  dn_log : log_safe (px_log p);
  dn_listen : is_Some (priv (px_listen p));
  dn_reg : exists r, reg_up (px_reg p) r;
  dn_pats : forall re, px_allowed p = Some re \/ px_denied p = Some re -> is_Some re;
}.

Lemma down_ready ph p : ready ph p <-> down ph p /\ px_idle_workers p = None.
Proof using. split; [intros []; split; [by split|done]|intros [[] ?]; by split]. Qed.

(** The end of closing, once the workers are gone. *)
Lemma close_rest_ok env ph p cs h :
  ph_priv ph = Some p -> ph_conns ph = ∅ -> px_clients p = Some cs -> px_num p = Z.of_nat (length cs) ->
  (forall j c, cs !! j = Some c -> fresh_slot c) -> log_safe (px_log p) -> is_Some (priv (px_listen p)) ->
  (exists r, reg_up (px_reg p) r) -> (forall re, px_allowed p = Some re \/ px_denied p = Some re -> is_Some re) ->
  wp (close_rest env ph) h (fun ph' _ => ph_conf ph' = ph_conf ph /\ exists p', down ph' p' /\
    px_idle_workers p' = px_idle_workers p).
Proof using.
  intros Hp Hh Hc Hn Hf Hl [q Hq] Hr Hpa. unfold close_rest, with_px. rewrite Hp. wp_steps.
  eapply wp_mono; [eapply (tear_clients _ _ cs); [reflexivity|done|done|done|done]|]. intros ph6 e6 (cs' & ->).
  cbn [set_ph ph_priv]. wp_steps.
  eapply wp_mono; [by apply (conn_close_wp _ q)|]. intros c e7 [-> _].
  unfold log_close. destruct (select_safe env (px_log p) LOG_MEDIUM_NONE Hl) as (x & log' & acts & El & Hl').
  match goal with |- context [log_select_medium env ?l _] => change l with (px_log p) end. rewrite El. wp_steps.
  split; [done|]. eexists. split; [by split|done].
Qed.

Lemma admits_pats ph p re : admits ph p -> px_allowed p = Some re \/ px_denied p = Some re -> is_Some re.
Proof using. intros (Hd & Ha & _) [Hre|Hre]; [destruct (Ha re Hre) as [? ->]|destruct (Hd re Hre) as [? ->]]; by eexists. Qed.

Lemma close_ok env ph h :
  opened ph ->
  wp (proxy_close env ph) h (fun ph' _ => ph_conf ph' = ph_conf ph /\ exists p', ready ph' p').
Proof using Hos.
  intros (p & cs & ws & idle & bk & iw & [Hok Had Hli Hlg Ho] & Hwn).
  destruct (owners_none _ _ _ _ Ho Hwn) as [Hdom Hcl]. destruct (ok_reg _ _ _ _ _ _ _ Hok) as [r Hr].
  unfold proxy_close, with_px. rewrite (ok_priv _ _ _ _ _ _ _ Hok). wp_steps.
  eapply wp_mono; [by eapply registration_stop_wp|]. intros [r1 rs] e1 (r' & Hr' & _). simpl in Hr'. wp_steps.
  pose proof (ok_reg_set _ _ _ _ _ _ _ _ _ Hok Hr') as Hok1.
  eapply wp_mono; [by eapply shutdown_ok|]. intros ph2 e2 (p2 & -> & Hok2 & Hk & _). wp_steps.
  assert (Had2 : admits (set_ph ph p2) p2) by (by eapply keeps_admits). destruct Hk as (_ & _ & _ & Kl & Kg & _).
  eapply wp_mono; [by eapply drop_ok|]. intros ph3 e3 (h3 & -> & Hok3 & Hd3 & _). cbn [set_ph set_conns ph_priv]. wp_steps.
  assert (Hh3 : h3 = ∅) by (apply dom_empty_inv_L; rewrite Hd3; exact Hdom). subst h3.
  set (ph4 := set_ph _ (set_px_idle_workers p2 None)). pose proof Hok3 as [_ Hc3 Hw3 [Hn3 Hl3] _ _ _ _ _ _ Hu3 _ _ Hr3].
  assert (Hfs : forall j c, cs !! j = Some c -> fresh_slot c) by (intros j c; eapply ok_fresh; [done|apply Hcl]).
  assert (Hpat : forall re, px_allowed p2 = Some re \/ px_denied p2 = Some re -> is_Some re)
    by (intros re; by eapply admits_pats). simpl in Kl, Kg.
  assert (Hb : built ph4 (set_px_idle_workers p2 None) cs ws) by (split; simpl; rewrite ?Kl, ?Kg; done).
  eapply wp_mono; [exact (tear_workers _ _ cs ws _ Hb)|]. intros ph5 e5 (ws' & ->).
  eapply wp_mono; [eapply (close_rest_ok _ _ _ cs); [reflexivity|done|done|done|done| |simpl; by rewrite Kl|done|done]|].
  { simpl. by rewrite Kg. }
  intros ph6 e6 (Hcf & p' & Hd & Hi). split; [done|]. exists p'. apply down_ready. by split.
Qed.

(** A proxy that is not open can be closed as well. *)
Lemma for_none ph p f : ph_priv ph = Some p -> px_num p = 0 -> for_all (num ph) 0 f ph = ret ph.
Proof using. intros Hp Hn. unfold num. by rewrite Hp, Hn. Qed.

Lemma close_ready_ok env ph p h :
  ready ph p -> wp (proxy_close env ph) h (fun ph' _ => exists p', ready ph' p').
Proof using Hos.
  intros [Hp Hh Hn Hi Hl [q Hq] [r Hr] Hpa]. unfold proxy_close, close_rest, with_px. rewrite Hp. wp_steps.
  eapply wp_mono; [by eapply registration_stop_wp|]. intros [r1 rs] e1 (r' & Hr' & _). simpl in Hr'. wp_steps.
  unfold proxy_shutdown, proxy_update_registration, with_px. cbn [set_ph ph_priv]. wp_steps.
  cbn [px_idle_workers set_px_usable set_px_reg]. rewrite Hi. cbn [count_idle]. wp_steps.
  eapply wp_mono; [by eapply registration_update_wp|]. intros rs2 e2 (r2 & Hr2 & _). wp_steps. cbn [set_ph ph_priv]. wp_steps.
  apply (conn_shutdown_wp _ q); [done|]. intros e3 _. wp_steps. unfold proxy_drop, with_px. cbn [set_ph ph_priv].
  do 3 (erewrite for_none by first [reflexivity|exact Hn]; wp_steps; cbn [set_ph ph_priv]; wp_steps).
  eapply wp_mono; [by apply (conn_close_wp _ q)|]. intros c e7 [-> _].
  unfold log_close. destruct (select_safe env (px_log p) LOG_MEDIUM_NONE Hl) as (x & log' & acts & El & Hl').
  match goal with |- context [log_select_medium env ?l _] => change l with (px_log p) end. rewrite El. wp_steps.
  eexists. split; try done. by exists r2.
Qed.

(** *** Freeing *)

Lemma free_rest_ok env ph p h :
  down ph p -> wp (free_rest env ph) h (fun ph' _ => ph_priv ph' = None /\ ph_conns ph' = ∅).
Proof using.
  intros [Hp1 Hh1 _ Hl1 Hli1 [r (Hr & Hw & Hs)] _]. unfold free_rest, with_px. rewrite Hp1. wp_steps.
  assert (Hm : forall b h, wp (mutex_free b) h (fun _ _ => True)) by (intros [] ?; unfold mutex_free; by wp_steps).
  do 3 (eapply wp_mono; [apply Hm|]; intros ? ? _; wp_steps).
  eapply (wp_mono _ _ (fun _ _ => True)).
  { unfold registration_service_free. rewrite Hr. wp_steps.
    eapply wp_mono; [by apply (registration_stop_wp _ r)|]. intros [r2 rs] ? (r' & (Hr' & Hw' & Hs') & _). simpl in *.
    unfold with_rs. rewrite Hr'. wp_steps. eapply wp_mono; [apply worker_free_up; by left|]. intros ? ? _. wp_steps.
    eapply wp_mono; [apply Hm|]. intros ? ? _. wp_steps. by destruct (reg_suffix r'); wp_steps. }
  intros ? ? _. wp_steps. eapply wp_mono; [by apply conn_free_total|]. intros ? ? _. wp_steps.
  unfold log_free, log_close. destruct (select_safe env (px_log p) LOG_MEDIUM_NONE Hl1) as (x & log' & acts & El & Hl').
  destruct (log_priv_ptr (px_log p)); [rewrite El|]; by wp_steps.
Qed.

Lemma free_ok env ph h :
  opened ph \/ (exists p, ready ph p) ->
  wp (proxy_free env ph) h (fun ph' _ => ph_priv ph' = None /\ ph_conns ph' = ∅).
Proof using Hos.
  intros Hst. unfold proxy_free. assert (Hp : is_Some (ph_priv ph)).
  { destruct Hst as [(p & cs & ws & idle & bk & iw & [Hok _ _ _ _] & _)|[p Hrd]];
      [rewrite (ok_priv _ _ _ _ _ _ _ Hok)|rewrite (rd_priv _ _ Hrd)]; by eexists. }
  destruct Hp as [p ->]. wp_steps. eapply (wp_mono _ _ (fun ph' _ => exists p', ready ph' p')).
  { destruct Hst as [Ho|[p0 Hrd]]; [|by eapply close_ready_ok].
    eapply wp_mono; [by apply close_ok|]. by intros ph' e [_ ?]. }
  intros ph1 e1 (p1 & [Hd _]%down_ready). eapply wp_mono; [by eapply free_rest_ok|]. done.
Qed.

End Life.
