(* ===== verification/ProxyClose.v ===== *)
(** * Closing a proxy that is at work (src/src/proxy.c)

    [proxy_close] is called by the main thread while the threads of the workers
    still serve their clients.  [close_run] is [proxy_close] with steps of these
    threads, and of the forwarders, in between: before it shuts the proxy down,
    before it drops the clients, before it clears the list of idle workers, and
    before each of the workers is freed, which waits for that worker's thread.

    [run_drains] and [joins_ok] show why this comes to an end: once the clients
    have been dropped every worker waits after at most six steps of its own,
    whatever the others do. *)

From stdpp Require Import functions.
From S2P Require Import Prelude Sys Mutex Worker Conn Conf ProxyConn Auth Pool Registration Log Proxy ProxyRun ProxySystem ProxyLife.

(** ** Closing *)

Section Close.
Context {Os : OS} {Rx : Pcre}.

(** The thread of worker [i] has nothing to do, so that it ends when it is told to. *)
Definition at_rest (f : nat -> phase) (ph : proxy_handle) (i : nat) : bool :=
  match f i, conn_at ph i with Waiting, None => true | _, _ => false end.

(** The loop that frees the [n] workers from [i] on; before worker [i] come the
    steps [sched i].  The value is false when the thread of a worker does not end
    within these. *)
Fixpoint joins (ctx : Md5.MD5_CTX) (sched : nat -> list act) (n i : nat) (f : nat -> phase) (ph : proxy_handle)
  : IO (bool * proxy_handle) :=
  match n with
  | O => ret (true, ph)
  | S n =>
      let* (f, ph) := run ctx (sched i) f ph in
      if at_rest f ph i then
        let* ph := proxy_worker_free i ph in joins ctx sched n (S i) f ph
      else ret (false, ph)
  end.

Definition close_run (env : lenv) (ctx : Md5.MD5_CTX) (before shut dropped : list act) (sched : nat -> list act)
    (f : nat -> phase) (ph : proxy_handle) : IO (bool * proxy_handle) :=
  with_px ph (fun p =>
  let* (_, rs) := registration_service_stop (px_reg p) in
  let* (f, ph) := run ctx before f (set_ph ph (set_px_reg p rs)) in
  let* ph := proxy_shutdown ph in
  let* (f, ph) := run ctx shut f ph in
  let* ph := proxy_drop ph in
  let* (f, ph) := run ctx dropped f ph in
  with_px ph (fun p =>
  let ph := set_ph ph (set_px_idle_workers p None) in
  let* (ended, ph) := joins ctx sched (num ph) 0 f ph in
  if (ended : bool) then let* ph := close_rest env ph in ret (true, ph) else ret (false, ph))).

Definition free_run (env : lenv) (ctx : Md5.MD5_CTX) (before shut dropped : list act) (sched : nat -> list act)
    (f : nat -> phase) (ph : proxy_handle) : IO (bool * proxy_handle) :=
  let* (ended, ph) := close_run env ctx before shut dropped sched f ph in
  if (ended : bool) then let* ph := free_rest env ph in ret (true, ph) else ret (false, ph).

End Close.

(** How many steps of worker [j] are among [acts]. *)
Definition steps_of (j : nat) (acts : list act) : nat := sum_list ((fun a => works a j) <$> acts).

(** The connections are not accepted while the proxy is closed: the main thread
    closes it. *)
Definition no_process (acts : list act) : Prop := Forall (fun a => a <> Process) acts.

(** ** Draining *)

(** The worker's thread is up, or gone. *)
Definition fit_closing : Fit := fun w => worker_up w \/ wpriv w = None.

Lemma consistent_closing {Rx : Pcre} f ph : is_consistent f ph -> is_consistent (F := fit_closing) f ph.
Proof.
  intros (p & cs & ws & idle & bk & iw & [Hok Had Hli Hlg Ho]). exists p, cs, ws, idle, bk, iw. split; try done.
  destruct Hok as [Hp Hc Hw Hn Hrep Hbk Hsl Hid Hch Hnd Hup Hlv Hfr Hreg]. split; try done. left. by eapply Hup.
Qed.

Section Drain.
Context {O : OS} {Hos : OSLaws O} {Hal : AllocOK O} {Rx : Pcre} {F : Fit}.

Definition left_at (f : nat -> phase) (ph : proxy_handle) (j : nat) : nat := left (f j) (conn_at ph j).

(** After some steps no worker is further away from waiting than before, and each
    is by as many steps nearer as it was given. *)
Lemma run_drains ctx acts : forall f ph h,
  is_consistent f ph -> no_process acts -> all_gone (ph_conns ph) ->
  wp (run ctx acts f ph) h (fun res _ => is_consistent res.1 res.2 /\ num res.2 = num ph /\ all_gone (ph_conns res.2) /\
    forall j, (j < num ph)%nat -> (left_at res.1 res.2 j <= left_at f ph j - steps_of j acts)%nat).
Proof using Hos Hal.
  induction acts as [|a acts IH]; intros f ph h Hc Hn Hg; cbn [run]; wp_steps.
  { split_and!; [done|done|done|]. intros j _. change (steps_of j []) with 0%nat. cbn [fst snd]. lia. }
  apply Forall_cons in Hn as [Ha Hn]. eapply wp_mono; [by apply perform_moves|].
  intros [f1 ph1] e1 [Hc1 Hn1 Hg1 Hl1]. simpl in *.
  eapply wp_mono; [apply IH; [done|done|by apply Hg1]|]. intros [f2 ph2] e2 (Hc2 & Hn2 & Hg2 & Hl2). simpl in *.
  split_and!; [done|congruence|done|]. intros j Hj. specialize (Hl1 Hg j Hj). rewrite Hn1 in Hl2. specialize (Hl2 j Hj).
  change (steps_of j (a :: acts)) with (works a j + steps_of j acts)%nat. unfold left_at in *. lia.
Qed.

Lemma run_goes_on ctx acts : forall f ph h,
  is_consistent f ph -> no_process acts ->
  wp (run ctx acts f ph) h (fun res _ => is_consistent res.1 res.2 /\ num res.2 = num ph).
Proof using Hos Hal.
  induction acts as [|a acts IH]; intros f ph h Hc Hn; cbn [run]; wp_steps; [done|].
  apply Forall_cons in Hn as [Ha Hn]. eapply wp_mono; [by apply perform_moves|].
  intros [f1 ph1] e1 [Hc1 Hn1 _ _]. eapply wp_mono; [by apply IH|]. intros [f2 ph2] e2 [Hc2 Hn2]. simpl in *.
  split; [done|congruence].
Qed.

Lemma left_bound x c : (left x c <= 6)%nat.
Proof using. destruct x, c; simpl; lia. Qed.

Lemma at_rest_left f ph j : at_rest f ph j = true <-> left_at f ph j = 0%nat.
Proof using. unfold at_rest, left_at. by destruct (f j), (conn_at ph j). Qed.

End Drain.

(** ** The workers are freed *)

Section Joins.
Context {O : OS} {Hos : OSLaws O} {Hal : AllocOK O} {Rx : Pcre}.
#[local] Existing Instance fit_closing | 0.

(** Freeing a worker that waits leaves everything else. *)
Lemma worker_free_rest i f ph h :
  is_consistent f ph -> (i < num ph)%nat ->
  wp (proxy_worker_free i ph) h (fun ph' _ => is_consistent f ph' /\ num ph' = num ph /\ ph_conns ph' = ph_conns ph /\
    forall j, conn_at ph' j = conn_at ph j).
Proof using.
  intros (p & cs & ws & idle & bk & iw & Hco) Hi. pose proof Hco as [Hok Had Hli Hlg Ho].
  pose proof Hok as [Hp _ Hw [Hn Hl] _ _ _ _ _ _ Hup _ _ _]. unfold num in Hi. rewrite Hp, Hn in Hi.
  destruct (lookup_lt_is_Some_2 ws i ltac:(lia)) as [w Hwi]. unfold proxy_worker_free, on_pw, with_px. rewrite Hp, Hw, Hwi.
  wp_steps. eapply wp_mono; [apply worker_free_up, (Hup i w Hwi)|]. intros wk e Hwk.
  unfold mutex_free. wp_steps. eapply (wp_mono _ _ (fun _ _ => True)); [destruct (pw_mutex w); by wp_steps|].
  intros m e' _. wp_steps. set (w' := set_pw_worker w m wk).
  pose proof (ok_same _ _ _ _ _ _ _ i w w' Hok Hwi eq_refl eq_refl ltac:(by right)) as Hok'.
  assert (Hwc : forall j, worker_conn (<[i := w']> ws) j = worker_conn ws j) by (intros j; by apply (worker_conn_same _ _ w)).
  split_and!.
  - eapply (consistent_next _ _ _ _ _ _ _ _ Hco); [exact Hok'|done|]. by eapply owners_ext.
  - unfold num. by rewrite Hp.
  - done.
  - intros j. by rewrite (ok_conn_at _ _ _ _ _ _ _ j Hok'), (ok_conn_at _ _ _ _ _ _ _ j Hok).
Qed.

(** Every worker from [i] on gets the steps it needs before it is freed. *)
Definition enough (sched : nat -> list act) (i j need : nat) : Prop :=
  (need <= steps_of j (concat (sched <$> seq i (S j - i))))%nat.

Lemma steps_of_app j a b : steps_of j (a ++ b) = (steps_of j a + steps_of j b)%nat.
Proof using. unfold steps_of. by rewrite fmap_app, sum_list_with_app. Qed.

Lemma joins_ok ctx sched n : forall i f ph h,
  is_consistent f ph -> (forall m, no_process (sched m)) -> all_gone (ph_conns ph) -> (i + n = num ph)%nat ->
  (forall j, (j < i)%nat -> left_at f ph j = 0%nat) ->
  (forall j, (i <= j < num ph)%nat -> enough sched i j (left_at f ph j)) ->
  wp (joins ctx sched n i f ph) h (fun res _ => res.1 = true /\ exists f', is_consistent f' res.2 /\
    forall j, (j < num res.2)%nat -> left_at f' res.2 j = 0%nat).
Proof using Hos Hal.
  induction n as [|n IH]; intros i f ph h Hc Hnp Hg Hi H0 He; cbn [joins]; wp_steps.
  { split; [done|]. exists f. split; [done|]. intros j Hj. apply H0. simpl in Hj. lia. }
  eapply wp_mono; [by apply run_drains|]. intros [f1 ph1] e1 (Hc1 & Hn1 & Hg1 & Hl1). simpl in *.
  assert (Hi1 : left_at f1 ph1 i = 0%nat).
  { specialize (Hl1 i ltac:(lia)). specialize (He i ltac:(lia)). unfold enough in He.
    replace (S i - i)%nat with 1%nat in He by lia. cbn [seq fmap list_fmap concat] in He. rewrite app_nil_r in He. lia. }
  rewrite (proj2 (at_rest_left _ _ _) Hi1). wp_steps.
  eapply wp_mono; [apply worker_free_rest; [done|lia]|]. intros ph2 e2 (Hc2 & Hn2 & Hh2 & Hw2).
  assert (Hl2 : forall j, left_at f1 ph2 j = left_at f1 ph1 j) by (intros j; unfold left_at; by rewrite Hw2).
  apply IH; [done|done|by rewrite Hh2|lia| |].
  - intros j Hj. rewrite Hl2. destruct (decide (j = i)) as [->|Hne]; [done|].
    specialize (Hl1 j ltac:(lia)). rewrite (H0 j) in Hl1 by lia. lia.
  - intros j Hj. rewrite Hl2. specialize (Hl1 j ltac:(lia)). specialize (He j ltac:(lia)). unfold enough in *.
    replace (S j - i)%nat with (S (S j - S i)) in He by lia. cbn [seq fmap list_fmap concat] in He.
    rewrite steps_of_app in He. lia.
Qed.

(** The list of idle workers is cleared. *)
Lemma idle_cleared f ph p :
  is_consistent f ph -> ph_priv ph = Some p -> is_consistent f (set_ph ph (set_px_idle_workers p None)).
Proof using.
  intros (p0 & cs & ws & idle & bk & iw & Hco) Hp. pose proof Hco as [Hok _ _ _ Ho].
  assert (p0 = p) as -> by (pose proof (ok_priv _ _ _ _ _ _ _ Hok); congruence).
  eapply (consistent_next _ _ _ _ _ _ _ _ Hco _ _ (set_px_idle_workers p None) cs ws idle bk []); [|done|done].
  destruct Hok as [_ Hc Hw Hn Hrep Hbk Hsl Hid _ _ Hup Hlv _ Hreg]. split; try done; [apply NoDup_nil_2|].
  by intros i ?%not_elem_of_nil.
Qed.

Lemma rest_no_conn f ph p cs ws idle bk iw :
  proxy_ok ph p cs ws idle bk iw -> (forall j, (j < num ph)%nat -> left_at f ph j = 0%nat) -> forall i, worker_conn ws i = None.
Proof using.
  intros Hok Hl i. destruct (worker_conn ws i) as [k|] eqn:Hk; [|done].
  assert (Hi : (i < num ph)%nat).
  { pose proof Hok as [Hp _ _ [Hn Hlw] _ _ _ _ _ _ _ _ _ _]. unfold num. rewrite Hp, Hn.
    apply worker_conn_Some in Hk as (w & ?%lookup_lt_Some & _). lia. }
  specialize (Hl i Hi). unfold left_at in Hl. rewrite (ok_conn_at _ _ _ _ _ _ _ i Hok), Hk in Hl. by destruct (f i).
Qed.

(** When all workers wait there is nothing left, and closing ends. *)
Lemma close_drained env f ph h :
  is_consistent f ph -> (forall j, (j < num ph)%nat -> left_at f ph j = 0%nat) ->
  wp (close_rest env ph) h (fun ph' _ => exists p', down ph' p').
Proof using.
  intros (p & cs & ws & idle & bk & iw & [Hok Had Hli Hlg Ho]) Hl.
  pose proof Hok as [Hp Hc Hw [Hn Hlw] _ _ _ _ _ _ _ _ _ Hreg].
  pose proof (rest_no_conn _ _ _ _ _ _ _ _ Hok Hl) as Hwn. destruct (owners_none _ _ _ _ Ho Hwn) as [Hdom Hcl]. eapply wp_mono.
  - apply (close_rest_ok _ _ p cs); try done; [by apply dom_empty_inv_L| |intros re; by eapply admits_pats].
    intros j c. eapply ok_fresh; [done|apply Hcl].
  - intros ph' e (_ & p' & Hd & _). by exists p'.
Qed.

(** From the dropping of the clients on. *)
Lemma close_dropped env ctx dropped sched f ph h :
  is_consistent f ph -> all_gone (ph_conns ph) -> no_process dropped -> (forall m, no_process (sched m)) ->
  (forall j, (j < num ph)%nat -> (6 <= steps_of j (dropped ++ concat (sched <$> seq 0 (S j))))%nat) ->
  wp (let* (f, ph) := run ctx dropped f ph in
      with_px ph (fun p =>
      let ph := set_ph ph (set_px_idle_workers p None) in
      let* (ended, ph) := joins ctx sched (num ph) 0 f ph in
      if (ended : bool) then let* ph := close_rest env ph in ret (true, ph) else ret (false, ph))) h
    (fun res _ => res.1 = true /\ exists p', down res.2 p').
Proof using Hos Hal.
  intros Hc Hg Hd Hnp Hen. wp_steps. eapply wp_mono; [by apply run_drains|].
  intros [f1 ph1] e1 (Hc1 & Hn1 & Hg1 & Hl1). cbn [fst snd] in *.
  assert (Hp1 : is_Some (ph_priv ph1)).
  { destruct Hc1 as (p & ? & ? & ? & ? & ? & [Hok _ _ _ _]). rewrite (ok_priv _ _ _ _ _ _ _ Hok). by eexists. }
  destruct Hp1 as [p1 Hp1]. unfold with_px at 1. rewrite Hp1. wp_steps. set (ph2 := set_ph ph1 _).
  assert (Hn2 : num ph2 = num ph) by (rewrite <- Hn1; unfold num; by rewrite Hp1).
  assert (Hl2 : forall j, left_at f1 ph2 j = left_at f1 ph1 j).
  { intros j. unfold left_at, conn_at, pw_at. by rewrite Hp1. }
  eapply wp_mono; [apply joins_ok; [by apply idle_cleared|done|done|done|lia|]|].
  - intros j [_ Hj]. rewrite Hn2 in Hj. rewrite Hl2. specialize (Hl1 j Hj). specialize (Hen j Hj).
    unfold enough. rewrite Nat.sub_0_r. rewrite steps_of_app in Hen.
    assert (left_at f ph j <= 6)%nat by apply left_bound. lia.
  - intros [b ph3] e3 (Hb & f3 & Hc3 & Hl3). cbn [fst snd] in *. subst b. wp_steps. eapply wp_mono; [by eapply close_drained|].
    intros ph4 e4 Hd4. by wp_steps.
Qed.

(** Closing ends, whatever is going on: the schedule gives every worker six steps
    between the dropping of the clients and the freeing of that worker. *)
Lemma close_run_ok env ctx before shut dropped sched f ph h :
  is_consistent (F := fit_up) f ph -> no_process (before ++ shut ++ dropped) -> (forall m, no_process (sched m)) ->
  (forall j, (j < num ph)%nat -> (6 <= steps_of j (dropped ++ concat (sched <$> seq 0 (S j))))%nat) ->
  wp (close_run env ctx before shut dropped sched f ph) h (fun res _ => res.1 = true /\ exists p', down res.2 p').
Proof using Hos Hal.
  intros Hc [Hb [Hs Hd]%Forall_app]%Forall_app Hnp Hen.
  apply consistent_closing in Hc as (p & cs & ws & idle & bk & iw & Hco). pose proof Hco as [Hok _ _ _ Ho].
  destruct (ok_reg _ _ _ _ _ _ _ Hok) as [r Hr].
  unfold close_run, with_px at 1. rewrite (ok_priv _ _ _ _ _ _ _ Hok). wp_steps.
  eapply wp_mono; [by eapply registration_stop_wp|]. intros [r1 rs] e1 (r' & Hr' & _). simpl in Hr'. wp_steps.
  pose proof (ok_reg_set _ _ _ _ _ _ _ _ _ Hok Hr') as Hok1.
  eapply wp_mono; [apply run_goes_on; [|done]|].
  { eapply (consistent_next _ _ _ _ _ _ _ _ Hco); [exact Hok1|done|done]. }
  intros [f2 ph2] e2 [(p2 & ? & ? & ? & ? & ? & Hco2) Hn2]. simpl in Hco2, Hn2. wp_steps.
  eapply wp_mono; [by eapply shutdown_moves|]. intros ph3 e3 [Hc3 Hn3 _ _]. wp_steps.
  eapply wp_mono; [by apply run_goes_on|]. intros [f4 ph4] e4 [(p4 & ? & ? & ? & ? & ? & Hco4) Hn4]. simpl in Hco4, Hn4. wp_steps.
  eapply wp_mono; [by eapply drop_moves|]. intros ph5 e5 [[Hc5 Hn5 _ _] Hg5].
  eapply close_dropped; [done|done|done|done|]. intros j Hj. apply Hen.
  rewrite Hn5, Hn4, Hn3, Hn2 in Hj. unfold num in *. by rewrite (ok_priv _ _ _ _ _ _ _ Hok).
Qed.

Lemma free_run_ok env ctx before shut dropped sched f ph h :
  is_consistent (F := fit_up) f ph -> no_process (before ++ shut ++ dropped) -> (forall m, no_process (sched m)) ->
  (forall j, (j < num ph)%nat -> (6 <= steps_of j (dropped ++ concat (sched <$> seq 0 (S j))))%nat) ->
  wp (free_run env ctx before shut dropped sched f ph) h (fun res _ =>
    res.1 = true /\ ph_priv res.2 = None /\ ph_conns res.2 = ∅).
Proof using Hos Hal.
  intros Hc Hn Hnp Hen. unfold free_run. wp_steps. eapply wp_mono; [by apply close_run_ok|].
  intros [b ph1] e1 (Hb & p1 & Hd). cbn [fst snd] in *. subst b. wp_steps.
  eapply wp_mono; [by eapply free_rest_ok|]. intros ph2 e2 Hr. by wp_steps.
Qed.

(** ** Without steps of other threads it is the function of the code *)

Lemma bind_ext_wp {A B} (m : IO A) (f g : A -> IO B) h P :
  wp m h P -> (forall a e, P a e -> f a (h ++ e) = g a (h ++ e)) -> bind m f h = bind m g h.
Proof using. intros (a & e & E & HP) Hfg. unfold bind. rewrite E. by rewrite Hfg. Qed.

Lemma bind_eq {A B} (m m' : IO A) (f : A -> IO B) h : m h = m' h -> bind m f h = bind m' f h.
Proof using. intros E. unfold bind. by rewrite E. Qed.

Lemma joins_all ctx n : forall i f ph h,
  is_consistent f ph -> (i + n = num ph)%nat -> (forall j, (j < num ph)%nat -> left_at f ph j = 0%nat) ->
  joins ctx (fun _ => []) n i f ph h = (let* ph := for_all n i proxy_worker_free ph in ret (true, ph)) h.
Proof using.
  induction n as [|n IH]; intros i f ph h Hc Hi Hl; cbn [joins for_all run]; rewrite bind_ret; [done|].
  rewrite (proj2 (at_rest_left _ _ _) (Hl i ltac:(lia))). rewrite bind_assoc.
  eapply bind_ext_wp; [apply worker_free_rest; [done|lia]|]. intros ph' e (Hc' & Hn' & _ & Hw').
  apply IH; [done|lia|]. intros j Hj. unfold left_at. rewrite Hw'. apply Hl. lia.
Qed.

(** The end of closing. *)
Lemma close_end_alone env ctx f ph h :
  is_consistent f ph -> (forall j, (j < num ph)%nat -> left_at f ph j = 0%nat) ->
  with_px ph (fun p =>
    let ph := set_ph ph (set_px_idle_workers p None) in
    let* (ended, ph) := joins ctx (fun _ => []) (num ph) 0 f ph in
    if (ended : bool) then let* ph := close_rest env ph in ret (true, ph) else ret (false, ph)) h =
  (let* ph := with_px ph (fun p =>
    let ph := set_ph ph (set_px_idle_workers p None) in
    let* ph := for_all (num ph) 0 proxy_worker_free ph in close_rest env ph) in ret (true, ph)) h.
Proof using.
  intros Hc Hr. assert (Hp : is_Some (ph_priv ph)).
  { destruct Hc as (p & ? & ? & ? & ? & ? & [Hok _ _ _ _]). rewrite (ok_priv _ _ _ _ _ _ _ Hok). by eexists. }
  destruct Hp as [p Hp]. unfold with_px. rewrite Hp. set (ph4 := set_ph ph _).
  assert (Hr4 : forall j, (j < num ph4)%nat -> left_at f ph4 j = 0%nat).
  { intros j Hj. unfold num in *. rewrite Hp in Hr. rewrite <- (Hr j Hj). unfold left_at, conn_at, pw_at. by rewrite Hp. }
  cbv zeta. rewrite (bind_eq _ _ _ _ (joins_all ctx (num ph4) 0 f ph4 h (idle_cleared _ _ _ Hc Hp) eq_refl Hr4)), !bind_assoc.
  apply bind_ext. intros ph5 h5. by rewrite bind_ret.
Qed.

Lemma close_run_alone env ctx f ph h :
  is_consistent (F := fit_up) f ph -> (forall j, (j < num ph)%nat -> at_rest f ph j = true) ->
  close_run env ctx [] [] [] (fun _ => []) f ph h = (let* ph := proxy_close env ph in ret (true, ph)) h.
Proof using Hos Hal.
  intros (p & cs & ws & idle & bk & iw & Hco)%consistent_closing Hr. pose proof Hco as [Hok _ _ _ Ho].
  destruct (ok_reg _ _ _ _ _ _ _ Hok) as [r Hreg]. pose proof (ok_priv _ _ _ _ _ _ _ Hok) as Hp.
  assert (Hr0 : forall j, (j < num ph)%nat -> left_at f ph j = 0%nat) by (intros j Hj; by apply at_rest_left, Hr).
  assert (Hg : all_gone (ph_conns ph)).
  { intros k [i Hi]%elem_of_dom%(ow_owned _ _ _ _ Ho). by rewrite (rest_no_conn _ _ _ _ _ _ _ _ Hok Hr0) in Hi. }
  unfold close_run, proxy_close. unfold with_px at 1 3. rewrite Hp, !bind_assoc.
  eapply bind_ext_wp; [by eapply registration_stop_wp|]. intros [r1 rs] e1 (r' & Hr' & _). simpl in Hr'.
  cbn [run]. rewrite bind_ret, !bind_assoc. pose proof (ok_reg_set _ _ _ _ _ _ _ _ _ Hok Hr') as Hok1.
  assert (Hc1 : is_consistent f (set_ph ph (set_px_reg p rs))).
  { eapply (consistent_next _ _ _ _ _ _ _ _ Hco); [exact Hok1|done|done]. }
  assert (Hr1 : forall j, (j < num (set_ph ph (set_px_reg p rs)))%nat -> left_at f (set_ph ph (set_px_reg p rs)) j = 0%nat).
  { intros j Hj. unfold num in *. rewrite Hp in Hr0. rewrite <- (Hr0 j Hj). unfold left_at, conn_at, pw_at. by rewrite Hp. }
  destruct Hc1 as (p1 & ? & ? & ? & ? & ? & Hco1).
  eapply bind_ext_wp; [by eapply shutdown_moves|]. intros ph2 e2 [Hc2 Hn2 Hg2 Hl2]. cbn [run]. rewrite bind_ret, !bind_assoc.
  destruct Hc2 as (p2 & ? & ? & ? & ? & ? & Hco2).
  eapply bind_ext_wp; [by eapply drop_moves|]. intros ph3 e3 [[Hc3 Hn3 _ Hl3] _]. cbn [run]. rewrite bind_ret.
  apply close_end_alone; [done|]. intros j Hj. rewrite Hn3 in Hj. specialize (Hl3 (Hg2 Hg) j Hj).
  rewrite Hn2 in Hj. specialize (Hl2 Hg j Hj). specialize (Hr1 j Hj). unfold left_at in *. lia.
Qed.

End Joins.
