(* ===== verification/ProxyProps.v ===== *)
(** * Properties of the proxy (src/src/proxy.c)

    What Proxy.v, ProxyRun.v, ProxySystem.v, ProxyLife.v and ProxyClose.v amount to, stated for
    the functions of proxy.c, with a system on which the hypotheses hold. *)

From stdpp Require Import functions.
From S2P Require Import Prelude Sys Mutex Worker Conn Conf ProxyConn Auth Pool Registration Log Proxy ProxyRun ProxySystem ProxyLife ProxyClose.

(** ** A server with one kind of client *)

(** Every call succeeds, and every peer says [msg]. *)
Definition new_fd (h : trace) : Z := Z.of_nat (fresh (set_map Z.to_nat (open_fds h) : gset nat)).

Definition Server (msg : list Z) : OS := fun h c =>
  match c with
  | CGetaddrinfo _ _ _ _ | CSetsockopt _ _ | CBind _ | CListen _ | CConnect _ | CShutdown _ | CClose _ => returns 0
  | CSocket _ | CAccept _ => returns (new_fd h)
  | _ => os_answer (OS := Peer msg) h c
  end.

Lemma new_fd_unused h : new_fd h ∉ open_fds h.
Proof.
  intros Hin. unfold new_fd in Hin. set (n := fresh _) in Hin.
  apply (is_fresh (set_map Z.to_nat (open_fds h) : gset nat)). apply elem_of_map. exists (Z.of_nat n).
  split; [by rewrite Nat2Z.id|done].
Qed.

Lemma Server_laws msg : bytes_ok msg -> OSLaws (Server msg).
Proof.
  intros Hm h c. destruct c; try apply (Peer_laws msg Hm); try (right; done); try done;
    (right; split; [unfold os_answer, Server, new_fd; simpl; lia|apply new_fd_unused]).
Qed.
#[export] Instance Server_alloc msg : AllocOK (Server msg).
Proof. intros h. apply (Peer_alloc msg). Qed.
#[export] Instance Server_pthread msg : PthreadOK (Server msg).
Proof.
  intros h b. unfold os_answer, Server, Peer, SendAll, Scripted, os_answer.
  case_decide; [destruct (length _)|]; done.
Qed.

(** ** Coming up *)

(** What proxyd.c does with the library: initialise, read the configuration [cf],
    open and start. *)
Definition bring_up {O : OS} {Rx : Pcre} (env : lenv) (ctx : Md5.MD5_CTX) (mem : nat -> Z) (cf : proxy_conf)
  : IO (Z * proxy_handle) :=
  let* (r, ph) := proxy_init env (mkPh conf_zero None ∅) in
  if r <? 0 then ret (r, ph) else
  let* (r, ph) := proxy_open env (mkPh cf (ph_priv ph) (ph_conns ph)) in
  if r <? 0 then ret (r, ph) else proxy_start ctx mem ph.

Section Up.
Context {O : OS} {Hos : OSLaws O} {Hal : AllocOK O} {Hpt : PthreadOK O} {Rx : Pcre}.

Lemma idle_opened cf n ph : idle_proxy cf n ph -> opened ph.
Proof using. intros (_ & p & cs & ws & idle & bk & iw & Hc & Hw & _). by exists p, cs, ws, idle, bk, iw. Qed.

Lemma bring_up_ok env ctx mem cf h :
  addresses_counted cf -> is_Some (password cf) -> suffix_fits ctx mem cf ->
  wp (bring_up env ctx mem cf) h (fun res _ =>
    (res.1 < 0 /\ (opened res.2 \/ exists p, ready res.2 p)) \/
    (res.1 = 0 /\ let n := length (source_addrs cf) in idle_proxy cf n res.2 /\
     exists p, ph_priv res.2 = Some p /\ px_usable p = Z.of_nat n)).
Proof using Hos Hal Hpt.
  intros Hadr Hpw Hfit. unfold bring_up. wp_steps. eapply wp_mono; [apply init_ok|].
  intros [r0 ph0] e0 (Hz & _ & p0 & [Hp Hh Hn Hi Hl Hli Hr Hpa]). cbn [fst snd] in *. subst r0.
  change (0 <? 0) with false. cbv iota. wp_steps.
  eapply wp_mono; [eapply (open_ok env (mkPh cf (ph_priv ph0) (ph_conns ph0)) p0); [by split|done|done]|].
  intros [r1 ph1] e1 [[Hneg Hrd]|(Hr1 & p1 & cs & ws & Hcf & Hco & Hwn & Hlen)]; cbn [fst snd] in *.
  { rewrite (proj2 (Z.ltb_lt _ _) Hneg). wp_steps. left. split; [done|by right]. }
  subst r1. change (0 <? 0) with false. cbv iota.
  eapply wp_mono; [apply (start_ok ctx mem cf (length (source_addrs cf))); [|done]|].
  { split; [done|]. by eexists p1, cs, ws, _, _, _. }
  intros res e2 [Hid [Hneg|[Hz Hu]]]; [left|right; by split]. split; [done|]. left. by eapply idle_opened.
Qed.

End Up.

(** *** An example *)

(** Two slots, a password that the clients know, and a name under which the proxy
    is registered. *)
Definition up_conf : proxy_conf :=
  set_field FRegName (Some (str "KM0H Proxy")) (set_field FPassword (Some (str "secret")) example_conf2).
Definition up_run : option (Z * proxy_handle) * trace :=
  bring_up (O := Server example_answer) (Rx := Literal) example_env example_ctx (fun _ => 7) up_conf [].

Lemma example_server_laws : OSLaws (Server example_answer).
Proof. apply Server_laws, example_answer_ok. Qed.

Lemma up_fits : suffix_fits example_ctx (fun _ => 7) up_conf.
Proof. intros name [= <-]. vm_compute. by eexists. Qed.

Lemma example_up : exists ph e, up_run = (Some (0, ph), e) /\ idle_proxy up_conf 2 ph.
Proof.
  assert (Hz : option_map fst (fst up_run) = Some 0) by (vm_compute; reflexivity).
  destruct (bring_up_ok (O := Server example_answer) (Hos := example_server_laws) (Rx := Literal)
              example_env example_ctx (fun _ => 7) up_conf []) as ([r ph] & e & E & Hres); [done|by eexists|apply up_fits|].
  assert (Eu : up_run = (Some (r, ph), e)) by exact E. rewrite Eu in Hz. simpl in Hz. injection Hz as ->. exists ph, e. split; [exact Eu|].
  destruct Hres as [[Hneg _]|(_ & Hi & _)]; [cbn [fst] in Hneg; lia|exact Hi].
Qed.

(** The first client arrives; worker 1 gets its connection. *)
Definition up_next : option (Z * proxy_handle) * trace :=
  match up_run with
  | (Some (_, ph), e) => proxy_process (Os := Server example_answer) (Rx := Literal) ph e
  | _ => (None, [])
  end.

Lemma example_next : exists ph e p cs ws idle bk iw,
  up_next = (Some (0, ph), e) /\ consistent (fun _ => Waiting) ph p cs ws idle bk iw /\ worker_conn ws 1 = Some 0%nat.
Proof.
  destruct example_up as (ph & e & E & (_ & p & cs & ws & idle & bk & iw & Hco & _ & _)).
  destruct (process_consistent (O := Server example_answer) (Hos := example_server_laws) _ _ _ _ _ _ _ _ Hco e)
    as ([r ph'] & e' & E' & p' & cs' & ws' & idle' & bk' & iw' & Hco').
  assert (Hz : up_next = (Some (r, ph'), e')) by (unfold up_next; by rewrite E).
  assert (Hc : match fst up_next with
               | Some (r, ph) => Some (r, pw_at (Rx := Literal) ph 1 ≫= pw_conn)
               | None => None end = Some (0, Some 0%nat)) by (vm_compute; reflexivity).
  rewrite Hz in Hc. cbn [fst] in Hc. injection Hc as -> Hc. exists ph', e', p', cs', ws', idle', bk', iw'.
  split; [done|]. split; [done|]. cbn [snd] in Hco'. destruct Hco' as [Hok _ _ _ _].
  unfold pw_at in Hc. by rewrite (ok_priv _ _ _ _ _ _ _ Hok), (ok_workers _ _ _ _ _ _ _ Hok) in Hc.
Qed.

(** ** Properties *)




(** Two clients whose sessions overlap. *)
Definition example_acts : list act :=
  [Process; Work 1 3; Work 1 3; Work 1 3; Process; Work 0 1; Forward Tcp 0 2; Work 1 3;
   Work 0 1; Work 0 1; Forward Control 1 1; Forward Data 0 3; Work 1 3].



(** C7. A worker that was given connection [k], all to itself, either is still in a
    session in a slot that was idle, or it is done: then the connection is gone
    and no other has changed, the idle slots are the same as before, and the
    worker is the first of the idle ones.  It does not matter whether the client
    was refused, found no slot or had its session. *)
Theorem worker_func_serves {O : OS} {Hos : OSLaws O} {Hal : AllocOK O} {Rx : Pcre} ctx n ph p cs ws idle bk iw i k h :
  proxy_ok ph p cs ws idle bk iw -> serving cs ws iw i k -> admits ph p ->
  exists res e, proxy_worker_func ctx n i ph h = (Some res, e) /\
    match res with
    | inl ph' => exists p' cs' ws' bk' s,
        s ∈ idle /\ proxy_ok ph' p' cs' ws' (without s idle) bk' iw /\ client_of cs' s = Some k
    | inr ph' => exists p' cs' ws' idle' bk',
        proxy_ok ph' p' cs' ws' idle' bk' (i :: iw) /\ idle' ≡ₚ idle /\ ph_conf ph' = ph_conf ph /\
        ph_conns ph' = delete k (ph_conns ph)
    end.
Proof. intros Hok Hsv Had. exact (func_ok ctx n ph p cs ws idle bk iw i k h Hok Hsv Had). Qed.

Lemma worker_func_serves_witness :
  exists ph idle iw res h e, proxy_worker_func (Os := Server example_answer) (Rx := Literal) example_ctx 3 1 ph h = (Some res, e) /\
    match res with
    | inl ph' => exists p' cs' ws' bk' s,
        s ∈ idle /\ proxy_ok ph' p' cs' ws' (without s idle) bk' iw /\ client_of cs' s = Some 0%nat
    | inr ph' => exists p' cs' ws' idle' bk',
        proxy_ok ph' p' cs' ws' idle' bk' (1%nat :: iw) /\ idle' ≡ₚ idle /\ ph_conf ph' = ph_conf ph /\
        ph_conns ph' = delete 0%nat (ph_conns ph)
    end.
Proof.
  destruct example_next as (ph & h & p & cs & ws & idle & bk & iw & _ & Hco & Hk).
  destruct (worker_func_serves (O := Server example_answer) (Hos := example_server_laws) (Rx := Literal)
              example_ctx 3 ph p cs ws idle bk iw 1 0 h) as (res & e & E & Hres).
  - exact (co_ok _ _ _ _ _ _ _ _ Hco).
  - apply (consistent_serving _ _ _ _ _ _ _ _ Hco); [exact Hk|]. intros s [?|?]; discriminate.
  - exact (co_admits _ _ _ _ _ _ _ _ Hco).
  - exists ph, idle, iw, res, h, e. split; [exact E|exact Hres].
Defined.

(** C17. A connection that arrives ends up with exactly one worker, the first of
    the idle ones, or it is freed again: with an error, or because no worker is
    idle or usable.  The connections of the other workers do not change. *)
Theorem proxy_process_hands_over {O : OS} {Hos : OSLaws O} {Rx : Pcre} ph p cs ws idle bk iw h :
  proxy_ok ph p cs ws idle bk iw -> is_Some (priv (px_listen p)) ->
  exists r ph' e, proxy_process ph h = (Some (r, ph'), e) /\
    exists p' ws' iw', proxy_ok ph' p' cs ws' idle bk iw' /\
      ((ph_conns ph' = ph_conns ph /\ (forall j, worker_conn ws' j = worker_conn ws j) /\
        (r < 0 /\ (iw' = iw \/ exists i, iw = i :: iw') \/
         r = 0 /\ iw' = iw /\ (iw = [] \/ px_usable p <= 0))) \/
       (r = 0 /\ exists i k c, iw = i :: iw' /\ ph_conns ph !! k = None /\ is_Some (priv c) /\
          ph_conns ph' = <[k := c]> (ph_conns ph) /\
          forall j, worker_conn ws' j = (<[i := Some k]> (worker_conn ws)) j)).
Proof.
  intros Hok Hli. destruct (process_ok ph p cs ws idle bk iw h Hok Hli) as ([r ph'] & e & E & p' & ws' & iw' & Hok' & _ & Hres).
  exists r, ph', e. split; [done|]. by exists p', ws', iw'.
Qed.

Lemma proxy_process_hands_over_witness :
  exists ph (p : proxy_priv (Rx := Literal)) ws idle bk iw h r ph' e cs, up_run = (Some (0, ph), h) /\
    proxy_process (Os := Server example_answer) (Rx := Literal) ph h = (Some (r, ph'), e) /\
    exists p' ws' iw', proxy_ok ph' p' cs ws' idle bk iw' /\
      ((ph_conns ph' = ph_conns ph /\ (forall j, worker_conn ws' j = worker_conn ws j) /\
        (r < 0 /\ (iw' = iw \/ exists i, iw = i :: iw') \/
         r = 0 /\ iw' = iw /\ (iw = [] \/ px_usable p <= 0))) \/
       (r = 0 /\ exists i k c, iw = i :: iw' /\ ph_conns ph !! k = None /\ is_Some (priv c) /\
          ph_conns ph' = <[k := c]> (ph_conns ph) /\
          forall j, worker_conn ws' j = (<[i := Some k]> (worker_conn ws)) j)).
Proof.
  destruct example_up as (ph & h & E & (_ & p & cs & ws & idle & bk & iw & Hco & _ & _)).
  destruct (proxy_process_hands_over (O := Server example_answer) (Hos := example_server_laws) (Rx := Literal)
              ph p cs ws idle bk iw h) as (r & ph' & e & Er & Hres).
  - exact (co_ok _ _ _ _ _ _ _ _ Hco).
  - exact (co_listen _ _ _ _ _ _ _ _ Hco).
  - exists ph, p, ws, idle, bk, iw, h, r, ph', e, cs. split; [exact E|]. split; [exact Er|exact Hres].
Defined.

(** C10. The critical section in which a worker gets a slot is a step of the pool:
    what it does to the lists and to the clients of the slots, searching the
    bucket for a reconnection and falling back on the oldest idle slot, is an
    [acquire] of Pool.v, with the same slot as its result. *)
Theorem slot_acquire_refines {O : OS} {Hos : OSLaws O} {Rx : Pcre} ph p cs ws idle bk iw i k call h :
  proxy_ok ph p cs ws idle bk iw -> worker_conn ws i = Some k ->
  exists res ph' e, slot_acquire k call ph h = (Some (res, ph'), e) /\
    exists cs' sl' p', ph_priv ph' = Some p' /\ px_clients p' = Some cs' /\ shows cs' sl' /\
      acquire (px_lists p) call (views cs) (px_lists p') sl' res.
Proof.
  intros Hok Hk. pose proof Hok as [Hp Hc Hw [Hn Hl] Hrep Hbk Hsl Hid Hch Hnd Hup Hlv Hfr Hreg].
  rewrite (ok_with_slots _ _ _ _ _ _ _ Hok).
  destruct (slot_acquire_wp ph p cs (ph_conns ph) idle bk k call (views cs) h) as ([res ph'] & e & E & Hres); try done.
  - by intros j [? _]%Hid.
  - by eapply Hlv.
  - apply shows_views.
  - intros j Hj Hb. apply Hid. split; [done|]. by eapply shows_busy; [apply shows_views|..].
  - destruct Hres as (cs' & H' & sl' & st' & Eph & Hac & _ & Hsh & _). cbn [fst snd] in *. subst ph'.
    exists res, (with_slots ph (set_px_lists p st') cs' H'), e. split; [exact E|]. by eexists cs', sl', _.
Qed.

Lemma slot_acquire_refines_witness :
  exists ph (p : proxy_priv (Rx := Literal)) cs h res ph' e, ph_priv ph = Some p /\ px_clients p = Some cs /\
    slot_acquire (Os := Server example_answer) (Rx := Literal) 0 example_call ph h = (Some (res, ph'), e) /\
    exists cs' sl' p', ph_priv ph' = Some p' /\ px_clients p' = Some cs' /\ shows cs' sl' /\
      acquire (px_lists p) example_call (views cs) (px_lists p') sl' res.
Proof.
  destruct example_next as (ph & h & p & cs & ws & idle & bk & iw & _ & Hco & Hk).
  destruct (slot_acquire_refines (O := Server example_answer) (Hos := example_server_laws) (Rx := Literal)
              ph p cs ws idle bk iw 1 0 example_call h) as (res & ph' & e & E & Hres).
  - exact (co_ok _ _ _ _ _ _ _ _ Hco).
  - exact Hk.
  - exists ph, p, cs, h, res, ph', e. destruct Hco as [Hok _ _ _ _].
    split; [exact (ok_priv _ _ _ _ _ _ _ Hok)|]. split; [exact (ok_clients _ _ _ _ _ _ _ Hok)|]. split; [exact E|exact Hres].
Defined.

(** C30. What the registrar is told: as slots in use the number of workers that are
    not idle, and as slots in all those that are usable; the proxy is busy when
    none is left.  A registration that is off stays off. *)
Theorem registration_reports_workers {Rx : Pcre} ph p cs ws idle bk iw h :
  proxy_ok ph p cs ws idle bk iw ->
  exists rs e, proxy_update_registration ph h = (Some (set_ph ph (set_px_reg p rs)), e) /\
    exists r r', rs_priv (px_reg p) = Some r /\ rs_priv rs = Some r' /\
      if decide (status r = REGISTRATION_STATUS_OFF) then r' = r
      else slots_used r' = u64 (px_num p - Z.of_nat (length iw)) /\ slots_total r' = u64 (px_usable p) /\
           status r' = (if slots_total r' <=? slots_used r' then REGISTRATION_STATUS_BUSY else REGISTRATION_STATUS_READY).
Proof.
  intros Hok. destruct (update_wp ph p cs ws idle bk iw h Hok) as (ph' & e & E & rs & -> & _ & r & r' & Hr & Hr' & Hst).
  exists rs, e. split; [exact E|]. exists r, r'. destruct Hr as [? _], Hr' as [? _]. by split_and!.
Qed.

Lemma registration_reports_workers_witness :
  exists ph (p : proxy_priv (Rx := Literal)) iw h rs e, up_next = (Some (0, ph), h) /\ ph_priv ph = Some p /\
    proxy_update_registration ph h = (Some (set_ph ph (set_px_reg p rs)), e) /\
    exists r r', rs_priv (px_reg p) = Some r /\ rs_priv rs = Some r' /\
      if decide (status r = REGISTRATION_STATUS_OFF) then r' = r
      else slots_used r' = u64 (px_num p - Z.of_nat (length (iw : list nat))) /\ slots_total r' = u64 (px_usable p) /\
           status r' = (if slots_total r' <=? slots_used r' then REGISTRATION_STATUS_BUSY else REGISTRATION_STATUS_READY).
Proof.
  destruct example_next as (ph & h & p & cs & ws & idle & bk & iw & E & [Hok _ _ _ _] & _).
  destruct (registration_reports_workers (Rx := Literal) ph p cs ws idle bk iw h)
    as (rs & e & Er & Hres).
  - exact Hok.
  - exists ph, p, iw, h, rs, e. split; [exact E|]. split; [exact (ok_priv _ _ _ _ _ _ _ Hok)|]. split; [exact Er|exact Hres].
Defined.


(** The two clients of [example_acts] are being served when the proxy is closed;
    while it waits for worker 0 both workers, and a forwarder, go on. *)
Definition work_run : option ((nat -> phase) * proxy_handle) * trace :=
  match up_run with
  | (Some (_, ph), h) =>
      let '(r, e) := run (Os := Server example_answer) (Rx := Literal) example_ctx example_acts (fun _ => Waiting) ph h in (r, h ++ e)
  | _ => (None, [])
  end.

Definition example_sched (i : nat) : list act :=
  if (i =? 0)%nat then [Work 0 1; Work 1 1; Forward Data 1 1; Work 0 1; Work 0 1; Work 0 1; Work 1 2; Work 0 1; Work 0 1]
  else replicate 6 (Work 1 1).

Lemma example_work : exists f ph h, work_run = (Some (f, ph), h) /\ is_consistent (Rx := Literal) f ph /\ num ph = 2%nat.
Proof.
  assert (Hn : option_map (fun x => num (Rx := Literal) (snd x)) (fst work_run) = Some 2%nat) by (vm_compute; reflexivity).
  destruct example_up as (ph & h & E & (_ & p & cs & ws & idle & bk & iw & Hco & _ & _)).
  destruct (run_ok (O := Server example_answer) (Hos := example_server_laws) (Rx := Literal) example_ctx example_acts
              (fun _ => Waiting) ph h) as ([f ph1] & e & E1 & Hc); [by exists p, cs, ws, idle, bk, iw|].
  assert (Ew : work_run = (Some (f, ph1), h ++ e)) by (unfold work_run; by rewrite E, E1).
  rewrite Ew in Hn. injection Hn as Hn.
  exists f, ph1, (h ++ e). split; [exact Ew|]. split; [exact Hc|exact Hn].
Qed.


(** Closing the proxy while the two clients are served, and freeing it: whether
    closing ends, the head of the list of idle workers then, and whether freeing
    comes to its end. *)
Definition close_and_free : option (bool * option nat * bool) :=
  match work_run with
  | (Some (f, ph), h) =>
      match close_run (Os := Server example_answer) (Rx := Literal) example_env example_ctx [] [] [] example_sched f ph h with
      | (Some (b, ph'), e) =>
          Some (b, ph_priv ph' ≫= px_idle_workers,
                bool_decide (is_Some (fst (proxy_free (Os := Server example_answer) example_env ph' (h ++ e)))))
      | _ => None
      end
  | _ => None
  end.

(** A worker that ends its session while the proxy is being closed puts itself in
    the list of idle workers, which [proxy_close] has cleared by then; the list
    still leads into the array of the workers when that has been freed.  A later
    [proxy_free], or [proxy_close], follows it. *)
Theorem proxy_close_dangles : close_and_free = Some (true, Some 0%nat, false).
Proof. vm_compute. reflexivity. Qed.

(** A proxy that serves nobody, open or not, can be closed and freed: closing
    comes to an end and leaves a proxy that can be opened again;
    freeing leaves nothing. *)
Theorem proxy_goes_down {O : OS} {Hos : OSLaws O} {Rx : Pcre} env ph h :
  opened ph \/ (exists p, ready ph p) ->
  (exists ph' e, proxy_close env ph h = (Some ph', e) /\ exists p, ready ph' p) /\
  (exists ph' e, proxy_free env ph h = (Some ph', e) /\ ph_priv ph' = None /\ ph_conns ph' = ∅).
Proof.
  intros Hst. split; [|exact (free_ok env ph h Hst)]. destruct Hst as [Ho|[p Hr]].
  - destruct (close_ok env ph h Ho) as (ph' & e & E & _ & Hr). by exists ph', e.
  - exact (close_ready_ok env ph p h Hr).
Qed.

Lemma proxy_goes_down_witness :
  exists ph h, up_run = (Some (0, ph), h) /\
    (exists ph' e, proxy_close (Os := Server example_answer) example_env ph h = (Some ph', e) /\ exists p, ready (Rx := Literal) ph' p) /\
    (exists ph' e, proxy_free (Os := Server example_answer) example_env ph h = (Some ph', e) /\ ph_priv ph' = None /\ ph_conns ph' = ∅).
Proof.
  destruct example_up as (ph & h & E & Hi). exists ph, h. split; [exact E|].
  apply (proxy_goes_down (O := Server example_answer) (Hos := example_server_laws) (Rx := Literal) example_env ph h).
  left. exact (idle_opened _ _ _ Hi).
Defined.
