(* ===== verification/Daemon.v ===== *)
(** * The daemon and the proxy together (src/src/proxyd.c with src/src/proxy.c)

    Proxyd.v has the main program, with the results of the library as answers.
    Here the same program runs on the proxy itself: it initialises a proxy, reads a
    configuration file into it, opens and starts it, accepts connections until a
    signal comes, while the threads of the proxy do whatever they do, and frees the
    proxy.  The theorems say that this whole program follows no bad pointer and
    leaves nothing behind, that it is a run of the program of Proxyd.v, and what
    happens when the file has no password. *)

From S2P Require Import Prelude Sys Mutex Worker Conn Conf ProxyConn Auth Pool Registration Log StateErr Proxyd.
From S2P Require Import Proxy ProxyRun ProxySystem ProxyLife ProxyClose ProxyProps.

(** ** The program *)

(** What is around the program: the contents of the configuration file, or the
    error of opening it; the answers of the other calls of [main]; the steps
    of the other threads before each test of the loop, while [main] waits for the
    signal, and while it frees the proxy. *)
Record world : Type := mkWorld {
  w_file : list Z + Z;
  w_an : answers;
  w_round : nat -> list act;
  w_wait : list act;
  w_before : list act;
  w_shut : list act;
  w_dropped : list act;
  w_sched : nat -> list act;
}.

Section program.
Context {Bd : Build} {Os : OS} {Rx : Pcre} (ctx : Md5.MD5_CTX) (mem : nat -> Z) (w : world).
Local Abbreviation an := (w_an w).
Local Abbreviation env := (an_log an).

(** The handle on the stack of [main], where the workers are, and what [main] has
    done. *)
Record dst : Type := mkD { d_ph : proxy_handle; d_at : nat -> phase; d_acts : list mact }.

Definition DM (A : Type) : Type := dst -> IO ((A + mend) * dst).

Definition dret {A} (x : A) : DM A := fun s => ret (inl x, s).
Definition dstop {A} (e : mend) : DM A := fun s => ret (inr e, s).
Definition dbind {A B} (m : DM A) (k : A -> DM B) : DM B := fun s =>
  let* (r, s) := m s in match r with inl x => k x s | inr e => ret (inr e, s) end.

Local Notation "m ;& k" := (dbind m (fun _ => k)) (at level 100, k at level 200, right associativity).
Local Notation "'let&' x ':=' m 'in' k" := (dbind m (fun x => k)) (at level 100, x binder, m at level 200, k at level 200).

Definition dacts (l : list mact) : DM unit := fun s => ret (inl tt, mkD (d_ph s) (d_at s) (d_acts s ++ l)).
Definition dact (a : mact) : DM unit := dacts [a].

(** A function of the library, which [main] calls with [ph]. *)
Definition call (a : mact) (f : proxy_handle -> IO (Z * proxy_handle)) : DM Z := fun s =>
  let* (r, ph) := f (d_ph s) in ret (inl r, mkD ph (d_at s) (d_acts s ++ [a])).

(** [proxyd_exit], before the threads have anything to do. *)
Definition dexit (r : Z) : DM unit := fun s =>
  let* ph := proxy_free env (d_ph s) in ret (inr (MReturn r), mkD ph (d_at s) (d_acts s ++ farewell an r)).

(** A part of [main] that has to do with the log of the proxy only; if it leaves
    for [proxyd_exit] the proxy is freed. *)
Definition lift {A} (m : MM A) : DM A := fun s =>
  with_px (d_ph s) (fun p =>
  let '(r, t) := m (mkSt (px_log p) (d_acts s)) in
  let ph := set_ph (d_ph s) (set_px_log p (m_log t)) in
  match r with
  | inr (MReturn _) => let* ph := proxy_free env ph in ret (r, mkD ph (d_at s) (m_acts t))
  | _ => ret (r, mkD ph (d_at s) (m_acts t))
  end).

(** The other threads. *)
Definition threads (acts : list act) : DM unit := fun s =>
  let* (f, ph) := run ctx acts (d_at s) (d_ph s) in ret (inl tt, mkD ph f (d_acts s)).

Definition dunless (r : Z) (m : DM unit) : DM unit := if r <? 0 then m else dret tt.

(** The dispatch loop, as in Proxyd.v. *)
Fixpoint serve (fuel k : nat) : DM Z :=
  threads (w_round w k) ;&
  if sentinel_at an k then dret 0 else
  match fuel with
  | O => dstop MRunning
  | S fuel =>
      lift (m_plog an LOG_LEVEL_DEBUG (str "Starting a processing run..." ++ [10])) ;&
      let& r := call AProcess proxy_process in
      if r =? 0 then serve fuel (S k)
      else if r =? - EINTR then
        dact AWait ;& threads (w_wait w) ;& (if is_some (an_signal an) then dret 0 else dstop MRunning)
      else if r <? 0 then lift (m_plog an LOG_LEVEL_FATAL (failure an (str "Message processing failure") r)) ;& dret r
      else dret r
  end.

(** [proxyd_exit], with the threads at work; the program hangs when a thread does
    not get the steps to its end. *)
Definition dfinish (r : Z) : DM unit := fun s =>
  let* (ended, ph) := free_run env ctx (w_before w) (w_shut w) (w_dropped w) (w_sched w) (d_at s) (d_ph s) in
  if (ended : bool) then ret (inr (MReturn r), mkD ph (d_at s) (d_acts s ++ farewell an r))
  else crash.

(** [main] with the options [o], after [proxy_init]. *)
Definition initialised (fuel : nat) (o : proxy_opts) (r : Z) : DM unit :=
  let path := main_config (an_readable an) (an_module an) o in
  dunless r (dact (AStderr (failure an (str "Failed to initialize proxy") r)) ;& dexit r) ;&
  lift (m_level (if opt_quiet o then LOG_LEVEL_WARN else log_level_of o)) ;&
  let& r := lift (m_select an LOG_MEDIUM_STDOUT) in
  dunless r (dact (AStderr (failure an (str "Failed to switch log to STDOUT") r)) ;& dexit r) ;&
  let& r := call (ALoad path) (fun ph => proxy_load_conf ph (w_file w)) in
  dunless r (lift (fatal an (str "Failed to load config from '" ++ path ++ str "'") r)) ;&
  let& r := call AOpen (proxy_open env) in
  dunless r (lift (fatal an (str "Failed to open proxy") r)) ;&
  lift (settle an o) ;&
  let& r := call AStart (proxy_start ctx mem) in
  dunless r (lift (fatal an (str "Failed to start proxy") r)) ;&
  lift (m_plog an LOG_LEVEL_INFO (str "Ready." ++ [10])) ;&
  let& r := (if r =? 0 then serve fuel 0 else dret r) in
  lift (m_plog an LOG_LEVEL_INFO (str "Shutting down..." ++ [10])) ;&
  dfinish r.

Definition daemon (fuel : nat) (argv : list (list Z)) : DM unit :=
  match parse_args argv opts_zero with
  | inr e => dstop (MExit e)
  | inl o => dacts (handlers an) ;& let& r := call AInit (proxy_init env) in initialised fuel o r
  end.

End program.

(** [main] starts with a zeroed handle, and the workers of a proxy wait. *)
Definition daemon_zero {Rx : Pcre} : dst := mkD (mkPh conf_zero None ∅) (fun _ => Waiting) [].

(** ** What the program keeps *)

Section keeps.
Context {Bd : Build} {O : OS} {Hos : OSLaws O} {Hal : AllocOK O} {Hpt : PthreadOK O} {Rx : Pcre}
  (ctx : Md5.MD5_CTX) (mem : nat -> Z) (w : world).
Local Abbreviation an := (w_an w).
Local Abbreviation env := (an_log an).

(** From [s], [m] follows no bad pointer; it ends in [Q], or stops in [E]. *)
Definition dwp {A} (m : DM A) (s : dst) (h : trace) (Q : A -> dst -> Prop) (E : mend -> dst -> Prop) : Prop :=
  wp (m s) h (fun res _ => match res.1 with inl x => Q x res.2 | inr e => E e res.2 end).

Lemma dwp_bind {A B} (m : DM A) (k : A -> DM B) s h Q E :
  dwp m s h (fun x s' => forall h', dwp (k x) s' h' Q E) E -> dwp (dbind m k) s h Q E.
Proof using.
  intros Hm. unfold dwp, dbind in *. apply wp_bind. eapply wp_mono; [exact Hm|]. intros [[x|e] s'] e1 Hx; simpl in Hx; [|by wp_steps].
  eapply wp_mono; [apply Hx|]. done.
Qed.

Lemma dwp_call {A} (a : mact) (f : proxy_handle -> IO (Z * proxy_handle)) (P : Z -> proxy_handle -> Prop) s h
    (k : Z -> DM A) Q E :
  wp (f (d_ph s)) h (fun res _ => P res.1 res.2) ->
  (forall r ph h', P r ph -> dwp (k r) (mkD ph (d_at s) (d_acts s ++ [a])) h' Q E) ->
  dwp (dbind (call a f) k) s h Q E.
Proof using.
  intros Hf Hk. apply dwp_bind. unfold dwp, call. wp_steps. eapply wp_mono; [exact Hf|]. intros [r ph] e HP. wp_steps.
  simpl. intros h'. by apply Hk.
Qed.

(** The log of a proxy that is ready, idle or at work can be replaced by another
    that is in order. *)
Definition relog (ph : proxy_handle) (p : proxy_priv) (log : log_handle) : proxy_handle := set_ph ph (set_px_log p log).

Lemma ready_relog ph p log : ready ph p -> log_safe log -> exists p', ready (relog ph p log) p'.
Proof using. intros [] Hl. eexists. by split. Qed.

Lemma idle_relog cf n ph p log :
  idle_proxy cf n ph -> ph_priv ph = Some p -> log_safe log -> idle_proxy cf n (relog ph p log).
Proof using.
  intros (Hcf & q & cs & ws & idle & bk & iw & [Hok Had Hli _ Ho] & Hn & Hl) Hp Hlog.
  rewrite (ok_priv _ _ _ _ _ _ _ Hok) in Hp. injection Hp as ->. split; [done|].
  exists (set_px_log p log), cs, ws, idle, bk, iw. split; [|done]. split; [|done|done|done|done]. destruct Hok. by split.
Qed.

(** What is left when the program ends: nothing, when it returns.  It goes on for
    more than [fuel] rounds only if no signal came in these. *)
Definition ended (fuel : nat) (e : mend) (s : dst) : Prop :=
  match e with
  | MReturn _ => ph_priv (d_ph s) = None /\ ph_conns (d_ph s) = ∅
  | MExit _ => s = daemon_zero
  | MParent => True
  | MRunning => is_consistent (d_at s) (d_ph s) /\ forall k, an_signal an = Some k -> (fuel < k)%nat
  | MCrash => False
  end.

Definition has_log (s : dst) : Prop := exists p, ph_priv (d_ph s) = Some p /\ log_safe (px_log p).

Lemma dwp_plog lvl text s h (Q : unit -> dst -> Prop) E :
  has_log s -> (forall acts, Q tt (mkD (d_ph s) (d_at s) acts)) -> dwp (lift w (m_plog an lvl text)) s h Q E.
Proof using.
  intros (p & Hp & Hl) HQ. unfold dwp, lift, with_px. rewrite Hp.
  assert (Hsame : set_ph (d_ph s) (set_px_log p (px_log p)) = d_ph s).
  { destruct s as [[cf pr hp] f a]. simpl in *. subst pr. by destruct p. }
  unfold m_plog, proxy_log. cbn [m_log m_acts]. destruct (_ <? _); [simpl; rewrite Hsame; apply wp_ret, HQ|].
  destruct (vprintf_safe (an_log an) (px_log p) lvl text Hl) as (acts & -> & _). simpl. rewrite Hsame. apply wp_ret, HQ.
Qed.

(** States from which the proxy can be freed. *)
Definition freeable (ph : proxy_handle) : Prop := opened ph \/ exists p, ready ph p.

Lemma freeable_log s : freeable (d_ph s) -> has_log s.
Proof using.
  intros [(p & cs & ws & idle & bk & iw & [Hok _ _ Hl _] & _)|(p & [Hp _ _ _ Hl _ _ _])]; exists p; [|by split].
  split; [exact (ok_priv _ _ _ _ _ _ _ Hok)|done].
Qed.

Lemma dwp_exit r s h Q fuel : freeable (d_ph s) -> dwp (dexit w r) s h Q (ended fuel).
Proof using Hos.
  intros Hf. unfold dwp, dexit. wp_steps. eapply wp_mono; [by apply free_ok|]. intros ph e Hph. by wp_steps.
Qed.

(** What does not keep the program running without an end. *)
Definition quits {A} (m : MM A) : Prop := forall s, (m s).1 <> inr MRunning.

Lemma dwp_lift {A} (m : MM A) (P : proxy_handle -> Prop) s h Q fuel :
  well m -> quits m -> has_log s -> (forall ph, P ph -> freeable ph) ->
  (forall p log, ph_priv (d_ph s) = Some p -> log_safe log -> P (relog (d_ph s) p log)) ->
  (forall x ph acts t, (m t).1 = inl x -> P ph -> Q x (mkD ph (d_at s) acts)) ->
  dwp (lift w m) s h Q (ended fuel).
Proof using Hos.
  intros Hw Hq (p & Hp & Hl) HP Hre HQ. unfold dwp, lift, with_px. rewrite Hp.
  set (t := mkSt (px_log p) (d_acts s)). destruct (Hw t Hl) as (l & _ & Hs' & Hr). specialize (Hq t).
  pose proof (fun x ph acts => HQ x ph acts t) as HQt. specialize (Hre p _ Hp Hs').
  destruct (m t) as [[x|e] t']; simpl in *; [apply wp_ret; by apply HQt|].
  destruct e; try done; [|by apply wp_ret]. wp_steps. eapply wp_mono; [by apply free_ok, HP|].
  intros ph e Hph. by wp_steps.
Qed.

Lemma quits_bind {A B} (m : MM A) (k : A -> MM B) : quits m -> (forall x, quits (k x)) -> quits (mbind m k).
Proof using.
  intros Hm Hk s. unfold mbind. specialize (Hm s). destruct (m s) as [[x|e] s']; [apply Hk|]. simpl in *. congruence.
Qed.

Lemma quits_plog lvl text : quits (m_plog an lvl text).
Proof using. intros s. unfold m_plog. by destruct (proxy_log _ _ _ _ _). Qed.
Lemma quits_select m : quits (m_select an m).
Proof using. intros s. unfold m_select. by destruct (proxy_log_select_medium _ _ _ _) as [[[? ?] ?]|]. Qed.

Lemma quits_switch m what : quits (m_switch an m what).
Proof using. apply quits_bind; [apply quits_select|]. intros r. destruct (negb _); [apply quits_plog|done]. Qed.

Lemma quits_settle o : quits (settle an o).
Proof using.
  unfold settle. destruct (on_windows || opt_foreground o).
  - unfold stay. repeat case_match; try done; (apply quits_bind; [apply quits_plog|intros _; apply quits_switch]).
  - unfold daemonize. repeat first [apply quits_switch | apply quits_plog | apply quits_bind; [|intros ?] | case_match | done].
Qed.

Lemma freeable_relog ph p log : freeable ph -> ph_priv ph = Some p -> log_safe log -> freeable (relog ph p log).
Proof using.
  intros [(q & cs & ws & idle & bk & iw & Hco & Hn)|[q Hr]] Hp Hl.
  - left. eapply (idle_opened (ph_conf ph) (length cs)), idle_relog; [|done|done].
    split; [done|]. by exists q, cs, ws, idle, bk, iw.
  - right. rewrite (rd_priv _ _ Hr) in Hp. injection Hp as ->. by apply ready_relog.
Qed.

(** Leaving over an error of the library. *)
Lemma dwp_fatal what r s h Q fuel : freeable (d_ph s) -> dwp (lift w (fatal an what r)) s h Q (ended fuel).
Proof using Hos.
  intros Hf. apply (dwp_lift _ freeable).
  - unfold fatal. apply well_bind; [apply well_plog|intros _; apply well_exit_end].
  - unfold fatal. apply quits_bind; [apply quits_plog|done].
  - by apply freeable_log.
  - done.
  - intros. by apply freeable_relog.
  - intros x ph acts t Hx _. unfold fatal, mbind in Hx. destruct (m_plog an _ _ t) as [[?|?] ?]; discriminate.
Qed.

Lemma dwp_unless r (m : DM unit) s h (Q : unit -> dst -> Prop) E :
  (r < 0 -> dwp m s h Q E) -> (0 <= r -> Q tt s) -> dwp (dunless r m) s h Q E.
Proof using. intros Hm HQ. unfold dunless. destruct (Z.ltb_spec r 0); [by apply Hm|]. apply wp_ret. by apply HQ. Qed.

(** The proxy is at work. *)
Definition working (s : dst) : Prop := is_consistent (d_at s) (d_ph s).

Lemma working_log s : working s -> has_log s.
Proof using.
  intros (p & cs & ws & idle & bk & iw & [Hok _ _ Hl _]). exists p. split; [exact (ok_priv _ _ _ _ _ _ _ Hok)|done].
Qed.

Lemma dwp_threads acts s h Q E : working s -> (forall s', working s' -> Q tt s') -> dwp (threads ctx acts) s h Q E.
Proof using Hos Hal.
  intros Hs HQ. unfold dwp, threads. wp_steps. eapply wp_mono; [by apply run_ok|]. intros [f ph] e Hc. wp_steps. by apply HQ.
Qed.

Lemma daemon_serve_ok fuel : forall k s h, working s ->
  dwp (serve ctx w fuel k) s h (fun _ s' => working s')
    (fun e s' => e = MRunning /\ working s' /\ forall n, an_signal an = Some n -> (k + fuel < n)%nat).
Proof using Hos Hal.
  induction fuel as [|fuel IH]; intros k s h Hs; cbn [serve]; apply dwp_bind, dwp_threads; try done; intros s1 Hs1 h1;
    unfold sentinel_at.
  - destruct (an_signal an) as [n|] eqn:En; [destruct (Nat.leb_spec n k)|]; apply wp_ret; simpl; [done|..];
      (split; [done|split; [done|]]); intros ? [= <-]; lia.
  - destruct (match an_signal an with Some n => (n <=? k)%nat | None => false end); [by apply wp_ret|].
    apply dwp_bind, dwp_plog; [by apply working_log|]. intros acts h2.
    eapply (dwp_call _ _ (fun _ ph => is_consistent (d_at s1) ph)).
    { cbn [d_ph]. destruct Hs1 as (p & cs & ws & idle & bk & iw & Hco). by eapply process_consistent. }
    intros r ph h3 Hc. set (s2 := mkD _ _ _). assert (Hs2 : working s2) by exact Hc.
    destruct (r =? 0).
    { eapply wp_mono; [by apply (IH (S k) s2)|]. intros [[x|e] s'] e' Hx; simpl in *; [done|].
      destruct Hx as (? & ? & Hn). split_and!; [done|done|]. intros n Hsn. apply Hn in Hsn. lia. }
    destruct (r =? - EINTR); [|destruct (r <? 0)].
    + apply dwp_bind. apply wp_ret. cbn [fst snd]. intros h4. apply dwp_bind, dwp_threads; [done|]. intros s3 Hs3 h5.
      destruct (an_signal an); apply wp_ret; simpl; [done|]. by split_and!.
    + apply dwp_bind, dwp_plog; [by apply working_log|]. intros acts' h4. by apply wp_ret.
    + by apply wp_ret.
Qed.

(** A configuration with which a proxy can be run. *)
Definition usable (c : proxy_conf) : Prop := is_Some (password c) /\ suffix_fits ctx mem c.

(** The file is not accepted, or gives a configuration that can be used. *)
Definition file_usable : Prop :=
  forall r c, 0 <= r -> yields (conf_parse_file (w_file w) (snd (conf_init conf_zero))) (r, c) -> usable c.

(** The threads end when the proxy is freed. *)
Definition enough_steps : Prop :=
  no_process (w_before w ++ w_shut w ++ w_dropped w) /\ (forall m, no_process (w_sched w m)) /\
  forall j, (6 <= steps_of j (w_dropped w ++ concat (w_sched w <$> seq 0 (S j))))%nat.

Lemma finish_ok r s h Q fuel : enough_steps -> working s -> dwp (dfinish ctx w r) s h Q (ended fuel).
Proof using Hos Hal.
  intros (Hn & Hs & He) Hw. unfold dwp, dfinish. wp_steps. eapply wp_mono; [by apply free_run_ok|].
  intros [b ph] e [Hb Hph]. cbn [fst] in Hb. subst b. by wp_steps.
Qed.

(** From a proxy that is open to the end. *)
Lemma after_open_ok fuel o cf n s h :
  enough_steps -> suffix_fits ctx mem cf -> idle_proxy cf n (d_ph s) -> d_at s = (fun _ => Waiting) ->
  dwp (dbind (lift w (settle an o)) (fun _ =>
       dbind (call AStart (proxy_start ctx mem)) (fun r =>
       dbind (dunless r (lift w (fatal an (str "Failed to start proxy") r))) (fun _ =>
       dbind (lift w (m_plog an LOG_LEVEL_INFO (str "Ready." ++ [10]))) (fun _ =>
       dbind (if r =? 0 then serve ctx w fuel 0 else dret r) (fun r =>
       dbind (lift w (m_plog an LOG_LEVEL_INFO (str "Shutting down..." ++ [10]))) (fun _ =>
       dfinish ctx w r))))))) s h (fun _ _ => False) (ended fuel).
Proof using Hos Hal.
  intros Hen Hfit Hid Hat. apply dwp_bind. apply (dwp_lift _ (idle_proxy cf n)).
  - apply well_settle.
  - apply quits_settle.
  - apply freeable_log. left. by eapply idle_opened.
  - intros ph Hph. left. by eapply idle_opened.
  - intros p log Hp Hl. by apply idle_relog.
  - intros _ ph acts _ _ Hph h1. apply (dwp_call _ _ (fun r ph => idle_proxy cf n ph /\ (r < 0 \/ r = 0))).
    { eapply wp_mono; [by apply (start_ok ctx mem cf n)|]. intros res e [? [?|[? _]]]; auto. }
    cbn [d_at]. intros r ph1 h2 [Hid1 Hr]. rewrite Hat. set (s1 := mkD _ _ _).
    assert (Hw1 : working s1).
    { destruct Hid1 as (_ & p & cs & ws & idle & bk & iw & Hco & _). by exists p, cs, ws, idle, bk, iw. }
    apply dwp_bind, dwp_unless; [intros _; apply dwp_fatal; left; by eapply idle_opened|]. intros Hr0 h3.
    assert (r = 0) as -> by lia. change (0 =? 0) with true. cbv iota.
    apply dwp_bind, dwp_plog; [by apply working_log|]. intros acts1 h4.
    apply dwp_bind. eapply wp_mono; [by apply daemon_serve_ok|]. intros [[r|e] s2] e1; cbn [fst snd].
    + intros Hw2 h5. apply dwp_bind, dwp_plog; [by apply working_log|]. intros acts2 h6. by apply finish_ok.
    + intros (-> & Hw2 & Hsig). by split.
Qed.

Lemma daemon_ok fuel argv h :
  file_usable -> enough_steps -> dwp (daemon ctx mem w fuel argv) daemon_zero h (fun _ _ => False) (ended fuel).
Proof using Hos Hal Hpt.
  intros Hfile Hen. unfold daemon, initialised. destruct (parse_args argv opts_zero) as [o|e]; [|by apply wp_ret].
  apply dwp_bind. apply wp_ret. cbn [fst snd]. intros h'.
  apply (dwp_call _ _ (fun r ph => r = 0 /\ ph_conf ph = snd (conf_init conf_zero) /\ exists p, ready ph p)); [apply init_ok|].
  intros r0 ph0 h0 (-> & Hc0 & Hr0). apply dwp_bind, dwp_unless; [lia|]. intros _ h1.
  set (P := fun ph => ph_conf ph = snd (conf_init conf_zero) /\ exists p, ready ph p).
  assert (HPf : forall ph, P ph -> freeable ph) by (intros ph [_ ?]; by right).
  assert (Hre : forall ph p log, P ph -> ph_priv ph = Some p -> log_safe log -> P (relog ph p log)).
  { intros ph p log [Hc [q Hq]] Hp Hl. split; [done|]. rewrite (rd_priv _ _ Hq) in Hp. injection Hp as ->. by apply ready_relog. }
  apply dwp_bind, (dwp_lift _ P); [apply well_level|done|by apply freeable_log, HPf|done|by intros; apply Hre|].
  intros _ ph1 acts1 _ _ HP1 h2.
  apply dwp_bind, (dwp_lift _ P); [apply well_select|apply quits_select|by apply freeable_log, HPf|done|by intros; apply Hre|].
  intros r2 ph2 acts2 _ _ HP2 h3. apply dwp_bind, dwp_unless.
  { intros _. apply dwp_bind. apply wp_ret. intros h4. by apply dwp_exit, HPf. }
  intros _ h4. destruct HP2 as [Hc2 [p2 Hr2]].
  apply (dwp_call _ _ (fun r ph => ready ph p2 /\ addresses_counted (ph_conf ph) /\ (0 <= r -> usable (ph_conf ph)))).
  { eapply wp_mono; [apply (load_ok ph2 p2); [done|by rewrite Hc2]|]. intros res e (? & ? & Hy). split_and!; [done|done|].
    intros Hres. destruct (Hy Hres) as (r & Hr & Hyr). rewrite Hc2 in Hyr. by eapply Hfile. }
  intros r3 ph3 h5 (Hr3 & Hadr & Hus). apply dwp_bind, dwp_unless; [intros _; apply dwp_fatal; right; by exists p2|].
  intros [Hpw Hfit]%Hus h6.
  apply (dwp_call _ _ (fun r ph => (r < 0 /\ exists p, ready ph p) \/
    (r = 0 /\ idle_proxy (ph_conf ph3) (length (source_addrs (ph_conf ph3))) ph))).
  { eapply wp_mono; [by eapply open_ok|]. intros res e [?|(? & p & cs & ws & Hc & Hco & Hn & Hl)]; [by left|right].
    split; [done|]. split; [done|]. by eexists p, cs, ws, _, _, _. }
  intros r4 ph4 h7 Hopen. apply dwp_bind, dwp_unless.
  { intros Hneg. apply dwp_fatal. right. destruct Hopen as [[_ ?]|[? _]]; [done|lia]. }
  intros Hpos h8. destruct Hopen as [[? _]|[_ Hid]]; [lia|]. by eapply after_open_ok.
Qed.

End keeps.

(** ** The program is that of Proxyd.v *)

(** [a], with these results of the library. *)
Definition with_lib (a : answers) (init load open start : Z) (process : nat -> Z) : answers :=
  mkAnswers init load open (an_fork a) (an_setsid a) (an_setsid_errno a) (an_chdir a) (an_chdir_errno a)
    start process (an_signal a) (an_readable a) (an_strerror a) (an_log a) (an_module a) (an_handler a) (an_console a).

(** The actions but for what is written to the log or to standard error. *)
Definition is_call (a : mact) : bool := match a with ALog _ | AStderr _ => false | _ => true end.
Definition calls (l : list mact) : list mact := List.filter is_call l.

Section refines.
Context {Bd : Build} {O : OS} {Rx : Pcre} (ctx : Md5.MD5_CTX) (mem : nat -> Z) (w : world).
Local Abbreviation an := (w_an w).

Lemma calls_app l l' : calls (l ++ l') = calls l ++ calls l'.
Proof. apply List.filter_app. Qed.
Lemma calls_log l : calls (map ALog l) = [].
Proof. by induction l. Qed.

(** [m] makes the same calls, with the same result, whatever is in the log. *)
Definition blind {A} (m : MM A) : Prop := forall t t',
  log_safe (m_log t') -> calls (m_acts t) = calls (m_acts t') -> (m t).1 <> inr MCrash ->
  (m t).1 = (m t').1 /\ calls (m_acts (m t).2) = calls (m_acts (m t').2).

Lemma blind_bind {A B} (m : MM A) (k : A -> MM B) : well m -> blind m -> (forall x, blind (k x)) -> blind (mbind m k).
Proof.
  intros Hw Hm Hk t t' Hl Hc. unfold mbind. destruct (Hw t' Hl) as (_ & _ & Hl' & _). specialize (Hm t t' Hl Hc).
  destruct (m t) as [[x|e] t1], (m t') as [r' t1']; simpl in *; intros Hne.
  - destruct Hm as [<- Hc1]; [done|]. by apply Hk.
  - destruct Hm as [<- Hc1]; [congruence|done].
Qed.

Lemma blind_ret {A} (x : A) : blind (mret x).
Proof. by intros t t' _ Hc _. Qed.
Lemma blind_stop {A} e : blind (@mstop _ _ A e).
Proof. by intros t t' _ Hc _. Qed.
Lemma blind_act a : blind (mact1 a).
Proof. intros t t' _ Hc _. simpl. by rewrite !calls_app, Hc. Qed.

(** What only writes to the log. *)
Definition quiet (m : MM unit) : Prop := forall t,
  (m t).1 = inr MCrash \/ (m t).1 = inl tt /\ calls (m_acts (m t).2) = calls (m_acts t).

Lemma quiet_blind m : well m -> quiet m -> blind m.
Proof.
  intros Hw Hq t t' Hl Hc Hne. destruct (Hw t' Hl) as (l & _ & _ & Hr).
  destruct (Hq t) as [?|[-> ->]], (Hq t') as [E|[-> ->]]; try done. by rewrite E in Hr.
Qed.

Lemma quiet_level l : quiet (m_level l).
Proof. by right. Qed.
Lemma quiet_plog lvl text : quiet (m_plog an lvl text).
Proof.
  intros t. unfold m_plog. destruct (proxy_log _ _ _ _ _); [|by left]. right. simpl. by rewrite calls_app, calls_log, app_nil_r.
Qed.

Lemma select_quiet m t :
  (m_select an m t).1 = inr MCrash \/
  exists r, (m_select an m t).1 = inl r /\ calls (m_acts (m_select an m t).2) = calls (m_acts t) /\
    (m = LOG_MEDIUM_STDOUT -> r = 0).
Proof.
  unfold m_select. destruct (proxy_log_select_medium _ _ _ _) as [[[r l2] acts]|] eqn:E; [|by left]. right. exists r. simpl.
  rewrite calls_app, calls_log, app_nil_r. split_and!; [done|done|]. intros ->.
  unfold proxy_log_select_medium, log_select_medium, select_plain in E. by repeat case_match; simplify_eq/=.
Qed.

Lemma quiet_switch m what : quiet (m_switch an m what).
Proof.
  intros t. unfold m_switch, mbind. destruct (select_quiet m t) as [E|(r & E & Hc & _)];
    destruct (m_select an m t) as [? t1]; simpl in *; subst; [by left|].
  destruct (negb (r =? 0)); [|by right]. destruct (quiet_plog LOG_LEVEL_ERROR (failure an what r) t1) as [?|[? Hp]]; [by left|].
  right. by rewrite Hp.
Qed.

Lemma blind_plog lvl text : blind (m_plog an lvl text).
Proof. apply quiet_blind; [apply well_plog|apply quiet_plog]. Qed.
Lemma blind_switch m what : blind (m_switch an m what).
Proof.
  apply quiet_blind; [|apply quiet_switch]. unfold m_switch. apply well_bind; [apply well_select|].
  intros r. destruct (negb _); [apply well_plog|apply well_ret].
Qed.

Lemma blind_exit r : blind (m_exit an r).
Proof. intros t t' _ Hc _. unfold m_exit, mbind, macts, mstop. cbn [fst snd m_acts]. by rewrite !calls_app, Hc. Qed.

Lemma blind_settle o : blind (settle an o).
Proof.
  unfold settle, stay, daemonize.
  repeat first [apply blind_switch | apply blind_plog | apply blind_ret | apply blind_stop | apply blind_act | apply blind_exit
               | apply quiet_blind, quiet_level | apply blind_bind; [solve_well|..|intros ?] | case_match].
Qed.

Lemma blind_stdout : blind (m_select an LOG_MEDIUM_STDOUT).
Proof.
  intros t t' Hl Hc Hne. destruct (select_quiet LOG_MEDIUM_STDOUT t) as [?|(r & -> & -> & ->)]; [done| |done].
  destruct (well_select an LOG_MEDIUM_STDOUT t' Hl) as (? & ? & ? & Hr).
  destruct (select_quiet LOG_MEDIUM_STDOUT t') as [E|(r' & -> & -> & ->)]; [by rewrite E in Hr|done|done].
Qed.

(** The two programs have made the same calls, and the second has a log in order. *)
Definition related (s : dst) (t : mst) : Prop := log_safe (m_log t) /\ calls (d_acts s) = calls (m_acts t).

(** Every run of [m] that does not crash is a run of [m'], for some results of the
    library. *)
Definition implements {A L} (m : DM A) (m' : L -> MM A) : Prop := inhabited L /\ forall s h r s' tr,
  m s h = (Some (r, s'), tr) -> r <> inr MCrash ->
  exists l, forall t, related s t -> exists t', m' l t = (r, t') /\ related s' t'.

Lemma im_bind `{Inhabited A} {B L1 L2} (m : DM A) (k : A -> DM B) (m' : L1 -> MM A) (k' : A -> L2 -> MM B) :
  implements m m' -> (forall x, implements (k x) (k' x)) ->
  implements (dbind m k) (fun l : L1 * L2 => mbind (m' l.1) (fun x => k' x l.2)).
Proof.
  intros [[i1] Hm] Hk. destruct (Hk inhabitant) as [[i2] _]. split; [done|].
  intros s h r s' tr E Hr. unfold dbind, bind in E. destruct (m s h) as [[[r1 s1]|] e1] eqn:E1; [|done].
  destruct r1 as [x|e].
  - destruct (Hm _ _ _ _ _ E1) as [l1 Hl1]; [done|]. destruct (k x s1 (h ++ e1)) as [o e2] eqn:E2. injection E as -> _.
    destruct (proj2 (Hk _) _ _ _ _ _ E2 Hr) as [l2 Hl2]. exists (l1, l2). intros t (t1 & Ht1 & Hr1)%Hl1. unfold mbind. simpl.
    rewrite Ht1. by apply Hl2.
  - injection E as <- <- _. destruct (Hm _ _ _ _ _ E1) as [l1 Hl1]; [congruence|]. exists (l1, i2).
    intros t (t1 & Ht1 & Hr1)%Hl1. exists t1. unfold mbind. simpl. by rewrite Ht1.
Qed.

Lemma im_if {A L1 L2} (b : bool) (m1 m2 : DM A) (m1' : L1 -> MM A) (m2' : L2 -> MM A) :
  implements m1 m1' -> implements m2 m2' ->
  implements (if b then m1 else m2) (fun l : L1 * L2 => if b then m1' l.1 else m2' l.2).
Proof.
  intros [[i1] H1] [[i2] H2]. split; [done|]. intros s h r s' tr E Hr.
  destruct b; [destruct (H1 _ _ _ _ _ E Hr) as [l Hl]; by exists (l, i2)|].
  destruct (H2 _ _ _ _ _ E Hr) as [l Hl]. by exists (i1, l).
Qed.

Lemma im_lift {A} (m : MM A) : well m -> blind m -> implements (lift w m) (fun _ : unit => m).
Proof.
  intros Hw Hb. split; [done|]. intros s h r s' tr E Hr. exists tt. intros t [Hl Hc]. unfold lift, with_px in E.
  destruct (ph_priv (d_ph s)) as [p|]; [|done]. specialize (Hb (mkSt (px_log p) (d_acts s)) t Hl Hc).
  destruct (Hw t Hl) as (_ & _ & Hl' & _). destruct (m (mkSt _ _)) as [r0 t0], (m t) as [r1 t1]. simpl in *.
  assert (r0 = r /\ d_acts s' = m_acts t0) as [-> Ha].
  { destruct r0 as [|[]]; simpl in E; unfold bind, ret in E; try (by simplify_eq).
    destruct (proxy_free _ _ _) as [[]]; simpl in E; by simplify_eq. }
  destruct (Hb Hr) as [<- Hc']. exists t1. split; [done|]. split; [done|]. by rewrite Ha.
Qed.

Lemma im_ret {A} (x : A) : implements (dret x) (fun _ : unit => mret x).
Proof. split; [done|]. intros s h r s' tr [= <- <- _] _. exists tt. intros t Ht. by exists t. Qed.
Lemma im_stop {A} e : implements (A := A) (dstop e) (fun _ : unit => mstop e).
Proof. split; [done|]. intros s h r s' tr [= <- <- _] _. exists tt. intros t Ht. by exists t. Qed.

Lemma related_acts ph f l s t :
  related s t -> related (mkD ph f (d_acts s ++ l)) (mkSt (m_log t) (m_acts t ++ l)).
Proof. intros [Hl Hc]. split; [done|]. simpl. by rewrite !calls_app, Hc. Qed.

Lemma im_act a : implements (dact a) (fun _ : unit => mact1 a).
Proof. split; [done|]. intros s h r s' tr [= <- <- _] _. exists tt. intros t Ht. eexists. split; [done|]. by apply related_acts. Qed.

Lemma im_call a f : implements (call a f) (fun r : Z => mbind (mact1 a) (fun _ => mret r)).
Proof.
  split; [exact (inhabits 0)|]. intros s h r s' tr E _. unfold call, bind, ret in E. destruct (f (d_ph s) h) as [[[x ph]|] e]; [|done].
  injection E as <- <- _. exists x. intros t Ht. eexists. split; [done|]. by apply related_acts.
Qed.

Lemma im_exit r : implements (dexit w r) (fun _ : unit => m_exit an r).
Proof.
  split; [done|]. intros s h x s' tr E _. unfold dexit, bind, ret in E. destruct (proxy_free _ (d_ph s) h) as [[ph|] e]; [|done].
  injection E as <- <- _. exists tt. intros t Ht. eexists. split; [done|]. by apply related_acts.
Qed.

Lemma im_finish r : implements (dfinish ctx w r) (fun _ : unit => m_exit an r).
Proof.
  split; [done|]. intros s h x s' tr E _. unfold dfinish, bind, ret in E. destruct (free_run _ _ _ _ _ _ _ _ h) as [[[[] ph]|] e]; try done.
  injection E as <- <- _. exists tt. intros t Ht. eexists. split; [done|]. by apply related_acts.
Qed.

Lemma im_threads acts : implements (threads ctx acts) (fun _ : unit => mret tt).
Proof.
  split; [done|]. intros s h r s' tr E _. unfold threads, bind, ret in E. destruct (run _ _ _ _ h) as [[[f ph]|] e]; [|done].
  injection E as <- <- _. exists tt. intros t Ht. by exists t.
Qed.

Lemma im_unless {L} r (m : DM unit) (m' : L -> MM unit) :
  implements m m' -> implements (dunless r m) (fun l => unless r (m' l)).
Proof.
  intros Hm. unfold dunless, unless. destruct (r <? 0); [done|]. destruct Hm as [[i] _]. split; [done|].
  intros s h x s' tr E Hx. destruct (proj2 (im_ret tt) _ _ _ _ _ E Hx) as [_ Ht]. by exists i.
Qed.

Lemma im_fatal what r : implements (lift w (fatal an what r)) (fun _ : unit => fatal an what r).
Proof.
  unfold fatal. apply im_lift; [apply well_bind; [apply well_plog|intros _; apply well_exit_end]|].
  apply blind_bind; [apply well_plog|apply blind_plog|intros _; apply blind_exit].
Qed.

Lemma im_plog lvl text : implements (lift w (m_plog an lvl text)) (fun _ : unit => m_plog an lvl text).
Proof. apply im_lift; [apply well_plog|apply blind_plog]. Qed.

(** Another way to name the results. *)
Lemma im_conv {A L L'} (m : DM A) (m' : L -> MM A) (m2 : L' -> MM A) :
  implements m m' -> (forall l, exists l', forall t, m2 l' t = m' l t) -> implements m m2.
Proof.
  intros [[i] Hm] Hc. split; [by destruct (Hc i)|]. intros s h r s' tr E Hr. destruct (Hm _ _ _ _ _ E Hr) as [l Hl]. destruct (Hc l) as [l' Hl']. exists l'.
  intros t Ht. rewrite Hl'. by apply Hl.
Qed.

(** The loop looks at the results from its round on. *)
Lemma dispatch_ext pr pr' fuel : forall k t, (forall n, (k <= n)%nat -> pr n = pr' n) ->
  dispatch (with_lib an 0 0 0 0 pr) fuel k t = dispatch (with_lib an 0 0 0 0 pr') fuel k t.
Proof.
  induction fuel as [|fuel IH]; intros k t Hp; [reflexivity|]. cbn [dispatch].
  change (sentinel_at (with_lib _ _ _ _ _ _) k) with (sentinel_at an k).
  destruct (sentinel_at an k); [done|]. apply (mbind_ext (m_plog an _ _)). intros _ t1. apply (mbind_ext (mact1 _)). intros _ t2.
  cbn [an_process with_lib]. rewrite (Hp k) by lia. destruct (pr' k =? 0); [|done]. apply IH. intros n Hn. apply Hp. lia.
Qed.

Lemma im_serve fuel : forall k, implements (serve ctx w fuel k) (fun pr => dispatch (with_lib an 0 0 0 0 pr) fuel k).
Proof.
  induction fuel as [|fuel IH]; intros k.
  - eapply im_conv.
    + cbn [serve]. eapply im_bind; [apply im_threads|intros ?]. eapply im_if; [apply im_ret|apply im_stop].
    + intros l. exists (fun _ => 0). intros t. reflexivity.
  - eapply im_conv.
    + cbn [serve]. eapply im_bind; [apply im_threads|intros ?]. eapply im_if; [apply im_ret|].
      eapply im_bind; [apply im_plog|intros ?]. eapply im_bind; [apply im_call|intros r].
      eapply im_if; [apply IH|]. eapply im_if.
      { eapply im_bind; [apply im_act|intros ?]. eapply im_bind; [apply im_threads|intros ?]. eapply im_if; [apply im_ret|apply im_stop]. }
      eapply im_if; [eapply im_bind; [apply im_plog|intros ?; apply im_ret]|apply im_ret].
    + intros (l1 & l2 & l3 & r & pr & l4). exists (fun n => if (n =? k)%nat then r else pr n). intros t.
      cbn [dispatch]. change (sentinel_at (with_lib _ _ _ _ _ _) k) with (sentinel_at an k).
      match goal with |- _ = mbind (mret tt) ?f t => change (mbind (mret tt) f t) with (f tt t); cbv beta end.
      destruct (sentinel_at an k); [done|]. apply (mbind_ext (m_plog an _ _)). intros ? t1.
      unfold mbind, mact1, macts, mret, mstop. cbn [an_process with_lib fst snd]. rewrite Nat.eqb_refl.
      destruct (r =? 0); [|reflexivity]. apply dispatch_ext. intros n Hn. destruct (Nat.eqb_spec n k); [lia|done].
Qed.

Lemma im_initialised fuel o r0 argv :
  parse_args argv opts_zero = inl o ->
  exists L (m : L -> MM unit), implements (initialised ctx mem w fuel o r0) m /\
    forall l, exists x y z pr, forall t, main (with_lib an r0 x y z pr) fuel argv t =
      m l (mkSt (if r0 <? 0 then m_log t else snd (log_init true (m_log t))) ((m_acts t ++ handlers an) ++ [AInit])).
Proof.
  intros Ho. eexists _, _. split.
  - unfold initialised.
    eapply im_bind; [eapply im_unless, im_bind; [apply im_act|intros ?; apply im_exit]|intros ?].
    eapply im_bind; [eapply im_lift; [apply well_level|apply quiet_blind; [apply well_level|apply quiet_level]]|intros ?].
    eapply im_bind; [eapply im_lift; [apply well_select|apply blind_stdout]|intros r].
    eapply im_bind; [eapply im_unless, im_bind; [apply im_act|intros ?; apply im_exit]|intros ?].
    eapply im_bind; [apply im_call|intros r1]. eapply im_bind; [apply im_unless, im_fatal|intros ?].
    eapply im_bind; [apply im_call|intros r2]. eapply im_bind; [apply im_unless, im_fatal|intros ?].
    eapply im_bind; [eapply im_lift; [apply well_settle|apply blind_settle]|intros ?].
    eapply im_bind; [apply im_call|intros r3]. eapply im_bind; [apply im_unless, im_fatal|intros ?].
    eapply im_bind; [apply im_plog|intros ?]. eapply im_bind; [eapply im_if; [apply im_serve|apply im_ret]|intros r4].
    eapply im_bind; [apply im_plog|intros ?]. apply im_finish.
  - intros (l1 & l2 & l3 & l4 & x & l5 & y & l6 & l7 & z & l8 & l9 & [pr l10] & l11 & l12).
    exists x, y, z, pr. intros t. unfold main. rewrite Ho. reflexivity.
Qed.

End refines.

(** ** Examples *)

(** The lines of a configuration file. *)
Definition text (ls : list (list Z)) : list Z := concat ((fun l => l ++ [10]) <$> ls).

Definition example_file : list Z :=
  text [str "# example"; str "Password=secret"; str "RegistrationName = KM0H Proxy"; str "ExternalBindAddress=10.0.0.1";
        str "AdditionalExternalBindAddresses=10.0.0.2"].

(** Everything works, a signal comes after [n] runs, and the threads perform
    [rounds] meanwhile. *)
Definition example_world (file : list Z) (n : nat) (rounds : nat -> list act) : world :=
  mkWorld (inl file)
    (mkAnswers 0 0 0 0 1 0 0 0 0 (fun _ => 0) (Some n) true (fun _ => []) example_env [] None false)
    rounds [] [Work 0 1] [] [Work 1 1] (fun i => replicate 6 (Work i 1)).

Definition example_rounds (k : nat) : list act :=
  match k with
  | 1%nat => [Work 1 3; Work 1 3; Work 1 3]
  | 2%nat => [Work 0 1; Forward Tcp 0 2; Work 1 3; Work 0 1; Work 0 1]
  | _ => []
  end.

Definition example_daemon (file : list Z) (n : nat) (rounds : nat -> list act) : option ((unit + mend) * dst) :=
  fst (daemon (Bd := Linux) (Os := Server example_answer) (Rx := Literal) example_ctx (fun _ => 7)
         (example_world file n rounds) 9 [] daemon_zero []).

Lemma example_usable n rounds :
  file_usable (O := Server example_answer) example_ctx (fun _ => 7) (example_world example_file n rounds).
Proof.
  intros r c Hr Hy. specialize (Hy []). vm_compute in Hy. injection Hy as <- <-. split; [by eexists|].
  intros name [= <-]. vm_compute. by eexists.
Qed.

Lemma steps_replicate j n : steps_of j (replicate n (Work j 1)) = n.
Proof.
  induction n as [|n IH]; [done|]. change (replicate (S n) (Work j 1)) with ([Work j 1] ++ replicate n (Work j 1)).
  rewrite steps_of_app, IH. unfold steps_of, works. simpl. by rewrite decide_True.
Qed.

Lemma example_steps file n rounds : enough_steps (example_world file n rounds).
Proof.
  split_and!; [repeat constructor; discriminate|intros m; repeat constructor; discriminate|]. intros j.
  rewrite seq_S, fmap_app, concat_app, !steps_of_app.
  change (concat (w_sched _ <$> [_])) with (replicate 6 (Work j 1) ++ []). rewrite steps_of_app, steps_replicate. lia.
Qed.

(** ** Properties *)





(** How the daemon ends, if it does not follow a bad pointer. *)
Definition daemon_end (file : list Z) (n : nat) (rounds : nat -> list act) : option (unit + mend) :=
  option_map fst (example_daemon file n rounds).

